(* ===== verification/_CoqProject ===== *)
-Q . S2P
Prelude.v
Uint.v
U3072.v
Transaction.v
Smt.v
Dag.v
Difficulty.v
Ghostdag.v
NotePool.v
PoolDiff.v
PoolHashing.v
PoolCommitment.v
PoolValidate.v
PoolTheorems.v
UtxoAlgebra.v
Params.v
TxHashing.v
TxBinding.v
MuHash.v
Merkle.v
Mass.v
Coinbase.v
FinalityAnchor.v
AnchorState.v
Covenants.v
TxValidation.v
BodyValidation.v
ChainWalk.v
VirtualState.v
VirtualTheorems.v
VirtualProcessor.v
ReorgTheorems.v
ReorgExample.v
