(* ===== verification/Prelude.v ===== *)
(** * Marigold: a verification development

    Marigold is a proof-of-work ledger in Rust: a block DAG ordered by GHOSTDAG, a UTXO set,
    and beside it a note pool, a set of bearer notes of fixed denominations that is committed
    to in every header, with trustee-signed finality anchors on top.  This library models the
    consensus core and proves what makes it correct.

    ** How the parts interact

    A block body is checked alone ([BodyValidation], over [TxValidation]), its header data
    are computed from the DAG ([Ghostdag], [Difficulty]).  When a block may become part of
    the selected chain, the virtual processor takes the state of its selected parent, walks
    the mergeset in order, accepts the transactions that are valid in that state, and
    compares the result with the commitments of the header ([VirtualState]).  State is kept
    as diffs: UTXO diffs ([UtxoAlgebra]), pool diffs ([PoolDiff]), a multiset hash of the UTXO
    set ([MuHash]) and a sparse Merkle tree of the pool ([Smt], [PoolCommitment]).  Choosing
    a sink moves these diffs between chains ([VirtualProcessor] over [ChainWalk]), subject
    to the finality point and to the finality anchors ([FinalityAnchor], [AnchorState]).

    ** Files

    Paths are relative to [src/].  Types and functions keep their names in the source.

    - [Prelude]: the [outcome] monad ([Ok], [Err], [Panic]: a returned error and an unwound
      [unwrap], index or checked arithmetic are different things), machine integers as
      [Z] with checked operations, byte encodings, loops, lemmas on lists and maps.
    - [Uint], [U3072]: [math/src/uint.rs], [math/src/lib.rs], [crypto/muhash/src/u3072.rs].
      Limb arithmetic; a number is the list of its limbs.
    - [Transaction], [TxHashing], [TxBinding]: [consensus/core/src/tx.rs], [subnets.rs],
      [hashing/]: the data model, the preimages of ids and signature hashes, what they bind.
    - [Smt], [PoolCommitment]: [crypto/smt/src/tree.rs], [store.rs], and
      [consensus/src/model/stores/notepool_smt.rs].
    - [Dag], [Ghostdag], [Difficulty]: [consensus/src/processes/ghostdag/], [difficulty.rs],
      [model/stores/ghostdag.rs].
    - [NotePool], [PoolHashing], [PoolDiff], [PoolValidate], [PoolTheorems]:
      [consensus/core/src/notepool/] and [consensus/src/model/stores/notepool.rs].
    - [UtxoAlgebra]: [consensus/core/src/utxo/].
    - [Params]: fork activations of [consensus/core/src/config/params.rs].
    - [MuHash], [Merkle]: [crypto/muhash/src/lib.rs], [consensus/core/src/muhash.rs],
      [crypto/merkle/src/lib.rs].
    - [Mass], [Coinbase]: [consensus/core/src/mass/], [consensus/src/processes/coinbase.rs].
    - [FinalityAnchor], [AnchorState]: [consensus/core/src/finality_anchor/],
      [consensus/src/model/stores/finality_anchor.rs], and the anchor code of
      [virtual_processor/processor.rs] and [consensus/mod.rs].
    - [Covenants], [TxValidation], [BodyValidation]: [crypto/txscript/src/covenants.rs],
      [consensus/src/processes/transaction_validator/],
      [pipeline/body_processor/body_validation_in_isolation.rs].
    - [ChainWalk]: the iterators of [consensus/src/model/services/reachability.rs],
      [processes/traversal_manager.rs], [model/stores/selected_chain.rs].
    - [VirtualState], [VirtualTheorems]: [pipeline/virtual_processor/utxo_validation.rs].
    - [VirtualProcessor], [ReorgTheorems], [ReorgExample]:
      [pipeline/virtual_processor/processor.rs], [processes/block_depth.rs],
      [model/stores/virtual_state.rs].

    ** State and operations

    A hash map is a [gmap], a database table a [gmap] of its live rows; iteration over a hash
    map is iteration over [map_to_list], and the results do not depend on that order.  A
    function that mutates its argument returns the new value.  A batch of writes is applied
    when it is written.  [rayon] reductions are trees of splits ([schedule]) over which the
    theorems quantify.  Locks appear where the code releases them: collecting, gossiping and
    committing anchors are separate steps of [AnchorState].

    ** What the theorems show

    - Arithmetic: limb code computes the integers it stands for, overflow flags and panics
      included; compact targets and the difficulty of a window are exact.
    - Note pool: validation accepts exactly the operations the declarative [valid_in]
      describes, conserves value, consumes only authorised notes and never panics; diffs
      compose, reverse and apply like the functions on pools they stand for.
    - Commitments: the multiset hash, the sparse Merkle tree and the Merkle root are
      functions of the set they commit to, maintained by the incremental code.  For the sparse
      tree this holds of sets in which no two keys differ in the last bit alone and of batches
      that remove live leaves; [Smt] shows how the code goes wrong otherwise.
    - Transactions and blocks: each validator accepts exactly the rules stated; hashes bind
      the fields they are meant to bind, up to collisions on the preimages at hand.
    - GHOSTDAG: the coloring is the greedy one; the stored data stays well formed in every
      state grown from genesis.
    - Anchors: every anchor a node enforces was certified, under every interleaving of the two
      reads of a resolution, its commit and gossip; collection adopts the best anchor the
      chain and the disqualified trustees allow; conflicting anchors convict.
    - State: the state of a block is the sequential application of its accepted
      transactions, for every schedule; verification decides the header's commitments.
    - Reorganisations: from genesis on, every resolution returns, keeps all stores at the
      state of the sink, and the sink is the best eligible block, independent of the past;
      every candidate walked to is left verified or disqualified as its validity says.

    Where the code does something else than it means to, a theorem states what it does.

    ** Parameters and bounds

    Code outside the repository's sources is a type class whose laws are hypotheses of the
    theorems that use them: hash functions ([NotePoolHashers], [TxHashers], [AnchorHashers],
    [MuHashers], [SmtHasher], [MerkleHasher]), BIP340 ([SchnorrOracle]), borsh decoders
    ([PayloadDecoder], [AnchorDecoder], [ReleaseCodec]), the script engine's verdict
    ([ScriptEngine]), the modular inverse ([ModInverse]).  Two classes are interfaces between
    parts of the node: [ReachabilityService] (ancestry in the DAG) and [ChainService] (the
    tree of selected parents).

    Loops that are not structural carry fuel: the mergeset search the number of known
    blocks, the division the width in bits, the walk down a chain the height of its start
    plus one, the sink search the number of stored blocks plus one.  Each has a theorem that
    the fuel does not run out.  Scores and sums stay below the bounds a hypothesis names
    where the code computes with 64 bits.

    ** Not modelled

    The script interpreter, the signature schemes and the codecs behind the parameters; the
    storage layer and its caches; pruning and pruning proofs; the choice of virtual parents
    besides the sink, block templates and the mempool; the lane commitment behind
    [accepted_id_merkle_root]; networking, RPC, wallet and daemons.  They are I/O, client
    code, or enter the model only through the values they return. *)

From Stdlib Require Import ZArith Lia.
From stdpp Require Export sorting base tactics numbers option list gmap sets.

#[global] Open Scope Z_scope.

(** ** Fallible, possibly panicking computations

    A Rust function returning [Result<A, E>] becomes [outcome E A].  [Panic]
    stands for an unwound [unwrap]/[expect], an out-of-range index, or an
    arithmetic overflow: the workspace's release profile sets
    [overflow-checks = true], so [+], [-] and [*] abort instead of wrapping. *)
Inductive outcome (E A : Type) : Type :=
  | Ok (a : A)
  | Err (e : E)
  | Panic.
Arguments Ok {E A} _.
Arguments Err {E A} _.
Arguments Panic {E A}.

#[global] Instance outcome_ret {E} : MRet (outcome E) := fun _ a => Ok a.
#[global] Instance outcome_bind {E} : MBind (outcome E) := fun _ _ f m =>
  match m with
  | Ok a => f a
  | Err e => Err e
  | Panic => Panic
  end.
#[global] Instance outcome_eq_dec {E A} `{EqDecision E, EqDecision A} :
  EqDecision (outcome E A).
Proof. solve_decision. Defined.

(** [Result::map_err], also the conversion hidden in the [?] operator. *)
Definition map_err {E F A} (f : E → F) (m : outcome E A) : outcome F A :=
  match m with
  | Ok a => Ok a
  | Err e => Err (f e)
  | Panic => Panic
  end.

(** [Option::ok_or]. *)
Definition ok_or {E A} (o : option A) (e : E) : outcome E A :=
  match o with Some a => Ok a | None => Err e end.

(** [Option::unwrap] and [Option::expect]. *)
Definition unwrap {E A} (o : option A) : outcome E A :=
  match o with Some a => Ok a | None => Panic end.

(** [if cond { return Err(e) }]. *)
Definition reject_if {E} (cond : bool) (e : E) : outcome E unit :=
  if cond then Err e else Ok tt.

Definition is_ok {E A} (m : outcome E A) : bool :=
  match m with Ok _ => true | _ => false end.

Definition not_panic {E A} (m : outcome E A) : Prop := m ≠ Panic.

(** A [for] loop over [l] whose body may return early with [?]. *)
Fixpoint try_fold {E St A} (f : St → A → outcome E St) (s : St) (l : list A) : outcome E St :=
  match l with
  | [] => Ok s
  | a :: l => s' ← f s a; try_fold f s' l
  end.

(** The same over [.enumerate()], [i] being the index of the head. *)
Fixpoint try_foldi {E St A} (f : nat → St → A → outcome E St) (i : nat) (s : St) (l : list A)
    : outcome E St :=
  match l with
  | [] => Ok s
  | a :: l => s' ← f i s a; try_foldi f (S i) s' l
  end.

(** Collecting fallible items. *)
Fixpoint try_map {E A B} (f : A → outcome E B) (l : list A) : outcome E (list B) :=
  match l with
  | [] => Ok []
  | a :: l => b ← f a; bs ← try_map f l; Ok (b :: bs)
  end.

Section outcome_lemmas.
Context {E : Type}.

(** [injection] would also unfold the payload. *)
Lemma Ok_inj {A} (a b : A) : Ok (E := E) a = Ok b → a = b.
Proof. by intros [= ->]. Qed.

Lemma bind_Ok {A B} (f : A → outcome E B) (m : outcome E A) b :
  (m ≫= f) = Ok b ↔ ∃ a, m = Ok a ∧ f a = Ok b.
Proof. destruct m; simpl; naive_solver. Qed.

(** The case of [m1?; m2]. *)
Lemma then_Ok {B} (m1 : outcome E unit) (m2 : outcome E B) b :
  (m1 ;; m2) = Ok b ↔ m1 = Ok tt ∧ m2 = Ok b.
Proof. destruct m1 as [[]| |]; simpl; naive_solver. Qed.

Lemma bind_Err {A B} (f : A → outcome E B) (m : outcome E A) e :
  (m ≫= f) = Err e ↔ m = Err e ∨ ∃ a, m = Ok a ∧ f a = Err e.
Proof. destruct m; simpl; naive_solver. Qed.

Lemma bind_Panic {A B} (f : A → outcome E B) (m : outcome E A) :
  (m ≫= f) = Panic ↔ m = Panic ∨ ∃ a, m = Ok a ∧ f a = Panic.
Proof. destruct m; simpl; naive_solver. Qed.

Lemma not_panic_bind {A B} (m : outcome E A) (f : A → outcome E B) :
  not_panic m → (∀ a, m = Ok a → not_panic (f a)) → not_panic (m ≫= f).
Proof. unfold not_panic. intros Hm Hf [?|(a & Ha & Hp)]%bind_Panic; [done|by apply (Hf a)]. Qed.
Lemma not_panic_then {B} (m : outcome E unit) (n : outcome E B) :
  not_panic m → (m = Ok tt → not_panic n) → not_panic (m ;; n).
Proof. intros Hm Hn. apply not_panic_bind; [done|]. by intros []. Qed.
Lemma not_panic_map_err {F A} (f : F → E) (m : outcome F A) : not_panic m → not_panic (map_err f m).
Proof. unfold not_panic. by destruct m. Qed.
Lemma not_panic_Ok {A} (a : A) : not_panic (E := E) (Ok a).
Proof. done. Qed.
Lemma not_panic_ok_or {A} (o : option A) (e : E) : not_panic (ok_or o e).
Proof. by destruct o. Qed.
Lemma not_panic_reject c (e : E) : not_panic (reject_if c e).
Proof. by destruct c. Qed.

Lemma reject_if_Ok (c : bool) (e : E) u : reject_if c e = Ok u ↔ c = false.
Proof. destruct u, c; simpl; naive_solver. Qed.

(** The case of a comparison that rejects, and of one with a computed value. *)
Lemma guard_Ok {B} (Q : Prop) `{!Decision Q} (e : E) (m : outcome E B) b :
  (reject_if (negb (bool_decide Q)) e ;; m) = Ok b ↔ Q ∧ m = Ok b.
Proof. rewrite then_Ok, reject_if_Ok, negb_false_iff, bool_decide_eq_true. done. Qed.
Lemma bind_guard_Ok {A B} `{EqDecision A} (x : outcome E A) (c : A) (e : A → E) (m : outcome E B) b :
  (a ← x; reject_if (negb (bool_decide (a = c))) (e a) ;; m) = Ok b ↔ x = Ok c ∧ m = Ok b.
Proof.
  rewrite bind_Ok. setoid_rewrite guard_Ok. split; [by intros (a & ? & -> & ?)|intros []; by exists c].
Qed.
Lemma bind_case_Ok {A B} (Q : Prop) (c : A) (m : outcome E A) (f : A → outcome E B) b :
  (∀ a, m = Ok a ↔ Q ∧ a = c) → (m ≫= f) = Ok b ↔ Q ∧ f c = Ok b.
Proof. intros Hm. rewrite bind_Ok. setoid_rewrite Hm. naive_solver. Qed.

Lemma unwrap_Ok {A} (o : option A) (a : A) : unwrap (E := E) o = Ok a ↔ o = Some a.
Proof. destruct o; simpl; naive_solver. Qed.

Lemma map_err_Ok {F A} (f : F → E) (m : outcome F A) a :
  map_err f m = Ok a ↔ m = Ok a.
Proof. destruct m; simpl; naive_solver. Qed.

Lemma ok_or_Ok {A} (o : option A) (e : E) a : ok_or o e = Ok a ↔ o = Some a.
Proof. destruct o; simpl; naive_solver. Qed.

(** The loop rule: an invariant indexed by the elements already visited. *)
Lemma try_fold_inv {St A} (P : list A → St → Prop) (f : St → A → outcome E St) s l s' :
  P [] s →
  (∀ pre a post st st', l = pre ++ a :: post → P pre st → f st a = Ok st' → P (pre ++ [a]) st') →
  try_fold f s l = Ok s' →
  P l s'.
Proof.
  intros H0 Hstep.
  assert (∀ post pre st, l = pre ++ post → P pre st → try_fold f st post = Ok s' → P l s')
    as Hgen.
  { induction post as [|a post IH]; intros pre st -> HP; simpl.
    - rewrite app_nil_r. by intros [= <-].
    - rewrite bind_Ok. intros (st1 & Hf & Hrest).
      apply (IH (pre ++ [a]) st1); [by rewrite <- app_assoc|by eapply Hstep|done]. }
  by apply (Hgen l [] s).
Qed.

Lemma try_foldi_inv {St A} (P : list A → St → Prop) (f : nat → St → A → outcome E St) s l s' :
  P [] s →
  (∀ pre a post st st', l = pre ++ a :: post → P pre st →
     f (length pre) st a = Ok st' → P (pre ++ [a]) st') →
  try_foldi f 0 s l = Ok s' →
  P l s'.
Proof.
  intros H0 Hstep.
  assert (∀ post pre st, l = pre ++ post → P pre st →
            try_foldi f (length pre) st post = Ok s' → P l s') as Hgen.
  { induction post as [|a post IH]; intros pre st -> HP; simpl.
    - rewrite app_nil_r. by intros [= <-].
    - rewrite bind_Ok. intros (st1 & Hf & Hrest).
      apply (IH (pre ++ [a]) st1); [by rewrite <- app_assoc|by eapply Hstep|].
      rewrite length_app, Nat.add_comm. exact Hrest. }
  by apply (Hgen l [] s).
Qed.

(** A loop that only checks passes when its checks are weakened. *)
Lemma try_foldi_unit_mono {A} (f g : nat → unit → A → outcome E unit) n l :
  (∀ i a, a ∈ l → f i tt a = Ok tt → g i tt a = Ok tt) → try_foldi f n tt l = Ok tt → try_foldi g n tt l = Ok tt.
Proof.
  revert n. induction l as [|a l IH]; intros n Hfg; cbn [try_foldi]; [done|]. rewrite !bind_Ok.
  intros ([] & Hf & Hr). exists tt. split; [apply Hfg; [by left|done]|]. apply IH; [|done].
  intros i b Hb. apply Hfg. by right.
Qed.

(** Panic freedom of a loop, from an invariant every successful step keeps. *)
Lemma try_fold_no_panic {St A} (P : list A → St → Prop) (f : St → A → outcome E St) s l :
  P [] s →
  (∀ pre a post st, l = pre ++ a :: post → P pre st → not_panic (f st a)) →
  (∀ pre a post st st', l = pre ++ a :: post → P pre st → f st a = Ok st' → P (pre ++ [a]) st') →
  not_panic (try_fold f s l).
Proof.
  intros H0 Hnp Hstep.
  assert (∀ post pre st, l = pre ++ post → P pre st → not_panic (try_fold f st post)) as Hgen.
  { induction post as [|a post IH]; intros pre st -> HP; simpl; [done|].
    intros [Hp|(st1 & Hf & Hp)]%bind_Panic; [by eapply Hnp|].
    eapply (IH (pre ++ [a]) st1); [by rewrite <- app_assoc|by eapply Hstep|done]. }
  by apply (Hgen l [] s).
Qed.

Lemma try_foldi_no_panic {St A} (P : list A → St → Prop) (f : nat → St → A → outcome E St) s l :
  P [] s →
  (∀ pre a post st, l = pre ++ a :: post → P pre st → not_panic (f (length pre) st a)) →
  (∀ pre a post st st', l = pre ++ a :: post → P pre st →
     f (length pre) st a = Ok st' → P (pre ++ [a]) st') →
  not_panic (try_foldi f 0 s l).
Proof.
  intros H0 Hnp Hstep.
  assert (∀ post pre st, l = pre ++ post → P pre st →
            not_panic (try_foldi f (length pre) st post)) as Hgen.
  { induction post as [|a post IH]; intros pre st -> HP; simpl; [done|].
    intros [Hp|(st1 & Hf & Hp)]%bind_Panic; [by eapply Hnp|].
    eapply (IH (pre ++ [a]) st1); [by rewrite <- app_assoc|by eapply Hstep|].
    rewrite length_app, Nat.add_comm. exact Hp. }
  by apply (Hgen l [] s).
Qed.

(** A loop whose every step decides a property of its element, keeping an invariant. *)
Lemma try_foldi_decides {St A} (P : list A → St → Prop) (Q : A → Prop)
    (f : nat → St → A → outcome E St) s l :
  P [] s →
  (∀ pre a post st, l = pre ++ a :: post → P pre st →
     (Q a ∧ ∃ st', f (length pre) st a = Ok st' ∧ P (pre ++ [a]) st') ∨
     (¬ Q a ∧ ∃ e, f (length pre) st a = Err e)) →
  (Forall Q l ∧ ∃ s', try_foldi f 0 s l = Ok s' ∧ P l s') ∨
  (¬ Forall Q l ∧ ∃ e, try_foldi f 0 s l = Err e).
Proof.
  intros H0 Hstep.
  assert (∀ post pre st, l = pre ++ post → P pre st →
    (Forall Q post ∧ ∃ s', try_foldi f (length pre) st post = Ok s' ∧ P l s') ∨
    (¬ Forall Q post ∧ ∃ e, try_foldi f (length pre) st post = Err e)) as Hgen.
  { induction post as [|a post IH]; intros pre st Hl HP; cbn [try_foldi].
    - left. split; [done|]. exists st. rewrite app_nil_r in Hl. by subst.
    - rewrite Forall_cons.
      destruct (Hstep _ _ _ _ Hl HP) as [(HQ & st' & -> & HP')|(HQ & e & ->)];
        [|right; split; [tauto|by exists e]].
      cbn [mbind outcome_bind]. replace (S (length pre)) with (length (pre ++ [a]))
        by (rewrite length_app; simpl; lia).
      destruct (IH (pre ++ [a]) st') as [(? & ?)|(? & ?)]; [by rewrite <- app_assoc|done|..]; tauto. }
  by apply (Hgen l [] s).
Qed.

Lemma try_fold_decides {A} (Q : A → Prop) (f : unit → A → outcome E unit) l :
  (∀ a, a ∈ l → (Q a ∧ f tt a = Ok tt) ∨ (¬ Q a ∧ ∃ e, f tt a = Err e)) →
  (Forall Q l ∧ try_fold f tt l = Ok tt) ∨ (¬ Forall Q l ∧ ∃ e, try_fold f tt l = Err e).
Proof.
  induction l as [|a l IH]; intros Hf; [by left|]. cbn [try_fold]. rewrite Forall_cons.
  destruct (Hf a) as [(HQ & ->)|(HQ & e & ->)]; [by left| |right; split; [tauto|by exists e]].
  cbn [mbind outcome_bind]. destruct IH as [?|?]; [intros; apply Hf; by right|..]; tauto.
Qed.

Lemma try_fold_app {St A} (f : St → A → outcome E St) s l1 l2 :
  try_fold f s (l1 ++ l2) = (s' ← try_fold f s l1; try_fold f s' l2).
Proof.
  revert s; induction l1 as [|a l1 IH]; intros s; simpl; [done|].
  destruct (f s a); simpl; auto.
Qed.
End outcome_lemmas.

(** [outcome_inv H] splits a hypothesis saying that a chain of binds returned
    [Ok] into the success of every step. *)
Ltac outcome_inv H :=
  lazymatch type of H with
  | (_ ≫= _) = Ok _ =>
      let x := fresh "x" in let H1 := fresh H in let H2 := fresh H in
      apply bind_Ok in H as (x & H1 & H2); outcome_inv H1; outcome_inv H2
  | reject_if _ _ = Ok _ => apply reject_if_Ok in H
  | map_err _ _ = Ok _ => apply map_err_Ok in H; outcome_inv H
  | ok_or _ _ = Ok _ => apply ok_or_Ok in H
  | mret _ = Ok _ => injection H as H
  | Ok _ = Ok _ => injection H as H
  | Err _ = Ok _ => discriminate H
  | Panic = Ok _ => discriminate H
  | _ => idtac
  end.

(** ** Machine integers

    A [u64]/[u32]/[u8] is a [Z]; the arithmetic operators are checked. *)
Definition u64_max : Z := 2 ^ 64 - 1.
Definition in_u64 (z : Z) : Prop := 0 ≤ z ≤ u64_max.
Definition in_u32 (z : Z) : Prop := 0 ≤ z < 2 ^ 32.
Definition in_u16 (z : Z) : Prop := 0 ≤ z < 2 ^ 16.
#[global] Instance in_u64_dec z : Decision (in_u64 z).
Proof. unfold in_u64. apply _. Defined.
#[global] Instance in_u32_dec z : Decision (in_u32 z).
Proof. unfold in_u32. apply _. Defined.
#[global] Instance in_u16_dec z : Decision (in_u16 z).
Proof. unfold in_u16. apply _. Defined.

Definition u64_add {E} (a b : Z) : outcome E Z :=
  if a + b <=? u64_max then Ok (a + b) else Panic.
Definition u64_sub {E} (a b : Z) : outcome E Z :=
  if b <=? a then Ok (a - b) else Panic.
Definition u64_mul {E} (a b : Z) : outcome E Z :=
  if a * b <=? u64_max then Ok (a * b) else Panic.
(** [/] on [u64], and [u64::div_ceil]: both panic on a zero divisor. *)
Definition u64_div {E} (a b : Z) : outcome E Z := if b =? 0 then Panic else Ok (a / b).
Definition div_ceil (a b : Z) : Z := (a + b - 1) / b.
Definition div_ceil_checked {E} (b : Z) (a : Z) : outcome E Z :=
  if b =? 0 then Panic else Ok (div_ceil a b).
(** [x as i64] of a [u64], and checked [i64] arithmetic. *)
Definition as_i64 (a : Z) : Z := if a <? 2 ^ 63 then a else a - 2 ^ 64.
Definition i64_checked {E} (z : Z) : outcome E Z :=
  if (- 2 ^ 63 <=? z) && (z <? 2 ^ 63) then Ok z else Panic.
(** [u64::checked_mul], [u64::saturating_mul]. *)
Definition checked_mul (a b : Z) : option Z := if a * b <=? u64_max then Some (a * b) else None.
Definition saturating_mul (a b : Z) : Z := Z.min (a * b) u64_max.
(** [u64::checked_add]. *)
Definition checked_add (a b : Z) : option Z :=
  if a + b <=? u64_max then Some (a + b) else None.
Definition saturating_add (a b : Z) : Z := Z.min (a + b) u64_max.
Definition saturating_sub (a b : Z) : Z := Z.max (a - b) 0.
(** [iter().sum::<u64>()]: checked like [+]. *)
Definition u64_sum {E} (l : list Z) : outcome E Z := try_fold u64_add 0 l.

(** The ideal sum the checked one is compared with. *)
Definition Zsum (l : list Z) : Z := foldr Z.add 0 l.

Lemma Zsum_app l1 l2 : Zsum (l1 ++ l2) = Zsum l1 + Zsum l2.
Proof. unfold Zsum. induction l1; simpl in *; lia. Qed.

Lemma Zsum_cons x l : Zsum (x :: l) = x + Zsum l.
Proof. done. Qed.

Lemma Zsum_nonneg l : Forall (λ x, 0 ≤ x) l → 0 ≤ Zsum l.
Proof. unfold Zsum. induction 1; simpl in *; lia. Qed.

Lemma Zsum_bound l n : Forall (λ x, 0 ≤ x ≤ n) l → 0 ≤ Zsum l ≤ Z.of_nat (length l) * n.
Proof. unfold Zsum. induction 1; simpl in *; nia. Qed.

Lemma Zsum_Permutation l1 l2 : l1 ≡ₚ l2 → Zsum l1 = Zsum l2.
Proof. unfold Zsum. induction 1; simpl in *; lia. Qed.
#[global] Instance Zsum_Proper : Proper ((≡ₚ) ==> eq) Zsum.
Proof. intros l1 l2. apply Zsum_Permutation. Qed.

Lemma u64_add_Ok {E} a b c : u64_add (E := E) a b = Ok c ↔ c = a + b ∧ a + b ≤ u64_max.
Proof. unfold u64_add. destruct (Z.leb_spec (a + b) u64_max); naive_solver lia. Qed.

Lemma u64_sub_Ok {E} a b c : u64_sub (E := E) a b = Ok c ↔ c = a - b ∧ b ≤ a.
Proof. unfold u64_sub. destruct (Z.leb_spec b a); naive_solver lia. Qed.

Lemma checked_add_Some a b c : checked_add a b = Some c ↔ c = a + b ∧ a + b ≤ u64_max.
Proof. unfold checked_add. destruct (Z.leb_spec (a + b) u64_max); naive_solver lia. Qed.

Lemma u64_mul_total {E} a b : a * b ≤ u64_max → u64_mul (E := E) a b = Ok (a * b).
Proof. intros. unfold u64_mul. by rewrite (proj2 (Z.leb_le _ _)). Qed.
Lemma u64_div_total {E} a b : 0 < b → u64_div (E := E) a b = Ok (a / b).
Proof. intros. unfold u64_div. rewrite (proj2 (Z.eqb_neq b 0)) by lia. done. Qed.
Lemma checked_mul_total a b : a * b ≤ u64_max → checked_mul a b = Some (a * b).
Proof. intros. unfold checked_mul. by rewrite (proj2 (Z.leb_le _ _)). Qed.
Lemma checked_add_total a b : a + b ≤ u64_max → checked_add a b = Some (a + b).
Proof. intros. by apply checked_add_Some. Qed.
Lemma u64_sub_total {E} a b : b ≤ a → u64_sub (E := E) a b = Ok (a - b).
Proof. intros. by apply u64_sub_Ok. Qed.
Lemma u64_add_total {E} a b : a + b ≤ u64_max → u64_add (E := E) a b = Ok (a + b).
Proof. intros. by apply u64_add_Ok. Qed.

Lemma u64_sum_from {E} l s r :
  try_fold (u64_add (E := E)) s l = Ok r → r = s + Zsum l.
Proof.
  revert s; induction l as [|a l IH]; intros s; simpl.
  - intros [= <-]. unfold Zsum; simpl; lia.
  - rewrite bind_Ok. intros (s1 & [-> _]%u64_add_Ok & ->%IH). unfold Zsum; simpl; lia.
Qed.

Lemma u64_sum_Ok {E} l r : u64_sum (E := E) l = Ok r → r = Zsum l.
Proof. intros ->%u64_sum_from. lia. Qed.

Lemma u64_sum_from_total {E} l s :
  Forall (λ x, 0 ≤ x) l → s + Zsum l ≤ u64_max →
  try_fold (u64_add (E := E)) s l = Ok (s + Zsum l).
Proof.
  intros Hl. revert s. induction Hl as [|a l Ha Hl IH]; intros s Hs; simpl.
  - f_equal. unfold Zsum; simpl; lia.
  - pose proof (Zsum_nonneg _ Hl). rewrite Zsum_cons in *.
    rewrite u64_add_total by lia. simpl. rewrite IH by lia. f_equal; lia.
Qed.

Lemma u64_sum_total {E} l :
  Forall (λ x, 0 ≤ x) l → Zsum l ≤ u64_max → u64_sum (E := E) l = Ok (Zsum l).
Proof. intros. unfold u64_sum. rewrite u64_sum_from_total by (auto || lia). done. Qed.

(** ** Bytes and little-endian encodings *)
Definition byte_ok (b : Z) : Prop := 0 ≤ b < 256.
(** A Rust [[u8; n]]. *)
Definition byte_array (n : nat) (l : list Z) : Prop := length l = n ∧ Forall byte_ok l.

Definition ZERO_HASH : list Z := replicate 32 0.
#[global] Instance byte_ok_dec b : Decision (byte_ok b).
Proof. unfold byte_ok. apply _. Defined.
#[global] Instance byte_array_dec n l : Decision (byte_array n l).
Proof. unfold byte_array. apply _. Defined.

(** [uN::to_le_bytes] for an integer of [n] bytes. *)
Fixpoint le_bytes (n : nat) (z : Z) : list Z :=
  match n with
  | O => []
  | S n => z mod 256 :: le_bytes n (z / 256)
  end.

(** [uN::from_le_bytes]. *)
Fixpoint from_le_bytes (l : list Z) : Z :=
  match l with
  | [] => 0
  | b :: l => b + 256 * from_le_bytes l
  end.

Lemma length_le_bytes n z : length (le_bytes n z) = n.
Proof. revert z; induction n; simpl; auto. Qed.

Lemma le_bytes_ok n z : Forall byte_ok (le_bytes n z).
Proof.
  revert z; induction n as [|n IH]; intros z; simpl; constructor; [|done].
  unfold byte_ok. by apply Z.mod_pos_bound.
Qed.

Lemma from_le_bytes_le_bytes n z :
  0 ≤ z < 256 ^ Z.of_nat n → from_le_bytes (le_bytes n z) = z.
Proof.
  revert z; induction n as [|n IH]; intros z Hz; simpl.
  - change (256 ^ Z.of_nat 0) with 1 in Hz. lia.
  - rewrite IH; [pose proof (Z.div_mod z 256); lia|].
    rewrite Nat2Z.inj_succ, Z.pow_succ_r in Hz by lia.
    split; [apply Z.div_pos; lia|apply Z.div_lt_upper_bound; lia].
Qed.

Lemma le_bytes_from_le_bytes l :
  Forall byte_ok l → le_bytes (length l) (from_le_bytes l) = l.
Proof.
  unfold byte_ok. induction 1 as [|b l Hb Hl IH]; simpl; [done|].
  f_equal.
  - rewrite (Z.mul_comm 256), Z.mod_add, Z.mod_small by lia. done.
  - rewrite (Z.mul_comm 256), Z.div_add, Z.div_small by lia. simpl. apply IH.
Qed.

Lemma from_le_bytes_bound l :
  Forall byte_ok l → 0 ≤ from_le_bytes l < 256 ^ Z.of_nat (length l).
Proof.
  unfold byte_ok. induction 1 as [|b l Hb Hl IH].
  - simpl; lia.
  - cbn [length from_le_bytes]. rewrite Nat2Z.inj_succ, Z.pow_succ_r by lia. lia.
Qed.

Lemma le_bytes_inj n a b :
  0 ≤ a < 256 ^ Z.of_nat n → 0 ≤ b < 256 ^ Z.of_nat n →
  le_bytes n a = le_bytes n b → a = b.
Proof.
  intros Ha Hb Heq.
  rewrite <- (from_le_bytes_le_bytes n a), <- (from_le_bytes_le_bytes n b) by done.
  by rewrite Heq.
Qed.

(** Splitting equal concatenations at equal lengths. *)
Lemma app_split_eq {A} (a b c d : list A) :
  length a = length c → a ++ b = c ++ d → a = c ∧ b = d.
Proof. intros. by apply app_inj_1. Qed.

(** Reading back a run of fixed-size records of known count. *)
Lemma chunks_inj {A} (P : A → Prop) (f : A → list Z) n l1 l2 s1 s2 :
  (∀ x, P x → length (f x) = n) →
  (∀ x y, P x → P y → f x = f y → x = y) →
  Forall P l1 → Forall P l2 → length l1 = length l2 →
  flat_map f l1 ++ s1 = flat_map f l2 ++ s2 → l1 = l2 ∧ s1 = s2.
Proof.
  intros Hlen Hinj H1. revert l2. induction H1 as [|x l1 Hx H1 IH]; intros [|y l2] H2 Hl Heq;
    try discriminate; [done|].
  apply Forall_cons in H2 as [Hy H2]. simpl in Heq. rewrite <- !app_assoc in Heq.
  apply app_split_eq in Heq as [Hxy Heq]; [|by rewrite !Hlen].
  apply IH in Heq as [-> ->]; [|done|by injection Hl].
  split; [f_equal; by apply Hinj|done].
Qed.

(** [f] can be read back from the front of a byte string. *)
Definition prefix_inj {A} (P : A → Prop) (f : A → list Z) : Prop :=
  ∀ x y s t, P x → P y → f x ++ s = f y ++ t → x = y ∧ s = t.

Lemma prefix_inj_fixed {A} (P : A → Prop) (f : A → list Z) n :
  (∀ x, P x → length (f x) = n) → (∀ x y, P x → P y → f x = f y → x = y) → prefix_inj P f.
Proof.
  intros Hlen Hinj x y s t Hx Hy [Hf ->]%app_split_eq; [|by rewrite !Hlen].
  split; [by apply Hinj|done].
Qed.

Lemma prefix_inj_inj {A} (P : A → Prop) (f : A → list Z) x y :
  prefix_inj P f → P x → P y → f x = f y → x = y.
Proof.
  intros Hf Hx Hy Heq. destruct (Hf x y [] []) as [? _]; [done|done| |done].
  by rewrite !app_nil_r.
Qed.

(** A run of records of known count, each read back from the front. *)
Lemma prefix_inj_run {A} (P : A → Prop) (f : A → list Z) l1 l2 s t :
  prefix_inj P f → Forall P l1 → Forall P l2 → length l1 = length l2 →
  flat_map f l1 ++ s = flat_map f l2 ++ t → l1 = l2 ∧ s = t.
Proof.
  intros Hf H1. revert l2. induction H1 as [|x l1 Hx H1 IH]; intros [|y l2] H2 Hl Heq;
    try discriminate; [done|].
  apply Forall_cons in H2 as [Hy H2]. simpl in Heq. rewrite <- !app_assoc in Heq.
  apply Hf in Heq as [-> Heq]; [|done..]. apply IH in Heq as [-> ->]; [done|done|].
  by injection Hl.
Qed.

(** [f] determines the part [g] of the value it encodes, read from the front. *)
Definition prefix_proj {A B} (P : A → Prop) (g : A → B) (f : A → list Z) : Prop :=
  ∀ x y s t, P x → P y → f x ++ s = f y ++ t → g x = g y ∧ s = t.

Lemma prefix_proj_run {A B} (P : A → Prop) (g : A → B) (f : A → list Z) l1 l2 s t :
  prefix_proj P g f → Forall P l1 → Forall P l2 → length l1 = length l2 →
  flat_map f l1 ++ s = flat_map f l2 ++ t → g <$> l1 = g <$> l2 ∧ s = t.
Proof.
  intros Hf H1. revert l2. induction H1 as [|x l1 Hx H1 IH]; intros [|y l2] H2 Hl Heq;
    try discriminate; [done|].
  apply Forall_cons in H2 as [Hy H2]. cbn [flat_map] in Heq. rewrite <- !app_assoc in Heq.
  apply Hf in Heq as [Hxy Heq]; [|done..]. apply IH in Heq as [Hl' ->]; [|done|by injection Hl].
  split; [|done]. by rewrite !fmap_cons, Hxy, Hl'.
Qed.

(** A run of non-empty records needs no count when nothing follows it. *)
Lemma prefix_proj_free {A B} (P : A → Prop) (g : A → B) (f : A → list Z) l1 l2 :
  prefix_proj P g f → (∀ x, P x → f x ≠ []) → Forall P l1 → Forall P l2 →
  flat_map f l1 = flat_map f l2 → g <$> l1 = g <$> l2.
Proof.
  intros Hf Hne H1. revert l2. induction H1 as [|x l1 Hx H1 IH]; intros l2 H2 Heq.
  - destruct H2 as [|y l2 Hy H2]; [done|]. cbn [flat_map] in Heq.
    symmetry in Heq. by apply app_nil in Heq as [?%Hne _].
  - destruct H2 as [|y l2 Hy H2]; cbn [flat_map] in Heq.
    + by apply app_nil in Heq as [?%Hne _].
    + apply Hf in Heq as [Hxy Heq]; [|done..]. by rewrite !fmap_cons, Hxy, (IH l2).
Qed.

Lemma concat_flat_map {A} (ls : list (list A)) : concat ls = flat_map (λ x, x) ls.
Proof. induction ls; simpl; congruence. Qed.

Lemma le_bytes_u64_inj a b : in_u64 a → in_u64 b → le_bytes 8 a = le_bytes 8 b → a = b.
Proof. unfold in_u64, u64_max. intros ? ?. apply le_bytes_inj; simpl; lia. Qed.

Lemma le_bytes_u32_inj a b : in_u32 a → in_u32 b → le_bytes 4 a = le_bytes 4 b → a = b.
Proof. unfold in_u32. intros ? ?. apply le_bytes_inj; simpl; lia. Qed.

Lemma le_bytes_u16_inj a b : in_u16 a → in_u16 b → le_bytes 2 a = le_bytes 2 b → a = b.
Proof. unfold in_u16. intros ? ?. apply le_bytes_inj; simpl; lia. Qed.

(** [h1.as_bytes() <= h2.as_bytes()]: lexicographic. *)
Fixpoint bytes_leb (a b : list Z) : bool :=
  match a, b with
  | [], _ => true
  | _ :: _, [] => false
  | x :: a, y :: b => (x <? y) || ((x =? y) && bytes_leb a b)
  end.
Definition bytes_le (a b : list Z) : Prop := bytes_leb a b = true.
#[global] Instance bytes_le_dec : RelDecision bytes_le.
Proof. intros a b. unfold bytes_le. apply _. Defined.

#[global] Instance bytes_le_total : Total bytes_le.
Proof.
  intros a. unfold bytes_le. induction a as [|x a IH]; intros [|y b]; simpl; auto.
  destruct (Z.ltb_spec x y), (Z.ltb_spec y x); simpl; auto.
  assert (x = y) as -> by lia. rewrite Z.eqb_refl. simpl. apply IH.
Qed.

#[global] Instance bytes_le_trans : Transitive bytes_le.
Proof.
  intros a. unfold bytes_le. induction a as [|x a IH]; intros [|y b] [|z c]; simpl; try done.
  rewrite !orb_true_iff, !andb_true_iff, !Z.ltb_lt, !Z.eqb_eq.
  intros [?|[-> ?]] [?|[-> ?]]; try (left; lia). right. split; [done|by apply (IH b)].
Qed.

Lemma bytes_le_refl a : bytes_le a a.
Proof. by destruct (total bytes_le a a). Qed.

#[global] Instance bytes_le_antisymm : AntiSymm (=) bytes_le.
Proof.
  intros a. unfold bytes_le. induction a as [|x a IH]; intros [|y b]; simpl; try done.
  rewrite !orb_true_iff, !andb_true_iff, !Z.ltb_lt, !Z.eqb_eq.
  intros [?|[-> ?]] [?|[? ?]]; try lia. f_equal. by apply IH.
Qed.

(** Closes a decidable goal by evaluating its decision procedure. *)
Ltac by_decide := apply (bool_decide_unpack _); vm_compute; exact I.

(** ** Lists of keys and finite maps *)

Lemma find_None_forall {A} (f : A → bool) l :
  find f l = None ↔ ∀ x, x ∈ l → f x = false.
Proof.
  split.
  - intros H x Hx%list_elem_of_In. by apply (find_none f l H).
  - intros H. destruct (find f l) eqn:E; [|done].
    apply find_some in E as [Hx%list_elem_of_In Hf]. rewrite (H _ Hx) in Hf. done.
Qed.

(** [delete_many] and [write_many] of the key-value store, and the loops of the
    collections that delete or insert one binding after another. *)
Definition delete_many {K A} `{Countable K} (m : gmap K A) (ks : list K) : gmap K A :=
  foldl (λ m k, delete k m) m ks.
Definition write_many {K A} `{Countable K} (m : gmap K A) (kvs : list (K * A)) : gmap K A :=
  foldl (λ m kv, <[kv.1 := kv.2]> m) m kvs.

Section key_lists.
Context {K A : Type} `{Countable K}.

Lemma elem_of_map_keys {B} (m : gmap K B) k : k ∈ (map_to_list m).*1 ↔ is_Some (m !! k).
Proof.
  rewrite list_elem_of_fmap. split.
  - intros ([k' v] & -> & Hkv%elem_of_map_to_list). by exists v.
  - intros [v Hv]. exists (k, v). by rewrite elem_of_map_to_list.
Qed.

Lemma delete_many_lookup (m : gmap K A) ks k :
  delete_many m ks !! k = if decide (k ∈ ks) then None else m !! k.
Proof.
  unfold delete_many. revert m. induction ks as [|x ks IH]; intros m; cbn [foldl].
  - rewrite decide_False by apply not_elem_of_nil. done.
  - rewrite IH. destruct (decide (k ∈ ks)) as [Hk|Hk].
    + by rewrite decide_True by (by right).
    + destruct (decide (x = k)) as [->|Hx].
      * rewrite decide_True by left. by rewrite lookup_delete_eq.
      * rewrite decide_False, lookup_delete_ne by (rewrite ?elem_of_cons; naive_solver). done.
Qed.

Lemma delete_many_keys {B} (m : gmap K A) (r : gmap K B) k :
  delete_many m (map_to_list r).*1 !! k =
    match r !! k with Some _ => None | None => m !! k end.
Proof.
  rewrite delete_many_lookup. destruct (r !! k) eqn:Hr.
  - by rewrite decide_True by (apply elem_of_map_keys; eauto).
  - rewrite decide_False; [done|]. rewrite elem_of_map_keys, Hr. by intros [].
Qed.

Lemma write_many_lookup_ne (m : gmap K A) kvs k :
  k ∉ kvs.*1 → write_many m kvs !! k = m !! k.
Proof.
  unfold write_many. revert m. induction kvs as [|[x v] kvs IH]; intros m; simpl; [done|].
  intros [Hx Hk]%not_elem_of_cons. rewrite IH by done. by rewrite lookup_insert_ne.
Qed.

Lemma write_many_lookup_eq (m : gmap K A) kvs k v :
  NoDup kvs.*1 → (k, v) ∈ kvs → write_many m kvs !! k = Some v.
Proof.
  unfold write_many. revert m. induction kvs as [|[x w] kvs IH]; intros m; simpl.
  - intros _ []%not_elem_of_nil.
  - intros [Hx Hnd]%NoDup_cons [[= <- <-]|Hin]%elem_of_cons; [|by apply IH].
    etrans; [apply write_many_lookup_ne, Hx|apply lookup_insert_eq].
Qed.

(** The loop that inserts the bindings satisfying [P]. *)
Lemma insert_if_list (P : K * A → bool) l acc k :
  NoDup l.*1 →
  foldl (λ (c : gmap K A) kv, if P kv then <[kv.1 := kv.2]> c else c) acc l !! k =
    match (list_to_map l : gmap K A) !! k with
    | Some v => if P (k, v) then Some v else acc !! k
    | None => acc !! k
    end.
Proof.
  revert acc. induction l as [|[x v] l IH]; intros acc; simpl; [by rewrite lookup_empty|].
  intros [Hx Hnd]%NoDup_cons. rewrite IH by done.
  apply (not_elem_of_list_to_map_1 (M := gmap K)) in Hx.
  destruct (decide (x = k)) as [->|Hne].
  - rewrite Hx, lookup_insert_eq. destruct (P (k, v)); [by rewrite lookup_insert_eq|done].
  - rewrite lookup_insert_ne by done.
    destruct (P (x, v)); [by rewrite lookup_insert_ne by done|done].
Qed.

Lemma insert_if_lookup (P : K * A → bool) (this acc : gmap K A) k :
  foldl (λ c kv, if P kv then <[kv.1 := kv.2]> c else c) acc (map_to_list this) !! k =
    match this !! k with
    | Some v => if P (k, v) then Some v else acc !! k
    | None => acc !! k
    end.
Proof. rewrite insert_if_list by apply NoDup_fst_map_to_list. by rewrite list_to_map_to_list. Qed.

(** The loop that sends each binding to one of two collections. *)
Lemma split_loop (P : K * A → bool) l (acc : gmap K A * gmap K A) :
  foldl (λ acc kv, if P kv then (<[kv.1 := kv.2]> acc.1, acc.2)
                   else (acc.1, <[kv.1 := kv.2]> acc.2)) acc l =
  (foldl (λ c kv, if P kv then <[kv.1 := kv.2]> c else c) acc.1 l,
   foldl (λ c kv, if negb (P kv) then <[kv.1 := kv.2]> c else c) acc.2 l).
Proof.
  revert acc. induction l as [|kv l IH]; intros [a b]; simpl; [done|].
  rewrite IH. by destruct (P kv).
Qed.
End key_lists.

(** ** Value carried by a finite map *)
Definition map_sum {K A} `{Countable K} (f : A → Z) (m : gmap K A) : Z :=
  map_fold (λ _ a acc, f a + acc) 0 m.

Section map_sum.
Context {K A : Type} `{Countable K}.
Implicit Types (m : gmap K A) (f : A → Z).

Lemma map_sum_empty f : map_sum f (∅ : gmap K A) = 0.
Proof. apply map_fold_empty. Qed.

Lemma map_sum_insert f m i x : m !! i = None → map_sum f (<[i:=x]> m) = f x + map_sum f m.
Proof.
  intros. unfold map_sum.
  rewrite map_fold_insert_L; [done| |done]. intros; lia.
Qed.

Lemma map_sum_delete f m i x : m !! i = Some x → map_sum f m = f x + map_sum f (delete i m).
Proof.
  intros Hi. rewrite <- (insert_delete_id m i x) at 1 by done.
  apply map_sum_insert, lookup_delete_eq.
Qed.

Lemma map_sum_union f m1 m2 : m1 ##ₘ m2 → map_sum f (m1 ∪ m2) = map_sum f m1 + map_sum f m2.
Proof.
  induction m1 as [|i x m1 Hi IH] using map_ind; intros Hd.
  - rewrite (left_id_L ∅ (∪)), map_sum_empty. lia.
  - apply map_disjoint_insert_l in Hd as [Hi2 Hd].
    rewrite <- insert_union_l, !map_sum_insert, IH by (done || by apply lookup_union_None).
    lia.
Qed.

Lemma map_sum_nonneg f m : (∀ i x, m !! i = Some x → 0 ≤ f x) → 0 ≤ map_sum f m.
Proof.
  induction m as [|i x m Hi IH] using map_ind; intros Hf.
  - by rewrite map_sum_empty.
  - rewrite map_sum_insert by done.
    assert (0 ≤ f x) by (eapply (Hf i); apply lookup_insert_eq).
    assert (0 ≤ map_sum f m); [|lia].
    apply IH. intros j y Hj. apply (Hf j). rewrite lookup_insert_ne; [done|congruence].
Qed.

(** Keys listed once carry no more than the map. *)
Lemma map_sum_keys f m (l : list K) :
  NoDup l → (∀ i x, m !! i = Some x → 0 ≤ f x) → Zsum ((λ i, from_option f 0 (m !! i)) <$> l) ≤ map_sum f m.
Proof.
  intros Hnd. revert m. induction Hnd as [|i l Hi Hnd IH]; intros m Hf; [by apply map_sum_nonneg|].
  rewrite fmap_cons, Zsum_cons.
  assert (Heq : (λ j, from_option f 0 (m !! j)) <$> l = (λ j, from_option f 0 (delete i m !! j)) <$> l).
  { apply list_fmap_ext. intros k j Hj. rewrite lookup_delete_ne; [done|]. intros ->. apply Hi. by eapply list_elem_of_lookup_2. }
  rewrite Heq. assert (Hle : Zsum ((λ j, from_option f 0 (delete i m !! j)) <$> l) ≤ map_sum f (delete i m)).
  { apply IH. intros j x [_ Hj]%lookup_delete_Some. by apply (Hf j). }
  destruct (m !! i) as [x|] eqn:Hx; cbn [from_option].
  - rewrite (map_sum_delete f m i x Hx). lia.
  - rewrite delete_id in Hle by done. rewrite delete_id by done. lia.
Qed.

(** Replacing the sub-map [r] of [m] by [a]: the value moves by the difference. *)
Lemma map_sum_replace f m (a r : gmap K A) :
  r ⊆ m → a ##ₘ m → map_sum f (a ∪ (m ∖ r)) = map_sum f m - map_sum f r + map_sum f a.
Proof.
  intros Hr Ha.
  rewrite map_sum_union by (by eapply map_disjoint_weaken_r; [|apply map_subseteq_difference_l]).
  rewrite <- (map_difference_union r m Hr) at 2.
  rewrite map_sum_union by (by apply map_disjoint_difference_r1).
  lia.
Qed.
End map_sum.

(** Hints used throughout: list lengths of encodings and the map sums. *)
Create HintDb marigold.
Create Rewrite HintDb marigold.
#[export] Hint Rewrite @length_le_bytes @length_app @length_cons : marigold.
#[export] Hint Resolve le_bytes_ok : marigold.
#[export] Hint Resolve not_panic_Ok not_panic_ok_or not_panic_reject not_panic_map_err : marigold.
