(* ===== verification/Uint.v ===== *)
(** * Fixed-width big integers

    [math/src/uint.rs]: the operations the [construct_uint!] macro generates for the
    64-bit limbs of [Uint192], [Uint256], [Uint320] and [Uint3072], and the compact target
    encoding of [math/src/lib.rs].  A number is the list of its limbs, least significant
    first; the theorems relate the limb code to arithmetic on the numbers it represents.
    The [debug_assert!]s of the operators are not part of release builds, so the operators
    drop the overflow flag. *)

From S2P Require Import Prelude.

(** ** Limbs and the numbers behind them *)
Definition LIMB_BASE : Z := 2 ^ 64.
Definition limb (l : list Z) (i : nat) : Z := nth i l 0.
Definition overflowing_add (a b : Z) : Z * Z := ((a + b) mod LIMB_BASE, (a + b) / LIMB_BASE).
Definition limb_ok (x : Z) : Prop := 0 ≤ x < LIMB_BASE.

Definition val (l : list Z) : Z := foldr (λ x acc, x + LIMB_BASE * acc) 0 l.
Fixpoint to_limbs (n : nat) (z : Z) : list Z :=
  match n with
  | O => []
  | S n => z mod LIMB_BASE :: to_limbs n (z / LIMB_BASE)
  end.

(** ** Addition and subtraction *)
Definition carrying_add_u64 (lhs rhs : Z) (carry : bool) : Z * bool :=
  let '(a, b) := overflowing_add lhs rhs in
  let '(c, d) := overflowing_add a (if carry then 1 else 0) in
  (c, negb (b =? d)).
Fixpoint add_limbs (carry : bool) (self other : list Z) : list Z * bool :=
  match self, other with
  | x :: self, y :: other =>
      let '(r, carry_out) := carrying_add_u64 x y carry in
      let '(rs, c) := add_limbs carry_out self other in
      (r :: rs, c)
  | _, _ => ([], carry)
  end.
Definition uint_overflowing_add (self other : list Z) : list Z * bool := add_limbs false self other.

(** The loop that carries into the higher limbs and stops at the first one that absorbs. *)
Fixpoint ripple (carry : bool) (l : list Z) : list Z * bool :=
  match l with
  | [] => ([], carry)
  | x :: l' =>
      if negb carry then (l, carry) else
      let '(r, c) := overflowing_add x 1 in
      let '(rs, c') := ripple (negb (c =? 0)) l' in
      (r :: rs, c')
  end.
Definition overflowing_add_u64 (self : list Z) (other : Z) : list Z * bool :=
  match self with
  | [] => ([], false)
  | x :: l =>
      let '(r, c) := overflowing_add x other in
      let '(rs, c') := ripple (negb (c =? 0)) l in
      (r :: rs, c')
  end.

(** [u64::overflowing_sub]. *)
Definition overflowing_sub (a b : Z) : Z * bool := ((a - b) mod LIMB_BASE, a <? b).
Definition borrowing_sub_u64 (lhs rhs : Z) (borrow : bool) : Z * bool :=
  let '(a, b) := overflowing_sub lhs rhs in
  let '(c, d) := overflowing_sub a (if borrow then 1 else 0) in
  (c, xorb b d).
Fixpoint sub_limbs (carry : bool) (self other : list Z) : list Z * bool :=
  match self, other with
  | x :: self, y :: other =>
      let '(r, carry_out) := borrowing_sub_u64 x y carry in
      let '(rs, c) := sub_limbs carry_out self other in
      (r :: rs, c)
  | _, _ => ([], carry)
  end.
Definition uint_overflowing_sub (self other : list Z) : list Z * bool := sub_limbs false self other.

(** ** Shifts and complement *)
Definition uint_bits_of (l : list Z) : Z := 64 * Z.of_nat (length l).
(** [<<] and [>>] on a [u64]. *)
Definition u64_shl (x s : Z) : Z := Z.shiftl x s mod LIMB_BASE.
Definition overflowing_shl (self : list Z) (s : Z) : list Z * bool :=
  let overflows := uint_bits_of self <=? s in
  let s := s mod uint_bits_of self in
  let left_words := Z.to_nat (s / 64) in
  let left_shifts := s mod 64 in
  let word (i : nat) :=
    if (i <? left_words)%nat then 0 else
    Z.lor (u64_shl (limb self (i - left_words)) left_shifts)
      (if (0 <? left_shifts) && (left_words + 1 <=? i)%nat
       then Z.shiftr (limb self (i - 1 - left_words)) (64 - left_shifts) else 0) in
  (word <$> seq 0 (length self), overflows).
Definition overflowing_shr (self : list Z) (s : Z) : list Z * bool :=
  let overflows := uint_bits_of self <=? s in
  let s := s mod uint_bits_of self in
  let left_words := Z.to_nat (s / 64) in
  let left_shifts := s mod 64 in
  let word (i : nat) :=
    if (length self <=? i + left_words)%nat then 0 else
    Z.lor (Z.shiftr (limb self (i + left_words)) left_shifts)
      (if (0 <? left_shifts) && (i + left_words + 1 <? length self)%nat
       then u64_shl (limb self (i + left_words + 1)) (64 - left_shifts) else 0) in
  (word <$> seq 0 (length self), overflows).
Definition uint_not (self : list Z) : list Z := (λ x, LIMB_BASE - 1 - x) <$> self.

(** ** Multiplication *)
Fixpoint carrying_mul_u64_from (carry : Z) (self : list Z) (other : Z) : list Z * Z :=
  match self with
  | [] => ([], carry)
  | x :: self =>
      let n := carry + other * x in
      let '(rs, c) := carrying_mul_u64_from (n / LIMB_BASE) self other in
      (n mod LIMB_BASE :: rs, c)
  end.
Definition carrying_mul_u64 (self : list Z) (other : Z) : list Z * Z := carrying_mul_u64_from 0 self other.
Definition overflowing_mul_u64 (self : list Z) (other : Z) : list Z * bool :=
  let '(this, carry) := carrying_mul_u64 self other in (this, negb (carry =? 0)).

(** The inner loop for one limb [oj] of the second factor: [result] from position [j] on. *)
Fixpoint mul_row (self : list Z) (oj : Z) (result : list Z) (carry : Z) : list Z * Z :=
  match self, result with
  | x :: self, r :: result =>
      let n := x * oj + r + carry in
      let '(rs, c) := mul_row self oj result (n / LIMB_BASE) in
      (n mod LIMB_BASE :: rs, c)
  | _, _ => (result, carry)
  end.
Definition mul_limb_step (self : list Z) (j : nat) (st : list Z * bool) (oj : Z) : list Z * bool :=
  let '(result, carry_out) := st in
  let '(row, carry) := mul_row self oj (drop j result) 0 in
  (take j result ++ row, carry_out || negb (carry =? 0)).
Fixpoint mul_limbs (self : list Z) (j : nat) (st : list Z * bool) (other : list Z) : list Z * bool :=
  match other with
  | [] => st
  | oj :: other => mul_limbs self (S j) (mul_limb_step self j st oj) other
  end.
Definition overflowing_mul (self other : list Z) : list Z * bool :=
  mul_limbs self 0 (replicate (length self) 0, false) other.

(** ** Division *)
Fixpoint div_rem_u64 {E} (self : list Z) (other : Z) : outcome E (list Z * Z) :=
  match self with
  | [] => Ok ([], 0)
  | d :: self =>
      qr ← div_rem_u64 self other;
      let n := Z.lor (Z.shiftl qr.2 64) d in
      if other =? 0 then Panic else
      Ok ((n / other) mod LIMB_BASE :: qr.1, n mod other)
  end.

(** [u64::leading_zeros] of a non-zero word. *)
Definition leading_zeros (word : Z) : Z := 63 - Z.log2 word.
Fixpoint top_bits (l : list (nat * Z)) : Z :=
  match l with
  | [] => 0
  | (i, word) :: l =>
      if negb (word =? 0) then 64 * (Z.of_nat i + 1) - leading_zeros word else top_bits l
  end.
Definition bits (self : list Z) : Z := top_bits (reverse (imap pair self)).

Fixpoint lex_cmp (a b : list Z) : comparison :=
  match a, b with
  | x :: a, y :: b => match x ?= y with Eq => lex_cmp a b | c => c end
  | [], [] => Eq
  | [], _ => Lt
  | _, [] => Gt
  end.
Definition uint_cmp (self other : list Z) : comparison := lex_cmp (reverse self) (reverse other).
Definition uint_ge (self other : list Z) : bool := match uint_cmp self other with Lt => false | _ => true end.

Definition set_bit {E} (ret : list Z) (shift : nat) : outcome E (list Z) :=
  let shift_index := (shift / 64)%nat in
  let shift_val := Z.of_nat (shift mod 64)%nat in
  w ← unwrap (ret !! shift_index);
  Ok (<[shift_index := Z.lor w (Z.shiftl 1 shift_val)]> ret).
Fixpoint div_loop {E} (shift : nat) (sub_copy shift_copy ret : list Z) : outcome E (list Z * list Z) :=
  st ← if uint_ge sub_copy shift_copy
       then ret ← set_bit ret shift; Ok (ret, (uint_overflowing_sub sub_copy shift_copy).1)
       else Ok (ret, sub_copy);
  let shift_copy := (overflowing_shr shift_copy 1).1 in
  match shift with
  | O => Ok st
  | S shift => div_loop shift st.2 shift_copy st.1
  end.
Definition div_rem {E} (self other : list Z) : outcome E (list Z * list Z) :=
  let ret := replicate (length self) 0 in
  let my_bits := bits self in
  let your_bits := bits other in
  if your_bits =? 0 then Panic else
  if my_bits <? your_bits then Ok (ret, self) else
  let shift := my_bits - your_bits in
  div_loop (Z.to_nat shift) self (overflowing_shl other shift).1 ret.

(** ** Conversions ([math/src/lib.rs]) *)
Definition from_u64 (n : nat) (x : Z) : list Z := x :: replicate (n - 1) 0.
Definition as_u64 (self : list Z) : Z := limb self 0.
(** [Uint320::from(Uint256)], and the [TryFrom]s from [k + 1] limbs to [k]. *)
Definition extend (self : list Z) : list Z := self ++ [0].
Definition narrow {E} (e : E) (k : nat) (self : list Z) : outcome E (list Z) :=
  reject_if (negb (limb self k =? 0)) e;; Ok (take k self).
(** [iter().sum()]. *)
Definition uint_sum (n : nat) (l : list (list Z)) : list Z :=
  match l with
  | [] => replicate n 0
  | first :: l => foldl (λ a b, (uint_overflowing_add a b).1) first l
  end.

Definition from_compact_target_bits (b : Z) : list Z :=
  let unshifted_expt := Z.shiftr b 24 in
  let '(mant, expt) :=
    if unshifted_expt <=? 3
    then (Z.shiftr (Z.land b 0xFFFFFF) (8 * (3 - unshifted_expt)), 0)
    else (Z.land b 0xFFFFFF, 8 * (Z.shiftr b 24 - 3)) in
  if 0x7FFFFF <? mant then replicate 4 0 else (overflowing_shl (from_u64 4 mant) expt).1.

Definition compact_target_bits (self : list Z) : Z :=
  let size := div_ceil (bits self) 8 in
  let compact :=
    if size <=? 3
    then u64_shl (as_u64 self) (8 * (3 - size)) mod 2 ^ 32
    else as_u64 (overflowing_shr self (8 * (size - 3))).1 mod 2 ^ 32 in
  let '(compact, size) :=
    if negb (Z.land compact 0x00800000 =? 0) then (Z.shiftr compact 8, size + 1) else (compact, size) in
  Z.lor compact (Z.shiftl size 24).

(** ** Numbers *)
Lemma limb_bound l i : Forall limb_ok l → limb_ok (limb l i).
Proof.
  intros Hl. unfold limb. destruct (nth_in_or_default i l 0) as [Hin| ->]; [|unfold limb_ok, LIMB_BASE; lia].
  rewrite Forall_forall in Hl. by apply Hl, list_elem_of_In.
Qed.

Lemma val_app l1 l2 : val (l1 ++ l2) = val l1 + LIMB_BASE ^ Z.of_nat (length l1) * val l2.
Proof.
  induction l1 as [|x l1 IH]; [cbn [app length]; unfold val at 2; cbn [foldr]; lia|].
  change (val ((x :: l1) ++ l2)) with (x + LIMB_BASE * val (l1 ++ l2)).
  change (val (x :: l1)) with (x + LIMB_BASE * val l1). cbn [length].
  rewrite IH, Nat2Z.inj_succ, Z.pow_succ_r by lia. ring.
Qed.

Lemma val_bound l : Forall limb_ok l → 0 ≤ val l < LIMB_BASE ^ Z.of_nat (length l).
Proof.
  induction 1 as [|x l [Hx1 Hx2] _ IH]; [cbn; lia|]. cbn [val foldr length]. fold (val l).
  rewrite Nat2Z.inj_succ, Z.pow_succ_r by lia. nia.
Qed.

Lemma to_limbs_ok n z : length (to_limbs n z) = n ∧ Forall limb_ok (to_limbs n z).
Proof.
  revert z. induction n as [|n IH]; intros z; cbn [to_limbs]; [done|]. destruct (IH (z / LIMB_BASE)).
  split; [cbn; congruence|]. constructor; [|done]. apply Z.mod_pos_bound. unfold LIMB_BASE. lia.
Qed.

Lemma val_to_limbs n z : 0 ≤ z < LIMB_BASE ^ Z.of_nat n → val (to_limbs n z) = z.
Proof.
  revert z. induction n as [|n IH]; intros z Hz; cbn [to_limbs]; [cbn in *; lia|].
  rewrite Nat2Z.inj_succ, Z.pow_succ_r in Hz by lia. cbn [val foldr].
  fold (val (to_limbs n (z / LIMB_BASE))). rewrite IH.
  - pose proof (Z.div_mod z LIMB_BASE). unfold LIMB_BASE in *. lia.
  - split; [apply Z.div_pos; unfold LIMB_BASE; lia|]. apply Z.div_lt_upper_bound; [unfold LIMB_BASE; lia|lia].
Qed.

Lemma val_inj l1 l2 :
  length l1 = length l2 → Forall limb_ok l1 → Forall limb_ok l2 → val l1 = val l2 → l1 = l2.
Proof.
  intros Hlen Hl1. revert l2 Hlen. induction Hl1 as [|x l1 Hx _ IH]; intros [|y l2] Hlen Hl2 Hv; try done.
  apply Forall_cons in Hl2 as [Hy Hl2]. cbn [val foldr] in Hv. fold (val l1) (val l2) in Hv.
  assert (x = y ∧ val l1 = val l2) as [-> Hv'] by (unfold limb_ok, LIMB_BASE in *; lia).
  f_equal. apply IH; [by injection Hlen|done|done].
Qed.

Lemma split_limb x : x = LIMB_BASE * (x / LIMB_BASE) + x mod LIMB_BASE ∧ 0 ≤ x mod LIMB_BASE < LIMB_BASE.
Proof. split; [apply Z.div_mod|apply Z.mod_pos_bound]; unfold LIMB_BASE; lia. Qed.

Lemma prod_bound a b : limb_ok a → limb_ok b → 0 ≤ a * b ≤ (LIMB_BASE - 1) * (LIMB_BASE - 1).
Proof. unfold limb_ok. nia. Qed.


(** A well-formed number of [n] limbs. *)
Definition uint_ok (n : nat) (l : list Z) : Prop := length l = n ∧ Forall limb_ok l.
#[global] Instance uint_ok_dec n l : Decision (uint_ok n l).
Proof. unfold uint_ok, limb_ok. apply _. Defined.
(** [2^w] for the width of [n] limbs. *)
Definition modulus (n : nat) : Z := LIMB_BASE ^ Z.of_nat n.

Lemma limb_base_pos : 0 < LIMB_BASE.
Proof. unfold LIMB_BASE. lia. Qed.
Lemma modulus_pos n : 0 < modulus n.
Proof. apply Z.pow_pos_nonneg; [apply limb_base_pos|lia]. Qed.
Lemma modulus_S n : modulus (S n) = LIMB_BASE * modulus n.
Proof. unfold modulus. rewrite Nat2Z.inj_succ, Z.pow_succ_r by lia. done. Qed.
Lemma modulus_pow2 n : modulus n = 2 ^ (64 * Z.of_nat n).
Proof. unfold modulus, LIMB_BASE. by rewrite <- Z.pow_mul_r by lia. Qed.
Lemma uint_bound n l : uint_ok n l → 0 ≤ val l < modulus n.
Proof. intros [<- Hl]. by apply val_bound. Qed.
Lemma val_cons x l : val (x :: l) = x + LIMB_BASE * val l.
Proof. done. Qed.
Lemma uint_ok_nil l : uint_ok 0 l ↔ l = [].
Proof. unfold uint_ok. destruct l; naive_solver. Qed.
Lemma uint_ok_cons n x l : uint_ok (S n) (x :: l) ↔ limb_ok x ∧ uint_ok n l.
Proof. unfold uint_ok. rewrite Forall_cons. cbn [length]. naive_solver lia. Qed.
Lemma val_zeros n : val (replicate n 0) = 0.
Proof. induction n as [|n IH]; [done|]. cbn [replicate]. rewrite val_cons, IH. lia. Qed.
Lemma zeros_ok n : uint_ok n (replicate n 0).
Proof. split; [apply length_replicate|]. apply Forall_replicate. unfold limb_ok, LIMB_BASE. lia. Qed.

(** ** Addition and subtraction *)
(** Quotient and remainder by the limb base, one limb at a time. *)
Ltac limb_arith :=
  unfold limb_ok, LIMB_BASE in *; Z.to_euclidean_division_equations; lia.

Lemma carrying_add_spec x y c r c' :
  limb_ok x → limb_ok y → carrying_add_u64 x y c = (r, c') →
  limb_ok r ∧ r + LIMB_BASE * Z.b2z c' = x + y + Z.b2z c.
Proof.
  unfold carrying_add_u64, overflowing_add. intros Hx Hy [= <- <-].
  destruct (Z.eqb_spec ((x + y) / LIMB_BASE)
    (((x + y) mod LIMB_BASE + (if c then 1 else 0)) / LIMB_BASE)); destruct c; cbn [negb Z.b2z]; limb_arith.
Qed.

Lemma add_limbs_spec n c a b r c' :
  uint_ok n a → uint_ok n b → add_limbs c a b = (r, c') →
  uint_ok n r ∧ val r + modulus n * Z.b2z c' = val a + val b + Z.b2z c.
Proof.
  revert c a b r c'. induction n as [|n IH]; intros c a b r c' Ha Hb.
  { apply uint_ok_nil in Ha as ->. apply uint_ok_nil in Hb as ->. intros [= <- <-]. split; [done|].
    change (modulus 0) with 1. cbn. lia. }
  destruct a as [|x a]; [by destruct Ha|]. destruct b as [|y b]; [by destruct Hb|].
  apply uint_ok_cons in Ha as [Hx Ha]. apply uint_ok_cons in Hb as [Hy Hb]. cbn [add_limbs].
  destruct (carrying_add_u64 x y c) as [r0 c0] eqn:H0. destruct (add_limbs c0 a b) as [rs c1] eqn:H1.
  intros [= <- <-]. apply carrying_add_spec in H0 as [? H0]; [|done..].
  apply IH in H1 as [? H1]; [|done..]. split; [by apply uint_ok_cons|].
  rewrite !val_cons, modulus_S. nia.
Qed.

Lemma ripple_spec n c l r c' :
  uint_ok n l → ripple c l = (r, c') →
  uint_ok n r ∧ val r + modulus n * Z.b2z c' = val l + Z.b2z c.
Proof.
  revert c l r c'. induction n as [|n IH]; intros c l r c' Hl.
  { apply uint_ok_nil in Hl as ->. intros [= <- <-]. split; [done|]. change (modulus 0) with 1. lia. }
  destruct l as [|x l]; [by destruct Hl|]. cbn [ripple]. destruct c; cbn [negb].
  2:{ intros [= <- <-]. split; [done|]. cbn. lia. }
  apply uint_ok_cons in Hl as [Hx Hl]. unfold overflowing_add.
  destruct (ripple _ l) as [rs c1] eqn:H1. intros [= <- <-]. apply IH in H1 as [? H1]; [|done].
  rewrite uint_ok_cons, !val_cons, modulus_S.
  assert (Hc : Z.b2z (negb ((x + 1) / LIMB_BASE =? 0)) = (x + 1) / LIMB_BASE).
  { destruct (Z.eqb_spec ((x + 1) / LIMB_BASE) 0); cbn [negb Z.b2z]; limb_arith. }
  rewrite Hc in H1. destruct (split_limb (x + 1)). cbn [Z.b2z]. split; [done|nia].
Qed.

Lemma add_u64_spec n a x r c :
  n ≠ 0%nat → uint_ok n a → limb_ok x → overflowing_add_u64 a x = (r, c) →
  uint_ok n r ∧ val r + modulus n * Z.b2z c = val a + x.
Proof.
  intros Hn Ha Hx. destruct n as [|n]; [done|]. destruct a as [|y a]; [by destruct Ha|].
  apply uint_ok_cons in Ha as [Hy Ha]. cbn [overflowing_add_u64]. unfold overflowing_add.
  destruct (ripple _ a) as [rs c1] eqn:H1. intros [= <- <-]. apply ripple_spec with (n := n) in H1 as [? H1]; [|done].
  rewrite uint_ok_cons, !val_cons, modulus_S.
  assert (Hc : Z.b2z (negb ((y + x) / LIMB_BASE =? 0)) = (y + x) / LIMB_BASE).
  { destruct (Z.eqb_spec ((y + x) / LIMB_BASE) 0); cbn [negb Z.b2z]; limb_arith. }
  rewrite Hc in H1. destruct (split_limb (y + x)). split; [done|nia].
Qed.

Lemma borrowing_sub_spec x y c r c' :
  limb_ok x → limb_ok y → borrowing_sub_u64 x y c = (r, c') →
  limb_ok r ∧ r - LIMB_BASE * Z.b2z c' = x - y - Z.b2z c.
Proof.
  unfold borrowing_sub_u64, overflowing_sub. intros Hx Hy [= <- <-].
  destruct (Z.ltb_spec x y), (Z.ltb_spec ((x - y) mod LIMB_BASE) (if c then 1 else 0)); destruct c;
    cbn [xorb Z.b2z] in *; limb_arith.
Qed.

Lemma sub_limbs_spec n c a b r c' :
  uint_ok n a → uint_ok n b → sub_limbs c a b = (r, c') →
  uint_ok n r ∧ val r - modulus n * Z.b2z c' = val a - val b - Z.b2z c.
Proof.
  revert c a b r c'. induction n as [|n IH]; intros c a b r c' Ha Hb.
  { apply uint_ok_nil in Ha as ->. apply uint_ok_nil in Hb as ->. intros [= <- <-]. split; [done|].
    change (modulus 0) with 1. cbn. lia. }
  destruct a as [|x a]; [by destruct Ha|]. destruct b as [|y b]; [by destruct Hb|].
  apply uint_ok_cons in Ha as [Hx Ha]. apply uint_ok_cons in Hb as [Hy Hb]. cbn [sub_limbs].
  destruct (borrowing_sub_u64 x y c) as [r0 c0] eqn:H0. destruct (sub_limbs c0 a b) as [rs c1] eqn:H1.
  intros [= <- <-]. apply borrowing_sub_spec in H0 as [? H0]; [|done..].
  apply IH in H1 as [? H1]; [|done..]. split; [by apply uint_ok_cons|].
  rewrite !val_cons, modulus_S. nia.
Qed.

(** ** Multiplication *)
Lemma mul_u64_from_spec n a x c r c' :
  uint_ok n a → limb_ok x → limb_ok c → carrying_mul_u64_from c a x = (r, c') →
  uint_ok n r ∧ limb_ok c' ∧ val r + modulus n * c' = val a * x + c.
Proof.
  intros Ha Hx. revert a c r c' Ha. induction n as [|n IH]; intros a c r c' Ha Hc.
  { apply uint_ok_nil in Ha as ->. intros [= <- <-]. split; [done|]. split; [done|].
    change (modulus 0) with 1. cbn. lia. }
  destruct a as [|y a]; [by destruct Ha|]. apply uint_ok_cons in Ha as [Hy Ha]. cbn [carrying_mul_u64_from].
  assert (limb_ok ((c + x * y) / LIMB_BASE)).
  { unfold limb_ok in *. pose proof limb_base_pos. split; [apply Z.div_pos; nia|].
    apply Z.div_lt_upper_bound; nia. }
  destruct (carrying_mul_u64_from _ a x) as [rs c1] eqn:H1. intros [= <- <-].
  apply IH in H1 as (? & ? & H1); [|done..]. destruct (split_limb (c + x * y)).
  split; [by apply uint_ok_cons|]. split; [done|]. rewrite !val_cons, modulus_S. nia.
Qed.

Lemma mul_row_spec a y r c r' c' :
  Forall limb_ok a → limb_ok y → Forall limb_ok r → limb_ok c → (length r ≤ length a)%nat →
  mul_row a y r c = (r', c') →
  uint_ok (length r) r' ∧ limb_ok c' ∧
  val r' + modulus (length r) * c' = val (take (length r) a) * y + val r + c.
Proof.
  intros Ha Hy Hr. revert a c r' c' Ha. induction Hr as [|z r Hz Hr IH]; intros a c r' c' Ha Hc Hlen.
  { destruct a; intros [= <- <-]; (split; [done|]); (split; [done|]); change (modulus (length (A := Z) [])) with 1; cbn; lia. }
  destruct a as [|x a]; [cbn in Hlen; lia|]. apply Forall_cons in Ha as [Hx Ha]. cbn [mul_row].
  assert (limb_ok ((x * y + z + c) / LIMB_BASE)).
  { unfold limb_ok in *. pose proof limb_base_pos. split; [apply Z.div_pos; nia|].
    apply Z.div_lt_upper_bound; nia. }
  destruct (mul_row a y r _) as [rs c1] eqn:H1. intros [= <- <-]. cbn [length] in Hlen.
  apply IH in H1 as (? & ? & H1); [|done|done|lia]. destruct (split_limb (x * y + z + c)).
  cbn [length take]. split; [by apply uint_ok_cons|]. split; [done|]. rewrite !val_cons, modulus_S. nia.
Qed.

Lemma val_take_drop k l : val l = val (take k l) + modulus (Nat.min k (length l)) * val (drop k l).
Proof. rewrite <- (take_drop k l) at 1. rewrite val_app, length_take. done. Qed.
Lemma modulus_add a b : modulus (a + b) = modulus a * modulus b.
Proof. unfold modulus. rewrite Nat2Z.inj_add, Z.pow_add_r by lia. done. Qed.
Lemma uint_ok_app a b l1 l2 : uint_ok a l1 → uint_ok b l2 → uint_ok (a + b) (l1 ++ l2).
Proof. intros [<- H1] [<- H2]. split; [apply length_app|by apply Forall_app]. Qed.
Lemma uint_ok_take_drop n k l : uint_ok n l → (k ≤ n)%nat → uint_ok k (take k l) ∧ uint_ok (n - k) (drop k l).
Proof.
  intros [<- Hl] Hk. split; (split; [rewrite ?length_take, ?length_drop; lia|]).
  - by apply Forall_take.
  - by apply Forall_drop.
Qed.

(** The result and what lies beyond the width, after the limbs [pre] of the second factor. *)
Definition mul_inv (n : nat) (a pre : list Z) (st : list Z * bool) : Prop :=
  uint_ok n st.1 ∧ ∃ k, 0 ≤ k ∧ val st.1 + modulus n * k = val a * val pre ∧ (st.2 = true → 0 < k).

Lemma mul_limb_step_inv n a pre y st :
  uint_ok n a → Forall limb_ok pre → (length pre < n)%nat → limb_ok y → mul_inv n a pre st →
  mul_inv n a (pre ++ [y]) (mul_limb_step a (length pre) st y).
Proof.
  intros Ha Hpre Hlt Hy. destruct st as [res flag]. intros (Hres & k & Hk & Hval & Hflag). cbn [fst snd] in *.
  unfold mul_limb_step. set (j := length pre) in *.
  destruct (mul_row a y (drop j res) 0) as [row c] eqn:Hrow.
  destruct (uint_ok_take_drop n j res Hres) as [Ht Hd]; [lia|].
  destruct (uint_ok_take_drop n (n - j) a Ha) as [Hta Hda]; [lia|].
  apply mul_row_spec in Hrow as (Hr & Hc & Hrow); [|apply Ha|done|apply Hd|unfold limb_ok, LIMB_BASE; lia|
    destruct Hd as [-> _], Ha as [-> _]; lia].
  destruct Hd as [Hld Hd]. rewrite Hld in *.
  split; cbn [fst snd]; [replace n with (j + (n - j))%nat at 1 by lia; by apply uint_ok_app|].
  assert (Hn : modulus n = modulus j * modulus (n - j)) by (rewrite <- modulus_add; f_equal; lia).
  pose proof (val_take_drop j res) as Hres'. pose proof (val_take_drop (n - j) a) as Ha'.
  destruct Hres as [Hlr _], Ha as [Hla _]. rewrite Hlr, Nat.min_l in Hres' by lia. rewrite Hla, Nat.min_l in Ha' by lia.
  pose proof (uint_bound _ _ Hda). pose proof (modulus_pos j).
  exists (k + c + val (drop (n - j) a) * y). unfold limb_ok in *.
  rewrite !val_app. change (val [y]) with (y + LIMB_BASE * 0). fold (modulus (length pre)). fold j.
  destruct Ht as [Htl _]. fold (modulus (length (take j res))). rewrite Htl.
  split; [nia|]. split.
  - assert (Hx : val a * modulus j * y =
      modulus j * (val (take (n - j) a) * y) + modulus n * (val (drop (n - j) a) * y))
      by (rewrite Ha', Hn; ring).
    assert (Hy' : modulus j * (val row + modulus (n - j) * c) =
      modulus j * (val (take (n - j) a) * y + val (drop j res))) by (rewrite Hrow; ring).
    rewrite Hn in *. nia.
  - intros Hf. destruct flag; [specialize (Hflag eq_refl); nia|].
    cbn [orb] in Hf. destruct (Z.eqb_spec c 0); [done|]. nia.
Qed.

Lemma overflowing_mul_inv n a b :
  uint_ok n a → uint_ok n b → mul_inv n a b (overflowing_mul a b).
Proof.
  intros Ha [Hlb Hb]. unfold overflowing_mul.
  assert (Hgen : ∀ post pre st, b = pre ++ post → mul_inv n a pre st → mul_inv n a b (mul_limbs a (length pre) st post)).
  { induction post as [|y post IH]; intros pre st -> Hst; [by rewrite app_nil_r|]. cbn [mul_limbs].
    rewrite length_app in Hlb. cbn [length] in Hlb. apply Forall_app in Hb as [Hpre [Hy Hpost]%Forall_cons].
    replace (S (length pre)) with (length (pre ++ [y])) by (rewrite length_app; cbn; lia).
    apply IH; [by rewrite <- app_assoc|]. apply mul_limb_step_inv; [done|done|lia|done|done]. }
  apply (Hgen b []); [done|]. destruct Ha as [-> Ha]. split; [apply zeros_ok|]. exists 0.
  cbn [fst snd]. rewrite val_zeros. split; [lia|]. split; [cbn; lia|done].
Qed.

(** ** Bits *)
Lemma testbit_limb l k :
  Forall limb_ok l → 0 ≤ k → Z.testbit (val l) k = Z.testbit (limb l (Z.to_nat (k / 64))) (k mod 64).
Proof.
  intros Hl. revert k. induction Hl as [|x l Hx Hl IH]; intros k Hk.
  { unfold limb. rewrite nth_overflow by (cbn; lia). by rewrite !Z.bits_0. }
  rewrite val_cons. unfold limb_ok, LIMB_BASE in *. destruct (Z.lt_ge_cases k 64) as [Hlt|Hge].
  - rewrite Z.div_small, Z.mod_small by lia. change (limb (x :: l) (Z.to_nat 0)) with x.
    rewrite <- (Z.mod_pow2_bits_low _ 64) by lia. rewrite (Z.mul_comm (2 ^ 64)), Z.mod_add by lia.
    by rewrite Z.mod_small by lia.
  - replace (Z.to_nat (k / 64)) with (S (Z.to_nat ((k - 64) / 64))) by (Z.to_euclidean_division_equations; lia).
    replace (k mod 64) with ((k - 64) mod 64) by (Z.to_euclidean_division_equations; lia).
    change (limb (x :: l) (S (Z.to_nat ((k - 64) / 64)))) with (limb l (Z.to_nat ((k - 64) / 64))).
    rewrite <- IH by lia. replace k with ((k - 64) + 64) at 1 by lia.
    rewrite <- Z.div_pow2_bits by lia. f_equal.
    rewrite (Z.mul_comm (2 ^ 64)), Z.div_add, Z.div_small by lia. lia.
Qed.

Lemma limb_ok_lor x y : limb_ok x → limb_ok y → limb_ok (Z.lor x y).
Proof.
  unfold limb_ok, LIMB_BASE. intros Hx Hy. assert (0 ≤ Z.lor x y) by (apply Z.lor_nonneg; lia). split; [done|].
  destruct (Z.eq_dec (Z.lor x y) 0) as [->|Hne]; [lia|]. apply Z.log2_lt_pow2; [lia|].
  rewrite Z.log2_lor by lia. apply Z.max_lub_lt.
  - destruct (Z.eq_dec x 0) as [->|]; [cbn; lia|]. apply Z.log2_lt_pow2; lia.
  - destruct (Z.eq_dec y 0) as [->|]; [cbn; lia|]. apply Z.log2_lt_pow2; lia.
Qed.
Lemma limb_ok_0 : limb_ok 0.
Proof. unfold limb_ok, LIMB_BASE. lia. Qed.
Lemma limb_ok_shl x s : limb_ok (u64_shl x s).
Proof. apply Z.mod_pos_bound, limb_base_pos. Qed.
Lemma limb_ok_shr x s : limb_ok x → 0 ≤ s → limb_ok (Z.shiftr x s).
Proof.
  unfold limb_ok. intros Hx Hs. rewrite Z.shiftr_div_pow2 by lia.
  assert (0 < 2 ^ s) by (by apply Z.pow_pos_nonneg). split; [apply Z.div_pos; lia|].
  apply Z.div_lt_upper_bound; nia.
Qed.
Lemma limb_high x k : limb_ok x → 64 ≤ k → Z.testbit x k = false.
Proof.
  unfold limb_ok, LIMB_BASE. intros Hx Hk. destruct (Z.eq_dec x 0) as [->|]; [apply Z.bits_0|].
  apply Z.bits_above_log2; [lia|]. apply Z.lt_le_trans with 64; [|done]. apply Z.log2_lt_pow2; lia.
Qed.
Lemma shl_testbit x s j : 0 ≤ j < 64 → 0 ≤ s → Z.testbit (u64_shl x s) j = Z.testbit x (j - s).
Proof.
  intros Hj Hs. unfold u64_shl, LIMB_BASE. rewrite Z.mod_pow2_bits_low by lia. apply Z.shiftl_spec; lia.
Qed.
Lemma limb_map f n i : limb (f <$> seq 0 n) i = if (i <? n)%nat then f i else 0.
Proof.
  unfold limb. destruct (Nat.ltb_spec i n).
  - apply nth_lookup_Some. by rewrite list_lookup_fmap, lookup_seq_lt.
  - apply nth_overflow. by rewrite length_fmap, length_seq.
Qed.

(** A number is determined by its bits, limb by limb. *)
Lemma val_by_bits n r z :
  uint_ok n r → 0 ≤ z < modulus n →
  (∀ i j, (i < n)%nat → 0 ≤ j < 64 → Z.testbit (limb r i) j = Z.testbit z (64 * Z.of_nat i + j)) →
  val r = z.
Proof.
  intros Hr Hz Hbits. apply Z.bits_inj'. intros k Hk. pose proof (uint_bound _ _ Hr) as Hv.
  destruct (Z.lt_ge_cases k (64 * Z.of_nat n)) as [Hlt|Hge].
  - rewrite testbit_limb by (done || apply Hr). rewrite Hbits.
    + f_equal. Z.to_euclidean_division_equations; lia.
    + Z.to_euclidean_division_equations; lia.
    + by apply Z.mod_pos_bound.
  - assert (Hhigh : ∀ x, 0 ≤ x < modulus n → Z.testbit x k = false).
    { intros x Hx. rewrite modulus_pow2 in Hx. destruct (Z.eq_dec x 0) as [->|]; [apply Z.bits_0|].
      apply Z.bits_above_log2; [lia|]. apply Z.lt_le_trans with (64 * Z.of_nat n); [|done].
      apply Z.log2_lt_pow2; lia. }
    by rewrite !Hhigh.
Qed.

Lemma shl_spec n a s :
  n ≠ 0%nat → uint_ok n a → 0 ≤ s →
  uint_ok n (overflowing_shl a s).1 ∧
  val (overflowing_shl a s).1 = (val a * 2 ^ (s mod (64 * Z.of_nat n))) mod modulus n.
Proof.
  intros Hn Ha Hs. unfold overflowing_shl, uint_bits_of. destruct Ha as [Hlen Ha]. rewrite Hlen. cbn [fst].
  assert (Ht : 0 ≤ s mod (64 * Z.of_nat n) < 64 * Z.of_nat n) by (apply Z.mod_pos_bound; lia).
  set (t := s mod (64 * Z.of_nat n)) in *. clearbody t.
  set (lw := Z.to_nat (t / 64)). set (ls := t mod 64).
  assert (Hls : 0 ≤ ls < 64) by (apply Z.mod_pos_bound; lia).
  assert (Htl : t = 64 * Z.of_nat lw + ls) by (subst lw ls; Z.to_euclidean_division_equations; lia).
  match goal with |- uint_ok _ (?f <$> _) ∧ _ => set (word := f) end.
  assert (Hok : uint_ok n (word <$> seq 0 n)).
  { split; [by rewrite length_fmap, length_seq|]. apply Forall_fmap, Forall_forall. intros i _. simpl.
    unfold word. destruct (i <? lw)%nat; [apply limb_ok_0|]. apply limb_ok_lor; [apply limb_ok_shl|].
    destruct (_ && _); [|apply limb_ok_0]. apply limb_ok_shr; [by apply limb_bound|lia]. }
  split; [done|]. apply (val_by_bits n); [done|apply Z.mod_pos_bound, modulus_pos|].
  intros i j Hi Hj. rewrite limb_map, (proj2 (Nat.ltb_lt i n)) by done.
  rewrite modulus_pow2, Z.mod_pow2_bits_low by lia.
  rewrite <- Z.shiftl_mul_pow2, Z.shiftl_spec by lia. unfold word.
  destruct (Nat.ltb_spec i lw).
  { rewrite Z.bits_0. symmetry. apply Z.testbit_neg_r. lia. }
  rewrite Z.lor_spec, shl_testbit by lia. destruct (Z.lt_ge_cases j ls) as [Hjl|Hjl].
  - rewrite (Z.testbit_neg_r _ (j - ls)) by lia. cbn [orb].
    destruct (Z.ltb_spec 0 ls); [|lia]. cbn [andb]. destruct (Nat.leb_spec (lw + 1) i).
    + rewrite Z.shiftr_spec by lia. rewrite testbit_limb by (done || lia). f_equal; [f_equal|]; Z.to_euclidean_division_equations; lia.
    + rewrite Z.bits_0. symmetry. apply Z.testbit_neg_r. lia.
  - rewrite testbit_limb by (done || lia).
    replace (Z.to_nat ((64 * Z.of_nat i + j - t) / 64)) with (i - lw)%nat by (Z.to_euclidean_division_equations; lia).
    replace ((64 * Z.of_nat i + j - t) mod 64) with (j - ls) by (Z.to_euclidean_division_equations; lia).
    destruct (_ && _); [|by rewrite Z.bits_0, orb_false_r].
    rewrite Z.shiftr_spec, (limb_high (limb a (i - 1 - lw))) by (lia || by apply limb_bound). by rewrite orb_false_r.
Qed.

Lemma shr_spec n a s :
  n ≠ 0%nat → uint_ok n a → 0 ≤ s →
  uint_ok n (overflowing_shr a s).1 ∧ val (overflowing_shr a s).1 = val a / 2 ^ (s mod (64 * Z.of_nat n)).
Proof.
  intros Hn Ha Hs. pose proof (uint_bound _ _ Ha) as Hva. unfold overflowing_shr, uint_bits_of.
  destruct Ha as [Hlen Ha]. rewrite Hlen. cbn [fst].
  assert (Ht : 0 ≤ s mod (64 * Z.of_nat n) < 64 * Z.of_nat n) by (apply Z.mod_pos_bound; lia).
  set (t := s mod (64 * Z.of_nat n)) in *. clearbody t.
  set (lw := Z.to_nat (t / 64)). set (ls := t mod 64).
  assert (Hls : 0 ≤ ls < 64) by (apply Z.mod_pos_bound; lia).
  assert (Htl : t = 64 * Z.of_nat lw + ls) by (subst lw ls; Z.to_euclidean_division_equations; lia).
  match goal with |- uint_ok _ (?f <$> _) ∧ _ => set (word := f) end.
  assert (Hok : uint_ok n (word <$> seq 0 n)).
  { split; [by rewrite length_fmap, length_seq|]. apply Forall_fmap, Forall_forall. intros i _. simpl.
    unfold word. destruct (n <=? i + lw)%nat; [apply limb_ok_0|].
    apply limb_ok_lor; [apply limb_ok_shr; [by apply limb_bound|lia]|].
    destruct (_ && _); [apply limb_ok_shl|apply limb_ok_0]. }
  split; [done|]. assert (0 < 2 ^ t) by (apply Z.pow_pos_nonneg; lia). apply (val_by_bits n); [done| |].
  { split; [apply Z.div_pos; lia|]. apply Z.div_lt_upper_bound; nia. }
  intros i j Hi Hj. rewrite limb_map, (proj2 (Nat.ltb_lt i n)) by done.
  rewrite <- Z.shiftr_div_pow2, Z.shiftr_spec by lia. unfold word. rewrite testbit_limb by (done || lia).
  destruct (Nat.leb_spec n (i + lw)).
  { rewrite Z.bits_0. unfold limb. rewrite nth_overflow; [by rewrite Z.bits_0|].
    rewrite Hlen. Z.to_euclidean_division_equations; lia. }
  rewrite Z.lor_spec, Z.shiftr_spec by lia. destruct (Z.lt_ge_cases (j + ls) 64) as [Hjl|Hjl].
  - replace (Z.to_nat ((64 * Z.of_nat i + j + t) / 64)) with (i + lw)%nat by (Z.to_euclidean_division_equations; lia).
    replace ((64 * Z.of_nat i + j + t) mod 64) with (j + ls) by (Z.to_euclidean_division_equations; lia).
    destruct (_ && _); [|by rewrite Z.bits_0, orb_false_r].
    rewrite shl_testbit, (Z.testbit_neg_r _ (j - _)) by lia. by rewrite orb_false_r.
  - rewrite (limb_high (limb a (i + lw))) by (lia || by apply limb_bound). cbn [orb].
    replace (Z.to_nat ((64 * Z.of_nat i + j + t) / 64)) with (i + lw + 1)%nat by (Z.to_euclidean_division_equations; lia).
    replace ((64 * Z.of_nat i + j + t) mod 64) with (j - (64 - ls)) by (Z.to_euclidean_division_equations; lia).
    destruct (Z.ltb_spec 0 ls); [|lia]. cbn [andb]. destruct (Nat.ltb_spec (i + lw + 1) n).
    + rewrite shl_testbit by lia. done.
    + rewrite Z.bits_0. unfold limb. rewrite nth_overflow by lia. by rewrite Z.bits_0.
Qed.

(** ** Size and order *)
Definition size_of (z : Z) : Z := if z =? 0 then 0 else Z.log2 z + 1.

Lemma bits_snoc l x : bits (l ++ [x]) = if negb (x =? 0) then 64 * (Z.of_nat (length l) + 1) - leading_zeros x else bits l.
Proof.
  unfold bits. rewrite imap_app. cbn [imap]. rewrite reverse_app. cbn [reverse rev_append app top_bits].
  rewrite Nat.add_0_r. done.
Qed.

Lemma bits_spec l : Forall limb_ok l → bits l = size_of (val l).
Proof.
  induction l as [|x l IH] using rev_ind; [done|]. intros [Hl [Hx _]%Forall_cons]%Forall_app.
  rewrite bits_snoc, IH, val_app by done. change (val [x]) with (x + LIMB_BASE * 0).
  pose proof (val_bound l Hl) as Hv. fold (modulus (length l)) in *. pose proof (modulus_pos (length l)).
  replace (x + LIMB_BASE * 0) with x by lia. unfold size_of, limb_ok in *.
  destruct (Z.eqb_spec x 0) as [->|Hne]; cbn [negb].
  { by replace (val l + modulus (length l) * 0) with (val l) by lia. }
  rewrite (proj2 (Z.eqb_neq _ 0)) by nia. unfold leading_zeros.
  enough (Z.log2 (val l + modulus (length l) * x) = 64 * Z.of_nat (length l) + Z.log2 x) by lia.
  rewrite modulus_pow2 in *. set (w := 64 * Z.of_nat (length l)) in *.
  apply Z.log2_unique; [pose proof (Z.log2_nonneg x); lia|]. destruct (Z.log2_spec x) as [H1 H2]; [lia|].
  pose proof (Z.log2_nonneg x). rewrite Z.pow_succ_r in * by lia. rewrite Z.pow_add_r by lia.
  split; nia.
Qed.

Lemma cmp_spec n a b : uint_ok n a → uint_ok n b → uint_cmp a b = (val a ?= val b).
Proof.
  revert a b. induction n as [|n IH]; intros a b Ha Hb.
  { apply uint_ok_nil in Ha as ->. by apply uint_ok_nil in Hb as ->. }
  destruct a as [|x a _] using rev_ind; [by destruct Ha|]. destruct b as [|y b _] using rev_ind; [by destruct Hb|].
  assert (Hsplit : ∀ l z, uint_ok (S n) (l ++ [z]) → uint_ok n l ∧ limb_ok z).
  { intros l z [Hl [? [Hz _]%Forall_cons]%Forall_app]. rewrite length_app in Hl. cbn [length] in Hl.
    split; [split; [lia|done]|done]. }
  apply Hsplit in Ha as [Ha Hx]. apply Hsplit in Hb as [Hb Hy]. specialize (IH a b Ha Hb).
  unfold uint_cmp in *. rewrite !reverse_app. cbn [reverse rev_append app lex_cmp].
  rewrite !val_app. pose proof (uint_bound _ _ Ha). pose proof (uint_bound _ _ Hb).
  destruct Ha as [-> Ha], Hb as [-> Hb]. fold (modulus n). pose proof (modulus_pos n).
  change (val [x]) with (x + LIMB_BASE * 0). change (val [y]) with (y + LIMB_BASE * 0).
  destruct (Z.compare_spec x y) as [->|Hlt|Hgt].
  - rewrite IH. destruct (Z.compare_spec (val a) (val b)); symmetry;
      [apply Z.compare_eq_iff|apply Z.compare_lt_iff|apply Z.compare_gt_iff]; lia.
  - symmetry. apply Z.compare_lt_iff. nia.
  - symmetry. apply Z.compare_gt_iff. nia.
Qed.
Lemma ge_spec n a b : uint_ok n a → uint_ok n b → uint_ge a b = (val b <=? val a).
Proof.
  intros Ha Hb. unfold uint_ge. rewrite (cmp_spec n) by done. unfold Z.leb.
  rewrite Z.compare_antisym. by destruct (val b ?= val a).
Qed.

(** ** Division *)
Lemma limb_insert l i x j : (i < length l)%nat → limb (<[i := x]> l) j = if decide (i = j) then x else limb l j.
Proof.
  intros Hi. unfold limb. rewrite !nth_lookup. destruct (decide (i = j)) as [<-|Hne].
  - by rewrite list_lookup_insert_eq by done.
  - by rewrite list_lookup_insert_ne by done.
Qed.

Lemma set_bit_spec {E} n r s :
  uint_ok n r → (s < 64 * n)%nat → Z.testbit (val r) (Z.of_nat s) = false →
  ∃ r', set_bit (E := E) r s = Ok r' ∧ uint_ok n r' ∧ val r' = val r + 2 ^ Z.of_nat s.
Proof.
  intros Hr Hs Hbit. unfold set_bit. pose proof (uint_bound _ _ Hr) as Hv. destruct Hr as [Hlen Hr].
  assert (Hidx : (s / 64 < n)%nat) by (apply Nat.Div0.div_lt_upper_bound; lia).
  assert (Hmod : (s mod 64 < 64)%nat) by (by apply Nat.mod_upper_bound).
  assert (Hsplit : s = (64 * (s / 64) + s mod 64)%nat) by (apply Nat.div_mod_eq).
  set (q := (s / 64)%nat) in *. set (m := (s mod 64)%nat) in *.
  destruct (lookup_lt_is_Some_2 r q) as [w Hw]; [lia|]. rewrite Hw. cbn [unwrap mbind outcome_bind].
  assert (Hlw : limb r q = w) by (unfold limb; by apply nth_lookup_Some).
  assert (Hwok : limb_ok w) by (by eapply Forall_lookup_1).
  assert (Hone : limb_ok (Z.shiftl 1 (Z.of_nat m))).
  { unfold limb_ok, LIMB_BASE. rewrite Z.shiftl_1_l. split; [lia|]. apply Z.pow_lt_mono_r; lia. }
  eexists. split; [done|].
  assert (Hok : uint_ok n (<[q := Z.lor w (Z.shiftl 1 (Z.of_nat m))]> r)).
  { split; [by rewrite length_insert|]. apply Forall_insert; [done|by apply limb_ok_lor]. }
  split; [done|].
  assert (Hlor : val r + 2 ^ Z.of_nat s = Z.lor (val r) (2 ^ Z.of_nat s)).
  { rewrite <- Z.lxor_lor, <- Z.add_nocarry_lxor; [done|..]; apply Z.bits_inj_0; intros k;
      rewrite Z.land_spec; destruct (Z.eq_dec k (Z.of_nat s)) as [->|]; try (by rewrite Hbit);
      rewrite Z.pow2_bits_false by lia; apply andb_false_r. }
  assert (Hlt : 2 ^ Z.of_nat s < modulus n) by (rewrite modulus_pow2; apply Z.pow_lt_mono_r; lia).
  rewrite Hlor. apply (val_by_bits n); [done| |].
  - split; [apply Z.lor_nonneg; lia|]. rewrite modulus_pow2 in *.
    assert (0 < 2 ^ Z.of_nat s) by (apply Z.pow_pos_nonneg; lia).
    apply Z.log2_lt_cancel. rewrite Z.log2_lor by lia. rewrite !Z.log2_pow2 by lia. apply Z.max_lub_lt; [|lia].
    destruct (Z.eq_dec (val r) 0) as [->|]; [cbn; lia|]. apply Z.log2_lt_pow2; lia.
  - intros i j Hi Hj. rewrite limb_insert by lia. rewrite Z.lor_spec, testbit_limb by (done || lia).
    replace (Z.to_nat ((64 * Z.of_nat i + j) / 64)) with i by (Z.to_euclidean_division_equations; lia).
    replace ((64 * Z.of_nat i + j) mod 64) with j by (Z.to_euclidean_division_equations; lia).
    rewrite Z.pow2_bits_eqb by lia. destruct (decide (q = i)) as [<-|Hne].
    + rewrite Z.lor_spec, Z.shiftl_1_l, Z.pow2_bits_eqb by lia. rewrite Hlw. f_equal.
      destruct (Z.eqb_spec (Z.of_nat m) j), (Z.eqb_spec (Z.of_nat s) (64 * Z.of_nat q + j)); lia.
    + rewrite (proj2 (Z.eqb_neq _ _)) by lia. by rewrite orb_false_r.
Qed.

Lemma pow2_S s : 2 ^ (Z.of_nat (S s) + 1) = 2 * 2 ^ (Z.of_nat s + 1) ∧ 2 ^ Z.of_nat (S s) = 2 * 2 ^ Z.of_nat s ∧
  2 ^ (Z.of_nat s + 1) = 2 * 2 ^ Z.of_nat s ∧ 0 < 2 ^ Z.of_nat s.
Proof.
  rewrite Nat2Z.inj_succ, !Z.add_1_r, !Z.pow_succ_r by lia.
  split; [done|]. split; [done|]. split; [done|]. apply Z.pow_pos_nonneg; lia.
Qed.

(** One round: the bit is set and the shifted divisor subtracted, or neither. *)
Lemma div_round {E} n (s : nat) sub shifted ret A D :
  n ≠ 0%nat → uint_ok n sub → uint_ok n shifted → uint_ok n ret → 0 < D →
  (s < 64 * n)%nat → val shifted = D * 2 ^ Z.of_nat s → val sub < D * 2 ^ (Z.of_nat s + 1) →
  (2 ^ (Z.of_nat s + 1) | val ret) → A = val ret * D + val sub →
  ∃ q r, (if uint_ge sub shifted
          then ret ← set_bit ret s; Ok (ret, (uint_overflowing_sub sub shifted).1)
          else Ok (ret, sub)) = Ok (E := E) (q, r) ∧
    uint_ok n q ∧ uint_ok n r ∧ A = val q * D + val r ∧ val r < D * 2 ^ Z.of_nat s ∧
    (2 ^ Z.of_nat s | val q).
Proof.
  intros Hn Hsub Hsh Hret HD Hlt Hval Hbound [k Hk] HA. rewrite (ge_spec n) by done.
  destruct (pow2_S s) as (_ & _ & H2 & Hpos). rewrite H2 in *. set (p := 2 ^ Z.of_nat s) in *.
  destruct (Z.leb_spec (val shifted) (val sub)) as [Hle|Hgt].
  - destruct (set_bit_spec (E := E) n ret s) as (q & Hq & Hqok & Hqv); [done|done| |].
    { rewrite Hk. replace (k * (2 * p)) with ((2 * k) * p) by ring. subst p.
      rewrite Z.mul_pow2_bits, Z.sub_diag by lia. rewrite Z.bit0_odd, Z.odd_mul. done. }
    destruct (uint_overflowing_sub sub shifted) as [r c] eqn:Hr. rewrite Hq. cbn [mbind outcome_bind fst].
    apply (sub_limbs_spec n) in Hr as [Hrok Hr]; [|done..].
    exists q, r. pose proof (uint_bound _ _ Hrok). pose proof (uint_bound _ _ Hsub). pose proof (uint_bound _ _ Hsh).
    assert (c = false) as -> by (destruct c; [cbn [Z.b2z] in *; nia|done]). cbn [Z.b2z] in *. fold p in Hqv.
    split; [done|]. split; [done|]. split; [done|]. split; [nia|]. split; [nia|].
    exists (2 * k + 1). rewrite Hqv, Hk. ring.
  - exists ret, sub. split; [done|]. split; [done|]. split; [done|]. split; [done|]. split; [lia|].
    exists (2 * k). rewrite Hk. ring.
Qed.

Lemma div_loop_spec {E} n s sub shifted ret A D :
  n ≠ 0%nat → uint_ok n sub → uint_ok n shifted → uint_ok n ret → 0 < D →
  (s < 64 * n)%nat → val shifted = D * 2 ^ Z.of_nat s → val sub < D * 2 ^ (Z.of_nat s + 1) →
  (2 ^ (Z.of_nat s + 1) | val ret) → A = val ret * D + val sub →
  ∃ q r, div_loop (E := E) s sub shifted ret = Ok (q, r) ∧ uint_ok n q ∧ uint_ok n r ∧
    A = val q * D + val r ∧ val r < D.
Proof.
  intros Hn. revert sub shifted ret.
  induction s as [|s IH]; intros sub shifted ret Hsub Hsh Hret HD Hlt Hval Hbound Hdiv HA; cbn [div_loop];
    destruct (div_round (E := E) n _ sub shifted ret A D Hn Hsub Hsh Hret HD Hlt Hval Hbound Hdiv HA)
      as (q & r & -> & Hq & Hr & HA' & Hrlt & Hdiv'); cbn [mbind outcome_bind fst snd].
  - exists q, r. change (2 ^ Z.of_nat 0) with 1 in Hrlt. repeat (split; [done|]). lia.
  - destruct (shr_spec n shifted 1) as [Hsh' Hval']; [done|done|lia|].
    rewrite Z.mod_small in Hval' by lia. destruct (pow2_S s) as (_ & H2 & H3 & _).
    apply IH; try done; [lia| |by rewrite H3, <- H2|by rewrite H3, <- H2].
    rewrite Hval', Hval, H2. change (2 ^ 1) with 2.
    replace (D * (2 * 2 ^ Z.of_nat s)) with (D * 2 ^ Z.of_nat s * 2) by ring. by apply Z.div_mul.
Qed.

Lemma size_of_le a b : 0 ≤ a → 0 < b → size_of a < size_of b → a < b.
Proof.
  unfold size_of. intros Ha Hb. rewrite (proj2 (Z.eqb_neq b 0)) by lia. destruct (Z.eqb_spec a 0); [lia|].
  intros Hs. apply Z.log2_lt_cancel. lia.
Qed.
Lemma size_of_bounds a : 0 < a → 0 < size_of a ∧ 2 ^ (size_of a - 1) ≤ a < 2 ^ size_of a.
Proof.
  intros Ha. unfold size_of. rewrite (proj2 (Z.eqb_neq a 0)) by lia. pose proof (Z.log2_nonneg a).
  split; [lia|]. replace (Z.log2 a + 1 - 1) with (Z.log2 a) by lia. rewrite Z.add_1_r. by apply Z.log2_spec.
Qed.

Lemma div_rem_spec {E} n a b :
  n ≠ 0%nat → uint_ok n a → uint_ok n b → val b ≠ 0 →
  ∃ q r, div_rem (E := E) a b = Ok (q, r) ∧ uint_ok n q ∧ uint_ok n r ∧
    val q = val a / val b ∧ val r = val a mod val b.
Proof.
  intros Hn Ha Hb Hne. unfold div_rem. pose proof (uint_bound _ _ Ha) as HA. pose proof (uint_bound _ _ Hb) as HB.
  rewrite !bits_spec by (apply Ha || apply Hb).
  destruct (size_of_bounds (val b)) as (Hs1 & Hs2 & Hs3); [lia|].
  rewrite (proj2 (Z.eqb_neq _ 0)) by lia. destruct Ha as [Hla Ha']. rewrite Hla.
  assert (Ha : uint_ok n a) by done. destruct (Z.ltb_spec (size_of (val a)) (size_of (val b))) as [Hlt|Hge].
  { exists (replicate n 0), a. apply size_of_le in Hlt; [|lia|lia]. split; [done|]. split; [apply zeros_ok|].
    split; [done|]. rewrite val_zeros, Z.div_small, Z.mod_small by lia. done. }
  destruct (Z.eq_dec (val a) 0) as [Ha0|Ha0]; [rewrite Ha0 in Hge; unfold size_of in Hge at 2; cbn in Hge; lia|].
  destruct (size_of_bounds (val a)) as (Ht1 & Ht2 & Ht3); [lia|].
  set (sa := size_of (val a)) in *. set (sb := size_of (val b)) in *.
  assert (Hsa : sa ≤ 64 * Z.of_nat n).
  { rewrite modulus_pow2 in HA. assert (sa - 1 < 64 * Z.of_nat n); [|lia].
    apply (Z.pow_lt_mono_r_iff 2); lia. }
  destruct (shl_spec n b (sa - sb)) as [Hsh Hshv]; [done|done|lia|].
  rewrite (Z.mod_small (sa - sb)) in Hshv by lia.
  assert (Hpw : 2 ^ sb * 2 ^ (sa - sb) = 2 ^ sa) by (rewrite <- Z.pow_add_r by lia; f_equal; lia).
  assert (0 < 2 ^ (sa - sb)) by (apply Z.pow_pos_nonneg; lia).
  rewrite Z.mod_small in Hshv.
  2:{ split; [nia|]. rewrite modulus_pow2. apply Z.lt_le_trans with (2 ^ sa); [nia|]. apply Z.pow_le_mono_r; lia. }
  destruct (div_loop_spec (E := E) n (Z.to_nat (sa - sb)) a (overflowing_shl b (sa - sb)).1 (replicate n 0) (val a) (val b))
    as (q & r & Hq & Hqok & Hrok & Hqr & Hr); try done.
  - apply zeros_ok.
  - lia.
  - lia.
  - by rewrite Z2Nat.id by lia.
  - rewrite Z2Nat.id by lia. assert (2 ^ sa = 2 * 2 ^ (sb - 1) * 2 ^ (sa - sb)).
    { rewrite <- Hpw. f_equal. rewrite <- Z.pow_succ_r by lia. f_equal. lia. }
    rewrite Z.add_1_r, Z.pow_succ_r by lia. nia.
  - rewrite val_zeros. apply Z.divide_0_r.
  - by rewrite val_zeros.
  - exists q, r. split; [done|]. split; [done|]. split; [done|]. pose proof (uint_bound _ _ Hrok).
    split; [apply (Z.div_unique _ _ _ (val r)); lia|apply (Z.mod_unique _ _ (val q)); lia].
Qed.

(** ** The compact target encoding *)

(** Mantissa [m] and exponent [s] of [v]: [m] is [v * 256^(3-s)] rounded down, scaled so
    that it has two to three bytes and the sign bit clear. *)
Definition compact_form (v m s : Z) : Prop :=
  2 ^ 15 ≤ m < 2 ^ 23 ∧ 1 ≤ s ∧
  if s <=? 3 then v * 2 ^ (8 * (3 - s)) = m else v / 2 ^ (8 * (s - 3)) = m.

Lemma lor_disjoint a b k : 0 ≤ k → 0 ≤ a < 2 ^ k → Z.lor a (Z.shiftl b k) = a + b * 2 ^ k.
Proof.
  intros Hk Ha. rewrite <- Z.shiftl_mul_pow2 by done. rewrite <- Z.lxor_lor, <- Z.add_nocarry_lxor; [done|..];
    apply Z.bits_inj_0; intros n; rewrite Z.land_spec; destruct (Z.lt_ge_cases n k) as [Hn|Hn].
  all: try (rewrite Z.shiftl_spec_low by done; apply andb_false_r).
  all: rewrite <- (Z.mod_small a (2 ^ k)) by done; rewrite Z.mod_pow2_bits_high by done; done.
Qed.

Lemma land_pow2 c k : 0 ≤ k → 0 ≤ c < 2 ^ (k + 1) → (Z.land c (2 ^ k) =? 0) = (c <? 2 ^ k).
Proof.
  intros Hk Hc. rewrite Z.add_1_r, Z.pow_succ_r in Hc by done.
  assert (Hb : Z.testbit c k = negb (c <? 2 ^ k)).
  { rewrite Z.testbit_odd, Z.shiftr_div_pow2 by done. destruct (Z.ltb_spec c (2 ^ k)); cbn [negb].
    - by rewrite Z.div_small by lia.
    - replace (c / 2 ^ k) with 1; [done|]. apply (Z.div_unique _ _ _ (c - 2 ^ k)); lia. }
  assert (Hl : Z.land c (2 ^ k) = if Z.testbit c k then 2 ^ k else 0).
  { apply Z.bits_inj'. intros n Hn. rewrite Z.land_spec, Z.pow2_bits_eqb by done.
    destruct (Z.eqb_spec k n) as [->|Hne].
    - rewrite andb_true_r. destruct (Z.testbit c n) eqn:Ht; [by rewrite Z.pow2_bits_true|by rewrite Z.bits_0].
    - rewrite andb_false_r. destruct (Z.testbit c k); [by rewrite Z.pow2_bits_false|by rewrite Z.bits_0]. }
  rewrite Hl, Hb. assert (0 < 2 ^ k) by (by apply Z.pow_pos_nonneg). destruct (c <? 2 ^ k); cbn [negb]; lia.
Qed.

Lemma as_u64_spec n l : uint_ok (S n) l → as_u64 l = val l mod LIMB_BASE.
Proof.
  destruct l as [|x l]; [by intros [? _]|]. intros [Hx _]%uint_ok_cons. unfold as_u64, limb. cbn [nth].
  rewrite val_cons, Z.mul_comm, Z.mod_add by (unfold LIMB_BASE; lia). symmetry. by apply Z.mod_small.
Qed.

(** The mantissa before the sign-bit adjustment. *)
Lemma compact_top v s t :
  uint_ok 4 t → val t = v → 1 ≤ s ≤ 32 → 2 ^ (8 * (s - 1)) ≤ v < 2 ^ (8 * s) →
  let c := (if s <=? 3 then u64_shl (as_u64 t) (8 * (3 - s)) mod 2 ^ 32
            else as_u64 (overflowing_shr t (8 * (s - 3))).1 mod 2 ^ 32) in
  c = (if s <=? 3 then v * 2 ^ (8 * (3 - s)) else v / 2 ^ (8 * (s - 3))) ∧ 2 ^ 16 ≤ c < 2 ^ 24.
Proof.
  intros Ht Hv Hs [Hlo Hhi] c. subst c. destruct (Z.leb_spec s 3).
  - rewrite (as_u64_spec 3), Hv by done. unfold u64_shl, LIMB_BASE. rewrite Z.shiftl_mul_pow2 by lia.
    assert (Hp : 2 ^ (8 * s) * 2 ^ (8 * (3 - s)) = 2 ^ 24) by (rewrite <- Z.pow_add_r by lia; f_equal; lia).
    assert (Hq : 2 ^ (8 * (s - 1)) * 2 ^ (8 * (3 - s)) = 2 ^ 16) by (rewrite <- Z.pow_add_r by lia; f_equal; lia).
    assert (0 < 2 ^ (8 * (3 - s))) by (apply Z.pow_pos_nonneg; lia).
    assert (2 ^ (8 * s) ≤ 2 ^ 24) by (apply Z.pow_le_mono_r; lia).
    assert (0 < 2 ^ (8 * (s - 1))) by (apply Z.pow_pos_nonneg; lia).
    assert (2 ^ 16 ≤ v * 2 ^ (8 * (3 - s)) < 2 ^ 24) by nia.
    rewrite (Z.mod_small v (2 ^ 64)), (Z.mod_small (v * _) (2 ^ 64)), (Z.mod_small (v * _)) by lia. done.
  - destruct (shr_spec 4 t (8 * (s - 3))) as [Hr Hrv]; [done|done|lia|].
    rewrite (as_u64_spec 3), Hrv by done. change (64 * Z.of_nat 4) with 256. rewrite (Z.mod_small (8 * (s - 3))) by lia.
    rewrite Hv. assert (0 < 2 ^ (8 * (s - 3))) by (apply Z.pow_pos_nonneg; lia).
    assert (Hp : 2 ^ (8 * (s - 3)) * 2 ^ 24 = 2 ^ (8 * s)) by (rewrite <- Z.pow_add_r by lia; f_equal; lia).
    assert (Hq : 2 ^ (8 * (s - 3)) * 2 ^ 16 = 2 ^ (8 * (s - 1))) by (rewrite <- Z.pow_add_r by lia; f_equal; lia).
    assert (2 ^ 16 ≤ v / 2 ^ (8 * (s - 3)) < 2 ^ 24).
    { split; [apply Z.div_le_lower_bound|apply Z.div_lt_upper_bound]; lia. }
    unfold LIMB_BASE. rewrite (Z.mod_small (v / _) (2 ^ 64)), (Z.mod_small (v / _)) by lia. done.
Qed.

Lemma compact_bits_form t :
  uint_ok 4 t → 0 < val t →
  ∃ m s, compact_form (val t) m s ∧ s ≤ 33 ∧ compact_target_bits t = m + s * 2 ^ 24.
Proof.
  intros Ht Hpos. unfold compact_target_bits. pose proof (uint_bound _ _ Ht) as Hv. rewrite modulus_pow2 in Hv.
  change (64 * Z.of_nat 4) with 256 in Hv.
  rewrite bits_spec by apply Ht. destruct (size_of_bounds (val t) Hpos) as (Hs0 & Hs1 & Hs2).
  set (b := size_of (val t)) in *. set (s := div_ceil b 8).
  assert (Hb : b ≤ 256) by (assert (b - 1 < 256); [apply (Z.pow_lt_mono_r_iff 2); lia|lia]).
  assert (Hs : 8 * (s - 1) < b ≤ 8 * s) by (subst s; unfold div_ceil; Z.to_euclidean_division_equations; lia).
  destruct (compact_top (val t) s t) as [Hc Hcb]; [done|done|lia| |].
  { split; [etransitivity; [|exact Hs1]|eapply Z.lt_le_trans; [exact Hs2|]]; apply Z.pow_le_mono_r; lia. }
  set (c := if s <=? 3 then _ else _) in *. clearbody c s.
  change 0x00800000 with (2 ^ 23). rewrite land_pow2 by lia.
  destruct (Z.ltb_spec c (2 ^ 23)) as [Hlt|Hge]; cbn [negb].
  - exists c, s. rewrite lor_disjoint by lia. split; [|lia]. split; [lia|]. split; [lia|].
    destruct (s <=? 3); done.
  - rewrite Z.shiftr_div_pow2 by lia. change (2 ^ 8) with 256.
    assert (2 ^ 15 ≤ c / 256 < 2 ^ 16) by (Z.to_euclidean_division_equations; lia).
    exists (c / 256), (s + 1). rewrite lor_disjoint by lia. split; [|lia]. split; [lia|]. split; [lia|].
    rewrite Hc. destruct (Z.leb_spec s 3), (Z.leb_spec (s + 1) 3).
    + replace (8 * (3 - s)) with (8 * (3 - (s + 1)) + 8) by lia. rewrite Z.pow_add_r by lia.
      change (2 ^ 8) with 256. rewrite Z.mul_assoc, Z.div_mul by lia. done.
    + replace s with 3 by lia. change (2 ^ (8 * (3 - 3))) with 1. change (2 ^ (8 * (3 + 1 - 3))) with 256.
      by rewrite Z.mul_1_r.
    + lia.
    + rewrite Z.div_div by (lia || apply Z.pow_nonzero; lia). f_equal.
      replace (8 * (s + 1 - 3)) with (8 * (s - 3) + 8) by lia. by rewrite Z.pow_add_r by lia.
Qed.

Lemma from_u64_ok n x : limb_ok x → uint_ok (S n) (from_u64 (S n) x) ∧ val (from_u64 (S n) x) = x.
Proof.
  intros Hx. unfold from_u64. rewrite Nat.sub_succ, Nat.sub_0_r. rewrite uint_ok_cons, val_cons, val_zeros.
  split; [split; [done|apply zeros_ok]|lia].
Qed.

Lemma from_compact_form m s :
  0 ≤ m < 2 ^ 23 → 0 ≤ s ≤ 33 → (s = 33 → m < 2 ^ 16) →
  let t := from_compact_target_bits (m + s * 2 ^ 24) in
  uint_ok 4 t ∧ val t = if s <=? 3 then m / 2 ^ (8 * (3 - s)) else m * 2 ^ (8 * (s - 3)).
Proof.
  intros Hm Hs Htop t. subst t. unfold from_compact_target_bits. change 0xFFFFFF with (Z.ones 24).
  rewrite Z.shiftr_div_pow2, Z.land_ones, Z.div_add, Z.mod_add, Z.div_small, Z.mod_small by lia.
  rewrite Z.add_0_l. change 0x7FFFFF with (2 ^ 23 - 1). destruct (Z.leb_spec s 3).
  - rewrite Z.shiftr_div_pow2 by lia. set (p := 2 ^ (8 * (3 - s))).
    assert (0 < p) by (apply Z.pow_pos_nonneg; lia).
    assert (0 ≤ m / p < 2 ^ 23) by (split; [apply Z.div_pos|apply Z.div_lt_upper_bound]; nia).
    destruct (Z.ltb_spec (2 ^ 23 - 1) (m / p)); [lia|].
    destruct (from_u64_ok 3 (m / p)) as [Hok Hval]; [unfold limb_ok, LIMB_BASE; lia|].
    destruct (shl_spec 4 (from_u64 4 (m / p)) 0) as [Hr Hrv]; [done|done|lia|]. split; [done|].
    rewrite Hrv, Hval, modulus_pow2. change (2 ^ (0 mod _)) with 1. rewrite Z.mul_1_r. apply Z.mod_small.
    change (64 * Z.of_nat 4) with 256. lia.
  - destruct (Z.ltb_spec (2 ^ 23 - 1) m); [lia|].
    destruct (from_u64_ok 3 m) as [Hok Hval]; [unfold limb_ok, LIMB_BASE; lia|].
    destruct (shl_spec 4 (from_u64 4 m) (8 * (s - 3))) as [Hr Hrv]; [done|done|lia|]. split; [done|].
    rewrite Hrv, Hval, modulus_pow2. change (64 * Z.of_nat 4) with 256. rewrite (Z.mod_small (8 * (s - 3))) by lia.
    apply Z.mod_small. set (p := 2 ^ (8 * (s - 3))). assert (0 < p) by (apply Z.pow_pos_nonneg; lia).
    split; [nia|]. destruct (Z.eq_dec s 33) as [->|Hne].
    + specialize (Htop eq_refl). replace (2 ^ 256) with (2 ^ 16 * p) by (subst p; by rewrite <- Z.pow_add_r by lia). nia.
    + assert (p ≤ 2 ^ 232) by (apply Z.pow_le_mono_r; lia). nia.
Qed.

(** The exponent of a compact form is the only one. *)
Lemma compact_form_value v m s :
  0 < v → compact_form v m s → m * 2 ^ (8 * s) ≤ v * 2 ^ 24 < (m + 1) * 2 ^ (8 * s).
Proof.
  intros Hv (Hm & Hs & Hf). destruct (Z.leb_spec s 3).
  - replace (2 ^ 24) with (2 ^ (8 * (3 - s)) * 2 ^ (8 * s)) by (rewrite <- Z.pow_add_r by lia; f_equal; lia).
    assert (0 < 2 ^ (8 * s)) by (apply Z.pow_pos_nonneg; lia). nia.
  - replace (2 ^ (8 * s)) with (2 ^ (8 * (s - 3)) * 2 ^ 24) by (rewrite <- Z.pow_add_r by lia; f_equal; lia).
    assert (0 < 2 ^ (8 * (s - 3))) by (apply Z.pow_pos_nonneg; lia). set (p := 2 ^ (8 * (s - 3))) in *.
    pose proof (Z.div_mod v p ltac:(lia)). pose proof (Z.mod_pos_bound v p ltac:(lia)). rewrite Hf in *. nia.
Qed.

Lemma compact_form_inj v m1 s1 m2 s2 :
  0 < v → compact_form v m1 s1 → compact_form v m2 s2 → m1 = m2 ∧ s1 = s2.
Proof.
  intros Hv H1 H2. enough (s1 = s2) as ->.
  { split; [|done]. destruct H1 as (_ & _ & H1), H2 as (_ & _ & H2). destruct (s2 <=? 3); congruence. }
  pose proof (compact_form_value _ _ _ Hv H1) as B1. pose proof (compact_form_value _ _ _ Hv H2) as B2.
  assert (Hno : ∀ m s m' s', 2 ^ 15 ≤ m → m' + 1 ≤ 2 ^ 23 → 1 ≤ s' → s' < s → 0 ≤ m' →
    m * 2 ^ (8 * s) ≤ v * 2 ^ 24 → v * 2 ^ 24 < (m' + 1) * 2 ^ (8 * s') → False).
  { intros m s m' s' Hm Hm' Hs' Hlt Hm0 Ha Hb.
    assert (2 ^ (8 * s') * 2 ^ 8 ≤ 2 ^ (8 * s)) by (rewrite <- Z.pow_add_r by lia; apply Z.pow_le_mono_r; lia).
    assert (0 < 2 ^ (8 * s')) by (apply Z.pow_pos_nonneg; lia). nia. }
  destruct H1 as (M1 & S1 & _), H2 as (M2 & S2 & _).
  destruct (Z.lt_trichotomy s1 s2) as [Hlt|[?|Hlt]]; [|done|]; exfalso.
  - apply (Hno m2 s2 m1 s1); lia.
  - apply (Hno m1 s1 m2 s2); lia.
Qed.

Lemma compact_zero t : uint_ok 4 t → val t = 0 → compact_target_bits t = 0.
Proof.
  intros Ht Hv. assert (t = replicate 4 0) as ->; [|done].
  destruct (zeros_ok 4) as [Hl0 Hz]. destruct Ht as [Hl Ht]. apply val_inj; [by rewrite Hl|done|done|by rewrite Hv, val_zeros].
Qed.

Lemma compact_lossy t :
  uint_ok 4 t → 0 < val t →
  let w := from_compact_target_bits (compact_target_bits t) in
  in_u32 (compact_target_bits t) ∧ uint_ok 4 w ∧ 0 < val w ≤ val t ∧ (val t - val w) * 2 ^ 15 < val w ∧
  compact_target_bits w = compact_target_bits t.
Proof.
  intros Ht Hpos w. destruct (compact_bits_form t Ht Hpos) as (m & s & Hf & Hs & Hc).
  pose proof (compact_form_value _ _ _ Hpos Hf) as [Hlo Hhi]. pose proof Hf as (Hm & Hs1 & Hfv).
  pose proof (uint_bound _ _ Ht) as Hv. rewrite modulus_pow2 in Hv. change (64 * Z.of_nat 4) with 256 in Hv.
  destruct (from_compact_form m s) as [Hw Hwv]; [lia|lia| |].
  { intros ->. assert (m * 2 ^ 264 < 2 ^ 280) by lia. lia. }
  rewrite <- Hc in Hw, Hwv. fold w in Hw, Hwv.
  assert (Hform : compact_form (val w) m s ∧ 0 < val w ≤ val t ∧ (val t - val w) * 2 ^ 15 < val w).
  { unfold compact_form. destruct (Z.leb_spec s 3).
    - assert (Hp : 0 < 2 ^ (8 * (3 - s))) by (apply Z.pow_pos_nonneg; lia).
      rewrite <- Hfv, Z.div_mul in Hwv by lia. rewrite Hwv. lia.
    - assert (Hp : 0 < 2 ^ (8 * (s - 3))) by (apply Z.pow_pos_nonneg; lia).
      set (p := 2 ^ (8 * (s - 3))) in *. rewrite Hwv, Z.div_mul by lia.
      pose proof (Z.div_mod (val t) p ltac:(lia)). pose proof (Z.mod_pos_bound (val t) p ltac:(lia)).
      rewrite Hfv in *. nia. }
  destruct Hform as (Hform & Hwpos & Herr). split; [unfold in_u32; lia|]. split; [done|]. split; [done|].
  split; [done|]. destruct (compact_bits_form w Hw) as (m' & s' & Hf' & _ & ->); [lia|].
  rewrite Hc. by destruct (compact_form_inj (val w) m' s' m s) as [-> ->]; [lia|done|done|].
Qed.

(** Any bits decode to a number below the largest one. *)
Lemma from_compact_ok b :
  0 ≤ b → uint_ok 4 (from_compact_target_bits b) ∧ val (from_compact_target_bits b) < modulus 4 - 1.
Proof.
  intros Hb. unfold from_compact_target_bits.
  set (me := if Z.shiftr b 24 <=? 3 then _ else _).
  assert (Hme : 0 ≤ me.1 ∧ 0 ≤ me.2).
  { subst me. pose proof (Z.shiftr_nonneg b 24) as Hsh. destruct (Z.leb_spec (Z.shiftr b 24) 3); cbn [fst snd].
    - split; [|lia]. apply Z.shiftr_nonneg, Z.land_nonneg. by left.
    - split; [apply Z.land_nonneg; by left|lia]. }
  destruct me as [mant expt]. cbn [fst snd] in Hme. rewrite modulus_pow2. change (64 * Z.of_nat 4) with 256.
  destruct (Z.ltb_spec 0x7FFFFF mant); [split; [apply zeros_ok|rewrite val_zeros; lia]|].
  destruct (from_u64_ok 3 mant) as [Hok Hval]; [unfold limb_ok, LIMB_BASE; lia|].
  destruct (shl_spec 4 (from_u64 4 mant) expt) as [Hr Hrv]; [done|done|lia|]. split; [done|].
  rewrite Hrv, Hval, modulus_pow2. change (64 * Z.of_nat 4) with 256.
  pose proof (Z.mod_pos_bound expt 256). set (r := expt mod 256) in *. destruct (Z.eq_dec r 0) as [->|Hne].
  - rewrite Z.mod_small by lia. lia.
  - pose proof (Z.mod_pos_bound (mant * 2 ^ r) (2 ^ 256)). pose proof (Z.div_mod (mant * 2 ^ r) (2 ^ 256)) as Hdm.
    assert (Hev : mant * 2 ^ r = 2 * (mant * 2 ^ (r - 1))).
    { replace r with (Z.succ (r - 1)) at 1 by lia. rewrite Z.pow_succ_r by lia. ring. }
    rewrite Hev in *. set (h := mant * 2 ^ (r - 1)) in *. clearbody h. set (q := 2 * h / 2 ^ 256) in *. clearbody q. lia.
Qed.

Lemma uint_not_spec n a : uint_ok n a → uint_ok n (uint_not a) ∧ val (uint_not a) = modulus n - 1 - val a.
Proof.
  revert a. induction n as [|n IH]; intros a Ha; [by apply uint_ok_nil in Ha as ->|].
  destruct a as [|x a]; [by destruct Ha|]. apply uint_ok_cons in Ha as [Hx Ha]. destruct (IH a Ha) as [Hok Hv].
  change (uint_not (x :: a)) with (LIMB_BASE - 1 - x :: uint_not a).
  rewrite uint_ok_cons, !val_cons, Hv, modulus_S. unfold limb_ok in *. split; [split; [lia|done]|ring].
Qed.

Lemma div_rem_u64_spec {E} n a x :
  uint_ok n a → limb_ok x → x ≠ 0 →
  ∃ q, div_rem_u64 (E := E) a x = Ok (q, val a mod x) ∧ uint_ok n q ∧ val q = val a / x.
Proof.
  intros Ha Hx Hne. revert a Ha. induction n as [|n IH]; intros a Ha.
  { apply uint_ok_nil in Ha as ->. exists []. cbn [div_rem_u64]. rewrite Z.mod_0_l, Z.div_0_l by done. done. }
  destruct a as [|d a]; [by destruct Ha|]. apply uint_ok_cons in Ha as [Hd Ha]. destruct (IH a Ha) as (q & Hq & Hqok & Hqv).
  cbn [div_rem_u64]. rewrite Hq. cbn [mbind outcome_bind fst snd]. rewrite (proj2 (Z.eqb_neq x 0)) by done.
  assert (Hpos : 0 < x) by (unfold limb_ok in Hx; lia). pose proof (Z.mod_pos_bound (val a) x Hpos) as Hm.
  assert (Hn : Z.lor (Z.shiftl (val a mod x) 64) d = d + (val a mod x) * LIMB_BASE)
    by (rewrite Z.lor_comm; by apply lor_disjoint).
  rewrite Hn. pose proof (Z.div_mod (val a) x Hne) as Hdm. rewrite val_cons. set (m := val a mod x) in *.
  assert (Hdiv : 0 ≤ (d + m * LIMB_BASE) / x < LIMB_BASE).
  { unfold limb_ok in *. pose proof limb_base_pos. split; [apply Z.div_pos; nia|]. apply Z.div_lt_upper_bound; nia. }
  rewrite (Z.mod_small (_ / x)) by done. eexists. split; [f_equal; f_equal|].
  - rewrite Hdm. replace (d + LIMB_BASE * (x * (val a / x) + m)) with (d + m * LIMB_BASE + (LIMB_BASE * (val a / x)) * x) by ring.
    by rewrite Z.mod_add.
  - rewrite uint_ok_cons, val_cons, Hqv. split; [done|]. rewrite Hdm at 2.
    replace (d + LIMB_BASE * (x * (val a / x) + m)) with (d + m * LIMB_BASE + (LIMB_BASE * (val a / x)) * x) by ring.
    by rewrite Z.div_add.
Qed.

Lemma extend_spec n a : uint_ok n a → uint_ok (S n) (extend a) ∧ val (extend a) = val a.
Proof.
  intros Ha. unfold extend. rewrite <- Nat.add_1_r. split.
  - apply uint_ok_app; [done|]. by apply uint_ok_cons; split; [apply limb_ok_0|].
  - rewrite val_app. cbn [val foldr]. lia.
Qed.

Lemma narrow_spec {E} (e : E) k a :
  uint_ok (S k) a →
  (val a < modulus k → narrow e k a = Ok (take k a) ∧ uint_ok k (take k a) ∧ val (take k a) = val a) ∧
  (modulus k ≤ val a → narrow e k a = Err e).
Proof.
  intros Ha. unfold narrow. destruct (uint_ok_take_drop (S k) k a Ha) as [Ht Hd]; [lia|].
  pose proof (val_take_drop k a) as Hv. destruct Ha as [Hl Ha]. rewrite Hl, Nat.min_l in Hv by lia.
  assert (Hdr : drop k a = [limb a k]).
  { unfold limb. rewrite <- (take_drop k a) at 2. replace (S k - k)%nat with 1%nat in Hd by lia. destruct Hd as [Hd _].
    rewrite app_nth2; rewrite length_take, Hl; [|lia]. replace (k - _)%nat with 0%nat by lia.
    by destruct (drop k a) as [|? [|]]. }
  rewrite Hdr in Hv. change (val [limb a k]) with (limb a k + LIMB_BASE * 0) in Hv.
  pose proof (uint_bound _ _ Ht). pose proof (limb_bound a k Ha) as Hk. unfold limb_ok in Hk.
  pose proof (modulus_pos k). destruct (Z.eqb_spec (limb a k) 0) as [Hz|Hz]; cbn [negb reject_if mbind outcome_bind].
  - split; [intros _; split; [done|]; split; [done|lia]|]. intros ?. nia.
  - split; [intros ?; nia|done].
Qed.

Lemma uint_sum_spec n l :
  Forall (uint_ok n) l → Zsum (val <$> l) < modulus n →
  uint_ok n (uint_sum n l) ∧ val (uint_sum n l) = Zsum (val <$> l).
Proof.
  intros Hl. destruct Hl as [|x l Hx Hl]; [intros _; split; [apply zeros_ok|apply val_zeros]|].
  cbn [uint_sum fmap list_fmap]. rewrite Zsum_cons. revert x Hx. induction Hl as [|y l Hy Hl IH]; intros x Hx Hlt; cbn [foldl fmap list_fmap].
  { split; [done|]. unfold Zsum. cbn. lia. }
  change (Zsum (val <$> y :: l)) with (val y + Zsum (val <$> l)) in *.
  destruct (uint_overflowing_add x y) as [r c] eqn:Hr. apply (add_limbs_spec n) in Hr as [Hrok Hr]; [|done..].
  assert (0 ≤ Zsum (val <$> l)).
  { apply Zsum_nonneg, Forall_fmap. eapply Forall_impl; [exact Hl|]. intros z Hz%uint_bound. simpl. lia. }
  pose proof (uint_bound _ _ Hrok). assert (c = false) as -> by (destruct c; [cbn [Z.b2z] in *; lia|done]).
  cbn [Z.b2z fst] in *. destruct (IH r Hrok) as [? Hv]; [lia|]. split; [done|]. rewrite Hv, Zsum_cons. lia.
Qed.

(** (C29) The limb code is arithmetic: on numbers of [n] limbs, addition and subtraction
    return the result modulo [2^(64 n)] with the exact overflow flag, multiplication
    returns the product modulo [2^(64 n)], and the bitwise long division terminates
    without a panic and returns quotient and remainder for every non-zero divisor. *)
Theorem uint_arithmetic_exact {E} n a b :
  n ≠ 0%nat → uint_ok n a → uint_ok n b →
  (∃ r, uint_overflowing_add a b = (r, modulus n <=? val a + val b) ∧ uint_ok n r ∧
     val r = (val a + val b) mod modulus n) ∧
  (∃ r, uint_overflowing_sub a b = (r, val a <? val b) ∧ uint_ok n r ∧
     val r = (val a - val b) mod modulus n) ∧
  (∃ r f, overflowing_mul a b = (r, f) ∧ uint_ok n r ∧ val r = (val a * val b) mod modulus n) ∧
  (val b ≠ 0 → ∃ q r, div_rem (E := E) a b = Ok (q, r) ∧ uint_ok n q ∧ uint_ok n r ∧
     val q = val a / val b ∧ val r = val a mod val b).
Proof.
  intros Hn Ha Hb. pose proof (uint_bound _ _ Ha) as HA. pose proof (uint_bound _ _ Hb) as HB.
  split; [|split; [|split]].
  - destruct (uint_overflowing_add a b) as [r c] eqn:Hr. apply (add_limbs_spec n) in Hr as [Hrok Hr]; [|done..].
    pose proof (uint_bound _ _ Hrok). exists r. cbn [Z.b2z] in Hr. destruct c; cbn [Z.b2z] in Hr.
    + rewrite (proj2 (Z.leb_le _ _)) by lia. split; [done|]. split; [done|]. apply (Z.mod_unique _ _ 1); lia.
    + rewrite (proj2 (Z.leb_gt _ _)) by lia. split; [done|]. split; [done|]. symmetry. rewrite Z.mod_small; lia.
  - destruct (uint_overflowing_sub a b) as [r c] eqn:Hr. apply (sub_limbs_spec n) in Hr as [Hrok Hr]; [|done..].
    pose proof (uint_bound _ _ Hrok). exists r. cbn [Z.b2z] in Hr. destruct c; cbn [Z.b2z] in Hr.
    + rewrite (proj2 (Z.ltb_lt _ _)) by lia. split; [done|]. split; [done|]. apply (Z.mod_unique _ _ (-1)); lia.
    + rewrite (proj2 (Z.ltb_ge _ _)) by lia. split; [done|]. split; [done|]. symmetry. rewrite Z.mod_small; lia.
  - destruct (overflowing_mul_inv n a b Ha Hb) as (Hr & k & Hk & Hval & _).
    destruct (overflowing_mul a b) as [r f]. exists r, f. split; [done|]. split; [done|]. cbn [fst] in *.
    pose proof (uint_bound _ _ Hr). apply (Z.mod_unique _ _ k); lia.
  - by apply div_rem_spec.
Qed.
Lemma uint_arithmetic_exact_witness :
  ∃ q r, div_rem (E := unit) [5; 7; 0; 9] [0; 3; 0; 0] = Ok (q, r) ∧
    val q = val [5; 7; 0; 9] / val [0; 3; 0; 0].
Proof.
  destruct (uint_arithmetic_exact (E := unit) 4 [5; 7; 0; 9] [0; 3; 0; 0]) as (_ & _ & _ & Hdiv);
    [done|by_decide|by_decide|].
  destruct Hdiv as (q & r & Hq & _ & _ & Hv & _); [by_decide|]. exists q, r. split; [exact Hq|exact Hv].
Defined.

(** The multiplication misses overflows: its flag is only set by carries out of the
    highest limb it writes, and products of limbs that lie wholly beyond the width are
    skipped, so two numbers whose product exceeds the width multiply to zero with the
    flag clear; a set flag does mean an overflow. *)
Theorem overflowing_mul_misses_overflow :
  (∀ n a b r, uint_ok n a → uint_ok n b → overflowing_mul a b = (r, true) → modulus n ≤ val a * val b) ∧
  ∃ a b, uint_ok 4 a ∧ uint_ok 4 b ∧ modulus 4 ≤ val a * val b ∧
    overflowing_mul a b = (replicate 4 0, false).
Proof.
  split.
  - intros n a b r Ha Hb Hm. destruct (overflowing_mul_inv n a b Ha Hb) as (Hr & k & Hk & Hval & Hf).
    rewrite Hm in *. cbn [fst snd] in *. specialize (Hf eq_refl). pose proof (uint_bound _ _ Hr).
    pose proof (modulus_pos n). nia.
  - exists [0; 0; 0; 1], [0; 1; 0; 0]. by_decide.
Qed.

(** (C30) Compact targets lose little and are canonical: encoding a target gives a [u32],
    decoding it gives a target that is not larger and smaller by less than one part in
    [2^15], and encoding that again gives the same bits; zero stays zero. *)
Theorem compact_target_roundtrip t :
  uint_ok 4 t →
  let bits := compact_target_bits t in
  let w := from_compact_target_bits bits in
  in_u32 bits ∧ uint_ok 4 w ∧ val w ≤ val t ∧ (val t - val w) * 2 ^ 15 ≤ val w ∧
  (0 < val t → 0 < val w) ∧ compact_target_bits w = bits.
Proof.
  intros Ht bits w. pose proof (uint_bound _ _ Ht). destruct (Z.eq_dec (val t) 0) as [H0|H0].
  - subst w bits. rewrite (compact_zero t) by done. rewrite H0. by_decide.
  - subst w bits. destruct (compact_lossy t) as (? & ? & ? & ? & ?); [done|lia|]. split; [done|]. split; [done|]. split; [lia|].
    split; [lia|]. split; [lia|done].
Qed.
Lemma compact_target_roundtrip_witness :
  compact_target_bits (from_compact_target_bits (compact_target_bits [1; 0; 0; 2 ^ 63])) =
    compact_target_bits [1; 0; 0; 2 ^ 63].
Proof. apply (compact_target_roundtrip [1; 0; 0; 2 ^ 63]). by_decide. Defined.
