(* ===== verification/U3072.v ===== *)
(** * Arithmetic of the multiset hash

    [crypto/muhash/src/u3072.rs]: 3072-bit numbers of 48 limbs, multiplied modulo the
    prime [2^3072 - 1103717] with the reductions folded into the limb loops, and divided
    through a modular inverse.  The theorems state that the limb code computes the
    modular product and quotient and that none of its assertions and checked additions
    fails. *)

From S2P Require Import Prelude Uint.

Definition LIMBS : nat := 48.
Definition PRIME_DIFF : Z := 1103717.

(** [[Limb; LIMBS]]. *)
Abbreviation U3072 := (list Z) (only parsing).
Definition zero : U3072 := replicate LIMBS 0.
Definition one : U3072 := 1 :: replicate 47 0.

Definition u3072_from_le_bytes (bytes : list Z) : U3072 :=
  from_le_bytes <$> reshape (replicate LIMBS 8%nat) bytes.
Definition u3072_to_le_bytes (self : U3072) : list Z := flat_map (le_bytes 8) self.

(** ** Limb operations *)
Definition mul_wide (a b : Z) : Z * Z := ((a * b) mod LIMB_BASE, (a * b) / LIMB_BASE).

(** Three limbs [[low, high, carry]], least significant first. *)
Abbreviation limbs3 := (Z * Z * Z)%type (only parsing).

Definition muladd3 {E} (a b : Z) (acc : limbs3) : outcome E limbs3 :=
  let '(low, high, carry) := acc in
  let '(tl, th) := mul_wide a b in
  let '(low, overflow) := overflowing_add low tl in
  th ← u64_add th overflow;
  let '(high, overflow) := overflowing_add high th in
  carry ← u64_add carry overflow;
  Ok (low, high, carry).

(** The double-limb sums stay below [2^128] for limb arguments. *)
Definition mulnadd3 {E} (c0 c1 : Z) (dd : limbs3) (n : Z) : outcome E limbs3 :=
  let '(d0, d1, d2) := dd in
  let t := d0 * n + c0 in
  let r0 := t mod LIMB_BASE in
  let t := t / LIMB_BASE + (d1 * n + c1) in
  let r1 := t mod LIMB_BASE in
  p ← u64_mul d2 n;
  r2 ← u64_add (t / LIMB_BASE mod LIMB_BASE) p;
  Ok (r0, r1, r2).

Definition muln2 (low high n : Z) : Z * Z :=
  let tmp := low * n in
  let r0 := tmp mod LIMB_BASE in
  let tmp := tmp / LIMB_BASE + high * n in
  (r0, tmp mod LIMB_BASE).

(** ** The carry chain of [full_reduce] and of the second reduction of [mul] *)
Definition carry_step (st : U3072 * Z * Z) (l : Z) : U3072 * Z * Z :=
  let '(out, low, high) := st in
  let '(low, overflow) := overflowing_add low l in
  let '(high, overflow) := overflowing_add high overflow in
  (out ++ [low], high, overflow).

Definition full_reduce (self : U3072) : U3072 :=
  (fold_left carry_step self ([], PRIME_DIFF, 0)).1.1.

Definition is_overflow (self : U3072) : bool :=
  if limb self 0 <=? u64_max - PRIME_DIFF then false
  else forallb (λ l, l =? u64_max) (tail self).

(** ** Multiplication *)

(** The factors of the products that land on limb [j], above and below the modulus. *)
Definition high_pairs (a b : U3072) (j : nat) : list (Z * Z) :=
  (λ i, (limb a i, limb b (LIMBS + j - i))) <$> seq (2 + j) (LIMBS - (2 + j)).
Definition low_pairs (a b : U3072) (j : nat) : list (Z * Z) :=
  (λ i, (limb a i, limb b (j - i))) <$> seq 0 (j + 1).
Definition muladd_pairs {E} (acc : limbs3) (l : list (Z * Z)) : outcome E limbs3 :=
  try_fold (λ st xy, muladd3 xy.1 xy.2 st) acc l.

(** One round of the main loop; [tmp] collects the limbs in order. *)
Definition mul_step {E} (a b : U3072) (st : U3072 * Z * Z) (j : nat) : outcome E (U3072 * Z * Z) :=
  let '(tmp, carry_low, carry_high) := st in
  let '(low, high) := mul_wide (limb a (j + 1)) (limb b (LIMBS + j - (1 + j))) in
  acc ← muladd_pairs (low, high, 0) (high_pairs a b j);
  c ← mulnadd3 carry_low carry_high acc PRIME_DIFF;
  c ← muladd_pairs c (low_pairs a b j);
  let '(c0, c1, c2) := c in
  Ok (tmp ++ [c0], c1, c2).

Definition mul {E} (self other : U3072) : outcome E U3072 :=
  if bool_decide (self = one) then Ok other else
  st ← try_fold (mul_step self other) ([], 0, 0) (seq 0 (LIMBS - 1));
  let '(tmp, carry_low, carry_high) := st in
  c ← muladd_pairs (carry_low, carry_high, 0) (low_pairs self other (LIMBS - 1));
  let '(c0, c1, c2) := c in
  let '(carry_low, carry_high) := muln2 c1 c2 PRIME_DIFF in
  let '(out, carry_low, carry_high) := fold_left carry_step (tmp ++ [c0]) ([], carry_low, carry_high) in
  if negb (carry_high =? 0) then Panic else
  if negb ((carry_low =? 0) || (carry_low =? 1)) then Panic else
  let out := if is_overflow out then full_reduce out else out in
  Ok (if negb (carry_low =? 0) then full_reduce out else out).

(** ** Division *)

Definition UINT_PRIME : Z := 2 ^ 3072 - PRIME_DIFF.

(** [malachite]'s modular inverse. *)
Class ModInverse := { mod_inverse : Z → Z → option Z }.

Section division.
Context `{ModInverse}.

(** The check of the result under [debug_assertions] is not part of release builds. *)
Definition inverse {E} (self : U3072) : outcome E U3072 :=
  let a := if is_overflow self then full_reduce self else self in
  if bool_decide (a = zero) then Ok a else
  inv ← unwrap (mod_inverse (val a) UINT_PRIME);
  Ok (to_limbs LIMBS inv).

Definition div {E} (self other : U3072) : outcome E U3072 :=
  inv ← inverse (if is_overflow other then full_reduce other else other);
  let self := if is_overflow self then full_reduce self else self in
  r ← mul self inv;
  Ok (if is_overflow r then full_reduce r else r).
End division.

(** ** Numbers *)
Definition u3072_ok (l : U3072) : Prop := length l = LIMBS ∧ Forall limb_ok l.
#[global] Instance u3072_ok_dec l : Decision (u3072_ok l).
Proof. unfold u3072_ok, limb_ok. apply _. Defined.

(** *** The limb operations, as arithmetic on numbers *)
Definition val3 (c : limbs3) : Z := c.1.1 + LIMB_BASE * c.1.2 + LIMB_BASE ^ 2 * c.2.
Definition ok3 (c : limbs3) : Prop := limb_ok c.1.1 ∧ limb_ok c.1.2 ∧ limb_ok c.2.

Lemma muladd3_spec {E} a b c :
  limb_ok a → limb_ok b → ok3 c → val3 c + a * b < LIMB_BASE ^ 3 →
  ∃ c', muladd3 (E := E) a b c = Ok c' ∧ ok3 c' ∧ val3 c' = val3 c + a * b.
Proof.
  destruct c as [[low high] carry]. intros Ha Hb (H0 & H1 & H2) Hlt.
  pose proof (prod_bound a b Ha Hb). unfold muladd3, mul_wide, overflowing_add, val3, ok3, limb_ok in *.
  cbn [fst snd] in *. set (p := a * b) in *.
  destruct (split_limb p) as [Hp ?]. destruct (split_limb (low + p mod LIMB_BASE)) as [Hq ?].
  set (p0 := p mod LIMB_BASE) in *. set (p1 := p / LIMB_BASE) in *.
  set (q0 := (low + p0) mod LIMB_BASE) in *. set (q1 := (low + p0) / LIMB_BASE) in *.
  unfold LIMB_BASE in *. rewrite u64_add_total by (unfold u64_max; lia). cbn [mbind outcome_bind].
  destruct (split_limb (high + (p1 + q1))) as [Hr ?]. unfold LIMB_BASE in *.
  set (r0 := (high + (p1 + q1)) mod 2 ^ 64) in *. set (r1 := (high + (p1 + q1)) / 2 ^ 64) in *.
  rewrite u64_add_total by (unfold u64_max; lia). cbn [mbind outcome_bind].
  eexists. split; [done|]. cbn [fst snd]. lia.
Qed.

Definition dot (l : list (Z * Z)) : Z := Zsum ((λ xy, xy.1 * xy.2) <$> l).
Definition pairs_ok (l : list (Z * Z)) : Prop := Forall (λ xy, limb_ok xy.1 ∧ limb_ok xy.2) l.

Lemma dot_bound l :
  pairs_ok l → 0 ≤ dot l ≤ Z.of_nat (length l) * ((LIMB_BASE - 1) * (LIMB_BASE - 1)).
Proof.
  intros Hl. unfold dot. rewrite <- (length_fmap (λ xy : Z * Z, xy.1 * xy.2)). apply Zsum_bound.
  apply Forall_fmap. eapply Forall_impl; [done|]. intros [x y] [? ?]. by apply prod_bound.
Qed.

Lemma muladd_pairs_spec {E} c l :
  pairs_ok l → ok3 c → val3 c + dot l < LIMB_BASE ^ 3 →
  ∃ c', muladd_pairs (E := E) c l = Ok c' ∧ ok3 c' ∧ val3 c' = val3 c + dot l.
Proof.
  unfold muladd_pairs. intros Hl. revert c. induction Hl as [|[x y] l [Hx Hy] Hl IH]; intros c Hc Hlt.
  { exists c. split; [done|]. split; [done|]. change (dot []) with 0. lia. }
  pose proof (dot_bound l Hl). pose proof (prod_bound x y Hx Hy).
  change (dot ((x, y) :: l)) with (x * y + dot l) in *. cbn [try_fold fst snd].
  destruct (muladd3_spec (E := E) x y c) as (c1 & -> & Hc1 & Hv1); [done..|lia|]. cbn [mbind outcome_bind].
  destruct (IH c1 Hc1) as (c2 & -> & Hc2 & Hv2); [lia|]. exists c2. split; [done|]. split; [done|]. lia.
Qed.

Lemma mulnadd3_spec {E} c0 c1 dd n :
  limb_ok c0 → limb_ok c1 → ok3 dd → limb_ok n → 2 * n < LIMB_BASE → dd.2 * n + 2 * n ≤ u64_max →
  ∃ c', mulnadd3 (E := E) c0 c1 dd n = Ok c' ∧ ok3 c' ∧ val3 c' = c0 + LIMB_BASE * c1 + n * val3 dd.
Proof.
  destruct dd as [[d0 d1] d2]. intros Hc0 Hc1 (H0 & H1 & H2) Hn Hn2 Hb.
  pose proof (prod_bound d0 n H0 Hn) as Hp0. pose proof (prod_bound d1 n H1 Hn) as Hp1.
  assert (d0 * n ≤ (LIMB_BASE - 1) * n ∧ d1 * n ≤ (LIMB_BASE - 1) * n ∧ 0 ≤ d2 * n)
    as (Hq0 & Hq1 & Hq2).
  { unfold limb_ok in *. cbn [fst snd] in *. split_and!; [apply Z.mul_le_mono_nonneg_r; lia..|nia]. }
  unfold mulnadd3, val3, ok3, limb_ok in *. cbn [fst snd] in *.
  replace (n * (d0 + LIMB_BASE * d1 + LIMB_BASE ^ 2 * d2))
    with (d0 * n + LIMB_BASE * (d1 * n) + LIMB_BASE ^ 2 * (d2 * n)) by ring.
  set (p0 := d0 * n) in *. set (p1 := d1 * n) in *. set (p2 := d2 * n) in *.
  destruct (split_limb (p0 + c0)) as [Ht ?]. set (t0 := (p0 + c0) mod LIMB_BASE) in *.
  set (t1 := (p0 + c0) / LIMB_BASE) in *. destruct (split_limb (t1 + (p1 + c1))) as [Hu ?].
  set (u0 := (t1 + (p1 + c1)) mod LIMB_BASE) in *. set (u1 := (t1 + (p1 + c1)) / LIMB_BASE) in *.
  unfold LIMB_BASE in *. assert (0 ≤ u1 ≤ 2 * n) by (unfold u64_max in *; lia).
  rewrite u64_mul_total by (fold p2; lia). fold p2. cbn [mbind outcome_bind].
  rewrite (Z.mod_small u1) by lia. rewrite u64_add_total by lia. cbn [mbind outcome_bind].
  eexists. split; [done|]. cbn [fst snd]. unfold u64_max in *. lia.
Qed.

Lemma muln2_spec low high n :
  limb_ok low → limb_ok high → 0 ≤ n → n * (low + LIMB_BASE * high) < LIMB_BASE ^ 2 →
  let '(r0, r1) := muln2 low high n in
  limb_ok r0 ∧ limb_ok r1 ∧ r0 + LIMB_BASE * r1 = n * (low + LIMB_BASE * high).
Proof.
  intros H0 H1 Hn Hlt. unfold muln2.
  assert (0 ≤ low * n ∧ 0 ≤ high * n) as [? ?] by (unfold limb_ok in *; nia).
  replace (n * (low + LIMB_BASE * high)) with (low * n + LIMB_BASE * (high * n)) in * by ring.
  set (p0 := low * n) in *. set (p1 := high * n) in *.
  destruct (split_limb p0) as [Hp ?]. set (q0 := p0 mod LIMB_BASE) in *. set (q1 := p0 / LIMB_BASE) in *.
  unfold limb_ok, LIMB_BASE in *. rewrite Z.mod_small by lia. lia.
Qed.

(** The carry chain adds a two-limb number to a sequence of limbs. *)
Lemma carry_chain l : Forall limb_ok l → ∀ out low high,
  limb_ok low → limb_ok high →
  ∃ out' low' high', fold_left carry_step l (out, low, high) = (out ++ out', low', high') ∧
    length out' = length l ∧ Forall limb_ok out' ∧ limb_ok low' ∧ limb_ok high' ∧
    val out' + LIMB_BASE ^ Z.of_nat (length l) * (low' + LIMB_BASE * high')
      = val l + (low + LIMB_BASE * high).
Proof.
  induction 1 as [|x l Hx Hl IH]; intros out low high Hlow Hhigh.
  { exists [], low, high. rewrite app_nil_r. cbn [val foldr length]. split_and!; try done. cbn. lia. }
  cbn [fold_left]. unfold carry_step at 2. unfold overflowing_add.
  destruct (split_limb (low + x)) as [Hs Hs0].
  set (s0 := (low + x) mod LIMB_BASE) in *. set (s1 := (low + x) / LIMB_BASE) in *.
  destruct (split_limb (high + s1)) as [Ht Ht0].
  set (t0 := (high + s1) mod LIMB_BASE) in *. set (t1 := (high + s1) / LIMB_BASE) in *.
  destruct (IH (out ++ [s0]) t0 t1) as (out' & low' & high' & -> & Hlen & Hok & Hl' & Hh' & Hv).
  { done. } { unfold limb_ok, LIMB_BASE in *. lia. }
  exists (s0 :: out'), low', high'. rewrite <- app_assoc. split; [done|]. split; [cbn; congruence|].
  split; [by constructor|]. split; [done|]. split; [done|].
  change (val (s0 :: out')) with (s0 + LIMB_BASE * val out').
  change (val (x :: l)) with (x + LIMB_BASE * val l). cbn [length].
  rewrite Nat2Z.inj_succ, Z.pow_succ_r by lia. nia.
Qed.

(** ** Reduction *)
Lemma Zmod_small_shift x m : m ≤ x < 2 * m → x mod m = x - m.
Proof. intros Hx. symmetry. apply (Z.mod_unique _ _ 1); lia. Qed.

Definition W : Z := LIMB_BASE ^ 48.

Lemma prime_W : UINT_PRIME = W - PRIME_DIFF.
Proof. reflexivity. Qed.

Lemma W_pos : LIMB_BASE ^ 3 < W.
Proof. reflexivity. Qed.

Lemma val_ok l : u3072_ok l → 0 ≤ val l < W.
Proof. intros [Hlen Hl]. pose proof (val_bound l Hl) as Hv. by rewrite Hlen in Hv. Qed.

Lemma all_max l :
  Forall limb_ok l →
  forallb (λ x, x =? u64_max) l = true ↔ val l = LIMB_BASE ^ Z.of_nat (length l) - 1.
Proof.
  induction 1 as [|x l Hx Hl IH]; [done|]. cbn [forallb length]. rewrite andb_true_iff, IH, Z.eqb_eq.
  change (val (x :: l)) with (x + LIMB_BASE * val l). rewrite Nat2Z.inj_succ, Z.pow_succ_r by lia.
  pose proof (val_bound l Hl). set (M := LIMB_BASE ^ Z.of_nat (length l)) in *.
  unfold limb_ok, u64_max, LIMB_BASE in *. lia.
Qed.

Lemma is_overflow_spec l : u3072_ok l → is_overflow l = true ↔ UINT_PRIME ≤ val l.
Proof.
  intros Hok. pose proof (val_ok l Hok) as Hv. destruct Hok as [Hlen Hl].
  destruct l as [|x l]; [done|]. apply Forall_cons in Hl as [Hx Hl]. injection Hlen as Hlen.
  rewrite prime_W. unfold is_overflow. cbn [limb nth tail].
  pose proof (all_max l Hl) as Hm. pose proof (val_bound l Hl) as Hvl. rewrite Hlen in *.
  change (val (x :: l)) with (x + LIMB_BASE * val l) in *.
  assert (HW : W = LIMB_BASE * LIMB_BASE ^ Z.of_nat 47) by reflexivity. rewrite HW in *. clear HW.
  set (M := LIMB_BASE ^ Z.of_nat 47) in *. unfold limb_ok, PRIME_DIFF, u64_max, LIMB_BASE in *.
  destruct (Z.leb_spec x (2 ^ 64 - 1 - 1103717)); [split; [done|lia]|]. rewrite Hm. lia.
Qed.

Lemma full_reduce_spec l :
  u3072_ok l → u3072_ok (full_reduce l) ∧ val (full_reduce l) = (val l + PRIME_DIFF) mod W.
Proof.
  intros Hok. pose proof (val_ok l Hok) as Hv. destruct Hok as [Hlen Hl]. unfold full_reduce.
  destruct (carry_chain l Hl [] PRIME_DIFF 0) as (out & low & high & -> & Hlo & Ho & Hlow & Hhigh & Hval);
    [unfold limb_ok, PRIME_DIFF, LIMB_BASE; lia..|]. cbn [fst app].
  assert (Hout : u3072_ok out) by (split; [congruence|done]). split; [done|].
  pose proof (val_ok out Hout) as Hvo. rewrite Hlen in Hval. fold LIMBS in Hval.
  change (LIMB_BASE ^ Z.of_nat LIMBS) with W in Hval.
  apply (Z.mod_unique _ _ (low + LIMB_BASE * high)); lia.
Qed.

(** The reduced form of a number, as the conditional reductions compute it. *)
Definition reduce (l : U3072) : U3072 := if is_overflow l then full_reduce l else l.

Lemma reduce_spec l :
  u3072_ok l → u3072_ok (reduce l) ∧ val (reduce l) = val l mod UINT_PRIME.
Proof.
  intros Hok. pose proof (val_ok l Hok) as Hv. unfold reduce.
  pose proof (is_overflow_spec l Hok) as Hov. rewrite prime_W in *. pose proof W_pos.
  assert (0 < PRIME_DIFF ∧ 2 * PRIME_DIFF < LIMB_BASE ^ 3) by done.
  destruct (is_overflow l).
  - destruct (full_reduce_spec l Hok) as [? ->]. split; [done|].
    assert (W - PRIME_DIFF ≤ val l) by (by apply Hov).
    rewrite (Zmod_small_shift (val l + PRIME_DIFF) W), (Zmod_small_shift (val l) (W - PRIME_DIFF)); lia.
  - assert (val l < W - PRIME_DIFF) by (destruct (Z.le_gt_cases (W - PRIME_DIFF) (val l)) as [Hc|];
      [by apply Hov in Hc|lia]).
    split; [done|]. symmetry. apply Z.mod_small. lia.
Qed.

(** ** The product *)

(** What lands on limb [j]: the products of weight [j], and those of weight [48 + j]. *)
Definition low_sum (a b : U3072) (j : nat) : Z := dot (low_pairs a b j).
Definition high_sum (a b : U3072) (j : nat) : Z :=
  limb a (j + 1) * limb b (LIMBS - 1) + dot (high_pairs a b j).
Definition weighted (f : nat → Z) (n : nat) : Z :=
  Zsum ((λ j, LIMB_BASE ^ Z.of_nat j * f j) <$> seq 0 n).

Lemma weighted_S f n : weighted f (S n) = weighted f n + LIMB_BASE ^ Z.of_nat n * f n.
Proof. unfold weighted. rewrite seq_S, fmap_app, Zsum_app. cbn. lia. Qed.

Lemma low_pairs_ok a b j : Forall limb_ok a → Forall limb_ok b → pairs_ok (low_pairs a b j).
Proof.
  intros Ha Hb. apply Forall_fmap, Forall_forall. intros i _. split; by apply limb_bound.
Qed.
Lemma high_pairs_ok a b j : Forall limb_ok a → Forall limb_ok b → pairs_ok (high_pairs a b j).
Proof.
  intros Ha Hb. apply Forall_fmap, Forall_forall. intros i _. split; by apply limb_bound.
Qed.

Lemma low_sum_bound a b j :
  Forall limb_ok a → Forall limb_ok b → (j < LIMBS)%nat →
  0 ≤ low_sum a b j ≤ 48 * ((LIMB_BASE - 1) * (LIMB_BASE - 1)).
Proof.
  intros Ha Hb Hj. pose proof (dot_bound _ (low_pairs_ok a b j Ha Hb)) as Hd. revert Hd.
  unfold low_sum, low_pairs. rewrite length_fmap, length_seq. unfold LIMBS, LIMB_BASE in *. nia.
Qed.
Lemma high_sum_bound a b j :
  Forall limb_ok a → Forall limb_ok b → (j < LIMBS - 1)%nat →
  0 ≤ high_sum a b j ≤ 47 * ((LIMB_BASE - 1) * (LIMB_BASE - 1)).
Proof.
  intros Ha Hb Hj. pose proof (dot_bound _ (high_pairs_ok a b j Ha Hb)) as Hd. revert Hd.
  pose proof (prod_bound (limb a (j + 1)) (limb b (LIMBS - 1)) (limb_bound _ _ Ha) (limb_bound _ _ Hb)).
  unfold high_sum, high_pairs. rewrite length_fmap, length_seq. unfold LIMBS, LIMB_BASE in *. nia.
Qed.

Lemma mul_step_spec {E} a b tmp cl ch j :
  Forall limb_ok a → Forall limb_ok b → (j < LIMBS - 1)%nat → limb_ok cl → limb_ok ch →
  ∃ t cl' ch', mul_step (E := E) a b (tmp, cl, ch) j = Ok (tmp ++ [t], cl', ch') ∧
    limb_ok t ∧ limb_ok cl' ∧ limb_ok ch' ∧
    t + LIMB_BASE * (cl' + LIMB_BASE * ch') =
      cl + LIMB_BASE * ch + PRIME_DIFF * high_sum a b j + low_sum a b j.
Proof.
  intros Ha Hb Hj Hcl Hch.
  pose proof (high_sum_bound a b j Ha Hb Hj) as Hhs.
  pose proof (low_sum_bound a b j Ha Hb ltac:(unfold LIMBS in *; lia)) as Hls.
  unfold mul_step, mul_wide. replace (LIMBS + j - (1 + j))%nat with (LIMBS - 1)%nat by lia.
  set (p := limb a (j + 1) * limb b (LIMBS - 1)).
  assert (Hp : 0 ≤ p ≤ (LIMB_BASE - 1) * (LIMB_BASE - 1)) by (apply prod_bound; by apply limb_bound).
  destruct (split_limb p) as [Hsp ?].
  destruct (muladd_pairs_spec (E := E) (p mod LIMB_BASE, p / LIMB_BASE, 0) (high_pairs a b j))
    as (acc & -> & Hacc & Hvacc).
  { by apply high_pairs_ok. }
  { unfold ok3, limb_ok. cbn [fst snd]. unfold LIMB_BASE in *. lia. }
  { unfold val3. cbn [fst snd]. unfold high_sum in Hhs. fold p in Hhs. unfold LIMB_BASE in *. lia. }
  assert (Hv : val3 acc = high_sum a b j).
  { rewrite Hvacc. unfold val3, high_sum. cbn [fst snd]. fold p. lia. }
  cbn [mbind outcome_bind].
  assert (acc.2 ≤ 47) by (destruct Hacc as (?&?&?); unfold val3, limb_ok, LIMB_BASE in *; lia).
  destruct (mulnadd3_spec (E := E) cl ch acc PRIME_DIFF) as (c & -> & Hc & Hvc);
    [done..|done|done|unfold PRIME_DIFF, u64_max; lia|]. cbn [mbind outcome_bind].
  destruct (muladd_pairs_spec (E := E) c (low_pairs a b j)) as ([[c0 c1] c2] & -> & (Hc0 & Hc1 & Hc2) & Hvc').
  { by apply low_pairs_ok. } { done. }
  { fold (low_sum a b j). rewrite Hvc, Hv. unfold limb_ok, PRIME_DIFF, LIMB_BASE in *. lia. }
  cbn [mbind outcome_bind]. exists c0, c1, c2. split; [done|]. split_and!; [done..|].
  fold (low_sum a b j) in Hvc'. rewrite Hvc, Hv in Hvc'. unfold val3 in Hvc'. cbn [fst snd] in *. lia.
Qed.

Lemma mul_loop {E} a b n :
  Forall limb_ok a → Forall limb_ok b → (n ≤ LIMBS - 1)%nat →
  ∃ tmp cl ch, try_fold (mul_step (E := E) a b) ([], 0, 0) (seq 0 n) = Ok (tmp, cl, ch) ∧
    length tmp = n ∧ Forall limb_ok tmp ∧ limb_ok cl ∧ limb_ok ch ∧
    val tmp + LIMB_BASE ^ Z.of_nat n * (cl + LIMB_BASE * ch) =
      weighted (λ j, PRIME_DIFF * high_sum a b j + low_sum a b j) n.
Proof.
  intros Ha Hb. induction n as [|n IH]; intros Hn.
  { exists [], 0, 0. split; [done|]. split_and!; try done. }
  destruct IH as (tmp & cl & ch & Hf & Hlen & Htmp & Hcl & Hch & Hv); [lia|].
  destruct (mul_step_spec (E := E) a b tmp cl ch n) as (t & cl' & ch' & Hst & Ht & Hcl' & Hch' & Hv');
    [done|done|lia|done|done|].
  exists (tmp ++ [t]), cl', ch'. rewrite seq_S, try_fold_app, Hf. cbn [mbind outcome_bind try_fold Nat.add].
  rewrite Hst. split; [done|]. split; [rewrite length_app; cbn; lia|]. split; [by apply Forall_app; auto|].
  split; [done|]. split; [done|]. rewrite weighted_S, <- Hv, val_app, Hlen.
  change (val [t]) with (t + LIMB_BASE * 0). rewrite Nat2Z.inj_succ, Z.pow_succ_r by lia. nia.
Qed.

(** The products regrouped by weight. *)
Lemma Zsum_seq_shift f s d n :
  Zsum (f <$> seq (s + d) n) = Zsum ((λ i, f (i + d)%nat) <$> seq s n).
Proof.
  revert s. induction n as [|n IH]; intros s; [done|]. cbn [seq]. rewrite !fmap_cons, !Zsum_cons.
  f_equal. apply (IH (S s)).
Qed.
Lemma Zsum_ext f g (l : list nat) : (∀ i, i ∈ l → f i = g i) → Zsum (f <$> l) = Zsum (g <$> l).
Proof. intros Hfg. f_equal. apply list_fmap_ext. intros ? ? ?%list_elem_of_lookup_2. auto. Qed.
Lemma Zsum_scale c f (l : list nat) : c * Zsum (f <$> l) = Zsum ((λ i, c * f i) <$> l).
Proof. induction l as [|i l IH]; [cbn; lia|]. rewrite !fmap_cons, !Zsum_cons. lia. Qed.
Lemma Zsum_plus f g (l : list nat) :
  Zsum ((λ i, f i + g i) <$> l) = Zsum (f <$> l) + Zsum (g <$> l).
Proof. induction l as [|i l IH]; [done|]. rewrite !fmap_cons, !Zsum_cons. lia. Qed.
Lemma Zsum_swap (f : nat → nat → Z) (l1 l2 : list nat) :
  Zsum ((λ i, Zsum ((λ j, f i j) <$> l2)) <$> l1) = Zsum ((λ j, Zsum ((λ i, f i j) <$> l1)) <$> l2).
Proof.
  induction l1 as [|i l1 IH].
  { induction l2 as [|j l2 IH]; [done|]. by rewrite fmap_cons, Zsum_cons, <- IH. }
  rewrite fmap_cons, Zsum_cons, IH, <- Zsum_plus. apply Zsum_ext. intros j _.
  by rewrite fmap_cons, Zsum_cons.
Qed.

Lemma Zsum_rotate g n i :
  (i ≤ n)%nat →
  Zsum (g <$> seq 0 n) =
  Zsum ((λ k, if (i <=? k)%nat then g (k - i)%nat else g (n + k - i)%nat) <$> seq 0 n).
Proof.
  intros Hi. assert (Hs : seq 0 n = seq 0 i ++ seq (0 + i) (n - i)) by (rewrite <- seq_app; f_equal; lia).
  assert (Hs' : seq 0 n = seq 0 (n - i) ++ seq (0 + (n - i)) i) by (rewrite <- seq_app; f_equal; lia).
  rewrite Hs' at 1. rewrite Hs, !fmap_app, !Zsum_app.
  rewrite (Zsum_ext _ (λ k, g (k + (n - i))%nat) (seq 0 i)).
  2: { intros k [? ?]%elem_of_seq. rewrite (proj2 (Nat.leb_gt i k)) by lia. f_equal. lia. }
  rewrite <- (Zsum_seq_shift g 0 (n - i) i).
  rewrite (Zsum_ext _ (λ k, g (k - i)%nat) (seq (0 + i) (n - i))).
  2: { intros k [? ?]%elem_of_seq. by rewrite (proj2 (Nat.leb_le i k)) by lia. }
  rewrite (Zsum_seq_shift (λ k, g (k - i)%nat)).
  rewrite (Zsum_ext (λ k, g (k + i - i)%nat) g) by (intros k _; f_equal; lia).
  apply Z.add_comm.
Qed.

Lemma val_weighted l n : length l = n → val l = weighted (limb l) n.
Proof.
  intros <-. induction l as [|x l IH] using rev_ind; [done|]. rewrite val_app, length_app, Nat.add_1_r, weighted_S.
  change (val [x]) with (x + LIMB_BASE * 0). rewrite IH. unfold limb.
  rewrite app_nth2, Nat.sub_diag by lia. cbn [nth]. f_equal; [|lia].
  apply Zsum_ext. intros i [_ ?]%elem_of_seq. by rewrite app_nth1 by lia.
Qed.

Lemma low_sum_eq a b k : low_sum a b k = Zsum ((λ i, limb a i * limb b (k - i)) <$> seq 0 (k + 1)).
Proof. unfold low_sum, dot, low_pairs. by rewrite <- list_fmap_compose. Qed.
Lemma high_sum_eq a b k :
  (k < LIMBS - 1)%nat →
  high_sum a b k = Zsum ((λ i, limb a i * limb b (LIMBS + k - i)) <$> seq (k + 1) (LIMBS - (k + 1))).
Proof.
  intros Hk. unfold high_sum, dot, high_pairs. rewrite <- list_fmap_compose.
  replace (LIMBS - (k + 1))%nat with (S (LIMBS - (2 + k))) by (unfold LIMBS in *; lia).
  cbn [seq]. rewrite fmap_cons, Zsum_cons. replace (LIMBS + k - (k + 1))%nat with (LIMBS - 1)%nat by lia.
  by replace (2 + k)%nat with (S (k + 1)) by lia.
Qed.

(** The column of limb [k]: the low products, and the high ones times the modulus weight. *)
Lemma column a b k :
  (k < LIMBS)%nat →
  Zsum ((λ i, if (i <=? k)%nat then limb a i * limb b (k - i)
              else W * (limb a i * limb b (LIMBS + k - i))) <$> seq 0 LIMBS) =
  low_sum a b k + (if (k <? LIMBS - 1)%nat then W * high_sum a b k else 0).
Proof.
  intros Hk. rewrite low_sum_eq.
  replace (seq 0 LIMBS) with (seq 0 (k + 1) ++ seq (k + 1) (LIMBS - (k + 1)))
    by (rewrite <- (seq_app (k + 1) _ 0); f_equal; lia).
  rewrite fmap_app, Zsum_app. f_equal.
  - apply Zsum_ext. intros i [_ ?]%elem_of_seq. by rewrite (proj2 (Nat.leb_le i k)) by lia.
  - rewrite (Zsum_ext _ (λ i, W * (limb a i * limb b (LIMBS + k - i)%nat))), <- Zsum_scale.
    2: { intros i [? ?]%elem_of_seq. by rewrite (proj2 (Nat.leb_gt i k)) by lia. }
    destruct (Nat.ltb_spec k (LIMBS - 1)) as [Hlt|Hge]; [by rewrite high_sum_eq|].
    replace (LIMBS - (k + 1))%nat with 0%nat by lia. cbn [seq]. change (Zsum (_ <$> [])) with 0. lia.
Qed.

Lemma product_split a b :
  length a = LIMBS → length b = LIMBS →
  val a * val b = weighted (low_sum a b) LIMBS + W * weighted (high_sum a b) (LIMBS - 1).
Proof.
  intros Ha Hb. rewrite (val_weighted a _ Ha), (val_weighted b _ Hb).
  unfold weighted at 1. rewrite Z.mul_comm, Zsum_scale.
  rewrite (Zsum_ext _ (λ i, Zsum ((λ k, LIMB_BASE ^ Z.of_nat k *
    (if (i <=? k)%nat then limb a i * limb b (k - i)%nat
     else W * (limb a i * limb b (LIMBS + k - i)%nat))) <$> seq 0 LIMBS))).
  2: { intros i [_ Hi]%elem_of_seq. unfold weighted.
       rewrite (Zsum_rotate _ LIMBS i) by lia. rewrite Z.mul_comm, Zsum_scale.
       apply Zsum_ext. intros k [_ Hk]%elem_of_seq. destruct (Nat.leb_spec i k).
       - replace (Z.of_nat k) with (Z.of_nat i + Z.of_nat (k - i)) by lia.
         rewrite Z.pow_add_r by lia. ring.
       - replace W with (LIMB_BASE ^ Z.of_nat LIMBS) by reflexivity.
         transitivity (LIMB_BASE ^ (Z.of_nat i + Z.of_nat (LIMBS + k - i)) *
           (limb a i * limb b (LIMBS + k - i)%nat)); [rewrite Z.pow_add_r by lia; ring|].
         replace (Z.of_nat i + Z.of_nat (LIMBS + k - i)) with (Z.of_nat k + Z.of_nat LIMBS)
           by (unfold LIMBS in *; lia).
         rewrite Z.pow_add_r by lia. ring. }
  rewrite Zsum_swap. rewrite (Zsum_ext _ (λ k, LIMB_BASE ^ Z.of_nat k * low_sum a b k +
    W * (LIMB_BASE ^ Z.of_nat k * (if (k <? LIMBS - 1)%nat then high_sum a b k else 0)))).
  2: { intros k [_ Hk]%elem_of_seq. rewrite <- Zsum_scale, column by lia.
       destruct (k <? LIMBS - 1)%nat; ring. }
  by rewrite Zsum_plus, <- Zsum_scale.
Qed.

(** The second reduction: adding [c * PRIME_DIFF] for a small carry [c] and folding the
    at most one carry that leaves. *)
Lemma second_reduction {E} tmp x y :
  u3072_ok tmp → limb_ok x → limb_ok y →
  let '(out, low, high) := fold_left carry_step tmp ([], x, y) in
  ∃ r, (if negb (high =? 0) then Panic else
        if negb ((low =? 0) || (low =? 1)) then Panic else
        let out := if is_overflow out then full_reduce out else out in
        Ok (E := E) (if negb (low =? 0) then full_reduce out else out)) = Ok r ∧
    u3072_ok r ∧ val r < UINT_PRIME ∧
    ∃ k, val r = val tmp + (x + LIMB_BASE * y) - k * UINT_PRIME.
Proof.
  intros Hok Hx Hy. pose proof (val_ok tmp Hok) as Hvt. destruct Hok as [Hlen Ht].
  destruct (carry_chain tmp Ht [] x y Hx Hy) as (out & low & high & -> & Hlo & Ho & Hl & Hh & Hval).
  rewrite Hlen in *. change (LIMB_BASE ^ Z.of_nat LIMBS) with W in Hval. cbn [app].
  assert (Hout : u3072_ok out) by (by split). pose proof (val_ok out Hout) as Hvo.
  destruct (reduce_spec out Hout) as [Hrok Hrv]. fold (reduce out).
  pose proof W_pos as HW. assert (HD : 0 < PRIME_DIFF ∧ 2 * PRIME_DIFF < LIMB_BASE ^ 2) by done.
  assert (Hsq : 2 * LIMB_BASE ^ 2 < LIMB_BASE ^ 3) by done. rewrite prime_W in *.
  assert (x + LIMB_BASE * y < LIMB_BASE ^ 2) by (unfold limb_ok, LIMB_BASE in *; lia).
  assert (Hc : low + LIMB_BASE * high = 0 ∨ low + LIMB_BASE * high = 1) by (unfold limb_ok in *; nia).
  assert (high = 0 ∧ (low = 0 ∨ low = 1)) as [-> [-> | ->]] by (unfold limb_ok, LIMB_BASE in *; lia).
  - exists (reduce out). split; [done|]. split; [done|]. rewrite Hrv.
    split; [apply Z.mod_pos_bound; lia|]. exists (val out / (W - PRIME_DIFF)).
    pose proof (Z.div_mod (val out) (W - PRIME_DIFF) ltac:(lia)). lia.
  - rewrite Z.mod_small in Hrv by lia. destruct (full_reduce_spec _ Hrok) as [Hfok Hfv].
    rewrite Hrv, Z.mod_small in Hfv by lia. exists (full_reduce (reduce out)).
    split; [done|]. split; [done|]. rewrite Hfv. split; [lia|]. exists 1. lia.
Qed.

Lemma mul_spec {E} a b :
  u3072_ok a → u3072_ok b →
  ∃ r, mul (E := E) a b = Ok r ∧ u3072_ok r ∧ (∃ k, val r = val a * val b - k * UINT_PRIME) ∧
    (a = one ∨ val r < UINT_PRIME).
Proof.
  intros Hoa Hob. unfold mul. case_bool_decide as Hone.
  { subst a. exists b. split; [done|]. split; [done|]. split; [|by left]. exists 0.
    change (val one) with 1. lia. }
  pose proof Hoa as [Hla Ha]. pose proof Hob as [Hlb Hb].
  destruct (mul_loop (E := E) a b (LIMBS - 1) Ha Hb) as (tmp & cl & ch & -> & Hlen & Htmp & Hcl & Hch & Hv);
    [lia|]. cbn [mbind outcome_bind].
  pose proof (low_sum_bound a b (LIMBS - 1) Ha Hb ltac:(unfold LIMBS; lia)) as Hls.
  destruct (muladd_pairs_spec (E := E) (cl, ch, 0) (low_pairs a b (LIMBS - 1)))
    as ([[c0 c1] c2] & -> & (Hc0 & Hc1 & Hc2) & Hvc).
  { by apply low_pairs_ok. } { split_and!; try done. }
  { unfold val3. cbn [fst snd]. fold (low_sum a b (LIMBS - 1)). unfold limb_ok, LIMB_BASE in *. lia. }
  cbn [mbind outcome_bind]. fold (low_sum a b (LIMBS - 1)) in Hvc. unfold val3 in Hvc. cbn [fst snd] in *.
  pose proof (muln2_spec c1 c2 PRIME_DIFF Hc1 Hc2 ltac:(done)) as Hm.
  destruct (muln2 c1 c2 PRIME_DIFF) as [x y]. destruct Hm as (Hx & Hy & Hxy).
  { unfold limb_ok, PRIME_DIFF, LIMB_BASE in *. lia. }
  assert (Htok : u3072_ok (tmp ++ [c0])).
  { split; [rewrite length_app, Hlen; reflexivity|]. apply Forall_app; auto. }
  pose proof (second_reduction (E := E) (tmp ++ [c0]) x y Htok Hx Hy) as Hs.
  destruct (fold_left carry_step (tmp ++ [c0]) ([], x, y)) as [[out low] high].
  destruct Hs as (r & Heq & Hr & Hlt & k & Hk). exists r. split; [exact Heq|]. split; [done|]. split; [|by right].
  exists (k + weighted (high_sum a b) (LIMBS - 1) + (c1 + LIMB_BASE * c2)).
  rewrite product_split, Hk, Hxy, val_app, Hlen by done. change (val [c0]) with (c0 + LIMB_BASE * 0).
  change LIMBS with (S (LIMBS - 1)) at 2. rewrite weighted_S.
  assert (Hw : weighted (λ j, PRIME_DIFF * high_sum a b j + low_sum a b j) (LIMBS - 1)
    = PRIME_DIFF * weighted (high_sum a b) (LIMBS - 1) + weighted (low_sum a b) (LIMBS - 1)).
  { unfold weighted. rewrite Zsum_scale, <- Zsum_plus. apply Zsum_ext. intros; lia. }
  rewrite Hw in Hv. rewrite prime_W. assert (HW : W = LIMB_BASE ^ Z.of_nat (LIMBS - 1) * LIMB_BASE) by reflexivity.
  set (M := LIMB_BASE ^ Z.of_nat (LIMBS - 1)) in *. nia.
Qed.

(** (C17) Limb multiplication is multiplication modulo the prime: for any two 48-limb
    numbers the code neither trips an assertion nor overflows a limb, and returns a
    48-limb number congruent to the product, in reduced form except on the short cut for
    a left factor of one. *)
Theorem mul_is_modular {E} a b :
  u3072_ok a → u3072_ok b →
  ∃ r, mul (E := E) a b = Ok r ∧ u3072_ok r ∧
    val r mod UINT_PRIME = (val a * val b) mod UINT_PRIME ∧ (a = one ∨ val r < UINT_PRIME).
Proof.
  intros Ha Hb. destruct (mul_spec (E := E) a b Ha Hb) as (r & Hm & Hr & [k Hk] & Hlt).
  exists r. split; [done|]. split; [done|]. split; [|done].
  rewrite Hk, <- Z.add_opp_r, <- Z.mul_opp_l. apply Z_mod_plus_full.
Qed.

Lemma reduce_idem l : u3072_ok l → reduce (reduce l) = reduce l.
Proof.
  intros Hl. destruct (reduce_spec l Hl) as [Hok Hv]. unfold reduce at 1.
  destruct (is_overflow (reduce l)) eqn:Ho; [|done]. exfalso. apply is_overflow_spec in Ho; [|done].
  rewrite Hv in Ho. assert (0 < UINT_PRIME) by done.
  pose proof (Z.mod_pos_bound (val l) UINT_PRIME ltac:(done)). lia.
Qed.

Lemma mul_reduced {E} a b :
  u3072_ok a → u3072_ok b →
  ∃ r, (r ← mul (E := E) a b; Ok (reduce r)) = Ok r ∧ u3072_ok r ∧
    val r = (val a * val b) mod UINT_PRIME.
Proof.
  intros Ha Hb. destruct (mul_spec (E := E) a b Ha Hb) as (r & -> & Hr & [k Hk] & _).
  destruct (reduce_spec r Hr) as [Hrr Hrv]. exists (reduce r). split; [done|]. split; [done|].
  rewrite Hrv, Hk, <- Z.add_opp_r, <- Z.mul_opp_l. apply Z_mod_plus_full.
Qed.

Section division_spec.
Context `{ModInverse}.

(** What [mod_inverse] promises: the inverse, reduced, of a number that has one. *)
Definition inverse_of (x i : Z) : Prop :=
  mod_inverse x UINT_PRIME = Some i ∧ 0 ≤ i < UINT_PRIME ∧ (x * i) mod UINT_PRIME = 1.

Lemma div_spec {E} a b i :
  u3072_ok a → u3072_ok b → inverse_of (val b mod UINT_PRIME) i →
  ∃ r, div (E := E) a b = Ok r ∧ u3072_ok r ∧ val r = (val a * i) mod UINT_PRIME.
Proof.
  intros Ha Hb (Hi & Hir & Hinv). unfold div, inverse. fold (reduce b) (reduce a).
  fold (reduce (reduce b)). rewrite reduce_idem by done. destruct (reduce_spec b Hb) as [Hrb Hvb].
  rewrite bool_decide_eq_false_2.
  2: { intros Hz. rewrite <- Hvb, Hz in Hinv. change (val zero) with 0 in Hinv. rewrite Z.mul_0_l in Hinv.
       vm_compute in Hinv. discriminate. }
  rewrite Hvb, Hi. cbn [unwrap mbind outcome_bind]. destruct (reduce_spec a Ha) as [Hra Hva].
  assert (UINT_PRIME < W) by done.
  destruct (to_limbs_ok LIMBS i) as [Hl Hf].
  destruct (mul_reduced (E := E) (reduce a) (to_limbs LIMBS i) Hra (conj Hl Hf)) as (r & Hm & Hr & Hv).
  exists r. split; [exact Hm|]. split; [done|].
  rewrite Hv, Hva, val_to_limbs by (change (LIMB_BASE ^ Z.of_nat LIMBS) with W; lia).
  by rewrite Zmult_mod_idemp_l.
Qed.

(** Division inverts multiplication: when the inverse library delivers the inverse of
    the divisor, [div] returns, in reduced form, the one number whose product with the
    divisor is congruent to the dividend. *)
Theorem div_is_modular {E} a b i :
  u3072_ok a → u3072_ok b → inverse_of (val b mod UINT_PRIME) i →
  ∃ r, div (E := E) a b = Ok r ∧ u3072_ok r ∧ 0 ≤ val r < UINT_PRIME ∧
    (val r * val b) mod UINT_PRIME = val a mod UINT_PRIME ∧
    ∀ x, 0 ≤ x < UINT_PRIME → (x * val b) mod UINT_PRIME = val a mod UINT_PRIME → x = val r.
Proof.
  intros Ha Hb Hi. destruct (div_spec (E := E) a b i Ha Hb Hi) as (r & Hd & Hr & Hv).
  destruct Hi as (_ & Hir & Hinv). exists r. split; [done|]. split; [done|].
  rewrite Zmult_mod_idemp_l in Hinv.
  assert (Hq : ∀ x, (x * val b * i) mod UINT_PRIME = x mod UINT_PRIME).
  { intros x. rewrite <- Z.mul_assoc, <- Zmult_mod_idemp_r, Hinv. f_equal. lia. }
  split; [rewrite Hv; by apply Z.mod_pos_bound|]. split.
  - rewrite Hv, Zmult_mod_idemp_l, <- (Hq (val a)). f_equal. ring.
  - intros x Hx Hxb. rewrite Hv, <- (Z.mod_small x UINT_PRIME Hx), <- (Hq x).
    by rewrite <- Zmult_mod_idemp_l, Hxb, Zmult_mod_idemp_l.
Qed.
End division_spec.

(** ** Concrete numbers *)
Definition max_u3072 : U3072 := replicate LIMBS u64_max.

Lemma mul_is_modular_witness :
  ∃ r, mul (E := unit) max_u3072 max_u3072 = Ok r ∧ val r = (PRIME_DIFF - 1) * (PRIME_DIFF - 1).
Proof.
  destruct (mul_is_modular (E := unit) max_u3072 max_u3072) as (r & Hm & Hr & Hv & Hlt);
    [by_decide..|]. exists r. split; [exact Hm|]. destruct Hlt as [Hlt|Hlt]; [discriminate Hlt|].
  rewrite Z.mod_small in Hv by (split; [by apply val_ok|done]). rewrite Hv. vm_compute. reflexivity.
Defined.

#[local] Instance halving : ModInverse :=
  {| mod_inverse := λ x p, if x =? 2 then Some ((p + 1) / 2) else None |}.
Lemma div_is_modular_witness :
  ∃ r, div (E := unit) (to_limbs LIMBS 10) (to_limbs LIMBS 2) = Ok r ∧ 5 = val r.
Proof.
  destruct (div_is_modular (E := unit) (to_limbs LIMBS 10) (to_limbs LIMBS 2) ((UINT_PRIME + 1) / 2))
    as (r & Hd & _ & _ & _ & Hu); [by_decide..| |].
  - split; [vm_compute; reflexivity|]. split; [|vm_compute; reflexivity].
    split; [vm_compute; discriminate|vm_compute; reflexivity].
  - exists r. split; [exact Hd|]. apply Hu; [|vm_compute; reflexivity]. split; vm_compute; done.
Defined.
