(* ===== verification/Transaction.v ===== *)
(** * Transactions

    The data model of [consensus/core/src/tx.rs], [subnets.rs] and
    [utxo/utxo_entry.rs]: outpoints, inputs, outputs, UTXO entries and the
    transaction itself, together with the populated and validated wrappers the
    virtual processor passes around. *)

From S2P Require Import Prelude.

(** A 32-byte hash, as its bytes. *)
Abbreviation Hash := (list Z) (only parsing).
Abbreviation TransactionId := (list Z) (only parsing).
(** A 20-byte subnetwork id, as its bytes. *)
Abbreviation SubnetworkId := (list Z) (only parsing).

Definition SUBNETWORK_ID_SIZE : nat := 20.
Definition SUBNETWORK_NAMESPACE_LEN : nat := 4.
Definition SUBNETWORK_TAG_LEN : nat := 5.

(** [SubnetworkId::from_byte]. *)
Definition from_byte (b : Z) : SubnetworkId := b :: replicate 19 0.
(** [SubnetworkId::from_namespace]: the four bytes, then sixteen zeroes. *)
Definition from_namespace (namespace : list Z) : SubnetworkId :=
  namespace ++ replicate (SUBNETWORK_ID_SIZE - SUBNETWORK_NAMESPACE_LEN) 0.

Definition SUBNETWORK_ID_NATIVE : SubnetworkId := from_byte 0.
Definition SUBNETWORK_ID_COINBASE : SubnetworkId := from_byte 1.
Definition SUBNETWORK_ID_REGISTRY : SubnetworkId := from_byte 2.
Definition SUBNETWORK_ID_NOTE_POOL : SubnetworkId := from_namespace [0x50; 0x4f; 0x4f; 0x4c].
Definition SUBNETWORK_ID_FINALITY_ANCHOR : SubnetworkId :=
  from_namespace [0x41; 0x4e; 0x43; 0x52].

Record TransactionOutpoint := mk_outpoint { transaction_id : TransactionId; index : Z }.

#[global] Instance TransactionOutpoint_eq_dec : EqDecision TransactionOutpoint.
Proof. solve_decision. Defined.
#[global] Instance TransactionOutpoint_countable : Countable TransactionOutpoint.
Proof.
  refine (inj_countable' (λ o, (transaction_id o, index o)) (λ p, mk_outpoint p.1 p.2) _).
  by intros [].
Defined.

Record ScriptPublicKey := mk_spk { version : Z; script : list Z }.
#[global] Instance ScriptPublicKey_eq_dec : EqDecision ScriptPublicKey.
Proof. solve_decision. Defined.

Record CovenantBinding := { authorizing_input : Z; covenant_id : Hash }.
#[global] Instance CovenantBinding_eq_dec : EqDecision CovenantBinding.
Proof. solve_decision. Defined.

Record TransactionOutput := mk_output {
  value : Z;
  script_public_key : ScriptPublicKey;
  covenant : option CovenantBinding }.
#[global] Instance TransactionOutput_eq_dec : EqDecision TransactionOutput.
Proof. solve_decision. Defined.

(** [TransactionOutput::new]. *)
Definition new_output (v : Z) (spk : ScriptPublicKey) : TransactionOutput := mk_output v spk None.

Inductive ComputeCommit :=
  | SigopCount (n : Z)
  | ComputeBudget (n : Z).
#[global] Instance ComputeCommit_eq_dec : EqDecision ComputeCommit.
Proof. solve_decision. Defined.

Definition sig_op_count (c : ComputeCommit) : option Z :=
  match c with SigopCount n => Some n | _ => None end.
Definition compute_budget (c : ComputeCommit) : option Z :=
  match c with ComputeBudget n => Some n | _ => None end.

Record TransactionInput := mk_input {
  previous_outpoint : TransactionOutpoint;
  signature_script : list Z;
  sequence : Z;
  compute_commit : ComputeCommit }.
#[global] Instance TransactionInput_eq_dec : EqDecision TransactionInput.
Proof. solve_decision. Defined.

Record UtxoEntry := mk_utxo {
  amount : Z;
  entry_script_public_key : ScriptPublicKey;
  block_daa_score : Z;
  entry_is_coinbase : bool;
  entry_covenant_id : option Hash }.
#[global] Instance UtxoEntry_eq_dec : EqDecision UtxoEntry.
Proof. solve_decision. Defined.

(** The cached [id] field is part of the record, as in the source. *)
Record Transaction := mk_tx {
  tx_version : Z;
  inputs : list TransactionInput;
  outputs : list TransactionOutput;
  lock_time : Z;
  subnetwork_id : SubnetworkId;
  gas : Z;
  payload : list Z;
  storage_mass : Z;
  id : TransactionId }.
#[global] Instance Transaction_eq_dec : EqDecision Transaction.
Proof. solve_decision. Defined.

Definition is_coinbase (tx : Transaction) : bool :=
  bool_decide (subnetwork_id tx = SUBNETWORK_ID_COINBASE).

(** A transaction with its UTXO entries, one per input
    ([PopulatedTransaction::new] asserts the lengths equal). *)
Record PopulatedTransaction := mk_populated {
  pop_tx : Transaction;
  entries : list UtxoEntry }.

Definition new_populated {E} (tx : Transaction) (es : list UtxoEntry) : outcome E PopulatedTransaction :=
  if decide (length (inputs tx) = length es) then Ok (mk_populated tx es) else Panic.

(** [populated_inputs]: the [(input, entry)] pairs in order. *)
Definition populated_inputs (p : PopulatedTransaction) : list (TransactionInput * UtxoEntry) :=
  zip (inputs (pop_tx p)) (entries p).

(** Value of a list of outputs and of a list of entries. *)
Definition outputs_total (outs : list TransactionOutput) : Z := Zsum (value <$> outs).
Definition entries_total (es : list UtxoEntry) : Z := Zsum (amount <$> es).
