(* ===== verification/Smt.v ===== *)
(** * The sparse Merkle tree

    [crypto/smt]: a tree of depth 256 over 32-byte keys in which a subtree with a single
    leaf is one collapsed node.  [compute_root_update] walks down from the root with a
    sorted batch of leaf updates, reads the nodes it needs from a store (its own changes
    first), and returns the new root with the nodes that changed.

    The reference is [subtree]: the node of a set of leaves at a depth, by splitting the
    set on the next bit.  A store represents a set of leaves when it holds the node of
    every subtree that no collapsed node stands for. *)

From S2P Require Import Prelude Transaction.

(** The node hasher, and the hasher of collapsed nodes. *)
Class SmtHasher := { SmtNodeHash : list Z → Hash; SmtCollapsedHash : list Z → Hash }.

Definition DEPTH : nat := 256.

(** ** Keys *)

(** Bit [d] of a key, the most significant bit of byte 0 first. *)
Definition bit_at (key : Hash) (d : nat) : bool :=
  negb (Z.land (default 0 (key !! (d / 8)%nat)) (Z.shiftr 128 (Z.of_nat (d mod 8))) =? 0).

Record BranchKey := mk_branch_key { bk_depth : nat; node_key : Hash }.
#[global] Instance BranchKey_eq_dec : EqDecision BranchKey.
Proof. solve_decision. Defined.
#[global] Program Instance BranchKey_countable : Countable BranchKey :=
  inj_countable' (λ k, (bk_depth k, node_key k)) (λ p, mk_branch_key p.1 p.2) _.
Next Obligation. by intros []. Qed.

(** [BranchKey::new]. *)
Definition branch_key (depth : nat) (key : Hash) : BranchKey :=
  let bits_to_zero := (256 - depth)%nat in
  let full_bytes := (bits_to_zero / 8)%nat in
  let remaining_bits := (bits_to_zero mod 8)%nat in
  let bytes := take (32 - full_bytes) key ++ replicate full_bytes 0 in
  mk_branch_key depth
    (if (remaining_bits =? 0)%nat then bytes
     else alter (λ b, Z.land b (Z.shiftl 255 (Z.of_nat remaining_bits) mod 256)) (32 - full_bytes - 1)%nat bytes).

Definition child_branch_key (parent : BranchKey) (right : bool) (depth : nat) : BranchKey :=
  mk_branch_key (bk_depth parent + 1)
    (if right then alter (λ b, Z.lor b (Z.shiftr 128 (Z.of_nat (depth mod 8)))) (depth / 8)%nat (node_key parent)
     else node_key parent).

(** ** Nodes and updates *)
Record CollapsedLeaf := mk_collapsed { lane_key : Hash; collapsed_leaf_hash : Hash }.
#[global] Instance CollapsedLeaf_eq_dec : EqDecision CollapsedLeaf.
Proof. solve_decision. Defined.
Inductive Node := Internal (h : Hash) | Collapsed (cl : CollapsedLeaf).
#[global] Instance Node_eq_dec : EqDecision Node.
Proof. solve_decision. Defined.
Record LeafUpdate := mk_update { update_key : Hash; update_leaf : Hash }.
Inductive NodeResult := REmpty | RCollapsed (cl : CollapsedLeaf) | RInternal (h : Hash).

(** The batches are sorted by key, without duplicates: the iteration order of a map
    ([from_sorted_map]), or sorted and deduplicated ([from_unsorted]). *)
Definition update_le (u v : LeafUpdate) : Prop := bytes_le (update_key u) (update_key v).
#[global] Instance update_le_dec : RelDecision update_le.
Proof. intros u v. unfold update_le. apply _. Defined.
#[global] Instance update_le_trans : Transitive update_le.
Proof. intros u v w. unfold update_le. apply transitivity. Qed.
#[global] Instance update_le_total : Total update_le.
Proof. intros u v. apply (total bytes_le). Qed.
Definition from_sorted_map (m : gmap Hash Hash) : list LeafUpdate :=
  merge_sort update_le ((λ kv, mk_update kv.1 kv.2) <$> map_to_list m).
Fixpoint dedup_updates (l : list LeafUpdate) : list LeafUpdate :=
  match l with
  | u :: ((v :: _) as l') => if bool_decide (update_key v = update_key u) then dedup_updates l' else u :: dedup_updates l'
  | _ => l
  end.
Definition from_unsorted (l : list LeafUpdate) : list LeafUpdate := dedup_updates (merge_sort update_le l).
(** [slice::partition_point]. *)
Fixpoint partition_point {A : Type} (p : A → bool) (l : list A) : nat :=
  match l with
  | [] => 0
  | x :: l => if p x then S (partition_point p l) else 0
  end.
Definition partition_by_bit (updates : list LeafUpdate) (depth : nat) : list LeafUpdate * list LeafUpdate :=
  let split_pos := partition_point (λ u, negb (bit_at (update_key u) depth)) updates in
  (take split_pos updates, drop split_pos updates).
Definition first_with_bit (updates : list LeafUpdate) (depth : nat) (right : bool) : option LeafUpdate :=
  let '(l, r) := partition_by_bit updates depth in if right then head r else head l.

Section tree.
Context `{SmtHasher}.

Definition hash_node (left right : Hash) : Hash := SmtNodeHash (left ++ right).
Definition hash_collapsed (cl : CollapsedLeaf) : Hash := SmtCollapsedHash (lane_key cl ++ collapsed_leaf_hash cl).
(** [EMPTY_HASHES]. *)
Fixpoint empty_hash (height : nat) : Hash :=
  match height with
  | O => ZERO_HASH
  | S i => let e := empty_hash i in hash_node e e
  end.

(** [NodeResult::hash]. *)
Definition result_hash (r : NodeResult) (parent_depth : nat) : Hash :=
  match r with
  | REmpty => empty_hash (DEPTH - 1 - parent_depth)
  | RCollapsed cl => hash_collapsed cl
  | RInternal h => h
  end.
Definition leaf_result (update : option LeafUpdate) : NodeResult :=
  match update with
  | Some u => if bool_decide (update_leaf u ≠ ZERO_HASH) then RCollapsed (mk_collapsed (update_key u) (update_leaf u)) else REmpty
  | None => REmpty
  end.
Definition result_node (r : NodeResult) : option Node :=
  match r with
  | REmpty => None
  | RCollapsed cl => Some (Collapsed cl)
  | RInternal h => Some (Internal h)
  end.
Definition merged_node (left right : NodeResult) (depth : nat) : NodeResult * option Node :=
  let result :=
    match left, right with
    | REmpty, REmpty => REmpty
    | RCollapsed cl, REmpty | REmpty, RCollapsed cl => RCollapsed cl
    | _, _ => RInternal (hash_node (result_hash left depth) (result_hash right depth))
    end in
  (result, result_node result).

(** ** The update *)
Section update.
Context {E : Type} (get_node : BranchKey → outcome E (option Node)).

(** [SmtNodeChanges]: [None] deletes the node. *)
Abbreviation SmtNodeChanges := (gmap BranchKey (option Node)) (only parsing).

Definition read_node (changes : SmtNodeChanges) (bk : BranchKey) : outcome E (option Node) :=
  match changes !! bk with
  | Some nk => Ok nk
  | None => get_node bk
  end.
Definition record_change (changes : SmtNodeChanges) (subtree_key : BranchKey) (existing new_node : option Node) : SmtNodeChanges :=
  if bool_decide (existing ≠ new_node) then <[subtree_key := new_node]> changes else changes.

(** [binary_search_by_key] on a sorted batch: the insertion point when the key is absent. *)
Definition expand_singleton (existing : option Node) (updates : list LeafUpdate) : option Node * list LeafUpdate :=
  match existing with
  | Some (Collapsed cl) =>
      if existsb (λ u, bool_decide (update_key u = lane_key cl)) updates then (None, updates)
      else
        let at_ := partition_point (λ u, bytes_leb (update_key u) (lane_key cl)) updates in
        (None, take at_ updates ++ mk_update (lane_key cl) (collapsed_leaf_hash cl) :: drop at_ updates)
  | other => (other, updates)
  end.

Definition read_sibling_result (changes : SmtNodeChanges) (parent_key : BranchKey) (sibling_is_right : bool)
    (depth : nat) : outcome E NodeResult :=
  n ← read_node changes (child_branch_key parent_key sibling_is_right depth);
  Ok match n with
     | None => REmpty
     | Some (Collapsed cl) => RCollapsed cl
     | Some (Internal h) => RInternal h
     end.

(** The second half of [compute_subtree]: the leaf parent, or the two children and their merge. *)
Definition merge_children (recurse : SmtNodeChanges → list LeafUpdate → outcome E (NodeResult * SmtNodeChanges))
    (changes : SmtNodeChanges) (subtree_key : BranchKey) (depth : nat) (existing_for_write : option Node)
    (updates : list LeafUpdate) : outcome E (NodeResult * SmtNodeChanges) :=
  if (depth =? DEPTH - 1)%nat then
    let left_result := leaf_result (first_with_bit updates depth false) in
    let right_result := leaf_result (first_with_bit updates depth true) in
    let '(result, new_node) := merged_node left_result right_result (DEPTH - 1) in
    Ok (result, record_change changes subtree_key existing_for_write new_node)
  else
    let '(left_updates, right_updates) := partition_by_bit updates depth in
    l ← match left_updates with
        | [] => r ← read_sibling_result changes subtree_key false depth; Ok (r, changes)
        | _ => recurse changes left_updates
        end;
    r ← match right_updates with
        | [] => r ← read_sibling_result l.2 subtree_key true depth; Ok (r, l.2)
        | _ => recurse l.2 right_updates
        end;
    let '(result, new_node) := merged_node l.1 r.1 depth in
    let changes :=
      match result with
      | RCollapsed cl => <[child_branch_key subtree_key (bit_at (lane_key cl) depth) depth := None]> r.2
      | _ => r.2
      end in
    Ok (result, record_change changes subtree_key existing_for_write new_node).

(** [levels] is [DEPTH - depth]: 256 at the root, 1 above the leaves. *)
Fixpoint compute_subtree (levels : nat) (changes : SmtNodeChanges) (updates : list LeafUpdate)
    : outcome E (NodeResult * SmtNodeChanges) :=
  match levels with
  | O => Panic
  | S below =>
      let depth := (DEPTH - levels)%nat in
      first ← unwrap (head updates);
      let subtree_key := branch_key depth (update_key first) in
      existing ← read_node changes subtree_key;
      let single := match updates with [u] => Some u | _ => None end in
      match single, existing with
      | Some u, None =>
          if bool_decide (update_leaf u = ZERO_HASH) then Ok (REmpty, changes)
          else
            let cl := mk_collapsed (update_key u) (update_leaf u) in
            Ok (RCollapsed cl, record_change changes subtree_key existing (Some (Collapsed cl)))
      | _, _ =>
          match (match single, existing with
                 | Some u, Some (Collapsed cl) => if bool_decide (update_key u = lane_key cl) then Some u else None
                 | _, _ => None
                 end) with
          | Some u =>
              let new_node := if bool_decide (update_leaf u = ZERO_HASH) then None
                              else Some (Collapsed (mk_collapsed (update_key u) (update_leaf u))) in
              Ok (leaf_result (Some u), record_change changes subtree_key existing new_node)
          | None =>
              let '(existing_for_write, updates) := expand_singleton existing updates in
              merge_children (compute_subtree below) changes subtree_key depth existing_for_write updates
          end
      end
  end.

Definition root_hash (r : NodeResult) : Hash :=
  match r with
  | REmpty => empty_hash DEPTH
  | RCollapsed cl => hash_collapsed cl
  | RInternal h => h
  end.
Definition compute_root_update (current_root : Hash) (leaf_updates : list LeafUpdate)
    : outcome E (Hash * SmtNodeChanges) :=
  match leaf_updates with
  | [] => Ok (current_root, ∅)
  | _ =>
      r ← compute_subtree DEPTH ∅ leaf_updates;
      Ok (root_hash r.1, r.2)
  end.
End update.

(** [insert_node] of the in-memory store, for every change. *)
Definition write_changes (nodes : gmap BranchKey Node) (changes : gmap BranchKey (option Node)) : gmap BranchKey Node :=
  merge (λ (c : option (option Node)) n, match c with Some c => c | None => n end) changes nodes.
End tree.

(** ** Keys as 256 bits *)
Definition key_ok (k : Hash) : Prop := byte_array 32 k.
Definition prefix (d : nat) (k : Hash) : list bool := bit_at k <$> seq 0 d.

Lemma land_testbit b m : 0 ≤ m → negb (Z.land b (2 ^ m) =? 0) = Z.testbit b m.
Proof.
  intros Hm. destruct (Z.testbit b m) eqn:Ht.
  - apply negb_true_iff, Z.eqb_neq. intros Hz. apply (f_equal (λ z, Z.testbit z m)) in Hz.
    rewrite Z.land_spec, Ht, Z.pow2_bits_true, Z.bits_0 in Hz by done. done.
  - apply negb_false_iff, Z.eqb_eq, Z.bits_inj'. intros n Hn. rewrite Z.land_spec, Z.bits_0.
    destruct (decide (n = m)) as [->|]; [by rewrite Ht|]. rewrite Z.pow2_bits_false by done. apply andb_false_r.
Qed.

Lemma shiftr_128 j : (j < 8)%nat → Z.shiftr 128 (Z.of_nat j) = 2 ^ (7 - Z.of_nat j).
Proof. intros Hj. do 8 (destruct j as [|j]; [done|]). lia. Qed.

Lemma bit_at_testbit k d :
  bit_at k d = Z.testbit (default 0 (k !! (d / 8)%nat)) (7 - Z.of_nat (d mod 8)).
Proof.
  pose proof (Nat.mod_upper_bound d 8 ltac:(lia)). unfold bit_at. rewrite shiftr_128 by lia. apply land_testbit. lia.
Qed.

Lemma byte_high b n : byte_ok b → 8 ≤ n → Z.testbit b n = false.
Proof.
  intros [Hb0 Hb] Hn. destruct (decide (b = 0)) as [->|]; [apply Z.bits_0|].
  apply Z.bits_above_log2; [lia|]. assert (Z.log2 b < 8); [|lia]. apply Z.log2_lt_pow2; lia.
Qed.

Lemma key_lookup k q : key_ok k → (q < 32)%nat → ∃ b, k !! q = Some b ∧ byte_ok b.
Proof.
  intros [Hl Hf] Hq. destruct (lookup_lt_is_Some_2 k q) as [b Hb]; [lia|]. exists b. split; [done|].
  by eapply Forall_lookup_1.
Qed.

Lemma byte_index q r : (r < 8)%nat → ((8 * q + r) / 8 = q ∧ (8 * q + r) mod 8 = r)%nat.
Proof. intros Hr. split; [symmetry; by apply (Nat.div_unique _ _ q r)|symmetry; by apply (Nat.mod_unique _ _ q r)]. Qed.

Lemma key_bit k q b n : k !! q = Some b → 0 ≤ n < 8 → bit_at k (8 * q + (7 - Z.to_nat n)) = Z.testbit b n.
Proof.
  intros Hb Hn. rewrite bit_at_testbit. destruct (byte_index q (7 - Z.to_nat n)) as [Hd Hm]; [lia|].
  rewrite Hd, Hm, Hb. cbn [default from_option Datatypes.id]. f_equal. lia.
Qed.

Lemma bits_ext k k' :
  key_ok k → key_ok k' → (∀ i, (i < 256)%nat → bit_at k i = bit_at k' i) → k = k'.
Proof.
  intros Hk Hk' Hb. apply list_eq_same_length with 32%nat; [apply Hk'|apply Hk|].
  intros q x y Hq Hx Hy. apply Z.bits_inj'. intros n Hn.
  assert (byte_ok x ∧ byte_ok y) as [Hxo Hyo].
  { split; eapply Forall_lookup_1; [apply Hk|done|apply Hk'|done]. }
  destruct (decide (8 ≤ n)); [by rewrite !byte_high|].
  rewrite <- (key_bit k q x), <- (key_bit k' q y) by (done || lia). apply Hb. lia.
Qed.

Lemma mask_bit m n : 0 ≤ m < 8 → 0 ≤ n < 8 → Z.testbit (Z.shiftl 255 m mod 256) n = bool_decide (m ≤ n).
Proof.
  intros Hm Hn. assert (Hall : Forall (λ m, Forall (λ n, Z.testbit (Z.shiftl 255 m mod 256) n = bool_decide (m ≤ n)) (seqZ 0 8)) (seqZ 0 8)).
  { by_decide. }
  rewrite Forall_forall in Hall. specialize (Hall m). rewrite Forall_forall in Hall.
  apply Hall; apply elem_of_seqZ; lia.
Qed.

Section branch.
Context (d : nat) (k : Hash) (Hd : (d ≤ 256)%nat) (Hk : key_ok k).

Lemma branch_key_lookup q : (q < 32)%nat →
  node_key (branch_key d k) !! q =
    (λ b, if decide ((q + 1) * 8 ≤ d)%nat then b
          else if decide (d ≤ q * 8)%nat then 0
          else Z.land b (Z.shiftl 255 (Z.of_nat ((256 - d) mod 8)) mod 256)) <$> k !! q.
Proof.
  intros Hq. destruct (key_lookup k q Hk Hq) as (b & Hb & Hbo). rewrite Hb. cbn [fmap option_fmap option_map].
  unfold branch_key. cbn [node_key]. set (full := ((256 - d) / 8)%nat). set (rem := ((256 - d) mod 8)%nat).
  assert (Hdm : (256 - d = 8 * full + rem)%nat) by apply Nat.div_mod_eq.
  assert (Hr : (rem < 8)%nat) by (apply Nat.mod_upper_bound; lia).
  assert (Hl : length (take (32 - full) k) = (32 - full)%nat) by (rewrite length_take; destruct Hk; lia).
  assert (Hbase : (take (32 - full) k ++ replicate full 0) !! q = Some (if decide (q < 32 - full)%nat then b else 0)).
  { destruct (decide (q < 32 - full)%nat).
    - by rewrite lookup_app_l, lookup_take_lt by lia.
    - rewrite lookup_app_r, Hl, lookup_replicate_2 by lia. done. }
  destruct (Nat.eqb_spec rem 0) as [Hz|Hnz].
  - rewrite Hbase. f_equal. repeat case_decide; done || lia.
  - destruct (decide (32 - full - 1 = q)%nat) as [Hq'|Hq'].
    + rewrite Hq', list_lookup_alter_eq, Hbase. cbn [fmap option_fmap option_map]. f_equal. repeat case_decide; done || lia.
    + rewrite list_lookup_alter_ne, Hbase by done. f_equal. repeat case_decide; done || lia.
Qed.

Lemma length_branch_key : length (node_key (branch_key d k)) = 32%nat.
Proof.
  unfold branch_key. cbn [node_key]. assert (Hl : length k = 32%nat) by apply Hk.
  pose proof (Nat.div_mod_eq (256 - d) 8).
  destruct (_ =? 0)%nat; rewrite ?length_alter, length_app, length_take, length_replicate; lia.
Qed.

Lemma branch_key_ok : key_ok (node_key (branch_key d k)).
Proof.
  split; [apply length_branch_key|].
  - apply Forall_lookup. intros q x Hx.
    assert (Hq : (q < 32)%nat) by (rewrite <- length_branch_key; by eapply lookup_lt_Some).
    rewrite branch_key_lookup in Hx by done. destruct (key_lookup k q Hk Hq) as (b & Hb & Hbo). rewrite Hb in Hx.
    injection Hx as <-. repeat case_decide; [done|unfold byte_ok; lia|]. unfold byte_ok in *.
    set (m := Z.shiftl _ _ mod _). split; [apply Z.land_nonneg; lia|].
    assert (0 ≤ Z.land b m) by (apply Z.land_nonneg; lia).
    destruct (decide (Z.land b m = 0)); [lia|]. apply (Z.log2_lt_cancel _ 256). change (Z.log2 256) with 8.
    pose proof (Z.log2_land b m ltac:(lia) ltac:(apply Z.mod_pos_bound; lia)). 
    assert (b ≠ 0) by (intros ->; rewrite Z.land_0_l in *; lia).
    assert (Z.log2 b < 8) by (apply Z.log2_lt_pow2; lia). lia.
Qed.

Lemma bit_branch_key i : (i < 256)%nat →
  bit_at (node_key (branch_key d k)) i = bool_decide (i < d)%nat && bit_at k i.
Proof.
  intros Hi. rewrite !bit_at_testbit. set (q := (i / 8)%nat). set (r := (i mod 8)%nat).
  assert (Hdm : (i = 8 * q + r)%nat) by apply Nat.div_mod_eq.
  assert (Hr : (r < 8)%nat) by (apply Nat.mod_upper_bound; lia).
  rewrite branch_key_lookup by lia. destruct (key_lookup k q Hk) as (b & -> & Hbo); [lia|].
  cbn [fmap option_fmap option_map default from_option Datatypes.id].
  destruct (decide ((q + 1) * 8 ≤ d)%nat); [by rewrite bool_decide_true by lia|].
  destruct (decide (d ≤ q * 8)%nat); [rewrite bool_decide_false by lia; apply Z.bits_0|].
  assert (Hdm' : (256 - d = 8 * ((256 - d) / 8) + (256 - d) mod 8)%nat) by apply Nat.div_mod_eq.
  pose proof (Nat.mod_upper_bound (256 - d) 8 ltac:(lia)). set (m := ((256 - d) mod 8)%nat) in *.
  rewrite Z.land_spec, mask_bit, andb_comm by lia. f_equal. apply bool_decide_ext. lia.
Qed.
End branch.

Lemma prefix_agree d k k' : prefix d k = prefix d k' ↔ ∀ i, (i < d)%nat → bit_at k i = bit_at k' i.
Proof.
  unfold prefix. split.
  - intros Heq i Hi. apply (f_equal (λ l, l !! i)) in Heq. rewrite !list_lookup_fmap, lookup_seq_lt in Heq by done.
    by injection Heq.
  - intros Hb. apply list_fmap_ext. intros i j Hj. apply lookup_seq in Hj as [-> Hj]. by apply Hb.
Qed.
Lemma prefix_S d k : prefix (S d) k = prefix d k ++ [bit_at k d].
Proof. unfold prefix. by rewrite seq_S, fmap_app. Qed.
Lemma prefix_le d e k k' : (e ≤ d)%nat → prefix d k = prefix d k' → prefix e k = prefix e k'.
Proof. rewrite !prefix_agree. intros Hle Hb i Hi. apply Hb. lia. Qed.
Lemma prefix_S_iff d k k' : prefix (S d) k = prefix (S d) k' ↔ prefix d k = prefix d k' ∧ bit_at k d = bit_at k' d.
Proof. rewrite !prefix_S. split; [intros [? [=]]%app_inj_2; done|by intros [-> ->]]. Qed.
Lemma prefix_inj k k' : key_ok k → key_ok k' → prefix 256 k = prefix 256 k' → k = k'.
Proof. intros Hk Hk' Hp. apply bits_ext; [done..|]. by apply prefix_agree. Qed.

Lemma branch_key_eq d k k' : (d ≤ 256)%nat → key_ok k → key_ok k' →
  branch_key d k = branch_key d k' ↔ prefix d k = prefix d k'.
Proof.
  intros Hd Hk Hk'. rewrite prefix_agree. split.
  - intros Heq i Hi. apply (f_equal (λ b, bit_at (node_key b) i)) in Heq.
    rewrite !bit_branch_key in Heq by (done || lia). by rewrite bool_decide_true in Heq.
  - intros Hb. assert (Hn : node_key (branch_key d k) = node_key (branch_key d k')).
    { apply bits_ext; [by apply branch_key_ok..|]. intros i Hi. rewrite !bit_branch_key by done.
      destruct (bool_decide_reflect (i < d)%nat); [cbn; by apply Hb|done]. }
    unfold branch_key in *. cbn [node_key] in Hn. by f_equal.
Qed.

Lemma bit_set k d i : key_ok k → (d < 256)%nat → (i < 256)%nat →
  bit_at (alter (λ b, Z.lor b (Z.shiftr 128 (Z.of_nat (d mod 8)))) (d / 8)%nat k) i = bool_decide (i = d) || bit_at k i.
Proof.
  intros Hk Hd Hi. rewrite !bit_at_testbit.
  pose proof (Nat.div_mod_eq i 8) as Hi'. pose proof (Nat.div_mod_eq d 8) as Hd'.
  pose proof (Nat.mod_upper_bound i 8 ltac:(lia)). pose proof (Nat.mod_upper_bound d 8 ltac:(lia)).
  destruct (decide (d / 8 = i / 8)%nat) as [Heq|Hne].
  - rewrite Heq, list_lookup_alter_eq. destruct (key_lookup k (i / 8) Hk) as (b & -> & _); [lia|].
    cbn [fmap option_fmap option_map default from_option Datatypes.id].
    rewrite Z.lor_spec, orb_comm, shiftr_128, Z.pow2_bits_eqb by lia. f_equal. apply eq_true_iff_eq.
    rewrite Z.eqb_eq, bool_decide_eq_true. lia.
  - rewrite list_lookup_alter_ne by done. rewrite bool_decide_false; [done|]. by intros ->.
Qed.

Lemma child_key_ok d k b : key_ok k → (d < 256)%nat → key_ok (node_key (child_branch_key (branch_key d k) b d)).
Proof.
  intros Hk Hd. destruct (branch_key_ok d k ltac:(lia) Hk) as [Hl Hf]. destruct b; [|done]. split; [cbn [child_branch_key node_key]; by rewrite length_alter|].
  cbn [child_branch_key node_key]. apply Forall_alter; [done|]. intros x Hx Hxo. revert Hx. intros _.
  unfold byte_ok in *. pose proof (Nat.mod_upper_bound d 8 ltac:(lia)). rewrite shiftr_128 by done.
  assert (Hp : 1 ≤ 2 ^ (7 - Z.of_nat (d mod 8)) < 256).
  { split; [apply (Z.pow_le_mono_r 2 0); lia|]. change 256 with (2 ^ 8). apply Z.pow_lt_mono_r; lia. }
  split; [apply Z.lor_nonneg; lia|]. apply (Z.log2_lt_cancel _ 256). rewrite Z.log2_lor by lia. change (Z.log2 256) with 8.
  apply Z.max_lub_lt; [|rewrite Z.log2_pow2; lia].
  destruct (decide (x = 0)) as [->|]; [done|]. apply Z.log2_lt_pow2; lia.
Qed.

Lemma child_key d k k' : (d < 256)%nat → key_ok k → key_ok k' → prefix d k = prefix d k' →
  child_branch_key (branch_key d k) (bit_at k' d) d = branch_key (S d) k'.
Proof.
  intros Hd Hk Hk' Hp.
  assert (Hn : node_key (child_branch_key (branch_key d k) (bit_at k' d) d) = node_key (branch_key (S d) k')).
  { apply bits_ext; [by apply child_key_ok|apply branch_key_ok; [lia|done]|]. intros i Hi. rewrite bit_branch_key by (done || lia).
    rewrite prefix_agree in Hp. unfold child_branch_key. destruct (bit_at k' d) eqn:Hb; cbn [node_key].
    - rewrite bit_set, bit_branch_key by (done || (apply branch_key_ok; [lia|done]) || lia).
      destruct (decide (i = d)) as [->|Hne].
      { by rewrite (bool_decide_true (d = d)), (bool_decide_true (d < S d)%nat), Hb by lia. }
      rewrite (bool_decide_false (i = d)) by done.
      destruct (decide (i < d)%nat); [rewrite !bool_decide_true, Hp by lia|rewrite !bool_decide_false by lia]; done.
    - rewrite bit_branch_key by (done || lia).
      destruct (decide (i = d)) as [->|Hne]; [rewrite Hb, bool_decide_false, andb_false_r by lia; done|].
      destruct (decide (i < d)%nat); [rewrite !bool_decide_true, Hp by lia|rewrite !bool_decide_false by lia]; done. }
  unfold child_branch_key, branch_key in *. cbn [node_key bk_depth] in *. rewrite Hn. f_equal. lia.
Qed.

(** ** Byte order and bits *)
Lemma byte_order b b' m : 0 ≤ m → byte_ok b → byte_ok b' → (∀ n, m < n → Z.testbit b n = Z.testbit b' n) →
  Z.testbit b m = true → Z.testbit b' m = false → b' < b.
Proof.
  intros Hm Hb Hb' Hhi H1 H0. assert (Hs : b / 2 ^ (m + 1) = b' / 2 ^ (m + 1)).
  { rewrite <- !Z.shiftr_div_pow2 by lia. apply Z.bits_inj'. intros n Hn. rewrite !Z.shiftr_spec by done. apply Hhi. lia. }
  pose proof (Z.testbit_spec' b m Hm) as E1. pose proof (Z.testbit_spec' b' m Hm) as E0. rewrite H1 in E1. rewrite H0 in E0.
  cbn [Z.b2z] in E1, E0. rewrite Z.add_1_r, Z.pow_succ_r, Z.mul_comm, <- !Z.div_div in Hs by lia.
  assert (Hq : b' / 2 ^ m < b / 2 ^ m) by (Z.to_euclidean_division_equations; lia).
  destruct (Z.lt_ge_cases b' b); [done|]. pose proof (Z.div_le_mono b b' (2 ^ m)). lia.
Qed.

Lemma bytes_leb_app p a b x y : bytes_leb (p ++ a :: x) (p ++ b :: y) = true → a ≤ b.
Proof.
  induction p as [|c p IH]; cbn [app bytes_leb].
  - intros [?%Z.ltb_lt|[?%Z.eqb_eq _]%andb_true_iff]%orb_true_iff; lia.
  - intros [?%Z.ltb_lt|[_ Hb]%andb_true_iff]%orb_true_iff; [lia|by apply IH].
Qed.

Lemma prefix_byte k k' q : key_ok k → key_ok k' → (q < 32)%nat → prefix (8 * q + 8) k = prefix (8 * q + 8) k' → k !! q = k' !! q.
Proof.
  intros Hk Hk' Hq Hp. rewrite prefix_agree in Hp.
  destruct (key_lookup k q Hk Hq) as (b & Hb & Hbo), (key_lookup k' q Hk' Hq) as (b' & Hb' & Hbo').
  rewrite Hb, Hb'. f_equal. apply Z.bits_inj'. intros n Hn. destruct (decide (8 ≤ n)); [by rewrite !byte_high|].
  rewrite <- (key_bit k q b), <- (key_bit k' q b') by (done || lia). apply Hp. lia.
Qed.

Lemma bit_mono d k k' : (d < 256)%nat → key_ok k → key_ok k' → bytes_le k k' → prefix d k = prefix d k' →
  bit_at k d = true → bit_at k' d = true.
Proof.
  intros Hd Hk Hk' Hle Hp H1. destruct (bit_at k' d) eqn:H0; [done|]. exfalso.
  pose proof (Nat.div_mod_eq d 8) as Hdm. pose proof (Nat.mod_upper_bound d 8 ltac:(lia)) as Hr.
  set (q := (d / 8)%nat) in *. set (r := (d mod 8)%nat) in *.
  destruct (key_lookup k q Hk) as (b & Hb & Hbo); [lia|]. destruct (key_lookup k' q Hk') as (b' & Hb' & Hbo'); [lia|].
  assert (Htake : take q k = take q k').
  { apply list_eq_same_length with q; [rewrite length_take; destruct Hk'; lia|rewrite length_take; destruct Hk; lia|].
    intros j x y Hj Hx Hy. rewrite lookup_take_lt in Hx, Hy by done.
    assert (Hjk : k !! j = k' !! j); [|congruence]. apply prefix_byte; [done|done|lia|]. eapply prefix_le; [|exact Hp]. lia. }
  rewrite <- (take_drop_middle k q b Hb), <- (take_drop_middle k' q b' Hb'), Htake in Hle.
  apply bytes_leb_app in Hle. assert (b' < b); [|lia].
  rewrite bit_at_testbit in H1, H0. fold q r in H1, H0. rewrite Hb in H1. rewrite Hb' in H0. cbn [default from_option Datatypes.id] in H1, H0.
  apply (byte_order b b' (7 - Z.of_nat r)); [lia|done|done| |done|done].
  intros n Hn. destruct (decide (8 ≤ n)); [by rewrite !byte_high|].
  rewrite prefix_agree in Hp. rewrite <- (key_bit k q b), <- (key_bit k' q b') by (done || lia). apply Hp. lia.
Qed.

(** ** Batches of updates *)
Record batch_ok (us : list LeafUpdate) : Prop := {
  bo_sorted : StronglySorted (λ u v, bytes_le (update_key u) (update_key v)) us;
  bo_nodup : NoDup (update_key <$> us);
  bo_keys : Forall (λ u, key_ok (update_key u)) us }.
Definition batch_map (us : list LeafUpdate) : gmap Hash Hash :=
  list_to_map ((λ u, (update_key u, update_leaf u)) <$> us).
(** The leaves after a batch; the zero hash removes. *)
Definition updated (u L : gmap Hash Hash) : gmap Hash Hash :=
  merge (λ o l, match o with Some h => if bool_decide (h = ZERO_HASH) then None else Some h | None => l end) u L.
Definition half (d : nat) (b : bool) (L : gmap Hash Hash) : gmap Hash Hash :=
  filter (λ kv, bit_at kv.1 d = b) L.
Definition on_path (d : nat) (κ : Hash) (L : gmap Hash Hash) : gmap Hash Hash :=
  filter (λ kv, prefix d kv.1 = prefix d κ) L.

Lemma updated_lookup u L k :
  updated u L !! k = match u !! k with Some h => if bool_decide (h = ZERO_HASH) then None else Some h | None => L !! k end.
Proof. unfold updated. rewrite lookup_merge. destruct (u !! k), (L !! k); done. Qed.
Lemma half_lookup d b L k : half d b L !! k = if decide (bit_at k d = b) then L !! k else None.
Proof.
  unfold half. destruct (decide _) as [Hb|Hb].
  - destruct (L !! k) as [h|] eqn:Hk; [by apply map_lookup_filter_Some|]. apply map_lookup_filter_None. by left.
  - apply map_lookup_filter_None. right. intros h _. done.
Qed.
Lemma on_path_lookup d κ L k : on_path d κ L !! k = if decide (prefix d k = prefix d κ) then L !! k else None.
Proof.
  unfold on_path. destruct (decide _) as [Hb|Hb].
  - destruct (L !! k) as [h|] eqn:Hk; [by apply map_lookup_filter_Some|]. apply map_lookup_filter_None. by left.
  - apply map_lookup_filter_None. right. intros h _. done.
Qed.
Lemma updated_half d b u L : updated (half d b u) (half d b L) = half d b (updated u L).
Proof. apply map_eq. intros k. rewrite updated_lookup, !half_lookup, updated_lookup. by destruct (decide _). Qed.

Lemma batch_lookup us k h : batch_ok us → batch_map us !! k = Some h ↔ mk_update k h ∈ us.
Proof.
  intros [_ Hnd _]. unfold batch_map.
  rewrite <- elem_of_list_to_map by (rewrite <- list_fmap_compose; exact Hnd).
  rewrite list_elem_of_fmap. split; [intros ([k' h'] & [= -> ->] & ?); done|]. intros Hin. by exists (mk_update k h).
Qed.

Lemma batch_sublist us vs : vs `sublist_of` us → batch_ok us → batch_ok vs.
Proof.
  intros Hs [H1 H2 H3]. split.
  - clear H2 H3. revert H1. induction Hs as [|u us vs Hs IH|u us vs Hs IH]; intros H1; [done| |].
    + apply StronglySorted_inv in H1 as [H1 Hu]. constructor; [by apply IH|].
      rewrite Forall_forall in Hu |- *. intros v Hv. apply Hu. by eapply elem_of_sublist.
    + apply StronglySorted_inv in H1 as [H1 _]. by apply IH.
  - eapply sublist_NoDup; [exact H2|]. by apply fmap_sublist.
  - rewrite Forall_forall in H3 |- *. intros v Hv. apply H3. by eapply elem_of_sublist.
Qed.
Lemma batch_filter us d b : batch_ok us →
  batch_map (filter (λ u, bit_at (update_key u) d = b) us) = half d b (batch_map us).
Proof.
  intros Hus. apply map_eq. intros k. apply option_eq. intros h. rewrite batch_lookup by (eapply batch_sublist; [apply sublist_filter|done]).
  rewrite list_elem_of_filter, half_lookup. cbn [update_key]. destruct (decide _); [|naive_solver]. rewrite batch_lookup by done. naive_solver.
Qed.

Lemma partition_filter us d κ :
  batch_ok us → (d < 256)%nat → Forall (λ u, prefix d (update_key u) = prefix d κ) us →
  partition_by_bit us d = (filter (λ u, bit_at (update_key u) d = false) us, filter (λ u, bit_at (update_key u) d = true) us).
Proof.
  intros Hus Hd. unfold partition_by_bit. induction us as [|u us IH]; intros Hp; [done|].
  apply Forall_cons in Hp as [Hu Hp]. cbn [partition_point]. rewrite !filter_cons.
  destruct (bit_at (update_key u) d) eqn:Hb; cbn [negb take drop].
  - assert (Htrue : Forall (λ v, bit_at (update_key v) d = true) us).
    { destruct Hus as [Hs _ Hk]. apply StronglySorted_inv in Hs as [_ Hs]. apply Forall_cons in Hk as [Hku Hk].
      rewrite Forall_forall in Hp, Hs, Hk |- *. intros v Hv. eapply bit_mono; [done| |by apply Hk|by apply Hs| |exact Hb]; [done|].
      rewrite Hu. symmetry. by apply Hp. }
    f_equal; [|f_equal].
    + clear -Htrue. induction Htrue as [|v us Hv _ IH]; [done|]. rewrite filter_cons_False; [done|]. by rewrite Hv.
    + clear -Htrue. induction Htrue as [|v us Hv _ IH]; [done|]. by rewrite filter_cons_True, <- IH.
  - rewrite decide_True, decide_False by done.
    assert (Hus' : batch_ok us) by (eapply batch_sublist; [|done]; by apply sublist_cons).
    specialize (IH Hus' Hp). injection IH as IH1 IH2. by rewrite IH1, IH2.
Qed.

Lemma batch_insert us cl :
  batch_ok us → key_ok (lane_key cl) → lane_key cl ∉ update_key <$> us →
  let n := partition_point (λ u, bytes_leb (update_key u) (lane_key cl)) us in
  batch_ok (take n us ++ mk_update (lane_key cl) (collapsed_leaf_hash cl) :: drop n us).
Proof.
  intros Hus Hk Hn. induction us as [|u us IH].
  { cbn. split; [repeat constructor|apply NoDup_singleton|by apply Forall_singleton]. }
  assert (Hus' : batch_ok us) by (eapply batch_sublist; [|done]; by apply sublist_cons).
  rewrite fmap_cons, not_elem_of_cons in Hn. destruct Hn as [Hne Hn].
  destruct Hus as [Hs Hnd Hks]. apply StronglySorted_inv in Hs as [Hs Hu]. rewrite fmap_cons, NoDup_cons in Hnd.
  apply Forall_cons in Hks as [Hku Hks]. destruct Hnd as [Hnu Hnd].
  cbn [partition_point]. destruct (bytes_leb (update_key u) (lane_key cl)) eqn:Hle; cbn [take drop app].
  - destruct (IH Hus' Hn) as [Hs1 Hnd1 Hk1]. set (n := partition_point _ us) in *.
    split; [constructor; [done|]| |by constructor].
    + apply Forall_app. split; [by apply Forall_take|]. constructor; [done|]. by apply Forall_drop.
    + rewrite fmap_cons. apply NoDup_cons. split; [|done]. rewrite fmap_app, elem_of_app, fmap_cons, elem_of_cons.
      cbn [update_key]. intros [Hin|[Heq|Hin]]; [|done|]; apply Hnu.
      * eapply elem_of_sublist; [exact Hin|]. apply fmap_sublist, sublist_take.
      * eapply elem_of_sublist; [exact Hin|]. apply fmap_sublist, sublist_drop.
  - assert (Hlt : bytes_le (lane_key cl) (update_key u)).
    { destruct (total bytes_le (lane_key cl) (update_key u)) as [?|Hx]; [done|]. unfold bytes_le in Hx. congruence. }
    split.
    + constructor; [by constructor|]. constructor; [done|]. rewrite Forall_forall in Hu |- *. intros v Hv.
      cbn [update_key]. etrans; [exact Hlt|]. by apply Hu.
    + rewrite !fmap_cons. cbn [update_key]. apply NoDup_cons. split; [|by apply NoDup_cons].
      by rewrite elem_of_cons; intros [?|?].
    + constructor; [done|]. by constructor.
Qed.

(** What [expand_singleton] does to a batch. *)
Lemma expand_spec us cl :
  batch_ok us → key_ok (lane_key cl) →
  ∃ us', expand_singleton (Some (Collapsed cl)) us = (None, us') ∧ batch_ok us' ∧
    batch_map us' = batch_map us ∪ {[lane_key cl := collapsed_leaf_hash cl]} ∧
    (∀ u, u ∈ us' → u ∈ us ∨ u = mk_update (lane_key cl) (collapsed_leaf_hash cl)) ∧ (∀ u, u ∈ us → u ∈ us').
Proof.
  intros Hus Hk. cbn [expand_singleton]. destruct (existsb _ us) eqn:Hex.
  - exists us. split; [done|]. split; [done|]. split; [|by split; [left|]].
    apply existsb_exists in Hex as (u & Hu%list_elem_of_In & Heq%bool_decide_eq_true).
    apply map_eq. intros k. rewrite lookup_union. destruct (decide (k = lane_key cl)) as [->|Hne].
    + destruct u as [uk uh]. cbn [update_key] in Heq. subst uk. apply batch_lookup in Hu; [|done]. rewrite Hu.
      by destruct ({[_ := _]} !! _).
    + rewrite lookup_singleton_ne by done. by destruct (batch_map us !! k).
  - assert (Hn : lane_key cl ∉ update_key <$> us).
    { intros (u & Heq & Hu)%list_elem_of_fmap. apply not_true_iff_false in Hex. apply Hex, existsb_exists.
      exists u. split; [by apply list_elem_of_In|]. by apply bool_decide_eq_true. }
    pose proof (batch_insert us cl Hus Hk Hn) as Hb. cbv zeta in Hb. set (n := partition_point _ us) in *.
    eexists. split; [done|]. split; [done|].
    assert (Hin : ∀ u, u ∈ take n us ++ mk_update (lane_key cl) (collapsed_leaf_hash cl) :: drop n us ↔
      u ∈ us ∨ u = mk_update (lane_key cl) (collapsed_leaf_hash cl)).
    { intros u. rewrite elem_of_app, elem_of_cons. rewrite <- (take_drop n us) at 3. rewrite elem_of_app. tauto. }
    split; [|split; intros u Hu; apply Hin; auto].
    apply map_eq. intros k. apply option_eq. intros h. rewrite batch_lookup, Hin, lookup_union_Some_raw, batch_lookup by done.
    rewrite lookup_singleton_Some. split.
    + intros [?|[= -> ->]]; [by left|]. right. split; [|done]. destruct (batch_map us !! lane_key cl) as [h|] eqn:Hl; [|done].
      apply batch_lookup in Hl; [|done]. exfalso. apply Hn. by apply (list_elem_of_fmap_2 update_key) in Hl.
    + intros [?|[_ [<- <-]]]; [by left|by right].
Qed.

(** A sorted permutation of the bindings of a map is a batch for it. *)
Lemma sorted_updates_ok m us :
  map_Forall (λ k _, key_ok k) m → us ≡ₚ (λ kv, mk_update kv.1 kv.2) <$> map_to_list m → StronglySorted update_le us →
  batch_ok us ∧ batch_map us = m.
Proof.
  intros Hk Hp Hs.
  assert (Hin : ∀ k h, mk_update k h ∈ us ↔ m !! k = Some h).
  { intros k h. rewrite Hp, list_elem_of_fmap, <- elem_of_map_to_list. split; [by intros ([? ?] & [= <- <-] & ?)|by exists (k, h)]. }
  assert (Hbo : batch_ok us).
  { split; [exact Hs| |].
    - rewrite Hp, <- list_fmap_compose. apply NoDup_fst_map_to_list.
    - apply Forall_forall. intros [k h] Hu%Hin. by eapply Hk. }
  split; [done|]. apply map_eq. intros k. apply option_eq. intros h. by rewrite batch_lookup, Hin.
Qed.
Lemma sorted_map_ok m : map_Forall (λ k _, key_ok k) m → batch_ok (from_sorted_map m) ∧ batch_map (from_sorted_map m) = m.
Proof.
  intros Hk. apply sorted_updates_ok; [done|apply merge_sort_Permutation|apply StronglySorted_merge_sort; apply _].
Qed.
Lemma dedup_nodup us : NoDup (update_key <$> us) → dedup_updates us = us.
Proof.
  induction us as [|u us IH]; [done|]. rewrite fmap_cons. intros [Hu Hnd]%NoDup_cons. cbn [dedup_updates].
  destruct us as [|v us]; [done|]. rewrite bool_decide_false, IH by (done || (intros Heq; apply Hu; rewrite <- Heq; by left)). done.
Qed.
Lemma unsorted_ok m : map_Forall (λ k _, key_ok k) m →
  from_unsorted ((λ kv, mk_update kv.1 kv.2) <$> map_to_list m) = from_sorted_map m.
Proof. intros Hk. apply dedup_nodup. by apply bo_nodup, sorted_map_ok. Qed.

(** ** The reference tree *)
Definition many (L : gmap Hash Hash) : Prop := ∃ k k', k ≠ k' ∧ is_Some (L !! k) ∧ is_Some (L !! k').

Lemma map_cases (L : gmap Hash Hash) : L = ∅ ∨ (∃ k h, L = {[k := h]}) ∨ many L.
Proof.
  destruct (decide (L = ∅)) as [->|(k & h & Hk)%map_choose]; [by left|]. right.
  destruct (decide (delete k L = ∅)) as [He|(k' & h' & Hk')%map_choose].
  - left. exists k, h. rewrite <- (insert_delete_id L k h Hk), He. done.
  - right. apply lookup_delete_Some in Hk' as [Hne Hk']. exists k, k'. rewrite Hk, Hk'. split_and!; [done|by eexists..].
Qed.
Lemma not_many_empty : ¬ many ∅.
Proof. intros (k & k' & _ & [h Hh] & _). by rewrite lookup_empty in Hh. Qed.
Lemma not_many_single k h : ¬ many {[k := h]}.
Proof.
  intros (k1 & k2 & Hne & [h1 [<- _]%lookup_singleton_Some] & [h2 [<- _]%lookup_singleton_Some]). done.
Qed.
Lemma many_sub (L1 L2 : gmap Hash Hash) : many L1 → L1 ⊆ L2 → many L2.
Proof.
  intros (k & k' & Hne & [h Hk] & [h' Hk']) Hs. exists k, k'. split; [done|].
  split; eexists; eapply lookup_weaken; [exact Hk|done|exact Hk'|done].
Qed.
Lemma half_sub (d : nat) b L : half d b L ⊆ L.
Proof. apply map_filter_subseteq. Qed.
Lemma on_path_sub (d : nat) κ L : on_path d κ L ⊆ L.
Proof. apply map_filter_subseteq. Qed.
Lemma half_empty d b : half d b ∅ = ∅.
Proof. apply map_filter_empty. Qed.
Lemma half_single d b k h : half d b {[k := h]} = if decide (bit_at k d = b) then {[k := h]} else ∅.
Proof.
  apply map_eq. intros k'. rewrite half_lookup. destruct (decide (k' = k)) as [->|Hne].
  - by repeat case_decide.
  - rewrite lookup_singleton_ne by done. repeat case_decide; by rewrite ?lookup_singleton_ne, ?lookup_empty.
Qed.
Lemma half_split (d : nat) (L : gmap Hash Hash) : L = half d false L ∪ half d true L.
Proof.
  apply map_eq. intros k. rewrite lookup_union, !half_lookup. by destruct (bit_at k d), (L !! k).
Qed.

Section reference.
Context `{SmtHasher}.

(** The node of a set of leaves that agree above it, [n] levels over the leaves: nothing, the
    leaf when it is the only one, the hash of the two halves otherwise. *)
Fixpoint subtree (n : nat) (L : gmap Hash Hash) : NodeResult :=
  match map_to_list L, n with
  | [], _ => REmpty
  | [(k, h)], _ => RCollapsed (mk_collapsed k h)
  | _, O => RInternal ZERO_HASH
  | _, S m =>
      let d := (DEPTH - n)%nat in
      RInternal (hash_node (result_hash (subtree m (half d false L)) d) (result_hash (subtree m (half d true L)) d))
  end.
Definition root_of (L : gmap Hash Hash) : Hash := root_hash (subtree DEPTH L).

(** The leaves below a node: the keys are hashes that agree with the node's, no leaf is the zero hash. *)
Definition at_node (d : nat) (κ : Hash) (L : gmap Hash Hash) : Prop :=
  map_Forall (λ k h, key_ok k ∧ prefix d k = prefix d κ ∧ h ≠ ZERO_HASH) L.

Lemma at_node_half (d : nat) κ κ' b L :
  at_node d κ L → prefix d κ' = prefix d κ → bit_at κ' d = b → at_node (S d) κ' (half d b L).
Proof.
  intros HL Hp Hb k h Hk. rewrite half_lookup in Hk. destruct (decide _) as [Hkb|]; [|done].
  destruct (HL k h Hk) as (Hko & Hkp & Hz). split_and!; [done| |done]. apply prefix_S_iff. rewrite Hp, Hb. done.
Qed.
Lemma half_on_path (d e : nat) κ b L :
  (d < e)%nat → bit_at κ d = b → on_path e κ (half d b L) = on_path e κ L.
Proof.
  intros He Hb. apply map_eq. intros k. rewrite !on_path_lookup. destruct (decide _) as [Hp|]; [|done].
  rewrite half_lookup, decide_True; [done|]. rewrite prefix_agree in Hp. by rewrite Hp.
Qed.
Lemma on_path_all (d : nat) κ L : at_node d κ L → on_path d κ L = L.
Proof.
  intros HL. apply map_eq. intros k. rewrite on_path_lookup. destruct (decide _) as [|Hn]; [done|].
  destruct (L !! k) as [h|] eqn:Hk; [|done]. destruct Hn. by apply (HL k h).
Qed.

Lemma subtree_empty n : subtree n ∅ = REmpty.
Proof. destruct n; cbn [subtree]; by rewrite map_to_list_empty. Qed.
Lemma subtree_single n k h : subtree n {[k := h]} = RCollapsed (mk_collapsed k h).
Proof. destruct n; cbn [subtree]; by rewrite map_to_list_singleton. Qed.
Lemma many_list L : many L → ∃ a b l, map_to_list L = a :: b :: l.
Proof.
  intros Hm. destruct (map_to_list L) as [|[k h] [|b l]] eqn:Hl; [| |eauto].
  - apply map_to_list_empty_iff in Hl as ->. by apply not_many_empty in Hm.
  - assert (L = {[k := h]}) as -> by (rewrite <- (list_to_map_to_list L), Hl; apply insert_empty).
    by apply not_many_single in Hm.
Qed.
Lemma subtree_many_S n L : many L → let d := (DEPTH - S n)%nat in
  subtree (S n) L = RInternal (hash_node (result_hash (subtree n (half d false L)) d) (result_hash (subtree n (half d true L)) d)).
Proof. intros (a & b & l & Hl)%many_list. cbn [subtree]. rewrite Hl. by destruct a. Qed.
Lemma subtree_many n L : many L → ∃ h, subtree n L = RInternal h.
Proof. intros (a & b & l & Hl)%many_list. destruct n; cbn [subtree]; rewrite Hl; destruct a; by eexists. Qed.

(** The node of a set is the merge of the nodes of its halves. *)
Lemma subtree_S n L : let d := (DEPTH - S n)%nat in
  subtree (S n) L = (merged_node (subtree n (half d false L)) (subtree n (half d true L)) d).1.
Proof.
  intros d. destruct (map_cases L) as [->|[(k & h & ->)|Hm]].
  - by rewrite !half_empty, !subtree_empty.
  - rewrite !half_single. destruct (bit_at k d);
      [rewrite decide_False, decide_True by done|rewrite decide_True, decide_False by done];
      by rewrite !subtree_single, subtree_empty.
  - rewrite (subtree_many_S n L Hm). pose proof (half_split d L) as Hsplit. cbv zeta. fold d.
    destruct (map_cases (half d false L)) as [E0|[(k0 & h0 & E0)|M0]], (map_cases (half d true L)) as [E1|[(k1 & h1 & E1)|M1]];
      try (destruct (subtree_many n _ M0) as (x0 & X0); rewrite X0); try (destruct (subtree_many n _ M1) as (x1 & X1); rewrite X1);
      try (rewrite E0 in Hsplit |- *); try (rewrite E1 in Hsplit |- *); rewrite ?subtree_empty, ?subtree_single; try reflexivity;
      rewrite ?(left_id_L ∅ (∪)), ?(right_id_L ∅ (∪)) in Hsplit; exfalso; rewrite Hsplit in Hm.
    + by apply not_many_empty in Hm.
    + by apply not_many_single in Hm.
    + by apply not_many_single in Hm.
Qed.

(** ** Stores *)

(** [R] holds the nodes of [L] below the node of [κ] at depth [d]: the node itself, and the
    nodes whose parent has two leaves at least; nothing else. *)
Definition region (d : nat) (κ : Hash) (L : gmap Hash Hash) (R : BranchKey → option Node) : Prop :=
  ∀ e κ', (d ≤ e < 256)%nat → key_ok κ' → prefix d κ' = prefix d κ →
    (e = d ∨ many (on_path (e - 1) κ' L) → R (branch_key e κ') = result_node (subtree (256 - e) (on_path e κ' L))) ∧
    (e ≠ d → ¬ many (on_path (e - 1) κ' L) → R (branch_key e κ') = None).

(** The keys of the region. *)
Definition inside (d : nat) (κ : Hash) (bk : BranchKey) : Prop :=
  ∃ e κ', (d ≤ e < 256)%nat ∧ key_ok κ' ∧ prefix d κ' = prefix d κ ∧ bk = branch_key e κ'.

Lemma region_ext d κ L R R' : region d κ L R → (∀ bk, inside d κ bk → R' bk = R bk) → region d κ L R'.
Proof.
  intros Hr Hext e κ' He Hk Hp. rewrite (Hext (branch_key e κ')) by (by exists e, κ'). by apply Hr.
Qed.
Lemma inside_child d κ κ' bk : prefix d κ' = prefix d κ → inside (S d) κ' bk → inside d κ bk.
Proof.
  intros Hp (e & k & He & Hk & Hpk & ->). exists e, k. split; [lia|]. split; [done|]. split; [|done].
  rewrite <- Hp. eapply prefix_le; [|exact Hpk]. lia.
Qed.
Lemma inside_disjoint d κ κ' bk : bit_at κ d ≠ bit_at κ' d → inside (S d) κ bk → ¬ inside (S d) κ' bk.
Proof.
  intros Hb (e & k & He & Hk & Hpk & ->) (e' & k' & He' & Hk' & Hpk' & Heq).
  assert (e = e') as -> by (by apply (f_equal bk_depth) in Heq). apply branch_key_eq in Heq; [|lia|done|done].
  apply (prefix_le _ (S d)) in Heq; [|lia]. apply Hb. rewrite Hpk, Hpk' in Heq. by apply prefix_S_iff in Heq as [_ ?].
Qed.
Lemma inside_above d κ κ' : ¬ inside (S d) κ' (branch_key d κ).
Proof. intros (e & k & He & _ & _ & Heq). apply (f_equal bk_depth) in Heq. cbn in Heq. lia. Qed.

Lemma region_node d κ L R : (d < 256)%nat → key_ok κ → at_node d κ L → region d κ L R →
  R (branch_key d κ) = result_node (subtree (256 - d) L).
Proof.
  intros Hd Hk HL Hr. destruct (Hr d κ) as [Hn _]; [lia|done|done|]. rewrite Hn by (by left). by rewrite on_path_all.
Qed.
Lemma region_many d κ κ' b L R : (S d < 256)%nat → at_node d κ L → many L → prefix d κ' = prefix d κ → bit_at κ' d = b →
  region d κ L R → region (S d) κ' (half d b L) R.
Proof.
  intros Hd HL Hm Hp Hb Hr e k He Hk Hpk. apply prefix_S_iff in Hpk as [Hpk Hbk].
  destruct (Hr e k) as [H1 H2]; [lia|done|by rewrite Hpk|].
  rewrite (half_on_path d e) by (lia || congruence). split.
  - intros Hor. apply H1. right. destruct Hor as [->|Hmk].
    + rewrite Nat.sub_succ, Nat.sub_0_r. assert (Heq : on_path d k L = L); [|by rewrite Heq].
      apply on_path_all. intros k' h' Hk'. rewrite Hpk, Hp. by apply HL.
    + eapply many_sub; [exact Hmk|]. apply map_filter_strong_subseteq_ext. intros k' h'.
      intros [? ?%map_lookup_filter_Some_1_1]. done.
  - intros Hne Hnm. apply H2; [lia|]. by rewrite (half_on_path d (e - 1)) in Hnm by (lia || congruence).
Qed.
Lemma region_few d κ κ' L R : (S d < 256)%nat → at_node d κ L → ¬ many L → prefix d κ' = prefix d κ →
  region d κ L R → region (S d) κ' ∅ R.
Proof.
  intros Hd HL Hm Hp Hr e k He Hk Hpk. apply prefix_S_iff in Hpk as [Hpk Hbk].
  destruct (Hr e k) as [_ H2]; [lia|done|by rewrite Hpk|].
  assert (HR : R (branch_key e k) = None).
  { apply H2; [lia|]. intros Hmk. apply Hm. eapply many_sub; [exact Hmk|apply on_path_sub]. }
  assert (Ho : ∀ i, on_path i k ∅ = ∅) by (intros i; apply map_filter_empty). rewrite !Ho, subtree_empty.
  split; [done|]. intros _ _. done.
Qed.

Lemma child_exists d κ b : (d < 256)%nat → key_ok κ → ∃ κ', key_ok κ' ∧ prefix d κ' = prefix d κ ∧ bit_at κ' d = b.
Proof.
  intros Hd Hk. exists (node_key (child_branch_key (branch_key d κ) b d)). split; [by apply child_key_ok|].
  assert (Hok : key_ok (node_key (branch_key d κ))) by (apply branch_key_ok; [lia|done]).
  rewrite prefix_agree. unfold child_branch_key. destruct b; cbn [node_key]; split.
  - intros i Hi. rewrite bit_set, bit_branch_key, (bool_decide_false (i = d)), bool_decide_true by (done || lia). done.
  - rewrite bit_set by (done || lia). by rewrite bool_decide_true.
  - intros i Hi. rewrite bit_branch_key, bool_decide_true by (done || lia). done.
  - rewrite bit_branch_key, bool_decide_false by (done || lia). done.
Qed.

Section update_spec.
Context {E : Type} (nodes : gmap BranchKey Node) (get_node : BranchKey → outcome E (option Node)).
Context (Hget : ∀ bk, get_node bk = Ok (nodes !! bk)).

Definition current (changes : gmap BranchKey (option Node)) (bk : BranchKey) : option Node :=
  match changes !! bk with Some n => n | None => nodes !! bk end.
Lemma read_current changes bk : read_node get_node changes bk = Ok (current changes bk).
Proof. unfold read_node, current. destruct (changes !! bk); [done|apply Hget]. Qed.
Lemma current_insert changes key n bk :
  current (<[key := n]> changes) bk = if decide (bk = key) then n else current changes bk.
Proof.
  unfold current. destruct (decide (bk = key)) as [->|Hne]; [by rewrite lookup_insert_eq|by rewrite lookup_insert_ne].
Qed.
(** The node is written, or was there. *)
Lemma current_record changes key ex n bk :
  ex ≠ n ∨ current changes key = n →
  current (record_change changes key ex n) bk = if decide (bk = key) then n else current changes bk.
Proof.
  intros Hor. unfold record_change. case_bool_decide as Hne; [apply current_insert|].
  destruct (decide (bk = key)) as [->|]; [|done]. by destruct Hor.
Qed.

(** The last step at a node, from the two children. *)
Lemma region_join d κ L R R' :
  (S d < 256)%nat → key_ok κ → at_node d κ L →
  (∀ κ', key_ok κ' → prefix d κ' = prefix d κ → region (S d) κ' (half d (bit_at κ' d) L) R) →
  R' (branch_key d κ) = result_node (subtree (256 - d) L) →
  (∀ e κ', (S d < e < 256)%nat → R' (branch_key e κ') = R (branch_key e κ')) →
  (∀ κ', key_ok κ' → prefix d κ' = prefix d κ → many L → R' (branch_key (S d) κ') = R (branch_key (S d) κ')) →
  (∀ κ', key_ok κ' → prefix d κ' = prefix d κ → ¬ many L → R' (branch_key (S d) κ') = None) →
  region d κ L R'.
Proof.
  intros Hd Hk HL Hch Hnode Hdeep Hmany Hfew e κ' He Hk' Hp.
  assert (HLp : on_path d κ' L = L) by (apply on_path_all; intros k h Hkh; rewrite Hp; by apply HL).
  destruct (decide (e = d)) as [->|Hne].
  { split; [|done]. intros _. assert (Heq : branch_key d κ' = branch_key d κ) by (apply branch_key_eq; [lia|done..]).
    by rewrite Heq, Hnode, HLp. }
  destruct (Hch κ' Hk' Hp e κ') as [H1 H2]; [lia|done|done|]. rewrite (half_on_path d e) in H1 by (done || lia).
  destruct (decide (e = S d)) as [->|Hne'].
  - rewrite Nat.sub_succ, Nat.sub_0_r, HLp. split.
    + intros [?|Hm]; [lia|]. rewrite Hmany by done. apply H1. by left.
    + intros _ Hm. by apply Hfew.
  - rewrite (half_on_path d (e - 1)) in H1, H2 by (done || lia). rewrite Hdeep by lia. split.
    + intros [?|Hm]; [lia|]. apply H1. by right.
    + intros _ Hm. by apply H2.
Qed.

Lemma region_child_empty d κ κ' k h ch :
  (S d < 256)%nat → key_ok κ' → key_ok k → prefix d κ' = prefix d κ →
  region (S d) κ' (half d (bit_at κ' d) {[k := h]}) (current ch) → branch_key (S d) κ' ≠ branch_key (S d) k →
  current ch (branch_key (S d) κ') = None.
Proof.
  intros Hd Hk' Hk Hp Hr Hne. destruct (Hr (S d) κ') as [Hn _]; [lia|done|done|]. rewrite Hn by (by left).
  rewrite half_on_path by (done || lia).
  assert (Ho : on_path (S d) κ' {[k := h]} = ∅).
  { apply map_empty. intros k'. rewrite on_path_lookup. destruct (decide _) as [Heq|]; [|done].
    apply lookup_singleton_ne. intros <-. apply Hne. by apply branch_key_eq; [lia|..]. }
  by rewrite Ho, subtree_empty.
Qed.

Lemma join_step d κ L ch ex :
  (S d < 256)%nat → key_ok κ → at_node d κ L →
  (∀ κ', key_ok κ' → prefix d κ' = prefix d κ → region (S d) κ' (half d (bit_at κ' d) L) (current ch)) →
  let result := subtree (256 - d) L in
  let ch' := match result with
             | RCollapsed cl => <[child_branch_key (branch_key d κ) (bit_at (lane_key cl) d) d := None]> ch
             | _ => ch
             end in
  ex ≠ result_node result ∨ current ch (branch_key d κ) = result_node result →
  let ch'' := record_change ch' (branch_key d κ) ex (result_node result) in
  region d κ L (current ch'') ∧ ∀ bk, ¬ inside d κ bk → current ch'' bk = current ch bk.
Proof.
  intros Hd Hk HL Hch result ch' Hex ch''.
  assert (Hdepth : ∀ e κ', (d < e)%nat → branch_key e κ' ≠ branch_key d κ).
  { intros e κ' He Heq. apply (f_equal bk_depth) in Heq. cbn in Heq. lia. }
  assert (Hself : inside d κ (branch_key d κ)) by (exists d, κ; split_and!; (done || lia)).
  assert (Hch' : ∃ dead : BranchKey → bool, (∀ bk, current ch' bk = if dead bk then None else current ch bk) ∧
    (∀ bk, dead bk = true → ¬ many L ∧ inside d κ bk ∧ bk_depth bk = S d) ∧
    (¬ many L → ∀ κ', key_ok κ' → prefix d κ' = prefix d κ → current ch' (branch_key (S d) κ') = None)).
  { destruct (map_cases L) as [->|[(k & h & ->)|Hm]].
    - exists (λ _, false). unfold ch', result. rewrite subtree_empty. split; [done|]. split; [done|]. intros _ κ' Hk' Hp.
      specialize (Hch κ' Hk' Hp). rewrite half_empty in Hch. pose proof (region_node (S d) κ' ∅ (current ch) Hd Hk') as Hn.
      rewrite Hn; [by rewrite subtree_empty|by apply map_Forall_empty|done].
    - destruct (HL k h) as (Hko & Hkp & _); [apply lookup_singleton_eq|].
      exists (λ bk, bool_decide (bk = branch_key (S d) k)). unfold ch', result. rewrite subtree_single. cbn [lane_key].
      rewrite child_key by (done || lia). split; [|split].
      + intros bk. rewrite current_insert. by repeat case_decide.
      + intros bk ->%bool_decide_eq_true. split; [apply not_many_single|]. split; [|done].
        exists (S d), k. split_and!; (done || lia).
      + intros _ κ' Hk' Hp. rewrite current_insert. destruct (decide _) as [|Hne]; [done|].
        by apply (region_child_empty d κ κ' k h); [| | | |apply Hch|].
    - exists (λ _, false). unfold ch', result. destruct (subtree_many (256 - d) L Hm) as (h & ->).
      split; [done|]. by split. }
  destruct Hch' as (dead & Hcur & Hdead & Hnone).
  assert (Hdk : dead (branch_key d κ) = false).
  { destruct (dead (branch_key d κ)) eqn:Hdd; [|done]. apply Hdead in Hdd as (_ & _ & Hdd). cbn in Hdd. lia. }
  assert (Hrec : ∀ bk, current ch'' bk = if decide (bk = branch_key d κ) then result_node result else current ch' bk).
  { intros bk. apply current_record. by rewrite Hcur, Hdk. }
  split.
  - apply (region_join d κ L (current ch)); [done..| | | |].
    + by rewrite Hrec, decide_True.
    + intros e κ' He. rewrite Hrec, decide_False, Hcur by (apply Hdepth; lia).
      destruct (dead (branch_key e κ')) eqn:Hdd; [|done]. apply Hdead in Hdd as (_ & _ & Hdd). cbn in Hdd. lia.
    + intros κ' _ _ Hm. rewrite Hrec, decide_False, Hcur by (apply Hdepth; lia).
      destruct (dead (branch_key (S d) κ')) eqn:Hdd; [|done]. by apply Hdead in Hdd as (? & _).
    + intros κ' Hk' Hp Hm. rewrite Hrec, decide_False by (apply Hdepth; lia). by apply Hnone.
  - intros bk Hbk. rewrite Hrec, decide_False, Hcur by (by intros ->).
    destruct (dead bk) eqn:Hdd; [|done]. by apply Hdead in Hdd as (_ & ? & _).
Qed.

Definition no_siblings (L : gmap Hash Hash) : Prop :=
  ∀ k k', is_Some (L !! k) → is_Some (L !! k') → prefix 255 k = prefix 255 k' → k = k'.
(** The batch removes leaves that are there only. *)
Definition removes_live (u L : gmap Hash Hash) : Prop := ∀ k, u !! k = Some ZERO_HASH → is_Some (L !! k).

Lemma no_siblings_sub L1 L2 : no_siblings L2 → L1 ⊆ L2 → no_siblings L1.
Proof.
  intros HL Hs k k' [h Hk] [h' Hk']. apply HL; eexists; eapply lookup_weaken; [exact Hk|done|exact Hk'|done].
Qed.
Lemma no_siblings_few d κ L : (d = 255)%nat → at_node d κ L → no_siblings L → ¬ many L.
Proof.
  intros -> HL Hns (k & k' & Hne & Hk & Hk'). apply Hne. apply (Hns k k' Hk Hk'). destruct Hk as [h Hk], Hk' as [h' Hk'].
  destruct (HL _ _ Hk) as (_ & -> & _), (HL _ _ Hk') as (_ & -> & _). done.
Qed.
(** The two conditions by lookups in finite maps, which can be evaluated. *)
Lemma no_siblings_forall L :
  map_Forall (λ k _, map_Forall (λ k' _, prefix 255 k = prefix 255 k' → k = k') L) L → no_siblings L.
Proof. intros HL k k' [h Hk] [h' Hk']. by apply (HL k h Hk k' h' Hk'). Qed.
Lemma removes_live_forall u L : map_Forall (λ k h, h = ZERO_HASH → is_Some (L !! k)) u → removes_live u L.
Proof. intros Hu k Hk. by apply (Hu k ZERO_HASH Hk). Qed.
Lemma removes_live_half d b u L : removes_live u L → removes_live (half d b u) (half d b L).
Proof. intros Hr k. rewrite !half_lookup. destruct (decide _); [apply Hr|done]. Qed.

Lemma at_node_updated d κ us L : batch_ok us → Forall (λ u, prefix d (update_key u) = prefix d κ) us → at_node d κ L →
  at_node d κ (updated (batch_map us) L).
Proof.
  intros Hus Hp HL k h Hk. rewrite updated_lookup in Hk. destruct (batch_map us !! k) as [h'|] eqn:Hb; [|by apply HL].
  case_bool_decide as Hz; [done|]. injection Hk as ->. apply batch_lookup in Hb; [|done].
  rewrite Forall_forall in Hp. pose proof (bo_keys _ Hus) as Hks. rewrite Forall_forall in Hks.
  split_and!; [by apply (Hks _ Hb)|by apply (Hp _ Hb)|done].
Qed.

Lemma region_prefix d κ κ' L R : prefix d κ = prefix d κ' → region d κ L R → region d κ' L R.
Proof. intros Hp Hr e k He Hk Hpk. apply Hr; [done|done|by rewrite Hp]. Qed.
Lemma inside_prefix d κ κ' bk : prefix d κ = prefix d κ' → inside d κ bk → inside d κ' bk.
Proof. intros Hp (e & k & He & Hk & Hpk & ->). exists e, k. by rewrite <- Hp. Qed.
Lemma read_sibling_spec d κ κ' M ch :
  (S d < 256)%nat → key_ok κ → key_ok κ' → prefix d κ' = prefix d κ → at_node (S d) κ' M → region (S d) κ' M (current ch) →
  read_sibling_result get_node ch (branch_key d κ) (bit_at κ' d) d = Ok (subtree (256 - S d) M).
Proof.
  intros Hd Hk Hk' Hp HM Hr. unfold read_sibling_result. rewrite child_key by (done || lia). rewrite read_current.
  cbn [mbind outcome_bind]. rewrite (region_node (S d) κ' M _ Hd Hk' HM Hr).
  by destruct (subtree _ M).
Qed.

(** What [compute_subtree] does [n] levels above the leaves. *)
Definition subtree_correct (n : nat) : Prop := ∀ d κ us L ch,
  n = (256 - d)%nat → (d < 256)%nat → key_ok κ → us ≠ [] → batch_ok us →
  Forall (λ u, prefix d (update_key u) = prefix d κ) us → at_node d κ L → region d κ L (current ch) →
  no_siblings L → L = ∅ ∨ removes_live (batch_map us) L →
  ∃ ch', compute_subtree get_node n ch us = Ok (subtree n (updated (batch_map us) L), ch') ∧
    region d κ (updated (batch_map us) L) (current ch') ∧ (∀ bk, ¬ inside d κ bk → current ch' bk = current ch bk).

Section children.
Context (n d : nat) (Hn : n = (256 - S d)%nat) (Hd : (S d < 256)%nat) (IH : subtree_correct n).
Context (κ : Hash) (Hκ : key_ok κ) (us : list LeafUpdate) (Hus : batch_ok us).
Context (Hp : Forall (λ u, prefix d (update_key u) = prefix d κ) us).
Context (M : gmap Hash Hash) (HM : at_node d κ M) (Hns : no_siblings M) (Hlive : M = ∅ ∨ removes_live (batch_map us) M).

Lemma child_step ch κ' b :
  key_ok κ' → prefix d κ' = prefix d κ → bit_at κ' d = b → region (S d) κ' (half d b M) (current ch) →
  ∃ ch', match filter (λ u, bit_at (update_key u) d = b) us with
         | [] => r ← read_sibling_result get_node ch (branch_key d κ) b d; Ok (r, ch)
         | _ => compute_subtree get_node n ch (filter (λ u, bit_at (update_key u) d = b) us)
         end = Ok (subtree n (half d b (updated (batch_map us) M)), ch') ∧
    region (S d) κ' (half d b (updated (batch_map us) M)) (current ch') ∧
    (∀ bk, ¬ inside (S d) κ' bk → current ch' bk = current ch bk).
Proof.
  intros Hk' Hp' Hb Hr. pose proof (at_node_half d κ κ' b M HM Hp' Hb) as HMb.
  pose proof (batch_filter us d b Hus) as Hmap. set (vs := filter _ us) in *. rewrite <- updated_half, <- Hmap.
  assert (Hvs : batch_ok vs) by (eapply batch_sublist; [apply sublist_filter|done]).
  destruct (decide (vs = [])) as [Hnil|Hnil].
  - rewrite Hnil. exists ch. assert (Ha : updated (batch_map []) (half d b M) = half d b M).
    { apply map_eq. intros k. by rewrite updated_lookup. }
    rewrite Ha. split; [|by split]. rewrite <- Hb. rewrite (read_sibling_spec d κ κ' (half d b M)) by (done || by rewrite Hb).
    cbn [mbind outcome_bind]. by rewrite Hb, Hn.
  - destruct (IH (S d) κ' vs (half d b M) ch) as (ch' & Hrun & Hreg & Hfr); [done|lia|done|done|done| |done|done| | |].
    + rewrite Forall_forall in Hp |- *. intros u [Hub Hu]%list_elem_of_filter. apply prefix_S_iff.
      rewrite Hub, Hb, Hp', Hp by done. done.
    + eapply no_siblings_sub; [exact Hns|apply half_sub].
    + destruct Hlive as [->|Hl]; [left; apply half_empty|right]. rewrite Hmap. by apply removes_live_half.
    + exists ch'. split; [|done]. destruct vs; [done|exact Hrun].
Qed.

Lemma merge_children_spec ch ex :
  (∀ κ', key_ok κ' → prefix d κ' = prefix d κ → region (S d) κ' (half d (bit_at κ' d) M) (current ch)) →
  let L' := updated (batch_map us) M in
  ex ≠ result_node (subtree (256 - d) L') ∨ current ch (branch_key d κ) = result_node (subtree (256 - d) L') →
  ∃ ch', merge_children get_node (compute_subtree get_node n) ch (branch_key d κ) d ex us = Ok (subtree (256 - d) L', ch') ∧
    region d κ L' (current ch') ∧ (∀ bk, ¬ inside d κ bk → current ch' bk = current ch bk).
Proof.
  intros Hch L' Hex. destruct (child_exists d κ false) as (κ0 & Hk0 & Hp0 & Hb0); [lia|done|].
  destruct (child_exists d κ true) as (κ1 & Hk1 & Hp1 & Hb1); [lia|done|].
  destruct (child_step ch κ0 false Hk0 Hp0 Hb0) as (ch0 & Hrun0 & Hreg0 & Hfr0); [rewrite <- Hb0; by apply Hch|].
  destruct (child_step ch0 κ1 true Hk1 Hp1 Hb1) as (ch1 & Hrun1 & Hreg1 & Hfr1).
  { eapply region_ext; [rewrite <- Hb1; by apply Hch|]. intros bk Hbk. apply Hfr0. eapply inside_disjoint; [|exact Hbk]. congruence. }
  assert (Hall : ∀ κ', key_ok κ' → prefix d κ' = prefix d κ → region (S d) κ' (half d (bit_at κ' d) L') (current ch1)).
  { intros κ' Hk' Hp'. destruct (bit_at κ' d) eqn:Hb'.
    - eapply region_prefix; [|exact Hreg1]. apply prefix_S_iff. by rewrite Hp1, Hp', Hb1, Hb'.
    - eapply region_prefix; [|eapply region_ext; [exact Hreg0|]].
      + apply prefix_S_iff. by rewrite Hp0, Hp', Hb0, Hb'.
      + intros bk Hbk. apply Hfr1. eapply inside_disjoint; [|exact Hbk]. congruence. }
  assert (Htop : current ch1 (branch_key d κ) = current ch (branch_key d κ)).
  { rewrite Hfr1, Hfr0 by apply inside_above. done. }
  rewrite <- Htop in Hex.
  destruct (join_step d κ L' ch1 ex Hd Hκ (at_node_updated d κ us M Hus Hp HM) Hall Hex) as [Hreg Hfr].
  assert (Hsub : subtree (256 - d) L' = (merged_node (subtree n (half d false L')) (subtree n (half d true L')) d).1).
  { replace (256 - d)%nat with (S n) by lia. rewrite subtree_S. by replace (DEPTH - S n)%nat with d by (unfold DEPTH; lia). }
  eexists. split; [|split; [exact Hreg|]].
  - unfold merge_children. replace (d =? DEPTH - 1)%nat with false by (symmetry; apply Nat.eqb_neq; unfold DEPTH; lia).
    rewrite (partition_filter us d κ Hus) by (done || lia). rewrite Hrun0. cbn [mbind outcome_bind fst snd]. rewrite Hrun1.
    cbn [mbind outcome_bind fst snd]. rewrite Hsub. reflexivity.
  - intros bk Hbk. rewrite Hfr by done. rewrite Hfr1, Hfr0; [done|..]; intros Hin; apply Hbk; eauto using inside_child.
Qed.
End children.

Lemma updated_single u : updated (batch_map [u]) ∅ =
  if bool_decide (update_leaf u = ZERO_HASH) then ∅ else {[update_key u := update_leaf u]}.
Proof.
  assert (Hb : batch_map [u] = {[update_key u := update_leaf u]}) by apply insert_empty. rewrite Hb.
  apply map_eq. intros k. rewrite updated_lookup. destruct (decide (k = update_key u)) as [->|Hne].
  - rewrite lookup_singleton_eq. case_bool_decide; [by rewrite lookup_empty|by rewrite lookup_singleton_eq].
  - rewrite lookup_singleton_ne, lookup_empty by done. case_bool_decide; [by rewrite lookup_empty|by rewrite lookup_singleton_ne].
Qed.
Lemma leaf_result_single n u : leaf_result (Some u) = subtree n (updated (batch_map [u]) ∅).
Proof.
  rewrite updated_single. cbn [leaf_result]. destruct (decide (update_leaf u = ZERO_HASH)).
  - rewrite bool_decide_false, bool_decide_true by auto. by rewrite subtree_empty.
  - rewrite bool_decide_true, bool_decide_false by auto. by rewrite subtree_single.
Qed.

Lemma leaf_parent_spec κ us rec ch ex :
  key_ok κ → batch_ok us → Forall (λ u, prefix 255 (update_key u) = prefix 255 κ) us →
  let L' := updated (batch_map us) ∅ in
  ex ≠ result_node (subtree 1 L') ∨ current ch (branch_key 255 κ) = result_node (subtree 1 L') →
  ∃ ch', merge_children get_node rec ch (branch_key 255 κ) 255 ex us = Ok (subtree 1 L', ch') ∧
    region 255 κ L' (current ch') ∧ (∀ bk, ¬ inside 255 κ bk → current ch' bk = current ch bk).
Proof.
  intros Hκ Hus Hp L' Hex.
  assert (Hhalf : ∀ b, leaf_result (head (filter (λ u, bit_at (update_key u) 255 = b) us)) = subtree 0 (half 255 b L')).
  { intros b. unfold L'. rewrite <- updated_half, half_empty, <- batch_filter by done.
    destruct (filter _ us) as [|u [|u' vs]] eqn:Hf.
    - assert (Ha : updated (batch_map []) ∅ = ∅) by (apply map_empty; intros k; by rewrite updated_lookup). by rewrite Ha, subtree_empty.
    - apply leaf_result_single.
    - exfalso. assert (Hin : ∀ v, v ∈ u :: u' :: vs → prefix 256 (update_key v) = prefix 255 κ ++ [b] ∧ key_ok (update_key v)).
      { intros v Hv. rewrite <- Hf in Hv. apply list_elem_of_filter in Hv as [Hvb Hv]. rewrite prefix_S, Hvb.
        rewrite Forall_forall in Hp. rewrite Hp by done. split; [done|]. pose proof (bo_keys _ Hus) as Hks. rewrite Forall_forall in Hks. by apply Hks. }
      assert (Hb : batch_ok (u :: u' :: vs)) by (rewrite <- Hf; eapply batch_sublist; [apply sublist_filter|done]).
      apply bo_nodup in Hb. rewrite !fmap_cons in Hb. apply NoDup_cons in Hb as [Hb _]. apply Hb.
      assert (update_key u = update_key u') as ->; [|by left].
      destruct (Hin u) as [E1 K1]; [by left|]. destruct (Hin u') as [E2 K2]; [by right; left|]. apply prefix_inj; [done..|congruence]. }
  exists (record_change ch (branch_key 255 κ) ex (result_node (subtree 1 L'))). split; [|split].
  - unfold merge_children, first_with_bit. rewrite (partition_filter us 255 κ Hus) by (done || lia).
    change (255 =? DEPTH - 1)%nat with true. cbv iota. rewrite !Hhalf, (subtree_S 0). reflexivity.
  - intros e κ' He Hk' Hp'. assert (e = 255%nat) as -> by lia. split; [|done]. intros _.
    rewrite current_record by done. assert (Heq : branch_key 255 κ' = branch_key 255 κ) by (apply branch_key_eq; [lia|done..]).
    rewrite decide_True by done. rewrite on_path_all; [done|]. intros k h Hk. rewrite Hp'.
    eapply at_node_updated; [done|exact Hp|by apply map_Forall_empty|exact Hk].
  - intros bk Hbk. rewrite current_record by done. rewrite decide_False; [done|]. intros ->. apply Hbk.
    exists 255%nat, κ. split_and!; (done || lia).
Qed.

(** A node over one leaf at most is written, nothing below it. *)
Lemma region_write d κ L L' ch ex :
  (d < 256)%nat → key_ok κ → at_node d κ L' → ¬ many L → ¬ many L' → region d κ L (current ch) →
  ex ≠ result_node (subtree (256 - d) L') ∨ current ch (branch_key d κ) = result_node (subtree (256 - d) L') →
  let ch' := record_change ch (branch_key d κ) ex (result_node (subtree (256 - d) L')) in
  region d κ L' (current ch') ∧ (∀ bk, ¬ inside d κ bk → current ch' bk = current ch bk).
Proof.
  intros Hd Hκ HL' Hm Hm' Hr Hex ch'. split.
  - intros e κ' He Hk' Hp. unfold ch'. rewrite current_record by done. split.
    + intros [->|Hmk]; [|destruct Hm'; eapply many_sub; [exact Hmk|apply on_path_sub]].
      rewrite decide_True by (apply branch_key_eq; [lia|done..]). rewrite on_path_all; [done|].
      intros k h Hk. rewrite Hp. by apply HL'.
    + intros Hne _. rewrite decide_False by (intros Heq; apply (f_equal bk_depth) in Heq; cbn in Heq; lia).
      apply (Hr e κ'); [done..|]. intros Hmk. apply Hm. eapply many_sub; [exact Hmk|apply on_path_sub].
  - intros bk Hbk. unfold ch'. rewrite current_record, decide_False; [done| |done]. intros ->. apply Hbk.
    exists d, κ. split_and!; (done || lia).
Qed.

Lemma tail_spec n d κ us M ch ex :
  S n = (256 - d)%nat → (d < 256)%nat → subtree_correct n → key_ok κ → batch_ok us →
  Forall (λ u, prefix d (update_key u) = prefix d κ) us → at_node d κ M → no_siblings M →
  M = ∅ ∨ removes_live (batch_map us) M → (d = 255%nat → M = ∅) →
  ((S d < 256)%nat → ∀ κ', key_ok κ' → prefix d κ' = prefix d κ → region (S d) κ' (half d (bit_at κ' d) M) (current ch)) →
  let L' := updated (batch_map us) M in
  ex ≠ result_node (subtree (S n) L') ∨ current ch (branch_key d κ) = result_node (subtree (S n) L') →
  ∃ ch', merge_children get_node (compute_subtree get_node n) ch (branch_key d κ) d ex us = Ok (subtree (S n) L', ch') ∧
    region d κ L' (current ch') ∧ (∀ bk, ¬ inside d κ bk → current ch' bk = current ch bk).
Proof.
  intros Hn Hd IH Hκ Hus Hp HM Hns Hlive H255 Hch L'. destruct (decide (d = 255%nat)) as [->|Hne].
  - unfold L'. rewrite (H255 eq_refl). assert (n = 0%nat) as -> by lia. by apply leaf_parent_spec.
  - rewrite Hn. apply merge_children_spec; try done; try lia. apply Hch. lia.
Qed.

Lemma subtree_none n L : result_node (subtree n L) = None → L = ∅.
Proof.
  intros Hr. destruct (map_cases L) as [->|[(k & h & ->)|Hm]]; [done| |].
  - by rewrite subtree_single in Hr.
  - destruct (subtree_many n L Hm) as (h & Heq). by rewrite Heq in Hr.
Qed.
(** A batch that removes the only leaf and nothing else is a single update. *)
Lemma removes_only us k h : batch_ok us → us ≠ [] → removes_live (batch_map us) {[k := h]} → h ≠ ZERO_HASH →
  updated (batch_map us) {[k := h]} = ∅ → ∃ u, us = [u] ∧ update_key u = k.
Proof.
  intros Hus Hne Hlive Hh Ha.
  assert (Hall : ∀ u, u ∈ us → update_key u = k).
  { intros [uk uh] Hu. apply batch_lookup in Hu; [|done]. assert (Hz := f_equal (λ m, m !! uk) Ha). rewrite updated_lookup, Hu, lookup_empty in Hz.
    case_bool_decide as Hz'; [subst uh|done]. apply Hlive in Hu as [h' [<- _]%lookup_singleton_Some]. done. }
  destruct us as [|u [|u' us]]; [done|exists u; split; [done|apply Hall; by left]|].
  exfalso. apply bo_nodup in Hus. rewrite !fmap_cons in Hus. apply NoDup_cons in Hus as [Hn _]. apply Hn.
  rewrite (Hall u), (Hall u') by (by left || by right; left). by left.
Qed.

Lemma after_expanded us us' k h : batch_map us' = batch_map us ∪ {[k := h]} → h ≠ ZERO_HASH →
  updated (batch_map us') ∅ = updated (batch_map us) {[k := h]}.
Proof.
  intros -> Hh. apply map_eq. intros k'. rewrite !updated_lookup, lookup_union, lookup_empty.
  destruct (decide (k' = k)) as [->|Hne].
  - rewrite lookup_singleton_eq. destruct (batch_map us !! k); cbn; [done|by rewrite bool_decide_false].
  - rewrite lookup_singleton_ne by done. by destruct (batch_map us !! k').
Qed.

Section step.
Context (n d : nat) (Hn : S n = (256 - d)%nat) (Hd : (d < 256)%nat) (IH : subtree_correct n).
Context (κ : Hash) (Hκ : key_ok κ) (us : list LeafUpdate) (Hne : us ≠ []) (Hus : batch_ok us).
Context (Hp : Forall (λ u, prefix d (update_key u) = prefix d κ) us).
Context (L : gmap Hash Hash) (HL : at_node d κ L) (ch : gmap BranchKey (option Node)) (Hr : region d κ L (current ch)).
Abbreviation done_as := (λ run, ∃ ch', run = Ok (subtree (S n) (updated (batch_map us) L), ch') ∧
  region d κ (updated (batch_map us) L) (current ch') ∧ (∀ bk, ¬ inside d κ bk → current ch' bk = current ch bk)).

(** An only update where at most its own leaf is. *)
Lemma step_single u : us = [u] → (L = ∅ ∨ ∃ h, L = {[update_key u := h]}) →
  done_as (Ok (E := E) (leaf_result (Some u), record_change ch (branch_key d κ) (current ch (branch_key d κ))
    (result_node (leaf_result (Some u))))).
Proof.
  intros Hu HLu. assert (Ha : updated (batch_map us) L = updated (batch_map us) ∅).
  { apply map_eq. intros k. rewrite !updated_lookup, lookup_empty, Hu. destruct HLu as [->|(h & ->)]; [by rewrite lookup_empty|].
    assert (Hb : batch_map [u] = {[update_key u := update_leaf u]}) by apply insert_empty. rewrite Hb.
    destruct (decide (k = update_key u)) as [->|]; [by rewrite lookup_singleton_eq|by rewrite !lookup_singleton_ne]. }
  assert (Hm : ¬ many L) by (destruct HLu as [->|(h & ->)]; [apply not_many_empty|apply not_many_single]).
  assert (HL' : at_node d κ (updated (batch_map us) L)) by (by apply at_node_updated).
  rewrite Ha in HL' |- *. rewrite (leaf_result_single (S n)), <- Hu.
  assert (Hm' : ¬ many (updated (batch_map us) ∅)).
  { rewrite Hu, updated_single. case_bool_decide; [apply not_many_empty|apply not_many_single]. }
  eexists. split; [done|]. rewrite Hn. apply (region_write d κ L); try done.
  destruct (decide (current ch (branch_key d κ) = result_node (subtree (256 - d) (updated (batch_map us) ∅)))); auto.
Qed.

Lemma step_tail ex :
  no_siblings L → L = ∅ ∨ removes_live (batch_map us) L → (d = 255%nat → L = ∅) → ex = current ch (branch_key d κ) →
  (L = ∅ ∨ many L) →
  done_as (merge_children get_node (compute_subtree get_node n) ch (branch_key d κ) d ex us).
Proof.
  intros Hns Hlive H255 Hex HLm. apply tail_spec; try done.
  - intros Hd' κ' Hk' Hp'. destruct HLm as [->|Hm].
    + rewrite half_empty. apply (region_few d κ κ' ∅); try done. apply not_many_empty.
    + by apply (region_many d κ).
  - rewrite <- Hex. destruct (decide (ex = result_node (subtree (S n) (updated (batch_map us) L)))); auto.
Qed.

Lemma step_expanded k h :
  L = {[k := h]} → removes_live (batch_map us) L → (∀ u, us = [u] → update_key u ≠ k) →
  done_as (let '(ex, us') := expand_singleton (Some (Collapsed (mk_collapsed k h))) us in
    merge_children get_node (compute_subtree get_node n) ch (branch_key d κ) d ex us').
Proof.
  intros -> Hlive Hsingle. destruct (HL k h) as (Hk & Hkp & Hh); [apply lookup_singleton_eq|].
  destruct (expand_spec us (mk_collapsed k h) Hus Hk) as (us' & -> & Hus' & Hmap & Hin & _). cbn [lane_key collapsed_leaf_hash] in *.
  pose proof (after_expanded us us' k h Hmap Hh) as Ha. rewrite <- Ha.
  assert (Hp' : Forall (λ u, prefix d (update_key u) = prefix d κ) us').
  { rewrite Forall_forall in Hp |- *. intros u [Hu| ->]%Hin; [by apply Hp|done]. }
  apply tail_spec; try done.
  - intros k1 k2 [? Hk1]. by rewrite lookup_empty in Hk1.
  - by left.
  - intros Hd' κ' Hk' Hpk. rewrite half_empty. apply (region_few d κ κ' {[k := h]}); try done. apply not_many_single.
  - left. intros Hnone. symmetry in Hnone. apply subtree_none in Hnone.
    rewrite Ha in Hnone. destruct (removes_only us k h Hus Hne Hlive Hh Hnone) as (u & Hu & Huk). by apply (Hsingle u).
Qed.
End step.

Lemma compute_subtree_spec n : subtree_correct n.
Proof.
  induction n as [|n IH]; intros d κ us L ch Hn Hd Hκ Hne Hus Hp HL Hr Hns Hlive; [lia|].
  assert (Hhd : ∃ u0 us0, us = u0 :: us0) by (destruct us; [done|eauto]). destruct Hhd as (u0 & us0 & Heq).
  assert (Hhead : head us = Some u0) by (by rewrite Heq).
  assert (Hkey : branch_key d (update_key u0) = branch_key d κ).
  { rewrite Heq in Hp, Hus. apply Forall_cons in Hp as [Hp0 _]. destruct Hus as [_ _ Hks]. apply Forall_cons in Hks as [Hk0 _].
    by apply branch_key_eq; [lia|..]. }
  cbn [compute_subtree]. replace (DEPTH - S n)%nat with d by (unfold DEPTH; lia).
  rewrite Hhead. cbn [unwrap mbind outcome_bind]. rewrite Hkey, read_current. cbn [mbind outcome_bind].
  pose proof (region_node d κ L (current ch) Hd Hκ HL Hr) as Hex. rewrite <- Hn in Hex.
  assert (Htail : (d = 255%nat → L = ∅) → (L = ∅ ∨ many L) → ∃ ch',
    merge_children get_node (compute_subtree get_node n) ch (branch_key d κ) d (current ch (branch_key d κ)) us =
      Ok (subtree (S n) (updated (batch_map us) L), ch') ∧ region d κ (updated (batch_map us) L) (current ch') ∧
    (∀ bk, ¬ inside d κ bk → current ch' bk = current ch bk)).
  { intros H255 HLm. by apply step_tail. }
  destruct (map_cases L) as [->|[(k & h & HLk)|Hm]].
  - pose proof (λ u Hu, step_single n d Hn Hd κ Hκ us Hus Hp ∅ HL ch Hr u Hu (or_introl eq_refl)) as Hsingle.
    rewrite Hex, subtree_empty in *. cbn [result_node expand_singleton] in *.
    specialize (Htail (λ _, eq_refl) (or_introl eq_refl)).
    destruct us as [|u [|u' us']]; [done| |exact Htail]. specialize (Hsingle u eq_refl). cbn [leaf_result] in Hsingle.
    destruct (decide (update_leaf u = ZERO_HASH)) as [Hz|Hz].
    + rewrite bool_decide_true by done. rewrite bool_decide_false in Hsingle by auto. cbn [result_node] in Hsingle.
      unfold record_change in Hsingle. by rewrite bool_decide_false in Hsingle by auto.
    + rewrite bool_decide_false by done. rewrite bool_decide_true in Hsingle by auto. exact Hsingle.
  - destruct Hlive as [HLe|Hlive]; [by rewrite HLk in HLe; apply map_non_empty_singleton in HLe|].
    rewrite Hex, HLk, subtree_single in *. cbn [result_node lane_key] in *. rewrite <- HLk in *.
    assert (Hmatch : ∀ u, us = [u] → update_key u = k → ∃ ch', Ok (leaf_result (Some u), record_change ch (branch_key d κ)
        (Some (Collapsed (mk_collapsed k h))) (result_node (leaf_result (Some u)))) =
        Ok (E := E) (subtree (S n) (updated (batch_map us) L), ch') ∧ region d κ (updated (batch_map us) L) (current ch') ∧
      (∀ bk, ¬ inside d κ bk → current ch' bk = current ch bk)).
    { intros u Hu Huk. rewrite <- Hex. apply (step_single n d Hn Hd κ Hκ us Hus Hp L HL ch Hr u Hu). right. exists h. by rewrite Huk. }
    assert (Hexp : (∀ u, us = [u] → update_key u ≠ k) → _) by exact (step_expanded n d Hn Hd IH κ Hκ us Hne Hus Hp L HL ch Hr k h HLk Hlive).
    destruct us as [|u [|u' us']]; [done| |apply Hexp; by intros].
    destruct (decide (update_key u = k)) as [Huk|Huk].
    + rewrite bool_decide_true by done. specialize (Hmatch u eq_refl Huk). cbn [leaf_result] in Hmatch |- *.
      destruct (decide (update_leaf u = ZERO_HASH)).
      * rewrite (bool_decide_true (update_leaf u = _)) by done. rewrite (bool_decide_false (update_leaf u ≠ _)) in Hmatch |- * by auto. exact Hmatch.
      * rewrite (bool_decide_false (update_leaf u = _)) by done. rewrite (bool_decide_true (update_leaf u ≠ _)) in Hmatch |- * by auto. exact Hmatch.
    + rewrite bool_decide_false by done. apply Hexp. intros v [= <-]. done.
  - destruct (subtree_many (S n) L Hm) as (h & Hi).
    rewrite Hex, Hi in *. cbn [result_node expand_singleton] in *.
    assert (H255 : d = 255%nat → L = ∅) by (intros Hd'; by destruct (no_siblings_few d κ L Hd' HL Hns)).
    specialize (Htail H255 (or_intror Hm)). destruct us as [|u [|u' us']]; [done|exact Htail..].
Qed.
End update_spec.

(** ** The update of a store *)

(** A set of leaves: hashes as keys, no zero leaf. *)
Definition leaves_ok (L : gmap Hash Hash) : Prop := map_Forall (λ k h, key_ok k ∧ h ≠ ZERO_HASH) L.
(** The nodes of [L], and nothing else, are stored. *)
Definition represents (nodes : gmap BranchKey Node) (L : gmap Hash Hash) : Prop :=
  leaves_ok L ∧ region 0 ZERO_HASH L (λ bk, nodes !! bk).

Lemma zero_key_ok : key_ok ZERO_HASH.
Proof. by_decide. Qed.
Lemma leaves_at_root L : leaves_ok L ↔ at_node 0 ZERO_HASH L.
Proof. split; intros HL k h Hk; destruct (HL k h Hk) as (? & ?); [done|by destruct_and!]. Qed.
Lemma represents_empty : represents ∅ ∅.
Proof.
  split; [by apply map_Forall_empty|]. intros e κ He Hk _. assert (Ho : ∀ i, on_path i κ ∅ = ∅) by (intros i; apply map_filter_empty).
  rewrite Ho, subtree_empty, lookup_empty. done.
Qed.

Lemma root_of_empty : root_of ∅ = empty_hash DEPTH.
Proof. unfold root_of. by rewrite subtree_empty. Qed.
Lemma no_siblings_empty : no_siblings ∅.
Proof. intros k k' [h Hk]. by rewrite lookup_empty in Hk. Qed.

Lemma update_spec {E : Type} (get_node : BranchKey → outcome E (option Node)) nodes L us :
  (∀ bk, get_node bk = Ok (nodes !! bk)) → represents nodes L → batch_ok us → no_siblings L →
  L = ∅ ∨ removes_live (batch_map us) L →
  ∃ changes, compute_root_update get_node (root_of L) us = Ok (root_of (updated (batch_map us) L), changes) ∧
    represents (write_changes nodes changes) (updated (batch_map us) L).
Proof.
  intros Hget [HL Hr] Hus Hns Hlive. apply leaves_at_root in HL.
  assert (Hcur : ∀ changes bk, write_changes nodes changes !! bk = current nodes changes bk).
  { intros changes bk. unfold write_changes, current. rewrite lookup_merge. by destruct (changes !! bk), (nodes !! bk). }
  destruct (decide (us = [])) as [->|Hne].
  - exists ∅. assert (Ha : updated (batch_map []) L = L) by (apply map_eq; intros k; by rewrite updated_lookup).
    rewrite Ha. split; [done|]. split; [by apply leaves_at_root|]. eapply region_ext; [exact Hr|]. intros bk _. rewrite Hcur.
    unfold current. by rewrite lookup_empty.
  - assert (Hr0 : region 0 ZERO_HASH L (current nodes ∅)).
    { eapply region_ext; [exact Hr|]. intros bk _. unfold current. by rewrite lookup_empty. }
    assert (Hall : Forall (λ u, prefix 0 (update_key u) = prefix 0 ZERO_HASH) us) by (apply Forall_forall; by intros).
    destruct (compute_subtree_spec nodes get_node Hget DEPTH 0%nat ZERO_HASH us L ∅ eq_refl ltac:(lia) zero_key_ok Hne Hus Hall HL
      Hr0 Hns Hlive) as (ch & Hrun & Hreg & _).
    exists ch. split.
    + unfold compute_root_update, root_of. destruct us; [by destruct Hne|]. rewrite Hrun. cbn [mbind outcome_bind fst snd]. reflexivity.
    + split; [by apply leaves_at_root, at_node_updated|].
      eapply region_ext; [exact Hreg|]. intros bk _. apply Hcur.
Qed.

(** (C8) The sparse Merkle tree computes the root of a set of leaves: on a store that holds the
    nodes of the leaves [L] (of the keys of which no two differ in the last bit alone), a
    sorted batch that removes only leaves that are there, or any batch on an empty tree,
    [compute_root_update] returns the root of the updated set, a function of that set
    alone, and the changes it returns turn the store into one that holds exactly the
    nodes of the updated set, so the next batch can start from it: no stale node is left
    under a collapsed one. *)
Theorem smt_update_refines {E : Type} (get_node : BranchKey → outcome E (option Node)) nodes L us :
  (∀ bk, get_node bk = Ok (nodes !! bk)) → represents nodes L → batch_ok us → no_siblings L →
  L = ∅ ∨ removes_live (batch_map us) L →
  ∃ changes, compute_root_update get_node (root_of L) us = Ok (root_of (updated (batch_map us) L), changes) ∧
    represents (write_changes nodes changes) (updated (batch_map us) L).
Proof. apply update_spec. Qed.
End reference.

(** ** A concrete hash, and where the update goes wrong *)
Definition mix (tag : Z) (b : list Z) : Hash :=
  tag :: zip_with Z.lxor (take 31 b) (tail (drop 31 b)).
#[local] Instance mix_hashers : SmtHasher := {| SmtNodeHash := mix 1; SmtCollapsedHash := mix 2 |}.
Definition smt_key (b : Z) : Hash := b :: replicate 31 0.
Definition smt_leaf (b : Z) : Hash := replicate 32 b.

(** A tree of three leaves, and a batch that removes one, changes one and adds one. *)
Definition first_batch : list LeafUpdate :=
  [mk_update (smt_key 1) (smt_leaf 1); mk_update (smt_key 3) (smt_leaf 3); mk_update (smt_key 130) (smt_leaf 2)].
Definition second_batch : list LeafUpdate :=
  [mk_update (smt_key 1) ZERO_HASH; mk_update (smt_key 7) (smt_leaf 7); mk_update (smt_key 130) (smt_leaf 9)].
Definition three_leaves : gmap Hash Hash := updated (batch_map first_batch) ∅.

Lemma smt_update_refines_witness :
  ∃ nodes changes, represents nodes three_leaves ∧
    compute_root_update (E := unit) (λ bk, Ok (nodes !! bk)) (root_of three_leaves) second_batch =
      Ok (root_of {[smt_key 3 := smt_leaf 3; smt_key 7 := smt_leaf 7; smt_key 130 := smt_leaf 9]}, changes) ∧
    represents (write_changes nodes changes) {[smt_key 3 := smt_leaf 3; smt_key 7 := smt_leaf 7; smt_key 130 := smt_leaf 9]}.
Proof.
  destruct (update_spec (E := unit) (λ bk, Ok ((∅ : gmap BranchKey Node) !! bk)) ∅ ∅ first_batch) as (ch & _ & Hr);
    [done|apply represents_empty|split; [repeat constructor|by_decide|by_decide]|apply no_siblings_empty|by left|].
  fold three_leaves in Hr. exists (write_changes ∅ ch).
  destruct (smt_update_refines (E := unit) (λ bk, Ok (write_changes ∅ ch !! bk)) (write_changes ∅ ch) three_leaves second_batch)
    as (ch' & Hrun & Hr').
  - intros bk. reflexivity.
  - exact Hr.
  - split; [repeat constructor|by_decide|by_decide].
  - apply no_siblings_forall. by_decide.
  - right. apply removes_live_forall. by_decide.
  - assert (Hl : updated (batch_map second_batch) three_leaves = {[smt_key 3 := smt_leaf 3; smt_key 7 := smt_leaf 7; smt_key 130 := smt_leaf 9]}) by by_decide.
    rewrite Hl in Hrun, Hr'. exists ch'. split; [exact Hr|]. split; [exact Hrun|exact Hr'].
Defined.

(** Batches in a row on a store that starts empty: the root after each. *)
Fixpoint run_batches (nodes : gmap BranchKey Node) (root : Hash) (batches : list (list LeafUpdate)) : outcome unit (list Hash) :=
  match batches with
  | [] => Ok []
  | us :: batches =>
      r ← compute_root_update (λ bk, Ok (nodes !! bk)) root us;
      rs ← run_batches (write_changes nodes r.2) r.1 batches;
      Ok (r.1 :: rs)
  end.
Definition last_bit_key (b : Z) : Hash := replicate 31 0 ++ [b].

(** Where the update goes wrong, outside the hypotheses of the refinement.  A batch that
    removes the only leaf of a subtree together with a key that is not there returns the
    root of the empty set and leaves the collapsed node in the store; the next batch
    brings the removed leaf back.  And of two leaves whose keys differ in the last bit
    alone, an update of one loses the other. *)
Theorem smt_removed_leaf_returns :
  run_batches ∅ (empty_hash DEPTH)
    [[mk_update (smt_key 1) (smt_leaf 1)]; [mk_update (smt_key 1) ZERO_HASH; mk_update (smt_key 2) ZERO_HASH];
     [mk_update (smt_key 128) (smt_leaf 3)]] =
  Ok [root_of {[smt_key 1 := smt_leaf 1]}; root_of ∅; root_of {[smt_key 1 := smt_leaf 1; smt_key 128 := smt_leaf 3]}] ∧
  root_of {[smt_key 1 := smt_leaf 1; smt_key 128 := smt_leaf 3]} ≠ root_of {[smt_key 128 := smt_leaf 3]} ∧
  run_batches ∅ (empty_hash DEPTH)
    [[mk_update (last_bit_key 0) (smt_leaf 1); mk_update (last_bit_key 1) (smt_leaf 2)]; [mk_update (last_bit_key 0) (smt_leaf 3)]] =
  Ok [root_of {[last_bit_key 0 := smt_leaf 1; last_bit_key 1 := smt_leaf 2]}; root_of {[last_bit_key 0 := smt_leaf 3]}] ∧
  root_of {[last_bit_key 0 := smt_leaf 3]} ≠ root_of {[last_bit_key 0 := smt_leaf 3; last_bit_key 1 := smt_leaf 2]}.
Proof. split_and!; [vm_compute; reflexivity|by_decide|vm_compute; reflexivity|by_decide]. Qed.
