(* ===== verification/Dag.v ===== *)
(** * The block DAG: GHOSTDAG data, block order and mergesets

    [consensus/src/model/stores/ghostdag.rs] (the data of a block and the orders of its
    mergeset), [processes/ghostdag/ordering.rs] (blocks by blue work, then hash) and
    [processes/ghostdag/mergeset.rs] (the breadth-first search for the mergeset).  The
    reachability service is an interface: the theorems assume that its answers are the
    ancestor relation of the parent links.  They state that the merged iterators neither
    panic nor lose a block, and that the search terminates with exactly the blocks in the
    past of the parents that are not in the past of the selected parent. *)

From S2P Require Import Prelude Transaction.

(** ** [blockhash.rs] *)
Definition NONE : Hash := replicate 32 0.
Definition ORIGIN : Hash := replicate 32 0xfe.
Definition is_none (h : Hash) : bool := bool_decide (h = NONE).
Definition is_origin (h : Hash) : bool := bool_decide (h = ORIGIN).

(** ** [u16] ([KType]) *)
Definition u16_add {E : Type} (a b : Z) : outcome E Z := if a + b <? 2 ^ 16 then Ok (a + b) else Panic.

Lemma u16_add_total {E : Type} a b : a + b < 2 ^ 16 → u16_add (E := E) a b = Ok (a + b).
Proof. intros Hlt. unfold u16_add. by rewrite (proj2 (Z.ltb_lt _ _)). Qed.

(** ** GHOSTDAG data *)
Record GhostdagData := mk_ghostdag {
  gd_blue_score : Z;
  gd_blue_work : Z;
  selected_parent : Hash;
  mergeset_blues : list Hash;
  mergeset_reds : list Hash;
  blues_anticone_sizes : gmap Hash Z }.

Definition new_with_selected_parent (sp : Hash) : GhostdagData :=
  mk_ghostdag 0 0 sp [sp] [] {[ sp := 0 ]}.
Definition mergeset_size (self : GhostdagData) : nat :=
  (length (mergeset_blues self) + length (mergeset_reds self))%nat.
Definition unordered_mergeset_data (self : GhostdagData) : list Hash :=
  mergeset_blues self ++ mergeset_reds self.
Definition unordered_mergeset_data_without_selected_parent (self : GhostdagData) : list Hash :=
  drop 1 (mergeset_blues self) ++ mergeset_reds self.

Definition bump_sizes {E : Type} (sizes : gmap Hash Z) (l : list (Hash * Z)) : outcome E (gmap Hash Z) :=
  try_fold (λ m bs, s ← u16_add bs.2 1; Ok (<[bs.1 := s]> m)) sizes l.
Definition add_blue {E : Type} (self : GhostdagData) (block : Hash) (blue_anticone_size : Z)
    (block_blues_anticone_sizes : gmap Hash Z) : outcome E GhostdagData :=
  sizes ← bump_sizes (<[block := blue_anticone_size]> (blues_anticone_sizes self))
            (map_to_list block_blues_anticone_sizes);
  Ok (mk_ghostdag (gd_blue_score self) (gd_blue_work self) (selected_parent self)
        (mergeset_blues self ++ [block]) (mergeset_reds self) sizes).
Definition add_red_block (self : GhostdagData) (block : Hash) : GhostdagData :=
  mk_ghostdag (gd_blue_score self) (gd_blue_work self) (selected_parent self)
    (mergeset_blues self) (mergeset_reds self ++ [block]) (blues_anticone_sizes self).
Definition finalize_score_and_work (self : GhostdagData) (blue_score blue_work : Z) : GhostdagData :=
  mk_ghostdag blue_score blue_work (selected_parent self) (mergeset_blues self) (mergeset_reds self)
    (blues_anticone_sizes self).

(** ** Block order *)
Record SortableBlock := mk_sortable { sb_hash : Hash; sb_blue_work : Z }.
#[global] Instance SortableBlock_eq_dec : EqDecision SortableBlock.
Proof. solve_decision. Defined.
(** [Ord::cmp] on hashes. *)
Definition hash_cmp (a b : Hash) : comparison :=
  if bytes_leb a b then (if bytes_leb b a then Eq else Lt) else Gt.
Definition sortable_cmp (a b : SortableBlock) : comparison :=
  match sb_blue_work a ?= sb_blue_work b with
  | Eq => hash_cmp (sb_hash a) (sb_hash b)
  | c => c
  end.
Definition sortable_le (a b : SortableBlock) : Prop := sortable_cmp a b ≠ Gt.
#[global] Instance sortable_le_dec : RelDecision sortable_le.
Proof. intros a b. unfold sortable_le. apply _. Defined.

Abbreviation GhostdagStore := (gmap Hash GhostdagData) (only parsing).
Definition get_blue_work (store : GhostdagStore) (h : Hash) : option Z := gd_blue_work <$> store !! h.
Definition get_blue_score (store : GhostdagStore) (h : Hash) : option Z := gd_blue_score <$> store !! h.
Definition sortable {E : Type} (store : GhostdagStore) (h : Hash) : outcome E SortableBlock :=
  w ← unwrap (get_blue_work store h); Ok (mk_sortable h w).

Definition sort_blocks {E : Type} (store : GhostdagStore) (blocks : list Hash) : outcome E (list Hash) :=
  sorted ← try_map (sortable store) blocks;
  Ok (sb_hash <$> merge_sort sortable_le sorted).

(** [merge_join_by] and the [panic!] on equal blocks. *)
Fixpoint merge_join {E : Type} (cmp : SortableBlock → SortableBlock → comparison) (l1 : list SortableBlock)
    : list SortableBlock → outcome E (list SortableBlock) :=
  fix aux (l2 : list SortableBlock) :=
    match l1, l2 with
    | [], _ => Ok l2
    | _, [] => Ok l1
    | a :: l1', b :: l2' =>
        match cmp a b with
        | Lt => r ← merge_join cmp l1' l2; Ok (a :: r)
        | Gt => r ← aux l2'; Ok (b :: r)
        | Eq => Panic
        end
    end.

Definition ascending_mergeset_without_selected_parent {E : Type} (self : GhostdagData) (store : GhostdagStore)
    : outcome E (list SortableBlock) :=
  blues ← try_map (sortable store) (drop 1 (mergeset_blues self));
  reds ← try_map (sortable store) (mergeset_reds self);
  merge_join sortable_cmp blues reds.
Definition descending_mergeset_without_selected_parent {E : Type} (self : GhostdagData) (store : GhostdagStore)
    : outcome E (list SortableBlock) :=
  blues ← try_map (sortable store) (reverse (drop 1 (mergeset_blues self)));
  reds ← try_map (sortable store) (reverse (mergeset_reds self));
  merge_join (λ a b, sortable_cmp b a) blues reds.
Definition consensus_ordered_mergeset_without_selected_parent {E : Type} (self : GhostdagData)
    (store : GhostdagStore) : outcome E (list Hash) :=
  l ← ascending_mergeset_without_selected_parent self store; Ok (map sb_hash l).
Definition consensus_ordered_mergeset {E : Type} (self : GhostdagData) (store : GhostdagStore)
    : outcome E (list Hash) :=
  l ← consensus_ordered_mergeset_without_selected_parent self store; Ok (selected_parent self :: l).

(** ** Reachability and relations *)

(** [model/services/reachability.rs]: what GHOSTDAG asks of the reachability service. *)
Class ReachabilityService := { is_dag_ancestor_of : Hash → Hash → bool }.

Section mergeset.
Context `{ReachabilityService} (relations : gmap Hash (list Hash)).

(** The body of the loop over the parents of a block taken from the queue. *)
Definition visit_parent (sp : Hash) (st : list Hash * gset Hash * gset Hash) (parent : Hash)
    : list Hash * gset Hash * gset Hash :=
  let '(queue, mergeset, past) := st in
  if bool_decide (parent ∈ mergeset) || bool_decide (parent ∈ past) then st else
  if is_dag_ancestor_of parent sp then (queue, mergeset, {[parent]} ∪ past) else
  (queue ++ [parent], {[parent]} ∪ mergeset, past).

(** The queue loop, one iteration per unit of [fuel]. *)
Fixpoint mergeset_loop {E : Type} (fuel : nat) (sp : Hash) (st : list Hash * gset Hash * gset Hash)
    : outcome E (gset Hash) :=
  let '(queue, mergeset, past) := st in
  match queue, fuel with
  | [], _ => Ok mergeset
  | _, O => Panic
  | current :: queue, S fuel =>
      current_parents ← unwrap (relations !! current);
      mergeset_loop fuel sp (foldl (visit_parent sp) (queue, mergeset, past) current_parents)
  end.
(** A block enters the queue once, so the number of known blocks bounds the iterations. *)
Definition unordered_mergeset_without_selected_parent {E : Type} (sp : Hash) (parents : list Hash)
    : outcome E (gset Hash) :=
  let queue := filter (λ p, p ≠ sp) parents in
  mergeset_loop (size relations) sp (queue, list_to_set queue, ∅).
Definition ordered_mergeset_without_selected_parent {E : Type} (store : GhostdagStore) (sp : Hash)
    (parents : list Hash) : outcome E (list Hash) :=
  ms ← unordered_mergeset_without_selected_parent sp parents;
  sort_blocks store (elements ms).
End mergeset.

(** ** The block order is a total order *)
Lemma hash_cmp_Eq a b : hash_cmp a b = Eq ↔ a = b.
Proof.
  unfold hash_cmp. split; [|intros ->; by destruct (total bytes_le b b) as [-> | ->]].
  destruct (bytes_leb a b) eqn:Hab; [|done]. destruct (bytes_leb b a) eqn:Hba; [|done].
  intros _. by apply (anti_symm bytes_le).
Qed.
Lemma hash_cmp_Gt a b : hash_cmp a b = Gt ↔ ¬ bytes_le a b.
Proof. unfold hash_cmp, bytes_le. destruct (bytes_leb a b), (bytes_leb b a); naive_solver. Qed.
Lemma sortable_le_iff a b :
  sortable_le a b ↔ sb_blue_work a < sb_blue_work b ∨
    sb_blue_work a = sb_blue_work b ∧ bytes_le (sb_hash a) (sb_hash b).
Proof.
  unfold sortable_le, sortable_cmp. destruct (Z.compare_spec (sb_blue_work a) (sb_blue_work b)) as [Heq|Hlt|Hgt].
  - rewrite hash_cmp_Gt. split; [|by intros [?|[_ ?]]; [lia|intros ?]]. intros Hn. right. split; [done|].
    by destruct (decide (bytes_le (sb_hash a) (sb_hash b))).
  - split; [by left|done].
  - split; [done|]. intros [?|[? _]]; lia.
Qed.
#[global] Instance sortable_le_total : Total sortable_le.
Proof.
  intros a b. rewrite !sortable_le_iff.
  destruct (Z.lt_trichotomy (sb_blue_work a) (sb_blue_work b)) as [?|[?|?]]; [by left; left| |by right; left].
  destruct (total bytes_le (sb_hash a) (sb_hash b)); [left|right]; right; by split.
Qed.
#[global] Instance sortable_le_trans : Transitive sortable_le.
Proof.
  intros a b c. rewrite !sortable_le_iff. intros [?|[? ?]] [?|[? ?]]; [lia..|].
  right. split; [lia|]. by etransitivity.
Qed.
Lemma sortable_cmp_Eq a b : sortable_cmp a b = Eq → sb_hash a = sb_hash b.
Proof. unfold sortable_cmp. destruct (_ ?= _); [|done|done]. apply hash_cmp_Eq. Qed.
Lemma sortable_cmp_Lt a b : sortable_cmp a b = Lt → sortable_le a b.
Proof. unfold sortable_le. by intros ->. Qed.
Lemma sortable_cmp_Gt a b : sortable_cmp a b = Gt → sortable_le b a.
Proof.
  intros Hgt. destruct (total sortable_le a b) as [Hle|?]; [|done]. by destruct Hle.
Qed.

(** ** The merged iterators *)
Lemma merge_join_sorted {E : Type} l1 l2 :
  StronglySorted sortable_le l1 → StronglySorted sortable_le l2 →
  (∀ a b, a ∈ l1 → b ∈ l2 → sb_hash a ≠ sb_hash b) →
  ∃ l, merge_join (E := E) sortable_cmp l1 l2 = Ok l ∧ l ≡ₚ l1 ++ l2 ∧ StronglySorted sortable_le l.
Proof.
  intros H1. revert l2. induction H1 as [|a l1 Hs1 IH1 Ha]; intros l2 H2 Hd; [destruct l2; by eexists|].
  induction H2 as [|b l2 Hs2 IH2 Hb]; [exists (a :: l1); rewrite app_nil_r; split; [done|]; split; [done|by constructor]|].
  cbn [merge_join]. destruct (sortable_cmp a b) eqn:Hc.
  - exfalso. apply (Hd a b); [by left|by left|by apply sortable_cmp_Eq].
  - destruct (IH1 (b :: l2)) as (l & Hl & Hp & Hs); [by constructor|intros; apply Hd; [by right|done]|].
    rewrite Hl. cbn [mbind outcome_bind]. exists (a :: l). split; [done|]. split; [by rewrite Hp|].
    constructor; [done|]. rewrite Hp, Forall_app, Forall_cons. split; [done|].
    apply sortable_cmp_Lt in Hc. split; [done|]. eapply Forall_impl; [exact Hb|]. intros c ?. by transitivity b.
  - destruct IH2 as (l & Hl & Hp & Hs); [intros; apply Hd; [done|by right]|]. cbn [merge_join] in Hl.
    match goal with |- ∃ _, (?x ≫= _) = _ ∧ _ => change x with (merge_join (E := E) sortable_cmp (a :: l1) l2) end.
    assert (Hl' : merge_join (E := E) sortable_cmp (a :: l1) l2 = Ok l) by exact Hl.
    rewrite Hl'. cbn [mbind outcome_bind]. exists (b :: l). split; [done|].
    split; [rewrite Hp; by rewrite <- Permutation_middle|].
    constructor; [done|]. rewrite Hp, Forall_app. apply sortable_cmp_Gt in Hc. split; [|done].
    constructor; [done|]. eapply Forall_impl; [exact Ha|]. intros c ?. by transitivity a.
Qed.

Lemma try_map_Ok {E A B : Type} (f : A → outcome E B) (g : A → B) l :
  (∀ a, a ∈ l → f a = Ok (g a)) → try_map f l = Ok (g <$> l).
Proof.
  induction l as [|a l IH]; intros Hf; [done|]. cbn [try_map]. rewrite Hf by (by left). cbn [mbind outcome_bind].
  rewrite IH by (intros; apply Hf; by right). done.
Qed.

(** ** The search for the mergeset *)
Section search.
Context `{ReachabilityService} (relations : gmap Hash (list Hash)).
Definition parent_of (x y : Hash) : Prop := ∃ ps, (relations !! y = Some ps) ∧ x ∈ ps.
Definition ancestor : Hash → Hash → Prop := rtc parent_of.
Definition known (x : Hash) : Prop := is_Some (relations !! x).

(** Parents are known, and reachability answers the ancestor relation. *)
Record dag_ok : Prop := {
  dag_closed : ∀ x y, parent_of x y → known x;
  dag_reach : ∀ x y, known x → known y → is_dag_ancestor_of x y = true ↔ ancestor x y }.

Context (Hdag : dag_ok).

Lemma ancestor_known x y : ancestor x y → known y → known x.
Proof. induction 1 as [|x y z Hxy _ IH]; [done|]. intros _. by eapply dag_closed. Qed.

Section merge.
Context (sp : Hash) (parents : list Hash).
Definition merged (x : Hash) : Prop := (∃ p, p ∈ parents ∧ ancestor x p) ∧ ¬ ancestor x sp.

(** What holds during the search: [taken] are the blocks taken from the queue, [closed]
    those of them whose parents have all been visited. *)
Record search_inv (taken closed : gset Hash) (st : list Hash * gset Hash * gset Hash) : Prop := {
  si_queue : NoDup st.1.1;
  si_split : st.1.2 = taken ∪ list_to_set st.1.1;
  si_disjoint : ∀ x, x ∈ st.1.1 → x ∉ taken;
  si_merged : ∀ x, x ∈ st.1.2 → known x ∧ merged x;
  si_past : ∀ x, x ∈ st.2 → ancestor x sp;
  si_closed : ∀ x y, x ∈ closed → parent_of y x → y ∈ st.1.2 ∨ ancestor y sp;
  si_start : ∀ p, p ∈ parents → p ≠ sp → p ∈ st.1.2 }.

Context (Hsp : known sp).

Lemma visit_parent_inv taken closed st y :
  search_inv taken closed st → known y → (∃ p, p ∈ parents ∧ ancestor y p) →
  search_inv taken closed (visit_parent sp st y) ∧
  st.1.2 ⊆ (visit_parent sp st y).1.2 ∧ (y ∈ (visit_parent sp st y).1.2 ∨ ancestor y sp).
Proof.
  intros [Hq Hs Hd Hm Hp Hc Ht] Hy Hanc. destruct st as [[queue ms] past]. cbn [fst snd] in *. unfold visit_parent.
  destruct (bool_decide (y ∈ ms)) eqn:Hms; [apply bool_decide_eq_true in Hms; cbn [orb]; split; [done|]; split; [done|by left]|].
  destruct (bool_decide (y ∈ past)) eqn:Hpa; [apply bool_decide_eq_true in Hpa; cbn [orb]; split; [done|]; split; [done|right; by apply Hp]|].
  apply bool_decide_eq_false in Hms, Hpa. cbn [orb]. destruct (is_dag_ancestor_of y sp) eqn:Hr.
  - apply dag_reach in Hr; [|done..]. split; [|split; [done|by right]]. split; cbn [fst snd]; try done.
    intros x [->%elem_of_singleton|?]%elem_of_union; [done|by apply Hp].
  - assert (Hn : ¬ ancestor y sp) by (intros Ha; apply dag_reach in Ha; [|done..]; congruence).
    assert (Hnq : (y ∉ queue) ∧ y ∉ taken) by (rewrite Hs in Hms; set_solver).
    split; [|split; cbn [fst snd]; [set_solver|left; set_solver]]. split; cbn [fst snd].
    + apply NoDup_app. split; [done|]. split; [set_solver|apply NoDup_singleton].
    + rewrite Hs, list_to_set_app_L. set_solver.
    + intros x [?| ->%list_elem_of_singleton]%elem_of_app; [by apply Hd|tauto].
    + intros x [->%elem_of_singleton|?]%elem_of_union; [by split|by apply Hm].
    + done.
    + intros x z Hx Hz. destruct (Hc x z Hx Hz); [left; set_solver|by right].
    + intros p ? ?. apply elem_of_union_r. by apply Ht.
Qed.

Lemma visit_parents_inv taken closed st ys :
  search_inv taken closed st → Forall (λ y, known y ∧ ∃ p, p ∈ parents ∧ ancestor y p) ys →
  search_inv taken closed (foldl (visit_parent sp) st ys) ∧
  st.1.2 ⊆ (foldl (visit_parent sp) st ys).1.2 ∧
  ∀ y, y ∈ ys → y ∈ (foldl (visit_parent sp) st ys).1.2 ∨ ancestor y sp.
Proof.
  intros Hst Hys. revert st Hst. induction Hys as [|y ys [Hy Hanc] _ IH]; intros st Hst; cbn [foldl].
  { split; [done|]. split; [done|]. by intros y ?%elem_of_nil. }
  destruct (visit_parent_inv taken closed st y Hst Hy Hanc) as (Hst' & Hsub & Hyin).
  destruct (IH _ Hst') as (H1 & H2 & H3). split; [done|]. split; [set_solver|].
  intros z [->|Hz]%elem_of_cons; [|by apply H3]. destruct Hyin; [left; set_solver|by right].
Qed.

(** Taking the head of the queue and visiting its parents. *)
Lemma search_step taken x queue ms past ps :
  search_inv taken taken (x :: queue, ms, past) → relations !! x = Some ps →
  search_inv ({[x]} ∪ taken) ({[x]} ∪ taken) (foldl (visit_parent sp) (queue, ms, past) ps).
Proof.
  intros Hi Hps. pose proof Hi as [Hq Hs Hd Hm Hp Hc Ht]. cbn [fst snd] in *. apply NoDup_cons in Hq as [Hxq Hq].
  destruct (Hm x) as [Hkx [(p & Hpp & Hxp) Hnx]]; [rewrite Hs; set_solver|].
  assert (Hmid : search_inv ({[x]} ∪ taken) taken (queue, ms, past)).
  { split; cbn [fst snd]; try done; [rewrite Hs; set_solver|].
    intros y Hy. assert (y ∉ taken) by (apply Hd; by right). set_solver. }
  assert (Hpar : ∀ y, y ∈ ps → parent_of y x) by (intros y ?; by exists ps).
  destruct (visit_parents_inv _ _ _ ps Hmid) as (Hf & Hsub & Hin).
  { apply Forall_forall. intros y Hy. split; [by eapply dag_closed, Hpar|]. exists p. split; [done|].
    by eapply rtc_l, Hxp; apply Hpar. }
  destruct Hf as [Hq' Hs' Hd' Hm' Hp' Hc' Ht']. split; try done.
  intros z y [->%elem_of_singleton|Hz]%elem_of_union Hyz; [|by eapply Hc'].
  destruct Hyz as (ps' & Hps' & Hy). apply Hin. congruence.
Qed.

Lemma search_room taken x queue ms past :
  search_inv taken taken (x :: queue, ms, past) →
  known x ∧ (size taken < size relations)%nat ∧ size ({[x]} ∪ taken) = S (size taken).
Proof.
  intros Hi. assert (Hx : known x) by (apply (si_merged _ _ _ Hi); rewrite (si_split _ _ _ Hi); set_solver).
  assert (Hnx : x ∉ taken) by (apply (si_disjoint _ _ _ Hi); by left).
  assert (Hsize : size ({[x]} ∪ taken) = S (size taken)) by (rewrite size_union, size_singleton by set_solver; done).
  split; [done|]. split; [|done]. apply Nat.lt_le_trans with (size ({[x]} ∪ taken)); [lia|].
  rewrite <- (size_dom relations). apply subseteq_size. intros y Hy. apply elem_of_dom.
  apply elem_of_union in Hy as [->%elem_of_singleton|Hy]; [done|].
  apply (si_merged _ _ _ Hi). rewrite (si_split _ _ _ Hi). set_solver.
Qed.

Lemma search_loop {E : Type} fuel taken st :
  search_inv taken taken st → (size relations ≤ fuel + size taken)%nat →
  ∃ ms past, mergeset_loop (E := E) relations fuel sp st = Ok ms ∧ search_inv ms ms ([], ms, past).
Proof.
  assert (Hend : ∀ t m pa, search_inv t t ([], m, pa) → m = t) by (intros t m pa Hi; pose proof (si_split _ _ _ Hi); set_solver).
  revert taken st. induction fuel as [|fuel IH]; intros taken [[[|x queue] ms] past] Hi Hfuel; cbn [mergeset_loop].
  - pose proof (Hend _ _ _ Hi) as ->. by exists taken, past.
  - apply search_room in Hi as (_ & ? & _). lia.
  - pose proof (Hend _ _ _ Hi) as ->. by exists taken, past.
  - destruct (search_room _ _ _ _ _ Hi) as ([ps Hps] & _ & Hsize). rewrite Hps. cbn [unwrap mbind outcome_bind].
    eapply IH; [by apply search_step|]. rewrite Hsize. lia.
Qed.

Lemma search_complete ms past :
  search_inv ms ms ([], ms, past) → ∀ x, x ∈ ms ↔ merged x.
Proof.
  intros Hi x. split; [by intros Hx; apply (si_merged _ _ _ Hi)|]. intros [(p & Hp & Hanc) Hn].
  induction Hanc as [p|x y p Hxy Hyp IH].
  - apply (si_start _ _ _ Hi); [done|]. intros ->. by apply Hn.
  - assert (Hny : ¬ ancestor y sp) by (intros Ha; apply Hn; by eapply rtc_l).
    destruct (si_closed _ _ _ Hi y x) as [?|?]; [by apply IH|done|done|by destruct Hn].
Qed.
End merge.

Lemma mergeset_spec {E : Type} sp parents :
  known sp → NoDup parents → Forall known parents →
  (∀ p, p ∈ parents → p ≠ sp → ¬ ancestor p sp) →
  ∃ ms, unordered_mergeset_without_selected_parent (E := E) relations sp parents = Ok ms ∧
    ∀ x, x ∈ ms ↔ merged sp parents x.
Proof.
  intros Hsp Hnd Hk Hanti. rewrite Forall_forall in Hk. unfold unordered_mergeset_without_selected_parent.
  set (queue := filter _ _).
  assert (Hq : ∀ p, p ∈ queue ↔ p ≠ sp ∧ p ∈ parents) by (intros p; subst queue; by rewrite list_elem_of_filter).
  destruct (search_loop (E := E) sp parents Hsp (size relations) ∅ (queue, list_to_set queue, ∅))
    as (ms & past & Hms & Hi).
  - split; cbn [fst snd].
    + by apply NoDup_filter.
    + set_solver.
    + set_solver.
    + intros x Hx%elem_of_list_to_set%Hq. destruct Hx as [Hne Hx]. split; [by apply Hk|].
      split; [exists x; by split|by apply Hanti].
    + set_solver.
    + set_solver.
    + intros p ? ?. apply elem_of_list_to_set, Hq. by split.
  - lia.
  - exists ms. split; [done|]. by apply (search_complete sp parents ms past).
Qed.
End search.

(** ** Sorting *)
Definition work_in (store : GhostdagStore) (h : Hash) : Z := default 0 (get_blue_work store h).
Lemma sortable_Ok {E : Type} store h :
  is_Some (store !! h) → sortable (E := E) store h = Ok (mk_sortable h (work_in store h)).
Proof. intros [d Hd]. unfold sortable, work_in, get_blue_work. by rewrite Hd. Qed.

Lemma sort_blocks_spec {E : Type} store l :
  (∀ x, x ∈ l → is_Some (store !! x)) →
  ∃ l', sort_blocks (E := E) store l = Ok l' ∧ l' ≡ₚ l ∧
    StronglySorted (λ a b, work_in store a ≤ work_in store b) l'.
Proof.
  intros Hl. unfold sort_blocks. rewrite (try_map_Ok _ (λ h, mk_sortable h (work_in store h)))
    by (intros; by apply sortable_Ok, Hl). cbn [mbind outcome_bind].
  set (keys := (λ h, mk_sortable h (work_in store h)) <$> l). eexists. split; [done|].
  pose proof (merge_sort_Permutation sortable_le keys) as Hp. split.
  - rewrite Hp. replace (sb_hash <$> keys) with l; [done|]. unfold keys. clear.
    induction l as [|x l IH]; [done|]. cbn [fmap list_fmap sb_hash]. by f_equal.
  - assert (Hk : Forall (λ s, sb_blue_work s = work_in store (sb_hash s)) (merge_sort sortable_le keys)).
    { rewrite Hp. unfold keys. by apply Forall_fmap, Forall_forall. }
    pose proof (StronglySorted_merge_sort sortable_le keys) as Hs.
    revert Hk Hs. clear. generalize (merge_sort sortable_le keys). intros ss0 Hk Hs.
    induction Hs as [|s ss Hs IH Hall]; [constructor|]. apply Forall_cons in Hk as [Hks Hk].
    cbn [fmap list_fmap]. constructor; [by apply IH|]. rewrite Forall_fmap. apply Forall_forall. intros s' Hs'. simpl.
    rewrite Forall_forall in Hk, Hall. rewrite <- Hks, <- (Hk s' Hs'). specialize (Hall s' Hs').
    apply sortable_le_iff in Hall. lia.
Qed.
