(* ===== verification/Difficulty.v ===== *)
(** * Difficulty

    [consensus/src/processes/difficulty.rs]: the work of a target, the DAA score and the
    blocks left out of the DAA window, and the next target from a sampled window.  Targets
    and work are the limb integers of [Uint.v].  The theorems give the value of the work
    of compact bits, and of the next target, together with the absence of overflow and
    division by zero. *)

From S2P Require Import Prelude Transaction Uint Dag.

Definition MAX_WORK_LEVEL : Z := 128.

(** ** Work *)
Definition calc_work {E : Type} (b : Z) : outcome E (list Z) :=
  let target := from_compact_target_bits b in
  qr ← div_rem (uint_not target) (overflowing_add_u64 target 1).1;
  let res := (overflowing_add_u64 qr.1 1).1 in
  match narrow tt 3 res with Ok r => Ok r | _ => Panic end.

(** [1 << exp] on a [BlueWorkType]; [u32] subtraction is checked. *)
Definition level_work {E : Type} (level max_block_level : Z) : outcome E (list Z) :=
  if level =? 0 then Ok (replicate 3 0) else
  exp ← u64_sub (level + 256) max_block_level;
  Ok (overflowing_shl (from_u64 3 1) (Z.min exp MAX_WORK_LEVEL)).1.

(** ** The sampled difficulty manager *)
Record CompactHeaderData := mk_compact { ch_daa_score : Z; ch_timestamp : Z; ch_bits : Z }.

Record SampledDifficultyManager := {
  headers_store : gmap Hash CompactHeaderData;
  dm_genesis_hash : Hash;
  genesis_bits : Z;
  max_difficulty_target : list Z;
  difficulty_window_size : Z;
  min_difficulty_window_size : nat;
  difficulty_sample_rate : Z;
  target_time_per_block : Z }.

Section manager.
Context (self : SampledDifficultyManager).

Definition internal_calc_daa_score {E : Type} (data : GhostdagData) (mergeset_non_daa : gset Hash) : outcome E Z :=
  sp ← unwrap (headers_store self !! selected_parent data);
  n ← u64_sub (Z.of_nat (mergeset_size data)) (Z.of_nat (size mergeset_non_daa));
  u64_add (ch_daa_score sp) n.
Definition difficulty_full_window_size {E : Type} : outcome E Z :=
  u64_mul (difficulty_window_size self) (difficulty_sample_rate self).
Definition lowest_daa_blue_score {E : Type} (data : GhostdagData) : outcome E Z :=
  w ← difficulty_full_window_size;
  u64_sub (Z.max (gd_blue_score data) w) w.
Definition collect_non_daa {E : Type} (store : gmap Hash GhostdagData) (lowest : Z) (acc : gset Hash) (h : Hash)
    : outcome E (gset Hash) :=
  score ← unwrap (get_blue_score store h);
  Ok (if score <? lowest then {[h]} ∪ acc else acc).
Definition calc_daa_score_and_mergeset_non_daa_blocks {E : Type} (data : GhostdagData)
    (store : gmap Hash GhostdagData) : outcome E (Z * gset Hash) :=
  lowest ← lowest_daa_blue_score data;
  non_daa ← try_fold (collect_non_daa store lowest) ∅ (unordered_mergeset_data data);
  score ← internal_calc_daa_score data non_daa;
  Ok (score, non_daa).

(** ** The next target *)
Record DifficultyBlock := mk_difficulty_block { db_timestamp : Z; db_bits : Z; db_block : SortableBlock }.
Definition get_difficulty_blocks {E : Type} (window : list SortableBlock) : outcome E (list DifficultyBlock) :=
  try_map (λ item, data ← unwrap (headers_store self !! sb_hash item);
                   Ok (mk_difficulty_block (ch_timestamp data) (ch_bits data) item)) window.

(** [Ord for DifficultyBlock]. *)
Definition difficulty_cmp (a b : DifficultyBlock) : comparison :=
  match db_timestamp a ?= db_timestamp b with
  | Eq => sortable_cmp (db_block a) (db_block b)
  | c => c
  end.
(** [position_minmax]: the first position of a minimum and the last one of a maximum. *)
Definition minmax_step (i : nat) (best : nat * DifficultyBlock * (nat * DifficultyBlock)) (x : DifficultyBlock)
    : nat * DifficultyBlock * (nat * DifficultyBlock) :=
  let '(lo, hi) := best in
  (match difficulty_cmp x lo.2 with Lt => (i, x) | _ => lo end,
   match difficulty_cmp x hi.2 with Lt => hi | _ => (i, x) end).
Fixpoint minmax_from (i : nat) (best : nat * DifficultyBlock * (nat * DifficultyBlock)) (l : list DifficultyBlock)
    : nat * DifficultyBlock * (nat * DifficultyBlock) :=
  match l with
  | [] => best
  | x :: l => minmax_from (S i) (minmax_step i best x) l
  end.
Definition position_minmax (l : list DifficultyBlock) : option (nat * nat) :=
  match l with
  | [] => None
  | x :: l => let '(lo, hi) := minmax_from 1 ((0%nat, x), (0%nat, x)) l in Some (lo.1, hi.1)
  end.
(** [Vec::swap_remove]: the last element takes the place of the removed one. *)
Definition swap_remove {A} (i : nat) (l : list A) : list A :=
  match last l with
  | Some x => take (length l - 1) (<[i := x]> l)
  | None => []
  end.

Definition calculate_difficulty_bits {E : Type} (window : list SortableBlock) (data : GhostdagData) : outcome E Z :=
  blocks ← get_difficulty_blocks window;
  if (length blocks <? min_difficulty_window_size self)%nat then
    if bool_decide (selected_parent data = dm_genesis_hash self) then Ok (genesis_bits self) else
    sp ← unwrap (headers_store self !! selected_parent data);
    Ok (ch_bits sp)
  else
  idx ← unwrap (position_minmax blocks);
  min_block ← unwrap (blocks !! idx.1);
  max_block ← unwrap (blocks !! idx.2);
  let blocks := swap_remove idx.1 blocks in
  let len := Z.of_nat (length blocks) in
  let targets_sum := uint_sum 5 ((λ b, extend (from_compact_target_bits (db_bits b))) <$> blocks) in
  average ← div_rem_u64 targets_sum len;
  d ← u64_sub (db_timestamp max_block) (db_timestamp min_block);
  let measured_duration := Z.max d 1 in
  e1 ← u64_mul (target_time_per_block self) (difficulty_sample_rate self);
  expected_duration ← u64_mul e1 len;
  new_target ← div_rem_u64 (overflowing_mul_u64 average.1 measured_duration).1 expected_duration;
  let max_target := extend (max_difficulty_target self) in
  let capped := match uint_cmp max_target new_target.1 with Lt => max_target | _ => new_target.1 end in
  match narrow tt 4 capped with Ok t => Ok (compact_target_bits t) | _ => Panic end.
End manager.

(** ** The work of a target *)
Lemma add_one_spec n a :
  n ≠ 0%nat → uint_ok n a → val a + 1 < modulus n →
  uint_ok n (overflowing_add_u64 a 1).1 ∧ val (overflowing_add_u64 a 1).1 = val a + 1.
Proof.
  intros Hn Ha Hlt. destruct (overflowing_add_u64 a 1) as [r c] eqn:Hr.
  apply (add_u64_spec n) in Hr as [Hok Hr]; [|done|done|unfold limb_ok, LIMB_BASE; lia].
  pose proof (uint_bound _ _ Hok). destruct c; cbn [Z.b2z fst] in *; [lia|]. split; [done|lia].
Qed.

(** [!t / (t + 1) + 1] is [2^256 / (t + 1)]. *)
Lemma work_identity m t : 0 ≤ t < m → (m - 1 - t) / (t + 1) + 1 = m / (t + 1).
Proof.
  intros Ht. replace m with ((m - 1 - t) + 1 * (t + 1)) at 2 by lia. by rewrite Z.div_add by lia.
Qed.

Lemma calc_work_spec {E : Type} b :
  0 ≤ b → let t := val (from_compact_target_bits b) in
  (2 ^ 64 ≤ t → ∃ w, calc_work (E := E) b = Ok w ∧ uint_ok 3 w ∧ val w = 2 ^ 256 / (t + 1) ∧ 0 < val w) ∧
  (0 < t < 2 ^ 64 → calc_work (E := E) b = Panic) ∧
  (t = 0 → calc_work (E := E) b = Ok (replicate 3 0)).
Proof.
  intros Hb t. destruct (from_compact_ok b Hb) as [Hok Hlt]. fold t in Hlt. pose proof (uint_bound _ _ Hok) as Ht.
  fold t in Ht. unfold calc_work. set (target := from_compact_target_bits b) in *.
  destruct (uint_not_spec 4 target Hok) as [Hnok Hnv]. destruct (add_one_spec 4 target) as [Hsok Hsv]; [done|done|fold t; lia|].
  fold t in Hnv, Hsv.
  destruct (div_rem_spec (E := E) 4 (uint_not target) (overflowing_add_u64 target 1).1) as (q & r & -> & Hqok & _ & Hqv & _);
    [done|done|done|lia|]. cbn [mbind outcome_bind fst]. rewrite Hnv, Hsv in Hqv.
  assert (H256 : modulus 4 = 2 ^ 256) by (by rewrite modulus_pow2).
  assert (H192 : modulus 3 = 2 ^ 192) by (by rewrite modulus_pow2).
  pose proof (work_identity (modulus 4) t ltac:(lia)) as Hid. rewrite <- Hqv, H256 in Hid. rewrite H256 in *.
  destruct (Z.eq_dec t 0) as [Ht0|Ht0].
  { split; [lia|]. split; [lia|]. intros _. rewrite Ht0, Z.div_1_r in Hid.
    destruct (overflowing_add_u64 q 1) as [s c] eqn:Hs.
    apply (add_u64_spec 4) in Hs as [Hsok' Hs]; [|done|done|unfold limb_ok, LIMB_BASE; lia].
    pose proof (uint_bound _ _ Hsok'). rewrite H256 in *. cbn [fst].
    destruct (narrow_spec tt 3 s Hsok') as [Hn _]. assert (Hs0 : val s = 0) by (destruct c; cbn [Z.b2z] in *; lia).
    destruct Hn as (-> & Hok3 & Hv3); [rewrite H192; lia|]. f_equal.
    apply val_inj; [by rewrite (proj1 Hok3)|apply Hok3|apply zeros_ok|by rewrite Hv3, Hs0, val_zeros]. }
  assert (Hq : 2 ^ 256 / (t + 1) ≤ 2 ^ 255) by (apply Z.div_le_upper_bound; lia).
  destruct (add_one_spec 4 q) as [Hwok Hwv]; [done|done|rewrite H256; lia|].
  destruct (narrow_spec tt 3 (overflowing_add_u64 q 1).1 Hwok) as [Hn1 Hn2]. rewrite Hwv, Hid, H192 in *.
  split; [|split; [|lia]].
  - intros Hge. assert (2 ^ 256 / (t + 1) < 2 ^ 192) by (apply Z.div_lt_upper_bound; lia).
    assert (0 < 2 ^ 256 / (t + 1)) by (apply Z.div_str_pos; lia).
    destruct Hn1 as (-> & Hok3 & Hv3); [done|]. eexists. split; [done|]. split; [done|]. rewrite Hv3. done.
  - intros [_ Hsmall]. assert (2 ^ 192 ≤ 2 ^ 256 / (t + 1)) by (apply Z.div_le_lower_bound; lia). by rewrite Hn2.
Qed.

(** ** Minimum and maximum of the window *)
Definition difficulty_le (a b : DifficultyBlock) : Prop := difficulty_cmp a b ≠ Gt.
Lemma difficulty_le_iff a b :
  difficulty_le a b ↔ db_timestamp a < db_timestamp b ∨
    db_timestamp a = db_timestamp b ∧ sortable_le (db_block a) (db_block b).
Proof.
  unfold difficulty_le, difficulty_cmp, sortable_le.
  destruct (Z.compare_spec (db_timestamp a) (db_timestamp b)); naive_solver lia.
Qed.
Lemma difficulty_le_trans a b c : difficulty_le a b → difficulty_le b c → difficulty_le a c.
Proof.
  rewrite !difficulty_le_iff. intros [?|[? ?]] [?|[? ?]]; [lia..|]. right. split; [lia|].
  by transitivity (db_block b).
Qed.
Lemma difficulty_cmp_Lt a b : difficulty_cmp a b = Lt → difficulty_le a b.
Proof. unfold difficulty_le. by intros ->. Qed.
Lemma difficulty_cmp_ge a b : difficulty_cmp a b ≠ Lt → difficulty_le b a.
Proof.
  rewrite difficulty_le_iff. unfold difficulty_cmp.
  destruct (Z.compare_spec (db_timestamp a) (db_timestamp b)) as [Heq|?|?]; [|done|by left].
  intros Hn. right. split; [done|]. destruct (sortable_cmp (db_block a) (db_block b)) eqn:Hc; [|done|].
  - apply sortable_le_iff. unfold sortable_cmp in Hc.
    destruct (Z.compare_spec (sb_blue_work (db_block a)) (sb_blue_work (db_block b))) as [Hw|?|?]; [|done|done].
    right. split; [done|]. apply hash_cmp_Eq in Hc as ->. apply bytes_le_refl.
  - by apply sortable_cmp_Gt.
Qed.
Lemma difficulty_le_refl a : difficulty_le a a.
Proof. apply difficulty_le_iff. right. split; [done|]. by destruct (total sortable_le (db_block a) (db_block a)). Qed.

(** The positions name a least and a greatest block of [l]. *)
Definition minmax_of (l : list DifficultyBlock) (lo hi : nat * DifficultyBlock) : Prop :=
  l !! lo.1 = Some lo.2 ∧ l !! hi.1 = Some hi.2 ∧
  Forall (λ x, difficulty_le lo.2 x ∧ difficulty_le x hi.2) l.

Lemma minmax_from_spec pre best l :
  minmax_of pre best.1 best.2 →
  minmax_of (pre ++ l) (minmax_from (length pre) best l).1 (minmax_from (length pre) best l).2.
Proof.
  revert pre best. induction l as [|x l IH]; intros pre [lo hi] Hm; cbn [minmax_from]; [by rewrite app_nil_r|].
  rewrite (cons_middle x pre l), app_assoc. replace (S (length pre)) with (length (pre ++ [x])) by (rewrite length_app; cbn; lia).
  apply IH. destruct Hm as (Hlo & Hhi & Hall). cbn [fst snd] in *. unfold minmax_step.
  assert (Hx : (pre ++ [x]) !! length pre = Some x) by apply list_lookup_middle, eq_refl.
  assert (Hpre : ∀ i y, pre !! i = Some y → (pre ++ [x]) !! i = Some y) by (intros; by apply lookup_app_l_Some).
  assert (Hl : ∃ p, match difficulty_cmp x lo.2 with Lt => (length pre, x) | _ => lo end = p ∧
    (pre ++ [x]) !! p.1 = Some p.2 ∧ difficulty_le p.2 x ∧ difficulty_le p.2 lo.2).
  { destruct (difficulty_cmp x lo.2) eqn:Hc; eexists; (split; [done|]); cbn [fst snd].
    1,3: split; [by apply Hpre|]; split; [apply difficulty_cmp_ge; by rewrite Hc|apply difficulty_le_refl].
    split; [done|]. split; [apply difficulty_le_refl|by apply difficulty_cmp_Lt]. }
  assert (Hh : ∃ p, match difficulty_cmp x hi.2 with Lt => hi | _ => (length pre, x) end = p ∧
    (pre ++ [x]) !! p.1 = Some p.2 ∧ difficulty_le x p.2 ∧ difficulty_le hi.2 p.2).
  { destruct (difficulty_cmp x hi.2) eqn:Hc; eexists; (split; [done|]); cbn [fst snd].
    1,3: split; [done|]; split; [apply difficulty_le_refl|apply difficulty_cmp_ge; by rewrite Hc].
    split; [by apply Hpre|]. split; [by apply difficulty_cmp_Lt|apply difficulty_le_refl]. }
  destruct Hl as (pl & -> & Hl1 & Hl2 & Hl3), Hh as (ph & -> & Hh1 & Hh2 & Hh3). cbn [fst snd].
  split; [done|]. split; [done|]. apply Forall_app. split; [|by constructor].
  eapply Forall_impl; [exact Hall|]. intros y [? ?]. split; by eapply difficulty_le_trans.
Qed.

Lemma position_minmax_spec l :
  l ≠ [] → ∃ i j lo hi, position_minmax l = Some (i, j) ∧ minmax_of l (i, lo) (j, hi).
Proof.
  destruct l as [|x l]; [done|]. intros _. unfold position_minmax.
  pose proof (minmax_from_spec [x] ((0%nat, x), (0%nat, x)) l) as Hm. cbn [length] in Hm.
  destruct (minmax_from 1 _ l) as [[i lo] [j hi]]. exists i, j, lo, hi. split; [done|]. apply Hm.
  split; [done|]. split; [done|]. constructor; [|done]. split; apply difficulty_le_refl.
Qed.

Lemma swap_remove_perm {A} (l : list A) i x : l !! i = Some x → x :: swap_remove i l ≡ₚ l.
Proof.
  intros Hi. unfold swap_remove. destruct l as [|z l _] using rev_ind; [done|].
  rewrite last_snoc, length_app. cbn [length]. replace (length l + 1 - 1)%nat with (length l) by lia.
  destruct (decide (i < length l)%nat) as [Hlt|Hge].
  - rewrite insert_app_l by done. rewrite take_app_length' by (by rewrite length_insert).
    rewrite lookup_app_l in Hi by done. rewrite insert_take_drop by done.
    rewrite <- (take_drop_middle l i x Hi) at 3. generalize (take i l), (drop (S i) l). intros l1 l2. solve_Permutation.
  - apply lookup_lt_Some in Hi as Hb. rewrite length_app in Hb. cbn [length] in Hb.
    assert (i = length l) as -> by lia. rewrite list_lookup_middle in Hi by done. injection Hi as <-.
    replace (<[length l := z]> (l ++ [z])) with (l ++ [z]).
    + rewrite take_app_length. apply Permutation_cons_append.
    + by rewrite insert_app_r_alt, Nat.sub_diag by lia.
Qed.

(** ** The next target *)
Definition target_of (b : DifficultyBlock) : Z := val (from_compact_target_bits (db_bits b)).
Definition block_wf (b : DifficultyBlock) : Prop := 0 ≤ db_bits b ∧ in_u64 (db_timestamp b).

Section next.
Context (self : SampledDifficultyManager) {E : Type}.

(** The average target of the window without its earliest block, scaled by measured over
    expected duration and capped. *)
Definition next_target (blocks : list DifficultyBlock) (lo hi : DifficultyBlock) : Z :=
  let n := Z.of_nat (length blocks) - 1 in
  let average := (Zsum (target_of <$> blocks) - target_of lo) / n in
  Z.min (val (max_difficulty_target self))
    (average * Z.max (db_timestamp hi - db_timestamp lo) 1
       / (target_time_per_block self * difficulty_sample_rate self * n)).

Record manager_wf (n : Z) : Prop := {
  mw_time : 0 < target_time_per_block self;
  mw_rate : 0 < difficulty_sample_rate self;
  mw_expected : target_time_per_block self * difficulty_sample_rate self * n ≤ u64_max;
  mw_target : uint_ok 4 (max_difficulty_target self) }.

Lemma target_of_bound b : block_wf b → 0 ≤ target_of b < 2 ^ 256.
Proof.
  intros [Hb _]. destruct (from_compact_ok _ Hb) as [Hok _]. apply uint_bound in Hok. rewrite modulus_pow2 in Hok. done.
Qed.

(** The sum of the targets of a list of blocks, in five limbs. *)
Lemma targets_sum_spec blocks :
  Forall block_wf blocks → Z.of_nat (length blocks) ≤ u64_max →
  let s := uint_sum 5 ((λ b, extend (from_compact_target_bits (db_bits b))) <$> blocks) in
  uint_ok 5 s ∧ val s = Zsum (target_of <$> blocks) ∧
  0 ≤ Zsum (target_of <$> blocks) ≤ Z.of_nat (length blocks) * (2 ^ 256 - 1).
Proof.
  intros Hwf Hlen s.
  assert (Hval : val <$> ((λ b, extend (from_compact_target_bits (db_bits b))) <$> blocks) = target_of <$> blocks).
  { rewrite <- list_fmap_compose. apply list_fmap_ext. intros i b Hi. unfold compose, target_of.
    eapply Forall_lookup_1 in Hwf as [Hb _]; [|done]. destruct (from_compact_ok _ Hb) as [Hok _].
    apply (extend_spec _ _ Hok). }
  assert (Hbound : 0 ≤ Zsum (target_of <$> blocks) ≤ Z.of_nat (length blocks) * (2 ^ 256 - 1)).
  { rewrite <- (length_fmap target_of blocks). apply Zsum_bound, Forall_fmap.
    eapply Forall_impl; [exact Hwf|]. intros b Hb%target_of_bound. unfold compose. lia. }
  destruct (uint_sum_spec 5 ((λ b, extend (from_compact_target_bits (db_bits b))) <$> blocks)) as [Hok Hs].
  - apply Forall_fmap. eapply Forall_impl; [exact Hwf|]. intros b [Hb _].
    destruct (from_compact_ok _ Hb) as [Hok _]. apply (extend_spec _ _ Hok).
  - rewrite Hval, modulus_pow2. change (64 * Z.of_nat 5) with 320. unfold u64_max in Hlen. lia.
  - rewrite Hval in Hs. done.
Qed.

Lemma mul_u64_spec n a x :
  uint_ok n a → limb_ok x → val a * x < modulus n →
  uint_ok n (overflowing_mul_u64 a x).1 ∧ val (overflowing_mul_u64 a x).1 = val a * x.
Proof.
  intros Ha Hx Hlt. unfold overflowing_mul_u64, carrying_mul_u64.
  destruct (carrying_mul_u64_from 0 a x) as [r c] eqn:Hr.
  apply (mul_u64_from_spec n) in Hr as (Hok & Hc & Hr); [|done|done|apply limb_ok_0].
  pose proof (uint_bound _ _ Hok). unfold limb_ok in Hc. cbn [fst]. split; [done|].
  assert (c = 0) as -> by (pose proof (modulus_pos n); nia). lia.
Qed.

(** The capped target in four limbs. *)
Lemma cap_spec nt mt :
  uint_ok 5 nt → uint_ok 4 mt →
  ∃ t, narrow tt 4 (match uint_cmp (extend mt) nt with Lt => extend mt | _ => nt end) = Ok t ∧
    uint_ok 4 t ∧ val t = Z.min (val mt) (val nt).
Proof.
  intros Hn Hm. destruct (extend_spec _ _ Hm) as [Hme Hmv]. pose proof (uint_bound _ _ Hm).
  rewrite (cmp_spec 5) by done. rewrite Hmv. set (c := match _ with Eq => _ | Lt => _ | Gt => _ end).
  assert (Hc : uint_ok 5 c ∧ val c = Z.min (val mt) (val nt)).
  { subst c. destruct (Z.compare_spec (val mt) (val nt)); (split; [done|lia]). }
  destruct Hc as [Hcok Hcv]. destruct (narrow_spec tt 4 c Hcok) as [Hlt _].
  destruct Hlt as (-> & Hok & Hv); [lia|]. eexists. split; [done|]. split; [done|]. lia.
Qed.

Lemma next_target_spec window data blocks :
  get_difficulty_blocks (E := E) self window = Ok blocks → Forall block_wf blocks →
  (min_difficulty_window_size self ≤ length blocks)%nat → 2 ≤ Z.of_nat (length blocks) ≤ u64_max →
  manager_wf (Z.of_nat (length blocks) - 1) →
  ∃ lo hi t, lo ∈ blocks ∧ hi ∈ blocks ∧
    Forall (λ b, difficulty_le lo b ∧ difficulty_le b hi) blocks ∧
    calculate_difficulty_bits (E := E) self window data = Ok (compact_target_bits t) ∧
    uint_ok 4 t ∧ val t = next_target blocks lo hi.
Proof.
  intros Hget Hwf Hmin Hlen [Htime Hrate Hexp Hmax]. unfold calculate_difficulty_bits. rewrite Hget. cbn [mbind outcome_bind].
  rewrite (proj2 (Nat.ltb_ge _ _)) by done. destruct (position_minmax_spec blocks) as (i & j & lo & hi & -> & Hlo & Hhi & Hall).
  { intros ->. cbn in Hlen. lia. }
  cbn [unwrap mbind outcome_bind fst snd] in *. rewrite Hlo, Hhi. cbn [unwrap mbind outcome_bind].
  exists lo, hi. apply list_elem_of_lookup_2 in Hlo as Hloin. apply list_elem_of_lookup_2 in Hhi as Hhiin.
  pose proof (swap_remove_perm _ _ _ Hlo) as Hp. set (rest := swap_remove i blocks) in *.
  assert (Hrl : Z.of_nat (length rest) = Z.of_nat (length blocks) - 1) by (rewrite <- Hp; cbn [length]; lia).
  assert (Hsum : Zsum (target_of <$> rest) = Zsum (target_of <$> blocks) - target_of lo).
  { rewrite <- Hp. rewrite fmap_cons, Zsum_cons. lia. }
  assert (Hrwf : Forall block_wf rest) by (rewrite <- Hp in Hwf; by apply Forall_cons in Hwf as [_ ?]).
  destruct (targets_sum_spec rest) as (Hsok & Hsv & Hsb); [done|lia|]. rewrite Hrl in *. set (n := Z.of_nat (length blocks) - 1) in *.
  assert (Hn : 1 ≤ n ≤ u64_max) by lia. unfold u64_max in *.
  destruct (div_rem_u64_spec (E := E) 5 (uint_sum 5 ((λ b, extend (from_compact_target_bits (db_bits b))) <$> rest)) n)
    as (avg & -> & Havg & Havgv); [done|unfold limb_ok, LIMB_BASE; lia|lia|]. cbn [mbind outcome_bind fst].
  rewrite Hsv, Hsum in Havgv. rewrite Hsum in Hsb.
  assert (Hbnd : 0 ≤ val avg < 2 ^ 256).
  { rewrite Havgv. split; [apply Z.div_pos; lia|]. apply Z.div_lt_upper_bound; nia. }
  rewrite Forall_forall in Hall, Hwf. destruct (Hall hi Hhiin) as [Hlohi _]. apply difficulty_le_iff in Hlohi.
  destruct (Hwf lo Hloin) as [_ Htl], (Hwf hi Hhiin) as [_ Hth]. unfold in_u64, u64_max in *.
  rewrite u64_sub_total by lia. cbn [mbind outcome_bind].
  set (d := Z.max (db_timestamp hi - db_timestamp lo) 1) in *. assert (Hd : 1 ≤ d < 2 ^ 64) by lia.
  rewrite u64_mul_total by (unfold u64_max; nia). cbn [mbind outcome_bind]. rewrite u64_mul_total by (unfold u64_max; lia).
  cbn [mbind outcome_bind]. destruct (mul_u64_spec 5 avg d) as [Hmok Hmv]; [done|unfold limb_ok, LIMB_BASE; lia| |].
  { rewrite modulus_pow2. change (64 * Z.of_nat 5) with 320. nia. }
  set (e := target_time_per_block self * difficulty_sample_rate self * n) in *. assert (He : 1 ≤ e) by (subst e; nia).
  destruct (div_rem_u64_spec (E := E) 5 (overflowing_mul_u64 avg d).1 e) as (nt & -> & Hnt & Hntv);
    [done|unfold limb_ok, LIMB_BASE; lia|lia|]. cbn [mbind outcome_bind fst].
  destruct (cap_spec nt (max_difficulty_target self)) as (t & -> & Ht & Htv); [done|done|].
  exists t. split; [done|]. split; [done|]. split; [by apply Forall_forall|]. split; [done|]. split; [done|].
  rewrite Htv, Hntv, Hmv, Havgv. done.
Qed.
End next.

(** The work of compact bits: for a target of at least [2^64] it is [2^256 / (target + 1)],
    computed without overflow; smaller non-zero targets make the conversion to 192 bits
    panic, and a zero target wraps around to no work at all. *)
Theorem calc_work_exact {E : Type} b :
  0 ≤ b → let t := val (from_compact_target_bits b) in
  (2 ^ 64 ≤ t → ∃ w, calc_work (E := E) b = Ok w ∧ uint_ok 3 w ∧ val w = 2 ^ 256 / (t + 1) ∧ 0 < val w) ∧
  (0 < t < 2 ^ 64 → calc_work (E := E) b = Panic) ∧
  (t = 0 → calc_work (E := E) b = Ok (replicate 3 0)).
Proof. apply calc_work_spec. Qed.

(** (C28) The next target: for a window with enough blocks whose headers are known the
    computation neither overflows nor divides by zero, and returns the compact form of
    the average target of all blocks but the earliest, times the measured duration (at
    least one millisecond), over the expected duration, capped by the maximum. *)
Theorem next_target_exact self {E : Type} window data blocks :
  get_difficulty_blocks (E := E) self window = Ok blocks → Forall block_wf blocks →
  (min_difficulty_window_size self ≤ length blocks)%nat → 2 ≤ Z.of_nat (length blocks) ≤ u64_max →
  manager_wf self (Z.of_nat (length blocks) - 1) →
  ∃ lo hi t, lo ∈ blocks ∧ hi ∈ blocks ∧
    Forall (λ b, difficulty_le lo b ∧ difficulty_le b hi) blocks ∧
    calculate_difficulty_bits (E := E) self window data = Ok (compact_target_bits t) ∧
    uint_ok 4 t ∧ val t = next_target self blocks lo hi.
Proof. apply next_target_spec. Qed.

Definition demo_headers : gmap Hash CompactHeaderData :=
  {[ [1] := mk_compact 1 1000 0x1e7fffff; [2] := mk_compact 2 1150 0x1e7fffff;
     [3] := mk_compact 3 1190 0x1e4fffff ]}.
Definition demo_difficulty : SampledDifficultyManager :=
  {| headers_store := demo_headers; dm_genesis_hash := [1]; genesis_bits := 0x1e7fffff;
     max_difficulty_target := from_compact_target_bits 0x207fffff; difficulty_window_size := 3;
     min_difficulty_window_size := 2; difficulty_sample_rate := 1; target_time_per_block := 100 |}.
Definition demo_window : list SortableBlock := [mk_sortable [2] 7; mk_sortable [1] 5; mk_sortable [3] 9].

Lemma next_target_exact_witness :
  ∃ t, calculate_difficulty_bits (E := unit) demo_difficulty demo_window (new_with_selected_parent [3]) =
    Ok (compact_target_bits t) ∧ uint_ok 4 t.
Proof.
  destruct (next_target_exact demo_difficulty (E := unit) demo_window (new_with_selected_parent [3])
    [mk_difficulty_block 1150 0x1e7fffff (mk_sortable [2] 7); mk_difficulty_block 1000 0x1e7fffff (mk_sortable [1] 5);
     mk_difficulty_block 1190 0x1e4fffff (mk_sortable [3] 9)]) as (lo & hi & t & _ & _ & _ & Ht & Hok & _).
  - reflexivity.
  - repeat constructor; unfold block_wf, in_u64, u64_max; cbn; lia.
  - cbn; lia.
  - cbn; unfold u64_max; lia.
  - split; [by_decide..|]. by_decide.
  - exists t. split; [exact Ht|exact Hok].
Defined.
