(* ===== verification/Ghostdag.v ===== *)
(** * GHOSTDAG

    [consensus/src/processes/ghostdag/protocol.rs]: the coloring of a new block's mergeset.
    The code walks the selected chain and keeps, per block, a map with the blue anticone
    sizes its own coloring changed.  The theorems state that this computes the greedy
    coloring: going through the mergeset in order of blue work, a block becomes blue
    exactly when the blue set stays a k-cluster with it; and that the stored data of a DAG
    stays well formed when the new block is stored, so every blue set is a k-cluster and
    every blue score the size of a blue set. *)

From S2P Require Import Prelude Transaction Uint Dag Difficulty.

Record GhostdagManager := mk_ghostdag_manager {
  genesis_hash : Hash;
  ghostdag_k : Z;
  ghostdag_store : gmap Hash GhostdagData;
  relations_store : gmap Hash (list Hash);
  gm_headers : gmap Hash CompactHeaderData;
  gm_level_work : list Z }.
(** [ghostdag_store.insert]. *)
Definition insert_data (self : GhostdagManager) (b : Hash) (d : GhostdagData) : GhostdagManager :=
  mk_ghostdag_manager (genesis_hash self) (ghostdag_k self) (<[b := d]> (ghostdag_store self))
    (relations_store self) (gm_headers self) (gm_level_work self).

Inductive ColoringState := ColorBlue | ColorRed | ColorPending.
Inductive ColoringOutput := OutBlue (blue_anticone_size : Z) (sizes : gmap Hash Z) | OutRed.

Section protocol.
Context `{ReachabilityService} {E : Type} (self : GhostdagManager).

Definition genesis_ghostdag_data : GhostdagData := mk_ghostdag 0 0 ORIGIN [] [] ∅.
Definition origin_ghostdag_data : GhostdagData := mk_ghostdag 0 0 NONE [] [] ∅.

(** [iter().max()]: the last of the greatest blocks. *)
Definition max_sortable (l : list SortableBlock) : option SortableBlock :=
  match l with
  | [] => None
  | x :: l => Some (foldl (λ best y, match sortable_cmp best y with Gt => best | _ => y end) x l)
  end.
Definition find_selected_parent (parents : list Hash) : outcome E Hash :=
  l ← try_map (sortable (ghostdag_store self)) parents;
  best ← unwrap (max_sortable l);
  Ok (sb_hash best).

(** The loop of [blue_anticone_size], one step down the selected chain per unit of fuel. *)
Fixpoint anticone_loop (fuel : nat) (block : Hash) (sizes : gmap Hash Z) (sp : Hash) : outcome E Z :=
  match sizes !! block with
  | Some size => Ok size
  | None =>
      if bool_decide (sp = genesis_hash self) || bool_decide (sp = ORIGIN) then Panic else
      match fuel with
      | O => Panic
      | S fuel =>
          d ← unwrap (ghostdag_store self !! sp);
          anticone_loop fuel block (blues_anticone_sizes d) (selected_parent d)
      end
  end.
(** Blue scores decrease along the selected chain, so the score of its head bounds its length. *)
Definition chain_fuel (sp : Hash) : nat :=
  match ghostdag_store self !! sp with
  | Some d => S (S (Z.to_nat (gd_blue_score d)))
  | None => 1%nat
  end.
Definition blue_anticone_size (block : Hash) (context : GhostdagData) : outcome E Z :=
  anticone_loop (chain_fuel (selected_parent context)) block (blues_anticone_sizes context)
    (selected_parent context).
End protocol.

Section coloring.
Context `{ReachabilityService} {E : Type} (self : GhostdagManager).
Context (new_block_data : GhostdagData) (blue_candidate : Hash) (k : Z).

(** The body of the loop over the peers; [Err] is the early return of a color. *)
Definition check_peer (st : gmap Hash Z * Z) (peer : Hash) : outcome ColoringState (gmap Hash Z * Z) :=
  if is_dag_ancestor_of peer blue_candidate then Ok st else
  peer_size ← blue_anticone_size self peer new_block_data;
  let sizes := <[peer := peer_size]> st.1 in
  n ← u16_add st.2 1;
  if k <? n then Err ColorRed else
  if peer_size =? k then Err ColorRed else
  if k <? peer_size then Panic else
  Ok (sizes, n).

Definition check_blue_candidate_with_chain_block (hash : option Hash) (data : GhostdagData)
    (st : gmap Hash Z * Z) : outcome E (ColoringState * (gmap Hash Z * Z)) :=
  if match hash with Some h => is_dag_ancestor_of h blue_candidate | None => false end
  then Ok (ColorBlue, st) else
  match try_fold check_peer st (mergeset_blues data) with
  | Ok st => Ok (ColorPending, st)
  | Err color => Ok (color, st)
  | Panic => Panic
  end.

Fixpoint color_loop (fuel : nat) (hash : option Hash) (data : GhostdagData) (st : gmap Hash Z * Z)
    : outcome E ColoringOutput :=
  r ← check_blue_candidate_with_chain_block hash data st;
  match r.1 with
  | ColorBlue => Ok (OutBlue r.2.2 r.2.1)
  | ColorRed => Ok OutRed
  | ColorPending =>
      match fuel with
      | O => Panic
      | S fuel =>
          d ← unwrap (ghostdag_store self !! selected_parent data);
          color_loop fuel (Some (selected_parent data)) d r.2
      end
  end.

Definition check_blue_candidate : outcome E ColoringOutput :=
  k1 ← u16_add k 1;
  if Z.of_nat (length (mergeset_blues new_block_data)) mod 2 ^ 16 =? k1 then Ok OutRed else
  color_loop (chain_fuel self (selected_parent new_block_data)) None new_block_data (∅, 0).
End coloring.

Section ghostdag.
Context `{ReachabilityService} {E : Type} (self : GhostdagManager).

Definition color_step (data : GhostdagData) (blue_candidate : Hash) : outcome E GhostdagData :=
  coloring ← check_blue_candidate self data blue_candidate (ghostdag_k self);
  match coloring with
  | OutBlue blue_anticone_size blues_anticone_sizes =>
      add_blue data blue_candidate blue_anticone_size blues_anticone_sizes
  | OutRed => Ok (add_red_block data blue_candidate)
  end.

(** [calc_work(bits).max(level_work)]. *)
Definition block_work (h : Hash) : outcome E (list Z) :=
  header ← unwrap (gm_headers self !! h);
  w ← calc_work (ch_bits header);
  Ok (match uint_cmp w (gm_level_work self) with Gt => w | _ => gm_level_work self end).

Definition ghostdag (parents : list Hash) : outcome E GhostdagData :=
  if bool_decide (parents = []) then Panic else
  sp ← find_selected_parent self parents;
  if is_origin sp then Ok (new_with_selected_parent sp) else
  ordered_mergeset ← ordered_mergeset_without_selected_parent (relations_store self) (ghostdag_store self) sp parents;
  data ← try_fold color_step (new_with_selected_parent sp) ordered_mergeset;
  sp_data ← unwrap (ghostdag_store self !! sp);
  blue_score ← u64_add (gd_blue_score sp_data) (Z.of_nat (length (mergeset_blues data)));
  works ← try_map block_work (mergeset_blues data);
  let blue_work := (gd_blue_work sp_data + val (uint_sum 3 works)) mod 2 ^ 192 in
  Ok (finalize_score_and_work data blue_score blue_work).
End ghostdag.

(** ** Blue sets and k-clusters *)
Section clusters.
Context `{ReachabilityService}.
Definition in_anticone (x y : Hash) : bool := negb (is_dag_ancestor_of x y) && negb (is_dag_ancestor_of y x).
Definition blue_anticone (x : Hash) (s : gset Hash) : gset Hash := filter (λ y, in_anticone x y = true) s.
Definition anticone_count (x : Hash) (s : gset Hash) : Z := Z.of_nat (size (blue_anticone x s)).
Definition k_cluster (k : Z) (s : gset Hash) : Prop := set_Forall (λ x, anticone_count x s ≤ k) s.
#[global] Instance k_cluster_dec k s : Decision (k_cluster k s).
Proof. unfold k_cluster. apply _. Defined.

Lemma in_anticone_sym x y : in_anticone x y = in_anticone y x.
Proof. unfold in_anticone. apply andb_comm. Qed.
Lemma elem_of_blue_anticone x y s : y ∈ blue_anticone x s ↔ y ∈ s ∧ in_anticone x y = true.
Proof. unfold blue_anticone. rewrite elem_of_filter. tauto. Qed.
Lemma blue_anticone_add x y s :
  y ∉ s → blue_anticone x ({[y]} ∪ s) =
    if in_anticone x y then {[y]} ∪ blue_anticone x s else blue_anticone x s.
Proof.
  intros Hy. apply set_eq. intros z. rewrite elem_of_blue_anticone.
  destruct (in_anticone x y) eqn:Hxy; rewrite !elem_of_union, elem_of_singleton, ?elem_of_blue_anticone.
  - split; [tauto|]. intros [->|?]; tauto.
  - split; [|tauto]. intros [[->|?] ?]; [congruence|done].
Qed.
Lemma anticone_count_add x y s :
  y ∉ s → anticone_count x ({[y]} ∪ s) = anticone_count x s + (if in_anticone x y then 1 else 0).
Proof.
  intros Hy. unfold anticone_count. rewrite blue_anticone_add by done. destruct (in_anticone x y); [|lia].
  rewrite size_union; [rewrite size_singleton; lia|]. intros z. rewrite elem_of_singleton, elem_of_blue_anticone. by intros -> [? _].
Qed.
Lemma anticone_count_mono x s1 s2 : s1 ⊆ s2 → anticone_count x s1 ≤ anticone_count x s2.
Proof.
  intros Hsub. unfold anticone_count. apply inj_le, subseteq_size. intros y. rewrite !elem_of_blue_anticone. set_solver.
Qed.

(** The greedy coloring of [l]: blue exactly when the blue set stays a k-cluster. *)
Fixpoint greedy (k : Z) (s : gset Hash) (l : list Hash) : list Hash * list Hash :=
  match l with
  | [] => ([], [])
  | c :: l =>
      if decide (k_cluster k ({[c]} ∪ s))
      then let br := greedy k ({[c]} ∪ s) l in (c :: br.1, br.2)
      else let br := greedy k s l in (br.1, c :: br.2)
  end.
End clusters.

(** ** Stored data *)
Section theory.
Context `{ReachabilityService} (self : GhostdagManager).
Abbreviation rel := (relations_store self) (only parsing).
Abbreviation store := (ghostdag_store self) (only parsing).
Abbreviation genesis := (genesis_hash self) (only parsing).
Abbreviation k := (ghostdag_k self) (only parsing).
Abbreviation anc := (ancestor (relations_store self)) (only parsing).

(** The blues of a block and of its selected chain. *)
Inductive blue_past : Hash → gset Hash → Prop :=
  | blue_past_genesis : blue_past genesis ∅
  | blue_past_step b d s :
      b ≠ genesis → store !! b = Some d → blue_past (selected_parent d) s →
      blue_past b (list_to_set (mergeset_blues d) ∪ s).

Definition real (x : Hash) : Prop := is_Some (store !! x) ∧ x ≠ ORIGIN.

(** The blue set [s] of the block described by [d] is a k-cluster whose anticone sizes the
    maps along the selected chain record; the mergeset blues are the selected parent and
    blocks in its anticone. *)
Record data_ok (d : GhostdagData) (s : gset Hash) : Prop := {
  do_blues : ∃ l, mergeset_blues d = selected_parent d :: l ∧
    Forall (λ x, in_anticone (selected_parent d) x = true) l;
  do_nodup : NoDup (mergeset_blues d);
  do_real : Forall real (mergeset_blues d);
  do_past : ∃ s0, blue_past (selected_parent d) s0 ∧ s = list_to_set (mergeset_blues d) ∪ s0;
  do_cluster : k_cluster k s;
  do_sizes : ∀ E x, x ∈ s → blue_anticone_size (E := E) self x d = Ok (anticone_count x s) }.

Record store_ok : Prop := {
  so_dag : dag_ok rel;
  so_known : ∀ x, is_Some (store !! x) → known rel x;
  so_genesis : real genesis ∧ ∀ d, store !! genesis = Some d → gd_blue_score d = 0;
  so_bottom : (∀ x, parent_of rel x genesis → x = ORIGIN) ∧ ∀ x, ¬ parent_of rel x ORIGIN;
  so_root : ∀ x, real x → anc genesis x;
  so_closed : ∀ x b, real b → b ≠ genesis → parent_of rel x b → real x;
  so_work : ∀ x b, real b → b ≠ genesis → parent_of rel x b → work_in store x < work_in store b;
  so_data : ∀ b d, store !! b = Some d → b ≠ ORIGIN → b ≠ genesis →
    parent_of rel (selected_parent d) b ∧
    (∀ x, x ∈ mergeset_blues d → ∃ p, parent_of rel p b ∧ anc x p) ∧
    ∃ s, data_ok d s ∧ gd_blue_score d = Z.of_nat (size s) }.
End theory.

Section proofs.
Context `{ReachabilityService} (self : GhostdagManager) (Hok : store_ok self).
Abbreviation rel := (relations_store self) (only parsing).
Abbreviation store := (ghostdag_store self) (only parsing).
Abbreviation genesis := (genesis_hash self) (only parsing).
Abbreviation k := (ghostdag_k self) (only parsing).
Abbreviation anc := (ancestor (relations_store self)) (only parsing).

Lemma reach_iff x y : real self x → real self y → is_dag_ancestor_of x y = true ↔ anc x y.
Proof. intros [Hx _] [Hy _]. apply (dag_reach _ (so_dag _ Hok)); by apply (so_known _ Hok). Qed.

(** Blue work grows strictly along ancestry, so ancestry has no cycles. *)
Lemma anc_origin x : anc x ORIGIN → x = ORIGIN.
Proof.
  intros Ha. apply rtc_inv_r in Ha; destruct Ha as [?|(z & _ & Hz)]; [done|]. by apply (so_bottom _ Hok) in Hz.
Qed.
Lemma anc_cases x y :
  real self y → anc x y → x = y ∨ x = ORIGIN ∨ real self x ∧ work_in store x < work_in store y.
Proof.
  intros Hy Ha. revert Hy. revert y Ha.
  apply (rtc_ind_r (λ y, real self y → x = y ∨ x = ORIGIN ∨ real self x ∧ work_in store x < work_in store y));
    [by left|]. intros y z Hxy Hyz IH Hz.
  destruct (decide (z = genesis)) as [->|Hne].
  - apply (so_bottom _ Hok) in Hyz as ->. right; left. by apply anc_origin.
  - pose proof (so_closed _ Hok _ _ Hz Hne Hyz) as Hy. pose proof (so_work _ Hok _ _ Hz Hne Hyz).
    destruct (IH Hy) as [->|[?|[? ?]]]; [right; right; split; [done|lia]|by right; left|right; right; split; [done|lia]].
Qed.
Lemma anc_work x y : real self x → real self y → anc x y → x = y ∨ work_in store x < work_in store y.
Proof. intros [_ Hx] Hy Ha. destruct (anc_cases x y Hy Ha) as [?|[?|[_ ?]]]; [by left|done|by right]. Qed.
Lemma anc_antisym x y : real self x → real self y → anc x y → anc y x → x = y.
Proof.
  intros Hx Hy H1 H2. destruct (anc_work x y Hx Hy H1); [done|]. destruct (anc_work y x Hy Hx H2); [done|lia].
Qed.

(** ** Blue pasts *)
Lemma blue_past_real b s : real self b → blue_past self b s → ∀ x, x ∈ s → real self x ∧ anc x b ∧ x ≠ b.
Proof.
  intros Hb Hp. induction Hp as [|b d s Hne Hd Hp IH]; [set_solver|].
  destruct Hb as [_ Hbo]. assert (Hb : real self b) by (split; [by eexists|done]).
  destruct (so_data _ Hok b d Hd Hbo Hne) as (Hpar & Hmerge & s1 & Hdata & _).
  pose proof (so_closed _ Hok _ _ Hb Hne Hpar) as Hspr.
  assert (Hstrict : ∀ x p, real self x → parent_of rel p b → anc x p → anc x b ∧ x ≠ b).
  { intros x p Hx Hpb Hxp. split; [by eapply rtc_r|]. intros ->.
    pose proof (so_closed _ Hok _ _ Hb Hne Hpb) as Hp'. pose proof (so_work _ Hok _ _ Hb Hne Hpb).
    destruct (anc_work b p Hb Hp' Hxp) as [->|?]; lia. }
  intros x [Hx%elem_of_list_to_set|Hx]%elem_of_union.
  - assert (Hxr : real self x) by (eapply Forall_forall; [apply (do_real _ _ _ Hdata)|done]).
    destruct (Hmerge x Hx) as (p & Hpb & Hxp). split; [done|]. by eapply Hstrict.
  - destruct (IH Hspr x Hx) as (Hxr & Hxsp & _). split; [done|]. by eapply Hstrict.
Qed.

Lemma blue_past_fun b s1 s2 : blue_past self b s1 → blue_past self b s2 → s1 = s2.
Proof.
  intros H1. revert s2. induction H1 as [|b d s Hne Hd Hp IH]; intros s2 H2; inversion H2; subst; try done.
  assert (d0 = d) as -> by congruence. f_equal. by apply IH.
Qed.

(** Every stored block has a blue past, of the size of its blue score. *)
Lemma blue_past_score b d :
  store !! b = Some d → b ≠ ORIGIN → ∃ s, blue_past self b s ∧ gd_blue_score d = Z.of_nat (size s) ∧
    (b ≠ genesis → data_ok self d s).
Proof.
  intros Hd Hbo. destruct (decide (b = genesis)) as [->|Hne].
  - exists ∅. split; [constructor|]. split; [|done]. rewrite size_empty. by apply (so_genesis _ Hok).
  - destruct (so_data _ Hok b d Hd Hbo Hne) as (_ & _ & s & Hdata & Hscore). exists s. split; [|by split].
    destruct (do_past _ _ _ Hdata) as (s0 & Hp & ->). by apply blue_past_step.
Qed.

Lemma selected_parent_real b d :
  store !! b = Some d → b ≠ ORIGIN → b ≠ genesis → real self (selected_parent d).
Proof.
  intros Hd Hbo Hne. destruct (so_data _ Hok b d Hd Hbo Hne) as (Hpar & _).
  apply (so_closed _ Hok _ b); [split; [by eexists|done]|done|done].
Qed.

(** Blue scores decrease along the selected chain. *)
Lemma score_decreases b d d' :
  store !! b = Some d → b ≠ ORIGIN → b ≠ genesis → store !! selected_parent d = Some d' →
  0 ≤ gd_blue_score d' < gd_blue_score d.
Proof.
  intros Hd Hbo Hne Hd'. pose proof (selected_parent_real b d Hd Hbo Hne) as Hspr.
  destruct (blue_past_score _ _ Hd' (proj2 Hspr)) as (s' & Hp' & -> & _).
  destruct (so_data _ Hok b d Hd Hbo Hne) as (_ & _ & s & Hdata & ->).
  destruct (do_past _ _ _ Hdata) as (s0 & Hp & ->). rewrite (blue_past_fun _ _ _ Hp Hp').
  split; [lia|]. apply inj_lt, subset_size. split; [set_solver|].
  intros Hsub. destruct (do_blues _ _ _ Hdata) as (l & Hl & _).
  assert (Hin : selected_parent d ∈ s') by (apply Hsub; rewrite Hl; set_solver).
  by apply (blue_past_real _ _ Hspr Hp') in Hin as (_ & _ & ?).
Qed.

(** ** Coloring one candidate *)

(** A block that is in the anticone of the selected parent and not below a blue. *)
Record candidate (n : GhostdagData) (c : Hash) : Prop := {
  ca_real : real self c;
  ca_sp : in_anticone (selected_parent n) c = true;
  ca_later : ∀ x, x ∈ mergeset_blues n → is_dag_ancestor_of c x = false }.

Section candidate.
Context (n : GhostdagData) (s : gset Hash) (c : Hash).
Context (Hn : data_ok self n s) (Hsp : real self (selected_parent n)) (Hc : candidate n c).
Context (Hk : 0 ≤ k < 2 ^ 16 - 1).

Lemma blue_real x : x ∈ s → real self x.
Proof.
  destruct (do_past _ _ _ Hn) as (s0 & Hp & ->). intros [Hx%elem_of_list_to_set|Hx]%elem_of_union.
  - eapply Forall_forall; [apply (do_real _ _ _ Hn)|done].
  - by apply (blue_past_real _ _ Hsp Hp) in Hx as (? & _).
Qed.
Lemma not_below x : x ∈ s → is_dag_ancestor_of c x = false.
Proof.
  intros Hx. pose proof (blue_real x Hx) as Hxr. destruct (do_past _ _ _ Hn) as (s0 & Hp & ->).
  apply elem_of_union in Hx as [Hx%elem_of_list_to_set|Hx]; [by apply (ca_later _ _ Hc)|].
  apply (blue_past_real _ _ Hsp Hp) in Hx as (_ & Hxsp & _).
  destruct (is_dag_ancestor_of c x) eqn:Hcx; [|done]. apply reach_iff in Hcx; [|apply (ca_real _ _ Hc)|done].
  pose proof (ca_sp _ _ Hc) as Ha. unfold in_anticone in Ha. apply andb_true_iff in Ha as [_ Ha].
  rewrite (proj2 (reach_iff c (selected_parent n) (ca_real _ _ Hc) Hsp)) in Ha; [done|]. by transitivity x.
Qed.
Lemma anticone_of_candidate x : x ∈ s → in_anticone c x = negb (is_dag_ancestor_of x c).
Proof. intros Hx. unfold in_anticone. by rewrite (not_below x Hx). Qed.
Lemma candidate_fresh : c ∉ s.
Proof.
  intros Hin. pose proof (not_below c Hin) as Hf.
  rewrite (proj2 (reach_iff c c (ca_real _ _ Hc) (ca_real _ _ Hc))) in Hf; [done|apply rtc_refl].
Qed.

(** What the walk knows after the blues [v]. *)
Record acc_ok (v : gset Hash) (st : gmap Hash Z * Z) : Prop := {
  ac_sizes : ∀ x, st.1 !! x = if decide (x ∈ blue_anticone c v) then Some (anticone_count x s) else None;
  ac_count : st.2 = anticone_count c v;
  ac_bound : anticone_count c v ≤ k;
  ac_free : ∀ x, x ∈ blue_anticone c v → anticone_count x s < k }.

(** Why the candidate is red. *)
Definition violates : Prop :=
  k < anticone_count c s ∨ ∃ x, x ∈ blue_anticone c s ∧ anticone_count x s = k.

Lemma check_peer_spec v st x :
  acc_ok v st → v ⊆ s → x ∈ s → x ∉ v →
  (∃ st', check_peer self n c k st x = Ok st' ∧ acc_ok ({[x]} ∪ v) st') ∨
  (check_peer self n c k st x = Err ColorRed ∧ violates).
Proof.
  intros [Hs Hcnt Hb Hf] Hv Hx Hxv. unfold check_peer. pose proof (anticone_of_candidate x Hx) as Hanti.
  pose proof (blue_anticone_add c x v Hxv) as Hadd. pose proof (anticone_count_add c x v Hxv) as Hcadd.
  destruct (is_dag_ancestor_of x c) eqn:Hxc; rewrite Hanti in Hadd, Hcadd; cbn [negb] in *.
  { left. exists st. split; [done|]. rewrite Z.add_0_r in Hcadd. split; rewrite ?Hadd, ?Hcadd; done. }
  assert (Hxin : x ∈ blue_anticone c ({[x]} ∪ v)) by (rewrite Hadd; set_solver).
  assert (Hsub : ({[x]} ∪ v) ⊆ s) by set_solver.
  assert (Hxs : x ∈ blue_anticone c s) by (apply elem_of_blue_anticone; by rewrite Hanti).
  rewrite (do_sizes _ _ _ Hn _ x Hx). cbn [mbind outcome_bind]. unfold u16_add. rewrite Hcnt.
  rewrite (proj2 (Z.ltb_lt (anticone_count c v + 1) (2 ^ 16))) by lia. cbn [mbind outcome_bind].
  destruct (Z.ltb_spec k (anticone_count c v + 1)) as [Hred|Hle].
  { right. split; [done|]. left. rewrite <- Hcadd in Hred. pose proof (anticone_count_mono c _ _ Hsub). lia. }
  destruct (Z.eqb_spec (anticone_count x s) k) as [Heq|Hne]; [right; split; [done|]; right; by exists x|].
  pose proof (do_cluster _ _ _ Hn x Hx) as Hcl. cbn beta in Hcl.
  rewrite (proj2 (Z.ltb_ge _ _)) by lia. left. eexists. split; [done|]. split; cbn [fst snd].
  - intros y. rewrite Hadd. destruct (decide (y = x)) as [->|Hyx].
    + rewrite lookup_insert_eq, decide_True by set_solver. done.
    + rewrite lookup_insert_ne, Hs by done. destruct (decide (y ∈ blue_anticone c v)), (decide (y ∈ {[x]} ∪ blue_anticone c v)); set_solver.
  - by rewrite Hcadd.
  - rewrite Hcadd. lia.
  - intros y. rewrite Hadd. intros [->%elem_of_singleton|Hy]%elem_of_union; [lia|by apply Hf].
Qed.

Lemma check_peers_spec v st l :
  acc_ok v st → v ⊆ s → list_to_set l ⊆ s → NoDup l → (∀ x, x ∈ l → x ∉ v) →
  (∃ st', try_fold (check_peer self n c k) st l = Ok st' ∧ acc_ok (list_to_set l ∪ v) st') ∨
  (try_fold (check_peer self n c k) st l = Err ColorRed ∧ violates).
Proof.
  revert v st. induction l as [|x l IH]; intros v st Hacc Hv Hl Hnd Hd; cbn [try_fold].
  { left. exists st. split; [done|]. by rewrite list_to_set_nil, union_empty_l_L. }
  apply NoDup_cons in Hnd as [Hxl Hnd].
  destruct (check_peer_spec v st x Hacc Hv) as [(st' & -> & Hacc')|[-> Hviol]];
    [set_solver|apply Hd; by left| |by right]. cbn [mbind outcome_bind].
  destruct (IH ({[x]} ∪ v) st' Hacc') as [(st2 & Hst2 & Hacc2)|?]; [set_solver|set_solver|done| | |by right].
  - intros y Hy. assert (y ∉ v) by (apply Hd; by right). set_solver.
  - left. exists st2. split; [done|]. rewrite list_to_set_cons.
    by replace ({[x]} ∪ list_to_set l ∪ v) with (list_to_set l ∪ ({[x]} ∪ v)) by set_solver.
Qed.

(** The outcome of the walk. *)
Definition colored {E} (o : outcome E ColoringOutput) : Prop :=
  (∃ cnt sizes, o = Ok (OutBlue cnt sizes) ∧ acc_ok s (sizes, cnt)) ∨ (o = Ok OutRed ∧ violates).

Lemma acc_ok_past v r st :
  acc_ok v st → s = v ∪ r → (∀ x, x ∈ r → is_dag_ancestor_of x c = true) → acc_ok s st.
Proof.
  intros [Hs Hcnt Hb Hf] Hsplit Hr. assert (Heq : blue_anticone c s = blue_anticone c v).
  { apply set_eq. intros x. rewrite !elem_of_blue_anticone. split; [|set_solver]. intros [Hx Ha].
    split; [|done]. rewrite anticone_of_candidate in Ha by done. rewrite Hsplit in Hx.
    apply elem_of_union in Hx as [?|Hx]; [done|]. by rewrite (Hr x Hx) in Ha. }
  assert (Hce : anticone_count c s = anticone_count c v) by (unfold anticone_count; by rewrite Heq).
  split; rewrite ?Heq, ?Hce; assumption.
Qed.

Lemma blues_split d r :
  data_ok self d r → real self (selected_parent d) →
  ∃ r0, blue_past self (selected_parent d) r0 ∧ r = list_to_set (mergeset_blues d) ∪ r0 ∧
    ∀ x, x ∈ mergeset_blues d → x ∉ r0.
Proof.
  intros Hd Hr. destruct (do_past _ _ _ Hd) as (r0 & Hp & ->). exists r0. split; [done|]. split; [done|].
  intros x Hx Hx0. apply (blue_past_real _ _ Hr Hp) in Hx0 as (Hxr & Hanc & Hne).
  destruct (do_blues _ _ _ Hd) as (l & Hl & Hanti). rewrite Hl in Hx. apply elem_of_cons in Hx as [?|Hx]; [done|].
  rewrite Forall_forall in Hanti. specialize (Hanti x Hx). unfold in_anticone in Hanti.
  rewrite (proj2 (reach_iff x (selected_parent d) Hxr Hr) Hanc) in Hanti. by rewrite andb_false_r in Hanti.
Qed.

Lemma color_walk {E} fuel h d r v st :
  store !! h = Some d → h ≠ ORIGIN → blue_past self h r → acc_ok v st → s = v ∪ r → v ## r →
  (Z.to_nat (gd_blue_score d) < fuel)%nat → colored (color_loop (E := E) self n c k fuel (Some h) d st).
Proof.
  revert h d r v st. induction fuel as [|fuel IH]; intros h d r v st Hd Ho Hp Hacc Hsplit Hdisj Hfuel; [lia|].
  assert (Hh : real self h) by (split; [by eexists|done]).
  cbn [color_loop]. unfold check_blue_candidate_with_chain_block. destruct (is_dag_ancestor_of h c) eqn:Hhc.
  { left. exists st.2, st.1. split; [done|]. apply (acc_ok_past v r); [by destruct st|done|].
    intros x Hx. apply (blue_past_real _ _ Hh Hp) in Hx as (Hxr & Hxh & _).
    apply reach_iff; [done|apply (ca_real _ _ Hc)|]. apply reach_iff in Hhc; [|done|apply (ca_real _ _ Hc)]. by transitivity h. }
  assert (Hg : h ≠ genesis).
  { intros ->. rewrite (proj2 (reach_iff genesis c Hh (ca_real _ _ Hc))) in Hhc; [done|].
    apply (so_root _ Hok), (ca_real _ _ Hc). }
  destruct (blue_past_score h d Hd Ho) as (r' & Hp' & Hscore & Hdata). rewrite (blue_past_fun _ _ _ Hp Hp') in *.
  pose proof (selected_parent_real h d Hd Ho Hg) as Hspr.
  destruct (blues_split d r' (Hdata Hg) Hspr) as (r0 & Hp0 & Hr' & Hdis0).
  destruct (check_peers_spec v st (mergeset_blues d) Hacc) as [(st' & -> & Hacc')|[-> Hviol]];
    [set_solver|set_solver|apply (do_nodup _ _ _ (Hdata Hg))|set_solver| |right; by split].
  cbn [mbind outcome_bind fst snd]. destruct Hspr as [[d' Hd'] Hspo]. rewrite Hd'. cbn [unwrap mbind outcome_bind].
  apply (IH _ _ r0 (list_to_set (mergeset_blues d) ∪ v)); [done|done|done|done|set_solver| |].
  - intros x [Hx%elem_of_list_to_set|Hx]%elem_of_union Hx0; [by apply (Hdis0 x)|set_solver].
  - pose proof (score_decreases h d d' Hd Ho Hg Hd'). lia.
Qed.

Lemma acc_ok_empty : acc_ok ∅ (∅, 0).
Proof.
  assert (He : blue_anticone c ∅ = ∅) by (apply set_eq; intros x; rewrite elem_of_blue_anticone; set_solver).
  split; unfold anticone_count; rewrite ?He; cbn [fst snd].
  - intros x. rewrite decide_False by set_solver. apply lookup_empty.
  - by rewrite size_empty.
  - rewrite size_empty. lia.
  - set_solver.
Qed.

(** The selected parent's anticone holds all other mergeset blues, so the length test
    never turns away a block that fits. *)
Lemma mergeset_blues_count :
  Z.of_nat (length (mergeset_blues n)) ≤ k + 1 ∧
  (Z.of_nat (length (mergeset_blues n)) = k + 1 → violates).
Proof.
  destruct (do_blues _ _ _ Hn) as (l & Hl & Hanti). pose proof (do_nodup _ _ _ Hn) as Hnd.
  destruct (do_past _ _ _ Hn) as (s0 & Hp & Hs). rewrite Hl in *. apply NoDup_cons in Hnd as [Hspl Hnd].
  assert (Hspin : selected_parent n ∈ s) by (rewrite Hs; set_solver).
  assert (Hle : Z.of_nat (length l) ≤ anticone_count (selected_parent n) s).
  { unfold anticone_count. apply inj_le. rewrite <- (size_list_to_set (C := gset Hash) l) by done. apply subseteq_size.
    intros x Hx%elem_of_list_to_set. apply elem_of_blue_anticone. split; [rewrite Hs; set_solver|].
    by rewrite Forall_forall in Hanti; apply Hanti. }
  pose proof (do_cluster _ _ _ Hn _ Hspin) as Hcl. cbn beta in Hcl. cbn [length]. split; [lia|].
  intros Heq. right. exists (selected_parent n). split; [|lia]. apply elem_of_blue_anticone.
  split; [done|]. rewrite in_anticone_sym. apply (ca_sp _ _ Hc).
Qed.

Lemma check_blue_candidate_spec {E} : colored (check_blue_candidate (E := E) self n c k).
Proof.
  unfold check_blue_candidate, u16_add. rewrite (proj2 (Z.ltb_lt (k + 1) (2 ^ 16))) by lia. cbn [mbind outcome_bind].
  destruct mergeset_blues_count as [Hlen Hviol]. rewrite Z.mod_small by lia.
  destruct (Z.eqb_spec (Z.of_nat (length (mergeset_blues n))) (k + 1)); [right; split; [done|by apply Hviol]|].
  destruct (blues_split n s Hn Hsp) as (s0 & Hp & Hs & Hdis).
  unfold chain_fuel. destruct Hsp as [[d Hd] Hspo]. rewrite Hd.
  set (f := S (Z.to_nat (gd_blue_score d))). assert (Hf : (Z.to_nat (gd_blue_score d) < f)%nat) by (subst f; lia).
  clearbody f. cbn [color_loop]. unfold check_blue_candidate_with_chain_block.
  destruct (check_peers_spec ∅ (∅, 0) (mergeset_blues n) acc_ok_empty) as [(st & -> & Hacc)|[-> ?]];
    [set_solver|set_solver|apply (do_nodup _ _ _ Hn)|set_solver| |by right].
  cbn [mbind outcome_bind fst snd]. rewrite Hd. cbn [unwrap mbind outcome_bind].
  apply (color_walk _ _ _ s0 (list_to_set (mergeset_blues n) ∪ ∅)); [done|done|done|done|set_solver|set_solver|lia].
Qed.

(** The colors are those of the greedy rule. *)
Lemma violates_iff : violates ↔ ¬ k_cluster k ({[c]} ∪ s).
Proof.
  pose proof candidate_fresh as Hfr.
  assert (Hself : in_anticone c c = false).
  { unfold in_anticone. by rewrite (proj2 (reach_iff c c (ca_real _ _ Hc) (ca_real _ _ Hc)) (rtc_refl _ _)). }
  assert (Hcc : anticone_count c ({[c]} ∪ s) = anticone_count c s) by (rewrite anticone_count_add, Hself by done; lia).
  split.
  - intros Hv Hcl. destruct Hv as [Hv|(x & Hx & Hv)].
    + specialize (Hcl c ltac:(set_solver)). cbn beta in Hcl. lia.
    + apply elem_of_blue_anticone in Hx as [Hx Ha]. specialize (Hcl x ltac:(set_solver)). cbn beta in Hcl.
      rewrite anticone_count_add, in_anticone_sym, Ha in Hcl by done. lia.
  - intros Hn'. destruct (decide (k < anticone_count c s)) as [?|Hle]; [by left|]. right.
    destruct (decide (set_Exists (λ x, anticone_count x s = k) (blue_anticone c s))) as [(x & Hx & He)|Hno]; [by exists x|].
    destruct Hn'. intros x [->%elem_of_singleton|Hx]%elem_of_union; [lia|].
    rewrite anticone_count_add by done. pose proof (do_cluster _ _ _ Hn x Hx) as Hcl. cbn beta in Hcl.
    rewrite in_anticone_sym. destruct (in_anticone c x) eqn:Ha; [|lia].
    assert (anticone_count x s ≠ k); [|lia]. intros He. apply Hno. exists x. split; [|done]. by apply elem_of_blue_anticone.
Qed.
End candidate.

(** ** The recorded anticone sizes *)
Lemma anticone_loop_fuel {E} f f' x sizes sp r :
  anticone_loop (E := E) self f x sizes sp = Ok r → (f ≤ f')%nat →
  anticone_loop (E := E) self f' x sizes sp = Ok r.
Proof.
  revert f' sizes sp. induction f as [|f IH]; intros f' sizes sp Hr Hle; cbn [anticone_loop] in Hr.
  - destruct (sizes !! x) eqn:Hx; [destruct f'; cbn [anticone_loop]; by rewrite Hx|]. by destruct (_ || _).
  - destruct f' as [|f']; [lia|]. cbn [anticone_loop]. destruct (sizes !! x); [done|].
    destruct (_ || _); [done|]. destruct (store !! sp); [|done]. cbn [unwrap mbind outcome_bind] in *. by apply IH; [|lia].
Qed.
Lemma anticone_loop_agree {E} f x sizes1 sizes2 sp :
  sizes1 !! x = sizes2 !! x → anticone_loop (E := E) self f x sizes1 sp = anticone_loop self f x sizes2 sp.
Proof. intros Hx. destruct f; cbn [anticone_loop]; by rewrite Hx. Qed.
Lemma anticone_loop_hit {E} f x sizes sp z :
  sizes !! x = Some z → anticone_loop (E := E) self f x sizes sp = Ok z.
Proof. intros Hx. destruct f; cbn [anticone_loop]; by rewrite Hx. Qed.

Lemma bump_sizes_spec {E : Type} l base :
  NoDup l.*1 → Forall (λ p, p.2 + 1 < 2 ^ 16) l →
  ∃ m, bump_sizes (E := E) base l = Ok m ∧
    ∀ x, m !! x = match (list_to_map l : gmap Hash Z) !! x with Some z => Some (z + 1) | None => base !! x end.
Proof.
  revert base. induction l as [|[y z] l IH]; intros base Hnd Hb; [by exists base|].
  cbn [fmap list_fmap fst] in Hnd. apply NoDup_cons in Hnd as [Hy Hnd]. apply Forall_cons in Hb as [Hz Hb].
  unfold bump_sizes. cbn [try_fold fst snd] in *. rewrite u16_add_total by done.
  cbn [mbind outcome_bind]. destruct (IH (<[y := z + 1]> base) Hnd Hb) as (m & Hm & Hl). exists m. split; [exact Hm|].
  intros x. rewrite Hl. cbn [list_to_map foldr fst snd]. destruct (decide (x = y)) as [->|Hne].
  - rewrite lookup_insert_eq. by rewrite (not_elem_of_list_to_map_1 l y), lookup_insert_eq by done.
  - by rewrite !lookup_insert_ne by done.
Qed.

(** The data of a new block before its mergeset is colored. *)
Lemma new_data_ok sp s0 :
  real self sp → 0 ≤ k → blue_past self sp s0 → data_ok self (new_with_selected_parent sp) ({[sp]} ∪ s0).
Proof.
  intros Hsp Hk Hp. assert (Hself : in_anticone sp sp = false).
  { unfold in_anticone. by rewrite (proj2 (reach_iff sp sp Hsp Hsp) (rtc_refl _ _)). }
  assert (Hpast : ∀ x, x ∈ s0 → in_anticone x sp = false).
  { intros x Hx. apply (blue_past_real _ _ Hsp Hp) in Hx as (Hxr & Hxs & _). unfold in_anticone.
    by rewrite (proj2 (reach_iff x sp Hxr Hsp) Hxs). }
  assert (Hfresh : sp ∉ s0) by (intros Hx; by apply (blue_past_real _ _ Hsp Hp) in Hx as (_ & _ & ?)).
  assert (Hsp0 : anticone_count sp ({[sp]} ∪ s0) = 0).
  { unfold anticone_count. replace (blue_anticone sp ({[sp]} ∪ s0)) with (∅ : gset Hash); [by rewrite size_empty|].
    symmetry. apply elem_of_equiv_empty_L. intros x [Hx Ha]%elem_of_blue_anticone.
    apply elem_of_union in Hx as [->%elem_of_singleton|Hx]; [congruence|]. rewrite in_anticone_sym, Hpast in Ha; done. }
  destruct Hsp as [[d Hd] Hso]. assert (Hsp : real self sp) by (split; [by eexists|done]).
  destruct (blue_past_score sp d Hd Hso) as (s' & Hp' & Hscore & Hdata). rewrite (blue_past_fun _ _ _ Hp' Hp) in *.
  assert (Hcount : ∀ x, x ∈ s0 → anticone_count x ({[sp]} ∪ s0) = anticone_count x s0).
  { intros x Hx. rewrite anticone_count_add, Hpast by done. lia. }
  assert (Hng : ∀ x, x ∈ s0 → sp ≠ genesis).
  { intros x Hx ->. rewrite (blue_past_fun _ _ _ Hp (blue_past_genesis _)) in Hx. set_solver. }
  split; cbn [mergeset_blues selected_parent new_with_selected_parent].
  - exists []. by split.
  - apply NoDup_singleton.
  - by constructor.
  - exists s0. split; [done|set_solver].
  - intros x [->%elem_of_singleton|Hx]%elem_of_union; [lia|]. rewrite Hcount by done.
    by apply (do_cluster _ _ _ (Hdata (Hng x Hx))).
  - intros E x [->%elem_of_singleton|Hx]%elem_of_union; unfold blue_anticone_size; cbn [blues_anticone_sizes selected_parent new_with_selected_parent].
    + rewrite Hsp0. apply anticone_loop_hit, lookup_singleton_eq.
    + rewrite Hcount by done. pose proof (Hng x Hx) as Hg. specialize (Hdata Hg).
      pose proof (do_sizes _ _ _ Hdata E x Hx) as Hsize. unfold blue_anticone_size in Hsize.
      unfold chain_fuel at 1. rewrite Hd. set (f := S (Z.to_nat (gd_blue_score d))). cbn [anticone_loop].
      rewrite lookup_singleton_ne by (intros ->; done). rewrite !bool_decide_eq_false_2 by done. cbn [orb].
      rewrite Hd. cbn [unwrap mbind outcome_bind]. eapply anticone_loop_fuel; [exact Hsize|].
      unfold chain_fuel. destruct (selected_parent_real sp d Hd Hso Hg) as [[d' Hd'] _]. rewrite Hd'.
      pose proof (score_decreases sp d d' Hd Hso Hg Hd'). lia.
Qed.

(** Recording a blue: its own anticone size, and one more for every blue in its anticone. *)
Lemma blue_data_ok (n : GhostdagData) (s : gset Hash) (c : Hash) (cnt : Z) (sizes m : gmap Hash Z) :
  data_ok self n s → real self (selected_parent n) → candidate n c → k_cluster k ({[c]} ∪ s) →
  cnt = anticone_count c s →
  (∀ x, sizes !! x = if decide (x ∈ blue_anticone c s) then Some (anticone_count x s) else None) →
  (∀ x, m !! x = match sizes !! x with Some z => Some (z + 1) | None => <[c := cnt]> (blues_anticone_sizes n) !! x end) →
  data_ok self (mk_ghostdag (gd_blue_score n) (gd_blue_work n) (selected_parent n) (mergeset_blues n ++ [c])
    (mergeset_reds n) m) ({[c]} ∪ s).
Proof.
  intros Hn Hsp Hc Hclu Hcnt Hsz Hm. pose proof (candidate_fresh n s c Hn Hsp Hc) as Hfresh.
  destruct (do_past _ _ _ Hn) as (s0 & Hp & Hs). assert (Hcb : c ∉ mergeset_blues n) by set_solver.
  split; cbn [mergeset_blues selected_parent].
  - destruct (do_blues _ _ _ Hn) as (l & -> & Hl). exists (l ++ [c]). split; [done|]. apply Forall_app.
    split; [done|]. constructor; [apply (ca_sp _ _ Hc)|done].
  - apply NoDup_app. split; [apply (do_nodup _ _ _ Hn)|]. split; [set_solver|apply NoDup_singleton].
  - apply Forall_app. split; [apply (do_real _ _ _ Hn)|]. constructor; [apply (ca_real _ _ Hc)|done].
  - exists s0. split; [done|]. rewrite list_to_set_app_L. set_solver.
  - done.
  - intros E x Hx. unfold blue_anticone_size. cbn [blues_anticone_sizes selected_parent].
    assert (Hcc : in_anticone c c = false).
    { unfold in_anticone. by rewrite (proj2 (reach_iff c c (ca_real _ _ Hc) (ca_real _ _ Hc)) (rtc_refl _ _)). }
    rewrite anticone_count_add by done. specialize (Hm x). rewrite Hsz in Hm.
    destruct (decide (x ∈ blue_anticone c s)) as [Hin|Hin].
    + apply anticone_loop_hit. rewrite Hm. apply elem_of_blue_anticone in Hin as [_ Ha].
      by rewrite in_anticone_sym, Ha.
    + apply elem_of_union in Hx as [->%elem_of_singleton|Hx].
      * apply anticone_loop_hit. rewrite Hm, lookup_insert_eq, Hcc, Hcnt. f_equal. lia.
      * rewrite lookup_insert_ne in Hm by (intros ->; done). rewrite (anticone_loop_agree _ _ _ _ _ Hm).
        rewrite in_anticone_sym. destruct (in_anticone c x) eqn:Ha; [by destruct Hin; apply elem_of_blue_anticone|].
        rewrite Z.add_0_r. by apply (do_sizes _ _ _ Hn).
Qed.

(** Coloring one block. *)
Lemma color_step_spec {E} n s c :
  data_ok self n s → real self (selected_parent n) → candidate n c → 0 ≤ k < 2 ^ 16 - 1 →
  ∃ n', color_step (E := E) self n c = Ok n' ∧ selected_parent n' = selected_parent n ∧
    if decide (k_cluster k ({[c]} ∪ s))
    then data_ok self n' ({[c]} ∪ s) ∧ mergeset_blues n' = mergeset_blues n ++ [c] ∧ mergeset_reds n' = mergeset_reds n
    else data_ok self n' s ∧ mergeset_blues n' = mergeset_blues n ∧ mergeset_reds n' = mergeset_reds n ++ [c].
Proof.
  intros Hn Hsp Hc Hk. unfold color_step. pose proof (violates_iff n s c Hn Hsp Hc Hk) as Hviol.
  pose proof (candidate_fresh n s c Hn Hsp Hc) as Hfresh.
  destruct (check_blue_candidate_spec n s c Hn Hsp Hc Hk (E := E)) as [(cnt & sizes & -> & [Hsz Hcnt Hb Hf])|[-> Hv]].
  2:{ cbn [mbind outcome_bind]. eexists. split; [done|]. split; [done|]. rewrite decide_False by (by apply Hviol).
      split; [|done]. by destruct Hn. }
  cbn [mbind outcome_bind fst snd] in *.
  assert (Hclu : k_cluster k ({[c]} ∪ s)).
  { destruct (decide (k_cluster k ({[c]} ∪ s))) as [?|Hno]; [done|]. destruct (proj2 Hviol Hno) as [?|(x & Hx & He)]; [lia|].
    specialize (Hf x Hx). lia. }
  unfold add_blue. destruct (bump_sizes_spec (E := E) (map_to_list sizes) (<[c := cnt]> (blues_anticone_sizes n)))
    as (m & Hm & Hl).
  { apply NoDup_fst_map_to_list. }
  { apply Forall_forall. intros [x z] Hxz%elem_of_map_to_list. rewrite Hsz in Hxz. cbn [snd].
    destruct (decide _) as [Hin|]; [|done]. injection Hxz as <-. specialize (Hf x Hin). lia. }
  rewrite Hm. cbn [mbind outcome_bind]. rewrite list_to_map_to_list in Hl. eexists. split; [done|]. split; [done|].
  rewrite decide_True by done. split; [|done].
  apply (blue_data_ok n s c cnt sizes m); done.
Qed.

(** ** Coloring the mergeset *)
Lemma color_steps_spec {E} n s l :
  data_ok self n s → real self (selected_parent n) → 0 ≤ k < 2 ^ 16 - 1 →
  Forall (candidate n) l → StronglySorted (λ a b, is_dag_ancestor_of b a = false) l →
  ∃ n' s', try_fold (color_step (E := E) self) n l = Ok n' ∧ selected_parent n' = selected_parent n ∧
    data_ok self n' s' ∧ mergeset_blues n' = mergeset_blues n ++ (greedy k s l).1 ∧
    mergeset_reds n' = mergeset_reds n ++ (greedy k s l).2.
Proof.
  intros Hn Hsp Hk Hl Hs. revert n s Hn Hsp Hl. induction Hs as [|c l Hs IH Hc]; intros n s Hn Hsp Hl.
  { exists n, s. cbn [greedy try_fold fst snd]. by rewrite !app_nil_r. }
  apply Forall_cons in Hl as [Hcc Hl]. cbn [try_fold].
  destruct (color_step_spec (E := E) n s c Hn Hsp Hcc Hk) as (n1 & -> & Hsp1 & Hcase). cbn [mbind outcome_bind greedy].
  rewrite Forall_forall in Hl, Hc.
  assert (Hl1 : Forall (candidate n1) l).
  { apply Forall_forall. intros y Hy. destruct (Hl y Hy) as [H1 H2 H3]. split; [done|by rewrite Hsp1|].
    intros x Hx. assert (x ∈ mergeset_blues n ∨ x = c) as [?| ->]; [|by apply H3|by apply Hc].
    destruct (decide (k_cluster k ({[c]} ∪ s))); destruct Hcase as (_ & Hb & _); rewrite Hb in Hx; [|by left].
    apply elem_of_app in Hx as [?|Hx]; [by left|right]. by apply list_elem_of_singleton. }
  destruct (decide (k_cluster k ({[c]} ∪ s))); destruct Hcase as (Hn1 & Hb & Hr).
  - destruct (IH n1 ({[c]} ∪ s)) as (n2 & s2 & H1 & H2 & H3 & H4 & H5); [done|by rewrite Hsp1|done|].
    exists n2, s2. rewrite H1, H2, H4, H5, Hsp1, Hb, Hr. cbn [fst snd]. by rewrite <- app_assoc.
  - destruct (IH n1 s) as (n2 & s2 & H1 & H2 & H3 & H4 & H5); [done|by rewrite Hsp1|done|].
    exists n2, s2. rewrite H1, H2, H4, H5, Hsp1, Hb, Hr. cbn [fst snd]. by rewrite <- app_assoc.
Qed.

(** ** The selected parent *)
Lemma max_sortable_spec x l : ∃ b, max_sortable (x :: l) = Some b ∧ b ∈ x :: l ∧ Forall (λ y, sortable_le y b) (x :: l).
Proof.
  unfold max_sortable. eexists. split; [done|]. revert x. induction l as [|y l IH]; intros x; cbn [foldl].
  - split; [by left|]. constructor; [|done]. by destruct (total sortable_le x x).
  - set (b := match sortable_cmp x y with Gt => x | _ => y end).
    assert (Hb : (b = x ∨ b = y) ∧ sortable_le x b ∧ sortable_le y b).
    { subst b. assert (sortable_le x x) by (by destruct (total sortable_le x x)).
      assert (sortable_le y y) by (by destruct (total sortable_le y y)).
      destruct (sortable_cmp x y) eqn:Hc.
      - split; [by right|]. split; [|done]. unfold sortable_le. by rewrite Hc.
      - split; [by right|]. split; [by apply sortable_cmp_Lt|done].
      - split; [by left|]. split; [done|by apply sortable_cmp_Gt]. }
    destruct Hb as (Hor & Hx & Hy), (IH b) as [Hin Hall]. apply Forall_cons in Hall as [Hbr Hall].
    split.
    + apply elem_of_cons in Hin as [Hin|Hin]; [|by right; right]. rewrite Hin. destruct Hor as [-> | ->]; [by left|by right; left].
    + constructor; [by transitivity b|]. constructor; [by transitivity b|done].
Qed.

Lemma find_selected_parent_spec {E} parents :
  parents ≠ [] → Forall (real self) parents →
  ∃ sp, find_selected_parent (E := E) self parents = Ok sp ∧ sp ∈ parents ∧
    ∀ p, p ∈ parents → sortable_le (mk_sortable p (work_in store p)) (mk_sortable sp (work_in store sp)).
Proof.
  intros Hne Hr. rewrite Forall_forall in Hr. unfold find_selected_parent.
  rewrite (try_map_Ok _ (λ h, mk_sortable h (work_in store h))) by (intros p Hp; by apply sortable_Ok, Hr).
  cbn [mbind outcome_bind]. destruct parents as [|p0 ps]; [done|]. cbn [fmap list_fmap].
  destruct (max_sortable_spec (mk_sortable p0 (work_in store p0)) ((λ h, mk_sortable h (work_in store h)) <$> ps))
    as (b & -> & Hin & Hall). cbn [unwrap mbind outcome_bind].
  change (b ∈ (λ h, mk_sortable h (work_in store h)) <$> (p0 :: ps)) in Hin.
  apply list_elem_of_fmap in Hin as (sp & -> & Hsp). exists sp. split; [done|]. split; [done|].
  intros p Hp. rewrite Forall_forall in Hall. apply Hall.
  change (mk_sortable p (work_in store p) ∈ (λ h, mk_sortable h (work_in store h)) <$> (p0 :: ps)).
  apply list_elem_of_fmap. by exists p.
Qed.

(** ** The mergeset of a new block *)
Lemma anc_origin_genesis y : real self y → anc ORIGIN y → anc ORIGIN genesis.
Proof.
  intros Hy Ha. revert Hy. revert y Ha. apply (rtc_ind_r (λ y, real self y → anc ORIGIN genesis)); [by intros [_ ?]|].
  intros y z Hoy Hyz IH Hz. destruct (decide (z = genesis)) as [->|Hne]; [by eapply rtc_r|].
  apply IH. by eapply (so_closed _ Hok).
Qed.

Section block.
Context (parents : list Hash) (sp : Hash).
Context (Hr : Forall (real self) parents) (Hsp : sp ∈ parents).
Context (Hbest : ∀ p, p ∈ parents → work_in store p ≤ work_in store sp).

Lemma sp_real : real self sp.
Proof. rewrite Forall_forall in Hr. by apply Hr. Qed.

Lemma merged_candidate x :
  merged rel sp parents x → candidate (new_with_selected_parent sp) x ∧ work_in store x ≤ work_in store sp.
Proof.
  intros [(p & Hp & Hxp) Hn]. pose proof sp_real as Hspr. rewrite Forall_forall in Hr. pose proof (Hr p Hp) as Hpr.
  assert (Hx : real self x ∧ work_in store x ≤ work_in store p).
  { destruct (anc_cases x p Hpr Hxp) as [->|[->|[? ?]]]; [done| |split; [done|lia]].
    destruct Hn. transitivity (genesis_hash self); [by eapply anc_origin_genesis|by apply (so_root _ Hok)]. }
  destruct Hx as [Hx Hwx]. pose proof (Hbest p Hp).
  assert (Hcx : is_dag_ancestor_of x sp = false).
  { destruct (is_dag_ancestor_of x sp) eqn:He; [|done]. by apply reach_iff in He. }
  assert (Hcs : is_dag_ancestor_of sp x = false).
  { destruct (is_dag_ancestor_of sp x) eqn:He; [|done]. apply reach_iff in He; [|done..].
    destruct (anc_work sp x Hspr Hx He) as [->|?]; [by destruct Hn|lia]. }
  split; [|lia]. split; cbn [selected_parent new_with_selected_parent mergeset_blues].
  - done.
  - unfold in_anticone. by rewrite Hcs, Hcx.
  - intros y ->%list_elem_of_singleton. done.
Qed.

Lemma sorted_topological l :
  StronglySorted (λ a b, work_in store a ≤ work_in store b) l → NoDup l → Forall (real self) l →
  StronglySorted (λ a b, is_dag_ancestor_of b a = false) l.
Proof.
  induction 1 as [|x l Hs IH Hall]; [constructor|]. intros [Hx Hnd]%NoDup_cons [Hxr Hlr]%Forall_cons.
  constructor; [by apply IH|]. rewrite Forall_forall in Hall, Hlr. apply Forall_forall. intros y Hy.
  destruct (is_dag_ancestor_of y x) eqn:He; [|done]. apply reach_iff in He; [|by apply Hlr|done].
  destruct (anc_work y x (Hlr y Hy) Hxr He) as [->|?]; [done|]. specialize (Hall y Hy). lia.
Qed.

Lemma ordered_mergeset_spec {E} :
  NoDup parents → (∀ p q, p ∈ parents → q ∈ parents → p ≠ q → ¬ anc p q) →
  ∃ l, ordered_mergeset_without_selected_parent (E := E) rel store sp parents = Ok l ∧
    (∀ x, x ∈ l ↔ merged rel sp parents x) ∧ NoDup l ∧
    Forall (candidate (new_with_selected_parent sp)) l ∧
    StronglySorted (λ a b, work_in store a ≤ work_in store b) l ∧
    StronglySorted (λ a b, is_dag_ancestor_of b a = false) l.
Proof.
  intros Hnd Hanti. pose proof sp_real as Hspr. unfold ordered_mergeset_without_selected_parent.
  destruct (mergeset_spec rel (so_dag _ Hok) (E := E) sp parents) as (ms & -> & Hms).
  - by apply (so_known _ Hok), Hspr.
  - done.
  - eapply Forall_impl; [exact Hr|]. intros p [Hp _]. by apply (so_known _ Hok).
  - intros p Hp Hne. by apply Hanti.
  - cbn [mbind outcome_bind].
    assert (Hcand : ∀ x, x ∈ ms → candidate (new_with_selected_parent sp) x).
    { intros x Hx. by apply merged_candidate, Hms. }
    destruct (sort_blocks_spec (E := E) store (elements ms)) as (l & -> & Hp & Hs).
    { intros x Hx%elem_of_elements. apply (ca_real _ _ (Hcand x Hx)). }
    assert (Hin : ∀ x, x ∈ l ↔ x ∈ ms) by (intros x; by rewrite Hp, elem_of_elements).
    assert (Hndl : NoDup l) by (rewrite Hp; apply NoDup_elements).
    exists l. split; [done|]. split; [intros x; by rewrite Hin, Hms|]. split; [done|].
    split; [apply Forall_forall; intros x Hx; by apply Hcand, Hin|]. split; [done|].
    apply sorted_topological; [done|done|]. apply Forall_forall. intros x Hx. by apply (ca_real _ _ (Hcand x (proj1 (Hin x) Hx))).
Qed.
End block.

(** ** Blue score and blue work of a new block *)
Definition work_of (x : Hash) : Z := match block_work (E := unit) self x with Ok w => val w | _ => 0 end.

(** The headers of stored blocks have targets with a work, and all the work there is fits
    the width. *)
Record work_ok : Prop := {
  wo_level : uint_ok 3 (gm_level_work self);
  wo_bits : ∀ x, real self x → ∃ h, gm_headers self !! x = Some h ∧ 0 ≤ ch_bits h ∧
    2 ^ 64 ≤ val (from_compact_target_bits (ch_bits h));
  wo_fits : ∀ sp d l, store !! sp = Some d → NoDup l → Forall (real self) l →
    0 ≤ gd_blue_work d ∧ gd_blue_work d + Zsum (work_of <$> l) < 2 ^ 192 }.

Lemma block_work_Ok {E : Type} x :
  work_ok → real self x → ∃ w, block_work (E := E) self x = Ok w ∧ uint_ok 3 w ∧ val w = work_of x ∧ 0 < val w.
Proof.
  intros [Hlev Hbits _] Hx. destruct (Hbits x Hx) as (h & Hh & Hb & Ht). unfold work_of, block_work. rewrite Hh.
  cbn [unwrap mbind outcome_bind]. destruct (calc_work_spec (E := E) (ch_bits h) Hb) as (H1 & _).
  destruct (calc_work_spec (E := unit) (ch_bits h) Hb) as (H2 & _). 
  destruct (H1 Ht) as (w & -> & Hw & Hv & Hpos), (H2 Ht) as (w' & -> & Hw' & Hv' & _). cbn [mbind outcome_bind].
  assert (w' = w) as ->.
  { apply val_inj; [by rewrite (proj1 Hw), (proj1 Hw')|apply Hw'|apply Hw|by rewrite Hv, Hv']. }
  eexists. split; [done|]. rewrite (cmp_spec 3) by done.
  destruct (Z.compare_spec (val w) (val (gm_level_work self))) as [He|Hlt|Hgt]; (split; [done|]); (split; [done|lia]).
Qed.

Lemma works_spec {E : Type} l :
  work_ok → Forall (real self) l →
  ∃ ws, try_map (block_work (E := E) self) l = Ok ws ∧ Forall (uint_ok 3) ws ∧ val <$> ws = work_of <$> l ∧
    Forall (λ x, 0 < work_of x) l.
Proof.
  intros Hw. induction 1 as [|x l Hx _ (ws & Hws & Hok' & Hval & Hpos)]; [by exists []|].
  destruct (block_work_Ok (E := E) x Hw Hx) as (w & Hbw & Hwok & Hv & Hp). exists (w :: ws). cbn [try_map].
  rewrite Hbw, Hws. cbn [mbind outcome_bind fmap list_fmap]. split; [done|]. split; [by constructor|].
  split; [rewrite <- Hv; f_equal; exact Hval|]. constructor; [lia|done].
Qed.

Lemma blue_set_size n s :
  data_ok self n s → real self (selected_parent n) → ∃ d s0, store !! selected_parent n = Some d ∧
    blue_past self (selected_parent n) s0 ∧ s = list_to_set (mergeset_blues n) ∪ s0 ∧
    gd_blue_score d + Z.of_nat (length (mergeset_blues n)) = Z.of_nat (size s) ∧
    Z.of_nat (size s) ≤ Z.of_nat (size store).
Proof.
  intros Hn Hsp. destruct (blues_split n s Hn Hsp) as (s0 & Hp & Hs & Hdis). pose proof Hsp as [[d Hd] Ho].
  exists d, s0. split; [done|]. split; [done|]. split; [done|].
  destruct (blue_past_score _ _ Hd Ho) as (s1 & Hp1 & -> & _). rewrite (blue_past_fun _ _ _ Hp1 Hp). split.
  - rewrite Hs, size_union by set_solver. rewrite size_list_to_set by apply (do_nodup _ _ _ Hn). lia.
  - apply inj_le. rewrite <- (size_dom store). apply subseteq_size. intros x Hx. apply elem_of_dom.
    by apply (blue_real n s Hn Hsp).
Qed.

(** A block to be colored: its parents are stored, distinct and pairwise unrelated. *)
Record new_block (b : Hash) (parents : list Hash) : Prop := {
  nb_rel : rel !! b = Some parents;
  nb_fresh : store !! b = None;
  nb_origin : b ≠ ORIGIN;
  nb_nonempty : parents ≠ [];
  nb_nodup : NoDup parents;
  nb_real : Forall (real self) parents;
  nb_antichain : ∀ p q, p ∈ parents → q ∈ parents → p ≠ q → ¬ anc p q }.

(** What [ghostdag] computes for it. *)
Record greedy_coloring (parents : list Hash) (d : GhostdagData) : Prop := {
  gc_sp : selected_parent d ∈ parents;
  gc_best : ∀ p, p ∈ parents →
    sortable_le (mk_sortable p (work_in store p)) (mk_sortable (selected_parent d) (work_in store (selected_parent d)));
  gc_colors : ∃ l s0, (∀ x, x ∈ l ↔ merged rel (selected_parent d) parents x) ∧ NoDup l ∧
    StronglySorted (λ a b, work_in store a ≤ work_in store b) l ∧ blue_past self (selected_parent d) s0 ∧
    mergeset_blues d = selected_parent d :: (greedy k ({[selected_parent d]} ∪ s0) l).1 ∧
    mergeset_reds d = (greedy k ({[selected_parent d]} ∪ s0) l).2;
  gc_data : ∃ s, data_ok self d s ∧ gd_blue_score d = Z.of_nat (size s);
  gc_work : gd_blue_work d = work_in store (selected_parent d) + Zsum (work_of <$> mergeset_blues d) }.

Lemma coloring_spec {E} parents :
  parents ≠ [] → NoDup parents → Forall (real self) parents → (∀ p q, p ∈ parents → q ∈ parents → p ≠ q → ¬ anc p q) →
  work_ok → 0 ≤ k < 2 ^ 16 - 1 → Z.of_nat (size store) ≤ u64_max →
  ∃ d, ghostdag (E := E) self parents = Ok d ∧ greedy_coloring parents d.
Proof.
  intros Hne Hnd Hr Hanti Hw Hk Hsize. unfold ghostdag. rewrite bool_decide_eq_false_2 by done.
  destruct (find_selected_parent_spec (E := E) parents Hne Hr) as (sp & -> & Hsp & Hbest). cbn [mbind outcome_bind].
  assert (Hwbest : ∀ p, p ∈ parents → work_in store p ≤ work_in store sp).
  { intros p Hp. specialize (Hbest p Hp). apply sortable_le_iff in Hbest. cbn [sb_blue_work] in Hbest. lia. }
  pose proof (sp_real parents sp Hr Hsp) as Hspr. unfold is_origin. rewrite bool_decide_eq_false_2 by apply Hspr.
  destruct (ordered_mergeset_spec parents sp Hr Hsp Hwbest (E := E) Hnd Hanti) as (l & -> & Hl & Hndl & Hcand & Hsort & Htopo).
  cbn [mbind outcome_bind]. destruct Hspr as [[spd Hspd] Hspo]. assert (Hspr : real self sp) by (split; [by eexists|done]).
  destruct (blue_past_score sp spd Hspd Hspo) as (s0 & Hp0 & _ & _).
  pose proof (new_data_ok sp s0 Hspr ltac:(lia) Hp0) as Hnew.
  destruct (color_steps_spec (E := E) _ _ l Hnew Hspr Hk Hcand Htopo) as (n & s & -> & Hnsp & Hn & Hblues & Hreds).
  cbn [mbind outcome_bind selected_parent new_with_selected_parent mergeset_blues mergeset_reds app] in *.
  rewrite Hspd. cbn [unwrap mbind outcome_bind].
  destruct (blue_set_size n s Hn) as (spd' & s0' & Hspd' & _ & _ & Hscore & Hle); [by rewrite Hnsp|].
  rewrite Hnsp in Hspd'. assert (spd' = spd) as -> by congruence.
  rewrite u64_add_total by lia. cbn [mbind outcome_bind].
  destruct (works_spec (E := E) (mergeset_blues n) Hw (do_real _ _ _ Hn)) as (ws & -> & Hws & Hval & Hpos). cbn [mbind outcome_bind].
  destruct (wo_fits Hw sp spd (mergeset_blues n) Hspd (do_nodup _ _ _ Hn) (do_real _ _ _ Hn)) as [Hw0 Hw1].
  assert (Hws0 : 0 ≤ Zsum (work_of <$> mergeset_blues n)).
  { apply Zsum_nonneg, Forall_fmap. eapply Forall_impl; [exact Hpos|]. intros x Hx. cbv beta in Hx. unfold compose. lia. }
  destruct (uint_sum_spec 3 ws Hws) as [_ Hsum]; [rewrite Hval, modulus_pow2; change (64 * Z.of_nat 3) with 192; lia|].
  eexists. split; [done|]. rewrite Hsum, Hval, Z.mod_small by lia.
  split; cbn [finalize_score_and_work selected_parent mergeset_blues mergeset_reds gd_blue_score gd_blue_work]; rewrite ?Hnsp.
  - done.
  - done.
  - exists l, s0. by rewrite Hblues, Hreds.
  - exists s. split; [|done]. by destruct Hn.
  - unfold work_in, get_blue_work. by rewrite Hspd.
Qed.
Lemma ghostdag_spec {E} b parents :
  new_block b parents → work_ok → 0 ≤ k < 2 ^ 16 - 1 → Z.of_nat (size store) ≤ u64_max →
  ∃ d, ghostdag (E := E) self parents = Ok d ∧ greedy_coloring parents d.
Proof. intros [_ _ _ Hne Hnd Hr Hanti]. by apply coloring_spec. Qed.

(** ** Storing the new block *)
Section insert.
Context (b : Hash) (d : GhostdagData) (Hfresh : store !! b = None).
Abbreviation self' := (insert_data self b d) (only parsing).

Lemma insert_stored x e : store !! x = Some e → x ≠ b ∧ ghostdag_store self' !! x = Some e.
Proof. intros Hx. assert (x ≠ b) by congruence. split; [done|]. by apply lookup_insert_Some; right. Qed.

Lemma insert_real x : real self x → real self' x.
Proof. intros [[e He] Ho]. split; [|done]. exists e. by apply insert_stored. Qed.
Lemma insert_real_inv x : real self' x → x = b ∨ real self x.
Proof.
  intros [Hx Ho]. cbn [insert_data ghostdag_store] in Hx. destruct (decide (x = b)); [by left|right].
  rewrite lookup_insert_ne in Hx by done. by split.
Qed.

Lemma insert_work x : real self x → work_in (ghostdag_store self') x = work_in store x.
Proof. intros [[e He] _]. unfold work_in, get_blue_work. rewrite He. by destruct (insert_stored x e He) as [_ ->]. Qed.

Lemma insert_blue_past x s : blue_past self x s → blue_past self' x s.
Proof.
  induction 1 as [|x e s Hx He _ IH]; [exact (blue_past_genesis self')|].
  apply (blue_past_step self' x e s); [done|by apply insert_stored|exact IH].
Qed.

Lemma insert_anticone_loop {E} f x sizes sp r :
  anticone_loop (E := E) self f x sizes sp = Ok r → anticone_loop (E := E) self' f x sizes sp = Ok r.
Proof.
  revert sizes sp. induction f as [|f IH]; intros sizes sp; cbn [anticone_loop]; (destruct (sizes !! x); [done|]);
    change (genesis_hash self') with (genesis_hash self); (destruct (_ || _); [done|]); [done|].
  destruct (store !! sp) as [e|] eqn:He; [|done]. cbn [unwrap mbind outcome_bind].
  destruct (insert_stored sp e He) as [_ ->]. apply IH.
Qed.

Lemma insert_data_ok n s : data_ok self n s → data_ok self' n s.
Proof.
  intros Hn. pose proof Hn as [(l & Hb & Hl) Hnd Hr (s0 & Hp & Hs) Hc Hz]. split.
  - by exists l.
  - done.
  - eapply Forall_impl; [exact Hr|]. apply insert_real.
  - exists s0. split; [by apply insert_blue_past|done].
  - done.
  - intros E x Hx. specialize (Hz E x Hx). unfold blue_anticone_size, chain_fuel in *. rewrite Hb in Hr.
    apply Forall_cons in Hr as [[[e He] _] _]. destruct (insert_stored _ e He) as [_ ->]. rewrite He in Hz.
    by apply insert_anticone_loop.
Qed.
End insert.

Lemma greedy_sub s l x : x ∈ (greedy k s l).1 → x ∈ l.
Proof.
  revert s. induction l as [|c l IH]; intros s; [done|]. cbn [greedy]. destruct (decide _); cbn [fst].
  - rewrite !elem_of_cons. intros [->|Hx]; [by left|right]. by eapply IH.
  - intros Hx. right. by eapply IH.
Qed.

Lemma colored_blues parents d x :
  greedy_coloring parents d → x ∈ mergeset_blues d → ∃ p, p ∈ parents ∧ anc x p.
Proof.
  intros [Hsp _ (l & s0 & Hl & _ & _ & _ & Hb & _) _ _]. rewrite Hb. intros [->|Hx]%elem_of_cons.
  - by eexists.
  - apply greedy_sub, Hl in Hx. apply Hx.
Qed.

Lemma colored_work parents d :
  work_ok → greedy_coloring parents d → work_in store (selected_parent d) < gd_blue_work d.
Proof.
  intros Hw [_ _ _ (s & Hd & _) ->]. pose proof Hd as [(l & Hb & _) _ Hr _ _ _].
  destruct (works_spec (E := unit) _ Hw Hr) as (_ & _ & _ & _ & Hpos). rewrite Hb in *. rewrite fmap_cons, Zsum_cons.
  apply Forall_cons in Hpos as [Hp Hpos]. cbv beta in Hp.
  assert (0 ≤ Zsum (work_of <$> l)); [|lia]. apply Zsum_nonneg, Forall_fmap. eapply Forall_impl; [exact Hpos|].
  intros x Hx. cbv beta in Hx. unfold compose. lia.
Qed.

Lemma store_extends b parents d :
  new_block b parents → work_ok → greedy_coloring parents d → store_ok (insert_data self b d).
Proof.
  intros [Hrel Hfresh Hbo Hne Hnd Hr Hanti] Hw Hc.
  assert (Hpar : ∀ x, parent_of rel x b ↔ x ∈ parents).
  { intros x. split; [|by exists parents]. intros (ps & Hps & Hx). congruence. }
  assert (Hreal : ∀ x, x ∈ parents → real self x) by (by apply Forall_forall).
  destruct (so_genesis _ Hok) as [Hgen Hg0].
  assert (Hgb : genesis_hash self ≠ b) by (intros <-; destruct Hgen as [[? ?] _]; congruence).
  split; cbn [insert_data relations_store genesis_hash ghostdag_k].
  - apply (so_dag _ Hok).
  - intros x [e He]. destruct (decide (x = b)) as [->|Hx]; [by eexists|]. cbn [ghostdag_store insert_data] in He.
    rewrite lookup_insert_ne in He by done. by apply (so_known _ Hok); eexists.
  - split; [by apply insert_real|]. intros e. cbn [ghostdag_store insert_data]. rewrite lookup_insert_ne by done. apply Hg0.
  - apply (so_bottom _ Hok).
  - intros x [->|Hx]%insert_real_inv; [|by apply (so_root _ Hok)]. destruct parents as [|p ps]; [done|].
    transitivity p; [by apply (so_root _ Hok), Hreal; left|]. apply rtc_once, Hpar. by left.
  - intros x y [->|Hy]%insert_real_inv Hyg Hxy; apply insert_real; try done; [by apply Hreal, Hpar|].
    by apply (so_closed _ Hok) with y.
  - intros x y [->|Hy]%insert_real_inv Hyg Hxy.
    + apply Hpar in Hxy. rewrite insert_work by auto. pose proof (gc_best _ _ Hc x Hxy) as Hle.
      apply sortable_le_iff in Hle. cbn [sb_blue_work] in Hle. pose proof (colored_work _ _ Hw Hc).
      unfold work_in at 2, get_blue_work. cbn [ghostdag_store insert_data]. rewrite lookup_insert_eq. cbn. lia.
    + assert (real self x) by (by apply (so_closed _ Hok) with y). rewrite !insert_work by done. by apply (so_work _ Hok).
  - intros y e He Hyo Hyg. cbn [ghostdag_store insert_data] in He.
    apply lookup_insert_Some in He as [[<- <-]|[Hne' He]].
    + split; [apply Hpar, (gc_sp _ _ Hc)|]. split.
      * intros x Hx. destruct (colored_blues _ _ _ Hc Hx) as (p & Hp & Ha). exists p. by rewrite Hpar.
      * destruct (gc_data _ _ Hc) as (s & Hs & Hsc). exists s. split; [by apply insert_data_ok|done].
    + destruct (so_data _ Hok y e He Hyo Hyg) as (Hsp & Hbl & s & Hs & Hsc). split; [done|]. split; [done|].
      exists s. split; [by apply insert_data_ok|done].
Qed.
End proofs.

(** ** Growing a DAG from genesis *)
Section growth.
Context `{ReachabilityService}.

(** [init] and [process_genesis] of the header processor. *)
Definition init_store (genesis : Hash) (k : Z) (rel : gmap Hash (list Hash))
    (headers : gmap Hash CompactHeaderData) (level_work : list Z) : GhostdagManager :=
  mk_ghostdag_manager genesis k
    (<[genesis := genesis_ghostdag_data]> {[ORIGIN := origin_ghostdag_data]}) rel headers level_work.

(** Relations of a DAG over genesis, which has the origin as its parent.  They may hold
    blocks that have no stored data yet; ancestry among stored blocks does not depend on
    those. *)
Record relations_ok (genesis : Hash) (rel : gmap Hash (list Hash)) : Prop := {
  ro_dag : dag_ok rel;
  ro_origin : rel !! ORIGIN = Some [];
  ro_genesis : rel !! genesis = Some [ORIGIN];
  ro_distinct : genesis ≠ ORIGIN }.

(** The states in which every block but genesis was stored with what [ghostdag] computes. *)
Inductive grown : GhostdagManager → Prop :=
  | grown_init genesis k rel headers lw :
      relations_ok genesis rel → 0 ≤ k < 2 ^ 16 - 1 → grown (init_store genesis k rel headers lw)
  | grown_block self b parents d :
      grown self → new_block self b parents → work_ok self →
      Z.of_nat (size (ghostdag_store self)) ≤ u64_max →
      ghostdag (E := unit) self parents = Ok d → grown (insert_data self b d).

Lemma init_real genesis k rel headers lw x :
  real (init_store genesis k rel headers lw) x ↔ x = genesis ∧ genesis ≠ ORIGIN.
Proof.
  unfold real. cbn [init_store ghostdag_store]. split.
  - intros [[d [[<- _]|[_ [<- _]%lookup_singleton_Some]]%lookup_insert_Some] Ho]; [by split|done].
  - intros [-> Hg]. split; [|done]. rewrite lookup_insert_eq. by eexists.
Qed.

Lemma init_store_ok genesis k rel headers lw :
  relations_ok genesis rel → store_ok (init_store genesis k rel headers lw).
Proof.
  intros [Hdag Ho Hg Hne]. assert (Hpo : ∀ x, ¬ parent_of rel x ORIGIN).
  { intros x (ps & Hps & Hx). rewrite Ho in Hps. injection Hps as <-. by apply elem_of_nil in Hx. }
  assert (Hpg : ∀ x, parent_of rel x genesis → x = ORIGIN).
  { intros x (ps & Hps & Hx). rewrite Hg in Hps. injection Hps as <-. by apply list_elem_of_singleton in Hx. }
  split; cbn [init_store relations_store genesis_hash ghostdag_store ghostdag_k].
  - done.
  - intros x [d [[<- _]|[_ [<- _]%lookup_singleton_Some]]%lookup_insert_Some]; by eexists.
  - split; [by apply init_real|]. intros d. rewrite lookup_insert_eq. by intros [= <-].
  - done.
  - intros x [-> _]%init_real. constructor.
  - by intros x b [-> _]%init_real.
  - by intros x b [-> _]%init_real.
  - intros b d [[<- _]|[_ [<- _]%lookup_singleton_Some]]%lookup_insert_Some Hbo Hbg; done.
Qed.

Lemma grown_k self : grown self → 0 ≤ ghostdag_k self < 2 ^ 16 - 1.
Proof. by induction 1. Qed.

Lemma grown_store_ok self : grown self → store_ok self.
Proof.
  induction 1 as [genesis k rel headers lw Hrel Hk|self b parents d Hg IH Hb Hw Hsz Hd]; [by apply init_store_ok|].
  destruct (ghostdag_spec self IH (E := unit) b parents Hb Hw (grown_k _ Hg) Hsz) as (d' & Hd' & Hc).
  assert (d' = d) as -> by congruence. by eapply store_extends.
Qed.

Lemma ghostdag_over_genesis {E : Type} self :
  grown self → work_ok self → Z.of_nat (size (ghostdag_store self)) ≤ u64_max →
  ∃ d, ghostdag (E := E) self [genesis_hash self] = Ok d ∧ selected_parent d = genesis_hash self.
Proof.
  intros Hg Hw Hsz. pose proof (grown_store_ok _ Hg) as Hok.
  destruct (coloring_spec self Hok (E := E) [genesis_hash self]) as (d & Hd & Hc);
    [done|apply NoDup_singleton|constructor; [apply (so_genesis _ Hok)|done]|by intros p q ->%list_elem_of_singleton ->%list_elem_of_singleton|done|by apply grown_k|done|].
  exists d. split; [done|]. by apply list_elem_of_singleton, (gc_sp _ _ _ Hc).
Qed.

(** (C9) In every state grown from genesis, [ghostdag] returns for a new block with stored,
    pairwise unrelated parents: the selected parent is the parent with the most blue work (ties by hash); the
    mergeset, in order of blue work, is colored greedily, each block blue exactly when the
    blue set stays a k-cluster with it; the blue score is the size of the blue set, and the
    blue work adds the work of the mergeset blues to the selected parent's.  No unwrap or
    assertion of the code fails. *)
Theorem ghostdag_colors_greedily {E : Type} self b parents :
  grown self → new_block self b parents → work_ok self → Z.of_nat (size (ghostdag_store self)) ≤ u64_max →
  ∃ d, ghostdag (E := E) self parents = Ok d ∧ greedy_coloring self parents d.
Proof.
  intros Hg Hb Hw Hsz. by apply (ghostdag_spec self (grown_store_ok _ Hg) b); [..|apply grown_k|].
Qed.

(** (C21) An invariant of the stored data: in every state grown from genesis, the blue set of
    each block is a k-cluster that the blues of its selected chain make up, the blue score
    is its size, the recorded anticone sizes are those of that set, and blue work grows
    strictly from parent to child. *)
Theorem ghostdag_store_invariant self b d :
  grown self → ghostdag_store self !! b = Some d → b ≠ ORIGIN → b ≠ genesis_hash self →
  (∃ s s0, blue_past self (selected_parent d) s0 ∧ s = list_to_set (mergeset_blues d) ∪ s0 ∧
     k_cluster (ghostdag_k self) s ∧ gd_blue_score d = Z.of_nat (size s) ∧
     ∀ x, x ∈ s → blue_anticone_size (E := unit) self x d = Ok (anticone_count x s)) ∧
  ∀ p, parent_of (relations_store self) p b →
    work_in (ghostdag_store self) p < work_in (ghostdag_store self) b.
Proof.
  intros Hg Hd Ho Hb. pose proof (grown_store_ok _ Hg) as Hok.
  destruct (so_data _ Hok b d Hd Ho Hb) as (_ & _ & s & [_ _ _ (s0 & Hp & Hs) Hc Hz] & Hsc). split.
  - exists s, s0. repeat split; [done..|]. intros x Hx. by apply Hz.
  - intros p Hp'. apply (so_work _ Hok); [by split; [eexists|]|done|done].
Qed.
End growth.

(** ** A DAG of two blocks over genesis and one that merges them *)
Module Diamond.
Definition g : Hash := [1].
Definition a : Hash := [2].
Definition b : Hash := [3].
Definition c : Hash := [4].
Definition below : list (Hash * Hash) :=
  [(ORIGIN, g); (ORIGIN, a); (ORIGIN, b); (ORIGIN, c); (g, a); (g, b); (g, c); (a, c); (b, c)].
#[local] Instance diamond_reach : ReachabilityService :=
  {| is_dag_ancestor_of := λ x y, bool_decide (x = y ∨ (x, y) ∈ below) |}.
Definition diamond_relations : gmap Hash (list Hash) :=
  <[ORIGIN := []]> (<[g := [ORIGIN]]> (<[a := [g]]> (<[b := [g]]> {[c := [a; b]]}))).
Definition diamond_headers : gmap Hash CompactHeaderData :=
  (λ _, mk_compact 0 0 0x207fffff) <$> diamond_relations.
Definition diamond0 : GhostdagManager := init_store g 1 diamond_relations diamond_headers (from_u64 3 0).
Definition data_over_g : GhostdagData := mk_ghostdag 1 2 g [g] [] {[g := 0]}.
Definition diamond1 : GhostdagManager := insert_data diamond0 a data_over_g.
Definition diamond2 : GhostdagManager := insert_data diamond1 b data_over_g.

Lemma diamond_parent x y :
  parent_of diamond_relations x y → (x, y) ∈ [(ORIGIN, g); (g, a); (g, b); (a, c); (b, c)].
Proof.
  intros (ps & Hps & Hx). unfold diamond_relations in Hps.
  repeat (apply lookup_insert_Some in Hps as [[<- <-]|[_ Hps]]; [set_solver|]).
  apply lookup_singleton_Some in Hps as [<- <-]. set_solver.
Qed.
Lemma diamond_edge x y : (x, y) ∈ [(ORIGIN, g); (g, a); (g, b); (a, c); (b, c)] → parent_of diamond_relations x y.
Proof.
  rewrite !elem_of_cons, elem_of_nil.
  intros [[= -> ->]|[[= -> ->]|[[= -> ->]|[[= -> ->]|[[= -> ->]|[]]]]]]; eexists; (split; [by vm_compute|set_solver]).
Qed.
Lemma diamond_dag : dag_ok diamond_relations.
Proof.
  split.
  - intros x y Hxy%diamond_parent. rewrite !elem_of_cons, elem_of_nil in Hxy.
    destruct Hxy as [[= -> ->]|[[= -> ->]|[[= -> ->]|[[= -> ->]|[[= -> ->]|[]]]]]]; eexists; by vm_compute.
  - intros x y _ _. cbn [is_dag_ancestor_of diamond_reach]. rewrite bool_decide_eq_true. split.
    + assert (He : ∀ u v, (u, v) ∈ [(ORIGIN, g); (g, a); (g, b); (a, c); (b, c)] → ancestor diamond_relations u v)
        by (intros u v Huv; by apply rtc_once, diamond_edge).
      unfold below. rewrite !elem_of_cons, elem_of_nil. intros Hxy.
      destruct_or! Hxy; simplify_eq; [done|..];
        first [apply He; by_decide|transitivity g; apply He; by_decide|transitivity a; apply He; by_decide|idtac].
      transitivity g; [|transitivity a]; apply He; by_decide.
    + induction 1 as [x|x y z Hxy%diamond_parent _ IH]; [by left|]. right. unfold below in *.
      rewrite !elem_of_cons, elem_of_nil in *. destruct_or! Hxy; destruct_or! IH; simplify_eq; auto 20.
Qed.
Lemma diamond_relations_ok : relations_ok g diamond_relations.
Proof. split; [apply diamond_dag|by vm_compute|by vm_compute|done]. Qed.

(** Few blocks of little work fit the width. *)
Lemma small_work_ok self :
  gm_level_work self = from_u64 3 0 → gm_headers self = diamond_headers →
  (∀ x, is_Some (ghostdag_store self !! x) → known diamond_relations x) →
  map_Forall (λ _ d, 0 ≤ gd_blue_work d ≤ 100) (ghostdag_store self) →
  (size (ghostdag_store self) ≤ 10)%nat → work_ok self.
Proof.
  intros Hlw Hh Hknown Hbw Hsz.
  assert (Hhd : ∀ x, real self x → gm_headers self !! x = Some (mk_compact 0 0 0x207fffff)).
  { intros x [Hx _]. destruct (Hknown x Hx) as [ps Hps]. rewrite Hh. unfold diamond_headers. by rewrite lookup_fmap, Hps. }
  assert (Hwork : ∀ x, real self x → work_of self x = 2).
  { intros x Hx. unfold work_of, block_work. rewrite (Hhd x Hx), Hlw. by vm_compute. }
  split.
  - rewrite Hlw. by_decide.
  - intros x Hx. eexists. split; [by apply Hhd|]. split; [done|]. by vm_compute.
  - intros sp d l Hd Hnd Hl. pose proof (Hbw _ _ Hd) as Hb. cbv beta in Hb.
    assert (Hlen : (length l ≤ 10)%nat).
    { etrans; [|exact Hsz]. rewrite <- (size_dom (ghostdag_store self)), <- (size_list_to_set (C := gset Hash) l Hnd).
      apply subseteq_size. intros x Hx%elem_of_list_to_set. apply elem_of_dom. rewrite Forall_forall in Hl. apply (Hl x Hx). }
    assert (Hsum : Zsum (work_of self <$> l) = 2 * Z.of_nat (length l)).
    { clear -Hwork Hl. induction Hl as [|x l Hx _ IH]; [done|].
      rewrite fmap_cons, Zsum_cons, IH, Hwork by done. cbn [length]. lia. }
    lia.
Qed.

Lemma diamond1_data : ghostdag (E := unit) diamond0 [g] = Ok data_over_g.
Proof. vm_compute. reflexivity. Qed.
Lemma diamond2_data : ghostdag (E := unit) diamond1 [g] = Ok data_over_g.
Proof. vm_compute. reflexivity. Qed.

Lemma stored_known self :
  Forall (λ x, is_Some (diamond_relations !! x)) (elements (dom (ghostdag_store self))) →
  ∀ x, is_Some (ghostdag_store self !! x) → known diamond_relations x.
Proof. intros Hall x Hx. rewrite Forall_forall in Hall. by apply Hall, elem_of_elements, elem_of_dom. Qed.

Ltac small_diamond := apply small_work_ok; [reflexivity|reflexivity|apply stored_known; by_decide|by_decide|by_decide].
Lemma diamond0_work : work_ok diamond0.
Proof. small_diamond. Qed.
Lemma diamond1_work : work_ok diamond1.
Proof. small_diamond. Qed.
Lemma diamond2_work : work_ok diamond2.
Proof. small_diamond. Qed.

Lemma not_anc self (x y : Hash) :
  relations_store self = diamond_relations → is_dag_ancestor_of x y = false →
  is_Some (diamond_relations !! x) → is_Some (diamond_relations !! y) → ¬ ancestor (relations_store self) x y.
Proof. intros -> Hf Hx Hy Hxy. apply (dag_reach _ diamond_dag) in Hxy; [congruence|done|done]. Qed.
Lemma over_g_new self x :
  relations_store self = diamond_relations → diamond_relations !! x = Some [g] →
  ghostdag_store self !! x = None → x ≠ ORIGIN → real self g → new_block self x [g].
Proof.
  intros Hrel Hx Hs Ho Hg. split; [by rewrite Hrel|done|done|done|apply NoDup_singleton|by apply Forall_singleton|].
  by intros p q ->%list_elem_of_singleton ->%list_elem_of_singleton.
Qed.
Ltac stored := split; [eexists; vm_compute; reflexivity|done].
Lemma diamond0_new : new_block diamond0 a [g].
Proof. apply over_g_new; [reflexivity|by vm_compute|by vm_compute|done|stored]. Qed.
Lemma diamond1_new : new_block diamond1 b [g].
Proof. apply over_g_new; [reflexivity|by vm_compute|by vm_compute|done|stored]. Qed.
Lemma diamond2_new : new_block diamond2 c [a; b].
Proof.
  split; [by vm_compute|by vm_compute|done|done|by_decide|apply Forall_cons; split; [stored|apply Forall_singleton; stored]|].
  intros p q Hp Hq Hpq. rewrite !elem_of_cons, elem_of_nil in Hp, Hq. destruct_or! Hp; destruct_or! Hq; subst; try done;
    apply not_anc; (reflexivity || by_decide).
Qed.
Lemma diamond_size self : (size (ghostdag_store self) ≤ 10)%nat → Z.of_nat (size (ghostdag_store self)) ≤ u64_max.
Proof. intros Hs. transitivity 10; [lia|by_decide]. Qed.
Lemma diamond1_grown : grown diamond1.
Proof.
  apply (grown_block diamond0 a [g]); [apply grown_init; [apply diamond_relations_ok|lia]|apply diamond0_new|apply diamond0_work|
    apply diamond_size; by_decide|apply diamond1_data].
Qed.
Lemma diamond2_grown : grown diamond2.
Proof.
  apply (grown_block diamond1 b [g]); [apply diamond1_grown|apply diamond1_new|apply diamond1_work|
    apply diamond_size; by_decide|apply diamond2_data].
Qed.

Lemma ghostdag_colors_greedily_witness :
  ∃ d, ghostdag (E := unit) diamond2 [a; b] = Ok d ∧ greedy_coloring diamond2 [a; b] d.
Proof.
  apply (ghostdag_colors_greedily diamond2 c [a; b]).
  - apply diamond2_grown.
  - apply diamond2_new.
  - apply diamond2_work.
  - apply diamond_size. by_decide.
Defined.
Lemma ghostdag_store_invariant_witness : work_in (ghostdag_store diamond2) g < work_in (ghostdag_store diamond2) b.
Proof.
  refine (proj2 (ghostdag_store_invariant diamond2 b data_over_g _ _ _ _) g _).
  - apply diamond2_grown.
  - vm_compute. reflexivity.
  - done.
  - done.
  - exists [g]. split; [vm_compute; reflexivity|by left].
Defined.
End Diamond.
