(* ===== verification/NotePool.v ===== *)
(** * Note pool: wire types

    [consensus/core/src/notepool/mod.rs]: denominations, notes, locks, pool
    entries and the four pool operations. *)

From S2P Require Import Prelude Transaction.

(** The denomination ladder, in declaration order (borsh tag 0 to 7). *)
Inductive DenominationTag :=
  | D0_01 | D0_1 | D1 | D10 | D100 | D1000 | D10000 | D100000.
#[global] Instance DenominationTag_eq_dec : EqDecision DenominationTag.
Proof. solve_decision. Defined.

Definition DENOMINATION_PETALS : list Z :=
  [1000000; 10000000; 100000000; 1000000000; 10000000000; 100000000000;
   1000000000000; 10000000000000].

(** [tag as u8], the declaration-order discriminant. *)
Definition tag_ord (d : DenominationTag) : Z :=
  match d with
  | D0_01 => 0 | D0_1 => 1 | D1 => 2 | D10 => 3
  | D100 => 4 | D1000 => 5 | D10000 => 6 | D100000 => 7
  end.

(** [DenominationTag::petals]: the table indexed by the discriminant. *)
Definition petals (d : DenominationTag) : Z :=
  nth (Z.to_nat (tag_ord d)) DENOMINATION_PETALS 0.

(** [TryFrom<u8> for DenominationTag]. *)
Definition tag_try_from (v : Z) : option DenominationTag :=
  match v with
  | 0 => Some D0_01
  | 1 => Some D0_1
  | 2 => Some D1
  | 3 => Some D10
  | 4 => Some D100
  | 5 => Some D1000
  | 6 => Some D10000
  | 7 => Some D100000
  | _ => None
  end.

Record PoolStats := { counts : list Z }.
(** [PoolStats::total_notes]. *)
Definition total_notes {E} (s : PoolStats) : outcome E Z := u64_sum (counts s).

Record NewNote := mk_note { d : DenominationTag; pk : list Z }.
#[global] Instance NewNote_eq_dec : EqDecision NewNote.
Proof. solve_decision. Defined.

Record NoteLock := mk_lock { refund_pk : list Z; until_daa : Z }.
#[global] Instance NoteLock_eq_dec : EqDecision NoteLock.
Proof. solve_decision. Defined.

Record PoolEntry := mk_entry { note : NewNote; lock : option NoteLock }.
#[global] Instance PoolEntry_eq_dec : EqDecision PoolEntry.
Proof. solve_decision. Defined.

(** [PoolEntry::unlocked] and [PoolEntry::locked]. *)
Definition unlocked (n : NewNote) : PoolEntry := mk_entry n None.
Definition locked (n : NewNote) (l : NoteLock) : PoolEntry := mk_entry n (Some l).

(** [PoolEntry::spending_pk]: the note's key until the lock lapses, the refund
    key from then on. *)
Definition spending_pk (e : PoolEntry) (pov_daa_score : Z) : list Z :=
  match lock e with
  | Some l => if until_daa l <=? pov_daa_score then refund_pk l else pk (note e)
  | None => pk (note e)
  end.

Record ProducedLock := mk_plock { lock_index : Z; plock : NoteLock }.
#[global] Instance ProducedLock_eq_dec : EqDecision ProducedLock.
Proof. solve_decision. Defined.

Record SignedGroup := mk_group { serials : list Hash; signature : list Z }.
#[global] Instance SignedGroup_eq_dec : EqDecision SignedGroup.
Proof. solve_decision. Defined.

Record FreshnessAnchor := mk_anchor { anchor_daa_score : Z }.
#[global] Instance FreshnessAnchor_eq_dec : EqDecision FreshnessAnchor.
Proof. solve_decision. Defined.

Record MintOp := mk_mint { new_notes : list NewNote }.
Record TransferOp := mk_transfer {
  t_consumed : list SignedGroup;
  t_produced : list NewNote;
  t_freshness : FreshnessAnchor }.
Record TransferLockedOp := mk_transfer_locked {
  l_consumed : list SignedGroup;
  l_produced : list NewNote;
  l_locks : list ProducedLock;
  l_freshness : FreshnessAnchor }.
Record RedeemOp := mk_redeem {
  r_consumed : list SignedGroup;
  r_freshness : FreshnessAnchor }.
#[global] Instance MintOp_eq_dec : EqDecision MintOp.
Proof. solve_decision. Defined.
#[global] Instance TransferOp_eq_dec : EqDecision TransferOp.
Proof. solve_decision. Defined.
#[global] Instance TransferLockedOp_eq_dec : EqDecision TransferLockedOp.
Proof. solve_decision. Defined.
#[global] Instance RedeemOp_eq_dec : EqDecision RedeemOp.
Proof. solve_decision. Defined.

Inductive PoolOp :=
  | Mint (op : MintOp)
  | Transfer (op : TransferOp)
  | Redeem (op : RedeemOp)
  | TransferLocked (op : TransferLockedOp).
#[global] Instance PoolOp_eq_dec : EqDecision PoolOp.
Proof. solve_decision. Defined.

(** [PoolOp::op_type]. *)
Definition op_type (op : PoolOp) : Z :=
  match op with Mint _ => 0 | Transfer _ => 1 | Redeem _ => 2 | TransferLocked _ => 3 end.

(** [op.consumed.iter().flat_map(|g| g.serials)]. *)
Definition group_serials (gs : list SignedGroup) : list Hash := flat_map serials gs.

(** [PoolOp::consumed_serials]. *)
Definition consumed_serials (op : PoolOp) : list Hash :=
  match op with
  | Mint _ => []
  | Transfer t => group_serials (t_consumed t)
  | Redeem r => group_serials (r_consumed r)
  | TransferLocked t => group_serials (l_consumed t)
  end.

(** One iteration of the lock-joining loop, [entries.get_mut] variant: an
    index past the end is skipped. *)
Definition set_lock (es : list PoolEntry) (l : ProducedLock) : list PoolEntry :=
  match es !! Z.to_nat (lock_index l) with
  | Some e => <[Z.to_nat (lock_index l) := mk_entry (note e) (Some (plock l))]> es
  | None => es
  end.

(** [TransferLockedOp::produced_entries]. *)
Definition produced_entries (op : TransferLockedOp) : list PoolEntry :=
  foldl set_lock (unlocked <$> l_produced op) (l_locks op).

Definition POOL_PROTOCOL_VERSION : Z := 1.
Definition POOL_FRESHNESS_WINDOW : Z := 36000.

(** The notes an operation creates. *)
Definition produced_notes (op : PoolOp) : list NewNote :=
  match op with
  | Mint m => new_notes m
  | Transfer t => t_produced t
  | Redeem _ => []
  | TransferLocked t => l_produced t
  end.

Definition entry_petals (e : PoolEntry) : Z := petals (d (note e)).
Definition notes_value (ns : list NewNote) : Z := Zsum ((λ n, petals (d n)) <$> ns).

(** ** Well-formed values

    The ranges the Rust types guarantee: fixed-size byte arrays and machine
    integers. *)
Definition hash_ok (h : Hash) : Prop := byte_array 32 h.
Definition note_ok (n : NewNote) : Prop := byte_array 32 (pk n).
Definition lock_ok (l : NoteLock) : Prop := byte_array 32 (refund_pk l) ∧ in_u64 (until_daa l).
Definition entry_ok (e : PoolEntry) : Prop :=
  note_ok (note e) ∧ match lock e with Some l => lock_ok l | None => True end.
Definition plock_ok (l : ProducedLock) : Prop := in_u32 (lock_index l) ∧ lock_ok (plock l).
Definition group_ok (g : SignedGroup) : Prop :=
  Forall hash_ok (serials g) ∧ byte_array 64 (signature g).
Definition anchor_ok (a : FreshnessAnchor) : Prop := in_u64 (anchor_daa_score a).
Definition op_ok (op : PoolOp) : Prop :=
  match op with
  | Mint m => Forall note_ok (new_notes m)
  | Transfer t =>
      Forall group_ok (t_consumed t) ∧ Forall note_ok (t_produced t) ∧ anchor_ok (t_freshness t)
  | Redeem r => Forall group_ok (r_consumed r) ∧ anchor_ok (r_freshness r)
  | TransferLocked t =>
      Forall group_ok (l_consumed t) ∧ Forall note_ok (l_produced t) ∧
      Forall plock_ok (l_locks t) ∧ anchor_ok (l_freshness t)
  end.

#[global] Instance hash_ok_dec h : Decision (hash_ok h).
Proof. unfold hash_ok. apply _. Defined.
#[global] Instance note_ok_dec n : Decision (note_ok n).
Proof. unfold note_ok. apply _. Defined.
#[global] Instance lock_ok_dec l : Decision (lock_ok l).
Proof. unfold lock_ok. apply _. Defined.
#[global] Instance entry_ok_dec e : Decision (entry_ok e).
Proof. unfold entry_ok. destruct (lock e); apply _. Defined.
#[global] Instance plock_ok_dec l : Decision (plock_ok l).
Proof. unfold plock_ok. apply _. Defined.
#[global] Instance group_ok_dec g : Decision (group_ok g).
Proof. unfold group_ok. apply _. Defined.
#[global] Instance anchor_ok_dec a : Decision (anchor_ok a).
Proof. unfold anchor_ok. apply _. Defined.
#[global] Instance op_ok_dec op : Decision (op_ok op).
Proof. unfold op_ok. destruct op; apply _. Defined.

(** ** The ladder *)
Lemma petals_range t : 1000000 ≤ petals t ≤ 10000000000000.
Proof. by destruct t. Qed.

Lemma tag_try_from_ord t : tag_try_from (tag_ord t) = Some t.
Proof. by destruct t. Qed.

Lemma tag_ord_try_from v t : tag_try_from v = Some t → tag_ord t = v.
Proof.
  unfold tag_try_from.
  repeat match goal with
  | |- match ?x with _ => _ end = _ → _ => destruct x; try discriminate
  end; by intros [= <-].
Qed.

Lemma tag_ord_range t : 0 ≤ tag_ord t < 8.
Proof. by destruct t. Qed.

Lemma notes_value_nonneg ns : 0 ≤ notes_value ns.
Proof.
  apply Zsum_nonneg, Forall_fmap, Forall_true. intros n; simpl.
  pose proof (petals_range (d n)). lia.
Qed.

Lemma notes_value_bound ns : 0 ≤ notes_value ns ≤ Z.of_nat (length ns) * 10000000000000.
Proof.
  unfold notes_value. rewrite <- (length_fmap (λ n, petals (d n)) ns).
  apply Zsum_bound, Forall_fmap, Forall_true. intros n; simpl.
  pose proof (petals_range (d n)). lia.
Qed.

Lemma length_set_lock es l : length (set_lock es l) = length es.
Proof. unfold set_lock. case_match; [apply length_insert|done]. Qed.

Lemma set_lock_notes es l : note <$> set_lock es l = note <$> es.
Proof.
  unfold set_lock. case_match eqn:He; [|done].
  rewrite list_fmap_insert. simpl. apply list_insert_id.
  by rewrite list_lookup_fmap, He.
Qed.

Lemma foldl_set_lock_notes ls es : note <$> foldl set_lock es ls = note <$> es.
Proof.
  revert es; induction ls as [|l ls IH]; intros es; simpl; [done|].
  by rewrite IH, set_lock_notes.
Qed.

(** Joining the locks never changes which notes are produced. *)
Lemma produced_entries_notes op : note <$> produced_entries op = l_produced op.
Proof.
  unfold produced_entries. rewrite foldl_set_lock_notes, <- list_fmap_compose.
  apply list_fmap_id.
Qed.

(** A lapsed lock never un-lapses. *)
Lemma spending_pk_monotone e l pov pov' :
  lock e = Some l → until_daa l ≤ pov → pov ≤ pov' → spending_pk e pov' = refund_pk l.
Proof.
  intros Hl H1 H2. unfold spending_pk. rewrite Hl.
  by rewrite (proj2 (Z.leb_le _ _)) by lia.
Qed.
