(* ===== verification/PoolDiff.v ===== *)
(** * Pool diffs and pool views

    [consensus/core/src/notepool/diff.rs], [view.rs] and the persisted pool
    state of [consensus/src/model/stores/notepool.rs].

    A [PoolDiff] is a pool-state mutation with its inverse.  The operations are
    translated as written (loops over the hash maps); their closed forms, the
    algebra of composition and reversal, and the agreement between the composed
    view and the materialised state follow. *)

From S2P Require Import Prelude Transaction NotePool.

(** [HashMap<Hash, PoolEntry>]. *)
Abbreviation PoolCollection := (gmap (list Z) PoolEntry) (only parsing).

Inductive PoolAlgebraError :=
  | DuplicateAdd (sn : Hash)
  | DuplicateRemove (sn : Hash).
#[global] Instance PoolAlgebraError_eq_dec : EqDecision PoolAlgebraError.
Proof. solve_decision. Defined.

Record PoolDiff := mk_diff { add : PoolCollection; remove : PoolCollection }.
#[global] Instance PoolDiff_eq_dec : EqDecision PoolDiff.
Proof. solve_decision. Defined.

(** [PoolDiff::default]. *)
Definition empty_diff : PoolDiff := mk_diff ∅ ∅.
Definition is_empty (dd : PoolDiff) : bool :=
  bool_decide (add dd = ∅) && bool_decide (remove dd = ∅).

(** The trait [ImmutablePoolDiff]. *)
Class ImmutablePoolDiff (D : Type) := {
  added : D → PoolCollection;
  removed : D → PoolCollection }.
#[global] Instance PoolDiff_immutable : ImmutablePoolDiff PoolDiff :=
  {| added := add; removed := remove |}.

(** [ReversedPoolDiff], the borrowed reversed view. *)
Record ReversedPoolDiff := as_reversed { inner : PoolDiff }.
#[global] Instance ReversedPoolDiff_immutable : ImmutablePoolDiff ReversedPoolDiff :=
  {| added := λ r, remove (inner r); removed := λ r, add (inner r) |}.

Definition to_reversed (dd : PoolDiff) : PoolDiff := mk_diff (remove dd) (add dd).

(** A diff as the v1.1 stores wrote it: no locks. *)
Record LegacyPoolDiff := {
  legacy_add : gmap Hash NewNote;
  legacy_remove : gmap Hash NewNote }.
(** [From<LegacyPoolDiff> for PoolDiff]. *)
Definition from_legacy (l : LegacyPoolDiff) : PoolDiff :=
  mk_diff (unlocked <$> legacy_add l) (unlocked <$> legacy_remove l).

(** Body of [for (sn, note) in other.removed()]. *)
Definition absorb_removed (self : PoolDiff) (kv : Hash * PoolEntry) : PoolDiff :=
  match add self !! kv.1 with
  | Some _ => mk_diff (delete kv.1 (add self)) (remove self)
  | None => mk_diff (add self) (<[kv.1 := kv.2]> (remove self))
  end.

(** Body of [for (sn, note) in other.added()]. *)
Definition absorb_added (self : PoolDiff) (kv : Hash * PoolEntry) : PoolDiff :=
  match remove self !! kv.1 with
  | Some _ => mk_diff (add self) (delete kv.1 (remove self))
  | None => mk_diff (<[kv.1 := kv.2]> (add self)) (remove self)
  end.

(** [other.removed().keys().find(..)]: a serial removed again while not live
    in [self]. *)
Definition double_remove (self : PoolDiff) (r : PoolCollection) : option Hash :=
  find (λ sn, bool_decide (sn ∈ dom (remove self)) && negb (bool_decide (sn ∈ dom (add self))))
    (map_to_list r).*1.

(** [other.added().keys().find(..)]: a serial added again without [other]
    removing it. *)
Definition double_add (self : PoolDiff) (a r : PoolCollection) : option Hash :=
  find (λ sn, bool_decide (sn ∈ dom (add self)) && negb (bool_decide (sn ∈ dom r)))
    (map_to_list a).*1.

(** [PoolDiff::with_diff_in_place].  The two checks come first, then the two
    loops; the [debug_assert]s compile to nothing in a release build. *)
Definition with_diff_in_place {D} `{ImmutablePoolDiff D} (self : PoolDiff) (other : D)
    : outcome PoolAlgebraError PoolDiff :=
  match double_remove self (removed other) with
  | Some sn => Err (DuplicateRemove sn)
  | None =>
      match double_add self (added other) (removed other) with
      | Some sn => Err (DuplicateAdd sn)
      | None =>
          Ok (foldl absorb_added
                (foldl absorb_removed self (map_to_list (removed other)))
                (map_to_list (added other)))
      end
  end.

(** [PoolDiff::add_note]. *)
Definition add_note (self : PoolDiff) (sn : Hash) (e : PoolEntry)
    : outcome PoolAlgebraError PoolDiff :=
  match remove self !! sn with
  | Some _ => Ok (mk_diff (add self) (delete sn (remove self)))
  | None =>
      match add self !! sn with
      | None => Ok (mk_diff (<[sn := e]> (add self)) (remove self))
      | Some _ => Err (DuplicateAdd sn)
      end
  end.

(** [PoolDiff::remove_note]. *)
Definition remove_note (self : PoolDiff) (sn : Hash) (e : PoolEntry)
    : outcome PoolAlgebraError PoolDiff :=
  match add self !! sn with
  | Some _ => Ok (mk_diff (delete sn (add self)) (remove self))
  | None =>
      match remove self !! sn with
      | None => Ok (mk_diff (add self) (<[sn := e]> (remove self)))
      | Some _ => Err (DuplicateRemove sn)
      end
  end.

(** ** Views *)

(** The trait [PoolStateView]. *)
Class PoolStateView (V : Type) := get_note : V → Hash → option PoolEntry.

(** A bare collection is a view. *)
#[global] Instance PoolCollection_view : PoolStateView PoolCollection := λ m sn, m !! sn.

Record ComposedPoolView (V D : Type) := compose { base : V; diff : D }.
Arguments compose {V D} _ _.
Arguments base {V D} _.
Arguments diff {V D} _.

(** [ComposedPoolView::get_note]. *)
Definition composed_get_note {V D} `{PoolStateView V, ImmutablePoolDiff D}
    (v : ComposedPoolView V D) (sn : Hash) : option PoolEntry :=
  match added (diff v) !! sn with
  | Some e => Some e
  | None => if bool_decide (sn ∈ dom (removed (diff v))) then None else get_note (base v) sn
  end.
#[global] Instance ComposedPoolView_view {V D} `{PoolStateView V, ImmutablePoolDiff D} :
  PoolStateView (ComposedPoolView V D) := composed_get_note.

(** ** The persisted state *)

(** [DbNotePoolStore]: notes and locks in two tables with the same keys. *)
Record NotePoolStore := mk_store { access : gmap Hash NewNote; locks : gmap Hash NoteLock }.

(** [DbNotePoolStore::get_note], through [entry]. *)
#[global] Instance NotePoolStore_view : PoolStateView NotePoolStore := λ s sn,
  (λ n, mk_entry n (locks s !! sn)) <$> access s !! sn.

(** [DbNotePoolStore::apply]: deletes first, then writes. *)
Definition store_apply (s : NotePoolStore) (dd : PoolDiff) : NotePoolStore :=
  let removed_keys := (map_to_list (remove dd)).*1 in
  let added : list (Hash * PoolEntry) := map_to_list (add dd) in
  mk_store
    (write_many (delete_many (access s) removed_keys) ((λ kv, (kv.1, note kv.2)) <$> added))
    (write_many (delete_many (locks s) removed_keys)
       (omap (λ kv, (λ l, (kv.1, l)) <$> lock kv.2) added)).

(** ** Specification: diffs as partial functions on pool states *)

(** What a diff means on a materialised state. *)
Definition apply_diff (m : PoolCollection) (dd : PoolDiff) : PoolCollection :=
  add dd ∪ (m ∖ remove dd).

(** [dd] describes a mutation of [m]: it removes entries [m] holds, as [m] holds
    them, and adds serials [m] does not hold. *)
Definition fits (m : PoolCollection) (dd : PoolDiff) : Prop :=
  remove dd ⊆ m ∧ add dd ##ₘ m.

(** A serial's value is immutable while live: what [d1] removed and [d2]
    re-adds is the same entry (invariants I1/I3 of the source). *)
Definition same_values (d1 d2 : PoolDiff) : Prop :=
  ∀ sn e e', remove d1 !! sn = Some e → add d2 !! sn = Some e' → e = e'.

Definition pool_value (m : PoolCollection) : Z := map_sum entry_petals m.

(** ** Pointwise reasoning on diffs *)

(** Decide an equation or inclusion between map expressions key by key. *)
Ltac by_key k :=
  apply map_eq; intros k; rewrite ?lookup_union, ?lookup_difference, ?lookup_union, ?lookup_difference.

(** Case analysis on every lookup in sight. *)
Ltac split_lookups :=
  repeat match goal with
  | |- context [?m !! ?k] =>
      let H := fresh "L" in destruct (m !! k) eqn:H; rewrite ?H in *; simplify_eq/=
  end.

Lemma apply_diff_lookup m dd sn :
  apply_diff m dd !! sn =
    match add dd !! sn with
    | Some e => Some e
    | None => match remove dd !! sn with Some _ => None | None => m !! sn end
    end.
Proof.
  unfold apply_diff. rewrite lookup_union, lookup_difference.
  destruct (add dd !! sn), (remove dd !! sn), (m !! sn); done.
Qed.

Lemma fits_lookup m dd :
  fits m dd ↔
    (∀ sn e, remove dd !! sn = Some e → m !! sn = Some e) ∧
    (∀ sn e, add dd !! sn = Some e → m !! sn = None).
Proof.
  unfold fits. rewrite map_subseteq_spec, map_disjoint_spec. split.
  - intros [Hr Ha]. split; [done|]. intros sn e He.
    destruct (m !! sn) eqn:Hm; [|done]. destruct (Ha sn e p); done.
  - intros [Hr Ha]. split; [done|]. intros sn e e' He Hm. by rewrite (Ha _ _ He) in Hm.
Qed.

(** ** Closed forms of the loops *)

Lemma absorb_removed_list self l :
  NoDup l.*1 →
  foldl absorb_removed self l =
    mk_diff (add self ∖ list_to_map l) ((list_to_map l ∖ add self) ∪ remove self).
Proof.
  revert self; induction l as [|[k v] l IH]; intros [a r]; simpl.
  - intros _. rewrite map_difference_empty, map_empty_difference, (left_id_L ∅ (∪)). done.
  - intros [Hk Hnd]%NoDup_cons. rewrite IH by done. clear IH.
    apply not_elem_of_list_to_map_1 in Hk.
    unfold absorb_removed; simpl. destruct (a !! k) eqn:Ha; simpl; f_equal; by_key j;
      destruct (decide (j = k)) as [->|]; simplify_map_eq;
      rewrite ?lookup_delete_eq, ?lookup_delete_ne, ?lookup_insert_eq, ?lookup_insert_ne by done;
      rewrite ?Ha, ?Hk; simpl; split_lookups; done.
Qed.

Lemma absorb_removed_map self m :
  foldl absorb_removed self (map_to_list m) =
    mk_diff (add self ∖ m) ((m ∖ add self) ∪ remove self).
Proof.
  rewrite absorb_removed_list by apply NoDup_fst_map_to_list. by rewrite list_to_map_to_list.
Qed.

Lemma absorb_added_reversed self kv :
  absorb_added self kv = to_reversed (absorb_removed (to_reversed self) kv).
Proof. destruct self; unfold absorb_added, absorb_removed; simpl. by case_match. Qed.

Lemma absorb_added_map self m :
  foldl absorb_added self (map_to_list m) =
    mk_diff ((m ∖ remove self) ∪ add self) (remove self ∖ m).
Proof.
  assert (∀ l s, foldl absorb_added s l = to_reversed (foldl absorb_removed (to_reversed s) l))
    as ->.
  { induction l as [|kv l IH]; intros s; simpl; [by destruct s|].
    rewrite IH, absorb_added_reversed. do 2 f_equal. by destruct (absorb_removed _ _). }
  by rewrite absorb_removed_map.
Qed.

Lemma double_remove_None self r :
  double_remove self r = None ↔
    ∀ sn, is_Some (r !! sn) → is_Some (remove self !! sn) → is_Some (add self !! sn).
Proof.
  unfold double_remove. rewrite find_None_forall.
  setoid_rewrite elem_of_map_keys. setoid_rewrite andb_false_iff.
  setoid_rewrite negb_false_iff. setoid_rewrite bool_decide_eq_true.
  setoid_rewrite bool_decide_eq_false. setoid_rewrite elem_of_dom.
  split; intros H sn Hr; specialize (H sn Hr);
    destruct (decide (is_Some (remove self !! sn))); tauto.
Qed.

Lemma double_add_None self a r :
  double_add self a r = None ↔
    ∀ sn, is_Some (a !! sn) → is_Some (add self !! sn) → is_Some (r !! sn).
Proof.
  unfold double_add. rewrite find_None_forall.
  setoid_rewrite elem_of_map_keys. setoid_rewrite andb_false_iff.
  setoid_rewrite negb_false_iff. setoid_rewrite bool_decide_eq_true.
  setoid_rewrite bool_decide_eq_false. setoid_rewrite elem_of_dom.
  split; intros H sn Hr; specialize (H sn Hr);
    destruct (decide (is_Some (add self !! sn))); tauto.
Qed.

(** Closed form of a successful composition. *)
Definition composed (d1 : PoolDiff) (a2 r2 : PoolCollection) : PoolDiff :=
  let R1 := (r2 ∖ add d1) ∪ remove d1 in
  mk_diff ((a2 ∖ R1) ∪ (add d1 ∖ r2)) (R1 ∖ a2).

Lemma with_diff_Ok {D} `{ImmutablePoolDiff D} d1 (d2 : D) r :
  with_diff_in_place d1 d2 = Ok r ↔
    (∀ sn, is_Some (removed d2 !! sn) → is_Some (remove d1 !! sn) → is_Some (add d1 !! sn)) ∧
    (∀ sn, is_Some (added d2 !! sn) → is_Some (add d1 !! sn) → is_Some (removed d2 !! sn)) ∧
    r = composed d1 (added d2) (removed d2).
Proof.
  rewrite <- double_remove_None, <- double_add_None. unfold with_diff_in_place.
  destruct (double_remove d1 (removed d2)); [naive_solver|].
  destruct (double_add d1 (added d2) (removed d2)); [naive_solver|].
  rewrite absorb_removed_map, absorb_added_map. simpl. unfold composed. naive_solver.
Qed.

Lemma composed_lookup d1 a2 r2 sn :
  add (composed d1 a2 r2) !! sn =
    match a2 !! sn with
    | Some e =>
        match remove d1 !! sn, r2 !! sn, add d1 !! sn with
        | None, None, None => Some e
        | None, None, Some _ => Some e
        | None, Some _, Some _ => Some e
        | Some _, None, Some x => Some x
        | _, _, _ => None
        end
    | None => match r2 !! sn with Some _ => None | None => add d1 !! sn end
    end ∧
  remove (composed d1 a2 r2) !! sn =
    match a2 !! sn with
    | Some _ => None
    | None =>
        match r2 !! sn, add d1 !! sn with
        | Some e, None => Some e
        | _, _ => remove d1 !! sn
        end
    end.
Proof.
  unfold composed; simpl.
  rewrite !lookup_union, !lookup_difference, !lookup_union, !lookup_difference.
  split; split_lookups; done.
Qed.
Opaque composed.

(** ** Composition, reversal, views, persistence *)

(** A diff read through its two accessors. *)
Definition as_diff {D} `{ImmutablePoolDiff D} (o : D) : PoolDiff := mk_diff (added o) (removed o).

Lemma as_diff_id (dd : PoolDiff) : as_diff dd = dd.
Proof. by destruct dd. Qed.

Lemma fits_disjoint m dd sn :
  fits m dd → is_Some (add dd !! sn) → remove dd !! sn = None.
Proof.
  rewrite fits_lookup. intros [Hr Ha] [e He].
  destruct (remove dd !! sn) eqn:E; [|done].
  apply Hr in E. rewrite (Ha _ _ He) in E. done.
Qed.

(** What [fits] says about one serial of a diff that follows another. *)
Lemma fits_after m d1 d2 sn :
  fits m d1 → fits (apply_diff m d1) d2 →
  (∀ e, remove d2 !! sn = Some e →
     add d1 !! sn = Some e ∨ add d1 !! sn = None ∧ remove d1 !! sn = None ∧ m !! sn = Some e) ∧
  (∀ e, add d2 !! sn = Some e →
     add d1 !! sn = None ∧ (is_Some (remove d1 !! sn) ∨ m !! sn = None)).
Proof.
  rewrite !fits_lookup. intros [Hr1 Ha1] [Hr2 Ha2].
  split; intros e He; [apply Hr2 in He|apply Ha2 in He];
    rewrite apply_diff_lookup in He; repeat case_match; naive_solver.
Qed.

Lemma compose_sound {D} `{ImmutablePoolDiff D} m d1 (d2 : D) :
  fits m d1 → fits (apply_diff m d1) (as_diff d2) → same_values d1 (as_diff d2) →
  with_diff_in_place d1 d2 = Ok (composed d1 (added d2) (removed d2)) ∧
  fits m (composed d1 (added d2) (removed d2)) ∧
  apply_diff m (composed d1 (added d2) (removed d2)) =
    apply_diff (apply_diff m d1) (as_diff d2).
Proof.
  intros H1 H2 Hsv.
  pose proof (λ sn, fits_after m d1 (as_diff d2) sn H1 H2) as Haft.
  pose proof (λ sn, fits_disjoint _ _ sn H2) as Hdis. simpl in Haft, Hdis.
  pose proof H1 as [Hr1 Ha1]%fits_lookup.
  unfold same_values in Hsv; simpl in Hsv.
  split_and!.
  - apply with_diff_Ok. split_and!; [| |done]; intros sn [e He] [e' He'];
      destruct (Haft sn) as [Hx Hy]; naive_solver.
  - apply fits_lookup. split; intros sn e; destruct (composed_lookup d1 (added d2) (removed d2) sn)
      as [HA HR]; rewrite ?HA, ?HR; destruct (Haft sn) as [Hx Hy]; repeat case_match; naive_solver.
  - apply map_eq. intros sn. rewrite !apply_diff_lookup. cbn [as_diff add remove].
    destruct (composed_lookup d1 (added d2) (removed d2) sn) as [-> ->].
    destruct (Haft sn) as [Hx Hy]. specialize (Hdis sn). specialize (Hsv sn).
    specialize (Hr1 sn). specialize (Ha1 sn).
    split_lookups; naive_solver.
Qed.

Lemma reverse_sound m dd :
  fits m dd →
  fits (apply_diff m dd) (to_reversed dd) ∧
  apply_diff (apply_diff m dd) (to_reversed dd) = m.
Proof.
  intros H. pose proof (λ sn, fits_disjoint m dd sn H) as Hdis.
  apply fits_lookup in H as [Hr Ha]. split.
  - apply fits_lookup; simpl; split; intros sn e He; rewrite apply_diff_lookup.
    + by rewrite He.
    + rewrite He. destruct (add dd !! sn) eqn:E; [|done].
      rewrite (Hdis sn) in He; [done|by eexists].
  - apply map_eq. intros sn. rewrite !apply_diff_lookup; simpl.
    specialize (Hr sn); specialize (Ha sn). split_lookups; naive_solver.
Qed.

(** The value of the pool moves by exactly what the diff adds and removes. *)
Lemma apply_diff_value m dd :
  fits m dd →
  pool_value (apply_diff m dd) = pool_value m - pool_value (remove dd) + pool_value (add dd).
Proof. intros [Hr Ha]. by apply map_sum_replace. Qed.

(** Composition is sequential application: when [d1] fits the state [m], [d2] fits
    the state [d1] leads to, and re-added serials keep their value, then
    [with_diff_in_place] succeeds, and the diff it leaves behind fits [m] and takes
    [m] where [d1] followed by [d2] takes it. *)
Theorem with_diff_in_place_sequential m d1 d2 :
  fits m d1 → fits (apply_diff m d1) d2 → same_values d1 d2 →
  ∃ r, with_diff_in_place d1 d2 = Ok r ∧ fits m r ∧
       apply_diff m r = apply_diff (apply_diff m d1) d2.
Proof.
  intros H1 H2 H3. rewrite <- (as_diff_id d2) in H2, H3.
  destruct (compose_sound m d1 d2 H1 H2 H3) as (Hw & Hf & Ha).
  rewrite as_diff_id in Ha. eauto.
Qed.

(** Undoing a step of the chain walk: composing a diff and then the reversed view of
    the same diff, as the walk down to a reorg split point does, restores the
    accumulated diff itself, not merely an equivalent one. *)
Theorem with_diff_then_reversed m d1 d2 r :
  fits m d1 → fits (apply_diff m d1) d2 → same_values d1 d2 →
  with_diff_in_place d1 d2 = Ok r →
  with_diff_in_place r (as_reversed d2) = Ok d1.
Proof.
  intros H1 H2 Hsv (_ & _ & ->)%with_diff_Ok.
  change (added d2) with (add d2). change (removed d2) with (remove d2).
  pose proof (λ sn, fits_after m d1 d2 sn H1 H2) as Haft.
  pose proof (λ sn, fits_disjoint _ _ sn H2) as Hdis2.
  pose proof (λ sn, fits_disjoint _ _ sn H1) as Hdis1.
  unfold same_values in Hsv. simpl in *.
  apply with_diff_Ok. simpl. split_and!.
  - intros sn [e He]. destruct (composed_lookup d1 (add d2) (remove d2) sn) as [-> ->].
    rewrite He. by intros [? ?].
  - intros sn [e He]. destruct (composed_lookup d1 (add d2) (remove d2) sn) as [-> _].
    rewrite He. destruct (add d2 !! sn) eqn:E; [by eexists|]. by intros [? ?].
  - assert (∀ x y : PoolDiff, add x = add y → remove x = remove y → x = y) as Heq.
    { by intros [] [] ? ?; simpl in *; subst. }
    apply Heq; apply map_eq; intros sn;
      destruct (composed_lookup (composed d1 (add d2) (remove d2)) (remove d2) (add d2) sn)
        as [HA HR]; rewrite ?HA, ?HR; clear HA HR;
      destruct (composed_lookup d1 (add d2) (remove d2) sn) as [-> ->];
      specialize (Haft sn); specialize (Hdis1 sn); specialize (Hdis2 sn); specialize (Hsv sn);
      split_lookups; naive_solver.
Qed.

(** ** Views read the materialised state *)

(** The view [v] shows the state [m]. *)
Definition shows {V} `{PoolStateView V} (v : V) (m : PoolCollection) : Prop :=
  ∀ sn, get_note v sn = m !! sn.

Lemma shows_map (m : PoolCollection) : shows m m.
Proof. done. Qed.

(** Stacking a diff on a view shows the state the diff leads to; views nest. *)
Lemma shows_compose {V D} `{PoolStateView V, ImmutablePoolDiff D} (v : V) m (o : D) :
  shows v m → shows (compose v o) (apply_diff m (as_diff o)).
Proof.
  intros Hv sn. rewrite apply_diff_lookup.
  unfold get_note, ComposedPoolView_view, composed_get_note; simpl.
  destruct (added o !! sn); [done|]. case_bool_decide as Hd; rewrite elem_of_dom in Hd.
  - destruct Hd as [? ->]. done.
  - apply eq_None_not_Some in Hd as ->. apply Hv.
Qed.

(** ** The persisted store implements [apply_diff] *)

Section store.
Implicit Types (s : NotePoolStore) (dd : PoolDiff).

(** Every stored lock belongs to a stored note. *)
Definition store_ok s : Prop := ∀ sn, is_Some (locks s !! sn) → is_Some (access s !! sn).

(** The pool state the two tables stand for, as [iterator] yields it. *)
Definition store_map s : PoolCollection :=
  map_imap (λ sn n, Some (mk_entry n (locks s !! sn))) (access s).

Lemma store_map_lookup s sn : store_map s !! sn = get_note s sn.
Proof. unfold store_map. rewrite map_lookup_imap. unfold get_note, NotePoolStore_view.
  by destruct (access s !! sn).
Qed.

Lemma shows_store s : shows s (store_map s).
Proof. intros sn. by rewrite store_map_lookup. Qed.

Lemma store_apply_access s dd sn :
  access (store_apply s dd) !! sn =
    match add dd !! sn with
    | Some e => Some (note e)
    | None => match remove dd !! sn with Some _ => None | None => access s !! sn end
    end.
Proof.
  cbn. destruct (add dd !! sn) as [e|] eqn:Ha.
  - apply write_many_lookup_eq.
    + rewrite <- list_fmap_compose. apply NoDup_fst_map_to_list.
    + apply list_elem_of_fmap. exists (sn, e). by rewrite elem_of_map_to_list.
  - rewrite write_many_lookup_ne; [apply delete_many_keys|].
    rewrite <- list_fmap_compose, list_elem_of_fmap. intros ([k v] & -> & Hkv).
    apply elem_of_map_to_list in Hkv. by simplify_eq/=.
Qed.

Lemma store_apply_locks s dd sn :
  locks (store_apply s dd) !! sn =
    match add dd !! sn with
    | Some (mk_entry _ (Some l)) => Some l
    | _ => match remove dd !! sn with Some _ => None | None => locks s !! sn end
    end.
Proof.
  cbn. set (kvs := omap _ _).
  assert (∀ l, (sn, l) ∈ kvs ↔ ∃ n, add dd !! sn = Some (mk_entry n (Some l))) as Hin.
  { intros l. unfold kvs. rewrite list_elem_of_omap. split.
    - intros ([k [n lo]] & Hk%elem_of_map_to_list & Heq). destruct lo; naive_solver.
    - intros [n Hn]. exists (sn, mk_entry n (Some l)). by rewrite elem_of_map_to_list. }
  destruct (add dd !! sn) as [[n [l|]]|] eqn:Ha.
  1: { apply write_many_lookup_eq; [|apply Hin; eauto].
       unfold kvs. generalize (NoDup_fst_map_to_list (add dd)).
       generalize (map_to_list (add dd)) as l0. induction l0 as [|[k [n0 lo]] l0 IH]; [done|].
       intros [Hk Hnd]%NoDup_cons. destruct lo; simpl; [|by apply IH].
       apply NoDup_cons. split; [|by apply IH]. contradict Hk.
       apply list_elem_of_fmap in Hk as ([k' v'] & -> & ([k2 e2] & H2 & He)%list_elem_of_omap).
       apply list_elem_of_fmap. exists (k2, e2). split; [|done].
       simpl in *. destruct (lock e2); by simplify_eq/=. }
  all: rewrite write_many_lookup_ne;
    [apply delete_many_keys
    |intros ([k l] & -> & [n' Hn]%Hin)%list_elem_of_fmap; simpl in *; congruence].
Qed.
End store.

Lemma store_apply_sound s dd :
  store_ok s → fits (store_map s) dd →
  store_ok (store_apply s dd) ∧ store_map (store_apply s dd) = apply_diff (store_map s) dd.
Proof.
  intros Hok [Hr Ha]%fits_lookup.
  assert (∀ sn e, add dd !! sn = Some e → access s !! sn = None) as Hfree.
  { intros sn e He. specialize (Ha sn e He). rewrite store_map_lookup in Ha.
    unfold get_note, NotePoolStore_view in Ha. by destruct (access s !! sn). }
  split.
  - intros sn. rewrite store_apply_locks, store_apply_access. specialize (Hok sn).
    specialize (Hfree sn). repeat case_match; naive_solver.
  - apply map_eq. intros sn. rewrite apply_diff_lookup, !store_map_lookup.
    unfold get_note, NotePoolStore_view. rewrite store_apply_access, store_apply_locks.
    destruct (add dd !! sn) as [[n [l|]]|] eqn:He; cbn; [done| |by destruct (remove dd !! sn)].
    pose proof (Hfree _ _ He) as Hacc.
    assert (locks s !! sn = None) as ->.
    { destruct (locks s !! sn) eqn:E; [|done]. destruct (Hok sn); [eauto|]. congruence. }
    by destruct (remove dd !! sn).
Qed.

(** (C20) The persisted store refines the pool-state algebra: applying a fitting diff to the
    two tables keeps every lock attached to a live note and leaves exactly the
    state [apply_diff] describes. *)
Theorem store_apply_refines s dd :
  store_ok s → fits (store_map s) dd →
  store_ok (store_apply s dd) ∧ store_map (store_apply s dd) = apply_diff (store_map s) dd.
Proof. apply store_apply_sound. Qed.

(** ** Concrete instances *)

Definition demo_entry (k : Z) : PoolEntry := unlocked (mk_note D1 (replicate 32 k)).
Definition demo_locked (k : Z) : PoolEntry :=
  locked (mk_note D1 (replicate 32 k)) (mk_lock (replicate 32 5) 9).
(** A state with serial [1]; a diff moving it to serial [2]; one moving [2] to [3]. *)
Definition demo_state : PoolCollection := {[ [1] := demo_entry 1 ]}.
Definition demo_d1 : PoolDiff := mk_diff {[ [2] := demo_locked 2 ]} {[ [1] := demo_entry 1 ]}.
Definition demo_d2 : PoolDiff := mk_diff {[ [3] := demo_entry 3 ]} {[ [2] := demo_locked 2 ]}.

Lemma demo_same_values : same_values demo_d1 demo_d2.
Proof.
  intros sn e e'. unfold demo_d1, demo_d2; simpl.
  intros [<- <-]%lookup_singleton_Some [Hk _]%lookup_singleton_Some. done.
Qed.

Lemma demo_fits1 : fits demo_state demo_d1.
Proof. split; [done|]. apply map_disjoint_singleton_r. done. Qed.

Lemma demo_fits2 : fits (apply_diff demo_state demo_d1) demo_d2.
Proof.
  apply fits_lookup. unfold demo_d2; simpl.
  split; intros sn e [<- <-]%lookup_singleton_Some; vm_compute; reflexivity.
Qed.

Lemma with_diff_in_place_sequential_witness :
  ∃ r, with_diff_in_place demo_d1 demo_d2 = Ok r ∧ fits demo_state r ∧
    apply_diff demo_state r = apply_diff (apply_diff demo_state demo_d1) demo_d2.
Proof.
  apply (with_diff_in_place_sequential demo_state demo_d1 demo_d2).
  - apply demo_fits1.
  - apply demo_fits2.
  - apply demo_same_values.
Defined.

Lemma with_diff_then_reversed_witness :
  with_diff_in_place (mk_diff {[ [3] := demo_entry 3 ]} {[ [1] := demo_entry 1 ]})
    (as_reversed demo_d2) = Ok demo_d1.
Proof.
  apply (with_diff_then_reversed demo_state demo_d1 demo_d2).
  - apply demo_fits1.
  - apply demo_fits2.
  - apply demo_same_values.
  - vm_compute; reflexivity.
Defined.

Definition demo_store : NotePoolStore := mk_store {[ [1] := note (demo_entry 1) ]} ∅.

Lemma store_apply_refines_witness :
  store_map (store_apply demo_store demo_d1) = apply_diff (store_map demo_store) demo_d1.
Proof.
  apply (store_apply_refines demo_store demo_d1).
  - intros sn [l Hl]. vm_compute in Hl. discriminate.
  - assert (store_map demo_store = demo_state) as -> by (vm_compute; reflexivity).
    apply demo_fits1.
Defined.
