(* ===== verification/PoolHashing.v ===== *)
(** * Note pool: hash preimages

    [consensus/core/src/notepool/hashing.rs].  The keyed blake3 hashers come
    from a third-party crate: they are the operations of the class
    [NotePoolHashers], functions of the concatenation of the bytes they are fed.
    Every function of the module is split into the preimage it feeds and the
    hasher it feeds it to, so that what a hash binds can be stated without
    assuming anything about the hasher. *)

From S2P Require Import Prelude Transaction NotePool.

(** The four note-pool hashers, by purpose. *)
Class NotePoolHashers := {
  NotePoolLeafHash : list Z → Hash;
  NotePoolSerialHash : list Z → Hash;
  NotePoolOutputsHash : list Z → Hash;
  NotePoolSigningHash : list Z → Hash }.

(** ** Byte order on serials *)

(** [sorted_serials.sort_unstable_by_key(|h| h.as_bytes())]. *)
Definition sort_serials (l : list Hash) : list Hash := merge_sort bytes_le l.

(** Equal keys are equal serials, so the unstable sort is a function of the
    multiset of serials. *)
Lemma sort_serials_Permutation l1 l2 : l1 ≡ₚ l2 → sort_serials l1 = sort_serials l2.
Proof.
  intros Hp. apply (StronglySorted_unique bytes_le).
  - apply StronglySorted_merge_sort; apply _.
  - apply StronglySorted_merge_sort; apply _.
  - unfold sort_serials. by rewrite !merge_sort_Permutation.
Qed.

Lemma sort_serials_perm l : sort_serials l ≡ₚ l.
Proof. apply merge_sort_Permutation. Qed.

(** ** Preimages *)

Definition note_bytes (n : NewNote) : list Z := tag_ord (d n) :: pk n.
Definition lock_bytes (l : NoteLock) : list Z := refund_pk l ++ le_bytes 8 (until_daa l).

(** [leaf_hash] and [leaf_hash_entry]. *)
Definition leaf_preimage (e : PoolEntry) : list Z :=
  match lock e with
  | None => note_bytes (note e)
  | Some l => note_bytes (note e) ++ lock_bytes l
  end.

(** [serial_hash]. *)
Definition serial_preimage (creating_tx_id : Hash) (index : Z) : list Z :=
  creating_tx_id ++ le_bytes 4 index.

(** One iteration of [transparent_outputs_hash]. *)
Definition output_bytes (o : TransactionOutput) : list Z :=
  le_bytes 8 (value o) ++ le_bytes 2 (version (script_public_key o))
    ++ script (script_public_key o).
Definition outputs_preimage (outs : list TransactionOutput) : list Z := flat_map output_bytes outs.

Definition produced_lock_bytes (l : ProducedLock) : list Z :=
  le_bytes 4 (lock_index l) ++ lock_bytes (plock l).
(** The optional lock section of the signing preimage. *)
Definition locks_bytes (ls : list ProducedLock) : list Z :=
  match ls with
  | [] => []
  | _ => le_bytes 4 (Z.of_nat (length ls)) ++ flat_map produced_lock_bytes ls
  end.

(** What [signing_hash_with_locks] feeds its hasher. *)
Definition signing_preimage (op_type : Z) (group_serials : list Hash) (produced : list NewNote)
    (locks : list ProducedLock) (outputs_hash : Hash) (anchor_daa_score : Z) : list Z :=
  [POOL_PROTOCOL_VERSION; op_type] ++ concat (sort_serials group_serials)
    ++ flat_map note_bytes produced ++ locks_bytes locks
    ++ outputs_hash ++ le_bytes 8 anchor_daa_score.

Section hashes.
Context `{NotePoolHashers}.

Definition leaf_hash (t : DenominationTag) (key : list Z) : Hash :=
  NotePoolLeafHash (tag_ord t :: key).
Definition leaf_hash_entry (e : PoolEntry) : Hash :=
  match lock e with
  | None => leaf_hash (d (note e)) (pk (note e))
  | Some l => NotePoolLeafHash (note_bytes (note e) ++ lock_bytes l)
  end.
Definition serial_hash (creating_tx_id : Hash) (index : Z) : Hash :=
  NotePoolSerialHash (serial_preimage creating_tx_id index).
Definition transparent_outputs_hash (outs : list TransactionOutput) : Hash :=
  NotePoolOutputsHash (outputs_preimage outs).
Definition signing_hash_with_locks (op_type : Z) (group_serials : list Hash)
    (produced : list NewNote) (locks : list ProducedLock) (outputs_hash : Hash)
    (anchor_daa_score : Z) : Hash :=
  NotePoolSigningHash
    (signing_preimage op_type group_serials produced locks outputs_hash anchor_daa_score).
Definition signing_hash (op_type : Z) (group_serials : list Hash) (produced : list NewNote)
    (outputs_hash : Hash) (anchor_daa_score : Z) : Hash :=
  signing_hash_with_locks op_type group_serials produced [] outputs_hash anchor_daa_score.

Lemma leaf_hash_entry_preimage e : leaf_hash_entry e = NotePoolLeafHash (leaf_preimage e).
Proof. unfold leaf_hash_entry, leaf_preimage. by destruct (lock e). Qed.
End hashes.

(** ** What the preimages determine *)

Lemma length_note_bytes n : note_ok n → length (note_bytes n) = 33%nat.
Proof. intros [Hn _]. simpl. by rewrite Hn. Qed.

Lemma note_bytes_inj n1 n2 : note_bytes n1 = note_bytes n2 → n1 = n2.
Proof.
  destruct n1 as [d1 k1], n2 as [d2 k2]. intros [= Ht ->]. f_equal.
  apply (inj Some). rewrite <- !tag_try_from_ord. by rewrite Ht.
Qed.

Lemma length_lock_bytes l : lock_ok l → length (lock_bytes l) = 40%nat.
Proof. intros [[Hl _] _]. unfold lock_bytes. by rewrite length_app, Hl, length_le_bytes. Qed.

Lemma lock_bytes_inj l1 l2 : lock_ok l1 → lock_ok l2 → lock_bytes l1 = lock_bytes l2 → l1 = l2.
Proof.
  intros [[Hl1 _] Hu1] [[Hl2 _] Hu2] [H1 H2]%app_split_eq; [|congruence].
  apply le_bytes_u64_inj in H2; [|done..]. destruct l1, l2; simpl in *; congruence.
Qed.

Lemma length_produced_lock_bytes l : plock_ok l → length (produced_lock_bytes l) = 44%nat.
Proof.
  intros [_ Hl]. unfold produced_lock_bytes.
  by rewrite length_app, length_le_bytes, length_lock_bytes.
Qed.

Lemma produced_lock_bytes_inj l1 l2 :
  plock_ok l1 → plock_ok l2 → produced_lock_bytes l1 = produced_lock_bytes l2 → l1 = l2.
Proof.
  intros [Hi1 Hl1] [Hi2 Hl2] [H1 H2]%app_split_eq; [|by rewrite !length_le_bytes].
  apply le_bytes_u32_inj in H1; [|done..]. apply lock_bytes_inj in H2; [|done..].
  destruct l1, l2; simpl in *; congruence.
Qed.

Lemma locks_bytes_inj ls1 ls2 s1 s2 :
  Forall plock_ok ls1 → Forall plock_ok ls2 → length ls1 = length ls2 →
  locks_bytes ls1 ++ s1 = locks_bytes ls2 ++ s2 → ls1 = ls2 ∧ s1 = s2.
Proof.
  intros H1 H2 Hl. destruct ls1 as [|l1 ls1], ls2 as [|l2 ls2]; try discriminate; [done|].
  unfold locks_bytes. rewrite Hl, <- !app_assoc. intros [_ Heq]%app_split_eq; [|done].
  revert Heq. apply (chunks_inj plock_ok _ 44);
    auto using length_produced_lock_bytes, produced_lock_bytes_inj.
Qed.

(** A pool leaf binds the whole entry: locked and unlocked leaves have different
    lengths, and equal lengths are read back field by field. *)
Theorem leaf_preimage_inj e1 e2 :
  entry_ok e1 → entry_ok e2 → leaf_preimage e1 = leaf_preimage e2 → e1 = e2.
Proof.
  intros [Hn1 Hl1] [Hn2 Hl2]. unfold leaf_preimage.
  destruct e1 as [n1 [l1|]], e2 as [n2 [l2|]]; cbn [note lock] in *; intros Heq.
  - apply app_split_eq in Heq as [Hn Hl]; [|by rewrite !length_note_bytes].
    apply note_bytes_inj in Hn as ->. by apply lock_bytes_inj in Hl as ->.
  - apply (f_equal length) in Heq.
    rewrite length_app, !length_note_bytes, length_lock_bytes in Heq by done. lia.
  - apply (f_equal length) in Heq.
    rewrite length_app, !length_note_bytes, length_lock_bytes in Heq by done. lia.
  - by apply note_bytes_inj in Heq as ->.
Qed.

(** A serial binds the creating transaction and the position. *)
Theorem serial_preimage_inj t1 i1 t2 i2 :
  hash_ok t1 → hash_ok t2 → in_u32 i1 → in_u32 i2 →
  serial_preimage t1 i1 = serial_preimage t2 i2 → t1 = t2 ∧ i1 = i2.
Proof.
  intros [H1 _] [H2 _] Hi1 Hi2 [-> Hi]%app_split_eq; [|congruence].
  by apply le_bytes_u32_inj in Hi.
Qed.

(** With the collection sizes fixed, the signing preimage binds the operation type,
    the set of consumed serials, every produced note in order, every lock, the outputs
    hash and the anchor. *)
Theorem signing_preimage_inj ty1 ty2 ser1 ser2 prod1 prod2 ls1 ls2 oh1 oh2 a1 a2 :
  Forall hash_ok ser1 → Forall hash_ok ser2 → Forall note_ok prod1 → Forall note_ok prod2 →
  Forall plock_ok ls1 → Forall plock_ok ls2 → hash_ok oh1 → hash_ok oh2 →
  in_u64 a1 → in_u64 a2 →
  length ser1 = length ser2 → length prod1 = length prod2 → length ls1 = length ls2 →
  signing_preimage ty1 ser1 prod1 ls1 oh1 a1 = signing_preimage ty2 ser2 prod2 ls2 oh2 a2 →
  ty1 = ty2 ∧ ser1 ≡ₚ ser2 ∧ prod1 = prod2 ∧ ls1 = ls2 ∧ oh1 = oh2 ∧ a1 = a2.
Proof.
  intros Hs1 Hs2 Hp1 Hp2 Hl1 Hl2 [Ho1 _] [Ho2 _] Ha1 Ha2 Ls Lp Ll.
  unfold signing_preimage. intros Heq.
  apply app_split_eq in Heq as [[= ->] Heq]; [|done].
  assert (∀ l, Forall hash_ok l → Forall hash_ok (sort_serials l)) as Hsort.
  { intros l. by rewrite sort_serials_perm. }
  rewrite !concat_flat_map in Heq.
  apply (chunks_inj hash_ok (λ x, x) 32) in Heq as [Hs Heq]; auto.
  2: { by intros ? [? _]. }
  2: { by rewrite !sort_serials_perm. }
  apply (chunks_inj note_ok note_bytes 33) in Heq as [-> Heq];
    auto using length_note_bytes, note_bytes_inj.
  apply locks_bytes_inj in Heq as [-> Heq]; [|done..].
  apply app_split_eq in Heq as [-> Heq]; [|congruence].
  apply le_bytes_u64_inj in Heq as ->; [|done..].
  split_and!; try done. by rewrite <- (sort_serials_perm ser1), Hs, sort_serials_perm.
Qed.

(** ** What the preimages leave open

    [transparent_outputs_hash] feeds every script without its length, so two
    consecutive outputs read the same as one output whose script swallows the
    second. *)
Definition merge_outputs (o1 o2 : TransactionOutput) : TransactionOutput :=
  mk_output (value o1)
    (mk_spk (version (script_public_key o1)) (script (script_public_key o1) ++ output_bytes o2))
    None.

Lemma outputs_preimage_merge pre o1 o2 post :
  outputs_preimage (pre ++ merge_outputs o1 o2 :: post) =
  outputs_preimage (pre ++ o1 :: o2 :: post).
Proof.
  unfold outputs_preimage. rewrite !flat_map_app. simpl. f_equal.
  unfold output_bytes; simpl. by rewrite <- !app_assoc.
Qed.

(** Without the number of outputs and the script lengths, only the case of
    scripts of known length is read back. *)
Lemma outputs_preimage_inj n outs1 outs2 :
  Forall (λ o, length (script (script_public_key o)) = n) outs1 →
  Forall (λ o, length (script (script_public_key o)) = n) outs2 →
  outputs_preimage outs1 = outputs_preimage outs2 →
  output_bytes <$> outs1 = output_bytes <$> outs2.
Proof.
  intros H1 H2 Heq.
  assert (∀ os, Forall (λ o, length (script (script_public_key o)) = n) os →
            Forall (λ b, length b = (10 + n)%nat) (output_bytes <$> os)) as Hlen.
  { intros os Hos. apply Forall_fmap. eapply Forall_impl; [exact Hos|]. intros o Ho.
    change (length (output_bytes o) = (10 + n)%nat). unfold output_bytes. by rewrite !length_app, !length_le_bytes, Ho. }
  pose proof (Hlen _ H1) as L1. pose proof (Hlen _ H2) as L2.
  assert (∀ bs : list (list Z), Forall (λ b, length b = (10 + n)%nat) bs →
            length (flat_map (λ x, x) bs) = (length bs * (10 + n))%nat) as Htot.
  { induction 1 as [|b bs Hb Hbs IH]; simpl; [done|]. rewrite length_app, Hb, IH. lia. }
  unfold outputs_preimage in Heq. rewrite !flat_map_concat_map in Heq.
  rewrite !concat_flat_map in Heq.
  apply (chunks_inj (λ b, length b = (10 + n)%nat) (λ x, x) (10 + n)%nat _ _ [] []); auto.
  - apply (f_equal length) in Heq. rewrite !Htot in Heq by done.
    by apply Nat.mul_cancel_r in Heq.
  - by rewrite !app_nil_r.
Qed.

(** The consumed serials (32 bytes each) and the produced notes (33 bytes each) are fed
    without their counts, so 34 serials and no note can read the same as one serial
    and 32 notes. *)
Definition ambiguous_serial (k : Z) : Hash := 0 :: k :: replicate 30 0.
Definition ambiguous_serials : list Hash := ambiguous_serial <$> seqZ 0 34.
(** The notes read off the bytes of serials 1 to 33. *)
Definition ambiguous_notes : list NewNote :=
  (λ j, let bs := take 33 (drop (33 * j) (concat (drop 1 ambiguous_serials))) in
        mk_note (default D0_01 (tag_try_from (hd 0 bs))) (tail bs)) <$> seq 0 32.

Lemma ambiguous_preimage ty oh a :
  signing_preimage ty ambiguous_serials [] [] oh a =
  signing_preimage ty [ambiguous_serial 0] ambiguous_notes [] oh a.
Proof. vm_compute. reflexivity. Qed.
