(* ===== verification/PoolCommitment.v ===== *)
(** * The commitment of the note pool

    [consensus/src/model/stores/notepool_smt.rs]: the sparse Merkle tree over the leaves of
    the live notes, kept as a table of branch nodes and a root, and updated by pool diffs.
    The tree library is [Smt]; what the table holds after any history of diffs and
    reversed diffs is the tree of the current pool, whose root [recompute_pool_commitment]
    computes from scratch. *)

From S2P Require Import Prelude Transaction Smt NotePool PoolDiff PoolHashing.

(** ** Rows *)

(** [NotePoolBranchKey::from]: 33 bytes. *)
Definition note_pool_branch_key (k : BranchKey) : list Z := Z.of_nat (bk_depth k) :: node_key k.
(** [Node::to_bytes] and [Node::from_bytes]: the length tells the two kinds apart. *)
Definition node_to_bytes (n : Node) : list Z :=
  match n with
  | Internal h => h
  | Collapsed cl => lane_key cl ++ collapsed_leaf_hash cl
  end.
Definition node_from_bytes (bytes : list Z) : option Node :=
  if (length bytes =? 32)%nat then Some (Internal bytes)
  else if (length bytes =? 64)%nat then Some (Collapsed (mk_collapsed (take 32 bytes) (drop 32 bytes)))
  else None.

Definition node_ok (n : Node) : Prop :=
  match n with
  | Internal h => length h = 32%nat
  | Collapsed cl => length (lane_key cl) = 32%nat ∧ length (collapsed_leaf_hash cl) = 32%nat
  end.
Lemma node_bytes_roundtrip n : node_ok n → node_from_bytes (node_to_bytes n) = Some n.
Proof.
  unfold node_from_bytes. destruct n as [h|[k h]]; cbn [node_ok node_to_bytes lane_key collapsed_leaf_hash].
  - intros ->. done.
  - intros [Hk Hh]. rewrite length_app, Hk, Hh. cbn [Nat.add Nat.eqb]. rewrite take_app_length', drop_app_length' by done. done.
Qed.
Lemma branch_key_bytes_inj k k' : note_pool_branch_key k = note_pool_branch_key k' → k = k'.
Proof. destruct k, k'. intros [= ?%Nat2Z.inj ->]. by subst. Qed.

(** ** The store *)
Record DbNotePoolSmtStore := mk_smt_store { branches : gmap BranchKey Node; root : option Hash }.

Section store.
Context `{SmtHasher} `{NotePoolHashers}.
Context {E : Type}.

Definition new_smt_store : DbNotePoolSmtStore := mk_smt_store ∅ None.
Definition current_root (s : DbNotePoolSmtStore) : Hash := default (empty_hash DEPTH) (root s).
(** [SmtStore::get_node]. *)
Definition get_branch (s : DbNotePoolSmtStore) (k : BranchKey) : outcome E (option Node) := Ok (branches s !! k).

(** The loop over the changes: a node is written, [None] deletes. *)
Definition write_branch (m : gmap BranchKey Node) (kn : BranchKey * option Node) : gmap BranchKey Node :=
  match kn.2 with Some n => <[kn.1 := n]> m | None => delete kn.1 m end.
Definition apply_leaf_updates_batch (s : DbNotePoolSmtStore) (updates : gmap Hash Hash)
    : outcome E (DbNotePoolSmtStore * Hash) :=
  r ← compute_root_update (get_branch s) (current_root s) (from_sorted_map updates);
  Ok (mk_smt_store (foldl write_branch (branches s) (map_to_list r.2)) (Some r.1), r.1).

Definition apply_note_diff (s : DbNotePoolSmtStore) (add : list (Hash * Hash)) (remove : list Hash)
    : outcome E (DbNotePoolSmtStore * Hash) :=
  let updates := foldl (λ m sn, <[sn := ZERO_HASH]> m) ∅ remove in
  let updates := foldl (λ m kv, <[kv.1 := kv.2]> m) updates add in
  apply_leaf_updates_batch s updates.
Definition smt_apply_diff (s : DbNotePoolSmtStore) (dd : PoolDiff) : outcome E (DbNotePoolSmtStore * Hash) :=
  apply_note_diff s ((λ kv, (kv.1, leaf_hash_entry kv.2)) <$> map_to_list (add dd)) (map_to_list (remove dd)).*1.
(** The updates are collected in place. *)
Definition apply_diff_batch (s : DbNotePoolSmtStore) (dd : PoolDiff) : outcome E (DbNotePoolSmtStore * Hash) :=
  let updates := foldl (λ m sn, <[sn := ZERO_HASH]> m) ∅ (map_to_list (remove dd)).*1 in
  let updates := foldl (λ m kv, <[kv.1 := leaf_hash_entry kv.2]> m) updates (map_to_list (add dd)) in
  apply_leaf_updates_batch s updates.
Definition unapply_diff (s : DbNotePoolSmtStore) (dd : PoolDiff) : outcome E (DbNotePoolSmtStore * Hash) :=
  smt_apply_diff s (to_reversed dd).
Definition clear_store (s : DbNotePoolSmtStore) : DbNotePoolSmtStore := mk_smt_store ∅ (Some (empty_hash DEPTH)).

(** The end of [recompute_pool_commitment]: a fresh in-memory tree over all entries. *)
Definition tree_of_entries (entries : PoolCollection) : outcome E Hash :=
  let leaf_updates := from_unsorted ((λ kv, mk_update kv.1 (leaf_hash_entry kv.2)) <$> map_to_list entries) in
  r ← compute_root_update (λ bk, Ok ((∅ : gmap BranchKey Node) !! bk)) (empty_hash DEPTH) leaf_updates;
  Ok r.1.

(** ** The leaves of a pool *)
#[local] Opaque root_of empty_hash compute_root_update.
Definition leaves (p : PoolCollection) : gmap Hash Hash := leaf_hash_entry <$> p.
(** The leaves the tree has: it drops a leaf that is the zero hash. *)
Definition pool_root (p : PoolCollection) : Hash := root_of (updated (leaves p) ∅).
Definition serials_ok (p : PoolCollection) : Prop := map_Forall (λ sn _, key_ok sn) p.

Lemma tree_of_entries_spec p : serials_ok p → tree_of_entries p = Ok (pool_root p).
Proof.
  intros Hp. assert (Hl : map_Forall (λ k _, key_ok k) (leaves p)) by (apply map_Forall_fmap; exact Hp).
  assert (Hus : (λ kv, mk_update kv.1 (leaf_hash_entry kv.2)) <$> map_to_list p =
    (λ kv, mk_update kv.1 kv.2) <$> map_to_list (leaves p)).
  { unfold leaves. rewrite map_to_list_fmap, <- list_fmap_compose. done. }
  unfold tree_of_entries. rewrite Hus, unsorted_ok by done. destruct (sorted_map_ok _ Hl) as [Hb Hm].
  rewrite <- root_of_empty.
  destruct (update_spec (E := E) (λ bk, Ok ((∅ : gmap BranchKey Node) !! bk)) ∅ ∅ (from_sorted_map (leaves p)))
    as (ch & Hrun & _); [done|apply represents_empty|done|apply no_siblings_empty|by left|].
  rewrite Hrun, Hm. cbn [mbind outcome_bind fst]. unfold pool_root. reflexivity.
Qed.

(** ** The store follows the pool *)

(** The table holds the tree of the leaves of [p], and the root is its root. *)
Record tracks (s : DbNotePoolSmtStore) (p : PoolCollection) : Prop := {
  tr_nodes : represents (branches s) (leaves p);
  tr_root : current_root s = root_of (leaves p) }.

Lemma tracks_root s p : tracks s p → current_root s = pool_root p.
Proof.
  intros [[Hl _] ->]. unfold pool_root. f_equal. apply map_eq. intros k. rewrite updated_lookup, lookup_empty.
  destruct (leaves p !! k) as [h|] eqn:Hk; [|done]. rewrite bool_decide_false; [done|]. by apply (Hl k h).
Qed.
Lemma tracks_empty : tracks new_smt_store ∅ ∧ ∀ s, tracks (clear_store s) ∅.
Proof.
  assert (Hl : leaves ∅ = ∅) by apply fmap_empty.
  split; [|intros s]; split; rewrite Hl; try apply represents_empty; symmetry; apply root_of_empty.
Qed.

Lemma write_branches m (ch : gmap BranchKey (option Node)) : foldl write_branch m (map_to_list ch) = write_changes m ch.
Proof.
  apply map_eq. intros bk. unfold write_changes. rewrite lookup_merge.
  assert (Hl : ∀ (l : list (BranchKey * option Node)) m, NoDup l.*1 → foldl write_branch m l !! bk =
    match (list_to_map l : gmap BranchKey (option Node)) !! bk with Some n => n | None => m !! bk end).
  { clear. induction l as [|[k n] l IH]; intros m Hnd; [done|]. cbn [fmap list_fmap fst] in Hnd. apply NoDup_cons in Hnd as [Hk Hnd].
    cbn [foldl list_to_map foldr]. rewrite IH by done. unfold uncurry. unfold write_branch. cbn [fst snd].
    destruct (decide (bk = k)) as [->|Hne].
    - rewrite lookup_insert_eq. apply (not_elem_of_list_to_map_1 (M := gmap BranchKey)) in Hk. rewrite Hk.
      destruct n; [apply lookup_insert_eq|apply lookup_delete_eq].
    - rewrite lookup_insert_ne by done. destruct (list_to_map l !! bk); [done|].
      destruct n; [by rewrite lookup_insert_ne|by rewrite lookup_delete_ne]. }
  rewrite Hl by apply NoDup_fst_map_to_list. rewrite list_to_map_to_list. by destruct (ch !! bk), (m !! bk).
Qed.

(** The updates of a diff. *)
Definition diff_updates (dd : PoolDiff) : gmap Hash Hash :=
  (leaf_hash_entry <$> add dd) ∪ ((λ _, ZERO_HASH) <$> remove dd).

Lemma zero_loop (r : PoolCollection) :
  foldl (λ (m : gmap Hash Hash) sn, <[sn := ZERO_HASH]> m) ∅ (map_to_list r).*1 = (λ _, ZERO_HASH) <$> r.
Proof.
  apply map_eq. intros k. rewrite lookup_fmap.
  assert (Hl : ∀ ks (m : gmap Hash Hash), foldl (λ m sn, <[sn := ZERO_HASH]> m) m ks !! k =
    if decide (k ∈ ks) then Some ZERO_HASH else m !! k).
  { induction ks as [|x ks IH]; intros m; cbn [foldl]; [by rewrite decide_False by apply not_elem_of_nil|]. rewrite IH.
    destruct (decide (k = x)) as [->|Hne]; [rewrite lookup_insert_eq, (decide_True (P := x ∈ x :: ks)) by (by left); by destruct (decide _)|].
    rewrite lookup_insert_ne by done. apply decide_ext. rewrite elem_of_cons. tauto. }
  rewrite Hl. destruct (r !! k) as [e|] eqn:Hk; cbn [fmap option_fmap option_map].
  - rewrite decide_True; [done|]. apply elem_of_map_keys. by eexists.
  - rewrite decide_False; [by rewrite lookup_empty|]. rewrite elem_of_map_keys, Hk. by intros [].
Qed.
Lemma leaf_loop (m : gmap Hash Hash) (a : PoolCollection) :
  foldl (λ m kv, <[kv.1 := kv.2]> m) m ((λ kv, (kv.1, leaf_hash_entry kv.2)) <$> map_to_list a) = leaves a ∪ m.
Proof.
  unfold leaves. pose proof (map_to_list_fmap leaf_hash_entry a) as Hl. unfold prod_map in Hl.
  assert (Heq : (λ kv, (kv.1, leaf_hash_entry kv.2)) <$> map_to_list a = map_to_list (leaf_hash_entry <$> a)).
  { rewrite map_to_list_fmap. apply list_fmap_ext. by intros ? [] _. }
  rewrite Heq. apply map_eq. intros k. rewrite (insert_if_lookup (λ _, true)), lookup_union.
  by destruct ((leaf_hash_entry <$> a) !! k), (m !! k).
Qed.
Lemma smt_apply_diff_updates s dd : smt_apply_diff s dd = apply_leaf_updates_batch s (diff_updates dd).
Proof. unfold smt_apply_diff, apply_note_diff. by rewrite zero_loop, leaf_loop. Qed.
Lemma apply_diff_batch_eq s dd : apply_diff_batch s dd = smt_apply_diff s dd.
Proof.
  rewrite smt_apply_diff_updates. unfold apply_diff_batch, diff_updates. rewrite zero_loop. f_equal.
  change (leaf_hash_entry <$> add dd) with (leaves (add dd)). rewrite <- leaf_loop. generalize (map_to_list (add dd)).
  intros l. generalize ((λ _, ZERO_HASH) <$> remove dd : gmap Hash Hash). induction l as [|kv l IH]; intros m; [done|]. apply IH.
Qed.

Lemma after_diff p dd :
  fits p dd → leaves_ok (leaves (apply_diff p dd)) → updated (diff_updates dd) (leaves p) = leaves (apply_diff p dd).
Proof.
  rewrite fits_lookup. intros [Hr Ha] Hok. apply map_eq. intros k. rewrite updated_lookup. unfold diff_updates, leaves.
  rewrite lookup_union, !lookup_fmap, apply_diff_lookup.
  destruct (add dd !! k) as [e|] eqn:Hk; cbn [fmap option_fmap option_map].
  - assert (Hz : leaf_hash_entry e ≠ ZERO_HASH).
    { apply (Hok k). unfold leaves. by rewrite lookup_fmap, apply_diff_lookup, Hk. }
    destruct (remove dd !! k); cbn; by rewrite bool_decide_false.
  - by destruct (remove dd !! k).
Qed.

Lemma tracks_step s p dd :
  tracks s p → no_siblings (leaves p) → fits p dd → leaves_ok (leaves (apply_diff p dd)) →
  ∃ s', smt_apply_diff s dd = Ok (s', pool_root (apply_diff p dd)) ∧ tracks s' (apply_diff p dd).
Proof.
  intros Ht Hns Hf Hok. pose proof (after_diff p dd Hf Hok) as Ha. rewrite smt_apply_diff_updates.
  assert (Hkeys : map_Forall (λ k _, key_ok k) (diff_updates dd)).
  { intros k h Hk. unfold diff_updates in Hk. rewrite lookup_union, !lookup_fmap in Hk.
    apply fits_lookup in Hf as [Hr Hadd]. destruct (add dd !! k) as [e|] eqn:Hke.
    - apply (Hok k (leaf_hash_entry e)). unfold leaves. by rewrite lookup_fmap, apply_diff_lookup, Hke.
    - destruct (remove dd !! k) as [e|] eqn:Hkr; [|done]. apply (proj1 (tr_nodes _ _ Ht) k (leaf_hash_entry e)).
      unfold leaves. by rewrite lookup_fmap, (Hr k e). }
  destruct (sorted_map_ok _ Hkeys) as [Hb Hm].
  destruct (update_spec (get_branch s) (branches s) (leaves p) (from_sorted_map (diff_updates dd))) as (ch & Hrun & Hrep);
    [done|apply Ht|done|done| |].
  { right. rewrite Hm. intros k. unfold diff_updates. rewrite lookup_union, !lookup_fmap. unfold leaves. rewrite lookup_fmap.
    pose proof (Hok k) as Hz. unfold leaves in Hz. rewrite lookup_fmap, apply_diff_lookup in Hz. apply fits_lookup in Hf as [Hr _].
    destruct (add dd !! k) as [e|]; cbn [fmap option_fmap option_map] in *.
    - destruct (remove dd !! k); cbn; intros [= He]; by destruct (Hz _ eq_refl).
    - destruct (remove dd !! k) as [e|] eqn:Hk; [|done]. rewrite (Hr k e Hk). by eexists. }
  rewrite Hm, Ha in Hrun, Hrep. unfold apply_leaf_updates_batch. rewrite (tr_root _ _ Ht), Hrun. cbn [mbind outcome_bind fst snd].
  rewrite write_branches. eexists.
  assert (Ht' : tracks (mk_smt_store (write_changes (branches s) ch) (Some (root_of (leaves (apply_diff p dd))))) (apply_diff p dd)) by done.
  split; [|exact Ht']. by rewrite <- (tracks_root _ _ Ht').
Qed.

(** (C13) The stored commitment is the commitment of the pool: on a store that holds the tree of
    the leaves of [p], for a pool in which no two serials differ in the last bit alone (serials
    are 256-bit hashes), a diff that fits [p] and leads to such a pool, with well-formed
    serials and no zero leaf hash, is applied without error, the store then
    holds the tree of the new pool, the root written is the one a fresh tree over all
    entries has, and undoing the diff restores the tree of [p] and its root.  So the root
    depends on the pool alone, whatever diffs and reversals led to it. *)
Theorem pool_commitment_tracks s p dd :
  let p' := apply_diff p dd in
  tracks s p → fits p dd → leaves_ok (leaves p') → no_siblings (leaves p) → no_siblings (leaves p') →
  ∃ s', apply_diff_batch s dd = Ok (s', pool_root p') ∧ tracks s' p' ∧ tree_of_entries p' = Ok (pool_root p') ∧
    ∃ s'', unapply_diff s' dd = Ok (s'', pool_root p) ∧ tracks s'' p.
Proof.
  intros p' Ht Hf Hok Hns Hns'. destruct (tracks_step s p dd Ht Hns Hf Hok) as (s' & Hrun & Ht').
  destruct (reverse_sound p dd Hf) as [Hfr Hback]. exists s'. rewrite apply_diff_batch_eq. split; [done|]. split; [done|]. split.
  - apply tree_of_entries_spec. intros sn e He. apply (Hok sn (leaf_hash_entry e)). unfold leaves. by rewrite lookup_fmap, He.
  - destruct (tracks_step s' p' (to_reversed dd) Ht' Hns' Hfr) as (s'' & Hrun' & Ht''); fold p' in Hback; rewrite Hback in *;
      [apply Ht|by exists s''].
Qed.
End store.

(** ** A concrete pool *)
#[local] Existing Instance mix_hashers.
#[local] Instance leaf_demo_hashers : NotePoolHashers :=
  {| NotePoolLeafHash := λ b, 9 :: take 31 (b ++ replicate 31 0); NotePoolSerialHash := λ b, b;
     NotePoolOutputsHash := λ b, b; NotePoolSigningHash := λ b, b |}.
Definition commit_entry (k : Z) : PoolEntry := mk_entry (mk_note D10 (replicate 32 k)) None.
Definition commit_pool : PoolCollection :=
  {[ smt_key 1 := commit_entry 5; smt_key 130 := commit_entry 6 ]}.
(** One note is consumed, two are produced. *)
Definition commit_diff : PoolDiff :=
  mk_diff {[ smt_key 3 := commit_entry 7; smt_key 200 := commit_entry 8 ]} {[ smt_key 1 := commit_entry 5 ]}.
Definition commit_pool_next : PoolCollection :=
  {[ smt_key 130 := commit_entry 6; smt_key 3 := commit_entry 7; smt_key 200 := commit_entry 8 ]}.

Lemma pool_commitment_tracks_witness :
  ∃ s s' s'', tracks s commit_pool ∧ apply_diff_batch (E := unit) s commit_diff = Ok (s', pool_root commit_pool_next) ∧
    tracks s' commit_pool_next ∧ unapply_diff (E := unit) s' commit_diff = Ok (s'', pool_root commit_pool) ∧ tracks s'' commit_pool.
Proof.
  destruct (tracks_step (E := unit) new_smt_store ∅ (mk_diff commit_pool ∅)) as (s & _ & Hs);
    [apply tracks_empty|unfold leaves; rewrite fmap_empty; apply no_siblings_empty|
     apply fits_lookup; split; intros sn e; cbn; by rewrite lookup_empty|unfold leaves_ok; by_decide|].
  assert (Hp : apply_diff ∅ (mk_diff commit_pool ∅) = commit_pool) by by_decide. rewrite Hp in Hs.
  assert (Hn : apply_diff commit_pool commit_diff = commit_pool_next) by by_decide.
  destruct (pool_commitment_tracks (E := unit) s commit_pool commit_diff) as (s' & Hrun & Ht & _ & s'' & Hback & Ht').
  - exact Hs.
  - unfold fits. by_decide.
  - unfold leaves_ok. by_decide.
  - apply no_siblings_forall. by_decide.
  - apply no_siblings_forall. by_decide.
  - rewrite Hn in Hrun, Ht. exists s, s', s''. split; [exact Hs|]. split; [exact Hrun|]. split; [exact Ht|]. split; [exact Hback|exact Ht'].
Defined.
