(* ===== verification/PoolValidate.v ===== *)
(** * Note pool: validation of pool operations

    [consensus/core/src/notepool/validate.rs] and [errors/notepool.rs]:
    stateless validation, and stateful validation against a composed pool view.
    BIP340 verification is third-party code: the class [SchnorrOracle].

    The main result is that stateful validation decides the declarative relation
    [valid_in] and returns the mutation and the totals [valid_result] describes. *)

From Stdlib Require Import String.
From S2P Require Import Prelude Transaction NotePool PoolDiff PoolHashing.

(** [XOnlyPublicKey::from_slice(pk).is_ok()] and [sig.verify(&msg, &xonly).is_ok()]. *)
Class SchnorrOracle := {
  xonly_valid : list Z → bool;
  schnorr_verify : list Z → Hash → list Z → bool }.

Inductive PoolOpValidationError :=
  | EmptyCollection (what : string)
  | TooManyItems (n : nat) (what : string) (limit : nat)
  | EmptySignedGroup (i : nat)
  | DuplicateSerial (sn : Hash)
  | LockIndexOutOfRange (i : Z) (n : nat)
  | LockIndicesNotAscending.
#[global] Instance PoolOpValidationError_eq_dec : EqDecision PoolOpValidationError.
Proof. solve_decision. Defined.

Inductive PoolOpContextError :=
  | MalformedPayload
  | SerialNotFound (sn : Hash)
  | SerialAlreadyExists (sn : Hash)
  | MixedKeysInGroup (i : nat)
  | BadPublicKey (i : nat)
  | BadSignature (i : nat)
  | AnchorInFuture (anchor pov : Z)
  | StaleAnchor (anchor pov window : Z)
  | InsufficientConsumedValue (consumed produced : Z)
  | LocksNotActive (pov : Z)
  | Algebra (e : PoolAlgebraError).
#[global] Instance PoolOpContextError_eq_dec : EqDecision PoolOpContextError.
Proof. solve_decision. Defined.

Definition MAX_POOL_OP_COLLECTION_LEN : nat := 1000.

(** ** Stateless validation *)

Definition is_nil {A} (l : list A) : bool := match l with [] => true | _ => false end.

(** [if !seen.insert(serial) { return Err(..) }]. *)
Definition see_serial (seen : gset Hash) (sn : Hash)
    : outcome PoolOpValidationError (gset Hash) :=
  if decide (sn ∈ seen) then Err (DuplicateSerial sn) else Ok ({[sn]} ∪ seen).

(** One iteration of the group loop. *)
Definition see_group (i : nat) (seen : gset Hash) (group : SignedGroup)
    : outcome PoolOpValidationError (gset Hash) :=
  reject_if (is_nil (serials group)) (EmptySignedGroup i);;
  try_fold see_serial seen (serials group).

Definition validate_consumed_groups (groups : list SignedGroup)
    : outcome PoolOpValidationError unit :=
  let total_serials := sum_list ((λ g, length (serials g)) <$> groups) in
  reject_if (MAX_POOL_OP_COLLECTION_LEN <? total_serials)%nat
    (TooManyItems total_serials "consumed serials" MAX_POOL_OP_COLLECTION_LEN);;
  try_foldi see_group 0 ∅ groups;;
  Ok tt.

(** One iteration of the lock loop, [last] being the previous index. *)
Definition validate_lock (produced_len : nat) (last : option Z) (l : ProducedLock)
    : outcome PoolOpValidationError (option Z) :=
  reject_if (produced_len <=? Z.to_nat (lock_index l))%nat
    (LockIndexOutOfRange (lock_index l) produced_len);;
  match last with
  | Some prev => reject_if (lock_index l <=? prev) LockIndicesNotAscending
  | None => Ok tt
  end;;
  Ok (Some (lock_index l)).

Definition validate_locks (locks : list ProducedLock) (produced_len : nat)
    : outcome PoolOpValidationError unit :=
  try_fold (validate_lock produced_len) None locks;; Ok tt.

Definition validate_mint (m : MintOp) : outcome PoolOpValidationError unit :=
  reject_if (is_nil (new_notes m)) (EmptyCollection "new_notes");;
  reject_if (MAX_POOL_OP_COLLECTION_LEN <? length (new_notes m))%nat
    (TooManyItems (length (new_notes m)) "new_notes" MAX_POOL_OP_COLLECTION_LEN).

Definition validate_transfer (t : TransferOp) : outcome PoolOpValidationError unit :=
  reject_if (is_nil (t_consumed t)) (EmptyCollection "consumed");;
  reject_if (MAX_POOL_OP_COLLECTION_LEN <? length (t_produced t))%nat
    (TooManyItems (length (t_produced t)) "produced" MAX_POOL_OP_COLLECTION_LEN);;
  validate_consumed_groups (t_consumed t).

Definition validate_redeem (r : RedeemOp) : outcome PoolOpValidationError unit :=
  reject_if (is_nil (r_consumed r)) (EmptyCollection "consumed");;
  validate_consumed_groups (r_consumed r).

Definition validate_transfer_locked (t : TransferLockedOp) : outcome PoolOpValidationError unit :=
  reject_if (is_nil (l_consumed t)) (EmptyCollection "consumed");;
  reject_if (MAX_POOL_OP_COLLECTION_LEN <? length (l_produced t))%nat
    (TooManyItems (length (l_produced t)) "produced" MAX_POOL_OP_COLLECTION_LEN);;
  reject_if (is_nil (l_locks t)) (EmptyCollection "locks");;
  validate_locks (l_locks t) (length (l_produced t));;
  validate_consumed_groups (l_consumed t).

Definition validate_stateless (op : PoolOp) : outcome PoolOpValidationError unit :=
  match op with
  | Mint m => validate_mint m
  | Transfer t => validate_transfer t
  | Redeem r => validate_redeem r
  | TransferLocked t => validate_transfer_locked t
  end.

(** ** Stateful validation *)

Record ValidatedPoolOp := mk_validated {
  vdiff : PoolDiff;
  consumed_petals : Z;
  produced_petals : Z }.
#[global] Instance ValidatedPoolOp_eq_dec : EqDecision ValidatedPoolOp.
Proof. solve_decision. Defined.

Definition check_freshness (f : FreshnessAnchor) (pov_daa_score : Z)
    : outcome PoolOpContextError unit :=
  let anchor := anchor_daa_score f in
  reject_if (pov_daa_score <? anchor) (AnchorInFuture anchor pov_daa_score);;
  age ← u64_sub pov_daa_score anchor;
  reject_if (POOL_FRESHNESS_WINDOW <? age)
    (StaleAnchor anchor pov_daa_score POOL_FRESHNESS_WINDOW).

(** [entries[l.index as usize].lock = Some(l.lock)]: indexing panics out of range. *)
Definition index_lock {E} (es : list PoolEntry) (l : ProducedLock) : outcome E (list PoolEntry) :=
  match es !! Z.to_nat (lock_index l) with
  | Some e => Ok (<[Z.to_nat (lock_index l) := mk_entry (note e) (Some (plock l))]> es)
  | None => Panic
  end.

Section stateful.
Context `{NotePoolHashers} `{SchnorrOracle} {V : Type} `{PoolStateView V}.

Definition check_produced_serial_is_fresh (sn : Hash) (pool_view : V)
    : outcome PoolOpContextError unit :=
  reject_if (match get_note pool_view sn with Some _ => true | None => false end)
    (SerialAlreadyExists sn).

(** The key the group has shown so far, after seeing one more. *)
Definition merge_key (i : nat) (group_pk : option (list Z)) (key : list Z)
    : outcome PoolOpContextError (option (list Z)) :=
  match group_pk with
  | None => Ok (Some key)
  | Some seen => if decide (seen = key) then Ok (Some seen) else Err (MixedKeysInGroup i)
  end.

(** Body of [for &sn in &group.serials]; the state is [(group_pk, diff, consumed_petals)]. *)
Definition consume_serial (pool_view : V) (pov_daa_score : Z) (skip_signature : bool) (i : nat)
    (st : option (list Z) * PoolDiff * Z) (sn : Hash)
    : outcome PoolOpContextError (option (list Z) * PoolDiff * Z) :=
  let '(group_pk, dd, consumed) := st in
  entry ← ok_or (get_note pool_view sn) (SerialNotFound sn);
  group_pk ← (if skip_signature then Ok group_pk
              else merge_key i group_pk (spending_pk entry pov_daa_score));
  dd ← map_err Algebra (remove_note dd sn entry);
  consumed ← u64_add consumed (petals (d (note entry)));
  Ok (group_pk, dd, consumed).

(** Body of the group loop; the state is [(diff, consumed_petals)]. *)
Definition consume_group (op_type : Z) (produced : list NewNote) (locks : list ProducedLock)
    (outputs_hash : Hash) (anchor : Z) (pool_view : V) (pov_daa_score : Z)
    (skip_signature : bool) (i : nat) (st : PoolDiff * Z) (group : SignedGroup)
    : outcome PoolOpContextError (PoolDiff * Z) :=
  st' ← try_fold (consume_serial pool_view pov_daa_score skip_signature i)
          (None, st.1, st.2) (serials group);
  let '(group_pk, dd, consumed) := st' in
  if skip_signature then Ok (dd, consumed)
  else
    key ← unwrap group_pk;
    reject_if (negb (xonly_valid key)) (BadPublicKey i);;
    let msg := signing_hash_with_locks op_type (serials group) produced locks outputs_hash anchor in
    reject_if (negb (schnorr_verify (signature group) msg key)) (BadSignature i);;
    Ok (dd, consumed).

Definition validate_consumed_groups_stateful (groups : list SignedGroup) (op_type : Z)
    (produced : list NewNote) (locks : list ProducedLock) (outputs_hash : Hash) (anchor : Z)
    (pool_view : V) (pov_daa_score : Z) (skip_signature : bool) (dd : PoolDiff)
    : outcome PoolOpContextError (PoolDiff * Z) :=
  try_foldi
    (consume_group op_type produced locks outputs_hash anchor pool_view pov_daa_score skip_signature)
    0 (dd, 0) groups.

(** Body of the loop over produced entries; the state is [(diff, produced_petals)]. *)
Definition produce_note (tx_id : Hash) (pool_view : V) (i : nat) (st : PoolDiff * Z)
    (entry : PoolEntry) : outcome PoolOpContextError (PoolDiff * Z) :=
  let sn := serial_hash tx_id (Z.of_nat i mod 2 ^ 32) in
  check_produced_serial_is_fresh sn pool_view;;
  dd ← map_err Algebra (add_note st.1 sn entry);
  produced ← u64_add st.2 (petals (d (note entry)));
  Ok (dd, produced).

Definition validate_mint_stateful (m : MintOp) (tx_id : Hash) (pool_view : V)
    : outcome PoolOpContextError ValidatedPoolOp :=
  st ← try_foldi (produce_note tx_id pool_view) 0 (empty_diff, 0) (unlocked <$> new_notes m);
  Ok (mk_validated st.1 0 st.2).

Definition validate_transfer_stateful (consumed : list SignedGroup) (produced : list NewNote)
    (locks : list ProducedLock) (freshness : FreshnessAnchor) (op_type : Z) (tx_id : Hash)
    (tx_outputs : list TransactionOutput) (pool_view : V) (pov_daa_score : Z) (skip : bool)
    : outcome PoolOpContextError ValidatedPoolOp :=
  (if skip then Ok tt else check_freshness freshness pov_daa_score);;
  let outputs_hash := transparent_outputs_hash tx_outputs in
  st ← validate_consumed_groups_stateful consumed op_type produced locks outputs_hash
         (anchor_daa_score freshness) pool_view pov_daa_score skip empty_diff;
  entries ← try_fold index_lock (unlocked <$> produced) locks;
  st' ← try_foldi (produce_note tx_id pool_view) 0 (st.1, 0) entries;
  reject_if (st.2 <? st'.2) (InsufficientConsumedValue st.2 st'.2);;
  Ok (mk_validated st'.1 st.2 st'.2).

Definition validate_redeem_stateful (r : RedeemOp) (tx_outputs : list TransactionOutput)
    (pool_view : V) (pov_daa_score : Z) (skip : bool)
    : outcome PoolOpContextError ValidatedPoolOp :=
  (if skip then Ok tt else check_freshness (r_freshness r) pov_daa_score);;
  let outputs_hash := transparent_outputs_hash tx_outputs in
  st ← validate_consumed_groups_stateful (r_consumed r) 2 [] [] outputs_hash
         (anchor_daa_score (r_freshness r)) pool_view pov_daa_score skip empty_diff;
  Ok (mk_validated st.1 st.2 0).

Definition validate_stateful (op : PoolOp) (tx_id : Hash) (tx_outputs : list TransactionOutput)
    (pool_view : V) (pov_daa_score : Z) (skip_signature_and_freshness locks_active : bool)
    : outcome PoolOpContextError ValidatedPoolOp :=
  match op with
  | Mint m => validate_mint_stateful m tx_id pool_view
  | Transfer t =>
      validate_transfer_stateful (t_consumed t) (t_produced t) [] (t_freshness t) 1 tx_id
        tx_outputs pool_view pov_daa_score skip_signature_and_freshness
  | TransferLocked t =>
      reject_if (negb locks_active) (LocksNotActive pov_daa_score);;
      validate_transfer_stateful (l_consumed t) (l_produced t) (l_locks t) (l_freshness t) 3 tx_id
        tx_outputs pool_view pov_daa_score skip_signature_and_freshness
  | Redeem r =>
      validate_redeem_stateful r tx_outputs pool_view pov_daa_score skip_signature_and_freshness
  end.
End stateful.

(** ** Stateless validation, declaratively *)

Definition locks_canonical (ls : list ProducedLock) (produced_len : nat) : Prop :=
  StronglySorted Z.lt (lock_index <$> ls) ∧
  Forall (λ l, (Z.to_nat (lock_index l) < produced_len)%nat) ls.

Definition groups_valid (gs : list SignedGroup) : Prop :=
  (length (group_serials gs) ≤ MAX_POOL_OP_COLLECTION_LEN)%nat ∧
  Forall (λ g, serials g ≠ []) gs ∧ NoDup (group_serials gs).

(** What the stateless rules ask of an operation. *)
Definition stateless_valid (op : PoolOp) : Prop :=
  (length (produced_notes op) ≤ MAX_POOL_OP_COLLECTION_LEN)%nat ∧
  match op with
  | Mint m => new_notes m ≠ []
  | Transfer t => t_consumed t ≠ [] ∧ groups_valid (t_consumed t)
  | Redeem r => r_consumed r ≠ [] ∧ groups_valid (r_consumed r)
  | TransferLocked t =>
      l_consumed t ≠ [] ∧ l_locks t ≠ [] ∧
      locks_canonical (l_locks t) (length (l_produced t)) ∧ groups_valid (l_consumed t)
  end.

Lemma is_nil_false {A} (l : list A) : is_nil l = false ↔ l ≠ [].
Proof. by destruct l. Qed.

Lemma see_serials_Ok seen l seen' :
  try_fold see_serial seen l = Ok seen' ↔
    NoDup l ∧ (∀ sn, sn ∈ l → sn ∉ seen) ∧ seen' = list_to_set l ∪ seen.
Proof.
  revert seen; induction l as [|sn l IH]; intros seen; cbn [try_fold list_to_set].
  - rewrite (left_id_L ∅ (∪)). split.
    + intros [= <-]. split_and!; [constructor|by intros ? ?%not_elem_of_nil|done].
    + by intros (_ & _ & ->).
  - rewrite bind_Ok, NoDup_cons. unfold see_serial at 1.
    destruct (decide (sn ∈ seen)) as [Hin|Hin].
    + split; [naive_solver|]. intros (_ & Hf & _). exfalso. apply (Hf sn); [left|done].
    + split.
      * intros (s1 & [= <-] & (Hnd & Hf & ->)%IH). split_and!; [|done| |set_solver].
        -- intros Hsn. apply (Hf sn Hsn). set_solver.
        -- intros x [->|Hx]%elem_of_cons; [done|]. specialize (Hf x Hx). set_solver.
      * intros ((Hsn & Hnd) & Hf & ->). eexists. split; [done|]. apply IH.
        split_and!; [done| |set_solver]. intros x Hx. rewrite elem_of_union, elem_of_singleton.
        intros [->|Hs]; [done|]. apply (Hf x); [by right|done].
Qed.

Lemma see_groups_Ok i seen gs seen' :
  try_foldi see_group i seen gs = Ok seen' ↔
    Forall (λ g, serials g ≠ []) gs ∧ NoDup (group_serials gs) ∧
    (∀ sn, sn ∈ group_serials gs → sn ∉ seen) ∧ seen' = list_to_set (group_serials gs) ∪ seen.
Proof.
  unfold group_serials.
  revert i seen; induction gs as [|g gs IH]; intros i seen; cbn [try_foldi flat_map list_to_set].
  - rewrite (left_id_L ∅ (∪)). split.
    + intros [= <-]. split_and!; [done|constructor|by intros ? ?%not_elem_of_nil|done].
    + by intros (_ & _ & _ & ->).
  - rewrite bind_Ok. unfold see_group at 1.
    setoid_rewrite bind_Ok. setoid_rewrite reject_if_Ok. setoid_rewrite is_nil_false.
    setoid_rewrite see_serials_Ok. setoid_rewrite IH.
    rewrite NoDup_app, Forall_cons, list_to_set_app_L. setoid_rewrite elem_of_app. split.
    + intros (s1 & (_ & Hne & Hnd & Hf & ->) & Hall & Hnd2 & Hf2 & ->).
      split_and!; try done; [| |set_solver]; set_solver.
    + intros ([Hne Hall] & (Hnd & Hx & Hnd2) & Hf & ->). eexists. split.
      * exists tt. split_and!; eauto.
      * split_and!; [done..| |set_solver]. set_solver.
Qed.

Lemma sum_serials gs : sum_list ((λ g, length (serials g)) <$> gs) = length (group_serials gs).
Proof. unfold group_serials. induction gs as [|g gs IH]; simpl; [done|]. rewrite length_app. by f_equal. Qed.

Lemma validate_consumed_groups_Ok gs :
  validate_consumed_groups gs = Ok tt ↔ groups_valid gs.
Proof.
  unfold validate_consumed_groups, groups_valid. cbv zeta. rewrite sum_serials, bind_Ok.
  setoid_rewrite reject_if_Ok. setoid_rewrite Nat.ltb_ge. setoid_rewrite bind_Ok.
  setoid_rewrite see_groups_Ok. split; [naive_solver|].
  intros (? & ? & ?). exists tt. split; [done|]. eexists. split; [|done].
  split_and!; [done..|set_solver|done].
Qed.

Lemma validate_lock_Ok n last l x :
  validate_lock n last l = Ok x ↔
    (Z.to_nat (lock_index l) < n)%nat ∧
    match last with Some p => p < lock_index l | None => True end ∧ x = Some (lock_index l).
Proof.
  unfold validate_lock. rewrite bind_Ok. setoid_rewrite reject_if_Ok. setoid_rewrite bind_Ok.
  setoid_rewrite Nat.leb_gt. destruct last as [p|].
  - setoid_rewrite reject_if_Ok. setoid_rewrite Z.leb_gt. naive_solver.
  - naive_solver.
Qed.

Lemma validate_locks_from n last ls :
  (∃ x, try_fold (validate_lock n) last ls = Ok x) ↔
    locks_canonical ls n ∧
    match last with Some p => Forall (λ l, p < lock_index l) ls | None => True end.
Proof.
  unfold locks_canonical.
  revert last; induction ls as [|l ls IH]; intros last; cbn [try_fold].
  - split; [|by eexists]. intros _. split_and!; [constructor..|]. by destruct last.
  - setoid_rewrite bind_Ok. setoid_rewrite validate_lock_Ok. rewrite fmap_cons.
    transitivity ((Z.to_nat (lock_index l) < n)%nat ∧
       match last with Some p => p < lock_index l | None => True end ∧
       ∃ x, try_fold (validate_lock n) (Some (lock_index l)) ls = Ok x); [naive_solver|].
    rewrite IH, !Forall_cons. split.
    + intros (Hn & Hlast & [Hs Hf] & Hlt). split_and!; try done.
      * constructor; [done|]. by apply Forall_fmap.
      * destruct last; [|done]. constructor; [done|]. eapply Forall_impl; [done|]; simpl; lia.
    + intros ([Hs [Hn Hf]] & Hlast). apply StronglySorted_inv in Hs as [Hs Hlt].
      rewrite Forall_fmap in Hlt.
      destruct last; [apply Forall_cons in Hlast as [? ?]|]; split_and!; try done; exact Hlt.
Qed.

Lemma validate_locks_Ok n ls : validate_locks ls n = Ok tt ↔ locks_canonical ls n.
Proof.
  unfold validate_locks. rewrite bind_Ok.
  destruct (validate_locks_from n None ls) as [H1 H2]. split.
  - intros (x & Hx & _). by destruct H1 as [Hc _]; [by exists x|].
  - intros Hc. destruct H2 as [x Hx]; [done|]. by exists x.
Qed.

Lemma validate_stateless_iff op : validate_stateless op = Ok tt ↔ stateless_valid op.
Proof.
  unfold stateless_valid.
  destruct op; simpl; unfold validate_mint, validate_transfer, validate_redeem,
    validate_transfer_locked; rewrite ?then_Ok, ?reject_if_Ok, ?is_nil_false, ?Nat.ltb_ge,
    ?validate_locks_Ok, ?validate_consumed_groups_Ok; unfold MAX_POOL_OP_COLLECTION_LEN;
    intuition lia.
Qed.

(** Stateless validation accepts exactly the operations the rules describe. *)
Theorem validate_stateless_spec op : validate_stateless op = Ok tt ↔ stateless_valid op.
Proof. apply validate_stateless_iff. Qed.

(** ** Stateful validation, declaratively *)

Definition entries_petals (es : list PoolEntry) : Z := Zsum (entry_petals <$> es).

Lemma entries_petals_bound es :
  0 ≤ entries_petals es ≤ Z.of_nat (length es) * 10000000000000.
Proof.
  unfold entries_petals. rewrite <- (length_fmap entry_petals es).
  apply Zsum_bound, Forall_fmap, Forall_true. intros e; simpl.
  pose proof (petals_range (d (note e))). unfold entry_petals. lia.
Qed.

Lemma entries_petals_cons e es : entries_petals (e :: es) = entry_petals e + entries_petals es.
Proof. done. Qed.

Lemma entries_petals_app es1 es2 :
  entries_petals (es1 ++ es2) = entries_petals es1 + entries_petals es2.
Proof. unfold entries_petals. by rewrite fmap_app, Zsum_app. Qed.

Lemma entries_petals_notes es : entries_petals es = notes_value (note <$> es).
Proof. unfold entries_petals, notes_value. by rewrite <- list_fmap_compose. Qed.

(** The state holds the entries [es] under the serials [l]. *)
Definition lives (m : PoolCollection) (l : list Hash) (es : list PoolEntry) : Prop :=
  Forall2 (λ sn e, m !! sn = Some e) l es.

(** [(sn, e)] pairs as a collection. *)
Definition collect (l : list Hash) (es : list PoolEntry) : PoolCollection :=
  list_to_map (zip l es).

Lemma collect_cons sn l e es : collect (sn :: l) (e :: es) = <[sn := e]> (collect l es).
Proof. done. Qed.

Lemma collect_None l es sn : sn ∉ l → collect l es !! sn = None.
Proof.
  intros Hsn. apply not_elem_of_list_to_map_1. contradict Hsn.
  apply list_elem_of_fmap in Hsn as ([k v] & -> & Hkv). by apply elem_of_zip_l in Hkv.
Qed.

Lemma collect_lookup l es sn e :
  NoDup l → length l = length es →
  collect l es !! sn = Some e ↔ ∃ i, l !! i = Some sn ∧ es !! i = Some e.
Proof.
  intros Hnd Hlen. unfold collect. rewrite <- elem_of_list_to_map.
  - rewrite list_elem_of_lookup. setoid_rewrite lookup_zip_Some. done.
  - by rewrite fst_zip by lia.
Qed.

Lemma collect_app l1 es1 l2 es2 :
  length l1 = length es1 → collect (l1 ++ l2) (es1 ++ es2) = collect l1 es1 ∪ collect l2 es2.
Proof.
  intros Hlen. unfold collect. rewrite zip_with_app by done. apply list_to_map_app.
Qed.

Lemma collect_swap (l1 l2 : list Hash) (es1 es2 : list PoolEntry) (r : PoolCollection) :
  (∀ sn, sn ∈ l1 → sn ∉ l2) →
  collect l2 es2 ∪ (collect l1 es1 ∪ r) = (collect l1 es1 ∪ collect l2 es2) ∪ r.
Proof.
  intros Hdis. rewrite (assoc_L (∪)). f_equal.
  apply map_union_comm, map_disjoint_spec. intros sn e1 e2 H1 H2.
  destruct (decide (sn ∈ l1)) as [Hin|Hin].
  - by rewrite (collect_None l2) in H1 by (by apply Hdis).
  - by rewrite (collect_None l1) in H2.
Qed.

Lemma collect_value l es :
  NoDup l → length l = length es → pool_value (collect l es) = entries_petals es.
Proof.
  intros Hnd. revert es. induction Hnd as [|sn l Hsn Hnd IH]; intros [|e es] Hlen; try done.
  rewrite collect_cons, entries_petals_cons. unfold pool_value.
  rewrite map_sum_insert by (by apply collect_None).
  fold (pool_value (collect l es)). rewrite IH; [done|by injection Hlen].
Qed.

Lemma collect_subseteq m l es : lives m l es → collect l es ⊆ m.
Proof.
  induction 1 as [|sn e l es He Hl IH]; [apply map_empty_subseteq|].
  rewrite collect_cons. by apply insert_subseteq_l.
Qed.

Lemma lives_length m l es : lives m l es → length l = length es.
Proof. apply Forall2_length. Qed.

Section stateful_lemmas.
Context `{NotePoolHashers} `{SchnorrOracle} {V : Type} `{PoolStateView V}.
Context (v : V) (m : PoolCollection) (Hshows : shows v m).
Implicit Types (dd : PoolDiff) (es : list PoolEntry).

(** The group's key after the entries [es], starting from [gp]. *)
Definition key_after (gp : option (list Z)) (pov : Z) es : option (list Z) :=
  match gp with
  | Some k => Some k
  | None => (λ e, spending_pk e pov) <$> head es
  end.

Lemma remove_note_Ok r sn e x :
  remove_note (mk_diff ∅ r) sn e = Ok x ↔ r !! sn = None ∧ x = mk_diff ∅ (<[sn := e]> r).
Proof. unfold remove_note; simpl. rewrite lookup_empty. destruct (r !! sn); naive_solver. Qed.

Lemma merge_key_Ok i gp key x :
  merge_key i gp key = Ok x ↔ x = Some key ∧ (gp = None ∨ gp = Some key).
Proof.
  unfold merge_key. destruct gp as [k|]; [|naive_solver].
  destruct (decide (k = key)) as [->|Hne]; [naive_solver|].
  split; [done|]. intros [_ [?|[= ?]]]; congruence.
Qed.

Lemma consume_serial_Ok pov skip i gp r c sn x :
  consume_serial v pov skip i (gp, mk_diff ∅ r, c) sn = Ok x ↔
    ∃ e, m !! sn = Some e ∧ r !! sn = None ∧ c + entry_petals e ≤ u64_max ∧
      (skip = false → gp = None ∨ gp = Some (spending_pk e pov)) ∧
      x = (if skip then gp else Some (spending_pk e pov), mk_diff ∅ (<[sn := e]> r),
           c + entry_petals e).
Proof.
  unfold consume_serial. rewrite (Hshows sn). rewrite bind_Ok. setoid_rewrite ok_or_Ok.
  setoid_rewrite bind_Ok. setoid_rewrite bind_Ok. setoid_rewrite bind_Ok.
  setoid_rewrite map_err_Ok. setoid_rewrite remove_note_Ok. setoid_rewrite u64_add_Ok.
  apply exist_proper. intros e. fold (entry_petals e). destruct skip.
  - naive_solver.
  - setoid_rewrite merge_key_Ok. naive_solver.
Qed.

Lemma collect_cons_union sn l e es r :
  sn ∉ l → collect (sn :: l) (e :: es) ∪ r = collect l es ∪ <[sn := e]> r.
Proof.
  intros Hsn. rewrite collect_cons, <- insert_union_l, insert_union_r; [done|].
  by apply collect_None.
Qed.

Lemma lookup_insert_None_inv (r : PoolCollection) sn sn' e :
  <[sn := e]> r !! sn' = None ↔ sn ≠ sn' ∧ r !! sn' = None.
Proof. rewrite lookup_insert_None. naive_solver. Qed.

Lemma consume_serials_Ok pov skip i gp r c l x :
  c ≤ u64_max →
  try_fold (consume_serial v pov skip i) (gp, mk_diff ∅ r, c) l = Ok x ↔
    ∃ es, lives m l es ∧ NoDup l ∧ Forall (λ sn, r !! sn = None) l ∧
      c + entries_petals es ≤ u64_max ∧
      (skip = false → Forall (λ e, key_after gp pov es = Some (spending_pk e pov)) es) ∧
      x = (if skip then gp else key_after gp pov es, mk_diff ∅ (collect l es ∪ r),
           c + entries_petals es).
Proof.
  revert gp r c. induction l as [|sn l IH]; intros gp r c Hc; cbn [try_fold].
  - assert (∀ x : option (list Z) * PoolDiff * Z, x = (if skip then gp else key_after gp pov [],
        mk_diff ∅ (collect [] [] ∪ r), c + entries_petals []) ↔ x = (gp, mk_diff ∅ r, c)) as Heq.
    { intros y. change (entries_petals []) with 0. rewrite Z.add_0_r.
      change (collect [] []) with (∅ : PoolCollection). rewrite (left_id_L ∅ (∪)).
      by destruct skip, gp. }
    split.
    + intros [= <-]. exists []. rewrite Heq. change (entries_petals []) with 0.
      rewrite Z.add_0_r. split_and!; [constructor..|done| |done]. constructor.
    + intros (es & Hl & _ & _ & _ & _ & Hx). apply Forall2_nil_inv_l in Hl as ->.
      apply Heq in Hx as ->. done.
  - rewrite bind_Ok. setoid_rewrite consume_serial_Ok. split.
    + intros (st & (e & He & Hr & Hle & Hk & ->) & Hrest).
      apply IH in Hrest as (es & Hl & Hnd & Hf & Hle2 & Hkeys & ->); [|done].
      setoid_rewrite lookup_insert_None_inv in Hf. apply Forall_and in Hf as [Hne Hf].
      assert (sn ∉ l) as Hsn.
      { intros Hin. rewrite Forall_forall in Hne. by apply (Hne sn Hin). }
      exists (e :: es). rewrite entries_petals_cons, collect_cons_union by done.
      rewrite Forall_cons, NoDup_cons. split_and!; try done; [by constructor|lia| |].
      * intros ->. destruct (Hk eq_refl) as [->| ->]; simpl in *; constructor; auto.
      * f_equal; [|lia]. destruct skip; [done|].
        by destruct (Hk eq_refl) as [->| ->].
    + intros (es & Hl & Hnd & Hf & Hle & Hkeys & ->).
      apply Forall2_cons_inv_l in Hl as (e & es' & He & Hl & ->).
      apply NoDup_cons in Hnd as [Hsn Hnd]. apply Forall_cons in Hf as [Hr Hf].
      rewrite entries_petals_cons in *. pose proof (entries_petals_bound es').
      assert (skip = false → gp = None ∨ gp = Some (spending_pk e pov)) as Hgp.
      { intros ->. specialize (Hkeys eq_refl). apply Forall_cons in Hkeys as [Hke _].
        destruct gp; [right; exact Hke|by left]. }
      eexists. split; [exists e; split_and!; try done; lia|].
      apply IH; [lia|]. exists es'. rewrite collect_cons_union by done. split_and!; try done.
      * setoid_rewrite lookup_insert_None_inv. apply Forall_and. split; [|done].
        apply Forall_forall. by intros y Hy ->.
      * lia.
      * intros ->. specialize (Hkeys eq_refl). apply Forall_cons in Hkeys as [Hke Hks].
        eapply Forall_impl; [exact Hks|]. intros e' He'. simpl. rewrite <- He'. by rewrite Hke.
      * f_equal; [|lia]. destruct skip; [done|]. by destruct (Hgp eq_refl) as [->| ->].
Qed.

(** One signature authorises the whole group: every entry answers to one valid
    key at [pov], and the signature over the signing hash verifies under it. *)
Definition group_auth (ty : Z) (produced : list NewNote) (locks : list ProducedLock)
    (oh : Hash) (anchor pov : Z) (g : SignedGroup) es : Prop :=
  ∃ key, es ≠ [] ∧ Forall (λ e, spending_pk e pov = key) es ∧ xonly_valid key = true ∧
    schnorr_verify (signature g)
      (signing_hash_with_locks ty (serials g) produced locks oh anchor) key = true.

Lemma key_after_None pov es key :
  key_after None pov es = Some key ∧
    Forall (λ e, key_after None pov es = Some (spending_pk e pov)) es ↔
  es ≠ [] ∧ Forall (λ e, spending_pk e pov = key) es.
Proof.
  destruct es as [|e es]; simpl; [naive_solver|]. rewrite !Forall_cons. split.
  - intros [[= <-] [_ Hf]]. split; [done|]. split; [done|].
    eapply Forall_impl; [exact Hf|]. by intros ? [= ->].
  - intros (_ & <- & Hf). split_and!; try done. eapply Forall_impl; [exact Hf|].
    by intros ? <-.
Qed.

Lemma consume_group_Ok ty produced ls oh a pov skip i r c g x :
  c ≤ u64_max →
  consume_group ty produced ls oh a v pov skip i (mk_diff ∅ r, c) g = Ok x ↔
    ∃ es, lives m (serials g) es ∧ NoDup (serials g) ∧
      Forall (λ sn, r !! sn = None) (serials g) ∧ c + entries_petals es ≤ u64_max ∧
      (skip = false → group_auth ty produced ls oh a pov g es) ∧
      x = (mk_diff ∅ (collect (serials g) es ∪ r), c + entries_petals es).
Proof.
  intros Hc. unfold consume_group. cbn [fst snd]. rewrite bind_Ok. split.
  - intros (st & (es & Hl & Hnd & Hf & Hle & Hk & ->)%consume_serials_Ok & Hx); [|done].
    exists es. split_and!; try done.
    + intros ->. outcome_inv Hx. destruct (key_after None pov es) as [key|] eqn:Hkey; [|done].
      injection Hx0 as <-. apply negb_false_iff in Hx1, Hx2.
      destruct (key_after_None pov es key) as [HH _].
      destruct HH as [Hne Hall]; [rewrite Hkey in *; auto|]. by exists key.
    + destruct skip; [by injection Hx|]. by outcome_inv Hx.
  - intros (es & Hl & Hnd & Hf & Hle & Hauth & ->). eexists. split.
    + apply consume_serials_Ok; [done|]. exists es. split_and!; try done.
      intros ->. destruct (Hauth eq_refl) as (key & Hne & Hall & _).
      by apply (key_after_None pov es key).
    + cbv beta iota. destruct skip; [done|].
      destruct (Hauth eq_refl) as (key & Hne & Hall & Hval & Hver).
      destruct (key_after_None pov es key) as [_ HH]. destruct HH as [-> _]; [done|].
      cbn [unwrap mbind outcome_bind]. rewrite Hval, Hver. done.
Qed.

(** The groups as a whole. *)
Definition groups_live (skip : bool) (ty : Z) (produced : list NewNote)
    (locks : list ProducedLock) (oh : Hash) (anchor pov : Z) (gs : list SignedGroup)
    (ess : list (list PoolEntry)) : Prop :=
  Forall2 (λ g es, lives m (serials g) es ∧
    (skip = false → group_auth ty produced locks oh anchor pov g es)) gs ess.

Lemma groups_live_lives skip ty produced ls oh a pov gs ess :
  groups_live skip ty produced ls oh a pov gs ess → lives m (group_serials gs) (concat ess).
Proof.
  unfold group_serials. induction 1 as [|g es gs ess [Hl _] _ IH]; simpl; [constructor|].
  by apply Forall2_app.
Qed.

Lemma consume_groups_Ok ty produced ls oh a pov skip i r c gs x :
  c ≤ u64_max →
  try_foldi (consume_group ty produced ls oh a v pov skip) i (mk_diff ∅ r, c) gs = Ok x ↔
    ∃ ess, groups_live skip ty produced ls oh a pov gs ess ∧ NoDup (group_serials gs) ∧
      Forall (λ sn, r !! sn = None) (group_serials gs) ∧
      c + entries_petals (concat ess) ≤ u64_max ∧
      x = (mk_diff ∅ (collect (group_serials gs) (concat ess) ∪ r),
           c + entries_petals (concat ess)).
Proof.
  unfold group_serials, groups_live.
  revert i r c x. induction gs as [|g gs IH]; intros i r c x Hc; cbn [try_foldi flat_map].
  - assert (∀ x : PoolDiff * Z, x = (mk_diff ∅ (collect [] [] ∪ r), c + entries_petals []) ↔
              x = (mk_diff ∅ r, c)) as Heq.
    { intros y. change (entries_petals []) with 0. rewrite Z.add_0_r.
      change (collect [] []) with (∅ : PoolCollection). by rewrite (left_id_L ∅ (∪)). }
    split.
    + intros [= <-]. exists []. simpl. rewrite Heq. change (entries_petals []) with 0.
      rewrite Z.add_0_r. split_and!; try done; constructor.
    + intros (ess & Hl & _ & _ & _ & Hx). apply Forall2_nil_inv_l in Hl as ->.
      apply Heq in Hx as ->. done.
  - rewrite bind_Ok. split.
    + intros (st & (es & Hl & Hnd & Hf & Hle & Hauth & ->)%consume_group_Ok & Hrest); [|done].
      apply IH in Hrest as (ess & Hlive & Hnd2 & Hf2 & Hle2 & ->); [|done].
      exists (es :: ess). simpl. rewrite entries_petals_app, collect_app by (by eapply lives_length).
      setoid_rewrite lookup_union_None in Hf2. apply Forall_and in Hf2 as [Hc2 Hf2].
      assert (∀ sn, sn ∈ serials g → sn ∉ flat_map serials gs) as Hdis.
      { intros sn Hin Hin2. rewrite Forall_forall in Hc2. specialize (Hc2 sn Hin2).
        apply list_elem_of_lookup in Hin as [k Hk].
        destruct (Forall2_lookup_l _ _ _ _ _ Hl Hk) as (e & He & _).
        assert (collect (serials g) es !! sn = Some e); [|congruence].
        apply collect_lookup; [done|by eapply lives_length|eauto]. }
      split_and!; [by constructor|by apply NoDup_app|by apply Forall_app|lia|].
      f_equal; [|lia]. f_equal. by apply collect_swap.
    + intros (ess' & Hlive & Hnd & Hf & Hle & ->).
      apply Forall2_cons_inv_l in Hlive as (es & ess & [Hl Hauth] & Hlive & ->).
      simpl in Hle |- *. rewrite entries_petals_app, collect_app in * by (by eapply lives_length).
      apply NoDup_app in Hnd as (Hnd1 & Hdis & Hnd2). apply Forall_app in Hf as [Hf1 Hf2].
      pose proof (entries_petals_bound (concat ess)).
      eexists. split; [apply consume_group_Ok; [done|]; exists es; split_and!; try done; lia|].
      apply IH; [lia|]. exists ess. split_and!; try done; [|lia|].
      * setoid_rewrite lookup_union_None. apply Forall_and. split; [|done].
        apply Forall_forall. intros sn Hin. apply collect_None. intros Hin1. by apply (Hdis sn).
      * f_equal; [|lia]. f_equal. symmetry. by apply collect_swap.
Qed.

(** The serials of [n] notes created by [tx_id], from position [i] on. *)
Definition serial_at (tx_id : Hash) (i : nat) : Hash := serial_hash tx_id (Z.of_nat i mod 2 ^ 32).
Definition created_serials (tx_id : Hash) (i n : nat) : list Hash := serial_at tx_id <$> seq i n.

Lemma produce_note_Ok tx_id i a r c e x :
  r ⊆ m →
  produce_note tx_id v i (mk_diff a r, c) e = Ok x ↔
    m !! serial_at tx_id i = None ∧ a !! serial_at tx_id i = None ∧
    c + entry_petals e ≤ u64_max ∧
    x = (mk_diff (<[serial_at tx_id i := e]> a) r, c + entry_petals e).
Proof.
  intros Hr. unfold produce_note. fold (serial_at tx_id i). cbv zeta.
  unfold check_produced_serial_is_fresh. rewrite (Hshows _), then_Ok, reject_if_Ok.
  cbn [fst snd]. fold (entry_petals e). split.
  - intros [Hfree Hx]. destruct (m !! serial_at tx_id i) eqn:Hm; [done|].
    apply bind_Ok in Hx as (dd & Hadd%map_err_Ok & (p & [-> Hle]%u64_add_Ok & [= <-])%bind_Ok).
    unfold add_note in Hadd; simpl in Hadd.
    rewrite (lookup_weaken_None r m) in Hadd by done.
    destruct (a !! serial_at tx_id i); [done|]. by injection Hadd as <-.
  - intros (Hm & Ha & Hle & ->). rewrite Hm. split; [done|].
    unfold add_note; simpl. rewrite (lookup_weaken_None r m) by done. rewrite Ha. simpl.
    by rewrite u64_add_total.
Qed.

Lemma produce_notes_Ok tx_id i a r c es x :
  r ⊆ m → c ≤ u64_max →
  try_foldi (produce_note tx_id v) i (mk_diff a r, c) es = Ok x ↔
    Forall (λ sn, m !! sn = None) (created_serials tx_id i (length es)) ∧
    NoDup (created_serials tx_id i (length es)) ∧
    Forall (λ sn, a !! sn = None) (created_serials tx_id i (length es)) ∧
    c + entries_petals es ≤ u64_max ∧
    x = (mk_diff (collect (created_serials tx_id i (length es)) es ∪ a) r, c + entries_petals es).
Proof.
  intros Hr. unfold created_serials.
  revert i a c x. induction es as [|e es IH]; intros i a c x Hc; cbn [try_foldi].
  - simpl. change (entries_petals []) with 0. rewrite Z.add_0_r.
    change (collect [] []) with (∅ : PoolCollection). rewrite (left_id_L ∅ (∪)).
    split; [intros [= <-]; split_and!; try done; constructor|by intros (_ & _ & _ & _ & ->)].
  - rewrite bind_Ok. cbn [length seq]. rewrite fmap_cons, !Forall_cons, NoDup_cons.
    rewrite entries_petals_cons. pose proof (entries_petals_bound es). split.
    + intros (st & (Hm & Ha & Hle & ->)%produce_note_Ok & Hrest); [|done].
      apply IH in Hrest as (Hms & Hnd & Has & Hle2 & ->); [|done].
      setoid_rewrite lookup_insert_None_inv in Has. apply Forall_and in Has as [Hne Has].
      assert (serial_at tx_id i ∉ serial_at tx_id <$> seq (S i) (length es)) as Hsn.
      { intros Hin. rewrite Forall_forall in Hne. by apply (Hne _ Hin). }
      rewrite collect_cons_union by done. split_and!; try done; [lia|]. f_equal; lia.
    + intros ([Hm Hms] & [Hsn Hnd] & [Ha Has] & Hle & ->). rewrite collect_cons_union by done.
      eexists. split; [apply produce_note_Ok; [done|]; split_and!; try done; lia|].
      apply IH; [lia|]. split_and!; try done; [|lia|f_equal; lia].
      setoid_rewrite lookup_insert_None_inv. apply Forall_and. split; [|done].
      apply Forall_forall. by intros y Hy <-.
Qed.

End stateful_lemmas.

Lemma check_freshness_Ok f pov :
  check_freshness f pov = Ok tt ↔ 0 ≤ pov - anchor_daa_score f ≤ POOL_FRESHNESS_WINDOW.
Proof.
  unfold check_freshness. cbv zeta. rewrite then_Ok, reject_if_Ok, bind_Ok.
  setoid_rewrite u64_sub_Ok. setoid_rewrite reject_if_Ok. setoid_rewrite Z.ltb_ge.
  split; [intros [? (? & [-> ?] & ?)]; lia|].
  intros ?. split; [lia|]. eexists; split; [split; [done|lia]|lia].
Qed.

Lemma index_locks_Ok {E} ls es :
  try_fold (index_lock (E := E)) es ls =
    if decide (Forall (λ l, (Z.to_nat (lock_index l) < length es)%nat) ls)
    then Ok (foldl set_lock es ls) else Panic.
Proof.
  revert es. induction ls as [|l ls IH]; intros es; cbn [try_fold foldl].
  - by rewrite decide_True.
  - destruct (es !! Z.to_nat (lock_index l)) eqn:He.
    + assert (index_lock (E := E) es l = Ok (set_lock es l)) as ->
        by (unfold index_lock, set_lock; by rewrite He).
      cbn [mbind outcome_bind]. rewrite IH, length_set_lock. apply lookup_lt_Some in He.
      destruct (decide (Forall _ ls)) as [Hf|Hf].
      * by rewrite decide_True by (by constructor).
      * rewrite decide_False; [done|]. by intros [_ ?]%Forall_cons.
    + assert (index_lock (E := E) es l = Panic) as -> by (unfold index_lock; by rewrite He).
      rewrite decide_False; [done|]. intros [? _]%Forall_cons. apply lookup_ge_None in He. lia.
Qed.

(** ** The specification of stateful validation *)

Definition consumed_groups (op : PoolOp) : list SignedGroup :=
  match op with
  | Mint _ => []
  | Transfer t => t_consumed t
  | Redeem r => r_consumed r
  | TransferLocked t => l_consumed t
  end.

Definition op_locks (op : PoolOp) : list ProducedLock :=
  match op with TransferLocked t => l_locks t | _ => [] end.

(** The anchor an operation is signed with; a mint carries none. *)
Definition op_anchor (op : PoolOp) : option Z :=
  match op with
  | Mint _ => None
  | Transfer t => Some (anchor_daa_score (t_freshness t))
  | Redeem r => Some (anchor_daa_score (r_freshness r))
  | TransferLocked t => Some (anchor_daa_score (l_freshness t))
  end.

(** The entries an operation creates, its locks joined in. *)
Definition created_entries (op : PoolOp) : list PoolEntry :=
  foldl set_lock (unlocked <$> produced_notes op) (op_locks op).

Definition is_transfer (op : PoolOp) : bool :=
  match op with Transfer _ | TransferLocked _ => true | _ => false end.

Section spec.
Context `{NotePoolHashers} `{SchnorrOracle}.

(** [op], in transaction [tx_id] with transparent outputs [outs], may be applied to the
    pool state [m] as seen from DAA score [pov]; [ess] are the entries its groups
    consume. *)
Record valid_in (m : PoolCollection) (op : PoolOp) (tx_id : Hash)
    (outs : list TransactionOutput) (pov : Z) (skip locks_active : bool)
    (ess : list (list PoolEntry)) : Prop := {
  vi_active : match op with TransferLocked _ => locks_active = true | _ => True end;
  vi_fresh : skip = false → ∀ a, op_anchor op = Some a → 0 ≤ pov - a ≤ POOL_FRESHNESS_WINDOW;
  vi_groups : groups_live m skip (op_type op) (produced_notes op) (op_locks op)
    (transparent_outputs_hash outs) (default 0 (op_anchor op)) pov (consumed_groups op) ess;
  vi_distinct : NoDup (consumed_serials op);
  vi_new : Forall (λ sn, m !! sn = None) (created_serials tx_id 0 (length (produced_notes op)));
  vi_new_distinct : NoDup (created_serials tx_id 0 (length (produced_notes op)));
  vi_conserves : is_transfer op = true →
    notes_value (produced_notes op) ≤ entries_petals (concat ess) }.

(** The mutation and the totals such an operation stands for. *)
Definition valid_result (op : PoolOp) (tx_id : Hash) (ess : list (list PoolEntry))
    : ValidatedPoolOp :=
  mk_validated
    (mk_diff (collect (created_serials tx_id 0 (length (produced_notes op))) (created_entries op))
       (collect (consumed_serials op) (concat ess)))
    (entries_petals (concat ess)) (notes_value (produced_notes op)).

Lemma created_entries_notes op : note <$> created_entries op = produced_notes op.
Proof.
  unfold created_entries. rewrite foldl_set_lock_notes, <- list_fmap_compose. apply list_fmap_id.
Qed.

Lemma length_created_entries op : length (created_entries op) = length (produced_notes op).
Proof. by rewrite <- (created_entries_notes op), length_fmap. Qed.

Lemma created_entries_petals op : entries_petals (created_entries op) = notes_value (produced_notes op).
Proof. by rewrite entries_petals_notes, created_entries_notes. Qed.

(** The collection bound keeps every total far below [u64::MAX]. *)
Lemma small_total es : (length es ≤ MAX_POOL_OP_COLLECTION_LEN)%nat → entries_petals es ≤ u64_max.
Proof.
  unfold MAX_POOL_OP_COLLECTION_LEN, u64_max. pose proof (entries_petals_bound es). lia.
Qed.

Lemma fresh_Ok (skip : bool) f pov :
  (if skip then Ok tt else check_freshness f pov) = Ok tt ↔
    (skip = false → 0 ≤ pov - anchor_daa_score f ≤ POOL_FRESHNESS_WINDOW).
Proof. destruct skip; [done|]. rewrite check_freshness_Ok. tauto. Qed.

Context {V : Type} `{PoolStateView V} (v : V) (m : PoolCollection) (Hshows : shows v m).

Lemma consumed_Ok gs ty produced ls oh a pov skip x :
  groups_valid gs →
  validate_consumed_groups_stateful gs ty produced ls oh a v pov skip empty_diff = Ok x ↔
    ∃ ess, groups_live m skip ty produced ls oh a pov gs ess ∧
      x = (mk_diff ∅ (collect (group_serials gs) (concat ess)), entries_petals (concat ess)).
Proof.
  intros (Hlen & _ & Hnd). unfold validate_consumed_groups_stateful, empty_diff.
  rewrite (consume_groups_Ok v m Hshows) by done. split.
  - intros (ess & Hl & _ & _ & _ & ->). exists ess. by rewrite (right_id_L ∅ (∪)).
  - intros (ess & Hl & ->). exists ess. rewrite (right_id_L ∅ (∪)). split_and!; try done.
    + apply Forall_true. intros sn. apply lookup_empty.
    + pose proof (lives_length _ _ _ (groups_live_lives _ _ _ _ _ _ _ _ _ _ Hl)) as Hll.
      apply small_total. by rewrite <- Hll.
Qed.

Lemma produced_Ok tx_id r es x :
  r ⊆ m → (length es ≤ MAX_POOL_OP_COLLECTION_LEN)%nat →
  try_foldi (produce_note tx_id v) 0 (mk_diff ∅ r, 0) es = Ok x ↔
    Forall (λ sn, m !! sn = None) (created_serials tx_id 0 (length es)) ∧
    NoDup (created_serials tx_id 0 (length es)) ∧
    x = (mk_diff (collect (created_serials tx_id 0 (length es)) es) r, entries_petals es).
Proof.
  intros Hr Hlen. rewrite (produce_notes_Ok v m Hshows) by done. rewrite (right_id_L ∅ (∪)).
  split; [by intros (? & ? & _ & _ & ->)|]. intros (? & ? & ->). split_and!; try done.
  - apply Forall_true. intros sn. apply lookup_empty.
  - by apply small_total.
Qed.

Lemma transfer_Ok gs produced ls f ty tx_id outs pov skip x :
  groups_valid gs → (length produced ≤ MAX_POOL_OP_COLLECTION_LEN)%nat →
  Forall (λ l, (Z.to_nat (lock_index l) < length produced)%nat) ls →
  validate_transfer_stateful gs produced ls f ty tx_id outs v pov skip = Ok x ↔
    (skip = false → 0 ≤ pov - anchor_daa_score f ≤ POOL_FRESHNESS_WINDOW) ∧
    ∃ ess, groups_live m skip ty produced ls (transparent_outputs_hash outs)
        (anchor_daa_score f) pov gs ess ∧
      Forall (λ sn, m !! sn = None) (created_serials tx_id 0 (length produced)) ∧
      NoDup (created_serials tx_id 0 (length produced)) ∧
      notes_value produced ≤ entries_petals (concat ess) ∧
      x = mk_validated
            (mk_diff (collect (created_serials tx_id 0 (length produced))
                        (foldl set_lock (unlocked <$> produced) ls))
               (collect (group_serials gs) (concat ess)))
            (entries_petals (concat ess)) (notes_value produced).
Proof.
  intros Hgs Hlen Hls. unfold validate_transfer_stateful. cbv zeta.
  rewrite then_Ok, fresh_Ok, bind_Ok. setoid_rewrite consumed_Ok; [|done].
  assert (length (foldl set_lock (unlocked <$> produced) ls) = length produced) as Hl.
  { rewrite <- (length_fmap note), foldl_set_lock_notes. by rewrite !length_fmap. }
  assert (entries_petals (foldl set_lock (unlocked <$> produced) ls) = notes_value produced) as Hp.
  { rewrite entries_petals_notes, foldl_set_lock_notes, <- list_fmap_compose.
    by rewrite list_fmap_id. }
  rewrite index_locks_Ok, length_fmap, decide_True by done. cbn [mbind outcome_bind].
  apply and_iff_compat_l. split.
  - intros (st & (ess & Hlive & ->) & Hx). exists ess. cbn [fst snd] in Hx.
    apply bind_Ok in Hx as (st' & (Hm & Hnd & ->)%produced_Ok & Hx);
      [|by eapply collect_subseteq, groups_live_lives|by rewrite Hl].
    cbn [fst snd] in Hx. apply then_Ok in Hx as [Hle%reject_if_Ok%Z.ltb_ge [= <-]].
    by rewrite Hl, Hp in *.
  - intros (ess & Hlive & Hm & Hnd & Hle & ->). eexists. split; [by exists ess|]. cbn [fst snd].
    apply bind_Ok. eexists. split; [apply produced_Ok;
      [by eapply collect_subseteq, groups_live_lives|by rewrite Hl|by rewrite Hl]|].
    cbn [fst snd]. rewrite Hp. apply then_Ok. split; [|done].
    by apply reject_if_Ok, Z.ltb_ge.
Qed.

(** Stateful validation decides [valid_in] and returns [valid_result]. *)
Lemma validate_stateful_iff op tx_id outs pov skip locks_active x :
  stateless_valid op →
  validate_stateful op tx_id outs v pov skip locks_active = Ok x ↔
    ∃ ess, valid_in m op tx_id outs pov skip locks_active ess ∧ x = valid_result op tx_id ess.
Proof.
  intros [Hlen Hop]. destruct op as [mt|t|r|t]; simpl in *.
  - unfold validate_mint_stateful. rewrite bind_Ok.
    setoid_rewrite produced_Ok; [|apply map_empty_subseteq|by rewrite length_fmap].
    rewrite length_fmap. unfold valid_result, created_entries; simpl.
    pose proof (created_entries_petals (Mint mt)) as Hp. unfold created_entries in Hp; simpl in Hp.
    split.
    + intros (st & (Hm & Hnd & ->) & [= <-]). exists []. split; [|simpl; by rewrite Hp].
      split; try done; constructor.
    + intros (ess & Hvi & ->). pose proof (vi_groups _ _ _ _ _ _ _ _ Hvi) as Hg.
      apply Forall2_nil_inv_l in Hg as ->. eexists. split.
      * split_and!; [apply (vi_new _ _ _ _ _ _ _ _ Hvi)|
          apply (vi_new_distinct _ _ _ _ _ _ _ _ Hvi)|done].
      * simpl. by rewrite Hp.
  - destruct Hop as [_ Hg]. rewrite transfer_Ok by (done || constructor). split.
    + intros (Hf & ess & Hlive & Hm & Hnd & Hle & ->). exists ess. split; [|done].
      destruct Hg as (_ & _ & ?). split; try done. by intros Hs a [= <-]; apply Hf.
    + intros (ess & [] & ->). simpl in *. split; [intros; auto|]. exists ess. split_and!; auto.
  - destruct Hop as [_ Hg]. unfold validate_redeem_stateful. cbv zeta.
    rewrite then_Ok, fresh_Ok, bind_Ok. setoid_rewrite consumed_Ok; [|done]. split.
    + intros (Hf & st & (ess & Hlive & ->) & [= <-]). exists ess. split; [|done].
      destruct Hg as (_ & _ & ?). split; try done; [|constructor..].
      by intros Hs a [= <-]; apply Hf.
    + intros (ess & [] & ->). simpl in *. split; [intros; auto|].
      eexists. split; [by exists ess|done].
  - destruct Hop as (_ & _ & [_ Hls] & Hg). rewrite then_Ok, reject_if_Ok, negb_false_iff.
    rewrite transfer_Ok by done. split.
    + intros (Ha & Hf & ess & Hlive & Hm & Hnd & Hle & ->). exists ess. split; [|done].
      destruct Hg as (_ & _ & ?). split; try done. by intros Hs a [= <-]; apply Hf.
    + intros (ess & [] & ->). simpl in *. split; [done|]. split; [intros; auto|].
      exists ess. split_and!; auto.
Qed.
End spec.

(** ** Panic freedom *)

(** [o] is no panic, and an algebra error only under [Q]. *)
Definition safe_upto (Q : Prop) {A} (o : outcome PoolOpContextError A) : Prop :=
  o ≠ Panic ∧ ∀ e, o = Err (Algebra e) → Q.

Section safety.
Context `{NotePoolHashers} `{SchnorrOracle} {V : Type} `{PoolStateView V}.
Context (v : V) (m : PoolCollection) (Hshows : shows v m) (Q : Prop).

Lemma safe_bind {A B} (o : outcome PoolOpContextError A) (f : A → outcome PoolOpContextError B) :
  safe_upto Q o → (∀ a, o = Ok a → safe_upto Q (f a)) → safe_upto Q (o ≫= f).
Proof.
  intros [Hp He] Hf. destruct o as [a|e|]; [by apply Hf| |done].
  split; [done|]. simpl. intros e' [= ->]. by apply (He e').
Qed.

Lemma safe_Ok {A} (a : A) : safe_upto Q (Ok a).
Proof. done. Qed.

Lemma safe_reject (c : bool) e : (∀ a, e ≠ Algebra a) → safe_upto Q (reject_if c e).
Proof. destruct c; [|done]. intros He. split; [done|]. intros a [= ->]. by destruct (He a). Qed.

Lemma safe_freshness f pov : safe_upto Q (check_freshness f pov).
Proof.
  unfold check_freshness. cbv zeta. apply safe_bind; [by apply safe_reject|].
  intros [] H2%reject_if_Ok%Z.ltb_ge. apply safe_bind; [|intros; by apply safe_reject].
  assert (u64_sub (E := PoolOpContextError) pov (anchor_daa_score f)
            = Ok (pov - anchor_daa_score f)) as ->; [by apply u64_sub_Ok|apply safe_Ok].
Qed.

Lemma safe_u64_add c x : c + x ≤ u64_max → safe_upto Q (u64_add c x).
Proof. intros. rewrite u64_add_total by done. apply safe_Ok. Qed.

Lemma safe_consume_serials pov skip i gp r c l :
  NoDup l → Forall (λ sn, r !! sn = None) l →
  c + Z.of_nat (length l) * 10000000000000 ≤ u64_max →
  safe_upto Q (try_fold (consume_serial v pov skip i) (gp, mk_diff ∅ r, c) l).
Proof.
  revert gp r c. induction l as [|sn l IH]; intros gp r c Hnd Hf Hle; [apply safe_Ok|].
  cbn [try_fold length] in *. apply NoDup_cons in Hnd as [Hsn Hnd].
  apply Forall_cons in Hf as [Hr Hf]. apply safe_bind.
  - unfold consume_serial. apply safe_bind; [destruct (get_note v sn); done|]. intros e He.
    apply safe_bind.
    { destruct skip; [done|]. unfold merge_key. destruct gp; [|done]. by case_decide. }
    intros gp' _. apply safe_bind.
    { unfold remove_note; simpl. by rewrite lookup_empty, Hr. }
    intros dd _. apply safe_bind; [|done]. apply safe_u64_add.
    pose proof (petals_range (d (note e))). lia.
  - intros st (e & He & _ & _ & _ & ->)%(consume_serial_Ok v m Hshows). apply IH; [done| |].
    + setoid_rewrite lookup_insert_None_inv. apply Forall_and. split; [|done].
      apply Forall_forall. by intros y Hy ->.
    + pose proof (petals_range (d (note e))). unfold entry_petals. lia.
Qed.

Lemma safe_consume_group ty produced ls oh a pov skip i r c g :
  serials g ≠ [] → NoDup (serials g) → Forall (λ sn, r !! sn = None) (serials g) →
  c + Z.of_nat (length (serials g)) * 10000000000000 ≤ u64_max →
  safe_upto Q (consume_group ty produced ls oh a v pov skip i (mk_diff ∅ r, c) g).
Proof.
  intros Hne Hnd Hf Hle. unfold consume_group; cbn [fst snd]. apply safe_bind.
  { by apply safe_consume_serials. }
  intros st (es & Hl & _ & _ & _ & _ & ->)%(consume_serials_Ok v m Hshows); [|lia].
  destruct skip; [done|]. apply lives_length in Hl.
  destruct es as [|e es]; [by destruct (serials g)|]. simpl.
  apply safe_bind; [by apply safe_reject|]. intros _ _.
  apply safe_bind; [by apply safe_reject|]. done.
Qed.

Lemma safe_consume_groups ty produced ls oh a pov skip i r c gs :
  Forall (λ g, serials g ≠ []) gs → NoDup (group_serials gs) →
  Forall (λ sn, r !! sn = None) (group_serials gs) →
  c + Z.of_nat (length (group_serials gs)) * 10000000000000 ≤ u64_max →
  safe_upto Q (try_foldi (consume_group ty produced ls oh a v pov skip) i (mk_diff ∅ r, c) gs).
Proof.
  unfold group_serials. intros Hne. revert i r c.
  induction Hne as [|g gs Hg Hne IH]; intros i r c Hnd Hf Hle; [apply safe_Ok|].
  cbn [try_foldi flat_map] in *. rewrite length_app in Hle.
  apply NoDup_app in Hnd as (Hnd1 & Hdis & Hnd2). apply Forall_app in Hf as [Hf1 Hf2].
  apply safe_bind; [apply safe_consume_group; (done || lia)|].
  intros st (es & Hl & _ & _ & _ & _ & ->)%(consume_group_Ok v m Hshows); [|lia].
  apply IH; [done| |].
  - setoid_rewrite lookup_union_None. apply Forall_and. split; [|done].
    apply Forall_forall. intros sn Hin. apply collect_None. intros Hin1. by apply (Hdis sn).
  - apply lives_length in Hl. pose proof (entries_petals_bound es). lia.
Qed.

Lemma safe_produce_notes tx_id i a r c es :
  r ⊆ m → (∀ sn, sn ∈ created_serials tx_id i (length es) → is_Some (a !! sn) → Q) →
  (¬ NoDup (created_serials tx_id i (length es)) → Q) →
  c + Z.of_nat (length es) * 10000000000000 ≤ u64_max →
  safe_upto Q (try_foldi (produce_note tx_id v) i (mk_diff a r, c) es).
Proof.
  intros Hr. unfold created_serials.
  revert i a c. induction es as [|e es IH]; intros i a c Ha HQ Hle; [apply safe_Ok|].
  cbn [try_foldi length seq] in *. rewrite fmap_cons in Ha, HQ. apply safe_bind.
  - unfold produce_note. apply safe_bind; [by apply safe_reject|].
    fold (serial_at tx_id i). intros [] Hfree. unfold check_produced_serial_is_fresh in Hfree.
    rewrite (Hshows _), reject_if_Ok in Hfree. apply safe_bind.
    { unfold add_note; simpl. destruct (m !! serial_at tx_id i) eqn:Hm; [done|].
      rewrite (lookup_weaken_None r m) by done. specialize (Ha (serial_at tx_id i)).
      destruct (a !! serial_at tx_id i); [|done]. split; [done|]. intros _ _.
      apply Ha; [left|by eexists]. }
    intros dd _. apply safe_bind; [|done]. apply safe_u64_add.
    pose proof (petals_range (d (note e))). cbn [snd]. lia.
  - intros st (_ & _ & _ & ->)%(produce_note_Ok v m Hshows); [|done]. apply IH.
    + intros sn Hin. destruct (decide (serial_at tx_id i = sn)) as [<-|Hne].
      * intros _. apply HQ. by intros [? _]%NoDup_cons.
      * rewrite lookup_insert_ne by done. apply Ha. by right.
    + intros Hnd. apply HQ. by intros [_ ?]%NoDup_cons.
    + pose proof (petals_range (d (note e))). unfold entry_petals. lia.
Qed.

Lemma safe_validate_stateful op tx_id outs pov skip locks_active :
  stateless_valid op →
  (¬ NoDup (created_serials tx_id 0 (length (produced_notes op))) → Q) →
  safe_upto Q (validate_stateful op tx_id outs v pov skip locks_active).
Proof.
  intros [Hlen Hop] HQ.
  assert (∀ gs ty produced ls oh a, groups_valid gs → safe_upto Q
    (validate_consumed_groups_stateful gs ty produced ls oh a v pov skip empty_diff)) as Hcons.
  { intros gs ty produced ls oh a (Hl & Hne & Hnd). apply safe_consume_groups; try done.
    - apply Forall_true. intros sn. apply lookup_empty.
    - unfold MAX_POOL_OP_COLLECTION_LEN, u64_max in *. lia. }
  assert (∀ r es, r ⊆ m → length es = length (produced_notes op) → safe_upto Q
    (try_foldi (produce_note tx_id v) 0 (mk_diff ∅ r, 0) es)) as Hprod.
  { intros r es Hr Hl. rewrite <- Hl in HQ, Hlen. apply safe_produce_notes; try done.
    - intros sn _. rewrite lookup_empty. by intros [].
    - unfold MAX_POOL_OP_COLLECTION_LEN, u64_max in *. lia. }
  assert (∀ f, safe_upto Q (if skip then Ok tt else check_freshness f pov)) as Hfresh.
  { intros f. destruct skip; [done|apply safe_freshness]. }
  assert (∀ gs ls f ty, groups_valid gs →
    Forall (λ l, (Z.to_nat (lock_index l) < length (produced_notes op))%nat) ls →
    safe_upto Q (validate_transfer_stateful gs (produced_notes op) ls f ty tx_id outs v pov skip))
    as Htransfer.
  { intros gs ls f ty Hgs Hls. apply safe_bind; [done|]. intros [] _.
    apply safe_bind; [by apply Hcons|].
    intros st (ess & Hlive & ->)%(consumed_Ok v m Hshows); [|done].
    rewrite index_locks_Ok, length_fmap, decide_True by done. apply safe_bind; [done|].
    intros es [= <-]. apply safe_bind.
    - apply Hprod; [by eapply collect_subseteq, groups_live_lives|].
      by rewrite <- (length_fmap note), foldl_set_lock_notes, !length_fmap.
    - intros st' _. apply safe_bind; [by apply safe_reject|done]. }
  destruct op as [mt|t|r|t]; simpl in *.
  - apply safe_bind; [|done]. apply Hprod; [apply map_empty_subseteq|apply length_fmap].
  - by apply Htransfer; [apply Hop|constructor].
  - apply safe_bind; [done|]. intros [] _. apply safe_bind; [by apply Hcons, Hop|done].
  - apply safe_bind; [by apply safe_reject|]. intros [] _.
    destruct Hop as (_ & _ & [_ Hls] & Hg). by apply Htransfer.
Qed.
End safety.
