(* ===== verification/PoolTheorems.v ===== *)
(** * Note pool: correctness

    What the components of the note pool promise together: stateful validation
    against its declarative specification, conservation, authorisation, replay,
    panic freedom, the diff accumulation of the mergeset walk, and the two
    ambiguities of the signed encodings. *)

From S2P Require Import Prelude Transaction NotePool PoolDiff PoolHashing PoolValidate.

Section theorems.
Context `{NotePoolHashers} `{SchnorrOracle} {V : Type} `{PoolStateView V}.
Implicit Types (v : V) (m : PoolCollection) (op : PoolOp) (x : ValidatedPoolOp).

Lemma accepted v m op tx_id outs pov skip la x :
  shows v m → validate_stateless op = Ok tt →
  validate_stateful op tx_id outs v pov skip la = Ok x →
  ∃ ess, valid_in m op tx_id outs pov skip la ess ∧ x = valid_result op tx_id ess.
Proof. intros Hv ?%validate_stateless_iff. by apply validate_stateful_iff. Qed.

Lemma valid_in_lives m op tx_id outs pov skip la ess :
  valid_in m op tx_id outs pov skip la ess → lives m (consumed_serials op) (concat ess).
Proof.
  intros Hvi. pose proof (vi_groups _ _ _ _ _ _ _ _ Hvi) as Hg%groups_live_lives.
  by destruct op.
Qed.

Lemma valid_in_fits m op tx_id outs pov skip la ess :
  valid_in m op tx_id outs pov skip la ess → fits m (vdiff (valid_result op tx_id ess)).
Proof.
  intros Hvi. apply fits_lookup. simpl. split.
  - intros sn e He. eapply lookup_weaken; [exact He|].
    by eapply collect_subseteq, valid_in_lives.
  - intros sn e He. destruct (decide (sn ∈ created_serials tx_id 0 (length (produced_notes op))))
      as [Hin|Hin]; [|by rewrite collect_None in He].
    pose proof (vi_new _ _ _ _ _ _ _ _ Hvi) as Hnew. rewrite Forall_forall in Hnew. by apply Hnew.
Qed.

Lemma valid_result_values m op tx_id outs pov skip la ess :
  valid_in m op tx_id outs pov skip la ess →
  pool_value (remove (vdiff (valid_result op tx_id ess))) = entries_petals (concat ess) ∧
  pool_value (add (vdiff (valid_result op tx_id ess))) = notes_value (produced_notes op).
Proof.
  intros Hvi. simpl. split.
  - apply collect_value; [by eapply vi_distinct|]. by eapply lives_length, valid_in_lives.
  - rewrite collect_value, created_entries_petals; [done|by eapply vi_new_distinct|].
    unfold created_serials. by rewrite length_fmap, length_seq, length_created_entries.
Qed.

(** (C4) Stateful validation decides its specification: on a stateless-valid
    operation and a view of the pool state [m] it returns [Ok] exactly when the
    operation is [valid_in] that state (locks active, anchor fresh, every consumed
    serial live and distinct, every group answering to one key whose signature
    verifies, every created serial new, transfers conserving value), and the diff and
    petal totals it returns are those of [valid_result]. *)
Theorem validate_stateful_decides v m op tx_id outs pov skip la x :
  shows v m → validate_stateless op = Ok tt →
  validate_stateful op tx_id outs v pov skip la = Ok x ↔
    ∃ ess, valid_in m op tx_id outs pov skip la ess ∧ x = valid_result op tx_id ess.
Proof. intros Hv ?%validate_stateless_iff. by apply validate_stateful_iff. Qed.

(** (C6) Conservation: the diff of an accepted operation fits the state it was
    validated against, its totals are exactly the value the diff removes and adds, so
    applying it moves the value of the pool by [produced - consumed]; a transfer never
    increases it. *)
Theorem accepted_op_conserves v m op tx_id outs pov skip la x :
  shows v m → validate_stateless op = Ok tt →
  validate_stateful op tx_id outs v pov skip la = Ok x →
  fits m (vdiff x) ∧
  pool_value (remove (vdiff x)) = consumed_petals x ∧
  pool_value (add (vdiff x)) = produced_petals x ∧
  pool_value (apply_diff m (vdiff x)) = pool_value m - consumed_petals x + produced_petals x ∧
  (is_transfer op = true → pool_value (apply_diff m (vdiff x)) ≤ pool_value m).
Proof.
  intros Hv Hs Hx. destruct (accepted _ _ _ _ _ _ _ _ _ Hv Hs Hx) as (ess & Hvi & ->).
  pose proof (valid_in_fits _ _ _ _ _ _ _ _ Hvi) as Hfit.
  destruct (valid_result_values _ _ _ _ _ _ _ _ Hvi) as [Hr Ha].
  rewrite apply_diff_value, Hr, Ha by done. split_and!; try done.
  intros Ht. pose proof (vi_conserves _ _ _ _ _ _ _ _ Hvi Ht). lia.
Qed.

(** (C23) Stateful validation of a stateless-valid operation never panics: no petal sum
    overflows, no lock index is out of range, no signed group is without a key.  The
    diff algebra rejects it only when two positions of the transaction hash to the
    same serial. *)
Theorem validate_stateful_safe v m op tx_id outs pov skip la :
  shows v m → validate_stateless op = Ok tt →
  validate_stateful op tx_id outs v pov skip la ≠ Panic ∧
  ∀ e, validate_stateful op tx_id outs v pov skip la = Err (Algebra e) →
    ¬ NoDup (created_serials tx_id 0 (length (produced_notes op))).
Proof.
  intros Hv ?%validate_stateless_iff. by apply (safe_validate_stateful v m Hv).
Qed.

(** (C22) Authorisation: when signatures are checked, every consumed serial of an accepted
    operation is a live note, and its group's signature verifies, under the key that may
    spend that note at the point of view (its own until the lock lapses, the refund key
    from then on), over the signing hash of exactly this operation, its produced notes,
    locks and anchor, and this transaction's outputs. *)
Theorem accepted_op_is_authorised v m op tx_id outs pov la x g sn :
  shows v m → validate_stateless op = Ok tt →
  validate_stateful op tx_id outs v pov false la = Ok x →
  g ∈ consumed_groups op → sn ∈ serials g →
  ∃ e, m !! sn = Some e ∧ remove (vdiff x) !! sn = Some e ∧
    xonly_valid (spending_pk e pov) = true ∧
    schnorr_verify (signature g)
      (signing_hash_with_locks (op_type op) (serials g) (produced_notes op) (op_locks op)
         (transparent_outputs_hash outs) (default 0 (op_anchor op)))
      (spending_pk e pov) = true.
Proof.
  intros Hv Hs Hx Hg Hsn. destruct (accepted _ _ _ _ _ _ _ _ _ Hv Hs Hx) as (ess & Hvi & ->).
  pose proof (vi_groups _ _ _ _ _ _ _ _ Hvi) as Hgs.
  apply list_elem_of_lookup in Hg as [i Hi]. apply list_elem_of_lookup in Hsn as [j Hj].
  destruct (Forall2_lookup_l _ _ _ _ _ Hgs Hi) as (es & Hes & Hl & Hauth).
  destruct (Hauth eq_refl) as (key & _ & Hkey & Hval & Hver).
  destruct (Forall2_lookup_l _ _ _ _ _ Hl Hj) as (e & He & Hlive). exists e.
  assert (spending_pk e pov = key) as -> by (rewrite Forall_lookup in Hkey; by eapply Hkey).
  split_and!; try done. pose proof (valid_in_lives _ _ _ _ _ _ _ _ Hvi) as Hall.
  assert (sn ∈ consumed_serials op) as [k Hk]%list_elem_of_lookup.
  { assert (consumed_serials op = group_serials (consumed_groups op)) as -> by by destruct op.
    unfold group_serials. apply list_elem_of_In, in_flat_map. exists g.
    split; apply list_elem_of_In; by eapply list_elem_of_lookup_2. }
  destruct (Forall2_lookup_l _ _ _ _ _ Hall Hk) as (e' & He' & Hm').
  simpl. apply collect_lookup; [by eapply vi_distinct|by eapply lives_length|].
  exists k. rewrite Hlive in Hm'. injection Hm' as <-. done.
Qed.

(** Replay: an operation fully validated against a state is accepted again, with the
    same diff and totals, by the selected-parent replay that skips signatures and
    freshness, against any view of the same state and at any later point of view. *)
Theorem replay_agrees {V'} `{PoolStateView V'} v (v' : V') m op tx_id outs pov pov' la x :
  shows v m → shows v' m → validate_stateless op = Ok tt →
  validate_stateful op tx_id outs v pov false la = Ok x →
  validate_stateful op tx_id outs v' pov' true la = Ok x.
Proof.
  intros Hv Hv' Hs Hx. destruct (accepted _ _ _ _ _ _ _ _ _ Hv Hs Hx) as (ess & Hvi & ->).
  apply validate_stateless_iff in Hs. apply (validate_stateful_iff v' m Hv'); [done|].
  exists ess. split; [|done]. destruct Hvi; split; try done.
  eapply Forall2_impl; [eassumption|]. intros g es [? _]. by split.
Qed.

(** ** Ambiguities of the signed encodings *)

(** A redeem signature does not bind the transparent outputs: whatever the hash and
    the signature scheme, validation gives the same verdict when two consecutive
    outputs are replaced by one whose script swallows the second, an output list that
    pays out less by the second output's value. *)
Theorem redeem_outputs_malleable v r tx_id tx_id' pre o1 o2 post pov skip la :
  validate_stateful (Redeem r) tx_id (pre ++ o1 :: o2 :: post) v pov skip la =
  validate_stateful (Redeem r) tx_id' (pre ++ merge_outputs o1 o2 :: post) v pov skip la ∧
  outputs_total (pre ++ merge_outputs o1 o2 :: post) =
    outputs_total (pre ++ o1 :: o2 :: post) - value o2.
Proof.
  split.
  - simpl. unfold validate_redeem_stateful, transparent_outputs_hash.
    by rewrite outputs_preimage_merge.
  - unfold outputs_total. rewrite !fmap_app, !Zsum_app, !fmap_cons. unfold Zsum; simpl. lia.
Qed.

(** The signing hash does not separate the consumed serials from the produced notes:
    two different stateless-valid transfers, one destroying 34 notes, one rotating a
    single note into 32, ask for the very same signature. *)
Theorem transfer_signature_ambiguous sig a oh :
  let burn := mk_transfer [mk_group ambiguous_serials sig] [] (mk_anchor a) in
  let split := mk_transfer [mk_group [ambiguous_serial 0] sig] ambiguous_notes (mk_anchor a) in
  validate_stateless (Transfer burn) = Ok tt ∧ validate_stateless (Transfer split) = Ok tt ∧
  consumed_serials (Transfer burn) ≠ consumed_serials (Transfer split) ∧
  produced_notes (Transfer burn) ≠ produced_notes (Transfer split) ∧
  signing_hash 1 ambiguous_serials (t_produced burn) oh a =
  signing_hash 1 [ambiguous_serial 0] (t_produced split) oh a.
Proof.
  cbv zeta. split_and!; [vm_compute; reflexivity..|discriminate|discriminate|].
  unfold signing_hash, signing_hash_with_locks. cbn [t_produced]. by rewrite ambiguous_preimage.
Qed.

(** The wire order of the serials inside each group is free. *)
Definition reordered (gs gs' : list SignedGroup) : Prop :=
  Forall2 (λ g g', serials g ≡ₚ serials g' ∧ signature g = signature g') gs gs'.

Lemma reordered_serials gs gs' : reordered gs gs' → group_serials gs ≡ₚ group_serials gs'.
Proof. unfold group_serials. induction 1 as [|???? [Hp _] _ IH]; simpl; [done|]. by rewrite Hp, IH. Qed.

Lemma reordered_valid gs gs' : reordered gs gs' → groups_valid gs → groups_valid gs'.
Proof.
  intros Hre (Hl & Hne & Hnd). pose proof (reordered_serials _ _ Hre) as Hp.
  split_and!; [by rewrite <- Hp| |by rewrite <- Hp].
  clear Hl Hnd Hp. induction Hre as [|g g' gs gs' [Hg _] _ IH]; [constructor|].
  apply Forall_cons in Hne as [Hn Hne]. constructor; [|by apply IH].
  intros Hnil. rewrite Hnil in Hg. by apply Permutation_nil_r in Hg.
Qed.

Lemma lives_perm m l l' es :
  l ≡ₚ l' → lives m l es → ∃ es', lives m l' es' ∧ es ≡ₚ es'.
Proof. intros Hl Hes. destruct (Permutation_Forall2 Hl Hes) as (es' & ? & ?). eauto. Qed.

Lemma collect_perm m l l' es es' :
  NoDup l → l ≡ₚ l' → lives m l es → lives m l' es' → collect l es = collect l' es'.
Proof.
  intros Hnd Hp Hes Hes'. assert (NoDup l') as Hnd' by (by rewrite <- Hp).
  assert (∀ l es, NoDup l → lives m l es → ∀ sn e,
            collect l es !! sn = Some e ↔ sn ∈ l ∧ m !! sn = Some e) as Hchar.
  { clear. intros l es Hnd Hes sn e.
    rewrite collect_lookup by (done || by eapply lives_length). split.
    - intros (i & Hi & He). split; [by eapply list_elem_of_lookup_2|].
      by apply (Forall2_lookup_lr _ _ _ _ _ _ Hes Hi He).
    - intros [[i Hi]%list_elem_of_lookup Hm]. exists i. split; [done|].
      destruct (Forall2_lookup_l _ _ _ _ _ Hes Hi) as (e' & He' & Hm'). simpl in Hm'. congruence. }
  apply map_eq. intros sn. apply option_eq. intros e. by rewrite !Hchar, Hp by done.
Qed.

Lemma groups_live_reordered m skip ty produced ls oh a pov gs gs' ess :
  reordered gs gs' → groups_live m skip ty produced ls oh a pov gs ess →
  ∃ ess', groups_live m skip ty produced ls oh a pov gs' ess' ∧ concat ess ≡ₚ concat ess'.
Proof.
  intros Hre. revert ess. induction Hre as [|g g' gs gs' [Hg Hsig] _ IH]; intros ess Hl.
  - apply Forall2_nil_inv_l in Hl as ->. exists []. split; [constructor|done].
  - apply Forall2_cons_inv_l in Hl as (es & ess1 & [Hes Hauth] & Hl & ->).
    destruct (IH _ Hl) as (ess' & Hl' & Hp'). destruct (lives_perm _ _ _ _ Hg Hes) as (es' & ? & Hpe).
    exists (es' :: ess'). simpl. split; [|by rewrite Hpe, Hp'].
    constructor; [|done]. split; [done|]. intros Hs.
    destruct (Hauth Hs) as (key & Hne & Hkey & Hval & Hver). exists key.
    split_and!; [|by rewrite <- Hpe|done|].
    + intros ->. by apply Permutation_nil_r in Hpe.
    + rewrite <- Hsig. unfold signing_hash_with_locks, signing_preimage in *.
      by rewrite <- (sort_serials_Permutation _ _ Hg).
Qed.

(** Validation does not enforce the ascending wire order of a group's serials: a
    redeem whose groups list their serials in another order is stateless-valid when the
    original is, and validates statefully to the same diff and totals under the same
    signatures. *)
Theorem group_order_is_free v m gs gs' f tx_id outs pov skip la x :
  shows v m → reordered gs gs' →
  validate_stateless (Redeem (mk_redeem gs f)) = Ok tt →
  validate_stateful (Redeem (mk_redeem gs f)) tx_id outs v pov skip la = Ok x →
  validate_stateless (Redeem (mk_redeem gs' f)) = Ok tt ∧
  validate_stateful (Redeem (mk_redeem gs' f)) tx_id outs v pov skip la = Ok x.
Proof.
  intros Hv Hre Hs Hx. destruct (accepted _ _ _ _ _ _ _ _ _ Hv Hs Hx) as (ess & Hvi & ->).
  apply validate_stateless_iff in Hs. destruct Hs as (Hlen & Hne & Hg). simpl in Hne, Hg.
  assert (stateless_valid (Redeem (mk_redeem gs' f))) as Hs'.
  { split; [done|]. simpl. split; [|by eapply reordered_valid].
    intros ->. by apply Forall2_nil_inv_r in Hre. }
  split; [by apply validate_stateless_iff|].
  apply (validate_stateful_iff v m Hv); [done|].
  destruct Hvi as [? ? Hlive ? ? ? ?]. simpl in *.
  destruct (groups_live_reordered _ _ _ _ _ _ _ _ _ _ _ Hre Hlive) as (ess' & Hl' & Hp).
  pose proof (reordered_serials _ _ Hre) as Hps. exists ess'. split.
  - split; simpl; try done. by rewrite <- Hps.
  - unfold valid_result; simpl. f_equal.
    + f_equal. by eapply collect_perm; try done; eapply groups_live_lives.
    + unfold entries_petals. apply Zsum_Permutation. by rewrite Hp.
Qed.
End theorems.

(** ** Concrete instances

    Hashers that return their preimage, a signature scheme in which a signature is
    valid when it starts with the key, and a pool of two notes, one of them
    locked. *)
Definition demo_hashers : NotePoolHashers := {|
  NotePoolLeafHash := λ b, b; NotePoolSerialHash := λ b, b;
  NotePoolOutputsHash := λ b, b; NotePoolSigningHash := λ b, b |}.
Definition demo_schnorr : SchnorrOracle := {|
  xonly_valid := λ k, bool_decide (length k = 32%nat);
  schnorr_verify := λ sig _ k, bool_decide (take 32 sig = k) |}.
#[local] Existing Instance demo_hashers.
#[local] Existing Instance demo_schnorr.

Definition demo_key (k : Z) : list Z := replicate 32 k.
Definition demo_serial (k : Z) : Hash := replicate 32 k.
Definition demo_sig (k : Z) : list Z := replicate 64 k.
(** Serial 1: 10 MAGLD under key 7.  Serial 2: 100 MAGLD under key 8, refundable to
    key 7 from score 500. *)
Definition demo_pool : PoolCollection :=
  <[demo_serial 1 := unlocked (mk_note D10 (demo_key 7))]>
  (<[demo_serial 2 := locked (mk_note D100 (demo_key 8)) (mk_lock (demo_key 7) 500)]> ∅).
Definition demo_tx : Hash := replicate 32 9.

(** One group spends both notes with key 7 once the lock has lapsed. *)
Definition demo_transfer : PoolOp :=
  Transfer (mk_transfer [mk_group [demo_serial 2; demo_serial 1] (demo_sig 7)]
    [mk_note D10 (demo_key 3); mk_note D100 (demo_key 4)] (mk_anchor 600)).
Definition demo_redeem (order : list Hash) : PoolOp :=
  Redeem (mk_redeem [mk_group order (demo_sig 7)] (mk_anchor 600)).

Definition get_ok {E} (o : outcome E ValidatedPoolOp) : ValidatedPoolOp :=
  match o with Ok x => x | _ => mk_validated empty_diff 0 0 end.
Definition demo_validated : ValidatedPoolOp :=
  get_ok (validate_stateful demo_transfer demo_tx [] demo_pool 700 false false).

Lemma validate_stateful_decides_witness :
  ∃ ess, valid_in demo_pool demo_transfer demo_tx [] 700 false false ess ∧
    demo_validated = valid_result demo_transfer demo_tx ess.
Proof.
  apply (validate_stateful_decides demo_pool demo_pool demo_transfer demo_tx [] 700 false false).
  - apply shows_map.
  - vm_compute; reflexivity.
  - vm_compute; reflexivity.
Defined.

Lemma accepted_op_conserves_witness :
  consumed_petals demo_validated = 11000000000 ∧
  pool_value (apply_diff demo_pool (vdiff demo_validated)) =
    pool_value demo_pool - 11000000000 + 11000000000.
Proof.
  split; [vm_compute; reflexivity|].
  apply (accepted_op_conserves demo_pool demo_pool demo_transfer demo_tx [] 700 false false
           demo_validated).
  - apply shows_map.
  - vm_compute; reflexivity.
  - vm_compute; reflexivity.
Defined.

Lemma validate_stateful_safe_witness :
  validate_stateful demo_transfer demo_tx [] demo_pool 700 false false ≠ Panic.
Proof.
  apply (validate_stateful_safe demo_pool demo_pool demo_transfer demo_tx [] 700 false false).
  - apply shows_map.
  - vm_compute; reflexivity.
Defined.

Lemma accepted_op_is_authorised_witness :
  ∃ e, demo_pool !! demo_serial 2 = Some e ∧
    remove (vdiff demo_validated) !! demo_serial 2 = Some e ∧
    xonly_valid (spending_pk e 700) = true ∧
    schnorr_verify (demo_sig 7)
      (signing_hash_with_locks 1 [demo_serial 2; demo_serial 1]
         [mk_note D10 (demo_key 3); mk_note D100 (demo_key 4)] []
         (transparent_outputs_hash []) 600) (spending_pk e 700) = true.
Proof.
  apply (accepted_op_is_authorised demo_pool demo_pool demo_transfer demo_tx [] 700 false
           demo_validated (mk_group [demo_serial 2; demo_serial 1] (demo_sig 7))).
  - apply shows_map.
  - vm_compute; reflexivity.
  - vm_compute; reflexivity.
  - left.
  - left.
Defined.

(** At score 40000 the anchor 600 is stale and the full check rejects. *)
Lemma replay_agrees_witness :
  validate_stateful demo_transfer demo_tx [] demo_pool 40000 false false =
    Err (StaleAnchor 600 40000 36000) ∧
  validate_stateful demo_transfer demo_tx [] demo_pool 40000 true false = Ok demo_validated.
Proof.
  split; [vm_compute; reflexivity|].
  apply (replay_agrees demo_pool demo_pool demo_pool demo_transfer demo_tx [] 700 40000 false).
  - apply shows_map.
  - apply shows_map.
  - vm_compute; reflexivity.
  - vm_compute; reflexivity.
Defined.

Lemma group_order_is_free_witness :
  validate_stateful (demo_redeem [demo_serial 2; demo_serial 1]) demo_tx [] demo_pool 700 false false
  = Ok (get_ok (validate_stateful (demo_redeem [demo_serial 1; demo_serial 2]) demo_tx []
                  demo_pool 700 false false)).
Proof.
  apply (group_order_is_free demo_pool demo_pool
           [mk_group [demo_serial 1; demo_serial 2] (demo_sig 7)]).
  - apply shows_map.
  - constructor; [|constructor]. split; [apply Permutation_swap|reflexivity].
  - vm_compute; reflexivity.
  - vm_compute; reflexivity.
Defined.
