(* ===== verification/UtxoAlgebra.v ===== *)
(** * UTXO diffs and UTXO views

    [consensus/core/src/utxo]: [utxo_collection.rs], [utxo_diff.rs] and
    [utxo_view.rs].  Unlike a pool diff, a UTXO diff may hold an outpoint on both
    sides, removed with one DAA score and added back with another, so every
    operation compares DAA scores.

    The specification reads a diff as a partial function on UTXO sets ([fits],
    [apply_diff]); composition, [diff_from] and [add_transaction] are proved to
    implement sequential application, difference and transaction application. *)

From Stdlib Require Import String.
From S2P Require Import Prelude Transaction.

(** [HashMap<TransactionOutpoint, UtxoEntry>]. *)
Abbreviation UtxoCollection := (gmap TransactionOutpoint UtxoEntry) (only parsing).

Inductive UtxoAlgebraError :=
  | DuplicateRemovePoint (op : TransactionOutpoint)
  | DuplicateAddPoint (op : TransactionOutpoint)
  | DoubleRemoveCall (op : TransactionOutpoint)
  | DoubleAddCall (op : TransactionOutpoint)
  | DiffIntersectionPoint (op : TransactionOutpoint) (what : string)
  | General (what : string).
#[global] Instance UtxoAlgebraError_eq_dec : EqDecision UtxoAlgebraError.
Proof. solve_decision. Defined.

(** ** Collections *)

Definition contains_with_daa_score (c : UtxoCollection) (op : TransactionOutpoint) (daa : Z) : bool :=
  match c !! op with
  | Some e => block_daa_score e =? daa
  | None => false
  end.

Definition add_collection (self other : UtxoCollection) : UtxoCollection :=
  foldl (λ c kv, <[kv.1 := kv.2]> c) self (map_to_list other).

Definition remove_collection (self other : UtxoCollection) : UtxoCollection :=
  foldl (λ c k, delete k c) self (map_to_list other).*1.

(** [intersects]: the smaller collection is iterated. *)
Definition intersects (self other : UtxoCollection) : bool :=
  if (size self <=? size other)%nat
  then existsb (λ k, bool_decide (k ∈ dom other)) (map_to_list self).*1
  else existsb (λ k, bool_decide (k ∈ dom self)) (map_to_list other).*1.

(** [intersects_with_rule]: the first common outpoint satisfying the rule, which
    always receives the entry of [self] first. *)
Definition intersects_with_rule (self other : UtxoCollection)
    (rule : TransactionOutpoint → UtxoEntry → UtxoEntry → bool) : option TransactionOutpoint :=
  if (size self <=? size other)%nat then
    fst <$> find (λ kv, match other !! kv.1 with
                        | Some v2 => rule kv.1 kv.2 v2
                        | None => false
                        end) (map_to_list self)
  else
    fst <$> find (λ kv, match self !! kv.1 with
                        | Some v1 => rule kv.1 v1 kv.2
                        | None => false
                        end) (map_to_list other).

(** [(result, remainder)] after the loop; the remainder receives what [other] does
    not hold at the same DAA score. *)
Definition intersection_with_remainder_having_daa_score_in_place
    (this other result remainder : UtxoCollection) : UtxoCollection * UtxoCollection :=
  foldl (λ acc kv,
    if contains_with_daa_score other kv.1 (block_daa_score kv.2)
    then (<[kv.1 := kv.2]> acc.1, acc.2)
    else (acc.1, <[kv.1 := kv.2]> acc.2)) (result, remainder) (map_to_list this).

Definition subtraction_having_daa_score_in_place (this other result : UtxoCollection)
    : UtxoCollection :=
  foldl (λ acc kv,
    if negb (contains_with_daa_score other kv.1 (block_daa_score kv.2))
    then <[kv.1 := kv.2]> acc
    else acc) result (map_to_list this).

Definition subtraction_with_remainder_having_daa_score_in_place
    (this other result remainder : UtxoCollection) : UtxoCollection * UtxoCollection :=
  foldl (λ acc kv,
    if negb (contains_with_daa_score other kv.1 (block_daa_score kv.2))
    then (<[kv.1 := kv.2]> acc.1, acc.2)
    else (acc.1, <[kv.1 := kv.2]> acc.2)) (result, remainder) (map_to_list this).

(** ** Diffs *)

Record UtxoDiff := mk_diff { add : UtxoCollection; remove : UtxoCollection }.
#[global] Instance UtxoDiff_eq_dec : EqDecision UtxoDiff.
Proof. solve_decision. Defined.
Definition empty_diff : UtxoDiff := mk_diff ∅ ∅.

(** The trait [ImmutableUtxoDiff]. *)
Class ImmutableUtxoDiff (D : Type) := {
  added : D → UtxoCollection;
  removed : D → UtxoCollection }.
#[global] Instance UtxoDiff_immutable : ImmutableUtxoDiff UtxoDiff :=
  {| added := add; removed := remove |}.
Record ReversedUtxoDiff := as_reversed { inner : UtxoDiff }.
#[global] Instance ReversedUtxoDiff_immutable : ImmutableUtxoDiff ReversedUtxoDiff :=
  {| added := λ r, remove (inner r); removed := λ r, add (inner r) |}.
Definition to_reversed (df : UtxoDiff) : UtxoDiff := mk_diff (remove df) (add df).

(** [UtxoDiff::with_diff_in_place]. *)
Definition with_diff_in_place {D} `{ImmutableUtxoDiff D} (self : UtxoDiff) (other : D)
    : outcome UtxoAlgebraError UtxoDiff :=
  match intersects_with_rule (removed other) (remove self)
          (λ op entry_to_add _, negb (contains_with_daa_score (add self) op
                                        (block_daa_score entry_to_add))) with
  | Some op => Err (DuplicateRemovePoint op)
  | None =>
      match intersects_with_rule (added other) (add self)
              (λ op _ existing, negb (contains_with_daa_score (removed other) op
                                        (block_daa_score existing))) with
      | Some op => Err (DuplicateAddPoint op)
      | None =>
          let '(intersection, remove1) :=
            intersection_with_remainder_having_daa_score_in_place
              (removed other) (add self) ∅ (remove self) in
          let add1 := remove_collection (add self) intersection in
          let '(intersection2, add2) :=
            intersection_with_remainder_having_daa_score_in_place
              (added other) remove1 ∅ add1 in
          let remove2 := remove_collection remove1 intersection2 in
          Ok (mk_diff add2 remove2)
      end
  end.

(** [UtxoDiff::diff_from]. *)
Definition diff_from {D} `{ImmutableUtxoDiff D} (self : UtxoDiff) (other : D)
    : outcome UtxoAlgebraError UtxoDiff :=
  let daa := block_daa_score in
  match intersects_with_rule (remove self) (added other)
          (λ op this_entry other_entry,
             negb (negb (daa other_entry =? daa this_entry) &&
                   (contains_with_daa_score (add self) op (daa other_entry) ||
                    contains_with_daa_score (removed other) op (daa this_entry)))) with
  | Some op => Err (DiffIntersectionPoint op "both in self.add and in other.remove")
  | None =>
  match intersects_with_rule (add self) (removed other)
          (λ op this_entry other_entry,
             negb (negb (daa other_entry =? daa this_entry) &&
                   (contains_with_daa_score (remove self) op (daa other_entry) ||
                    contains_with_daa_score (added other) op (daa this_entry)))) with
  | Some op => Err (DiffIntersectionPoint op "both in self.remove and in other.add")
  | None =>
  match intersects_with_rule (remove self) (removed other)
          (λ _ this_entry other_entry, negb (daa other_entry =? daa this_entry)) with
  | Some op => Err (DiffIntersectionPoint op
      "both in self.remove and other.remove with different DAA scores, with no corresponding entry in self.add")
  | None =>
      let '(remove1, in_both_to_add) :=
        subtraction_with_remainder_having_daa_score_in_place (add self) (added other) ∅ ∅ in
      reject_if (negb (eqb (intersects in_both_to_add (remove self))
                           (intersects in_both_to_add (removed other))))
        (General
           "diff_from: outpoint both in self.add, other.add, and only one of self.remove and other.remove");;
      let remove2 := subtraction_having_daa_score_in_place (removed other) (remove self) remove1 in
      let add1 := subtraction_having_daa_score_in_place (remove self) (removed other) ∅ in
      let add2 := subtraction_having_daa_score_in_place (added other) (add self) add1 in
      Ok (mk_diff add2 remove2)
  end end end.

Definition remove_entry (self : UtxoDiff) (op : TransactionOutpoint) (e : UtxoEntry)
    : outcome UtxoAlgebraError UtxoDiff :=
  if contains_with_daa_score (add self) op (block_daa_score e)
  then Ok (mk_diff (delete op (add self)) (remove self))
  else match remove self !! op with
       | None => Ok (mk_diff (add self) (<[op := e]> (remove self)))
       | Some _ => Err (DoubleRemoveCall op)
       end.

Definition add_entry (self : UtxoDiff) (op : TransactionOutpoint) (e : UtxoEntry)
    : outcome UtxoAlgebraError UtxoDiff :=
  if contains_with_daa_score (remove self) op (block_daa_score e)
  then Ok (mk_diff (add self) (delete op (remove self)))
  else match add self !! op with
       | None => Ok (mk_diff (<[op := e]> (add self)) (remove self))
       | Some _ => Err (DoubleAddCall op)
       end.

(** The outpoint and entry of the [i]-th output of an accepted transaction. *)
Definition created_outpoint (tx_id : TransactionId) (i : nat) : TransactionOutpoint :=
  mk_outpoint tx_id (Z.of_nat i mod 2 ^ 32).
Definition created_entry (o : TransactionOutput) (daa : Z) (coinbase : bool) : UtxoEntry :=
  mk_utxo (value o) (script_public_key o) daa coinbase (covenant_id <$> covenant o).

(** [UtxoDiff::add_transaction]. *)
Definition add_transaction (self : UtxoDiff) (ptx : PopulatedTransaction) (daa : Z)
    : outcome UtxoAlgebraError UtxoDiff :=
  self ← try_fold (λ s ie, remove_entry s (previous_outpoint ie.1) ie.2) self (populated_inputs ptx);
  try_foldi (λ i s o, add_entry s (created_outpoint (id (pop_tx ptx)) i)
                        (created_entry o daa (is_coinbase (pop_tx ptx))))
    0 self (outputs (pop_tx ptx)).

(** ** Views *)

(** The trait [UtxoView]. *)
Class UtxoView (V : Type) := get : V → TransactionOutpoint → option UtxoEntry.
#[global] Instance UtxoCollection_view : UtxoView UtxoCollection := λ m op, m !! op.

Record ComposedUtxoView (V D : Type) := compose { base : V; diff : D }.
Arguments compose {V D} _ _.
Arguments base {V D} _.
Arguments diff {V D} _.

(** [ComposedUtxoView::get]. *)
Definition composed_get {V D} `{UtxoView V, ImmutableUtxoDiff D}
    (v : ComposedUtxoView V D) (op : TransactionOutpoint) : option UtxoEntry :=
  match added (diff v) !! op with
  | Some e => Some e
  | None => if bool_decide (op ∈ dom (removed (diff v))) then None else get (base v) op
  end.
#[global] Instance ComposedUtxoView_view {V D} `{UtxoView V, ImmutableUtxoDiff D} :
  UtxoView (ComposedUtxoView V D) := composed_get.

(** ** Specification: diffs as partial functions on UTXO sets *)

Definition apply_diff (m : UtxoCollection) (df : UtxoDiff) : UtxoCollection :=
  add df ∪ (m ∖ remove df).

(** [df] describes a mutation of [m]: it removes entries as [m] holds them; what it
    adds is not in [m], or replaces a removed entry of another DAA score. *)
Definition fits (m : UtxoCollection) (df : UtxoDiff) : Prop :=
  (∀ op e, remove df !! op = Some e → m !! op = Some e) ∧
  (∀ op e, add df !! op = Some e →
     m !! op = None ∨
     ∃ r, remove df !! op = Some r ∧ block_daa_score r ≠ block_daa_score e).

(** An outpoint re-created at the DAA score it was removed with is the same entry. *)
Definition same_score_same_entry (d1 d2 : UtxoDiff) : Prop :=
  ∀ op e e', remove d1 !! op = Some e → add d2 !! op = Some e' →
    block_daa_score e = block_daa_score e' → e = e'.

Definition utxo_value (m : UtxoCollection) : Z := map_sum amount m.

Definition as_diff {D} `{ImmutableUtxoDiff D} (o : D) : UtxoDiff := mk_diff (added o) (removed o).

Lemma as_utxo_diff_id (df : UtxoDiff) : as_diff df = df.
Proof. by destruct df. Qed.

Lemma utxo_apply_lookup m df op :
  apply_diff m df !! op =
    match add df !! op with
    | Some e => Some e
    | None => match remove df !! op with Some _ => None | None => m !! op end
    end.
Proof.
  unfold apply_diff. rewrite lookup_union, lookup_difference.
  destruct (add df !! op), (remove df !! op), (m !! op); done.
Qed.

(** ** The loops, binding by binding *)

Lemma contains_with_daa_score_true c op daa :
  contains_with_daa_score c op daa = true ↔ ∃ e, c !! op = Some e ∧ block_daa_score e = daa.
Proof.
  unfold contains_with_daa_score. destruct (c !! op); [rewrite Z.eqb_eq|]; naive_solver.
Qed.

Lemma remove_collection_lookup self other op :
  remove_collection self other !! op =
    match other !! op with Some _ => None | None => self !! op end.
Proof. apply delete_many_keys. Qed.

Lemma intersection_lookup this other result remainder op :
  let p := intersection_with_remainder_having_daa_score_in_place this other result remainder in
  p.1 !! op = match this !! op with
              | Some e => if contains_with_daa_score other op (block_daa_score e)
                          then Some e else result !! op
              | None => result !! op
              end ∧
  p.2 !! op = match this !! op with
              | Some e => if contains_with_daa_score other op (block_daa_score e)
                          then remainder !! op else Some e
              | None => remainder !! op
              end.
Proof.
  cbv zeta. unfold intersection_with_remainder_having_daa_score_in_place.
  rewrite (split_loop (λ kv, contains_with_daa_score other kv.1 (block_daa_score kv.2))).
  cbn [fst snd]. rewrite !insert_if_lookup. split; [done|]. cbn [fst snd].
  destruct (this !! op); [|done]. by destruct (contains_with_daa_score _ _ _).
Qed.

Lemma subtraction_lookup this other result op :
  subtraction_having_daa_score_in_place this other result !! op =
    match this !! op with
    | Some e => if contains_with_daa_score other op (block_daa_score e)
                then result !! op else Some e
    | None => result !! op
    end.
Proof.
  unfold subtraction_having_daa_score_in_place.
  rewrite (insert_if_lookup (λ kv, negb (contains_with_daa_score other kv.1 (block_daa_score kv.2)))).
  cbn [fst snd]. destruct (this !! op); [|done]. by destruct (contains_with_daa_score _ _ _).
Qed.

Lemma subtraction_with_remainder_lookup this other op :
  let p := subtraction_with_remainder_having_daa_score_in_place this other ∅ ∅ in
  p.1 !! op = match this !! op with
              | Some e => if contains_with_daa_score other op (block_daa_score e)
                          then None else Some e
              | None => None
              end ∧
  p.2 !! op = match this !! op with
              | Some e => if contains_with_daa_score other op (block_daa_score e)
                          then Some e else None
              | None => None
              end.
Proof.
  cbv zeta. unfold subtraction_with_remainder_having_daa_score_in_place.
  rewrite (split_loop (λ kv, negb (contains_with_daa_score other kv.1 (block_daa_score kv.2)))).
  cbn [fst snd]. rewrite !insert_if_lookup, lookup_empty. cbn [fst snd].
  destruct (this !! op); [|done]. by destruct (contains_with_daa_score _ _ _).
Qed.

Lemma find_pair_None (m : UtxoCollection) (f : TransactionOutpoint * UtxoEntry → bool) :
  fst <$> find f (map_to_list m) = None ↔ ∀ op e, m !! op = Some e → f (op, e) = false.
Proof.
  rewrite fmap_None, find_None_forall. split.
  - intros Hf op e He. apply Hf. by apply elem_of_map_to_list.
  - intros Hf [op e] He%elem_of_map_to_list. by apply Hf.
Qed.

Lemma intersects_with_rule_None self other rule :
  intersects_with_rule self other rule = None ↔
    ∀ op v1 v2, self !! op = Some v1 → other !! op = Some v2 → rule op v1 v2 = false.
Proof.
  unfold intersects_with_rule. destruct (_ <=? _)%nat; rewrite find_pair_None; cbn [fst snd].
  - split.
    + intros Hf op v1 v2 H1 H2. specialize (Hf op v1 H1). by rewrite H2 in Hf.
    + intros Hf op e He. destruct (other !! op) eqn:Ho; [by eapply Hf|done].
  - split.
    + intros Hf op v1 v2 H1 H2. specialize (Hf op v2 H2). by rewrite H1 in Hf.
    + intros Hf op e He. destruct (self !! op) eqn:Ho; [by eapply Hf|done].
Qed.

Lemma intersects_true self other :
  intersects self other = true ↔ ∃ op, is_Some (self !! op) ∧ is_Some (other !! op).
Proof.
  assert (∀ a b : UtxoCollection, existsb (λ k, bool_decide (k ∈ dom b)) (map_to_list a).*1 = true ↔
            ∃ op, is_Some (a !! op) ∧ is_Some (b !! op)) as Hex.
  { intros a b. rewrite existsb_exists. setoid_rewrite bool_decide_eq_true.
    setoid_rewrite <- list_elem_of_In. setoid_rewrite elem_of_map_keys.
    by setoid_rewrite elem_of_dom. }
  unfold intersects. destruct (_ <=? _)%nat; rewrite Hex; naive_solver.
Qed.

(** ** Composition *)

(** What [fits] says about one outpoint of a diff that follows another. *)
Lemma utxo_fits_after m d1 d2 op :
  fits m d1 → fits (apply_diff m d1) d2 →
  (∀ e, remove d2 !! op = Some e →
     add d1 !! op = Some e ∨
     add d1 !! op = None ∧ remove d1 !! op = None ∧ m !! op = Some e) ∧
  (∀ e, add d2 !! op = Some e →
     (∃ r, remove d2 !! op = Some r ∧ block_daa_score r ≠ block_daa_score e) ∨
     remove d2 !! op = None ∧ add d1 !! op = None ∧
       (is_Some (remove d1 !! op) ∨ m !! op = None)).
Proof.
  intros [Hr1 Ha1] [Hr2 Ha2]. split; intros e He.
  - apply Hr2 in He. rewrite utxo_apply_lookup in He.
    destruct (add d1 !! op), (remove d1 !! op); naive_solver.
  - destruct (Ha2 _ _ He) as [Hn|Hr]; [|by left].
    destruct (remove d2 !! op) as [r|] eqn:Hrem.
    { apply Hr2 in Hrem. congruence. }
    right. split; [done|]. rewrite utxo_apply_lookup in Hn.
    destruct (add d1 !! op), (remove d1 !! op); naive_solver.
Qed.

(** The two sides a successful composition leaves. *)
Definition composed_add (d1 d2 : UtxoDiff) (op : TransactionOutpoint) : option UtxoEntry :=
  match add d2 !! op with
  | Some e2 =>
      match remove d1 !! op with
      | Some r => if block_daa_score r =? block_daa_score e2 then None else Some e2
      | None => Some e2
      end
  | None => match remove d2 !! op with Some _ => None | None => add d1 !! op end
  end.
Definition composed_remove (d1 d2 : UtxoDiff) (op : TransactionOutpoint) : option UtxoEntry :=
  match remove d1 !! op with
  | Some r =>
      match add d2 !! op with
      | Some e2 => if block_daa_score r =? block_daa_score e2 then None else Some r
      | None => Some r
      end
  | None => match add d1 !! op with Some _ => None | None => remove d2 !! op end
  end.

Lemma utxo_with_diff_lookup {D} `{ImmutableUtxoDiff D} m d1 (d2 : D) :
  fits m d1 → fits (apply_diff m d1) (as_diff d2) →
  ∃ r, with_diff_in_place d1 d2 = Ok r ∧
    ∀ op, add r !! op = composed_add d1 (as_diff d2) op ∧
          remove r !! op = composed_remove d1 (as_diff d2) op.
Proof.
  intros H1 H2. pose proof (λ op, utxo_fits_after m d1 (as_diff d2) op H1 H2) as Haft.
  simpl in Haft. unfold with_diff_in_place.
  assert (intersects_with_rule (removed d2) (remove d1) (λ op entry_to_add _,
    negb (contains_with_daa_score (add d1) op (block_daa_score entry_to_add))) = None) as ->.
  { apply intersects_with_rule_None. intros op v1 v2 Hv1 Hv2. apply negb_false_iff.
    apply contains_with_daa_score_true. destruct (Haft op) as [Hx _].
    destruct (Hx _ Hv1) as [?|(_ & ? & _)]; [by eexists|congruence]. }
  assert (intersects_with_rule (added d2) (add d1) (λ op _ existing,
    negb (contains_with_daa_score (removed d2) op (block_daa_score existing))) = None) as ->.
  { apply intersects_with_rule_None. intros op v1 v2 Hv1 Hv2. apply negb_false_iff.
    apply contains_with_daa_score_true. destruct (Haft op) as [Hx Hy].
    destruct (Hy _ Hv1) as [(r & Hr & _)|(_ & ? & _)]; [|congruence]. exists r. split; [done|].
    destruct (Hx _ Hr) as [?|(? & _)]; congruence. }
  pose proof (intersection_lookup (removed d2) (add d1) ∅ (remove d1)) as L1.
  destruct (intersection_with_remainder_having_daa_score_in_place _ _ _ _) as [i1 r1].
  pose proof (intersection_lookup (added d2) r1 ∅ (remove_collection (add d1) i1)) as L2.
  destruct (intersection_with_remainder_having_daa_score_in_place _ _ _ _) as [i2 a2].
  eexists. split; [done|]. intros op. destruct (L1 op) as [Hi1 Hr1], (L2 op) as [Hi2 Ha2].
  destruct (Haft op) as [Hx Hy], H1 as [HR1 HA1]. specialize (HR1 op). specialize (HA1 op).
  cbn [fst snd add remove] in *. rewrite remove_collection_lookup in *.
  unfold composed_add, composed_remove, contains_with_daa_score in *. simpl.
  rewrite Ha2, Hi2, Hr1, Hi1, lookup_empty. clear Ha2 Hi2 Hr1 Hi1 L1 L2.
  destruct (add d1 !! op) as [x|], (remove d1 !! op) as [y|], (added d2 !! op) as [z|],
    (removed d2 !! op) as [w|]; cbn in *;
  repeat match goal with
  | |- context [?a =? ?b] => destruct (Z.eqb_spec a b); cbn in *
  end; naive_solver.
Qed.

Ltac split_scores :=
  repeat match goal with
  | |- context [?a =? ?b] => destruct (Z.eqb_spec a b); cbn in *
  | H : context [?a =? ?b] |- _ => destruct (Z.eqb_spec a b); cbn in *
  end.

Lemma utxo_compose_sound {D} `{ImmutableUtxoDiff D} m d1 (d2 : D) :
  fits m d1 → fits (apply_diff m d1) (as_diff d2) → same_score_same_entry d1 (as_diff d2) →
  ∃ r, with_diff_in_place d1 d2 = Ok r ∧ fits m r ∧
    apply_diff m r = apply_diff (apply_diff m d1) (as_diff d2).
Proof.
  intros H1 H2 Hs. destruct (utxo_with_diff_lookup m d1 d2 H1 H2) as (r & Hr & Hl).
  exists r. split; [done|].
  pose proof (λ op, utxo_fits_after m d1 (as_diff d2) op H1 H2) as Haft.
  destruct H1 as [HR1 HA1]. clear H2. split; [split|].
  - intros op e. destruct (Hl op) as [_ ->], (Haft op) as [Hx Hy].
    specialize (HR1 op). unfold composed_remove in *.
    destruct (add d1 !! op), (remove d1 !! op), (add (as_diff d2) !! op),
      (remove (as_diff d2) !! op); split_scores; naive_solver.
  - intros op e. destruct (Hl op) as [-> ->], (Haft op) as [Hx Hy].
    specialize (HR1 op). specialize (HA1 op). unfold composed_add, composed_remove in *.
    destruct (add d1 !! op), (remove d1 !! op), (add (as_diff d2) !! op),
      (remove (as_diff d2) !! op); split_scores; naive_solver.
  - apply map_eq. intros op. rewrite !utxo_apply_lookup.
    destruct (Hl op) as [-> ->], (Haft op) as [Hx Hy].
    specialize (HR1 op). specialize (HA1 op). specialize (Hs op).
    unfold composed_add, composed_remove in *.
    destruct (add d1 !! op), (remove d1 !! op), (add (as_diff d2) !! op),
      (remove (as_diff d2) !! op), (m !! op); split_scores; naive_solver.
Qed.

Lemma utxo_reverse_sound m df :
  fits m df →
  fits (apply_diff m df) (to_reversed df) ∧
  apply_diff (apply_diff m df) (to_reversed df) = m.
Proof.
  intros [Hr Ha]. split; [split|].
  - intros op e He. rewrite utxo_apply_lookup. simpl in He. by rewrite He.
  - intros op e He. simpl in *. rewrite utxo_apply_lookup, He.
    destruct (add df !! op) as [x|] eqn:Hx; [|by left]. right. exists x. split; [done|].
    destruct (Ha _ _ Hx) as [Hn|(r & Hr' & Hne)]; [by rewrite (Hr _ _ He) in Hn|congruence].
  - apply map_eq. intros op. rewrite !utxo_apply_lookup. simpl.
    specialize (Hr op). specialize (Ha op).
    destruct (add df !! op), (remove df !! op), (m !! op); naive_solver.
Qed.

(** The value of the UTXO set moves by what the diff adds and removes. *)
Lemma utxo_apply_value m df :
  fits m df →
  utxo_value (apply_diff m df) = utxo_value m - utxo_value (remove df) + utxo_value (add df).
Proof.
  intros [Hr Ha]. unfold utxo_value, apply_diff.
  assert (remove df ⊆ m) as Hsub by (apply map_subseteq_spec; eauto).
  rewrite map_sum_union.
  - rewrite <- (map_difference_union (remove df) m) at 2 by done.
    rewrite map_sum_union by (by apply map_disjoint_difference_r1). lia.
  - apply map_disjoint_spec. intros op e1 e2 H1 H2.
    rewrite lookup_difference in H2. destruct (Ha _ _ H1) as [Hn|(r & Hr' & _)].
    + rewrite Hn in H2. by destruct (remove df !! op).
    + by rewrite Hr' in H2.
Qed.

(** Composition of UTXO diffs is sequential application, DAA scores included: when
    [d1] fits the set [m], [d2] fits the set [d1] leads to, and an outpoint re-created at
    the score it was removed with is the same entry, [with_diff_in_place] succeeds and
    leaves a diff that fits [m] and takes it where [d1] followed by [d2] does. *)
Theorem utxo_with_diff_sequential m d1 d2 :
  fits m d1 → fits (apply_diff m d1) d2 → same_score_same_entry d1 d2 →
  ∃ r, with_diff_in_place d1 d2 = Ok r ∧ fits m r ∧
    apply_diff m r = apply_diff (apply_diff m d1) d2.
Proof.
  intros H1 H2 Hs. rewrite <- (as_utxo_diff_id d2) in H2, Hs.
  destruct (utxo_compose_sound m d1 d2 H1 H2 Hs) as (r & Hr). exists r.
  by rewrite as_utxo_diff_id in Hr.
Qed.

(** ** Difference *)

(** The facts [diff_from] relies on, at one outpoint of two diffs of one base. *)
Lemma utxo_fits_pair m d1 d2 op :
  fits m d1 → fits m d2 →
  (∀ r1 r2, remove d1 !! op = Some r1 → remove d2 !! op = Some r2 → r1 = r2) ∧
  (∀ r e, remove d1 !! op = Some r → add d2 !! op = Some e →
     remove d2 !! op = Some r ∧ block_daa_score r ≠ block_daa_score e).
Proof.
  intros [Hr1 Ha1] [Hr2 Ha2]. split.
  - intros r1 r2 H1%Hr1 H2%Hr2. congruence.
  - intros r e H1%Hr1 H2. destruct (Ha2 _ _ H2) as [Hn|(r' & Hr' & Hne)]; [congruence|].
    pose proof (Hr2 _ _ Hr'). split; congruence.
Qed.

(** An outpoint added by both diffs at one DAA score is one entry. *)
Definition same_score_same_add (d1 d2 : UtxoDiff) : Prop :=
  ∀ op e e', add d1 !! op = Some e → add d2 !! op = Some e' →
    block_daa_score e = block_daa_score e' → e = e'.

Definition difference_add (d1 d2 : UtxoDiff) (op : TransactionOutpoint) : option UtxoEntry :=
  match add d2 !! op with
  | Some e2 =>
      match add d1 !! op with
      | Some e1 => if block_daa_score e1 =? block_daa_score e2 then None else Some e2
      | None => Some e2
      end
  | None => match remove d2 !! op with Some _ => None | None => remove d1 !! op end
  end.
Definition difference_remove (d1 d2 : UtxoDiff) (op : TransactionOutpoint) : option UtxoEntry :=
  match add d1 !! op with
  | Some e1 =>
      match add d2 !! op with
      | Some e2 => if block_daa_score e2 =? block_daa_score e1 then None else Some e1
      | None => Some e1
      end
  | None => match remove d1 !! op with Some _ => None | None => remove d2 !! op end
  end.

Lemma diff_from_lookup m d1 d2 :
  fits m d1 → fits m d2 →
  ∃ r, diff_from d1 d2 = Ok r ∧
    ∀ op, add r !! op = difference_add d1 d2 op ∧ remove r !! op = difference_remove d1 d2 op.
Proof.
  intros H1 H2. pose proof (λ op, utxo_fits_pair m d1 d2 op H1 H2) as H12.
  pose proof (λ op, utxo_fits_pair m d2 d1 op H2 H1) as H21.
  unfold diff_from. change (added d2) with (add d2). change (removed d2) with (remove d2).
  rewrite (proj2 (intersects_with_rule_None (remove d1) (add d2) _)).
  2: { intros op v1 v2 Hv1 Hv2. destruct (H12 op) as [_ Hx]. destruct (Hx _ _ Hv1 Hv2) as [Hr Hne].
       apply negb_false_iff, andb_true_iff. rewrite orb_true_iff, !contains_with_daa_score_true.
       split; [by apply negb_true_iff, Z.eqb_neq|]. right. by exists v1. }
  rewrite (proj2 (intersects_with_rule_None (add d1) (remove d2) _)).
  2: { intros op v1 v2 Hv1 Hv2. destruct (H21 op) as [_ Hx]. destruct (Hx _ _ Hv2 Hv1) as [Hr Hne].
       apply negb_false_iff, andb_true_iff. rewrite orb_true_iff, !contains_with_daa_score_true.
       split; [by apply negb_true_iff, Z.eqb_neq|]. left. by exists v2. }
  rewrite (proj2 (intersects_with_rule_None (remove d1) (remove d2) _)).
  2: { intros op v1 v2 Hv1 Hv2. destruct (H12 op) as [Hx _]. rewrite (Hx _ _ Hv1 Hv2).
       by rewrite Z.eqb_refl. }
  pose proof (subtraction_with_remainder_lookup (add d1) (add d2)) as L.
  destruct (subtraction_with_remainder_having_daa_score_in_place _ _ _ _) as [r1 both].
  assert (intersects both (remove d1) = intersects both (remove d2)) as ->.
  { apply eq_bool_prop_intro. split; intros Hi%Is_true_true%intersects_true;
      apply Is_true_true, intersects_true; destruct Hi as (op & [b Hb] & [r Hr]);
      exists op; (split; [by eexists|]); destruct (L op) as [_ HL]; cbn [snd] in HL; rewrite Hb in HL;
      unfold contains_with_daa_score in HL;
      destruct (add d1 !! op) eqn:E1; [|done| |done];
      destruct (add d2 !! op) eqn:E2; try done.
    - destruct (H12 op) as [_ Hx]. destruct (Hx _ _ Hr E2) as [-> _]. by eexists.
    - destruct (H21 op) as [_ Hx]. destruct (Hx _ _ Hr E1) as [-> _]. by eexists. }
  rewrite eqb_reflx. cbn [negb reject_if mbind outcome_bind]. eexists. split; [done|].
  intros op. destruct (L op) as [Hr1 _], (H12 op) as [Ha Hb], (H21 op) as [Hc Hd].
  cbn [fst add remove] in *. rewrite !subtraction_lookup, Hr1, lookup_empty.
  unfold difference_add, difference_remove, contains_with_daa_score in *.
  destruct (add d1 !! op), (remove d1 !! op), (add d2 !! op), (remove d2 !! op);
    cbn in *; split_scores; naive_solver.
Qed.

(** [diff_from] is difference: for two diffs of one base set it never fails, and the
    diff it returns fits the set the first leads to and takes it to the set the second
    leads to. *)
Theorem diff_from_correct m d1 d2 :
  fits m d1 → fits m d2 → same_score_same_add d1 d2 →
  ∃ r, diff_from d1 d2 = Ok r ∧ fits (apply_diff m d1) r ∧
    apply_diff (apply_diff m d1) r = apply_diff m d2.
Proof.
  intros H1 H2 Hs. destruct (diff_from_lookup m d1 d2 H1 H2) as (r & Hr & Hl).
  exists r. split; [done|]. pose proof (λ op, utxo_fits_pair m d1 d2 op H1 H2) as H12.
  destruct H1 as [HR1 HA1], H2 as [HR2 HA2]. split; [split|].
  - intros op e. destruct (Hl op) as [_ ->]. rewrite utxo_apply_lookup.
    specialize (HR1 op); specialize (HA1 op); specialize (HR2 op); specialize (HA2 op).
    destruct (H12 op). unfold difference_remove.
    destruct (add d1 !! op), (remove d1 !! op), (add d2 !! op), (remove d2 !! op);
      split_scores; naive_solver.
  - intros op e. destruct (Hl op) as [-> ->]. rewrite utxo_apply_lookup.
    specialize (HR1 op); specialize (HA1 op); specialize (HR2 op); specialize (HA2 op).
    destruct (H12 op). unfold difference_remove, difference_add.
    destruct (add d1 !! op), (remove d1 !! op), (add d2 !! op), (remove d2 !! op), (m !! op);
      split_scores; naive_solver.
  - apply map_eq. intros op. rewrite !utxo_apply_lookup. destruct (Hl op) as [-> ->].
    specialize (HR1 op); specialize (HA1 op); specialize (HR2 op); specialize (HA2 op).
    destruct (H12 op). specialize (Hs op). unfold difference_remove, difference_add.
    destruct (add d1 !! op), (remove d1 !! op), (add d2 !! op), (remove d2 !! op), (m !! op);
      split_scores; naive_solver.
Qed.

(** ** Transactions *)

Lemma remove_entry_applies m df op e :
  fits m df → apply_diff m df !! op = Some e →
  ∃ df', remove_entry df op e = Ok df' ∧ fits m df' ∧
    apply_diff m df' = delete op (apply_diff m df) ∧
    ∀ k, k ≠ op → remove df' !! k = remove df !! k.
Proof.
  intros [Hr Ha] He. rewrite utxo_apply_lookup in He. unfold remove_entry, contains_with_daa_score.
  destruct (add df !! op) as [a|] eqn:Hadd.
  - injection He as ->. rewrite Z.eqb_refl. eexists. split; [done|]. split; [split; simpl|].
    + done.
    + intros k e' [_ ?]%lookup_delete_Some. by apply Ha.
    + split; [|done]. apply map_eq. intros k. rewrite utxo_apply_lookup. simpl.
      destruct (decide (k = op)) as [->|Hne].
      * rewrite !lookup_delete_eq. destruct (Ha _ _ Hadd) as [Hn|(r & -> & _)]; [|done].
        rewrite Hn. by destruct (remove df !! op).
      * rewrite !lookup_delete_ne, utxo_apply_lookup by done. done.
  - destruct (remove df !! op) eqn:Hrem; [done|]. eexists. split; [done|].
    split; [split; simpl|split; [|by intros k Hk; simpl; rewrite lookup_insert_ne]].
    + intros k e' [[<- <-]|[_ ?]]%lookup_insert_Some; [done|by apply Hr].
    + intros k e' Hk. destruct (decide (k = op)) as [->|Hne]; [congruence|].
      rewrite lookup_insert_ne by done. by apply Ha.
    + apply map_eq. intros k. rewrite utxo_apply_lookup. simpl.
      destruct (decide (k = op)) as [->|Hne].
      * by rewrite lookup_delete_eq, Hadd, lookup_insert_eq.
      * by rewrite lookup_insert_ne, lookup_delete_ne, utxo_apply_lookup by done.
Qed.

Lemma add_entry_applies m df op e :
  fits m df → apply_diff m df !! op = None →
  (∀ r, remove df !! op = Some r → block_daa_score r = block_daa_score e → r = e) →
  ∃ df', add_entry df op e = Ok df' ∧ fits m df' ∧
    apply_diff m df' = <[op := e]> (apply_diff m df) ∧
    ∀ k, k ≠ op → remove df' !! k = remove df !! k.
Proof.
  intros [Hr Ha] He Hsame. rewrite utxo_apply_lookup in He. unfold add_entry, contains_with_daa_score.
  destruct (add df !! op) as [a|] eqn:Hadd; [done|].
  destruct (remove df !! op) as [r|] eqn:Hrem; [destruct (Z.eqb_spec (block_daa_score r) (block_daa_score e)) as [Heq|Hne]|].
  - rewrite (Hsame r eq_refl Heq) in *. eexists. split; [done|].
    split; [split; simpl|split; [|by intros k Hk; simpl; rewrite lookup_delete_ne]].
    + intros k e' [_ ?]%lookup_delete_Some. by apply Hr.
    + intros k e' Hk. destruct (decide (k = op)) as [->|Hne]; [congruence|].
      rewrite lookup_delete_ne by done. by apply Ha.
    + apply map_eq. intros k. rewrite utxo_apply_lookup. simpl.
      destruct (decide (k = op)) as [->|Hne].
      * by rewrite lookup_delete_eq, Hadd, lookup_insert_eq, (Hr _ _ Hrem).
      * by rewrite lookup_delete_ne, lookup_insert_ne, utxo_apply_lookup by done.
  - eexists. split; [done|]. split; [split; simpl|split; [|done]].
    + done.
    + intros k e' [[<- <-]|[_ ?]]%lookup_insert_Some; [right; by exists r|by apply Ha].
    + apply map_eq. intros k. rewrite utxo_apply_lookup. simpl.
      destruct (decide (k = op)) as [->|Hne'].
      * by rewrite !lookup_insert_eq.
      * by rewrite !lookup_insert_ne, utxo_apply_lookup by done.
  - eexists. split; [done|]. split; [split; simpl|split; [|done]].
    + done.
    + intros k e' [[<- <-]|[_ ?]]%lookup_insert_Some; [by left|by apply Ha].
    + apply map_eq. intros k. rewrite utxo_apply_lookup. simpl.
      destruct (decide (k = op)) as [->|Hne'].
      * by rewrite !lookup_insert_eq.
      * by rewrite !lookup_insert_ne, utxo_apply_lookup by done.
Qed.

(** What a transaction does to a UTXO set: spend the inputs, then create the outputs. *)
Definition spend_inputs (s : UtxoCollection) (ops : list TransactionOutpoint) : UtxoCollection :=
  delete_many s ops.
Definition create_outputs (s : UtxoCollection) (tx : Transaction) (daa : Z) : UtxoCollection :=
  write_many s (imap (λ i o, (created_outpoint (id tx) i, created_entry o daa (is_coinbase tx)))
                  (outputs tx)).
Definition tx_apply (s : UtxoCollection) (tx : Transaction) (daa : Z) : UtxoCollection :=
  create_outputs (spend_inputs s (previous_outpoint <$> inputs tx)) tx daa.

(** The outpoints a transaction creates. *)
Definition created_outpoints (tx : Transaction) : list TransactionOutpoint :=
  created_outpoint (id tx) <$> seq 0 (length (outputs tx)).

Lemma spend_inputs_loop m df (ies : list (TransactionInput * UtxoEntry)) :
  fits m df → NoDup (previous_outpoint ∘ fst <$> ies) →
  Forall (λ ie, apply_diff m df !! previous_outpoint ie.1 = Some ie.2) ies →
  ∃ df', try_fold (λ s ie, remove_entry s (previous_outpoint ie.1) ie.2) df ies = Ok df' ∧
    fits m df' ∧
    apply_diff m df' = delete_many (apply_diff m df) (previous_outpoint ∘ fst <$> ies) ∧
    ∀ k, k ∉ (previous_outpoint ∘ fst <$> ies) → remove df' !! k = remove df !! k.
Proof.
  revert df. induction ies as [|[i e] ies IH]; intros df Hfit Hnd Hall; cbn [try_fold].
  - exists df. split_and!; try done.
  - rewrite fmap_cons in Hnd. apply NoDup_cons in Hnd as [Hni Hnd].
    apply Forall_cons in Hall as [He Hall]. cbn [fst snd] in *.
    destruct (remove_entry_applies m df _ e Hfit He) as (df1 & -> & Hfit1 & Happ1 & Hrem1).
    destruct (IH df1) as (df2 & Hfold & Hfit2 & Happ2 & Hrem2); [done|done| |].
    { rewrite Happ1. rewrite Forall_forall in Hall |- *. intros ie Hie.
      rewrite lookup_delete_ne; [by apply Hall|]. intros Heq. apply Hni.
      apply list_elem_of_fmap. exists ie. by split. }
    exists df2. cbn [mbind outcome_bind]. split_and!; try done.
    + rewrite Happ2, Happ1. done.
    + intros k Hk. rewrite fmap_cons in Hk. apply not_elem_of_cons in Hk as [Hk1 Hk2].
      rewrite Hrem2, Hrem1 by done. done.
Qed.

Lemma create_outputs_loop m df tx_id coinbase daa i outs :
  fits m df → NoDup (created_outpoint tx_id <$> seq i (length outs)) →
  (∀ op, op ∈ created_outpoint tx_id <$> seq i (length outs) → apply_diff m df !! op = None) →
  (∀ j o r, outs !! j = Some o → remove df !! created_outpoint tx_id (i + j) = Some r →
     block_daa_score r = daa → r = created_entry o daa coinbase) →
  ∃ df', try_foldi (λ i s o, add_entry s (created_outpoint tx_id i) (created_entry o daa coinbase))
      i df outs = Ok df' ∧ fits m df' ∧
    apply_diff m df' = write_many (apply_diff m df)
      (imap (λ j o, (created_outpoint tx_id (i + j), created_entry o daa coinbase)) outs).
Proof.
  revert i df. induction outs as [|o outs IH]; intros i df Hfit Hnd Hfree Hsame; cbn [try_foldi].
  - by exists df.
  - cbn [length seq] in *. rewrite fmap_cons in Hnd, Hfree. apply NoDup_cons in Hnd as [Hni Hnd].
    destruct (add_entry_applies m df (created_outpoint tx_id i) (created_entry o daa coinbase))
      as (df1 & -> & Hfit1 & Happ1 & Hrem1); [done|apply Hfree; left| |].
    { intros r Hr Hd. apply (Hsame 0%nat o r); [done|by rewrite Nat.add_0_r|done]. }
    cbn [mbind outcome_bind].
    destruct (IH (S i) df1) as (df2 & Hfold & Hfit2 & Happ2); [done|done| | |].
    { intros op Hop. rewrite Happ1, lookup_insert_ne; [apply Hfree; by right|].
      intros <-. done. }
    { intros j o' r Ho' Hr Hd. rewrite Hrem1 in Hr.
      - apply (Hsame (S j) o' r); [done| |done].
        by replace (i + S j)%nat with (S i + j)%nat by lia.
      - intros Heq. apply Hni. rewrite <- Heq. apply list_elem_of_fmap.
        exists (S i + j)%nat. split; [done|]. apply elem_of_seq.
        apply lookup_lt_Some in Ho'. lia. }
    exists df2. split_and!; [done|done|]. rewrite Happ2, Happ1. simpl. rewrite Nat.add_0_r.
    f_equal. apply imap_ext. intros j o' _. simpl.
    by rewrite Nat.add_succ_r.
Qed.

Lemma lookup_populated ptx (s : UtxoCollection) :
  length (inputs (pop_tx ptx)) = length (entries ptx) →
  Forall2 (λ i e, s !! previous_outpoint i = Some e) (inputs (pop_tx ptx)) (entries ptx) →
  previous_outpoint ∘ fst <$> populated_inputs ptx = previous_outpoint <$> inputs (pop_tx ptx) ∧
  Forall (λ ie, s !! previous_outpoint ie.1 = Some ie.2) (populated_inputs ptx).
Proof.
  intros Hlen Hf. unfold populated_inputs. split.
  - rewrite list_fmap_compose. by rewrite fst_zip by lia.
  - clear Hlen. induction Hf as [|i e ins es Hie Hf IH]; simpl; constructor; done.
Qed.

(** The transaction may be applied to the set [s] at [daa]: its inputs are distinct and
    populated from [s], its outpoints are new and distinct. *)
Record applicable (s : UtxoCollection) (ptx : PopulatedTransaction) : Prop := {
  ap_entries : Forall2 (λ i e, s !! previous_outpoint i = Some e)
                 (inputs (pop_tx ptx)) (entries ptx);
  ap_inputs : NoDup (previous_outpoint <$> inputs (pop_tx ptx));
  ap_new : ∀ op, op ∈ created_outpoints (pop_tx ptx) → s !! op = None;
  ap_created : NoDup (created_outpoints (pop_tx ptx)) }.

(** A created outpoint the diff had removed at this very score is the same entry. *)
Definition recreates_same (df : UtxoDiff) (tx : Transaction) (daa : Z) : Prop :=
  ∀ j o r, outputs tx !! j = Some o → remove df !! created_outpoint (id tx) j = Some r →
    block_daa_score r = daa → r = created_entry o daa (is_coinbase tx).

Lemma add_transaction_sound m df ptx daa :
  fits m df → applicable (apply_diff m df) ptx → recreates_same df (pop_tx ptx) daa →
  ∃ df', add_transaction df ptx daa = Ok df' ∧ fits m df' ∧
    apply_diff m df' = tx_apply (apply_diff m df) (pop_tx ptx) daa.
Proof.
  intros Hfit [Hent Hin Hnew Hcre] Hsame.
  destruct (lookup_populated ptx (apply_diff m df)) as [Hops Hall];
    [by eapply Forall2_length|done|].
  destruct (spend_inputs_loop m df (populated_inputs ptx)) as (df1 & Hf1 & Hfit1 & Happ1 & Hrem1);
    [done|by rewrite Hops|done|]. rewrite Hops in *.
  assert (∀ op, op ∈ created_outpoints (pop_tx ptx) →
            op ∉ previous_outpoint <$> inputs (pop_tx ptx)) as Hdis.
  { intros op Hop (i & -> & Hi)%list_elem_of_fmap. apply Hnew in Hop.
    apply list_elem_of_lookup in Hi as [k Hk].
    destruct (Forall2_lookup_l _ _ _ _ _ Hent Hk) as (e & _ & He). congruence. }
  unfold created_outpoints in *. unfold add_transaction. rewrite Hf1. cbn [mbind outcome_bind].
  destruct (create_outputs_loop m df1 (id (pop_tx ptx)) (is_coinbase (pop_tx ptx)) daa 0
              (outputs (pop_tx ptx))) as (df2 & Hf2 & Hfit2 & Happ2); [done|done| | |].
  - intros op Hop. rewrite Happ1, delete_many_lookup, decide_False by auto. auto.
  - intros j o r Ho Hr Hd. apply (Hsame j o r); [done| |done]. rewrite <- Hrem1; [done|].
    apply Hdis. apply list_elem_of_fmap. exists j. split; [done|]. apply elem_of_seq.
    apply lookup_lt_Some in Ho. lia.
  - exists df2. split_and!; [done|done|]. rewrite Happ2, Happ1. done.
Qed.

Lemma delete_many_value (s : UtxoCollection) ops es :
  NoDup ops → Forall2 (λ op e, s !! op = Some e) ops es →
  utxo_value (delete_many s ops) = utxo_value s - entries_total es.
Proof.
  unfold delete_many, utxo_value, entries_total. intros Hnd Hf. revert s Hf.
  revert es. induction Hnd as [|op ops Hop Hnd IH]; intros es s Hf.
  - apply Forall2_nil_inv_l in Hf as ->. simpl. unfold Zsum; simpl; lia.
  - apply Forall2_cons_inv_l in Hf as (e & es' & He & Hf & ->). cbn [foldl].
    rewrite (IH es').
    + rewrite (map_sum_delete amount s op e He), fmap_cons, Zsum_cons. lia.
    + apply Forall2_same_length_lookup_2; [by eapply Forall2_length|].
      intros i op' e' Hi He'. rewrite lookup_delete_ne.
      * by apply (Forall2_lookup_lr _ _ _ _ _ _ Hf Hi He').
      * intros ->. apply Hop. by eapply list_elem_of_lookup_2.
Qed.

Lemma write_many_value (s : UtxoCollection) kvs :
  NoDup kvs.*1 → (∀ k, k ∈ kvs.*1 → s !! k = None) →
  utxo_value (write_many s kvs) = utxo_value s + entries_total kvs.*2.
Proof.
  unfold write_many, utxo_value, entries_total. revert s.
  induction kvs as [|[k v] kvs IH]; intros s Hnd Hfree.
  - simpl. unfold Zsum; simpl; lia.
  - rewrite fmap_cons in Hnd, Hfree. apply NoDup_cons in Hnd as [Hk Hnd]. cbn [foldl fst snd].
    rewrite IH; [|done|].
    + rewrite map_sum_insert by (apply Hfree; left). rewrite !fmap_cons, Zsum_cons. cbn [snd]. lia.
    + intros k' Hk'. rewrite lookup_insert_ne; [apply Hfree; by right|]. intros ->. done.
Qed.

Lemma imap_seq {A B} (f : nat → A → B) l i :
  imap (λ j, f (i + j)%nat) l = (λ p, f p.1 p.2) <$> zip (seq i (length l)) l.
Proof.
  revert i. induction l as [|x l IH]; intros i; simpl; [done|]. rewrite Nat.add_0_r. f_equal.
  rewrite <- IH. apply imap_ext. intros j y _. simpl. by rewrite Nat.add_succ_r.
Qed.

Lemma created_bindings tx daa :
  (imap (λ i o, (created_outpoint (id tx) i, created_entry o daa (is_coinbase tx))) (outputs tx)).*1
    = created_outpoints tx ∧
  entries_total (imap (λ i o, (created_outpoint (id tx) i,
    created_entry o daa (is_coinbase tx))) (outputs tx)).*2 = outputs_total (outputs tx).
Proof.
  unfold created_outpoints, entries_total, outputs_total.
  rewrite (imap_seq (λ i o, (created_outpoint (id tx) i, created_entry o daa (is_coinbase tx))) _ 0).
  rewrite <- !list_fmap_compose. split.
  - rewrite <- (fst_zip (seq 0 (length (outputs tx))) (outputs tx)) at 2
      by (by rewrite length_seq). by rewrite <- list_fmap_compose.
  - f_equal. rewrite <- (snd_zip (seq 0 (length (outputs tx))) (outputs tx)) at 3
      by (by rewrite length_seq). by rewrite <- list_fmap_compose.
Qed.

Lemma tx_apply_value s ptx daa :
  applicable s ptx →
  utxo_value (tx_apply s (pop_tx ptx) daa) =
    utxo_value s - entries_total (entries ptx) + outputs_total (outputs (pop_tx ptx)).
Proof.
  intros [Hent Hin Hnew Hcre]. unfold tx_apply, create_outputs, spend_inputs.
  destruct (created_bindings (pop_tx ptx) daa) as [Hk Hv].
  rewrite write_many_value, Hv, (delete_many_value _ _ (entries ptx)); [done|done| | |].
  - by apply Forall2_fmap_l.
  - by rewrite Hk.
  - rewrite Hk. intros op Hop. rewrite delete_many_lookup. case_decide; [done|by apply Hnew].
Qed.

(** (C19) [add_transaction] applies the transaction: on a diff [df] of the set [m] and a
    transaction whose inputs are distinct and populated from the set [df] leads to and
    whose outpoints are new, it succeeds, and the extended diff fits [m], leads to that set
    with the inputs spent and the outputs created, and moves the value of the set by
    outputs minus spent entries. *)
Theorem add_transaction_applies m df ptx daa :
  fits m df → applicable (apply_diff m df) ptx → recreates_same df (pop_tx ptx) daa →
  ∃ df', add_transaction df ptx daa = Ok df' ∧ fits m df' ∧
    apply_diff m df' = tx_apply (apply_diff m df) (pop_tx ptx) daa ∧
    utxo_value (apply_diff m df') = utxo_value (apply_diff m df)
      - entries_total (entries ptx) + outputs_total (outputs (pop_tx ptx)).
Proof.
  intros Hfit Happ Hsame. destruct (add_transaction_sound m df ptx daa Hfit Happ Hsame)
    as (df' & Hok & Hfit' & Heq). exists df'. split_and!; try done.
  rewrite Heq. by apply tx_apply_value.
Qed.

(** ** Views read the materialised set *)
Definition shows {V} `{UtxoView V} (v : V) (m : UtxoCollection) : Prop := ∀ op, get v op = m !! op.

Lemma utxo_shows_map (m : UtxoCollection) : shows m m.
Proof. done. Qed.

Lemma utxo_shows_compose {V D} `{UtxoView V, ImmutableUtxoDiff D} (v : V) m (o : D) :
  shows v m → shows (compose v o) (apply_diff m (as_diff o)).
Proof.
  intros Hv op. rewrite utxo_apply_lookup.
  unfold get, ComposedUtxoView_view, composed_get; simpl.
  destruct (added o !! op); [done|]. case_bool_decide as Hd; rewrite elem_of_dom in Hd.
  - destruct Hd as [? ->]. done.
  - apply eq_None_not_Some in Hd as ->. apply Hv.
Qed.

(** ** Concrete instances *)

Definition demo_op (k : Z) : TransactionOutpoint := mk_outpoint [k] 0.
Definition demo_utxo (v daa : Z) : UtxoEntry := mk_utxo v (mk_spk 0 []) daa false None.
(** A set holding outpoint 1; a diff that re-creates it at another score; two diffs that
    spend it. *)
Definition demo_set : UtxoCollection := {[ demo_op 1 := demo_utxo 50 7 ]}.
Definition demo_recreate : UtxoDiff :=
  mk_diff {[ demo_op 1 := demo_utxo 50 8 ]} {[ demo_op 1 := demo_utxo 50 7 ]}.
Definition demo_spend (daa : Z) : UtxoDiff :=
  mk_diff {[ demo_op 2 := demo_utxo 40 9 ]} {[ demo_op 1 := demo_utxo 50 daa ]}.

Lemma demo_recreate_fits : fits demo_set demo_recreate.
Proof.
  unfold fits, demo_recreate, demo_set; simpl. split; intros op e [<- <-]%lookup_singleton_Some.
  - apply lookup_singleton_eq.
  - right. eexists. split; [apply lookup_singleton_eq|done].
Qed.

Lemma demo_spend_fits (m : UtxoCollection) daa :
  m !! demo_op 1 = Some (demo_utxo 50 daa) → m !! demo_op 2 = None → fits m (demo_spend daa).
Proof.
  intros H1 H2. unfold fits, demo_spend; simpl.
  split; intros op e [<- <-]%lookup_singleton_Some; auto.
Qed.

Lemma utxo_with_diff_sequential_witness :
  ∃ r, with_diff_in_place demo_recreate (demo_spend 8) = Ok r ∧ fits demo_set r ∧
    apply_diff demo_set r = apply_diff (apply_diff demo_set demo_recreate) (demo_spend 8).
Proof.
  apply (utxo_with_diff_sequential demo_set demo_recreate (demo_spend 8)).
  - apply demo_recreate_fits.
  - apply demo_spend_fits; vm_compute; reflexivity.
  - intros op e e'. unfold demo_recreate, demo_spend; simpl.
    intros [<- <-]%lookup_singleton_Some [Hk _]%lookup_singleton_Some. discriminate.
Defined.

Lemma diff_from_correct_witness :
  ∃ r, diff_from demo_recreate (demo_spend 7) = Ok r ∧
    fits (apply_diff demo_set demo_recreate) r ∧
    apply_diff (apply_diff demo_set demo_recreate) r = apply_diff demo_set (demo_spend 7).
Proof.
  apply (diff_from_correct demo_set demo_recreate (demo_spend 7)).
  - apply demo_recreate_fits.
  - apply demo_spend_fits; vm_compute; reflexivity.
  - intros op e e'. unfold demo_recreate, demo_spend; simpl.
    intros [<- <-]%lookup_singleton_Some [Hk _]%lookup_singleton_Some. discriminate.
Defined.

(** A transaction spending outpoint 1 into two outputs. *)
Definition demo_ptx : PopulatedTransaction :=
  mk_populated
    (mk_tx 0 [mk_input (demo_op 1) [] 0 (SigopCount 1)]
       [new_output 30 (mk_spk 0 [1]); new_output 15 (mk_spk 0 [2])] 0 SUBNETWORK_ID_NATIVE 0 [] 0 [5])
    [demo_utxo 50 8].

Lemma add_transaction_applies_witness :
  ∃ df', add_transaction demo_recreate demo_ptx 9 = Ok df' ∧ fits demo_set df' ∧
    apply_diff demo_set df' = tx_apply (apply_diff demo_set demo_recreate) (pop_tx demo_ptx) 9 ∧
    utxo_value (apply_diff demo_set df') = utxo_value (apply_diff demo_set demo_recreate) - 50 + 45.
Proof.
  apply (add_transaction_applies demo_set demo_recreate demo_ptx 9).
  - apply demo_recreate_fits.
  - split.
    + constructor; [vm_compute; reflexivity|constructor].
    + apply (bool_decide_unpack _). vm_compute. exact I.
    + intros op Hop. apply list_elem_of_In in Hop. vm_compute in Hop.
      destruct Hop as [<-|[<-|[]]]; vm_compute; reflexivity.
    + apply (bool_decide_unpack _). vm_compute. exact I.
  - intros j o r Ho Hr Hd. exfalso. unfold demo_recreate in Hr; simpl in Hr.
    apply lookup_singleton_Some in Hr as [Hk _]. destruct j as [|[|j]]; discriminate.
Defined.
