(* ===== verification/Params.v ===== *)
(** * Consensus parameters that depend on activations

    [consensus/core/src/config/params.rs]: [ForkActivation], [ForkedParam],
    [BlockVersionParam] and the cadence of [FinalityAnchorParams]. *)

From S2P Require Import Prelude.

(** ** Constants ([constants.rs]) *)
Definition TX_VERSION : Z := 0.
Definition TX_VERSION_TOCCATA : Z := 1.
Definition LOCK_TIME_THRESHOLD : Z := 500000000000.
Definition SOMPI_PER_KASPA : Z := 100000000.
Definition STORAGE_MASS_PARAMETER : Z := SOMPI_PER_KASPA * 10000.
Definition TRANSIENT_BYTE_TO_MASS_FACTOR : Z := 4.
Definition MAX_SOMPI : Z := 210000000 * SOMPI_PER_KASPA.
Definition SEQUENCE_LOCK_TIME_MASK : Z := 0xffffffff.
Definition SEQUENCE_LOCK_TIME_DISABLED : Z := Z.shiftl 1 63.

(** ** Activations *)

(** [ForkActivation(u64)]. *)
Definition ForkActivation := Z.
Definition NEVER : Z := u64_max.
Definition ALWAYS : Z := 0.
Definition never : ForkActivation := NEVER.
Definition always : ForkActivation := ALWAYS.

Definition is_active (self : ForkActivation) (current_daa_score : Z) : bool :=
  self <=? current_daa_score.

Definition delayed_by (self : ForkActivation) (daa_score_delta : Z) : ForkActivation :=
  if (self =? ALWAYS) || (self =? NEVER) then self else saturating_add self daa_score_delta.
Definition early_by (self : ForkActivation) (daa_score_delta : Z) : ForkActivation :=
  if (self =? ALWAYS) || (self =? NEVER) then self else saturating_sub self daa_score_delta.

(** The checked sum is reached only behind the two first conjuncts. *)
Definition is_within_range_from_activation {E} (self : ForkActivation) (current_daa_score range : Z)
    : outcome E bool :=
  if negb (self =? always) && is_active self current_daa_score
  then s ← u64_add self range; Ok (current_daa_score <? s)
  else Ok false.

Definition is_within_range_before_activation {E} (self : ForkActivation)
    (current_daa_score range : Z) : outcome E (option Z) :=
  if negb (is_active self current_daa_score)
  then s ← u64_add current_daa_score range;
       if self <? s then Ok (Some (self - current_daa_score)) else Ok None
  else Ok None.

Record ForkedParam (T : Type) := mk_forked { pre : T; post : T; activation : ForkActivation }.
Arguments mk_forked {T} _ _ _.
Arguments pre {T} _.
Arguments post {T} _.
Arguments activation {T} _.

Definition new_const {T} (val : T) : ForkedParam T := mk_forked val val never.
Definition forked_get {T} (self : ForkedParam T) (daa_score : Z) : T :=
  if is_active (activation self) daa_score then post self else pre self.
Definition with_delayed_activation {T} (self : ForkedParam T) (delay : Z) : ForkedParam T :=
  mk_forked (pre self) (post self) (delayed_by (activation self) delay).
Definition before {T} (self : ForkedParam T) : T :=
  if activation self =? ALWAYS then post self else pre self.
Definition after {T} (self : ForkedParam T) : T :=
  if activation self =? NEVER then pre self else post self.
Definition forked_map {T U} (self : ForkedParam T) (f : T → U) : ForkedParam U :=
  mk_forked (f (pre self)) (f (post self)) (activation self).
Definition lower_bound (self : ForkedParam Z) : Z :=
  if activation self =? NEVER then pre self
  else if activation self =? ALWAYS then post self
  else Z.min (pre self) (post self).
Definition upper_bound (self : ForkedParam Z) : Z :=
  if activation self =? NEVER then pre self
  else if activation self =? ALWAYS then post self
  else Z.max (pre self) (post self).

(** [Params::bps_history], from the two target times per block in milliseconds. *)
Definition bps_history_of (pre_crescendo_target_time target_time : Z)
    (crescendo_activation : ForkActivation) : ForkedParam Z :=
  mk_forked (1000 / pre_crescendo_target_time) (1000 / target_time) crescendo_activation.

Record BlockVersionParam := { toccata : Z; pool : Z; pool_activation : ForkActivation }.
Definition block_version_get (self : BlockVersionParam) (daa_score : Z) : Z :=
  if is_active (pool_activation self) daa_score then pool self else toccata self.

(** Before [u64::MAX], which no chain reaches, a parameter is [before] up to its
    activation and [after] from then on. *)
Lemma forked_get_cases {T} (p : ForkedParam T) daa :
  0 ≤ daa < NEVER →
  forked_get p daa = if is_active (activation p) daa then after p else before p.
Proof.
  intros Hd. unfold forked_get, after, before, is_active.
  destruct (Z.leb_spec (activation p) daa); destruct (Z.eqb_spec (activation p) NEVER);
    destruct (Z.eqb_spec (activation p) ALWAYS); try done; unfold ALWAYS in *; lia.
Qed.

(** The precomputed bounds of a forked parameter bracket the value at every DAA
    score a chain can reach, and both are attained as limits of its history. *)
Theorem forked_bounds (p : ForkedParam Z) daa :
  0 ≤ daa < NEVER →
  lower_bound p ≤ forked_get p daa ≤ upper_bound p ∧
  lower_bound p = Z.min (before p) (after p) ∧ upper_bound p = Z.max (before p) (after p).
Proof.
  intros Hd. unfold lower_bound, upper_bound, forked_get, before, after, is_active, ALWAYS.
  destruct (Z.leb_spec (activation p) daa); destruct (Z.eqb_spec (activation p) NEVER);
    destruct (Z.eqb_spec (activation p) 0); unfold NEVER, u64_max in *; lia.
Qed.

Lemma forked_bounds_witness :
  lower_bound (mk_forked 1 10 500) ≤ forked_get (mk_forked 1 10 500) 499 ≤
    upper_bound (mk_forked 1 10 500) ∧ lower_bound (mk_forked 1 10 500) = 1 ∧
    upper_bound (mk_forked 1 10 500) = 10.
Proof.
  apply (forked_bounds (mk_forked 1 10 500) 499). unfold NEVER, u64_max. lia.
Defined.
