(* ===== verification/TxHashing.v ===== *)
(** * Hash preimages of transactions

    [consensus/core/src/hashing]: [mod.rs] (the writer extensions), [tx.rs]
    (transaction hash and id), [sighash_type.rs], [sighash.rs] and
    [covenant_id.rs].  The hashers are third-party functions of the bytes they are
    fed: the class [TxHashers].  Each function is the preimage it writes followed by
    its hasher, so that what a hash binds is a statement about bytes. *)

From S2P Require Import Prelude Transaction.

Class TxHashers := {
  TransactionHash : list Z → Hash;
  TransactionID : list Z → Hash;
  TransactionRest : list Z → Hash;
  TransactionV1Id : list Z → Hash;
  PayloadDigest : list Z → Hash;
  TransactionSigningHash : list Z → Hash;
  TransactionSigningHashECDSA : list Z → Hash;
  CovenantID : list Z → Hash }.

(** ** Writer extensions *)
Definition write_len (n : nat) : list Z := le_bytes 8 (Z.of_nat n).
Definition write_bool (b : bool) : list Z := if b then [1] else [0].
Definition write_u8 (x : Z) : list Z := le_bytes 1 x.
Definition write_u16 (x : Z) : list Z := le_bytes 2 x.
Definition write_u32 (x : Z) : list Z := le_bytes 4 x.
Definition write_u64 (x : Z) : list Z := le_bytes 8 x.
Definition write_var_bytes (bs : list Z) : list Z := write_len (length bs) ++ bs.
Definition write_var_array (arr : list (list Z)) : list Z := write_len (length arr) ++ concat arr.

(** ** Transaction encoding *)

(** [TxEncodingFlags]. *)
Record TxEncodingFlags := {
  EXCLUDE_SIGNATURE_SCRIPT : bool;
  EXCLUDE_MASS_COMMIT : bool;
  EXCLUDE_PAYLOAD : bool }.
Definition FULL : TxEncodingFlags :=
  {| EXCLUDE_SIGNATURE_SCRIPT := false; EXCLUDE_MASS_COMMIT := false; EXCLUDE_PAYLOAD := false |}.

Definition version_expects_compute_budget_field (v : Z) : bool := 1 <=? v.
Definition version_expects_sig_op_count_field (v : Z) : bool :=
  negb (version_expects_compute_budget_field v).

Definition write_outpoint (o : TransactionOutpoint) : list Z :=
  transaction_id o ++ le_bytes 4 (index o).

Definition write_input (i : TransactionInput) (v : Z) (flags : TxEncodingFlags) : list Z :=
  write_outpoint (previous_outpoint i)
    ++ (if EXCLUDE_SIGNATURE_SCRIPT flags then write_var_bytes []
        else write_var_bytes (signature_script i)
               ++ (if version_expects_sig_op_count_field v
                   then [default 0 (sig_op_count (compute_commit i))] else []))
    ++ le_bytes 8 (sequence i)
    ++ (if negb (EXCLUDE_MASS_COMMIT flags) && version_expects_compute_budget_field v
        then write_u16 (default 0 (compute_budget (compute_commit i))) else []).

Definition write_covenant (c : option CovenantBinding) : list Z :=
  write_bool (match c with Some _ => true | None => false end)
    ++ match c with
       | Some b => write_u16 (authorizing_input b) ++ covenant_id b
       | None => []
       end.

Definition write_output (o : TransactionOutput) (v : Z) : list Z :=
  le_bytes 8 (value o) ++ le_bytes 2 (version (script_public_key o))
    ++ write_var_bytes (script (script_public_key o))
    ++ (if 1 <=? v then write_covenant (covenant o) else []).

Definition write_mass (tx : Transaction) (flags : TxEncodingFlags) : list Z :=
  if EXCLUDE_MASS_COMMIT flags then []
  else if tx_version tx <? 1
       then if 0 <? storage_mass tx then write_u64 (storage_mass tx) else []
       else write_u64 (storage_mass tx).

Definition write_transaction (tx : Transaction) (flags : TxEncodingFlags) : list Z :=
  le_bytes 2 (tx_version tx) ++ write_len (length (inputs tx))
    ++ flat_map (λ i, write_input i (tx_version tx) flags) (inputs tx)
    ++ write_len (length (outputs tx))
    ++ flat_map (λ o, write_output o (tx_version tx)) (outputs tx)
    ++ le_bytes 8 (lock_time tx) ++ subnetwork_id tx ++ le_bytes 8 (gas tx)
    ++ (if EXCLUDE_PAYLOAD flags then write_var_bytes [] else write_var_bytes (payload tx))
    ++ write_mass tx flags.

Definition v0_id_flags : TxEncodingFlags :=
  {| EXCLUDE_SIGNATURE_SCRIPT := true; EXCLUDE_MASS_COMMIT := true; EXCLUDE_PAYLOAD := false |}.
Definition write_transaction_v0_for_transaction_id (tx : Transaction) : list Z :=
  write_transaction tx v0_id_flags.
Definition rest_flags : TxEncodingFlags :=
  {| EXCLUDE_SIGNATURE_SCRIPT := true; EXCLUDE_MASS_COMMIT := true; EXCLUDE_PAYLOAD := true |}.
Definition write_rest_preimage (tx : Transaction) : list Z := write_transaction tx rest_flags.

Definition ZERO_PAYLOAD_DIGEST : Hash :=
  [156; 12; 162; 172; 180; 94; 146; 255; 230; 206; 180; 174; 41; 24; 139; 53; 200; 45; 150; 118;
   205; 211; 206; 6; 127; 214; 204; 195; 10; 156; 74; 56].

(** ** Signature hash types *)
Definition SIG_HASH_ALL : Z := 1.
Definition SIG_HASH_NONE : Z := 2.
Definition SIG_HASH_SINGLE : Z := 4.
Definition SIG_HASH_ANY_ONE_CAN_PAY : Z := 128.
Definition SIG_HASH_MASK : Z := 7.
Definition ALLOWED_SIG_HASH_TYPES_VALUES : list Z :=
  [SIG_HASH_ALL; SIG_HASH_NONE; SIG_HASH_SINGLE;
   Z.lor SIG_HASH_ALL SIG_HASH_ANY_ONE_CAN_PAY;
   Z.lor SIG_HASH_NONE SIG_HASH_ANY_ONE_CAN_PAY;
   Z.lor SIG_HASH_SINGLE SIG_HASH_ANY_ONE_CAN_PAY].
Definition is_sighash_all (t : Z) : bool := Z.land t SIG_HASH_MASK =? SIG_HASH_ALL.
Definition is_sighash_none (t : Z) : bool := Z.land t SIG_HASH_MASK =? SIG_HASH_NONE.
Definition is_sighash_single (t : Z) : bool := Z.land t SIG_HASH_MASK =? SIG_HASH_SINGLE.
Definition is_sighash_anyone_can_pay (t : Z) : bool :=
  Z.land t SIG_HASH_ANY_ONE_CAN_PAY =? SIG_HASH_ANY_ONE_CAN_PAY.
Definition sig_hash_from_u8 (v : Z) : option Z :=
  if existsb (Z.eqb v) ALLOWED_SIG_HASH_TYPES_VALUES then Some v else None.


Section hashes.
Context `{TxHashers}.

Definition tx_hash (tx : Transaction) : Hash := TransactionHash (write_transaction tx FULL).
Definition hash_pre_crescendo (tx : Transaction) : Hash :=
  TransactionHash (write_transaction tx
    {| EXCLUDE_SIGNATURE_SCRIPT := false; EXCLUDE_MASS_COMMIT := true; EXCLUDE_PAYLOAD := false |}).

Definition id_v0 (tx : Transaction) : TransactionId :=
  TransactionID (write_transaction_v0_for_transaction_id tx).
Definition payload_digest (p : list Z) : Hash :=
  match p with [] => ZERO_PAYLOAD_DIGEST | _ => PayloadDigest p end.
Definition id_v1 (tx : Transaction) : TransactionId :=
  TransactionV1Id (payload_digest (payload tx) ++ TransactionRest (write_rest_preimage tx)).
(** [hashing::tx::id]. *)
Definition tx_id (tx : Transaction) : TransactionId :=
  if tx_version tx =? 0 then id_v0 tx else id_v1 tx.

(** [Transaction::finalize] and [Transaction::new]. *)
Definition finalize (tx : Transaction) : Transaction :=
  mk_tx (tx_version tx) (inputs tx) (outputs tx) (lock_time tx) (subnetwork_id tx) (gas tx)
    (payload tx) (storage_mass tx) (tx_id tx).
Definition new_transaction (v : Z) (ins : list TransactionInput) (outs : list TransactionOutput)
    (lt : Z) (sub : SubnetworkId) (g : Z) (p : list Z) : Transaction :=
  finalize (mk_tx v ins outs lt sub g p 0 ZERO_HASH).

(** [covenant_id]. *)
Definition covenant_id_of (o : TransactionOutpoint) (auth : list (Z * TransactionOutput)) : Hash :=
  CovenantID (transaction_id o ++ write_u32 (index o) ++ write_len (length auth)
    ++ flat_map (λ io, write_u32 io.1 ++ write_u64 (value io.2)
                         ++ write_u16 (version (script_public_key io.2))
                         ++ write_var_bytes (script (script_public_key io.2))) auth).

(** *** Signature hash.  The reused values are a cache of the closed-over hashes. *)
Definition previous_outputs_hash (tx : Transaction) (t : Z) : Hash :=
  if is_sighash_anyone_can_pay t then ZERO_HASH
  else TransactionSigningHash
         (flat_map (λ i, transaction_id (previous_outpoint i)
                           ++ write_u32 (index (previous_outpoint i))) (inputs tx)).
Definition sequences_hash (tx : Transaction) (t : Z) : Hash :=
  if is_sighash_single t || is_sighash_anyone_can_pay t || is_sighash_none t then ZERO_HASH
  else TransactionSigningHash (flat_map (λ i, write_u64 (sequence i)) (inputs tx)).
Definition sig_op_counts_hash (tx : Transaction) (t : Z) : Hash :=
  if is_sighash_anyone_can_pay t then ZERO_HASH
  else TransactionSigningHash
         (flat_map (λ i, write_u8 (default 0 (sig_op_count (compute_commit i)))) (inputs tx)).
Definition payload_hash (tx : Transaction) : Hash :=
  if bool_decide (subnetwork_id tx = SUBNETWORK_ID_NATIVE) && bool_decide (payload tx = [])
  then ZERO_HASH
  else TransactionSigningHash (write_var_bytes (payload tx)).

Definition hash_script_public_key (spk : ScriptPublicKey) : list Z :=
  write_u16 (version spk) ++ write_var_bytes (script spk).
Definition hash_output (o : TransactionOutput) (v : Z) : list Z :=
  write_u64 (value o) ++ hash_script_public_key (script_public_key o)
    ++ (if 1 <=? v then write_covenant (covenant o) else []).
Definition outputs_hash (tx : Transaction) (t : Z) (input_index : nat) : Hash :=
  if is_sighash_none t then ZERO_HASH
  else if is_sighash_single t then
    match outputs tx !! input_index with
    | None => ZERO_HASH
    | Some o => TransactionSigningHash (hash_output o (tx_version tx))
    end
  else TransactionSigningHash (flat_map (λ o, hash_output o (tx_version tx)) (outputs tx)).

(** The preimage of [calc_schnorr_signature_hash] for input [i] with entry [e]. *)
Definition schnorr_preimage (tx : Transaction) (i : TransactionInput) (e : UtxoEntry)
    (input_index : nat) (t : Z) : list Z :=
  write_u16 (tx_version tx) ++ previous_outputs_hash tx t ++ sequences_hash tx t
    ++ (if tx_version tx <? 1 then sig_op_counts_hash tx t else [])
    ++ transaction_id (previous_outpoint i) ++ write_u32 (index (previous_outpoint i))
    ++ hash_script_public_key (entry_script_public_key e)
    ++ write_u64 (amount e) ++ write_u64 (sequence i)
    ++ (if tx_version tx <? 1 then write_u8 (default 0 (sig_op_count (compute_commit i))) else [])
    ++ outputs_hash tx t input_index ++ write_u64 (lock_time tx) ++ subnetwork_id tx
    ++ write_u64 (gas tx) ++ payload_hash tx ++ write_u8 t.

(** [populated_input] panics out of range. *)
Definition calc_schnorr_signature_hash {E} (ptx : PopulatedTransaction) (input_index : nat) (t : Z)
    : outcome E Hash :=
  i ← unwrap (inputs (pop_tx ptx) !! input_index);
  e ← unwrap (entries ptx !! input_index);
  Ok (TransactionSigningHash (schnorr_preimage (pop_tx ptx) i e input_index t)).
Definition calc_ecdsa_signature_hash {E} (ptx : PopulatedTransaction) (input_index : nat) (t : Z)
    : outcome E Hash :=
  h ← calc_schnorr_signature_hash ptx input_index t; Ok (TransactionSigningHashECDSA h).
End hashes.
