(* ===== verification/TxBinding.v ===== *)
(** * What transaction hashes bind

    Reading back the preimages of [TxHashing]: the encoding of a transaction under a set
    of flags determines exactly the fields the flags leave visible, so the transaction
    hash and the two id schemes bind what they are meant to bind, and a signature hash of
    type [SIG_HASH_ALL] binds the whole signing context up to collisions. *)

From S2P Require Import Prelude Transaction TxHashing NotePool.

(** ** Well-formed transactions: values of machine width, and the version-specific
    fields [check_tx_version_specific_fields] enforces *)

Definition bytes_ok (l : list Z) : Prop := in_u64 (Z.of_nat (length l)).
Definition outpoint_ok (o : TransactionOutpoint) : Prop :=
  hash_ok (transaction_id o) ∧ in_u32 (index o).
Definition commit_ok (v : Z) (c : ComputeCommit) : Prop :=
  match c with
  | SigopCount n => v < 1 ∧ byte_ok n
  | ComputeBudget n => 1 ≤ v ∧ in_u16 n
  end.
Definition input_ok (v : Z) (i : TransactionInput) : Prop :=
  outpoint_ok (previous_outpoint i) ∧ bytes_ok (signature_script i) ∧ in_u64 (sequence i) ∧
  commit_ok v (compute_commit i).
Definition spk_ok (s : ScriptPublicKey) : Prop := in_u16 (version s) ∧ bytes_ok (script s).
Definition covenant_ok (v : Z) (c : option CovenantBinding) : Prop :=
  match c with
  | Some b => 1 ≤ v ∧ in_u16 (authorizing_input b) ∧ hash_ok (covenant_id b)
  | None => True
  end.
Definition output_ok (v : Z) (o : TransactionOutput) : Prop :=
  in_u64 (value o) ∧ spk_ok (script_public_key o) ∧ covenant_ok v (covenant o).
Definition tx_ok (tx : Transaction) : Prop :=
  in_u16 (tx_version tx) ∧
  in_u64 (Z.of_nat (length (inputs tx))) ∧ Forall (input_ok (tx_version tx)) (inputs tx) ∧
  in_u64 (Z.of_nat (length (outputs tx))) ∧ Forall (output_ok (tx_version tx)) (outputs tx) ∧
  in_u64 (lock_time tx) ∧ byte_array 20 (subnetwork_id tx) ∧ in_u64 (gas tx) ∧
  bytes_ok (payload tx) ∧ in_u64 (storage_mass tx).

#[global] Instance bytes_ok_dec l : Decision (bytes_ok l).
Proof. unfold bytes_ok. apply _. Defined.
#[global] Instance outpoint_ok_dec o : Decision (outpoint_ok o).
Proof. unfold outpoint_ok. apply _. Defined.
#[global] Instance commit_ok_dec v c : Decision (commit_ok v c).
Proof. unfold commit_ok. destruct c; apply _. Defined.
#[global] Instance input_ok_dec v i : Decision (input_ok v i).
Proof. unfold input_ok. apply _. Defined.
#[global] Instance spk_ok_dec s : Decision (spk_ok s).
Proof. unfold spk_ok. apply _. Defined.
#[global] Instance covenant_ok_dec v c : Decision (covenant_ok v c).
Proof. unfold covenant_ok. destruct c; apply _. Defined.
#[global] Instance output_ok_dec v o : Decision (output_ok v o).
Proof. unfold output_ok. apply _. Defined.
#[global] Instance tx_ok_dec tx : Decision (tx_ok tx).
Proof. unfold tx_ok. apply _. Defined.

(** ** The visible part of a transaction under encoding flags *)
Definition visible_commit (v : Z) (fl : TxEncodingFlags) (c : ComputeCommit) : ComputeCommit :=
  match c with
  | SigopCount n => SigopCount (if EXCLUDE_SIGNATURE_SCRIPT fl then 0 else n)
  | ComputeBudget n => ComputeBudget (if EXCLUDE_MASS_COMMIT fl then 0 else n)
  end.
Definition visible_input (v : Z) (fl : TxEncodingFlags) (i : TransactionInput) : TransactionInput :=
  mk_input (previous_outpoint i)
    (if EXCLUDE_SIGNATURE_SCRIPT fl then [] else signature_script i)
    (sequence i) (visible_commit v fl (compute_commit i)).
Definition visible (fl : TxEncodingFlags) (tx : Transaction) : Transaction :=
  mk_tx (tx_version tx) (visible_input (tx_version tx) fl <$> inputs tx) (outputs tx)
    (lock_time tx) (subnetwork_id tx) (gas tx)
    (if EXCLUDE_PAYLOAD fl then [] else payload tx)
    (if EXCLUDE_MASS_COMMIT fl then 0 else storage_mass tx) [].

(** ** Reading fields back from the front *)
Lemma front_le n a b s t :
  0 ≤ a < 256 ^ Z.of_nat n → 0 ≤ b < 256 ^ Z.of_nat n →
  le_bytes n a ++ s = le_bytes n b ++ t → a = b ∧ s = t.
Proof.
  intros Ha Hb [Hab ->]%app_split_eq; [|by rewrite !length_le_bytes].
  split; [by eapply le_bytes_inj|done].
Qed.
Lemma front_u64 a b s t :
  in_u64 a → in_u64 b → le_bytes 8 a ++ s = le_bytes 8 b ++ t → a = b ∧ s = t.
Proof. unfold in_u64, u64_max. intros. apply (front_le 8); [simpl; lia..|done]. Qed.
Lemma front_u32 a b s t :
  in_u32 a → in_u32 b → le_bytes 4 a ++ s = le_bytes 4 b ++ t → a = b ∧ s = t.
Proof. unfold in_u32. intros. apply (front_le 4); [simpl; lia..|done]. Qed.
Lemma front_u16 a b s t :
  in_u16 a → in_u16 b → le_bytes 2 a ++ s = le_bytes 2 b ++ t → a = b ∧ s = t.
Proof. unfold in_u16. intros. apply (front_le 2); [simpl; lia..|done]. Qed.
Lemma front_array n a b s t :
  byte_array n a → byte_array n b → a ++ s = b ++ t → a = b ∧ s = t.
Proof. intros [Ha _] [Hb _]. apply app_split_eq. congruence. Qed.

Lemma front_var_bytes a b s t :
  bytes_ok a → bytes_ok b → write_var_bytes a ++ s = write_var_bytes b ++ t → a = b ∧ s = t.
Proof.
  unfold write_var_bytes, write_len, bytes_ok. intros Ha Hb Heq. rewrite <- !app_assoc in Heq.
  apply front_u64 in Heq as [Hl Heq]; [|done..]. apply app_split_eq in Heq; [done|lia].
Qed.

Lemma front_outpoint : prefix_inj outpoint_ok write_outpoint.
Proof.
  intros [h1 i1] [h2 i2] s t [Hh1 Hi1] [Hh2 Hi2]. unfold write_outpoint; cbn [transaction_id index].
  rewrite <- !app_assoc. intros Heq. apply (front_array 32) in Heq as [-> Heq]; [|done..].
  by apply front_u32 in Heq as [-> ->].
Qed.

Lemma front_covenant v : prefix_inj (λ c, covenant_ok v c) write_covenant.
Proof.
  intros [[a1 c1]|] [[a2 c2]|] s t H1 H2; unfold write_covenant, write_u16;
    cbn [write_bool authorizing_input covenant_id]; rewrite <- ?app_assoc; intros Heq;
    try (simplify_eq/=; done).
  destruct H1 as (_ & H1 & H1'), H2 as (_ & H2 & H2'); cbn [authorizing_input covenant_id] in *.
  apply app_split_eq in Heq as [_ Heq]; [|done].
  apply front_u16 in Heq as [-> Heq]; [|done..].
  apply (front_array 32) in Heq as [-> ->]; done.
Qed.

Lemma front_output v : prefix_inj (output_ok v) (λ o, write_output o v).
Proof.
  intros [v1 [sv1 s1] c1] [v2 [sv2 s2] c2] s t (H1 & [H1' H1''] & H1c) (H2 & [H2' H2''] & H2c).
  unfold write_output; cbn [value script_public_key version script covenant] in *.
  rewrite <- !app_assoc. intros Heq. apply front_u64 in Heq as [-> Heq]; [|done..].
  apply front_u16 in Heq as [-> Heq]; [|done..]. apply front_var_bytes in Heq as [-> Heq]; [|done..].
  destruct (Z.leb_spec 1 v).
  - by apply front_covenant with (v := v) in Heq as [-> ->].
  - destruct c1, c2; simpl in *; [lia..|done].
Qed.

Lemma front_u8 a b (s t : list Z) : a :: s = b :: t → a = b ∧ s = t.
Proof. by intros [= -> ->]. Qed.

(** Version 0 inputs carry a signature-operation count, later ones a compute budget. *)
Lemma expects_v0 v : v < 1 → version_expects_compute_budget_field v = false.
Proof. intros. by apply Z.leb_gt. Qed.
Lemma expects_v1 v : 1 ≤ v → version_expects_compute_budget_field v = true.
Proof. intros. by apply Z.leb_le. Qed.

Lemma front_input v fl :
  prefix_proj (input_ok v) (visible_input v fl) (λ i, write_input i v fl).
Proof.
  intros [o1 g1 q1 c1] [o2 g2 q2 c2] s t (Ho1 & Hg1 & Hq1 & Hc1) (Ho2 & Hg2 & Hq2 & Hc2).
  unfold write_input, visible_input, version_expects_sig_op_count_field.
  cbn [previous_outpoint signature_script sequence compute_commit] in *.
  rewrite <- !app_assoc. intros Heq. apply front_outpoint in Heq as [-> Heq]; [|done..].
  destruct c1 as [n1|n1], c2 as [n2|n2]; destruct Hc1 as [Hv1 Hn1], Hc2 as [Hv2 Hn2]; try lia;
    first [rewrite (expects_v0 v) in Heq by lia | rewrite (expects_v1 v) in Heq by lia];
    cbn [negb sig_op_count compute_budget default from_option Datatypes.id visible_commit] in *;
    rewrite ?andb_true_r, ?andb_false_r in Heq.
  - destruct (EXCLUDE_SIGNATURE_SCRIPT fl).
    + apply front_var_bytes in Heq as [_ Heq]; [|done..].
      rewrite !app_nil_l in Heq. by apply front_u64 in Heq as [-> ->].
    + rewrite <- !app_assoc in Heq. apply front_var_bytes in Heq as [-> Heq]; [|done..].
      apply front_u8 in Heq as [-> Heq]. rewrite !app_nil_l in Heq.
      by apply front_u64 in Heq as [-> ->].
  - assert (Hsig : (if EXCLUDE_SIGNATURE_SCRIPT fl then [] else g1) =
                   (if EXCLUDE_SIGNATURE_SCRIPT fl then [] else g2) ∧
      le_bytes 8 q1 ++ (if negb (EXCLUDE_MASS_COMMIT fl) then write_u16 n1 else []) ++ s =
      le_bytes 8 q2 ++ (if negb (EXCLUDE_MASS_COMMIT fl) then write_u16 n2 else []) ++ t).
    { destruct (EXCLUDE_SIGNATURE_SCRIPT fl).
      - by apply front_var_bytes in Heq as [_ ?].
      - rewrite !app_nil_r in Heq. by apply front_var_bytes in Heq as [-> ?]. }
    destruct Hsig as [-> Hq]. apply front_u64 in Hq as [-> Hq]; [|done..].
    destruct (EXCLUDE_MASS_COMMIT fl); cbn [negb] in Hq; [by simplify_list_eq|].
    by apply front_u16 in Hq as [-> ->].
Qed.

Lemma mass_inj tx1 tx2 fl :
  tx_version tx1 = tx_version tx2 → in_u64 (storage_mass tx1) → in_u64 (storage_mass tx2) →
  write_mass tx1 fl = write_mass tx2 fl →
  (if EXCLUDE_MASS_COMMIT fl then 0 else storage_mass tx1) =
  (if EXCLUDE_MASS_COMMIT fl then 0 else storage_mass tx2).
Proof.
  unfold write_mass. intros -> H1 H2. destruct (EXCLUDE_MASS_COMMIT fl); [done|].
  destruct (tx_version tx2 <? 1); [|by apply le_bytes_u64_inj].
  destruct (Z.ltb_spec 0 (storage_mass tx1)), (Z.ltb_spec 0 (storage_mass tx2));
    [by apply le_bytes_u64_inj|done..|]. unfold in_u64 in *. lia.
Qed.

Lemma write_input_visible v fl i : input_ok v i →
  write_input (visible_input v fl i) v fl = write_input i v fl.
Proof.
  intros (_ & _ & _ & Hc). destruct i as [o g q c]; destruct c as [n|n]; destruct Hc as [Hv _];
    unfold write_input, version_expects_sig_op_count_field; simpl;
    [rewrite (expects_v0 v) by done|rewrite (expects_v1 v) by done];
    by destruct fl as [[] [] ?].
Qed.

Lemma write_transaction_visible tx fl : tx_ok tx →
  write_transaction (visible fl tx) fl = write_transaction tx fl.
Proof.
  intros (_ & _ & Hi & _). unfold write_transaction, visible, write_mass.
  cbn [tx_version inputs outputs lock_time subnetwork_id gas payload storage_mass].
  rewrite length_fmap. f_equal. f_equal. f_equal.
  - induction Hi as [|i l Hi Hl IH]; [done|].
    rewrite fmap_cons. cbn [flat_map]. by rewrite IH, write_input_visible.
  - by destruct fl as [? [] []].
Qed.

Lemma write_transaction_inj tx1 tx2 fl :
  tx_ok tx1 → tx_ok tx2 → write_transaction tx1 fl = write_transaction tx2 fl →
  visible fl tx1 = visible fl tx2.
Proof.
  intros (Hv1 & Hni1 & Hi1 & Hno1 & Ho1 & Hl1 & Hs1 & Hg1 & Hp1 & Hm1)
    (Hv2 & Hni2 & Hi2 & Hno2 & Ho2 & Hl2 & Hs2 & Hg2 & Hp2 & Hm2) Heq.
  unfold write_transaction, write_len in Heq.
  apply front_u16 in Heq as [Hv Heq]; [|done..]. rewrite <- Hv in *.
  apply front_u64 in Heq as [Hni Heq]; [|done..].
  eapply prefix_proj_run in Heq as [Hi Heq]; [|apply front_input|done|done|lia].
  apply front_u64 in Heq as [Hno Heq]; [|done..].
  eapply prefix_inj_run in Heq as [Ho Heq]; [|apply front_output|done|done|lia].
  apply front_u64 in Heq as [Hl Heq]; [|done..].
  apply (front_array 20) in Heq as [Hs Heq]; [|done..].
  apply front_u64 in Heq as [Hg Heq]; [|done..].
  assert (Hp : (if EXCLUDE_PAYLOAD fl then [] else payload tx1) =
               (if EXCLUDE_PAYLOAD fl then [] else payload tx2) ∧
               write_mass tx1 fl = write_mass tx2 fl).
  { destruct (EXCLUDE_PAYLOAD fl); by apply front_var_bytes in Heq. }
  destruct Hp as [Hp Hm]. apply mass_inj in Hm; [|done..].
  unfold visible. by rewrite <- Hv, Hi, Ho, Hl, Hs, Hg, Hp, Hm.
Qed.

(** The encoding binds exactly the visible fields: two well-formed transactions have
    the same bytes under the encoding flags [fl] if and only if they agree on every field
    [fl] does not exclude (version, inputs, outputs, lock time, lane, gas; signature
    scripts, compute commitments, payload and mass where included). *)
Theorem write_transaction_exact tx1 tx2 fl :
  tx_ok tx1 → tx_ok tx2 →
  write_transaction tx1 fl = write_transaction tx2 fl ↔ visible fl tx1 = visible fl tx2.
Proof.
  intros H1 H2. split; [by apply write_transaction_inj|]. intros Heq.
  by rewrite <- (write_transaction_visible tx1), <- (write_transaction_visible tx2), Heq.
Qed.

Definition demo_spk : ScriptPublicKey := mk_spk 0 [32; 172].
Definition demo_input (sig : list Z) : TransactionInput :=
  mk_input (mk_outpoint (replicate 32 7) 3) sig 9 (ComputeBudget 5).
Definition demo_tx (sig : list Z) (mass : Z) : Transaction :=
  mk_tx 1 [demo_input sig] [mk_output 100 demo_spk None] 0 (from_byte 0) 0 [1; 2] mass [].

Lemma write_transaction_exact_witness :
  write_transaction (demo_tx [1] 5) v0_id_flags = write_transaction (demo_tx [2; 3] 6) v0_id_flags.
Proof.
  apply (write_transaction_exact (demo_tx [1] 5) (demo_tx [2; 3] 6) v0_id_flags);
    [by_decide|by_decide|reflexivity].
Defined.

(** ** Transaction ids *)
Definition collides (f : list Z → Hash) (a b : list Z) : Prop := a ≠ b ∧ f a = f b.

Lemma hash_eq_cases (f : list Z → Hash) a b : f a = f b → a = b ∨ collides f a b.
Proof. intros. destruct (decide (a = b)); [by left|by right]. Qed.

Section ids.
Context `{TxHashers}.
Hypothesis digest_len : ∀ b, length (PayloadDigest b) = 32%nat.
Hypothesis digest_empty : PayloadDigest [] = ZERO_PAYLOAD_DIGEST.

Lemma payload_digest_spec p : payload_digest p = PayloadDigest p.
Proof. by destruct p. Qed.

Definition v1_preimage (tx : Transaction) : list Z :=
  payload_digest (payload tx) ++ TransactionRest (write_rest_preimage tx).

(** The fields an id binds: all but signature scripts, compute commitments and mass. *)
Definition id_fields (tx : Transaction) : Transaction := visible v0_id_flags tx.

Lemma id_fields_rest tx1 tx2 :
  visible rest_flags tx1 = visible rest_flags tx2 → payload tx1 = payload tx2 →
  id_fields tx1 = id_fields tx2.
Proof.
  unfold id_fields, visible. cbn [EXCLUDE_PAYLOAD rest_flags v0_id_flags]. intros Heq ->.
  injection Heq as Hv Hi Ho Hl Hs Hg. rewrite Hv, Ho, Hl, Hs, Hg. f_equal.
  rewrite <- Hv in Hi |- *. exact Hi.
Qed.

(** One id of each scheme: the keyed hashes of the two schemes coincide on the preimages. *)
Definition schemes_meet (tx1 tx2 : Transaction) : Prop :=
  tx_version tx1 = 0 ∧ tx_version tx2 ≠ 0 ∧
  TransactionID (write_transaction tx1 v0_id_flags) = TransactionV1Id (v1_preimage tx2).

(** (C33) A transaction id binds the transaction up to signatures: two well-formed
    transactions, of whatever versions, with the same id agree on every field but signature
    scripts, compute commitments and mass, unless a hash collides on their own preimages:
    the id hash of their scheme, the payload digest or the hash of the rest, or, for a
    transaction of version 0 and one of a later version, the id hashes of the two schemes
    with each other; and transactions that agree on those fields have the same id. *)
Theorem tx_id_binds tx1 tx2 :
  tx_ok tx1 → tx_ok tx2 →
  (tx_id tx1 = tx_id tx2 →
   id_fields tx1 = id_fields tx2 ∨
   collides TransactionID (write_transaction tx1 v0_id_flags) (write_transaction tx2 v0_id_flags) ∨
   collides TransactionV1Id (v1_preimage tx1) (v1_preimage tx2) ∨
   collides PayloadDigest (payload tx1) (payload tx2) ∨
   collides TransactionRest (write_rest_preimage tx1) (write_rest_preimage tx2) ∨
   schemes_meet tx1 tx2 ∨ schemes_meet tx2 tx1) ∧
  (id_fields tx1 = id_fields tx2 → tx_id tx1 = tx_id tx2).
Proof.
  intros H1 H2. unfold tx_id, id_v0, id_v1, schemes_meet. fold (v1_preimage tx1) (v1_preimage tx2). split.
  - destruct (Z.eqb_spec (tx_version tx1) 0), (Z.eqb_spec (tx_version tx2) 0); [|intros; tauto|intros; do 6 right; done|].
    + intros [Heq|Hc]%hash_eq_cases; [|tauto]. left. by apply write_transaction_inj.
    + intros [Heq|Hc]%hash_eq_cases; [|tauto]. unfold v1_preimage in Heq.
      rewrite !payload_digest_spec in Heq. apply app_split_eq in Heq as [Hp Hr]; [|by rewrite !digest_len].
      apply hash_eq_cases in Hp as [Hp|]; [|tauto]. apply hash_eq_cases in Hr as [Hr|]; [|tauto].
      left. apply id_fields_rest; [by apply write_transaction_inj|done].
  - unfold id_fields. intros Heq. assert (Hv' : tx_version tx1 = tx_version tx2) by by injection Heq.
    assert (Hw : write_transaction tx1 v0_id_flags = write_transaction tx2 v0_id_flags).
    { by rewrite <- (write_transaction_visible tx1), <- (write_transaction_visible tx2), Heq. }
    unfold write_transaction_v0_for_transaction_id. rewrite Hw, Hv'.
    destruct (Z.eqb_spec (tx_version tx2) 0); [done|]. unfold v1_preimage.
    assert (Hp : payload tx1 = payload tx2) by by injection Heq.
    assert (Hr : write_rest_preimage tx1 = write_rest_preimage tx2); [|by rewrite Hp, Hr].
    unfold write_rest_preimage.
    rewrite <- (write_transaction_visible tx1), <- (write_transaction_visible tx2) by done.
    f_equal. unfold visible in *. injection Heq as _ Hi Ho Hl Hs Hg. cbn [EXCLUDE_PAYLOAD rest_flags].
    rewrite Hv' in Hi |- *. rewrite Ho, Hl, Hs, Hg. f_equal. exact Hi.
Qed.
End ids.

(** A concrete 32-byte hash function: pad and truncate. *)
Definition pad32 (b : list Z) : Hash := take 32 (b ++ replicate 32 0).
#[local] Instance pad_hashers : TxHashers :=
  {| TransactionHash := pad32; TransactionID := pad32; TransactionRest := pad32;
     TransactionV1Id := pad32;
     PayloadDigest := λ b, match b with [] => ZERO_PAYLOAD_DIGEST | _ => pad32 b end;
     TransactionSigningHash := λ b, 1 :: take 31 ((λ x, x mod 256) <$> b ++ replicate 31 0);
     TransactionSigningHashECDSA := pad32; CovenantID := pad32 |}.

Lemma length_pad32 b : length (pad32 b) = 32%nat.
Proof. unfold pad32. rewrite length_take, length_app, length_replicate. lia. Qed.

Lemma pad_digest_len b : length (PayloadDigest b) = 32%nat.
Proof. destruct b; [done|apply length_pad32]. Qed.

Lemma tx_id_binds_witness : tx_id (demo_tx [1] 5) = tx_id (demo_tx [2; 3] 6).
Proof.
  apply (tx_id_binds pad_digest_len eq_refl (demo_tx [1] 5) (demo_tx [2; 3] 6));
    [by_decide|by_decide|reflexivity].
Defined.

(** ** Signature hashes *)
Section sighash.
Context `{TxHashers}.
Hypothesis signing_ok : ∀ b, hash_ok (TransactionSigningHash b).

Definition prevouts_bytes (tx : Transaction) : list Z :=
  flat_map (λ i, transaction_id (previous_outpoint i) ++ write_u32 (index (previous_outpoint i)))
    (inputs tx).
Definition sequences_bytes (tx : Transaction) : list Z :=
  flat_map (λ i, write_u64 (sequence i)) (inputs tx).
Definition sigops_bytes (tx : Transaction) : list Z :=
  flat_map (λ i, write_u8 (default 0 (sig_op_count (compute_commit i)))) (inputs tx).
Definition outputs_bytes (tx : Transaction) : list Z :=
  flat_map (λ o, hash_output o (tx_version tx)) (outputs tx).

Definition sigop_counts (tx : Transaction) : list Z :=
  (λ i, default 0 (sig_op_count (compute_commit i))) <$> inputs tx.

(** Everything a [SIG_HASH_ALL] signature is meant to commit to. *)
Definition signed_fields (tx : Transaction) (i : TransactionInput) (e : UtxoEntry) :=
  (tx_version tx, previous_outpoint <$> inputs tx, sequence <$> inputs tx,
   (if tx_version tx <? 1 then sigop_counts tx else []),
   previous_outpoint i, entry_script_public_key e, amount e, sequence i,
   outputs tx, lock_time tx, subnetwork_id tx, gas tx, payload tx).

Definition entry_wf (e : UtxoEntry) : Prop :=
  spk_ok (entry_script_public_key e) ∧ in_u64 (amount e).
#[global] Instance entry_wf_dec e : Decision (entry_wf e).
Proof. unfold entry_wf. apply _. Defined.

(** The ways the signing hash itself can be broken on the two contexts. *)
Definition sighash_broken (tx1 tx2 : Transaction) : Prop :=
  collides TransactionSigningHash (prevouts_bytes tx1) (prevouts_bytes tx2) ∨
  collides TransactionSigningHash (sequences_bytes tx1) (sequences_bytes tx2) ∨
  collides TransactionSigningHash (sigops_bytes tx1) (sigops_bytes tx2) ∨
  collides TransactionSigningHash (outputs_bytes tx1) (outputs_bytes tx2) ∨
  collides TransactionSigningHash (write_var_bytes (payload tx1)) (write_var_bytes (payload tx2)) ∨
  TransactionSigningHash (write_var_bytes (payload tx1)) = ZERO_HASH ∨
  TransactionSigningHash (write_var_bytes (payload tx2)) = ZERO_HASH.

Lemma prevouts_bytes_inj tx1 tx2 :
  tx_ok tx1 → tx_ok tx2 → prevouts_bytes tx1 = prevouts_bytes tx2 →
  previous_outpoint <$> inputs tx1 = previous_outpoint <$> inputs tx2.
Proof.
  intros (_ & _ & H1 & _) (_ & _ & H2 & _). unfold prevouts_bytes.
  apply (prefix_proj_free (λ i, outpoint_ok (previous_outpoint i))).
  - intros x y s t Hx Hy Heq. by apply front_outpoint in Heq.
  - intros i [[Hl _] _] Hnil. apply app_nil in Hnil as [Hn _]. by rewrite Hn in Hl.
  - eapply Forall_impl; [done|]. by intros i (? & _).
  - eapply Forall_impl; [done|]. by intros i (? & _).
Qed.

Lemma sequences_bytes_inj tx1 tx2 :
  tx_ok tx1 → tx_ok tx2 → sequences_bytes tx1 = sequences_bytes tx2 →
  sequence <$> inputs tx1 = sequence <$> inputs tx2.
Proof.
  intros (_ & _ & H1 & _) (_ & _ & H2 & _). unfold sequences_bytes.
  apply (prefix_proj_free (λ i, in_u64 (sequence i))).
  - intros x y s t Hx Hy Heq. by apply front_u64 in Heq.
  - done.
  - eapply Forall_impl; [done|]. by intros i (_ & _ & ? & _).
  - eapply Forall_impl; [done|]. by intros i (_ & _ & ? & _).
Qed.

Lemma sigop_byte v i : input_ok v i → byte_ok (default 0 (sig_op_count (compute_commit i))).
Proof.
  intros (_ & _ & _ & Hc). destruct (compute_commit i); [by destruct Hc|]. unfold byte_ok; simpl; lia.
Qed.

Lemma sigops_bytes_inj tx1 tx2 :
  tx_ok tx1 → tx_ok tx2 → sigops_bytes tx1 = sigops_bytes tx2 → sigop_counts tx1 = sigop_counts tx2.
Proof.
  intros (_ & _ & H1 & _) (_ & _ & H2 & _). unfold sigops_bytes, sigop_counts.
  apply (prefix_proj_free (λ i, byte_ok (default 0 (sig_op_count (compute_commit i))))).
  - intros x y s t Hx Hy Heq. by apply (front_le 1) in Heq.
  - done.
  - eapply Forall_impl; [done|]. apply sigop_byte.
  - eapply Forall_impl; [done|]. apply sigop_byte.
Qed.

Lemma outputs_bytes_inj tx1 tx2 :
  tx_ok tx1 → tx_ok tx2 → tx_version tx1 = tx_version tx2 →
  outputs_bytes tx1 = outputs_bytes tx2 → outputs tx1 = outputs tx2.
Proof.
  intros (_ & _ & _ & _ & H1 & _) (_ & _ & _ & _ & H2 & _) Hv. unfold outputs_bytes.
  rewrite <- Hv in *. intros Heq. rewrite <- (list_fmap_id (outputs tx1)), <- (list_fmap_id (outputs tx2)).
  revert Heq. apply (prefix_proj_free (output_ok (tx_version tx1))); [|done..].
  intros x y s t Hx Hy Heq. apply front_output with (v := tx_version tx1); [done..|].
  unfold hash_output, hash_script_public_key in Heq. unfold write_output.
  rewrite <- !app_assoc in Heq |- *. exact Heq.
Qed.

Lemma payload_hash_cases tx1 tx2 :
  bytes_ok (payload tx1) → bytes_ok (payload tx2) → subnetwork_id tx1 = subnetwork_id tx2 →
  payload_hash tx1 = payload_hash tx2 →
  payload tx1 = payload tx2 ∨ sighash_broken tx1 tx2.
Proof.
  intros H1 H2 Hs. unfold payload_hash, sighash_broken. rewrite Hs.
  destruct (bool_decide (subnetwork_id tx2 = _)); cbn [andb].
  - repeat case_bool_decide; [left; congruence|intros; naive_solver..|].
    intros [Hp|]%hash_eq_cases; [|tauto]. left.
    apply (front_var_bytes _ _ [] []); by rewrite ?app_nil_r.
  - intros [Hp|]%hash_eq_cases; [|tauto]. left.
    apply (front_var_bytes _ _ [] []); by rewrite ?app_nil_r.
Qed.

Lemma zero_hash_ok : hash_ok ZERO_HASH.
Proof. by_decide. Qed.

Lemma payload_hash_ok tx : hash_ok (payload_hash tx).
Proof. unfold payload_hash. destruct (_ && _); [apply zero_hash_ok|apply signing_ok]. Qed.

(** The preimage for [SIG_HASH_ALL], with its four inner hashes. *)
Lemma schnorr_preimage_all tx i e n :
  schnorr_preimage tx i e n SIG_HASH_ALL =
    write_u16 (tx_version tx) ++ TransactionSigningHash (prevouts_bytes tx)
      ++ TransactionSigningHash (sequences_bytes tx)
      ++ (if tx_version tx <? 1 then TransactionSigningHash (sigops_bytes tx) else [])
      ++ write_outpoint (previous_outpoint i)
      ++ hash_script_public_key (entry_script_public_key e)
      ++ write_u64 (amount e) ++ write_u64 (sequence i)
      ++ (if tx_version tx <? 1 then write_u8 (default 0 (sig_op_count (compute_commit i))) else [])
      ++ TransactionSigningHash (outputs_bytes tx) ++ write_u64 (lock_time tx)
      ++ subnetwork_id tx ++ write_u64 (gas tx) ++ payload_hash tx ++ write_u8 SIG_HASH_ALL.
Proof. unfold schnorr_preimage, write_outpoint. by rewrite <- !app_assoc. Qed.

Lemma front_spk : prefix_inj spk_ok hash_script_public_key.
Proof.
  intros [v1 s1] [v2 s2] s t [H1 H1'] [H2 H2']. unfold hash_script_public_key, write_u16.
  cbn [version script] in *. rewrite <- !app_assoc. intros Heq.
  apply front_u16 in Heq as [-> Heq]; [|done..]. by apply front_var_bytes in Heq as [-> ->].
Qed.

Lemma front_hash a b s t :
  TransactionSigningHash a ++ s = TransactionSigningHash b ++ t →
  (a = b ∨ collides TransactionSigningHash a b) ∧ s = t.
Proof. intros [?%hash_eq_cases ->]%(front_array 32); [done|apply signing_ok..]. Qed.

(** A field that only version 0 writes. *)
Lemma front_hash_v0 (c : bool) a b s t :
  (if c then TransactionSigningHash a else []) ++ s =
  (if c then TransactionSigningHash b else []) ++ t →
  (c = false ∨ a = b ∨ collides TransactionSigningHash a b) ∧ s = t.
Proof. destruct c; [intros [? ->]%front_hash; tauto|tauto]. Qed.

Lemma front_u8_v0 (c : bool) a b s t :
  byte_ok a → byte_ok b →
  (if c then write_u8 a else []) ++ s = (if c then write_u8 b else []) ++ t → s = t.
Proof. intros Ha Hb. destruct c; [|done]. by intros [_ ->]%(front_le 1). Qed.

Lemma schnorr_preimage_inj tx1 tx2 i1 i2 e1 e2 n1 n2 :
  tx_ok tx1 → tx_ok tx2 → entry_wf e1 → entry_wf e2 →
  input_ok (tx_version tx1) i1 → input_ok (tx_version tx2) i2 →
  schnorr_preimage tx1 i1 e1 n1 SIG_HASH_ALL = schnorr_preimage tx2 i2 e2 n2 SIG_HASH_ALL →
  signed_fields tx1 i1 e1 = signed_fields tx2 i2 e2 ∨
  sighash_broken tx1 tx2.
Proof.
  intros H1 H2 [Hs1 Ha1] [Hs2 Ha2] Hi1 Hi2 Heq.
  pose proof H1 as (Hv1 & _ & _ & _ & _ & Hl1 & Hn1 & Hg1 & Hp1 & _).
  pose proof H2 as (Hv2 & _ & _ & _ & _ & Hl2 & Hn2 & Hg2 & Hp2 & _).
  pose proof Hi1 as (Ho1 & _ & Hq1 & _). pose proof Hi2 as (Ho2 & _ & Hq2 & _).
  rewrite !schnorr_preimage_all in Heq.
  apply front_u16 in Heq as [Hv Heq]; [|done..]. rewrite <- Hv in Heq.
  apply front_hash in Heq as [E1 Heq]. apply front_hash in Heq as [E2 Heq].
  apply front_hash_v0 in Heq as [E3 Heq].
  apply front_outpoint in Heq as [Ho Heq]; [|done..].
  apply front_spk in Heq as [Hs Heq]; [|done..].
  apply front_u64 in Heq as [Ha Heq]; [|done..].
  apply front_u64 in Heq as [Hq Heq]; [|done..].
  apply front_u8_v0 in Heq; [|by eapply sigop_byte..].
  apply front_hash in Heq as [E4 Heq]. apply front_u64 in Heq as [Hl Heq]; [|done..].
  apply (front_array 20) in Heq as [Hn Heq]; [|done..].
  apply front_u64 in Heq as [Hg Heq]; [|done..].
  apply (front_array 32) in Heq as [Hph _]; [|apply payload_hash_ok..].
  apply payload_hash_cases in Hph; [|done..].
  destruct E1 as [E1|]; [|unfold sighash_broken; tauto].
  destruct E2 as [E2|]; [|unfold sighash_broken; tauto].
  destruct E4 as [E4|]; [|unfold sighash_broken; tauto].
  destruct Hph as [Hp|]; [|tauto].
  assert (Hc : (if tx_version tx1 <? 1 then sigop_counts tx1 else []) =
               (if tx_version tx1 <? 1 then sigop_counts tx2 else []) ∨ sighash_broken tx1 tx2).
  { destruct E3 as [->|[E3%sigops_bytes_inj|]]; [by left|by rewrite E3; left|done..|].
    unfold sighash_broken; tauto. }
  destruct Hc as [Hc|]; [left|tauto]. unfold signed_fields.
  rewrite Hc, <- Hv, (prevouts_bytes_inj tx1 tx2), (sequences_bytes_inj tx1 tx2),
    (outputs_bytes_inj tx1 tx2), Ho, Hs, Ha, Hq, Hl, Hn, Hg, Hp by done. done.
Qed.

(** (C34) A [SIG_HASH_ALL] signature hash binds the signing context: two inputs of
    well-formed populated transactions with the same signature hash agree on the version,
    every spent outpoint and sequence, the signature-operation counts of version 0, the
    signed outpoint with its script and amount, every output, the lock time, the lane,
    the gas and the payload, unless the signing hash collides on their own preimages or
    maps a payload to the all-zero hash. *)
Theorem sighash_all_binds ptx1 ptx2 n1 n2 i1 i2 e1 e2 h :
  tx_ok (pop_tx ptx1) → tx_ok (pop_tx ptx2) →
  inputs (pop_tx ptx1) !! n1 = Some i1 → inputs (pop_tx ptx2) !! n2 = Some i2 →
  entries ptx1 !! n1 = Some e1 → entries ptx2 !! n2 = Some e2 → entry_wf e1 → entry_wf e2 →
  calc_schnorr_signature_hash (E := unit) ptx1 n1 SIG_HASH_ALL = Ok h →
  calc_schnorr_signature_hash (E := unit) ptx2 n2 SIG_HASH_ALL = Ok h →
  signed_fields (pop_tx ptx1) i1 e1 = signed_fields (pop_tx ptx2) i2 e2 ∨
  sighash_broken (pop_tx ptx1) (pop_tx ptx2) ∨
  collides TransactionSigningHash (schnorr_preimage (pop_tx ptx1) i1 e1 n1 SIG_HASH_ALL)
    (schnorr_preimage (pop_tx ptx2) i2 e2 n2 SIG_HASH_ALL).
Proof.
  intros H1 H2 Hi1 Hi2 He1 He2 Hw1 Hw2. unfold calc_schnorr_signature_hash.
  rewrite Hi1, Hi2, He1, He2. cbn [mbind outcome_bind unwrap].
  intros Heq1%Ok_inj Heq2%Ok_inj. rewrite <- Heq2 in Heq1.
  apply hash_eq_cases in Heq1 as [Heq|]; [|tauto].
  apply schnorr_preimage_inj in Heq; [tauto|done..| |].
  - destruct H1 as (_ & _ & H1 & _). by eapply Forall_lookup in H1.
  - destruct H2 as (_ & _ & H2 & _). by eapply Forall_lookup in H2.
Qed.
End sighash.

Definition demo_entry : UtxoEntry := mk_utxo 120 demo_spk 44 false None.

Lemma pad_signing_ok b : hash_ok (TransactionSigningHash b).
Proof.
  unfold hash_ok, byte_array. cbn [TransactionSigningHash pad_hashers]. split.
  - cbn [length]. rewrite length_take, length_fmap, length_app, length_replicate. lia.
  - constructor; [unfold byte_ok; lia|]. apply Forall_take, Forall_fmap, Forall_true.
    intros x. unfold byte_ok; simpl. by apply Z.mod_pos_bound.
Qed.

Lemma sighash_all_binds_witness :
  signed_fields (demo_tx [1] 5) (demo_input [1]) demo_entry =
    signed_fields (demo_tx [2; 3] 6) (demo_input [2; 3]) demo_entry.
Proof.
  assert (Hno : ¬ (sighash_broken (demo_tx [1] 5) (demo_tx [2; 3] 6) ∨
    collides TransactionSigningHash
      (schnorr_preimage (demo_tx [1] 5) (demo_input [1]) demo_entry 0 SIG_HASH_ALL)
      (schnorr_preimage (demo_tx [2; 3] 6) (demo_input [2; 3]) demo_entry 0 SIG_HASH_ALL))).
  { unfold sighash_broken, collides. intros Hb. vm_compute in Hb. naive_solver. }
  destruct (sighash_all_binds pad_signing_ok
    (mk_populated (demo_tx [1] 5) [demo_entry]) (mk_populated (demo_tx [2; 3] 6) [demo_entry]) 0 0
    (demo_input [1]) (demo_input [2; 3]) demo_entry demo_entry
    (TransactionSigningHash
      (schnorr_preimage (demo_tx [1] 5) (demo_input [1]) demo_entry 0 SIG_HASH_ALL)))
    as [Heq|Hb]; [by_decide|by_decide|done..| | | | |exact Heq|by destruct Hno].
  - by_decide.
  - by_decide.
  - reflexivity.
  - reflexivity.
Defined.
