(* ===== verification/MuHash.v ===== *)
(** * The multiset hash of the UTXO set

    [crypto/muhash/src/lib.rs] over the arithmetic of [U3072], and its use for UTXO sets
    in [consensus/core/src/muhash.rs].  Parameters: the element hash with its ChaCha20
    expansion to 384 bytes, the finalizing hash, the modular inverse.  The theorems state
    that adding transactions keeps the hash a function of the set, whatever the order
    and grouping. *)

From S2P Require Import Prelude Transaction Uint U3072 TxHashing UtxoAlgebra.

(** [MuHashElementHash] followed by [ChaCha20Rng::fill_bytes], and [MuHashFinalizeHash]. *)
Class MuHashers := {
  element_bytes : list Z → list Z;
  MuHashFinalizeHash : list Z → Hash }.

Record MuHash := mk_muhash { numerator : U3072; denominator : U3072 }.
Definition new_muhash : MuHash := mk_muhash one one.

Inductive OverflowError := MuHashOverflow.

Section muhash.
Context `{MuHashers} `{ModInverse}.

Definition data_to_element (data : list Z) : U3072 := u3072_from_le_bytes (element_bytes data).

Definition add_element {E} (self : MuHash) (data : list Z) : outcome E MuHash :=
  n ← mul (numerator self) (data_to_element data); Ok (mk_muhash n (denominator self)).
Definition remove_element {E} (self : MuHash) (data : list Z) : outcome E MuHash :=
  m ← mul (denominator self) (data_to_element data); Ok (mk_muhash (numerator self) m).
Definition combine {E} (self other : MuHash) : outcome E MuHash :=
  n ← mul (numerator self) (numerator other);
  m ← mul (denominator self) (denominator other);
  Ok (mk_muhash n m).

Definition normalize {E} (self : MuHash) : outcome E MuHash :=
  n ← div (numerator self) (denominator self); Ok (mk_muhash n one).
Definition serialize {E} (self : MuHash) : outcome E (MuHash * list Z) :=
  self ← normalize self; Ok (self, u3072_to_le_bytes (numerator self)).
Definition finalize {E} (self : MuHash) : outcome E (MuHash * Hash) :=
  r ← serialize self; Ok (r.1, MuHashFinalizeHash r.2).
Definition deserialize (data : list Z) : outcome OverflowError MuHash :=
  let n := u3072_from_le_bytes data in
  if is_overflow n then Err MuHashOverflow else Ok (mk_muhash n one).

(** ** UTXO sets *)
Definition write_utxo (e : UtxoEntry) (op : TransactionOutpoint) : list Z :=
  transaction_id op ++ le_bytes 4 (index op) ++ le_bytes 8 (block_daa_score e)
    ++ le_bytes 8 (amount e) ++ write_bool (entry_is_coinbase e)
    ++ le_bytes 2 (version (entry_script_public_key e))
    ++ write_var_bytes (script (entry_script_public_key e))
    ++ match entry_covenant_id e with Some id => id | None => [] end.

Definition add_utxo {E} (self : MuHash) (op : TransactionOutpoint) (e : UtxoEntry)
    : outcome E MuHash := add_element self (write_utxo e op).
Definition muhash_add_transaction {E} (self : MuHash) (ptx : PopulatedTransaction) (daa : Z)
    : outcome E MuHash :=
  let tx := pop_tx ptx in
  self ← try_fold (λ mh ie, remove_element mh (write_utxo ie.2 (previous_outpoint ie.1))) self
           (populated_inputs ptx);
  try_foldi (λ i mh o, add_utxo mh (created_outpoint (id tx) i)
                         (created_entry o daa (is_coinbase tx))) 0 self (outputs tx).
Definition from_transaction {E} (ptx : PopulatedTransaction) (daa : Z) : outcome E MuHash :=
  muhash_add_transaction new_muhash ptx daa.
Definition from_utxo {E} (op : TransactionOutpoint) (e : UtxoEntry) : outcome E MuHash :=
  add_utxo new_muhash op e.
End muhash.

(** ** Congruence modulo the prime *)
Definition cong (a b : Z) : Prop := a mod UINT_PRIME = b mod UINT_PRIME.
#[global] Instance cong_equiv : Equivalence cong.
Proof. unfold cong. split; [done|by intros ?|intros x y z; congruence]. Qed.
#[global] Instance mul_cong : Proper (cong ==> cong ==> cong) Z.mul.
Proof. intros a a' Ha b b' Hb. unfold cong in *. by rewrite Zmult_mod, Ha, Hb, <- Zmult_mod. Qed.

Lemma mul_cong_spec {E} a b :
  u3072_ok a → u3072_ok b →
  ∃ r, mul (E := E) a b = Ok r ∧ u3072_ok r ∧ cong (val r) (val a * val b).
Proof.
  intros Ha Hb. destruct (mul_spec (E := E) a b Ha Hb) as (r & -> & Hr & [k Hk] & _).
  exists r. split; [done|]. split; [done|].
  unfold cong. rewrite Hk, <- Z.add_opp_r, <- Z.mul_opp_l. apply Z_mod_plus_full.
Qed.

Section spec.
Context `{MuHashers} `{ModInverse}.
(** ChaCha20 fills 384 bytes. *)
Hypothesis element_ok : ∀ data, byte_array 384 (element_bytes data).

Lemma data_to_element_ok data : u3072_ok (data_to_element data).
Proof.
  destruct (element_ok data) as [Hlen Hb]. unfold data_to_element, u3072_from_le_bytes.
  split; [by rewrite length_fmap, length_reshape, length_replicate|].
  apply Forall_fmap, Forall_forall. intros chunk Hc. apply list_elem_of_lookup in Hc as [i Hi].
  assert (Hch : Forall byte_ok chunk ∧ (length chunk ≤ 8)%nat).
  { clear -Hb Hi. revert i Hi. generalize (element_bytes data) Hb. generalize LIMBS. clear.
    intros n. induction n as [|n IH]; intros l Hl i Hi; cbn [replicate reshape] in Hi; [done|].
    destruct i; cbn in Hi.
    - injection Hi as <-. split; [by apply Forall_take|]. rewrite length_take. lia.
    - eapply IH; [|done]. by apply Forall_drop. }
  destruct Hch as [Hch Hl]. pose proof (from_le_bytes_bound chunk Hch) as Hbd. cbn.
  assert (256 ^ Z.of_nat (length chunk) ≤ 256 ^ 8) by (apply Z.pow_le_mono_r; lia).
  change LIMB_BASE with (256 ^ 8). unfold limb_ok. change LIMB_BASE with (256 ^ 8). lia.
Qed.

(** ** What a hash stands for *)
Definition muhash_ok (mh : MuHash) : Prop := u3072_ok (numerator mh) ∧ u3072_ok (denominator mh).
Definition elem (op : TransactionOutpoint) (e : UtxoEntry) : Z :=
  val (data_to_element (write_utxo e op)).
Definition set_prod (m : UtxoCollection) : Z := map_fold (λ op e acc, elem op e * acc) 1 m.

Definition list_prod (l : list Z) : Z := foldr Z.mul 1 l.
(** A product of elements. *)
Definition element_product (r : Z) : Prop :=
  ∃ l : list (TransactionOutpoint * UtxoEntry), cong r (list_prod ((λ kv, elem kv.1 kv.2) <$> l)).

(** The hash of the set [m]; the denominator collects the elements removed on the way. *)
Record commits (mh : MuHash) (m : UtxoCollection) : Prop := {
  cm_ok : muhash_ok mh;
  cm_set : cong (val (numerator mh)) (val (denominator mh) * set_prod m);
  cm_removed : element_product (val (denominator mh)) }.
(** A hash with given numerator and denominator, up to congruence. *)
Definition ratio (mh : MuHash) (a r : Z) : Prop :=
  muhash_ok mh ∧ cong (val (numerator mh)) a ∧ cong (val (denominator mh)) r.

Definition spent_prod (ptx : PopulatedTransaction) : Z :=
  list_prod ((λ ie, elem (previous_outpoint ie.1) ie.2) <$> populated_inputs ptx).
Definition bindings (tx : Transaction) (daa : Z) : list (TransactionOutpoint * UtxoEntry) :=
  imap (λ i o, (created_outpoint (id tx) i, created_entry o daa (is_coinbase tx))) (outputs tx).
Definition created_prod (tx : Transaction) (daa : Z) : Z :=
  list_prod ((λ kv, elem kv.1 kv.2) <$> bindings tx daa).

Lemma ratio_new : ratio new_muhash 1 1.
Proof. split; [split; by_decide|]. split; reflexivity. Qed.

Lemma add_element_ratio {E} mh a r data :
  ratio mh a r → ∃ mh', add_element (E := E) mh data = Ok mh' ∧
    ratio mh' (a * val (data_to_element data)) r.
Proof.
  intros ([Hn Hd] & Ha & Hr). unfold add_element.
  destruct (mul_cong_spec (E := E) _ _ Hn (data_to_element_ok data)) as (n & -> & Hno & Hnc).
  eexists. split; [done|]. split; [by split|]. split; [|done]. cbn. by rewrite Hnc, Ha.
Qed.
Lemma remove_element_ratio {E} mh a r data :
  ratio mh a r → ∃ mh', remove_element (E := E) mh data = Ok mh' ∧
    ratio mh' a (r * val (data_to_element data)).
Proof.
  intros ([Hn Hd] & Ha & Hr). unfold remove_element.
  destruct (mul_cong_spec (E := E) _ _ Hd (data_to_element_ok data)) as (n & -> & Hno & Hnc).
  eexists. split; [done|]. split; [by split|]. split; [done|]. cbn. by rewrite Hnc, Hr.
Qed.
Lemma combine_ratio {E} mh1 mh2 a1 r1 a2 r2 :
  ratio mh1 a1 r1 → ratio mh2 a2 r2 →
  ∃ mh, combine (E := E) mh1 mh2 = Ok mh ∧ ratio mh (a1 * a2) (r1 * r2).
Proof.
  intros ([Hn1 Hd1] & Ha1 & Hr1) ([Hn2 Hd2] & Ha2 & Hr2). unfold combine.
  destruct (mul_cong_spec (E := E) _ _ Hn1 Hn2) as (n & -> & Hno & Hnc). cbn [mbind outcome_bind].
  destruct (mul_cong_spec (E := E) _ _ Hd1 Hd2) as (m & -> & Hmo & Hmc).
  eexists. split; [done|]. split; [by split|]. cbn. by rewrite Hnc, Hmc, Ha1, Ha2, Hr1, Hr2.
Qed.

Lemma add_transaction_ratio {E} mh a r ptx daa :
  ratio mh a r → ∃ mh', muhash_add_transaction (E := E) mh ptx daa = Ok mh' ∧
    ratio mh' (a * created_prod (pop_tx ptx) daa) (r * spent_prod ptx).
Proof.
  intros Hmh. unfold muhash_add_transaction, spent_prod, created_prod, bindings. cbv zeta.
  assert (Hin : ∃ mh1, try_fold (λ mh ie, remove_element (E := E) mh
      (write_utxo ie.2 (previous_outpoint ie.1))) mh (populated_inputs ptx) = Ok mh1 ∧
      ratio mh1 a (r * list_prod ((λ ie, elem (previous_outpoint ie.1) ie.2) <$> populated_inputs ptx))).
  { clear -Hmh element_ok. revert mh r Hmh. generalize (populated_inputs ptx). intros l. induction l as [|ie l IH]; intros mh r Hmh.
    { exists mh. split; [done|]. cbn. by rewrite Z.mul_1_r. }
    destruct (remove_element_ratio (E := E) _ _ _ (write_utxo ie.2 (previous_outpoint ie.1)) Hmh)
      as (mh1 & Hst & Hr1). cbn [try_fold]. rewrite Hst. cbn [mbind outcome_bind].
    destruct (IH _ _ Hr1) as (mh2 & -> & Hr2). exists mh2. split; [done|].
    cbn [fmap list_fmap list_prod foldr]. by rewrite Z.mul_assoc. }
  destruct Hin as (mh1 & -> & Hr1). cbn [mbind outcome_bind].
  set (R := r * _) in *. clearbody R. clear Hmh.
  set (out := λ (i : nat) o, (created_outpoint (id (pop_tx ptx)) i,
                              created_entry o daa (is_coinbase (pop_tx ptx)))).
  change (imap _ (outputs (pop_tx ptx))) with (imap (λ j, out (0 + j)%nat) (outputs (pop_tx ptx))).
  generalize 0%nat. revert mh1 a Hr1. induction (outputs (pop_tx ptx)) as [|o os IH]; intros mh1 a Hr1 n.
  { exists mh1. split; [done|]. cbn. by rewrite Z.mul_1_r. }
  cbn [try_foldi]. destruct (add_element_ratio (E := E) _ _ _
    (write_utxo (out n o).2 (out n o).1) Hr1) as (mh2 & Hst & Hr2).
  change (add_utxo (E := E) mh1 (created_outpoint (id (pop_tx ptx)) n)
    (created_entry o daa (is_coinbase (pop_tx ptx))) = Ok mh2) in Hst.
  rewrite Hst. cbn [mbind outcome_bind].
  destruct (IH _ _ Hr2 (S n)) as (mh3 & -> & Hr3). exists mh3. split; [done|].
  cbn [imap fmap list_fmap list_prod foldr]. rewrite Nat.add_0_r.
  rewrite Z.mul_assoc. erewrite imap_ext; [exact Hr3|]. intros j x _. cbn. by rewrite Nat.add_succ_r.
Qed.

(** ** Sets *)
Lemma set_prod_insert m op e : m !! op = None → set_prod (<[op := e]> m) = elem op e * set_prod m.
Proof. intros Hop. unfold set_prod. rewrite map_fold_insert_L; [done| |done]. intros; lia. Qed.
Lemma set_prod_delete m op e : m !! op = Some e → set_prod m = elem op e * set_prod (delete op m).
Proof.
  intros Hop. rewrite <- (insert_delete_id m op e) at 1 by done. apply set_prod_insert, lookup_delete_eq.
Qed.

Lemma set_prod_spend s ops es :
  NoDup ops → Forall2 (λ op e, s !! op = Some e) ops es →
  set_prod s = list_prod (zip_with elem ops es) * set_prod (delete_many s ops).
Proof.
  unfold delete_many. intros Hnd. revert s es. induction Hnd as [|op ops Hop Hnd IH]; intros s es Hf.
  { apply Forall2_nil_inv_l in Hf as ->. cbn. lia. }
  apply Forall2_cons_inv_l in Hf as (e & es' & He & Hf & ->). cbn [zip_with list_prod foldr foldl].
  rewrite (set_prod_delete s op e He), (IH (delete op s) es'); [unfold list_prod; lia|].
  apply Forall2_same_length_lookup_2; [by eapply Forall2_length|]. intros i op' e' Hi He'.
  rewrite lookup_delete_ne; [by apply (Forall2_lookup_lr _ _ _ _ _ _ Hf Hi He')|].
  intros ->. apply Hop. by eapply list_elem_of_lookup_2.
Qed.

Lemma set_prod_write s kvs :
  NoDup kvs.*1 → (∀ k, k ∈ kvs.*1 → s !! k = None) →
  set_prod (write_many s kvs) = list_prod ((λ kv, elem kv.1 kv.2) <$> kvs) * set_prod s.
Proof.
  unfold write_many. revert s. induction kvs as [|[k e] kvs IH]; intros s Hnd Hfree; [cbn; lia|].
  rewrite fmap_cons in Hnd, Hfree. apply NoDup_cons in Hnd as [Hk Hnd]. cbn [foldl fst snd].
  rewrite IH; [|done|].
  - rewrite set_prod_insert by (apply Hfree; left). cbn [fmap list_fmap list_prod foldr fst snd].
    unfold list_prod. lia.
  - intros k' Hk'. rewrite lookup_insert_ne; [apply Hfree; by right|]. intros ->. done.
Qed.

Lemma spent_prod_zip ptx :
  spent_prod ptx = list_prod (zip_with elem (previous_outpoint <$> inputs (pop_tx ptx)) (entries ptx)).
Proof.
  unfold spent_prod, populated_inputs. f_equal. generalize (entries ptx).
  induction (inputs (pop_tx ptx)) as [|i ins IH]; intros [|e es]; cbn; [done..|]. by rewrite IH.
Qed.

(** Applying a transaction to a set multiplies its product by the ratio. *)
Lemma tx_apply_prod s ptx daa :
  applicable s ptx →
  set_prod (tx_apply s (pop_tx ptx) daa) * spent_prod ptx = set_prod s * created_prod (pop_tx ptx) daa.
Proof.
  intros [Hent Hin Hnew Hcre]. unfold tx_apply, create_outputs, spend_inputs.
  destruct (created_bindings (pop_tx ptx) daa) as [Hk _].
  fold (bindings (pop_tx ptx) daa) in *. rewrite set_prod_write; [| |].
  - rewrite (set_prod_spend s (previous_outpoint <$> inputs (pop_tx ptx)) (entries ptx));
      [|done|by apply Forall2_fmap_l]. rewrite <- spent_prod_zip. unfold created_prod. lia.
  - by rewrite Hk.
  - rewrite Hk. intros op Hop. rewrite delete_many_lookup. case_decide; [done|by apply Hnew].
Qed.

Lemma list_prod_app l1 l2 : list_prod (l1 ++ l2) = list_prod l1 * list_prod l2.
Proof. unfold list_prod. induction l1 as [|x l1 IH]; cbn [app foldr]; [lia|]. rewrite IH. lia. Qed.

Lemma element_product_one : element_product 1.
Proof. by exists []. Qed.
Lemma element_product_mul a b : element_product a → element_product b → element_product (a * b).
Proof. intros [l1 H1] [l2 H2]. exists (l1 ++ l2). by rewrite fmap_app, list_prod_app, H1, H2. Qed.
Lemma spent_element_product ptx : element_product (spent_prod ptx).
Proof.
  exists ((λ ie, (previous_outpoint ie.1, ie.2)) <$> populated_inputs ptx). by rewrite <- list_fmap_compose.
Qed.

Lemma commits_step mh mh' a r s s' :
  commits mh s → ratio mh' (val (numerator mh) * a) (val (denominator mh) * r) → element_product r →
  set_prod s' * r = set_prod s * a → commits mh' s'.
Proof.
  intros [Hok Hc He] (Hok' & Hn & Hd) Hr Heq. split; [done| |].
  - rewrite Hn, Hd, Hc. rewrite <- !Z.mul_assoc, <- Heq, (Z.mul_comm r). reflexivity.
  - destruct (element_product_mul _ _ He Hr) as [l Hl]. exists l. by rewrite Hd.
Qed.

Lemma commits_self mh s : commits mh s → ratio mh (val (numerator mh)) (val (denominator mh)).
Proof. intros [Hok _ _]. split; [done|]. by split. Qed.

Lemma combine_commits {E} mh dl s s' a r :
  commits mh s → ratio dl a r → element_product r → set_prod s' * r = set_prod s * a →
  ∃ mh', combine (E := E) mh dl = Ok mh' ∧ commits mh' s'.
Proof.
  intros Hc Hr He Heq. destruct (combine_ratio (E := E) _ _ _ _ _ _ (commits_self _ _ Hc) Hr) as (mh' & Hm & Hr').
  exists mh'. split; [done|]. by eapply commits_step.
Qed.

Lemma add_transaction_commits {E} mh s ptx daa :
  commits mh s → applicable s ptx →
  ∃ mh', muhash_add_transaction (E := E) mh ptx daa = Ok mh' ∧
    commits mh' (tx_apply s (pop_tx ptx) daa).
Proof.
  intros Hc Happ. destruct (add_transaction_ratio (E := E) _ _ _ ptx daa (commits_self _ _ Hc))
    as (mh' & Hm & Hr). exists mh'. split; [done|]. eapply commits_step; [done..|apply spent_element_product|]. by apply tx_apply_prod.
Qed.

Lemma from_transaction_ratio {E} ptx daa :
  ∃ dl, from_transaction (E := E) ptx daa = Ok dl ∧
    ratio dl (created_prod (pop_tx ptx) daa) (spent_prod ptx).
Proof.
  destruct (add_transaction_ratio (E := E) _ _ _ ptx daa ratio_new) as (dl & Hm & Hr).
  exists dl. split; [done|]. by rewrite !Z.mul_1_l in Hr.
Qed.

(** (C16) The multiset hash follows the UTXO set: from a hash of the set [s], adding an
    applicable transaction directly, or computing its own hash and combining it as the
    parallel validation does, succeeds and yields a hash of the set with the inputs
    spent and the outputs created. *)
Theorem muhash_tracks_utxo_set {E} mh s ptx daa :
  commits mh s → applicable s ptx →
  (∃ mh', muhash_add_transaction (E := E) mh ptx daa = Ok mh' ∧
     commits mh' (tx_apply s (pop_tx ptx) daa)) ∧
  ∃ mh', (dl ← from_transaction (E := E) ptx daa; combine mh dl) = Ok mh' ∧
     commits mh' (tx_apply s (pop_tx ptx) daa).
Proof.
  intros Hc Happ. split; [by apply add_transaction_commits|].
  destruct (from_transaction_ratio (E := E) ptx daa) as (dl & -> & Hr). cbn [mbind outcome_bind].
  eapply combine_commits; [done..|apply spent_element_product|]. by apply tx_apply_prod.
Qed.

(** The commitment of a set: the hash of the product of its elements. *)
Definition commitment_of (s : UtxoCollection) : Hash :=
  MuHashFinalizeHash (u3072_to_le_bytes (to_limbs LIMBS (set_prod s mod UINT_PRIME))).

Lemma finalize_commits {E} mh s i :
  commits mh s → inverse_of (val (denominator mh) mod UINT_PRIME) i →
  ∃ mh', finalize (E := E) mh = Ok (mh', commitment_of s) ∧ commits mh' s ∧ denominator mh' = one.
Proof.
  intros [[Hn Hd] Hc _] Hi. destruct (div_spec (E := E) _ _ i Hn Hd Hi) as (r & Hdiv & Hr & Hv).
  destruct Hi as (_ & _ & Hinv). rewrite Zmult_mod_idemp_l in Hinv.
  assert (Hval : val r = set_prod s mod UINT_PRIME).
  { rewrite Hv. fold (cong (val (numerator mh) * i) (set_prod s)). rewrite Hc.
    rewrite <- Z.mul_assoc, (Z.mul_comm (set_prod s)), Z.mul_assoc.
    assert (Hone : cong (val (denominator mh) * i) 1) by (unfold cong; by rewrite Hinv).
    rewrite Hone. by rewrite Z.mul_1_l. }
  exists (mk_muhash r one). unfold finalize, serialize, normalize. rewrite Hdiv. cbn [mbind outcome_bind numerator fst snd].
  split.
  - unfold commitment_of. do 4 f_equal. destruct (to_limbs_ok LIMBS (set_prod s mod UINT_PRIME)) as [Hl Hf].
    apply val_inj; [by rewrite Hl; apply Hr|apply Hr|done|]. rewrite Hval, val_to_limbs; [done|].
    change (LIMB_BASE ^ Z.of_nat LIMBS) with W. pose proof (val_ok r Hr). lia.
  - split; [|done]. split; [split; [done|by_decide]| |apply element_product_one]. cbn [numerator denominator]. change (val one) with 1.
    rewrite Z.mul_1_l. unfold cong. rewrite Hval. by apply Z.mod_mod.
Qed.

(** (C35) The commitment is a function of the set: finalizing any hash of [s], whatever the
    sequence of additions, removals and combinations that built it, returns the hash of
    the product of the elements of [s] modulo the prime, provided the inverse of its
    denominator is delivered. *)
Theorem utxo_commitment_canonical {E} mh s i :
  commits mh s → inverse_of (val (denominator mh) mod UINT_PRIME) i →
  ∃ mh', finalize (E := E) mh =
    Ok (mh', MuHashFinalizeHash (u3072_to_le_bytes (to_limbs LIMBS (set_prod s mod UINT_PRIME)))) ∧
    commits mh' s.
Proof. intros Hc Hi. destruct (finalize_commits (E := E) mh s i Hc Hi) as (mh' & ? & ? & _). by exists mh'. Qed.

Lemma commits_empty : commits new_muhash ∅.
Proof.
  destruct ratio_new as (Hok & Hn & Hd). split; [done| |destruct element_product_one as [l Hl]; exists l; by rewrite Hd].
  rewrite Hn, Hd. unfold set_prod. by rewrite map_fold_empty.
Qed.
(** Every set has a hash. *)
Lemma commits_exist (m : UtxoCollection) : ∃ mh, commits mh m.
Proof.
  induction m as [|op e m Hop [mh Hmh]] using map_ind.
  { exists new_muhash. apply commits_empty. }
  destruct (add_element_ratio (E := unit) mh _ _ (write_utxo e op) (commits_self _ _ Hmh)) as (mh' & _ & Hr).
  exists mh'. apply (commits_step mh mh' (elem op e) 1 m); [done| |apply element_product_one|].
  - by rewrite Z.mul_1_r.
  - rewrite set_prod_insert by done. lia.
Qed.

Lemma singleton_commits op e :
  commits (mk_muhash (data_to_element (write_utxo e op)) one) {[op := e]}.
Proof.
  split; [split; [by apply data_to_element_ok|by_decide]| |apply element_product_one].
  rewrite <- insert_empty, set_prod_insert by done. unfold set_prod. rewrite map_fold_empty. cbn [numerator denominator].
  fold (elem op e). generalize (elem op e). intros x. change (val one) with 1. rewrite Z.mul_1_l, Z.mul_1_r. reflexivity.
Qed.
End spec.

(** ** A concrete element hash and set *)
#[local] Instance demo_muhashers : MuHashers :=
  {| element_bytes := λ data, take 384 (((λ b, b mod 256) <$> data) ++ replicate 384 1);
     MuHashFinalizeHash := λ b, take 32 b |}.
#[local] Instance unit_inverse : ModInverse :=
  {| mod_inverse := λ x _, if x =? 1 then Some 1 else None |}.

Lemma demo_element_ok data : byte_array 384 (element_bytes data).
Proof.
  split; [unfold element_bytes, demo_muhashers; rewrite length_take, length_app, length_replicate; lia|].
  apply Forall_take, Forall_app. split; [|by apply Forall_replicate; unfold byte_ok; lia].
  apply Forall_fmap, Forall_forall. intros b _. apply Z.mod_pos_bound. lia.
Qed.

Definition demo_set8 : UtxoCollection := {[ demo_op 1 := demo_utxo 50 8 ]}.
Definition demo_muhash : MuHash :=
  mk_muhash (data_to_element (write_utxo (demo_utxo 50 8) (demo_op 1))) one.
Lemma demo_commits : commits demo_muhash demo_set8.
Proof. apply singleton_commits, demo_element_ok. Qed.

Lemma muhash_tracks_utxo_set_witness :
  ∃ mh', muhash_add_transaction (E := unit) demo_muhash demo_ptx 20 = Ok mh' ∧
    commits mh' (tx_apply demo_set8 (pop_tx demo_ptx) 20).
Proof.
  refine (proj1 (muhash_tracks_utxo_set (E := unit) demo_element_ok demo_muhash demo_set8 demo_ptx 20
    demo_commits _)).
  split.
  - constructor; [vm_compute; reflexivity|constructor].
  - by_decide.
  - intros op Hop. apply list_elem_of_In in Hop. vm_compute in Hop.
    destruct Hop as [<-|[<-|[]]]; vm_compute; reflexivity.
  - by_decide.
Defined.

Lemma utxo_commitment_canonical_witness :
  ∃ mh', finalize (E := unit) demo_muhash =
    Ok (mh', MuHashFinalizeHash (u3072_to_le_bytes (to_limbs LIMBS (set_prod demo_set8 mod UINT_PRIME)))).
Proof.
  destruct (utxo_commitment_canonical (E := unit) demo_muhash demo_set8 1
    demo_commits) as (mh' & Hf & _).
  - split; [vm_compute; reflexivity|]. split; [|vm_compute; reflexivity].
    split; [done|vm_compute; reflexivity].
  - exists mh'. exact Hf.
Defined.
