(* ===== verification/Merkle.v ===== *)
(** * Merkle roots

    [crypto/merkle/src/lib.rs] and [consensus/core/src/merkle.rs]: the root computed in
    place in an array of optional hashes, and the roots over transactions.  Parameter:
    the branch hash.  The theorems state that the array code computes the layer-by-layer
    root and that the root binds the list of leaves. *)

From S2P Require Import Prelude Transaction TxHashing TxBinding.

Class MerkleHasher := { MerkleBranchHash : list Z → Hash }.

Section merkle.
Context `{MerkleHasher}.

Definition merkle_hash (left right : Hash) : Hash := MerkleBranchHash (left ++ right).

(** [usize::next_power_of_two]. *)
Definition next_power_of_two (n : nat) : nat := (2 ^ Nat.log2_up n)%nat.

(** One iteration: the node at [offset] from the pair at [i]; indexing panics out of range. *)
Definition merkle_step {E} (merkles : list (option Hash)) (oi : nat * nat)
    : outcome E (list (option Hash)) :=
  let '(offset, i) := oi in
  node ← unwrap (merkles !! i);
  v ← match node with
      | None => Ok None
      | Some l => right ← unwrap (merkles !! (i + 1)%nat);
                  Ok (Some (merkle_hash l (default ZERO_HASH right)))
      end;
  if (offset <? length merkles)%nat then Ok (<[offset := v]> merkles) else Panic.

Definition calc_merkle_root {E} (hashes : list Hash) : outcome E Hash :=
  match hashes with
  | [] => Ok ZERO_HASH
  | [h] => Ok h
  | _ =>
      let next_pot := next_power_of_two (length hashes) in
      let vec_len := (2 * next_pot - 1)%nat in
      let merkles := (Some <$> hashes) ++ replicate (vec_len - length hashes) None in
      merkles ← try_fold merkle_step merkles
        (zip (seq next_pot (next_pot - 1)) ((λ k, 2 * k)%nat <$> seq 0 (next_pot - 1)));
      l ← unwrap (last merkles);
      unwrap l
  end.
End merkle.

(** [core/src/merkle.rs]. *)
Section transactions.
Context `{MerkleHasher} `{TxHashers}.

Definition calc_hash_merkle_root {E} (txs : list Transaction) : outcome E Hash :=
  calc_merkle_root (tx_hash <$> txs).
End transactions.

(** ** The root, layer by layer *)
Section spec.
Context `{MerkleHasher}.

Fixpoint layer (hs : list Hash) : list Hash :=
  match hs with
  | a :: b :: hs => merkle_hash a b :: layer hs
  | [a] => [merkle_hash a ZERO_HASH]
  | [] => []
  end.
Definition layers (h : nat) (hs : list Hash) : list Hash := Nat.iter h layer hs.
Definition merkle_root (hs : list Hash) : Hash :=
  hd ZERO_HASH (layers (Nat.log2_up (length hs)) hs).

(** *** The array holds the layers one after the other *)
Definition node (a b : option Hash) : option Hash :=
  (λ l, merkle_hash l (default ZERO_HASH b)) <$> a.
Fixpoint pairup (l : list (option Hash)) : list (option Hash) :=
  match l with a :: b :: l => node a b :: pairup l | _ => [] end.

Lemma list_pair_ind {A} (P : list A → Prop) :
  P [] → (∀ a, P [a]) → (∀ a b l, P l → P (a :: b :: l)) → ∀ l, P l.
Proof.
  intros H0 H1 H2 l. assert (P l ∧ ∀ a, P (a :: l)) as [? _]; [|done].
  induction l as [|b l [IH1 IH2]]; split; auto.
Qed.

Lemma merkle_step_pair {E} pre todo out r a b :
  merkle_step (E := E) (pre ++ (a :: b :: todo) ++ out ++ None :: r)
    (length (pre ++ (a :: b :: todo) ++ out), length pre) =
  Ok ((pre ++ [a; b]) ++ todo ++ (out ++ [node a b]) ++ r).
Proof.
  unfold merkle_step. cbn [app].
  rewrite (lookup_app_r pre _ (length pre)), Nat.sub_diag by lia.
  rewrite (lookup_app_r pre _ (length pre + 1)) by lia.
  replace (length pre + 1 - length pre)%nat with 1%nat by lia.
  cbn [lookup list_lookup unwrap mbind outcome_bind].
  replace (match a with None => _ | Some _ => _ end) with (Ok (E := E) (node a b)) by (by destruct a).
  cbn [mbind outcome_bind].
  rewrite (proj2 (Nat.ltb_lt _ _)) by (rewrite !length_app; cbn; rewrite ?length_app; cbn; lia). f_equal.
  replace (pre ++ a :: b :: todo ++ out ++ None :: r)
    with ((pre ++ a :: b :: todo ++ out) ++ None :: r) by (rewrite <- !app_assoc; cbn; by rewrite <- app_assoc).
  rewrite <- (Nat.add_0_r (length _)), insert_app_r. cbn [insert list_insert].
  rewrite <- !app_assoc. cbn. by rewrite <- !app_assoc.
Qed.

Lemma merkle_layer {E} m : ∀ pre todo out k r,
  length todo = (2 * m)%nat → length pre = (2 * k)%nat →
  try_fold (merkle_step (E := E)) (pre ++ todo ++ out ++ replicate (m + r) None)
    (zip (seq (length (pre ++ todo ++ out)) m) ((λ k, 2 * k)%nat <$> seq k m)) =
  Ok (pre ++ todo ++ out ++ pairup todo ++ replicate r None).
Proof.
  induction m as [|m IH]; intros pre todo out k r Ht Hp.
  { apply nil_length_inv in Ht as ->. done. }
  destruct todo as [|a [|b todo]]; [done|cbn in Ht; lia|].
  cbn [seq fmap list_fmap zip zip_with try_fold Nat.add replicate]. rewrite <- Hp, merkle_step_pair.
  cbn [mbind outcome_bind].
  replace (S (length (pre ++ (a :: b :: todo) ++ out)))
    with (length ((pre ++ [a; b]) ++ todo ++ (out ++ [node a b])))
    by (rewrite !length_app; cbn; rewrite ?length_app; cbn; lia).
  rewrite (IH (pre ++ [a; b]) todo (out ++ [node a b]) (S k) r);
    [|cbn in Ht; lia|rewrite length_app; cbn; lia].
  cbn [pairup]. rewrite <- !app_assoc. done.
Qed.

Lemma length_pairup l m : length l = (2 * m)%nat → length (pairup l) = m.
Proof.
  revert l. induction m as [|m IH]; intros [|a [|b l]] Hl; cbn in *; try lia. f_equal. apply IH. lia.
Qed.

Lemma merkle_run {E} h : ∀ pre lvl k,
  length lvl = (2 ^ h)%nat → length pre = (2 * k)%nat →
  ∃ pre', try_fold (merkle_step (E := E)) (pre ++ lvl ++ replicate (2 ^ h - 1) None)
    (zip (seq (length (pre ++ lvl)) (2 ^ h - 1)) ((λ k, 2 * k)%nat <$> seq k (2 ^ h - 1))) =
  Ok (pre' ++ Nat.iter h pairup lvl).
Proof.
  induction h as [|h IH]; intros pre lvl k Hl Hp.
  { exists pre. cbn. by rewrite app_nil_r. }
  rewrite Nat.pow_succ_r' in Hl |- *. assert (0 < 2 ^ h)%nat by (apply Nat.neq_0_lt_0, Nat.pow_nonzero; lia).
  replace (2 * 2 ^ h - 1)%nat with (2 ^ h + (2 ^ h - 1))%nat by lia.
  rewrite !seq_app, fmap_app, zip_with_app by (by rewrite length_fmap, !length_seq).
  rewrite try_fold_app.
  pose proof (merkle_layer (E := E) (2 ^ h) pre lvl [] k (2 ^ h - 1) Hl Hp) as Hm.
  rewrite !app_nil_r in Hm. cbn [app] in Hm. rewrite Hm. cbn [mbind outcome_bind].
  destruct (IH (pre ++ lvl) (pairup lvl) (k + 2 ^ h)%nat) as (pre' & Hf).
  { by apply length_pairup. } { rewrite length_app. lia. }
  exists pre'. rewrite Nat.iter_succ_r, <- Hf, <- !app_assoc.
  by rewrite !length_app, (length_pairup _ _ Hl), Hl, <- Nat.add_assoc.
Qed.

(** *** The layers of hashes in the layers of the padded array *)
Lemma pairup_none m : pairup (replicate (2 * m) None) = replicate m None.
Proof.
  induction m as [|m IH]; [done|]. replace (2 * S m)%nat with (S (S (2 * m))) by lia.
  cbn [replicate pairup node fmap option_fmap option_map]. by rewrite IH.
Qed.

Lemma pairup_layer hs : ∀ n m, (length hs + n = 2 * m)%nat →
  pairup ((Some <$> hs) ++ replicate n None) =
    (Some <$> layer hs) ++ replicate (m - length (layer hs)) None.
Proof.
  induction hs as [|a|a b hs IH] using list_pair_ind; intros n m Hn; cbn [length] in Hn.
  - cbn [fmap list_fmap app layer length]. rewrite Nat.sub_0_r. replace n with (2 * m)%nat by lia. apply pairup_none.
  - destruct m as [|m]; [lia|]. destruct n as [|n]; [lia|]. replace n with (2 * m)%nat by lia.
    cbn [fmap list_fmap app replicate pairup layer length]. rewrite pairup_none. by rewrite Nat.sub_succ, Nat.sub_0_r.
  - destruct m as [|m]; [lia|]. cbn [fmap list_fmap app pairup layer length].
    rewrite (IH n m) by lia. done.
Qed.

Lemma layer_bounds hs h :
  (1 ≤ length hs ≤ 2 ^ S h)%nat → (1 ≤ length (layer hs) ≤ 2 ^ h)%nat.
Proof.
  rewrite Nat.pow_succ_r'. generalize (2 ^ h)%nat. intros m. revert m.
  induction hs as [|a|a b hs IH] using list_pair_ind; intros m; cbn [length layer]; [lia..|].
  intros Hl. destruct hs as [|c hs]; [cbn; lia|]. specialize (IH (m - 1)%nat). cbn [length] in *. lia.
Qed.

Lemma layers_pairup h : ∀ hs, (1 ≤ length hs ≤ 2 ^ h)%nat →
  Nat.iter h pairup ((Some <$> hs) ++ replicate (2 ^ h - length hs) None) = Some <$> layers h hs ∧
  length (layers h hs) = 1%nat.
Proof.
  induction h as [|h IH]; intros hs Hl.
  { cbn in *. replace (1 - length hs)%nat with 0%nat by lia. rewrite app_nil_r. split; [done|lia]. }
  pose proof (layer_bounds hs h Hl) as Hb. destruct (IH (layer hs) Hb) as [IH1 IH2].
  unfold layers in *. rewrite !Nat.iter_succ_r. split; [|done].
  rewrite (pairup_layer hs _ (2 ^ h)); [done|]. rewrite Nat.pow_succ_r' in *. lia.
Qed.

Lemma calc_merkle_root_eq {E} hs : calc_merkle_root (E := E) hs = Ok (merkle_root hs).
Proof.
  destruct hs as [|a [|b hs]]; [done..|]. unfold calc_merkle_root. set (l := a :: b :: hs).
  unfold next_power_of_two, merkle_root. set (h := Nat.log2_up (length l)).
  assert (Hl : (1 ≤ length l ≤ 2 ^ h)%nat).
  { split; [cbn; lia|]. apply Nat.log2_up_spec. cbn. lia. }
  assert (Hlen : length ((Some <$> l) ++ replicate (2 ^ h - length l) None) = (2 ^ h)%nat)
    by (rewrite length_app, length_fmap, length_replicate; lia).
  replace (2 * 2 ^ h - 1 - length l)%nat with ((2 ^ h - length l) + (2 ^ h - 1))%nat by lia.
  rewrite replicate_add, app_assoc.
  destruct (merkle_run (E := E) h [] _ 0 Hlen eq_refl) as (pre' & Hrun). cbn [app] in Hrun.
  rewrite Hlen in Hrun. rewrite Hrun. cbn [mbind outcome_bind].
  destruct (layers_pairup h l Hl) as [-> H1]. destruct (layers h l) as [|x [|]]; [done| |done].
  cbn [fmap list_fmap]. by rewrite last_snoc.
Qed.

(** The array code computes the Merkle root: for every list of hashes it neither
    panics nor reads an unset node, and returns the root obtained layer by layer, hashing
    neighbours and pairing a last odd node with the zero hash. *)
Theorem merkle_root_computed {E} hs : calc_merkle_root (E := E) hs = Ok (merkle_root hs).
Proof. apply calc_merkle_root_eq. Qed.

(** ** Binding *)
Fixpoint preimages (hs : list Hash) : list (list Z) :=
  match hs with
  | a :: b :: hs => (a ++ b) :: preimages hs
  | [a] => [a ++ ZERO_HASH]
  | [] => []
  end.
Definition hash_like (h : Hash) : Prop := length h = 32%nat.

Lemma layer_preimages hs : layer hs = MerkleBranchHash <$> preimages hs.
Proof. induction hs as [|a|a b hs IH] using list_pair_ind; cbn; [done..|]. by rewrite IH. Qed.

(** What defeats the binding at one layer. *)
Definition layer_broken (hs1 hs2 : list Hash) : Prop :=
  (∃ p1 p2, p1 ∈ preimages hs1 ∧ p2 ∈ preimages hs2 ∧ collides MerkleBranchHash p1 p2) ∨
  ZERO_HASH ∈ hs1 ∨ ZERO_HASH ∈ hs2.

Lemma merkle_hash_cases a b c d :
  hash_like a → hash_like c → merkle_hash a b = merkle_hash c d →
  (a = c ∧ b = d) ∨ collides MerkleBranchHash (a ++ b) (c ++ d).
Proof.
  unfold hash_like, merkle_hash. intros Ha Hc [Heq|]%hash_eq_cases; [left|by right].
  apply app_inj_1 in Heq; [done|congruence].
Qed.

Lemma layer_inj hs1 : ∀ hs2, Forall hash_like hs1 → Forall hash_like hs2 → layer hs1 = layer hs2 →
  hs1 = hs2 ∨ layer_broken hs1 hs2.
Proof.
  unfold layer_broken. induction hs1 as [|a|a b hs1 IH] using list_pair_ind; intros hs2 Hl1 Hl2 Heq.
  - destruct hs2 as [|c [|d hs2]]; [by left|discriminate..].
  - destruct hs2 as [|c [|d [|e hs2]]]; [discriminate| | |destruct hs2; discriminate];
      apply Forall_cons in Hl1 as [Ha _]; apply Forall_cons in Hl2 as [Hc Hl2];
      cbn [layer] in Heq; apply (inj2 cons) in Heq as [Heq _];
      (apply merkle_hash_cases in Heq as [[-> Hd]|Hcol]; [|right; left; do 2 eexists;
        split; [by left|]; split; [by left|done]|done|done]).
    + by left.
    + right; right; right. rewrite Hd. right. by left.
  - destruct hs2 as [|c [|d hs2]]; [discriminate| |].
    + apply Forall_cons in Hl1 as [Ha _]. apply Forall_cons in Hl2 as [Hc _].
      cbn [layer] in Heq. apply (inj2 cons) in Heq as [Heq _].
      apply merkle_hash_cases in Heq as [[-> Hd]|Hcol]; [| |done|done].
      * right; right; left. rewrite <- Hd. right. by left.
      * right; left. do 2 eexists. split; [by left|]. split; [by left|done].
    + apply Forall_cons in Hl1 as [Ha Hl1]. apply Forall_cons in Hl1 as [_ Hl1].
      apply Forall_cons in Hl2 as [Hc Hl2]. apply Forall_cons in Hl2 as [_ Hl2].
      cbn [layer] in Heq. apply (inj2 cons) in Heq as [Hh Ht].
      apply merkle_hash_cases in Hh as [[-> ->]|Hcol]; [| |done|done].
      * destruct (IH hs2 Hl1 Hl2 Ht) as [->|[(p1 & p2 & ? & ? & ?)|[?|?]]]; [by left|right..].
        -- left. exists p1, p2. cbn [preimages]. split; [by right|]. split; [by right|done].
        -- right; left. by do 2 right.
        -- right; right. by do 2 right.
      * right; left. do 2 eexists. split; [by left|]. split; [by left|done].
Qed.

(** *** All layers *)
Hypothesis branch_length : ∀ p, hash_like (MerkleBranchHash p).

Lemma layers_hash_like h hs : Forall hash_like hs → Forall hash_like (layers h hs).
Proof.
  intros Hl. destruct h as [|h]; [done|]. cbn. rewrite layer_preimages. apply Forall_fmap, Forall_true.
  intros p. apply branch_length.
Qed.

(** The inputs of the branch hash in the first [h] layers. *)
Definition hashed (h : nat) (hs : list Hash) (p : list Z) : Prop :=
  ∃ j, (j < h)%nat ∧ p ∈ preimages (layers j hs).

(** What defeats the binding: two different inputs of the branch hash, one in each tree,
    with one output; an input that hashes to zero, or a zero leaf. *)
Definition tree_broken (h : nat) (hs1 hs2 : list Hash) : Prop :=
  (∃ p1 p2, hashed h hs1 p1 ∧ hashed h hs2 p2 ∧ collides MerkleBranchHash p1 p2) ∨
  (∃ p, (hashed h hs1 p ∨ hashed h hs2 p) ∧ MerkleBranchHash p = ZERO_HASH) ∨
  ZERO_HASH ∈ hs1 ∨ ZERO_HASH ∈ hs2.

Lemma tree_broken_mono h hs1 hs2 : tree_broken h hs1 hs2 → tree_broken (S h) hs1 hs2.
Proof.
  assert (Hm : ∀ hs p, hashed h hs p → hashed (S h) hs p) by (intros hs p (j & ? & ?); exists j; split; [lia|done]).
  intros [(p1 & p2 & H1 & H2 & Hc)|[(p & Hp & Hz)|Hz]].
  - left. exists p1, p2. auto.
  - right; left. exists p. split; [|done]. destruct Hp; auto.
  - by right; right.
Qed.

Lemma zero_in_layers h hs :
  ZERO_HASH ∈ layers h hs → ZERO_HASH ∈ hs ∨ ∃ p, hashed h hs p ∧ MerkleBranchHash p = ZERO_HASH.
Proof.
  destruct h as [|h]; [by left|]. cbn. rewrite layer_preimages. intros (p & Hp & Hin)%list_elem_of_fmap.
  right. exists p. split; [|done]. exists h. split; [lia|done].
Qed.

Lemma layers_inj h hs1 hs2 :
  Forall hash_like hs1 → Forall hash_like hs2 → layers h hs1 = layers h hs2 →
  hs1 = hs2 ∨ tree_broken h hs1 hs2.
Proof.
  intros H1 H2. induction h as [|h IH]; intros Heq; [by left|]. cbn in Heq. fold (layers h hs1) (layers h hs2) in Heq.
  apply layer_inj in Heq as [Heq|Hb]; [| |by apply layers_hash_like..].
  { destruct (IH Heq) as [|Hb]; [by left|right; by apply tree_broken_mono]. }
  right. unfold tree_broken. destruct Hb as [(p1 & p2 & Hp1 & Hp2 & Hc)|Hz].
  - left. exists p1, p2. split; [by exists h; split; [lia|]|]. split; [by exists h; split; [lia|]|done].
  - assert (Hm : ∀ hs p, hashed h hs p → hashed (S h) hs p)
      by (intros hs p (j & ? & ?); exists j; split; [lia|done]).
    right. destruct Hz as [Hz|Hz]; apply zero_in_layers in Hz as [Hz|(p & Hp & Hz)];
      [right; auto|left; exists p; auto|right; auto|left; exists p; auto].
Qed.

Definition height (hs : list Hash) : nat := Nat.log2_up (length hs).
(** A leaf of one tree that is a node of the other. *)
Definition leaf_is_node (hs1 hs2 : list Hash) : Prop :=
  ∃ p, hashed (height hs2) hs2 p ∧ MerkleBranchHash p ∈ hs1.

Lemma shorter_tree hs1 hs2 :
  hs1 ≠ [] → Forall hash_like hs1 → Forall hash_like hs2 → (height hs1 < height hs2)%nat →
  layers (height hs1) hs1 = layers (height hs2) hs2 →
  tree_broken (height hs2) hs1 hs2 ∨ leaf_is_node hs1 hs2.
Proof.
  intros Hne H1 H2. unfold leaf_is_node. generalize (height hs1) (height hs2). intros h1 h2 Hlt.
  assert (∃ d, h2 = (h1 + S d)%nat) as [d ->] by (exists (h2 - h1 - 1)%nat; lia).
  assert (layers (h1 + S d) hs2 = layers h1 (layers (S d) hs2)) as -> by (unfold layers; by rewrite Nat.iter_add).
  intros Heq. set (h2 := (h1 + S d)%nat).
  assert (Hsub : ∀ p, hashed h1 (layers (S d) hs2) p → hashed h2 hs2 p).
  { intros p (j & Hj & Hp). exists (j + S d)%nat. split; [lia|]. unfold layers in *. by rewrite Nat.iter_add. }
  assert (Hsub1 : ∀ p, hashed h1 hs1 p → hashed h2 hs1 p)
    by (intros p (j & Hj & Hp); exists j; split; [lia|done]).
  apply layers_inj in Heq as [->|Hb]; [| |done|by apply layers_hash_like].
  - right. change (layers (S d) hs2) with (layer (layers d hs2)) in *. destruct (layers d hs2) as [|a [|b l]] eqn:Hd; [done| |].
    + exists (a ++ ZERO_HASH). split; [|by left]. exists d. split; [lia|]. rewrite Hd. by left.
    + exists (a ++ b). split; [|by left]. exists d. split; [lia|]. rewrite Hd. by left.
  - left. destruct Hb as [(p1 & p2 & Hp1 & Hp2 & Hc)|[(p & Hp & Hz)|[Hz|Hz]]].
    + left. exists p1, p2. auto.
    + right; left. exists p. split; [|done]. destruct Hp; auto.
    + right; right. by left.
    + apply zero_in_layers in Hz as [Hz|(p & (j & Hj & Hp) & Hz)]; [right; right; by right|].
      right; left. exists p. split; [right|done]. exists j. split; [lia|done].
Qed.

Lemma layers_root hs : hs ≠ [] → layers (height hs) hs = [merkle_root hs].
Proof.
  intros Hne. unfold merkle_root. fold (height hs). destruct (layers_pairup (height hs) hs) as [_ Hl].
  { split; [destruct hs; [done|cbn; lia]|]. destruct (decide (length hs = 1)%nat) as [He|He].
    - unfold height. rewrite He. done.
    - apply Nat.log2_up_spec. destruct hs as [|? [|]]; [done|done|cbn; lia]. }
  by destruct (layers (height hs) hs) as [|x [|]].
Qed.

(** (C39) The Merkle root binds the leaves: two non-empty lists of 32-byte hashes with the
    same root are equal, unless the branch hash collides on inputs of the two trees, one
    of its inputs there hashes to zero, a leaf is the zero hash, or a leaf of one tree is
    an inner node of the other. *)
Theorem merkle_root_binds hs1 hs2 :
  hs1 ≠ [] → hs2 ≠ [] → Forall hash_like hs1 → Forall hash_like hs2 →
  calc_merkle_root (E := unit) hs1 = calc_merkle_root hs2 →
  hs1 = hs2 ∨ tree_broken (Nat.max (height hs1) (height hs2)) hs1 hs2 ∨
  leaf_is_node hs1 hs2 ∨ leaf_is_node hs2 hs1.
Proof.
  intros Hn1 Hn2 H1 H2 Heq. rewrite !calc_merkle_root_eq in Heq. apply Ok_inj in Heq.
  assert (Hl : layers (height hs1) hs1 = layers (height hs2) hs2) by (rewrite !layers_root by done; by f_equal).
  destruct (Nat.lt_trichotomy (height hs1) (height hs2)) as [Hlt|[He|Hlt]].
  - rewrite Nat.max_r by lia. destruct (shorter_tree hs1 hs2) as [?|?]; [done..|tauto|tauto].
  - rewrite He in *. rewrite Nat.max_id. destruct (layers_inj _ _ _ H1 H2 Hl); tauto.
  - rewrite Nat.max_l by lia. destruct (shorter_tree hs2 hs1) as [Hb|?]; [done..| |tauto].
    right; left. destruct Hb as [(p1 & p2 & Hp1 & Hp2 & [Hne Hc])|[(p & Hp & Hz)|Hz]].
    + left. exists p2, p1. split; [done|]. split; [done|]. by split.
    + right; left. exists p. split; [tauto|done].
    + right; right. tauto.
Qed.
End spec.

(** A concrete branch hash, and two lists with one root, told apart by a zero leaf. *)
#[local] Instance demo_branch : MerkleHasher :=
  {| MerkleBranchHash := λ b, 2 :: take 31 (tail b ++ replicate 31 0) |}.
Definition demo_leaves : list Hash := [replicate 32 1; replicate 32 3; replicate 32 4].
Lemma merkle_root_binds_witness :
  calc_merkle_root (E := unit) demo_leaves = calc_merkle_root (demo_leaves ++ [ZERO_HASH]) ∧
  (tree_broken 2 demo_leaves (demo_leaves ++ [ZERO_HASH]) ∨
   leaf_is_node demo_leaves (demo_leaves ++ [ZERO_HASH]) ∨
   leaf_is_node (demo_leaves ++ [ZERO_HASH]) demo_leaves).
Proof.
  split; [reflexivity|].
  assert (Hb : ∀ p, hash_like (MerkleBranchHash p)).
  { intros p. unfold hash_like, MerkleBranchHash, demo_branch. cbn [length].
    rewrite length_take, length_app, length_replicate. lia. }
  destruct (merkle_root_binds Hb demo_leaves (demo_leaves ++ [ZERO_HASH])) as [Heq|Hc];
    [done|done|repeat constructor|repeat constructor|reflexivity|discriminate Heq|exact Hc].
Defined.
