(* ===== verification/Mass.v ===== *)
(** * Transaction masses

    [consensus/core/src/mass/mod.rs] and [units.rs]: serialized size estimates, UTXO
    plurality, compute, transient and storage (KIP-0009) mass, and the conversion
    between compute budgets and script units.  The borsh decoder of pool payloads is a
    parameter. *)

From S2P Require Import Prelude Transaction NotePool Params TxHashing.

Definition HASH_SIZE : Z := 32.

(** ** Units ([units.rs]) *)
Definition GRAMS_PER_COMPUTE_BUDGET_UNIT : Z := 100.
Definition GRAMS_PER_SIGOP_COUNT_UNIT : Z := 1000.
Definition SCRIPT_UNITS_PER_GRAM : Z := 100.
Definition SCRIPT_UNITS_PER_COMPUTE_BUDGET_UNIT : Z :=
  GRAMS_PER_COMPUTE_BUDGET_UNIT * SCRIPT_UNITS_PER_GRAM.
Definition SCRIPT_UNITS_PER_SIGOP_COUNT_UNIT : Z :=
  GRAMS_PER_SIGOP_COUNT_UNIT * SCRIPT_UNITS_PER_GRAM.
Definition free_script_units_per_input : Z :=
  saturating_sub SCRIPT_UNITS_PER_COMPUTE_BUDGET_UNIT 1.

(** [ScriptUnits::from(ComputeCommit)]; the products of a [u8] or [u16] fit. *)
Definition script_units_of (c : ComputeCommit) : Z :=
  match c with
  | SigopCount n => n * SCRIPT_UNITS_PER_SIGOP_COUNT_UNIT
  | ComputeBudget n => n * SCRIPT_UNITS_PER_COMPUTE_BUDGET_UNIT
  end.
Definition allowed_script_units (c : ComputeCommit) : Z :=
  saturating_add (script_units_of c) free_script_units_per_input.

(** [ComputeBudget::try_from(ScriptUnits)]. *)
Definition compute_budget_try_from (units : Z) : option Z :=
  let scaled := div_ceil units SCRIPT_UNITS_PER_COMPUTE_BUDGET_UNIT in
  if scaled <? 2 ^ 16 then Some scaled else None.
Definition checked_covering_script_units (required : Z) : option Z :=
  compute_budget_try_from (saturating_sub required free_script_units_per_input).

(** ** Size estimates; lengths are those of allocated vectors, and each sum is checked *)
Definition outpoint_estimated_serialized_size : Z := HASH_SIZE + 4.
Definition transaction_input_estimated_serialized_size (i : TransactionInput) (v : Z) : Z :=
  outpoint_estimated_serialized_size + 8 + Z.of_nat (length (signature_script i)) + 8
    + (if 1 <=? v then 2 else 0).
Definition transaction_output_estimated_serialized_size (o : TransactionOutput) : Z :=
  8 + 2 + 8 + Z.of_nat (length (script (script_public_key o)))
    + match covenant o with Some _ => 2 + HASH_SIZE | None => 0 end.
Definition transaction_estimated_serialized_size {E} (tx : Transaction) : outcome E Z :=
  inputs_size ←
    u64_sum ((λ i, transaction_input_estimated_serialized_size i (tx_version tx)) <$> inputs tx);
  size ← u64_add (2 + 8) inputs_size;
  size ← u64_add size 8;
  outputs_size ← u64_sum (transaction_output_estimated_serialized_size <$> outputs tx);
  size ← u64_add size outputs_size;
  size ← u64_add size (8 + Z.of_nat SUBNETWORK_ID_SIZE + 8 + HASH_SIZE + 8);
  u64_add size (Z.of_nat (length (payload tx))).

(** ** Plurality *)
Definition UTXO_CONST_STORAGE : Z := 32 + 4 + 8 + 8 + 1 + 2 + 8.
Definition UTXO_UNIT_SIZE : Z := 100.
Definition utxo_plurality (spk : ScriptPublicKey) (has_covenant_id : bool) : Z :=
  div_ceil (UTXO_CONST_STORAGE + Z.of_nat (length (script spk))
              + (if has_covenant_id then HASH_SIZE else 0)) UTXO_UNIT_SIZE.

Record UtxoCell := mk_cell { plurality : Z; cell_amount : Z }.
Definition cell_of_entry (e : UtxoEntry) : UtxoCell :=
  mk_cell (utxo_plurality (entry_script_public_key e) (bool_decide (is_Some (entry_covenant_id e))))
    (amount e).
Definition cell_of_output (o : TransactionOutput) : UtxoCell :=
  mk_cell (utxo_plurality (script_public_key o) (bool_decide (is_Some (covenant o)))) (value o).

(** ** Storage mass.  [Err tt] is the [None] of the source. *)
Definition output_step (storm_param : Z) (acc : Z * Z) (c : UtxoCell) : outcome unit (Z * Z) :=
  p ← u64_add acc.1 (plurality c);
  m ← ok_or (checked_mul storm_param (plurality c)) tt;
  m ← ok_or (checked_mul m (plurality c)) tt;
  q ← u64_div m (cell_amount c);
  h ← ok_or (checked_add acc.2 q) tt;
  Ok (p, h).

(** The [map] of the harmonic input sum, unchecked in the source. *)
Definition harmonic_input (storm_param : Z) (c : UtxoCell) : outcome unit Z :=
  m ← u64_mul storm_param (plurality c);
  m ← u64_mul m (plurality c);
  u64_div m (cell_amount c).
Definition harmonic_step (storm_param : Z) (total : Z) (c : UtxoCell) : outcome unit Z :=
  current ← harmonic_input storm_param c; Ok (saturating_add total current).
Definition arithmetic_step (acc : Z * Z) (c : UtxoCell) : outcome unit (Z * Z) :=
  p ← u64_add acc.1 (plurality c);
  a ← u64_add acc.2 (cell_amount c);
  Ok (p, a).

Definition relaxed_formula_path (outs_plurality : Z) (ins : list UtxoCell) : outcome unit bool :=
  if outs_plurality =? 1 then Ok true
  else if (2 <? length ins)%nat then Ok false
  else ins_plurality ← u64_sum (plurality <$> ins);
       Ok ((ins_plurality =? 1) || ((outs_plurality =? 2) && (ins_plurality =? 2))).

Definition calc_storage_mass (is_cb : bool) (ins outs : list UtxoCell) (storm_param : Z)
    : outcome unit Z :=
  if is_cb then Ok 0 else
  acc ← try_fold (output_step storm_param) (0, 0) outs;
  let '(outs_plurality, harmonic_outs) := acc in
  if (length ins =? 0)%nat then Ok harmonic_outs else
  relaxed ← relaxed_formula_path outs_plurality ins;
  if relaxed : bool then
    harmonic_ins ← try_fold (harmonic_step storm_param) 0 ins;
    Ok (saturating_sub harmonic_outs harmonic_ins)
  else
    acc ← try_fold arithmetic_step (0, 0) ins;
    let '(ins_plurality, sum_ins) := acc in
    mean ← u64_div sum_ins ins_plurality;
    let mean_ins := Z.max mean 1 in
    let arithmetic_ins := saturating_mul ins_plurality (storm_param / mean_ins) in
    Ok (saturating_sub harmonic_outs arithmetic_ins).

(** ** The calculator *)
Record MassCalculator := {
  mass_per_tx_byte : Z;
  mass_per_script_pub_key_byte : Z;
  storage_mass_parameter : Z }.
Record NonContextualMasses := mk_non_contextual { compute_mass : Z; transient_mass : Z }.

Definition calc_contextual_masses (self : MassCalculator) (ptx : PopulatedTransaction)
    : outcome unit Z :=
  calc_storage_mass (is_coinbase (pop_tx ptx)) (cell_of_entry <$> (populated_inputs ptx).*2)
    (cell_of_output <$> outputs (pop_tx ptx)) (storage_mass_parameter self).

(** The borsh decoder of [PoolOp] payloads. *)
Class PayloadDecoder := { decode_payload : list Z → option PoolOp }.

Section calculator.
Context `{PayloadDecoder}.

Definition pool_signature_mass (tx : Transaction) : Z :=
  if bool_decide (subnetwork_id tx = SUBNETWORK_ID_NOTE_POOL)
  then match decode_payload (payload tx) with
       | Some (Transfer op) => GRAMS_PER_COMPUTE_BUDGET_UNIT * Z.of_nat (length (t_consumed op))
       | Some (TransferLocked op) =>
           GRAMS_PER_COMPUTE_BUDGET_UNIT * Z.of_nat (length (l_consumed op))
       | Some (Redeem op) => GRAMS_PER_COMPUTE_BUDGET_UNIT * Z.of_nat (length (r_consumed op))
       | Some (Mint _) | None => 0
       end
  else 0.

Definition script_mass {E} (tx : Transaction) : outcome E Z :=
  if version_expects_compute_budget_field (tx_version tx)
  then budgets ← try_map (λ i, unwrap (compute_budget (compute_commit i))) (inputs tx);
       total ← u64_sum budgets; u64_mul GRAMS_PER_COMPUTE_BUDGET_UNIT total
  else counts ← try_map (λ i, unwrap (sig_op_count (compute_commit i))) (inputs tx);
       total ← u64_sum counts; u64_mul total GRAMS_PER_SIGOP_COUNT_UNIT.

Definition calc_non_contextual_masses {E} (self : MassCalculator) (tx : Transaction)
    : outcome E NonContextualMasses :=
  if is_coinbase tx then Ok (mk_non_contextual 0 0) else
  size ← transaction_estimated_serialized_size tx;
  compute_mass_for_size ← u64_mul size (mass_per_tx_byte self);
  total_spk_size ←
    u64_sum ((λ o, 2 + Z.of_nat (length (script (script_public_key o)))) <$> outputs tx);
  total_spk_mass ← u64_mul total_spk_size (mass_per_script_pub_key_byte self);
  script_mass ← script_mass tx;
  m ← u64_add compute_mass_for_size total_spk_mass;
  m ← u64_add m script_mass;
  compute_mass ← u64_add m (pool_signature_mass tx);
  transient_mass ← u64_mul size TRANSIENT_BYTE_TO_MASS_FACTOR;
  Ok (mk_non_contextual compute_mass transient_mass).
End calculator.

(** ** Script units *)

(** [checked_covering_script_units] is the least covering budget: when it returns a
    budget, that budget fits a [u16], allows at least the required units, and no smaller
    one does; when it returns nothing, no [u16] budget is enough. *)
Theorem covering_budget_least required :
  in_u64 required →
  match checked_covering_script_units required with
  | Some b => in_u16 b ∧ required ≤ allowed_script_units (ComputeBudget b) ∧
      ∀ b', in_u16 b' → required ≤ allowed_script_units (ComputeBudget b') → b ≤ b'
  | None => ∀ b', in_u16 b' → allowed_script_units (ComputeBudget b') < required
  end.
Proof.
  unfold checked_covering_script_units, compute_budget_try_from, allowed_script_units, in_u64, in_u16.
  change free_script_units_per_input with 9999. unfold script_units_of, div_ceil.
  change SCRIPT_UNITS_PER_COMPUTE_BUDGET_UNIT with 10000. cbv zeta. intros Hr.
  unfold saturating_sub, saturating_add, u64_max in *.
  pose proof (Z.div_mod (Z.max (required - 9999) 0 + 10000 - 1) 10000).
  pose proof (Z.mod_pos_bound (Z.max (required - 9999) 0 + 10000 - 1) 10000).
  set (q := (Z.max (required - 9999) 0 + 10000 - 1) / 10000) in *.
  destruct (Z.ltb_spec q (2 ^ 16)); [split; [lia|split; [lia|]]|]; intros; lia.
Qed.

Lemma covering_budget_least_witness :
  ∀ b', in_u16 b' → 25000 ≤ allowed_script_units (ComputeBudget b') → 2 ≤ b'.
Proof. apply (covering_budget_least 25000). unfold in_u64, u64_max. lia. Defined.

(** ** The storage mass formula *)

Definition harmonic (C : Z) (c : UtxoCell) : Z := C * plurality c * plurality c / cell_amount c.

(** Cells of UTXOs: at least one unit, a positive amount, and [C * p^2] fits a [u64]. *)
Definition cell_ok (C : Z) (c : UtxoCell) : Prop :=
  1 ≤ plurality c ∧ 0 < cell_amount c ∧ C * plurality c * plurality c ≤ u64_max.
#[global] Instance cell_ok_dec C c : Decision (cell_ok C c).
Proof. unfold cell_ok. apply _. Defined.

(** KIP-0009: [max(0, C (|O|/H(O) - |I|/A(I)))], with the harmonic mean of the inputs
    in the relaxed cases. *)
Definition storage_mass_spec (C : Z) (ins outs : list UtxoCell) : Z :=
  let O := Zsum (plurality <$> outs) in
  let I := Zsum (plurality <$> ins) in
  let HO := Zsum (harmonic C <$> outs) in
  if decide (ins = []) then HO
  else if decide (O = 1 ∨ I = 1 ∨ (O = 2 ∧ I = 2))
  then Z.max 0 (HO - Zsum (harmonic C <$> ins))
  else Z.max 0 (HO - I * (C / Z.max 1 (Zsum (cell_amount <$> ins) / I))).

Section storage_mass.
Context (C : Z).
Hypothesis HC : 0 ≤ C.

Lemma harmonic_nonneg c : cell_ok C c → 0 ≤ harmonic C c.
Proof. intros (? & ? & _). unfold harmonic. apply Z.div_pos; nia. Qed.

Lemma harmonic_first c : cell_ok C c → 0 ≤ C * plurality c ≤ u64_max.
Proof. intros (? & ? & ?). nia. Qed.

Lemma sums_nonneg l : Forall (cell_ok C) l →
  0 ≤ Zsum (harmonic C <$> l) ∧ Z.of_nat (length l) ≤ Zsum (plurality <$> l) ∧
  0 ≤ Zsum (cell_amount <$> l).
Proof.
  induction 1 as [|c l Hc Hl (IH1 & IH2 & IH3)]; [done|].
  rewrite !fmap_cons, !Zsum_cons. cbn [length]. pose proof (harmonic_nonneg c Hc).
  destruct Hc as (? & ? & _). lia.
Qed.

Lemma output_step_Ok p h c :
  cell_ok C c → p + plurality c ≤ u64_max → h + harmonic C c ≤ u64_max →
  output_step C (p, h) c = Ok (p + plurality c, h + harmonic C c).
Proof.
  intros Hc Hp Hh. pose proof (harmonic_first c Hc). destruct Hc as (? & ? & ?). unfold output_step.
  cbn [fst snd]. rewrite u64_add_total by done. cbn [mbind outcome_bind].
  rewrite checked_mul_total by lia. cbn [ok_or mbind outcome_bind].
  rewrite checked_mul_total by lia. cbn [ok_or mbind outcome_bind].
  rewrite u64_div_total by lia. cbn [mbind outcome_bind].
  change (C * plurality c * plurality c / cell_amount c) with (harmonic C c).
  by rewrite checked_add_total.
Qed.

Lemma output_fold l p h :
  Forall (cell_ok C) l → p + Zsum (plurality <$> l) ≤ u64_max →
  h + Zsum (harmonic C <$> l) ≤ u64_max →
  try_fold (output_step C) (p, h) l =
    Ok (p + Zsum (plurality <$> l), h + Zsum (harmonic C <$> l)).
Proof.
  intros Hl. revert p h. induction Hl as [|c l Hc Hl IH]; intros p h Hp Hh; cbn [try_fold].
  { by rewrite !Z.add_0_r. }
  rewrite !fmap_cons, !Zsum_cons in *. destruct (sums_nonneg l Hl) as (? & ? & ?).
  pose proof (harmonic_nonneg c Hc). rewrite output_step_Ok by (done || lia). cbn [mbind outcome_bind].
  rewrite IH by lia. by rewrite !Z.add_assoc.
Qed.

Lemma harmonic_step_Ok t c :
  cell_ok C c → harmonic_step C t c = Ok (saturating_add t (harmonic C c)).
Proof.
  intros Hc. pose proof (harmonic_first c Hc). destruct Hc as (? & ? & ?).
  unfold harmonic_step, harmonic_input.
  do 2 (rewrite u64_mul_total by lia; cbn [mbind outcome_bind]). by rewrite u64_div_total by lia.
Qed.

Lemma harmonic_fold l t :
  Forall (cell_ok C) l → 0 ≤ t ≤ u64_max →
  try_fold (harmonic_step C) t l = Ok (Z.min (t + Zsum (harmonic C <$> l)) u64_max).
Proof.
  intros Hl. revert t. induction Hl as [|c l Hc Hl IH]; intros t Ht; cbn [try_fold].
  { f_equal. change (Zsum (harmonic C <$> [])) with 0. lia. }
  rewrite fmap_cons, Zsum_cons. destruct (sums_nonneg l Hl) as (? & _).
  pose proof (harmonic_nonneg c Hc). rewrite harmonic_step_Ok by done. cbn [mbind outcome_bind].
  unfold saturating_add. rewrite IH by lia. f_equal. lia.
Qed.

Lemma arithmetic_fold l p a :
  Forall (cell_ok C) l → p + Zsum (plurality <$> l) ≤ u64_max →
  a + Zsum (cell_amount <$> l) ≤ u64_max →
  try_fold arithmetic_step (p, a) l =
    Ok (p + Zsum (plurality <$> l), a + Zsum (cell_amount <$> l)).
Proof.
  intros Hl. revert p a. induction Hl as [|c l Hc Hl IH]; intros p a Hp Ha; cbn [try_fold].
  { by rewrite !Z.add_0_r. }
  rewrite !fmap_cons, !Zsum_cons in *. destruct (sums_nonneg l Hl) as (? & ? & ?).
  destruct Hc as (? & ? & _). unfold arithmetic_step at 2. cbn [fst snd].
  rewrite u64_add_total by lia. cbn [mbind outcome_bind].
  rewrite u64_add_total by lia. cbn [mbind outcome_bind]. rewrite IH by lia.
  by rewrite !Z.add_assoc.
Qed.

Lemma relaxed_path_Ok O ins :
  Forall (cell_ok C) ins → Zsum (plurality <$> ins) ≤ u64_max →
  relaxed_formula_path O ins =
    Ok (bool_decide (O = 1 ∨ Zsum (plurality <$> ins) = 1 ∨ (O = 2 ∧ Zsum (plurality <$> ins) = 2))).
Proof.
  intros Hl Hsum. unfold relaxed_formula_path. destruct (sums_nonneg ins Hl) as (_ & Hlen & _).
  destruct (Z.eqb_spec O 1); [by rewrite bool_decide_eq_true_2 by tauto|].
  destruct (Nat.ltb_spec 2 (length ins)).
  { rewrite bool_decide_eq_false_2 by lia. done. }
  rewrite u64_sum_total; [|rewrite Forall_fmap; eapply Forall_impl; [done|]|done].
  - cbn [mbind outcome_bind]. f_equal. set (I := Zsum _) in *.
    destruct (Z.eqb_spec I 1), (Z.eqb_spec O 2), (Z.eqb_spec I 2); cbn [orb andb]; symmetry;
      (apply bool_decide_eq_true; lia) || (apply bool_decide_eq_false; lia).
  - intros c (? & _). simpl. lia.
Qed.
End storage_mass.

Lemma calc_storage_mass_spec C ins outs :
  0 ≤ C → Forall (cell_ok C) ins → Forall (cell_ok C) outs →
  Zsum (plurality <$> ins) ≤ u64_max → Zsum (plurality <$> outs) ≤ u64_max →
  Zsum (cell_amount <$> ins) ≤ u64_max → Zsum (harmonic C <$> outs) ≤ u64_max →
  calc_storage_mass false ins outs C = Ok (storage_mass_spec C ins outs).
Proof.
  intros HC Hi Ho Hpi Hpo Hai Hho. unfold calc_storage_mass, storage_mass_spec.
  rewrite (output_fold C) by (done || lia). cbn [mbind outcome_bind]. rewrite !Z.add_0_l.
  destruct (decide (ins = [])) as [->|Hne]; [done|].
  rewrite (proj2 (Nat.eqb_neq (length ins) 0)) by (by destruct ins).
  rewrite (relaxed_path_Ok C) by done. cbn [mbind outcome_bind].
  destruct (sums_nonneg C HC ins Hi) as (? & Hlen & ?).
  case_bool_decide as Hc; [rewrite decide_True by done|rewrite decide_False by done].
  - rewrite (harmonic_fold C) by (done || unfold u64_max; lia). cbn [mbind outcome_bind].
    f_equal. unfold saturating_sub. lia.
  - rewrite (arithmetic_fold C) by (done || lia). cbn [mbind outcome_bind].
    assert (0 < length ins)%nat by (destruct ins; simpl; [done|lia]).
    rewrite u64_div_total by lia. cbn [mbind outcome_bind]. f_equal.
    unfold saturating_sub, saturating_mul. rewrite !Z.add_0_l, (Z.max_comm (_ / _) 1).
    set (m := Zsum (plurality <$> ins) * _). lia.
Qed.

(** On well-formed cells the computation does not panic, even when the formula overflows. *)
Lemma output_fold_total C l p h :
  0 ≤ C → Forall (cell_ok C) l → p + Zsum (plurality <$> l) ≤ u64_max →
  not_panic (try_fold (output_step C) (p, h) l).
Proof.
  intros HC Hl. revert p h. induction Hl as [|c l Hc Hl IH]; intros p h Hp; cbn [try_fold]; [done|].
  rewrite fmap_cons, Zsum_cons in Hp. destruct (sums_nonneg C HC l Hl) as (_ & ? & _).
  pose proof (harmonic_first C HC c Hc). destruct Hc as (? & ? & ?). unfold output_step at 2. cbn [fst snd].
  rewrite u64_add_total by lia. cbn [mbind outcome_bind].
  do 2 (rewrite checked_mul_total by lia; cbn [ok_or mbind outcome_bind]).
  rewrite u64_div_total by lia. cbn [mbind outcome_bind].
  destruct (checked_add h _) as [h'|]; [|done]. cbn [ok_or mbind outcome_bind]. apply IH. lia.
Qed.

Lemma calc_storage_mass_total b C ins outs :
  0 ≤ C → Forall (cell_ok C) ins → Forall (cell_ok C) outs →
  Zsum (plurality <$> ins) ≤ u64_max → Zsum (plurality <$> outs) ≤ u64_max →
  Zsum (cell_amount <$> ins) ≤ u64_max → not_panic (calc_storage_mass b ins outs C).
Proof.
  intros HC Hi Ho Hpi Hpo Hai. unfold calc_storage_mass. destruct b; [done|].
  apply not_panic_bind; [apply output_fold_total; (done || lia)|]. intros [op ho] _.
  destruct (Nat.eqb_spec (length ins) 0) as [|Hne]; [done|]. rewrite (relaxed_path_Ok C) by done.
  cbn [mbind outcome_bind]. destruct (sums_nonneg C HC ins Hi) as (? & Hlen & ?). destruct (bool_decide _).
  - rewrite (harmonic_fold C) by (done || unfold u64_max; lia). done.
  - rewrite (arithmetic_fold C) by (done || lia). cbn [mbind outcome_bind]. rewrite u64_div_total by lia. done.
Qed.

(** Storage mass is the KIP-0009 formula: for cells with at least one unit and a
    positive amount whose products and sums fit a [u64], the computation neither panics
    nor gives up, and returns the formula's value, the harmonic form of the inputs in
    the relaxed cases and the arithmetic form otherwise. *)
Theorem storage_mass_formula C ins outs :
  0 ≤ C → Forall (cell_ok C) ins → Forall (cell_ok C) outs →
  Zsum (plurality <$> ins) ≤ u64_max → Zsum (plurality <$> outs) ≤ u64_max →
  Zsum (cell_amount <$> ins) ≤ u64_max → Zsum (harmonic C <$> outs) ≤ u64_max →
  calc_storage_mass false ins outs C = Ok (storage_mass_spec C ins outs).
Proof. apply calc_storage_mass_spec. Qed.

Definition demo_cells : list UtxoCell := [mk_cell 1 300; mk_cell 2 700].

Lemma storage_mass_formula_witness :
  calc_storage_mass false demo_cells [mk_cell 1 10; mk_cell 1 20; mk_cell 1 970] 10000 = Ok 1420.
Proof.
  rewrite (storage_mass_formula 10000 demo_cells [mk_cell 1 10; mk_cell 1 20; mk_cell 1 970]);
    [reflexivity|lia|by_decide..].
Defined.

(** Consolidating is free: a transaction with one single-unit output whose amount is
    at least that of one of its inputs has storage mass zero. *)
Theorem consolidation_is_free C ins o c :
  0 ≤ C → Forall (cell_ok C) ins → cell_ok C o → plurality o = 1 →
  c ∈ ins → cell_amount c ≤ cell_amount o →
  Zsum (plurality <$> ins) ≤ u64_max → Zsum (cell_amount <$> ins) ≤ u64_max →
  calc_storage_mass false ins [o] C = Ok 0.
Proof.
  intros HC Hi Ho Hp Hc Hle Hpi Hai.
  assert (Hoc : harmonic C o ≤ C).
  { destruct Ho as (_ & ? & _). unfold harmonic. rewrite Hp, !Z.mul_1_r.
    etrans; [apply (Z.div_le_compat_l C 1); lia|]. rewrite Z.div_1_r. lia. }
  assert (C ≤ u64_max). { destruct Ho as (_ & _ & Ho). rewrite Hp in Ho. lia. }
  rewrite calc_storage_mass_spec; [|done|done|by constructor|done| | |];
    rewrite ?list_fmap_singleton, ?Zsum_cons; change (Zsum []) with 0; rewrite ?Z.add_0_r;
    [|rewrite Hp; done|done|lia].
  f_equal. unfold storage_mass_spec. rewrite !list_fmap_singleton, !Zsum_cons.
  change (Zsum []) with 0. rewrite !Z.add_0_r.
  rewrite decide_False by (intros ->; by apply elem_of_nil in Hc).
  rewrite decide_True by by left.
  assert (harmonic C o ≤ Zsum (harmonic C <$> ins)); [|lia].
  transitivity (harmonic C c).
  - destruct Ho as (_ & ? & _). assert (Hcc : cell_ok C c) by by eapply Forall_forall in Hi.
    destruct Hcc as (? & ? & _). unfold harmonic. rewrite Hp, !Z.mul_1_r.
    etrans; [apply (Z.div_le_compat_l C (cell_amount c)); lia|]. apply Z.div_le_mono; [lia|].
    assert (1 ≤ plurality c * plurality c) by nia. rewrite <- Z.mul_assoc. nia.
  - apply elem_of_Permutation in Hc as [l Hl]. rewrite Hl in Hi |- *.
    apply Forall_cons in Hi as [_ Hi]. destruct (sums_nonneg C HC l Hi) as (? & _).
    rewrite fmap_cons, Zsum_cons. lia.
Qed.

Lemma consolidation_is_free_witness : calc_storage_mass false demo_cells [mk_cell 1 990] 10000 = Ok 0.
Proof.
  apply (consolidation_is_free 10000 demo_cells (mk_cell 1 990) (mk_cell 1 300));
    [lia|by_decide|by_decide|done|by left|simpl; lia|by_decide..].
Defined.
