(* ===== verification/Coinbase.v ===== *)
(** * Coinbase: emission schedule, payload, expected transaction

    [consensus/src/processes/coinbase.rs] and [consensus/core/src/coinbase.rs]. *)

From S2P Require Import Prelude Transaction Dag Params TxHashing.

Definition LENGTH_OF_BLUE_SCORE : nat := 8.
Definition LENGTH_OF_SUBSIDY : nat := 8.
Definition LENGTH_OF_SCRIPT_PUB_KEY_VERSION : nat := 2.
Definition LENGTH_OF_SCRIPT_PUB_KEY_LENGTH : nat := 1.
Definition MIN_PAYLOAD_LENGTH : nat :=
  LENGTH_OF_BLUE_SCORE + LENGTH_OF_SUBSIDY + LENGTH_OF_SCRIPT_PUB_KEY_VERSION
    + LENGTH_OF_SCRIPT_PUB_KEY_LENGTH.
Definition SECONDS_PER_MONTH : Z := 2629800.

Definition SUBSIDY_BY_MONTH_TABLE : list Z :=
  [152280843; 149376860; 146528257; 143733976; 140992981; 138304258; 135666807; 133079653; 130541836; 128052415; 125610466; 123215086; 120865385; 118560493; 116299554;
   114081732; 111906203; 109772162; 107678816; 105625391; 103611124; 101635269; 99697093; 97795878; 95930920; 94101525; 92307017; 90546731; 88820013; 87126223;
   85464733; 83834928; 82236204; 80667966; 79129635; 77620640; 76140421; 74688430; 73264128; 71866988; 70496491; 69152129; 67833404; 66539827; 65270918;
   64026207; 62805233; 61607543; 60432692; 59280246; 58149777; 57040866; 55953102; 54886081; 53839408; 52812695; 51805562; 50817634; 49848547; 48897939;
   47965460; 47050763; 46153509; 45273365; 44410006; 43563111; 42732367; 41917464; 41118102; 40333983; 39564818; 38810320; 38070211; 37344215; 36632064;
   35933494; 35248245; 34576064; 33916702; 33269913; 32635459; 32013104; 31402617; 30803771; 30216346; 29640123; 29074889; 28520433; 27976551; 27443040;
   26919704; 26406348; 25902781; 25408817; 24924273; 24448970; 23982730; 23525381; 23076754; 22636683; 22205003; 21781556; 21366183; 20958732; 20559051;
   20166992; 19782409; 19405160; 19035105; 18672108; 18316032; 17966747; 17624123; 17288032; 16958351; 16634957; 16317730; 16006552; 15701308; 15401886;
   15108173; 14820062; 14537444; 14260217; 13988275; 13721520; 13459852; 13203174; 12951390; 12704409; 12462137; 12224485; 11991365; 11762691; 11538377;
   11318341; 11102502; 10890778; 10683092; 10479366; 10279525; 10083496; 9891204; 9702580; 9517553; 9336054; 9158016; 8983373; 8812061; 8644016;
   8479175; 8317478; 8158865; 8003276; 7850654; 7700943; 7554087; 7410031; 7268722; 7130108; 6994138; 6860760; 6729926; 6601587; 6475695;
   6352204; 6231068; 6112242; 5995682; 5881345; 5769189; 5659171; 5551251; 5445389; 5341546; 5239683; 5139763; 5041748; 4945602; 4851290;
   4758776; 4668027; 4579008; 4491687; 4406031; 4322008; 4239588; 4158739; 4079432; 4001638; 3925327; 3850471; 3777043; 3705015; 3634361;
   3565054; 3497069; 3430380; 3364963; 3300793; 3237848; 3176102; 3115534; 3056121; 2997841; 2940673; 2884594; 2829585; 2775625; 2722694;
   2670773; 2619842; 2569881; 2520874; 2472801; 2425645; 2379388; 2334013; 2289504; 2245843; 2203015; 2161004; 2119794; 2079370; 2039716;
   2000819; 1962664; 1925236; 1888522; 1852508; 1817181; 1782527; 1748534; 1715190; 1682482; 1650397; 1618924; 1588051; 1557767; 1528061;
   1498921; 1470336; 1442297; 1414793; 1387813; 1361347; 1335386; 1309921; 1284941; 1260437; 1236401; 1212823; 1189694; 1167007; 1144752;
   1122922; 1101508; 1080502; 1059897; 1039685; 1019858; 1000409; 981332; 962618; 944261; 926254; 908590; 891264; 874267; 857595;
   841241; 825198; 809462; 794026; 778884; 764030; 749460; 735168; 721149; 707396; 693906; 680674; 667693; 654960; 642470;
   630218; 618200; 606411; 594847; 583503; 572376; 561461; 550754; 540251; 529948; 519842; 509929; 500205; 490666; 481309;
   472130; 463127; 454295; 445632; 437134; 428798; 420620; 412599; 404731; 397013; 389442; 382015; 374730; 367584; 360574;
   353698; 346953; 340337; 333847; 327480; 321235; 315109; 309100; 303206; 297424; 291752; 286188; 280730; 275377; 270126;
   264974; 259921; 254965; 250102; 245333; 240654; 236065; 231563; 227148; 222816; 218567; 214399; 210310; 206300; 202365;
   198506; 194721; 191008; 187365; 183792; 180287; 176849; 173477; 170168; 166923; 163740; 160618; 157555; 154550; 151603;
   148712; 145876; 143094; 140365; 137688; 135063; 132487; 129961; 127482; 125051; 122666; 120327; 118033; 115782; 113574;
   111408; 109283; 107199; 105155; 103150; 101183; 99253; 97360; 95504; 93683; 91896; 90144; 88425; 86738; 85084;
   83462; 81870; 80309; 78777; 77275; 75801; 74356; 72938; 71547; 70183; 68844; 67531; 66244; 64980; 63741;
   62526; 61333; 60164; 59016; 57891; 56787; 55704; 54642; 53600; 52578; 51575; 50591; 49627; 48680; 47752;
   46841; 45948; 45072; 44212; 43369; 42542; 41731; 40935; 40154; 39389; 38638; 37901; 37178; 36469; 35774;
   35091; 34422; 33766; 33122; 32490; 31871; 31263; 30667; 30082; 29508; 28945; 28393; 27852; 27321; 26800;
   26289; 25787; 25296; 24813; 24340; 23876; 23421; 22974; 22536; 22106; 21685; 21271; 20865; 20468; 20077;
   19694; 19319; 18950; 18589; 18234; 17887; 17546; 17211; 16883; 16561; 16245; 15935; 15631; 15333; 15041;
   14754; 14473; 14197; 13926; 13660; 13400; 13144; 12894; 12648; 12407; 12170; 11938; 11710; 11487; 11268;
   11053; 10842; 10636; 10433; 10234; 10039; 9847; 9659; 9475; 9294; 9117; 8943; 8773; 8606; 8441;
   8280; 8123; 7968; 7816; 7667; 7520; 7377; 7236; 7098; 6963; 6830; 6700; 6572; 6447; 6324;
   6203; 6085; 5969; 5855; 5744; 5634; 5527; 5421; 5318; 5216; 5117; 5019; 4924; 4830; 4738;
   4647; 4559; 4472; 4386; 4303; 4221; 4140; 4061; 3984; 3908; 3833; 3760; 3689; 3618; 3549;
   3481; 3415; 3350; 3286; 3223; 3162; 3102; 3043; 2984; 2928; 2872; 2817; 2763; 2711; 2659;
   2608; 2558; 2510; 2462; 2415; 2369; 2324; 2279; 2236; 2193; 2151; 2110; 2070; 2031; 1992;
   1954; 1917; 1880; 1844; 1809; 1775; 1741; 1708; 1675; 1643; 1612; 1581; 1551; 1521; 1492;
   1464; 1436; 1408; 1382; 1355; 1329; 1304; 1279; 1255; 1231; 1207; 1184; 1162; 1140; 1118;
   1097; 1076; 1055; 1035; 1015; 996; 977; 958; 940; 922; 905; 887; 870; 854; 837;
   822; 806; 790; 775; 761; 746; 732; 718; 704; 691; 678; 665; 652; 640; 627;
   615; 604; 592; 581; 570; 559; 548; 538; 528; 518; 508; 498; 488; 479; 470;
   461; 452; 444; 435; 427; 419; 411; 403; 395; 388; 380; 373; 366; 359; 352;
   345; 339; 332; 326; 320; 314; 308; 302; 296; 290; 285; 279; 274; 269; 264;
   259; 254; 249; 244; 240; 235; 231; 226; 222; 218; 213; 209; 205; 201; 198;
   194; 190; 187; 183; 179; 176; 173; 169; 166; 163; 160; 157; 154; 151; 148;
   145; 142; 140; 137; 134; 132; 129; 127; 124; 122; 120; 118; 115; 113; 111;
   109; 107; 105; 103; 101; 99; 97; 95; 93; 91; 90; 88; 86; 85; 83;
   82; 80; 78; 77; 75; 74; 73; 71; 70; 69; 67; 66; 65; 63; 62;
   61; 60; 59; 58; 57; 55; 54; 53; 52; 51; 50; 49; 48; 48; 47;
   46; 45; 44; 43; 42; 42; 41; 40; 39; 38; 38; 37; 36; 36; 35;
   34; 34; 33; 32; 32; 31; 31; 30; 29; 29; 28; 28; 27; 27; 26;
   26; 25; 25; 24; 24; 23; 23; 22; 22; 22; 21; 21; 20; 20; 20;
   19; 19; 19; 18; 18; 17; 17; 17; 16; 16; 16; 16; 15; 15; 15;
   14; 14; 14; 14; 13; 13; 13; 13; 12; 12; 12; 12; 11; 11; 11;
   11; 11; 10; 10; 10; 10; 10; 9; 9; 9; 9; 9; 9; 8; 8;
   8; 8; 8; 8; 7; 7; 7; 7; 7; 7; 7; 7; 6; 6; 6;
   6; 6; 6; 6; 6; 6; 5; 5; 5; 5; 5; 5; 5; 5; 5;
   5; 4; 4; 4; 4; 4; 4; 4; 4; 4; 4; 4; 4; 4; 3;
   3; 3; 3; 3; 3; 3; 3; 3; 3; 3; 3; 3; 3; 3; 3;
   3; 2; 2; 2; 2; 2; 2; 2; 2; 2; 2; 2; 2; 2; 2;
   2; 2; 2; 2; 2; 2; 2; 2; 2; 2; 2; 2; 2; 1; 1;
   1; 1; 1; 1; 1; 1; 1; 1; 1; 1; 1; 1; 1; 1; 1;
   1; 1; 1; 1; 1; 1; 1; 1; 1; 1; 1; 1; 1; 1; 1;
   1; 1; 1; 1; 1; 1; 1; 1; 1; 1; 1; 1; 1; 1; 1;
   1; 1; 1; 1; 1; 1; 1; 1; 1; 1; 0].

Inductive CoinbaseError :=
  | PayloadLenBelowMin (len min_len : nat)
  | PayloadLenAboveMax (len max_len : nat)
  | PayloadScriptPublicKeyLenAboveMax (len : nat) (max_len : Z)
  | PayloadCantContainScriptPublicKey (len needed : nat).

Record MinerData := mk_miner { miner_script : ScriptPublicKey; extra_data : list Z }.
Record CoinbaseData := mk_cb { cb_blue_score : Z; cb_subsidy : Z; cb_miner : MinerData }.
Record BlockRewardData := mk_reward {
  rw_subsidy : Z; total_fees : Z; rw_script : ScriptPublicKey }.

Record CoinbaseManager := {
  coinbase_payload_script_public_key_max_len : Z;
  max_coinbase_payload_len : nat;
  deflationary_phase_daa_score : Z;
  pre_deflationary_phase_base_subsidy : Z;
  bps_history : ForkedParam Z;
  subsidy_by_month_table_before : list Z;
  subsidy_by_month_table_after : list Z;
  crescendo_activation_daa_score : Z }.

(** [CoinbaseManager::new]. *)
Definition new_manager {E} (spk_max_len : Z) (payload_max_len : nat) (deflationary : Z)
    (base_subsidy : Z) (bps : ForkedParam Z) : outcome E CoinbaseManager :=
  table_before ← try_map (div_ceil_checked (before bps)) SUBSIDY_BY_MONTH_TABLE;
  table_after ← try_map (div_ceil_checked (after bps)) SUBSIDY_BY_MONTH_TABLE;
  Ok {| coinbase_payload_script_public_key_max_len := spk_max_len;
        max_coinbase_payload_len := payload_max_len;
        deflationary_phase_daa_score := deflationary;
        pre_deflationary_phase_base_subsidy := base_subsidy;
        bps_history := bps;
        subsidy_by_month_table_before := table_before;
        subsidy_by_month_table_after := table_after;
        crescendo_activation_daa_score := activation bps |}.

Definition subsidy_month {E} (self : CoinbaseManager) (daa_score : Z) : outcome E Z :=
  let defl := deflationary_phase_daa_score self in
  let cresc := crescendo_activation_daa_score self in
  seconds ←
    (if cresc <? defl then
       elapsed ← u64_sub daa_score defl; u64_div elapsed (after (bps_history self))
     else if daa_score <? cresc then
       elapsed ← u64_sub daa_score defl; u64_div elapsed (before (bps_history self))
     else
       e1 ← u64_sub cresc defl; s1 ← u64_div e1 (before (bps_history self));
       e2 ← u64_sub daa_score cresc; s2 ← u64_div e2 (after (bps_history self));
       u64_add s1 s2);
  u64_div seconds SECONDS_PER_MONTH.

Definition calc_block_subsidy {E} (self : CoinbaseManager) (daa_score : Z) : outcome E Z :=
  if daa_score <? deflationary_phase_daa_score self
  then Ok (pre_deflationary_phase_base_subsidy self)
  else
    month ← subsidy_month self daa_score;
    let subsidy_table :=
      if is_active (activation (bps_history self)) daa_score
      then subsidy_by_month_table_after self else subsidy_by_month_table_before self in
    unwrap (subsidy_table !! Nat.min (Z.to_nat month) (length subsidy_table - 1)).

(** ** Payload *)

Definition serialize_coinbase_payload (self : CoinbaseManager) (data : CoinbaseData)
    : outcome CoinbaseError (list Z) :=
  let spk := miner_script (cb_miner data) in
  let script_pub_key_len := length (script spk) in
  reject_if (coinbase_payload_script_public_key_max_len self <? Z.of_nat script_pub_key_len)
    (PayloadScriptPublicKeyLenAboveMax script_pub_key_len
       (coinbase_payload_script_public_key_max_len self));;
  Ok (le_bytes 8 (cb_blue_score data) ++ le_bytes 8 (cb_subsidy data)
        ++ le_bytes 2 (version spk) ++ le_bytes 1 (Z.of_nat script_pub_key_len)
        ++ script spk ++ extra_data (cb_miner data)).

Definition modify_coinbase_payload (self : CoinbaseManager) (payload : list Z) (miner : MinerData)
    : outcome CoinbaseError (list Z) :=
  let spk := miner_script miner in
  let script_pub_key_len := length (script spk) in
  reject_if (coinbase_payload_script_public_key_max_len self <? Z.of_nat script_pub_key_len)
    (PayloadScriptPublicKeyLenAboveMax script_pub_key_len
       (coinbase_payload_script_public_key_max_len self));;
  Ok (take (LENGTH_OF_BLUE_SCORE + LENGTH_OF_SUBSIDY) payload
        ++ le_bytes 2 (version spk) ++ le_bytes 1 (Z.of_nat script_pub_key_len)
        ++ script spk ++ extra_data miner).

(** [PayloadParser::take]: [split_at] panics past the end. *)
Definition parser_take {E} (remaining : list Z) (n : nat) : outcome E (list Z * list Z) :=
  if (n <=? length remaining)%nat then Ok (take n remaining, drop n remaining) else Panic.

Definition deserialize_coinbase_payload (self : CoinbaseManager) (payload : list Z)
    : outcome CoinbaseError CoinbaseData :=
  reject_if (length payload <? MIN_PAYLOAD_LENGTH)%nat
    (PayloadLenBelowMin (length payload) MIN_PAYLOAD_LENGTH);;
  reject_if (max_coinbase_payload_len self <? length payload)%nat
    (PayloadLenAboveMax (length payload) (max_coinbase_payload_len self));;
  p1 ← parser_take payload LENGTH_OF_BLUE_SCORE;
  p2 ← parser_take p1.2 LENGTH_OF_SUBSIDY;
  p3 ← parser_take p2.2 LENGTH_OF_SCRIPT_PUB_KEY_VERSION;
  p4 ← parser_take p3.2 LENGTH_OF_SCRIPT_PUB_KEY_LENGTH;
  let script_pub_key_len := from_le_bytes p4.1 in
  reject_if (coinbase_payload_script_public_key_max_len self <? script_pub_key_len)
    (PayloadScriptPublicKeyLenAboveMax (Z.to_nat script_pub_key_len)
       (coinbase_payload_script_public_key_max_len self));;
  reject_if (length p4.2 <? Z.to_nat script_pub_key_len)%nat
    (PayloadCantContainScriptPublicKey (length payload)
       (MIN_PAYLOAD_LENGTH + Z.to_nat script_pub_key_len));;
  p5 ← parser_take p4.2 (Z.to_nat script_pub_key_len);
  Ok (mk_cb (from_le_bytes p1.1) (from_le_bytes p2.1)
        (mk_miner (mk_spk (from_le_bytes p3.1) p5.1) p5.2)).

(** ** The expected coinbase transaction *)

Record CoinbaseTransactionTemplate := mk_template {
  template_tx : Transaction; has_red_reward : bool }.

Section expected.
Context `{TxHashers}.

(** The body of the loop over the blues. *)
Definition push_blue (mergeset_rewards : gmap Hash BlockRewardData)
    (outs : list TransactionOutput) (blue : Hash) : outcome CoinbaseError (list TransactionOutput) :=
  reward_data ← unwrap (mergeset_rewards !! blue);
  amount ← u64_add (rw_subsidy reward_data) (total_fees reward_data);
  Ok (if 0 <? amount then outs ++ [new_output amount (rw_script reward_data)] else outs).

(** The body of the loop over the reds. *)
Definition add_red (mergeset_rewards : gmap Hash BlockRewardData) (mergeset_non_daa : gset Hash)
    (red_reward : Z) (red : Hash) : outcome CoinbaseError Z :=
  reward_data ← unwrap (mergeset_rewards !! red);
  if bool_decide (red ∈ mergeset_non_daa) then u64_add red_reward (total_fees reward_data)
  else reward ← u64_add (rw_subsidy reward_data) (total_fees reward_data);
       u64_add red_reward reward.

Definition expected_coinbase_transaction (self : CoinbaseManager) (daa_score : Z)
    (miner_data : MinerData) (ghostdag_data : GhostdagData)
    (mergeset_rewards : gmap Hash BlockRewardData) (mergeset_non_daa : gset Hash)
    : outcome CoinbaseError CoinbaseTransactionTemplate :=
  outs ← try_fold (push_blue mergeset_rewards) []
           (filter (λ h, h ∉ mergeset_non_daa) (mergeset_blues ghostdag_data));
  red_reward ← try_fold (add_red mergeset_rewards mergeset_non_daa) 0 (mergeset_reds ghostdag_data);
  let outs :=
    if 0 <? red_reward then outs ++ [new_output red_reward (miner_script miner_data)] else outs in
  subsidy ← calc_block_subsidy self daa_score;
  payload ← serialize_coinbase_payload self
              (mk_cb (gd_blue_score ghostdag_data) subsidy miner_data);
  Ok (mk_template
        (new_transaction TX_VERSION_TOCCATA [] outs 0 SUBNETWORK_ID_COINBASE 0 payload)
        (0 <? red_reward)).
End expected.

(** ** The payload codec *)

Definition manager_ok (self : CoinbaseManager) : Prop :=
  0 ≤ coinbase_payload_script_public_key_max_len self < 256.

(** What a [CoinbaseData] value of the source is, and that its payload fits. *)
Definition payload_ok (self : CoinbaseManager) (d : CoinbaseData) : Prop :=
  in_u64 (cb_blue_score d) ∧ in_u64 (cb_subsidy d) ∧
  in_u16 (version (miner_script (cb_miner d))) ∧
  Forall byte_ok (script (miner_script (cb_miner d))) ∧
  Forall byte_ok (extra_data (cb_miner d)) ∧
  Z.of_nat (length (script (miner_script (cb_miner d))))
    ≤ coinbase_payload_script_public_key_max_len self ∧
  (MIN_PAYLOAD_LENGTH + length (script (miner_script (cb_miner d)))
     + length (extra_data (cb_miner d)) ≤ max_coinbase_payload_len self)%nat.

#[global] Instance payload_ok_dec self d : Decision (payload_ok self d).
Proof. unfold payload_ok. apply _. Defined.

Lemma parser_take_Ok {E} l n p :
  parser_take (E := E) l n = Ok p ↔ l = p.1 ++ p.2 ∧ length p.1 = n.
Proof.
  unfold parser_take. destruct p as [a b]; simpl. destruct (Nat.leb_spec n (length l)); split.
  - intros [= <- <-]. rewrite take_drop, length_take. split; [done|lia].
  - intros [-> <-]. by rewrite take_app_length, drop_app_length.
  - done.
  - intros [-> <-]. rewrite length_app in *. lia.
Qed.

Lemma parser_take_app {E} (a b : list Z) :
  parser_take (E := E) (a ++ b) (length a) = Ok (a, b).
Proof. by apply parser_take_Ok. Qed.

Lemma parser_take_total {E} (l : list Z) n :
  (n ≤ length l)%nat →
  ∃ a b, parser_take (E := E) l n = Ok (a, b) ∧ length b = (length l - n)%nat.
Proof.
  intros Hn. exists (take n l), (drop n l). unfold parser_take.
  rewrite (proj2 (Nat.leb_le _ _) Hn), length_drop. done.
Qed.

(** Reading back an [n]-byte integer. *)
Lemma parser_take_le {E} n z (b : list Z) :
  parser_take (E := E) (le_bytes n z ++ b) n = Ok (le_bytes n z, b).
Proof. apply parser_take_Ok. split; [done|apply length_le_bytes]. Qed.

Lemma from_le_bytes_range n l m :
  length l = n → Forall byte_ok l → 256 ^ Z.of_nat n = m → 0 ≤ from_le_bytes l < m.
Proof. intros <- Hl <-. by apply from_le_bytes_bound. Qed.

Lemma le_from_le n l : length l = n → Forall byte_ok l → le_bytes n (from_le_bytes l) = l.
Proof. intros <-. apply le_bytes_from_le_bytes. Qed.

(** Field projections only: [simpl] would also unfold the encodings. *)
Ltac cb_fields :=
  cbn [cb_blue_score cb_subsidy cb_miner miner_script extra_data version script].

(** The next [take] succeeds. *)
Ltac parser_step :=
  match goal with
  | |- context [@parser_take ?E ?l ?n] =>
      destruct (parser_take_total (E := E) l n) as (? & ? & -> & ?);
        [lia|cbn [mbind outcome_bind fst snd]]
  end.

Section codec.
Context (self : CoinbaseManager).
Context (Hself : manager_ok self).

Lemma deserialize_serialize d :
  payload_ok self d →
  ∃ p, serialize_coinbase_payload self d = Ok p ∧ deserialize_coinbase_payload self p = Ok d.
Proof.
  destruct d as [bs sub [[v s] x]]; unfold payload_ok.
  cb_fields.
  intros (Hbs & Hsub & Hv & Hs & Hx & Hlen & Hmax).
  unfold in_u64, in_u16, u64_max, manager_ok in *.
  exists (le_bytes 8 bs ++ le_bytes 8 sub ++ le_bytes 2 v
            ++ le_bytes 1 (Z.of_nat (length s)) ++ s ++ x). split.
  { unfold serialize_coinbase_payload; cb_fields. apply then_Ok; split.
    - apply reject_if_Ok. by apply Z.ltb_ge.
    - done. }
  unfold deserialize_coinbase_payload.
  assert (HL : length (le_bytes 8 bs ++ le_bytes 8 sub ++ le_bytes 2 v
            ++ le_bytes 1 (Z.of_nat (length s)) ++ s ++ x)
          = (MIN_PAYLOAD_LENGTH + length s + length x)%nat).
  { rewrite !length_app, !length_le_bytes. unfold MIN_PAYLOAD_LENGTH; simpl. lia. }
  rewrite HL.
  apply then_Ok; split; [apply reject_if_Ok, Nat.ltb_ge; lia|].
  apply then_Ok; split; [apply reject_if_Ok, Nat.ltb_ge; lia|].
  unfold LENGTH_OF_BLUE_SCORE, LENGTH_OF_SUBSIDY, LENGTH_OF_SCRIPT_PUB_KEY_VERSION,
    LENGTH_OF_SCRIPT_PUB_KEY_LENGTH.
  do 4 (rewrite parser_take_le; cbn [mbind outcome_bind fst snd]).
  rewrite !from_le_bytes_le_bytes by lia. cbv zeta. rewrite Nat2Z.id.
  apply then_Ok; split; [apply reject_if_Ok, Z.ltb_ge; lia|].
  apply then_Ok; split; [apply reject_if_Ok, Nat.ltb_ge; rewrite length_app; lia|].
  by rewrite parser_take_app.
Qed.

Lemma serialize_deserialize p d :
  Forall byte_ok p → deserialize_coinbase_payload self p = Ok d →
  serialize_coinbase_payload self d = Ok p ∧ payload_ok self d.
Proof.
  intros Hp Hd. unfold deserialize_coinbase_payload in Hd.
  apply then_Ok in Hd as (_ & Hd). apply then_Ok in Hd as (Hmax & Hd).
  apply reject_if_Ok, Nat.ltb_ge in Hmax.
  apply bind_Ok in Hd as ([a r1] & H1 & Hd). apply bind_Ok in Hd as ([b r2] & H2 & Hd).
  apply bind_Ok in Hd as ([c r3] & H3 & Hd). apply bind_Ok in Hd as ([e r4] & H4 & Hd).
  cbv zeta in Hd; cbn [fst snd] in *.
  apply then_Ok in Hd as (Hspk & Hd). apply then_Ok in Hd as (_ & Hd).
  apply bind_Ok in Hd as ([s x] & H5 & Hd). injection Hd as <-. cbn [fst snd] in *.
  apply parser_take_Ok in H1 as [-> L1], H2 as [-> L2], H3 as [-> L3], H4 as [-> L4],
    H5 as [-> L5]; cbn [fst snd] in *.
  apply reject_if_Ok, Z.ltb_ge in Hspk.
  repeat rewrite Forall_app in Hp. destruct Hp as (Ha & Hb & Hc & He & Hs & Hx).
  pose proof (from_le_bytes_range _ _ (2 ^ 64) L1 Ha eq_refl).
  pose proof (from_le_bytes_range _ _ (2 ^ 64) L2 Hb eq_refl).
  pose proof (from_le_bytes_range _ _ (2 ^ 16) L3 Hc eq_refl).
  pose proof (from_le_bytes_range _ _ (2 ^ 8) L4 He eq_refl).
  rewrite !length_app in Hmax. split.
  - unfold serialize_coinbase_payload; cb_fields. apply then_Ok; split.
    + apply reject_if_Ok, Z.ltb_ge. lia.
    + rewrite L5, Z2Nat.id by lia.
      by rewrite (le_from_le 8 a), (le_from_le 8 b), (le_from_le 2 c), (le_from_le 1 e).
  - unfold payload_ok, in_u64, in_u16, u64_max, MIN_PAYLOAD_LENGTH; cb_fields.
    split_and!; try done; lia.
Qed.

Lemma deserialize_no_panic p : deserialize_coinbase_payload self p ≠ Panic.
Proof.
  unfold deserialize_coinbase_payload.
  destruct (Nat.ltb_spec (length p) MIN_PAYLOAD_LENGTH) as [|Hmin]; [done|].
  destruct (Nat.ltb_spec (max_coinbase_payload_len self) (length p)); [done|].
  cbn [reject_if mbind outcome_bind]. unfold MIN_PAYLOAD_LENGTH in Hmin.
  do 4 parser_step.
  cbv zeta. match goal with |- context [reject_if (?a <? ?b) _] => destruct (a <? b) end; [done|].
  cbn [reject_if mbind outcome_bind].
  match goal with |- context [reject_if (?a <? ?b)%nat _] => destruct (Nat.ltb_spec a b) end; [done|].
  cbn [reject_if mbind outcome_bind].
  by parser_step.
Qed.
End codec.

(** (C37) The coinbase payload codec is exact: parsing never panics, and it returns [d] on
    the bytes [p] exactly when [d] is well formed, fits the limits, and serializes to
    [p]; so serializing and parsing are inverse to each other. *)
Theorem coinbase_payload_exact self p d :
  manager_ok self → Forall byte_ok p →
  deserialize_coinbase_payload self p ≠ Panic ∧
  (deserialize_coinbase_payload self p = Ok d ↔
   payload_ok self d ∧ serialize_coinbase_payload self d = Ok p).
Proof.
  intros Hs Hp. split; [apply deserialize_no_panic|]. split.
  - intros Hd. by apply serialize_deserialize in Hd as [? ?].
  - intros [Hok Hser]. destruct (deserialize_serialize self Hs d Hok) as (p' & Hp' & Hd). congruence.
Qed.

Definition demo_manager : CoinbaseManager :=
  {| coinbase_payload_script_public_key_max_len := 150;
     max_coinbase_payload_len := 204;
     deflationary_phase_daa_score := 0;
     pre_deflationary_phase_base_subsidy := 0;
     bps_history := mk_forked 10 10 always;
     subsidy_by_month_table_before := [7; 0];
     subsidy_by_month_table_after := [7; 0];
     crescendo_activation_daa_score := 0 |}.
Definition demo_data : CoinbaseData := mk_cb 258 7 (mk_miner (mk_spk 1 [32; 5]) [77]).
Definition demo_payload : list Z :=
  [2; 1; 0; 0; 0; 0; 0; 0; 7; 0; 0; 0; 0; 0; 0; 0; 1; 0; 2; 32; 5; 77].

Lemma coinbase_payload_exact_witness :
  deserialize_coinbase_payload demo_manager demo_payload = Ok demo_data.
Proof.
  apply (coinbase_payload_exact demo_manager demo_payload demo_data).
  - unfold manager_ok; simpl; lia.
  - by_decide.
  - split; [by_decide|reflexivity].
Defined.

(** [modify_coinbase_payload] replaces the miner and nothing else: on the payload of
    [d] it returns a payload that parses to [d] with the new miner data. *)
Theorem modify_replaces_miner self p d miner :
  manager_ok self → Forall byte_ok p → deserialize_coinbase_payload self p = Ok d →
  payload_ok self (mk_cb (cb_blue_score d) (cb_subsidy d) miner) →
  ∃ p', modify_coinbase_payload self p miner = Ok p' ∧
    deserialize_coinbase_payload self p' = Ok (mk_cb (cb_blue_score d) (cb_subsidy d) miner).
Proof.
  intros Hs Hp Hd Hok. apply serialize_deserialize in Hd as [Hser _]; [|done..].
  destruct (deserialize_serialize self Hs _ Hok) as (p' & Hp' & Hd'). exists p'. split; [|done].
  rewrite <- Hp'. unfold serialize_coinbase_payload in *. cb_fields.
  apply then_Ok in Hser as (_ & Hser). apply Ok_inj in Hser as <-. unfold modify_coinbase_payload.
  match goal with |- context [take _ (_ ++ _ ++ ?t)] =>
    replace (take _ _) with (le_bytes 8 (cb_blue_score d) ++ le_bytes 8 (cb_subsidy d));
    [by rewrite <- (app_assoc (le_bytes 8 _))|rewrite (app_assoc (le_bytes 8 _) _ t)]
  end.
  rewrite take_app_length'; [done|]. by rewrite length_app, !length_le_bytes.
Qed.

Lemma modify_replaces_miner_witness :
  ∃ p', modify_coinbase_payload demo_manager demo_payload (mk_miner (mk_spk 0 [9]) []) = Ok p' ∧
    deserialize_coinbase_payload demo_manager p' = Ok (mk_cb 258 7 (mk_miner (mk_spk 0 [9]) [])).
Proof.
  apply (modify_replaces_miner demo_manager demo_payload demo_data).
  - unfold manager_ok; simpl; lia.
  - by_decide.
  - reflexivity.
  - by_decide.
Defined.

(** ** What the expected coinbase pays *)
Section pays.
Context `{TxHashers}.
Context (rewards : gmap Hash BlockRewardData) (non_daa : gset Hash).

(** Fees always count, the subsidy only inside the DAA window. *)
Definition reward_of (h : Hash) : Z :=
  match rewards !! h with
  | Some r => total_fees r + if bool_decide (h ∈ non_daa) then 0 else rw_subsidy r
  | None => 0
  end.

(** Amounts are unsigned. *)
Definition rewards_unsigned : Prop := map_Forall (λ _ r, 0 ≤ rw_subsidy r ∧ 0 ≤ total_fees r) rewards.
#[global] Instance rewards_unsigned_dec : Decision rewards_unsigned.
Proof. apply _. Defined.
Context (Hun : rewards_unsigned).

(** What can be paid: every block to pay for has a reward entry, and the reward of each blue
    block inside the DAA window and the sum of the rewards of the reds are 64-bit amounts. *)
Definition blue_payable (h : Hash) : Prop := is_Some (rewards !! h) ∧ reward_of h ≤ u64_max.
Definition reds_payable (l : list Hash) : Prop :=
  Forall (λ h, is_Some (rewards !! h)) l ∧ Zsum (reward_of <$> l) ≤ u64_max.
Definition payable (gd : GhostdagData) : Prop :=
  Forall blue_payable (filter (λ h, h ∉ non_daa) (mergeset_blues gd)) ∧ reds_payable (mergeset_reds gd).

Definition blue_output (h : Hash) : list TransactionOutput :=
  match rewards !! h with
  | Some r => if 0 <? rw_subsidy r + total_fees r
              then [new_output (rw_subsidy r + total_fees r) (rw_script r)] else []
  | None => []
  end.
Definition blue_outputs (l : list Hash) : list TransactionOutput := flat_map blue_output l.

Lemma reward_of_nonneg h : 0 ≤ reward_of h.
Proof. unfold reward_of. destruct (rewards !! h) as [r|] eqn:Hr; [|done]. apply Hun in Hr. case_bool_decide; lia. Qed.
Lemma rewards_nonneg l : 0 ≤ Zsum (reward_of <$> l).
Proof. apply Zsum_nonneg, Forall_fmap, Forall_forall. intros h _. apply reward_of_nonneg. Qed.

(** The loop over the blues pushes the outputs, or panics. *)
Lemma push_blue_cases outs h :
  h ∉ non_daa → (blue_payable h ∧ push_blue rewards outs h = Ok (outs ++ blue_output h)) ∨
  (¬ blue_payable h ∧ push_blue rewards outs h = Panic).
Proof.
  intros Hh. unfold push_blue, blue_payable, blue_output, reward_of.
  destruct (rewards !! h) as [r|]; cbn [unwrap mbind outcome_bind]; [|right; split; [by intros [[? ?] _]|done]].
  rewrite bool_decide_eq_false_2 by done. unfold u64_add. destruct (Z.leb_spec (rw_subsidy r + total_fees r) u64_max) as [Hle|Hgt];
    [|right; split; [intros [_ ?]; lia|done]]. left. split; [split; [by eexists|lia]|]. cbn [mbind outcome_bind].
  destruct (0 <? _); by rewrite ?app_nil_r.
Qed.
Lemma push_blues l outs :
  Forall (λ h, h ∉ non_daa) l →
  (Forall blue_payable l ∧ try_fold (push_blue rewards) outs l = Ok (outs ++ blue_outputs l)) ∨
  (¬ Forall blue_payable l ∧ try_fold (push_blue rewards) outs l = Panic).
Proof.
  intros Hl. revert outs. induction Hl as [|h l Hh Hl IH]; intros outs; cbn [try_fold].
  { left. split; [constructor|by rewrite app_nil_r]. }
  rewrite Forall_cons. destruct (push_blue_cases outs h Hh) as [[Hp ->]|[Hp ->]]; [|right; split; [tauto|done]]. cbn [mbind outcome_bind].
  destruct (IH (outs ++ blue_output h)) as [[Hb ->]|[Hb ->]]; [left|right; split; [tauto|done]]. split; [done|by rewrite <- app_assoc].
Qed.

(** The loop over the reds adds the rewards, or panics. *)
Lemma add_reds l s :
  0 ≤ s → (Forall (λ h, is_Some (rewards !! h)) l ∧ s + Zsum (reward_of <$> l) ≤ u64_max ∧
    try_fold (add_red rewards non_daa) s l = Ok (s + Zsum (reward_of <$> l))) ∨
  (¬ (Forall (λ h, is_Some (rewards !! h)) l ∧ s + Zsum (reward_of <$> l) ≤ u64_max) ∧
    try_fold (add_red rewards non_daa) s l = Panic) ∨ u64_max < s.
Proof.
  intros Hs. destruct (Z.lt_ge_cases u64_max s) as [|Hmax]; [tauto|]. revert s Hs Hmax. induction l as [|h l IH]; intros s Hs Hmax; cbn [try_fold].
  { left. change (Zsum (reward_of <$> [])) with 0. rewrite Z.add_0_r. split; [constructor|done]. }
  rewrite Forall_cons, fmap_cons, Zsum_cons. pose proof (reward_of_nonneg h) as Hh. pose proof (rewards_nonneg l) as Hr.
  assert (Hadd : is_Some (rewards !! h) → add_red rewards non_daa s h = if s + reward_of h <=? u64_max then Ok (s + reward_of h) else Panic).
  { intros [r Hx]. pose proof (Hun h r Hx) as Hrr. cbv beta in Hrr. unfold add_red, reward_of. rewrite Hx. cbn [unwrap mbind outcome_bind]. unfold u64_add.
    destruct (bool_decide (h ∈ non_daa)); [by rewrite Z.add_0_r|]. rewrite (Z.add_comm (total_fees r)).
    destruct (Z.leb_spec (rw_subsidy r + total_fees r) u64_max) as [|Hgt]; cbn [mbind outcome_bind]; [done|].
    by destruct (Z.leb_spec (s + (rw_subsidy r + total_fees r)) u64_max); [lia|]. }
  destruct (rewards !! h) as [r|] eqn:Hx; [|right; left; split; [by intros [[[? ?] _] _]|unfold add_red; by rewrite Hx]].
  rewrite Hadd by by eexists. destruct (Z.leb_spec (s + reward_of h) u64_max) as [Hle|Hgt]; cbn [mbind outcome_bind];
    [|right; left; split; [intros [_ ?]; lia|done]].
  rewrite Z.add_assoc. destruct (IH (s + reward_of h) ltac:(lia) Hle) as [(? & ? & ->)|[[Hn ->]|?]]; [left|right; left; tauto|lia].
  split; [split; [by eexists|done]|]. by split.
Qed.

Lemma blue_outputs_total l :
  Forall blue_payable l → Forall (λ h, h ∉ non_daa) l →
  outputs_total (blue_outputs l) = Zsum (reward_of <$> l) ∧
  Forall (λ o, 0 < value o) (blue_outputs l) ∧ (length (blue_outputs l) ≤ length l)%nat.
Proof.
  induction 1 as [|h l [[r Hx] _] Hl IH]; intros Hd; inversion Hd as [|? ? Hd1 Hd2]; subst; [done|].
  destruct (IH Hd2) as (IH1 & IH2 & IH3). pose proof (Hun h r Hx) as Hr. cbv beta in Hr.
  rewrite fmap_cons, Zsum_cons, <- IH1. unfold outputs_total, reward_of.
  change (blue_outputs (h :: l)) with (blue_output h ++ blue_outputs l). unfold blue_output. rewrite Hx, bool_decide_eq_false_2 by done.
  rewrite fmap_app, Zsum_app, Forall_app, length_app.
  destruct (Z.ltb_spec 0 (rw_subsidy r + total_fees r)); cbn [fmap list_fmap Zsum foldr length value new_output];
    (split_and!; [lia|by repeat constructor|done|lia]).
Qed.

(** The template is built when the rewards can be paid, and the code panics otherwise. *)
Lemma expected_coinbase_built self daa miner gd s :
  manager_ok self → calc_block_subsidy (E := CoinbaseError) self daa = Ok s →
  payload_ok self (mk_cb (gd_blue_score gd) s miner) →
  (¬ payable gd ∧ expected_coinbase_transaction self daa miner gd rewards non_daa = Panic) ∨
  payable gd ∧ ∃ p, deserialize_coinbase_payload self p = Ok (mk_cb (gd_blue_score gd) s miner) ∧
    let red := Zsum (reward_of <$> mergeset_reds gd) in
    expected_coinbase_transaction self daa miner gd rewards non_daa =
      Ok (mk_template (new_transaction TX_VERSION_TOCCATA []
            (if 0 <? red then blue_outputs (filter (λ h, h ∉ non_daa) (mergeset_blues gd)) ++ [new_output red (miner_script miner)]
             else blue_outputs (filter (λ h, h ∉ non_daa) (mergeset_blues gd)))
            0 SUBNETWORK_ID_COINBASE 0 p) (0 <? red)).
Proof.
  intros Hm Hs Hok. destruct (deserialize_serialize self Hm _ Hok) as (p & Hp & Hd). unfold expected_coinbase_transaction, payable, reds_payable.
  assert (Hdf : Forall (λ h, h ∉ non_daa) (filter (λ h, h ∉ non_daa) (mergeset_blues gd))) by (apply Forall_forall; by intros h [? _]%list_elem_of_filter).
  destruct (push_blues _ [] Hdf) as [[Hb ->]|[Hb ->]]; [|left; split; [tauto|done]]. cbn [mbind outcome_bind].
  destruct (add_reds (mergeset_reds gd) 0) as [(Hr & Hmax & ->)|[[Hn ->]|Hmax]]; [done| |left; split; [|done]; intros (_ & ? & ?); apply Hn; by split|by unfold u64_max in Hmax].
  right. split; [split; [done|by split]|]. exists p. split; [done|]. cbn [mbind outcome_bind]. rewrite Hs. cbn [mbind outcome_bind].
  rewrite Hp. cbn [mbind outcome_bind]. by rewrite !app_nil_l, Z.add_0_l.
Qed.
End pays.

(** (C36) The expected coinbase pays exactly what the mergeset earned.  Building it never
    returns an error when the miner's script and data fit the payload; it panics exactly when
    the rewards cannot be paid: a block to pay for has no reward entry, or the reward of a
    blue block inside the DAA window or the sum over the reds exceeds 64 bits.  Otherwise the
    transaction has no inputs, only positive outputs, at most one per blue block plus one,
    which sum to the fees and subsidies of the blue blocks inside the window plus the fees of
    all red blocks and the subsidies of those inside the window; its payload parses back to
    the block's blue score, subsidy and miner. *)
Theorem expected_coinbase_pays `{TxHashers} rewards non_daa self daa miner gd s :
  rewards_unsigned rewards → manager_ok self →
  calc_block_subsidy (E := CoinbaseError) self daa = Ok s →
  payload_ok self (mk_cb (gd_blue_score gd) s miner) →
  match expected_coinbase_transaction self daa miner gd rewards non_daa with
  | Panic => ¬ payable rewards non_daa gd
  | Err _ => False
  | Ok t =>
      payable rewards non_daa gd ∧ inputs (template_tx t) = [] ∧ is_coinbase (template_tx t) = true ∧
      outputs_total (outputs (template_tx t)) =
        Zsum (reward_of rewards non_daa <$> filter (λ h, h ∉ non_daa) (mergeset_blues gd))
          + Zsum (reward_of rewards non_daa <$> mergeset_reds gd) ∧
      Forall (λ o, 0 < value o) (outputs (template_tx t)) ∧
      (length (outputs (template_tx t)) ≤ length (mergeset_blues gd) + 1)%nat ∧
      deserialize_coinbase_payload self (payload (template_tx t)) = Ok (mk_cb (gd_blue_score gd) s miner)
  end.
Proof.
  intros Hun Hm Hs Hok. destruct (expected_coinbase_built rewards non_daa Hun self daa miner gd s Hm Hs Hok) as [[Hn ->]|(Hpay & p & Hd & ->)]; [done|].
  split; [done|]. destruct Hpay as [Hb _].
  assert (Hdf : Forall (λ h, h ∉ non_daa) (filter (λ h, h ∉ non_daa) (mergeset_blues gd))) by (apply Forall_forall; by intros h [? _]%list_elem_of_filter).
  destruct (blue_outputs_total rewards non_daa Hun _ Hb Hdf) as (H1 & H2 & H3).
  pose proof (length_filter (λ h, h ∉ non_daa) (mergeset_blues gd)). pose proof (rewards_nonneg rewards non_daa Hun (mergeset_reds gd)).
  cbn [template_tx new_transaction finalize inputs outputs payload]. split; [done|]. split; [done|].
  destruct (Z.ltb_spec 0 (Zsum (reward_of rewards non_daa <$> mergeset_reds gd))).
  - unfold outputs_total in *. rewrite fmap_app, Zsum_app, H1, Forall_app, length_app. simpl.
    split_and!; [lia|done|by repeat constructor|lia|done].
  - split_and!; [lia|done|lia|done].
Qed.

#[local] Instance demo_tx_hashers : TxHashers :=
  {| TransactionHash := take 32; TransactionID := take 32; TransactionRest := take 32;
     TransactionV1Id := take 32; PayloadDigest := take 32; TransactionSigningHash := take 32;
     TransactionSigningHashECDSA := take 32; CovenantID := take 32 |}.
Definition demo_rewards : gmap Hash BlockRewardData :=
  {[ [1] := mk_reward 7 3 (mk_spk 0 [1]); [2] := mk_reward 0 0 (mk_spk 0 [2]);
     [3] := mk_reward 7 1 (mk_spk 0 [3]); [4] := mk_reward 7 2 (mk_spk 0 [4]) ]}.

Lemma expected_coinbase_pays_witness :
  match expected_coinbase_transaction demo_manager 500 (cb_miner demo_data)
         (mk_ghostdag 258 0 [1] [[1]; [2]] [[3]; [4]] ∅) demo_rewards {[ [4] ]} with
  | Ok t => outputs_total (outputs (template_tx t)) = 20
  | _ => False
  end.
Proof.
  pose proof (expected_coinbase_pays demo_rewards {[ [4] ]} demo_manager 500 (cb_miner demo_data)
    (mk_ghostdag 258 0 [1] [[1]; [2]] [[3]; [4]] ∅) 7) as Hpays.
  destruct (expected_coinbase_transaction _ _ _ _ _ _) as [t|e|] eqn:Ht in Hpays |- *.
  - destruct Hpays as (_ & _ & _ & Hsum & _); [by_decide|unfold manager_ok; simpl; lia|reflexivity|by_decide|]. rewrite Hsum. reflexivity.
  - destruct Hpays; [by_decide|unfold manager_ok; simpl; lia|reflexivity|by_decide].
  - vm_compute in Ht. discriminate.
Defined.

(** ** Total emission *)

(** Sum of the subsidies of the scores below [n]. *)
Definition subsidy_at (self : CoinbaseManager) (daa_score : Z) : Z :=
  match calc_block_subsidy (E := CoinbaseError) self daa_score with Ok s => s | _ => 0 end.
Definition emitted (self : CoinbaseManager) (n : Z) : Z := Zsum (subsidy_at self <$> seqZ 0 n).

Lemma Zsum_fmap_const {A} (f : A → Z) c l :
  (∀ x, x ∈ l → f x = c) → Zsum (f <$> l) = Z.of_nat (length l) * c.
Proof.
  induction l as [|x l IH]; intros Hf; [done|].
  rewrite fmap_cons, Zsum_cons, IH by (intros; apply Hf; by right).
  rewrite (Hf x) by by left. cbn [length]. lia.
Qed.

(** A function of [d / c] summed over [k] full periods. *)
Lemma Zsum_periods (f : Z → Z) c (k : nat) :
  0 < c →
  Zsum ((λ d, f (d / c)) <$> seqZ 0 (Z.of_nat k * c)) = c * Zsum (f <$> seqZ 0 (Z.of_nat k)).
Proof.
  intros Hc. induction k as [|k IH]; [change (0 = c * 0); lia|].
  rewrite Nat2Z.inj_succ, Z.mul_succ_l, <- Z.add_1_r.
  rewrite !seqZ_app, !fmap_app, !Zsum_app, IH by lia.
  rewrite (Zsum_fmap_const _ (f (Z.of_nat k)) (seqZ _ c)).
  - rewrite length_seqZ, Z2Nat.id by lia. change (seqZ (0 + Z.of_nat k) 1) with [Z.of_nat k].
    change (f <$> [Z.of_nat k]) with [f (Z.of_nat k)]. rewrite Zsum_cons.
    change (Zsum []) with 0. lia.
  - intros d Hd%elem_of_seqZ. f_equal. symmetry. apply Z.div_unique with (d - Z.of_nat k * c); lia.
Qed.

(** [MAINNET_PARAMS]: ten blocks per second from block 0, no pre-deflationary phase. *)
Definition mainnet_bps_history : ForkedParam Z := bps_history_of 100 100 always.
Definition mainnet_manager : outcome CoinbaseError CoinbaseManager :=
  new_manager 150 204 0 (50000000000 / 10) mainnet_bps_history.
Definition BLOCKS_PER_MONTH : Z := 10 * SECONDS_PER_MONTH.
Definition MAINNET_EMISSION : Z := 21000013335360000.

Definition subsidy_of_month (m : Z) : Z :=
  default 0 (((λ x, div_ceil x 10) <$> SUBSIDY_BY_MONTH_TABLE) !! Nat.min (Z.to_nat m) 1015).

Lemma ten_bps_month {E} self d :
  deflationary_phase_daa_score self = 0 → crescendo_activation_daa_score self = 0 →
  before (bps_history self) = 10 → after (bps_history self) = 10 → 0 ≤ d ≤ u64_max →
  subsidy_month (E := E) self d = Ok (d / BLOCKS_PER_MONTH).
Proof.
  intros Hdef Hcr Hb Ha Hd. unfold subsidy_month. rewrite Hdef, Hcr, Hb, Ha.
  rewrite Z.ltb_irrefl, (proj2 (Z.ltb_ge d 0)) by lia.
  rewrite (proj2 (u64_sub_Ok 0 0 0)) by lia. rewrite (proj2 (u64_sub_Ok d 0 d)) by lia.
  unfold u64_div. change (10 =? 0) with false. cbn [mbind outcome_bind].
  assert (0 ≤ d / 10 ≤ d).
  { split; [apply Z.div_pos; lia|].
    etrans; [apply (Z.div_le_compat_l d 1 10); lia|]. rewrite Z.div_1_r. lia. }
  rewrite u64_add_total; [|change (0 / 10) with 0; lia]. cbn [mbind outcome_bind].
  change (SECONDS_PER_MONTH =? 0) with false. f_equal. unfold BLOCKS_PER_MONTH.
  change (0 / 10) with 0. rewrite Z.add_0_l. apply Z.div_div; done.
Qed.

Lemma mainnet_subsidy self d :
  mainnet_manager = Ok self → 0 ≤ d ≤ u64_max →
  calc_block_subsidy (E := CoinbaseError) self d = Ok (subsidy_of_month (d / BLOCKS_PER_MONTH)).
Proof.
  intros Hm Hd. unfold mainnet_manager, new_manager in Hm.
  apply bind_Ok in Hm as (tb & Htb & Hm). apply bind_Ok in Hm as (ta & Hta & Hm).
  apply Ok_inj in Hm as <-.
  assert (ta = ((λ x, div_ceil x 10) <$> SUBSIDY_BY_MONTH_TABLE)) as ->.
  { apply (Ok_inj (E := CoinbaseError)). rewrite <- Hta. vm_compute. reflexivity. }
  unfold calc_block_subsidy. rewrite ten_bps_month by (done || reflexivity).
  cbn [deflationary_phase_daa_score bps_history subsidy_by_month_table_after].
  rewrite (proj2 (Z.ltb_ge d 0)) by lia. cbn [mbind outcome_bind]. cbv zeta.
  change (is_active (activation mainnet_bps_history) d) with (0 <=? d).
  rewrite (proj2 (Z.leb_le 0 d)) by lia. unfold subsidy_of_month.
  rewrite length_fmap. change (length SUBSIDY_BY_MONTH_TABLE - 1)%nat with 1015%nat.
  destruct (lookup_lt_is_Some_2 ((λ x, div_ceil x 10) <$> SUBSIDY_BY_MONTH_TABLE)
    (Nat.min (Z.to_nat (d / BLOCKS_PER_MONTH)) 1015)) as [x Hx].
  { rewrite length_fmap. change (length SUBSIDY_BY_MONTH_TABLE) with 1016%nat. lia. }
  rewrite Hx. done.
Qed.

Lemma subsidy_of_month_nonneg m : 0 ≤ subsidy_of_month m.
Proof.
  unfold subsidy_of_month. destruct (_ !! _) as [x|] eqn:Hx; [|done]. simpl.
  assert (Hall : Forall (λ x, 0 ≤ x) ((λ x, div_ceil x 10) <$> SUBSIDY_BY_MONTH_TABLE)) by by_decide.
  by eapply Forall_lookup in Hx.
Qed.

Lemma subsidy_of_month_end m : 1015 ≤ m → subsidy_of_month m = 0.
Proof. intros Hm. unfold subsidy_of_month. rewrite Nat.min_r by lia. by vm_compute. Qed.

Lemma emitted_split self a b :
  0 ≤ a ≤ b → emitted self b = emitted self a + Zsum (subsidy_at self <$> seqZ a (b - a)).
Proof.
  intros. unfold emitted. replace b with (a + (b - a)) at 1 by lia.
  by rewrite seqZ_app, fmap_app, Zsum_app by lia.
Qed.

Lemma mainnet_emission_full self :
  mainnet_manager = Ok self → emitted self (1016 * BLOCKS_PER_MONTH) = MAINNET_EMISSION.
Proof.
  intros Hm. unfold emitted.
  rewrite (list_fmap_ext _ (λ d, subsidy_of_month (d / BLOCKS_PER_MONTH))).
  - rewrite (Zsum_periods _ _ 1016) by done. vm_compute. reflexivity.
  - intros i d Hi%list_elem_of_lookup_2%elem_of_seqZ. unfold subsidy_at.
    rewrite (mainnet_subsidy _ _ Hm); [done|]. unfold BLOCKS_PER_MONTH, SECONDS_PER_MONTH, u64_max in *.
    lia.
Qed.

(** (C38) Mainnet emission: every score has a subsidy, the sum of all subsidies of any
    prefix of the chain is at most 21,000,013,335,360,000 petals, and the chain reaches
    that sum after 1016 months; it exceeds [MAX_SOMPI], the documented cap of 210,000,000 coins,
    because the per-second table is rounded up to a per-block table. *)
Theorem mainnet_emission self n :
  mainnet_manager = Ok self → 0 ≤ n ≤ u64_max →
  (∃ s, calc_block_subsidy (E := CoinbaseError) self n = Ok s) ∧
  emitted self n ≤ MAINNET_EMISSION ∧
  (1016 * BLOCKS_PER_MONTH ≤ n → emitted self n = MAINNET_EMISSION) ∧
  MAX_SOMPI < MAINNET_EMISSION.
Proof.
  intros Hm Hn.
  assert (Hlt : 1016 * BLOCKS_PER_MONTH ≤ u64_max) by done.
  assert (Hnn : ∀ a k, 0 ≤ a → a + k ≤ u64_max → 0 ≤ Zsum (subsidy_at self <$> seqZ a k)).
  { intros a k Ha Hk. apply Zsum_nonneg, Forall_fmap, Forall_forall. intros d Hd%elem_of_seqZ.
    unfold subsidy_at; simpl. rewrite (mainnet_subsidy _ _ Hm) by lia.
    apply subsidy_of_month_nonneg. }
  assert (Heq : 1016 * BLOCKS_PER_MONTH ≤ n → emitted self n = MAINNET_EMISSION).
  { intros Hge. rewrite (emitted_split _ (1016 * BLOCKS_PER_MONTH)), (mainnet_emission_full _ Hm) by done.
    rewrite (Zsum_fmap_const _ 0); [lia|]. intros d Hd%elem_of_seqZ. unfold subsidy_at.
    assert (0 < BLOCKS_PER_MONTH) by done.
    rewrite (mainnet_subsidy _ _ Hm) by lia. apply subsidy_of_month_end.
    apply Z.div_le_lower_bound; lia. }
  split; [eexists; by apply mainnet_subsidy|]. split; [|done].
  destruct (Z.le_gt_cases (1016 * BLOCKS_PER_MONTH) n) as [Hge|Hgt]; [rewrite Heq by done; lia|].
  rewrite <- (mainnet_emission_full _ Hm), (emitted_split _ n (1016 * BLOCKS_PER_MONTH)) by lia.
  pose proof (Hnn n (1016 * BLOCKS_PER_MONTH - n)). lia.
Qed.

Lemma mainnet_emission_witness :
  match mainnet_manager with
  | Ok self => emitted self (1016 * BLOCKS_PER_MONTH) = MAINNET_EMISSION
  | _ => False
  end.
Proof.
  destruct mainnet_manager as [self| |] eqn:Hm; [|vm_compute in Hm; discriminate..].
  apply (mainnet_emission self (1016 * BLOCKS_PER_MONTH) Hm); by vm_compute.
Defined.
