(* ===== verification/FinalityAnchor.v ===== *)
(** * Finality anchors

    [consensus/core/src/finality_anchor/mod.rs] and [release_notice.rs],
    [release_manifest.rs]: the trustee quorum, anchors, equivocation evidence, and the
    two quorum-signed release documents.  BIP340 verification is [SchnorrOracle], the
    three signing hashers are [AnchorHashers], and the borsh encodings of the two
    release documents are [ReleaseCodec]. *)

From Stdlib Require Import String.
From S2P Require Import Prelude Transaction NotePool PoolHashing PoolValidate.

Class AnchorHashers := {
  FinalityAnchorSigningHash : list Z → Hash;
  ReleaseNoticeSigningHash : list Z → Hash;
  ReleaseManifestSigningHash : list Z → Hash }.

Definition TRUSTEE_COUNT : nat := 5.
Definition ANCHOR_QUORUM : nat := 3.
(** [[[u8; 32]; TRUSTEE_COUNT]]. *)
Abbreviation TrusteeKeys := (list (list Z)) (only parsing).
Definition FINALITY_ANCHOR_DEPTH : Z := 600.
Definition FINALITY_ANCHOR_LAUNCH_INTERVAL : Z := 300.
Definition ANCHOR_STALENESS_INTERVALS : Z := 3.

Record FinalityAnchor := mk_fanchor {
  anchored_block : Hash;
  anchored_daa_score : Z;
  signer_bitmap : Z;
  signatures : list (list Z) }.
#[global] Instance FinalityAnchor_eq_dec : EqDecision FinalityAnchor.
Proof. solve_decision. Defined.

Record AnchorAttestation := mk_attestation {
  att_block : Hash; att_daa_score : Z; att_signature : list Z }.
Record EquivocationEvidence := mk_evidence {
  trustee_index : Z; first : AnchorAttestation; second : AnchorAttestation }.

Inductive AnchorPayload :=
  | Anchor (a : FinalityAnchor)
  | Equivocation (e : EquivocationEvidence).

Inductive FinalityAnchorError :=
  | BitmapOutOfRange (b : Z)
  | SignatureCountMismatch (expected actual : nat)
  | BelowQuorum (n : nat)
  | BadSignature (i : Z)
  | BadTrusteeKey (i : Z)
  | TrusteeIndexOutOfRange (i : Z)
  | SameBlock
  | ScoresNotWithinInterval (gap interval : Z).

(** [u8::count_ones]. *)
Definition count_ones (b : Z) : nat := length (filter (λ i, Z.testbit b i = true) (seqZ 0 8)).

(** [(0..TRUSTEE_COUNT).filter(|i| bitmap & (1 << i) != 0)]. *)
Definition bitmap_signers (b : Z) : list Z :=
  filter (λ i, Z.land b (Z.shiftl 1 i) ≠ 0) (seqZ 0 (Z.of_nat TRUSTEE_COUNT)).

(** The shape checks, shared verbatim by anchors, notices and manifests. *)
Definition validate_shape (bitmap : Z) (sigs : list (list Z)) : outcome FinalityAnchorError unit :=
  reject_if (negb (Z.shiftr bitmap (Z.of_nat TRUSTEE_COUNT) =? 0)) (BitmapOutOfRange bitmap);;
  let signer_count := count_ones bitmap in
  reject_if (negb (signer_count =? length sigs)%nat)
    (SignatureCountMismatch signer_count (length sigs));;
  reject_if (signer_count <? ANCHOR_QUORUM)%nat (BelowQuorum signer_count).

Definition validate_anchor_shape (a : FinalityAnchor) : outcome FinalityAnchorError unit :=
  validate_shape (signer_bitmap a) (signatures a).

Section verification.
Context `{AnchorHashers} `{SchnorrOracle}.

Definition anchor_signing_hash (block : Hash) (score : Z) : Hash :=
  FinalityAnchorSigningHash (block ++ le_bytes 8 score).

Definition verify_one (key : list Z) (i : Z) (msg : Hash) (sig : list Z)
    : outcome FinalityAnchorError unit :=
  reject_if (negb (xonly_valid key)) (BadTrusteeKey i);;
  reject_if (negb (schnorr_verify sig msg key)) (BadSignature i).

(** The loop over [signatures.zip(bitmap_signers)]; indexing the keys panics out of range. *)
Definition verify_each (keys : TrusteeKeys) (msg : Hash) (l : list (list Z * Z))
    : outcome FinalityAnchorError unit :=
  try_fold (λ (_ : unit) si,
    key ← unwrap (keys !! Z.to_nat si.2); verify_one key si.2 msg si.1) tt l.

Definition verify_anchor (a : FinalityAnchor) (keys : TrusteeKeys)
    : outcome FinalityAnchorError unit :=
  validate_anchor_shape a;;
  verify_each keys (anchor_signing_hash (anchored_block a) (anchored_daa_score a))
    (zip (signatures a) (bitmap_signers (signer_bitmap a))).

Definition verify_attestation (key : list Z) (i : Z) (t : AnchorAttestation)
    : outcome FinalityAnchorError unit :=
  verify_one key i (anchor_signing_hash (att_block t) (att_daa_score t)) (att_signature t).

Definition verify_equivocation_evidence (e : EquivocationEvidence) (keys : TrusteeKeys)
    (interval_at : Z → Z) : outcome FinalityAnchorError unit :=
  reject_if (Z.of_nat TRUSTEE_COUNT <=? trustee_index e)
    (TrusteeIndexOutOfRange (trustee_index e));;
  reject_if (bool_decide (att_block (first e) = att_block (second e))) SameBlock;;
  let gap := Z.abs (att_daa_score (first e) - att_daa_score (second e)) in
  let interval := interval_at (Z.max (att_daa_score (first e)) (att_daa_score (second e))) in
  reject_if (interval <=? gap) (ScoresNotWithinInterval gap interval);;
  key ← unwrap (keys !! Z.to_nat (trustee_index e));
  try_fold (λ _ t, verify_attestation key (trustee_index e) t) tt [first e; second e].
End verification.

(** ** Release notices and manifests *)
Record ReleaseNotice := mk_notice {
  network : string; min_major : Z; min_release : Z; notice_issued_at : Z }.
Record ReleaseManifest := mk_manifest {
  release_version : string; manifest_issued_at : Z; assets : list (string * list Z) }.

(** [borsh::to_vec] of the two documents. *)
Class ReleaseCodec := {
  notice_bytes : ReleaseNotice → list Z;
  manifest_bytes : ReleaseManifest → list Z }.

(** A document with quorum signatures. *)
Record Signed (D : Type) := mk_signed {
  document : D; signed_bitmap : Z; signed_signatures : list (list Z) }.
Arguments mk_signed {D} _ _ _.
Arguments document {D} _.
Arguments signed_bitmap {D} _.
Arguments signed_signatures {D} _.

Definition refuses (n : ReleaseNotice) (major release : Z) : bool :=
  (major <? min_major n) || ((major =? min_major n) && (release <? min_release n)).

Definition digest_of (m : ReleaseManifest) (asset : string) : option (list Z) :=
  snd <$> find (λ a, String.eqb (fst a) asset) (assets m).

(** The loop of [assemble]: repeated indices are dropped.  The unstable sort of the source
    leaves open which of two signatures of one trustee comes first; the stable sort picks
    one of its outcomes. *)
Definition assemble_step (acc : Z * list (list Z)) (s : Z * list Z)
    : outcome FinalityAnchorError (Z * list (list Z)) :=
  reject_if (Z.of_nat TRUSTEE_COUNT <=? s.1) (TrusteeIndexOutOfRange s.1);;
  Ok (if negb (Z.land acc.1 (Z.shiftl 1 s.1) =? 0) then acc
      else (Z.lor acc.1 (Z.shiftl 1 s.1), acc.2 ++ [s.2])).
Definition index_le (a b : Z * list Z) : Prop := a.1 ≤ b.1.
#[global] Instance index_le_dec : RelDecision index_le.
Proof. intros a b. unfold index_le. apply _. Defined.
Definition assemble {D} (doc : D) (signed : list (Z * list Z))
    : outcome FinalityAnchorError (Signed D) :=
  acc ← try_fold assemble_step (0, []) (merge_sort index_le signed);
  Ok (mk_signed doc acc.1 acc.2).
Definition assemble_notice : ReleaseNotice → list (Z * list Z) →
    outcome FinalityAnchorError (Signed ReleaseNotice) := assemble.
Definition assemble_manifest : ReleaseManifest → list (Z * list Z) →
    outcome FinalityAnchorError (Signed ReleaseManifest) := assemble.

(** [ReleaseManifest::new]: assets in (byte) order of their names. *)
Definition name_le (a b : string * list Z) : Prop := String.leb a.1 b.1 = true.
#[global] Instance name_le_dec : RelDecision name_le.
Proof. intros a b. unfold name_le. apply _. Defined.
Definition new_manifest (version : string) (issued_at : Z) (assets : list (string * list Z))
    : ReleaseManifest := mk_manifest version issued_at (merge_sort name_le assets).

Section releases.
Context `{AnchorHashers} `{SchnorrOracle} `{ReleaseCodec}.

Definition notice_signing_hash (n : ReleaseNotice) : Hash :=
  ReleaseNoticeSigningHash (notice_bytes n).
Definition manifest_signing_hash (m : ReleaseManifest) : Hash :=
  ReleaseManifestSigningHash (manifest_bytes m).

Definition verify_signed {D} (signing_hash : D → Hash) (s : Signed D) (keys : TrusteeKeys)
    : outcome FinalityAnchorError unit :=
  validate_shape (signed_bitmap s) (signed_signatures s);;
  verify_each keys (signing_hash (document s))
    (zip (signed_signatures s) (bitmap_signers (signed_bitmap s))).
Definition verify_notice : Signed ReleaseNotice → TrusteeKeys → outcome FinalityAnchorError unit :=
  verify_signed notice_signing_hash.
Definition verify_manifest
    : Signed ReleaseManifest → TrusteeKeys → outcome FinalityAnchorError unit :=
  verify_signed manifest_signing_hash.
End releases.

(** ** Quorums *)

Lemma land_bit b i : 0 ≤ i → Z.land b (Z.shiftl 1 i) ≠ 0 ↔ Z.testbit b i = true.
Proof.
  intros Hi. rewrite Z.shiftl_1_l. split.
  - intros Hne. apply not_false_iff_true. intros Hb. apply Hne. apply Z.bits_inj'. intros k Hk.
    rewrite Z.land_spec, Z.bits_0, Z.pow2_bits_eqb by done.
    destruct (Z.eqb_spec i k) as [->|]; [by rewrite Hb|by rewrite andb_false_r].
  - intros Hb H0. apply (f_equal (λ z, Z.testbit z i)) in H0.
    rewrite Z.land_spec, Z.bits_0, Z.pow2_bits_true, Hb in H0 by done. done.
Qed.

Lemma elem_of_bitmap_signers b i :
  i ∈ bitmap_signers b ↔ 0 ≤ i < 5 ∧ Z.testbit b i = true.
Proof.
  unfold bitmap_signers. rewrite list_elem_of_filter, elem_of_seqZ.
  change (Z.of_nat TRUSTEE_COUNT) with 5. split.
  - intros [Hb Hi]. rewrite land_bit in Hb by lia. split; [lia|done].
  - intros [Hi Hb]. rewrite land_bit by lia. split; [done|lia].
Qed.

Lemma NoDup_bitmap_signers b : NoDup (bitmap_signers b).
Proof. apply NoDup_filter, NoDup_seqZ. Qed.

Lemma bitmap_in_range b : 0 ≤ b → Z.shiftr b 5 = 0 ↔ b < 32.
Proof.
  intros Hb. rewrite Z.shiftr_div_pow2 by lia. change (2 ^ 5) with 32.
  pose proof (Z.div_mod b 32). pose proof (Z.mod_pos_bound b 32). lia.
Qed.

Lemma count_ones_signers b : 0 ≤ b < 32 → count_ones b = length (bitmap_signers b).
Proof.
  intros Hb. assert (Hall : Forall (λ b, count_ones b = length (bitmap_signers b)) (seqZ 0 32))
    by by_decide.
  rewrite Forall_forall in Hall. apply Hall, elem_of_seqZ. lia.
Qed.

(** Two quorums of five intersect. *)
Lemma quorums_intersect b1 b2 :
  (ANCHOR_QUORUM ≤ length (bitmap_signers b1))%nat →
  (ANCHOR_QUORUM ≤ length (bitmap_signers b2))%nat →
  ∃ i, i ∈ bitmap_signers b1 ∧ i ∈ bitmap_signers b2.
Proof.
  unfold ANCHOR_QUORUM. intros H1 H2.
  destruct (decide (Exists (λ i, i ∈ bitmap_signers b2) (bitmap_signers b1))) as [He|He].
  { apply Exists_exists in He as (i & ? & ?). by exists i. }
  assert (Hnd : NoDup (bitmap_signers b1 ++ bitmap_signers b2)).
  { apply NoDup_app. split_and!; [apply NoDup_bitmap_signers| |apply NoDup_bitmap_signers].
    intros i Hi1 Hi2. apply He, Exists_exists. by exists i. }
  assert (Hsub : bitmap_signers b1 ++ bitmap_signers b2 ⊆+ seqZ 0 5).
  { apply NoDup_submseteq; [done|]. intros i.
    rewrite elem_of_app, !elem_of_bitmap_signers, elem_of_seqZ. lia. }
  apply submseteq_length in Hsub. rewrite length_app, length_seqZ in Hsub. lia.
Qed.

Lemma validate_shape_Ok b sigs :
  0 ≤ b →
  validate_shape b sigs = Ok tt ↔
    b < 32 ∧ length sigs = length (bitmap_signers b) ∧
    (ANCHOR_QUORUM ≤ length (bitmap_signers b))%nat.
Proof.
  intros Hb. unfold validate_shape. cbv zeta. rewrite !then_Ok, !reject_if_Ok.
  rewrite !negb_false_iff, Z.eqb_eq, Nat.eqb_eq, Nat.ltb_ge.
  change (Z.of_nat TRUSTEE_COUNT) with 5. rewrite bitmap_in_range by done. split.
  - intros (Hlt & Hl & Hq). rewrite count_ones_signers in * by lia. done.
  - intros (Hlt & Hl & Hq). rewrite count_ones_signers by lia. done.
Qed.

Lemma validate_shape_no_panic b sigs : validate_shape b sigs ≠ Panic.
Proof.
  unfold validate_shape. cbv zeta. destruct (negb (Z.shiftr b _ =? 0)); [done|].
  destruct (negb (_ =? length sigs)%nat); [done|]. by destruct (count_ones b <? ANCHOR_QUORUM)%nat.
Qed.

Section quorum.
Context `{AnchorHashers} `{SchnorrOracle}.

(** Trustee [i] signed [msg] with [sig]. *)
Definition signed_by (keys : TrusteeKeys) (msg : Hash) (i : Z) (sig : list Z) : Prop :=
  ∃ key, keys !! Z.to_nat i = Some key ∧ xonly_valid key = true ∧ schnorr_verify sig msg key = true.

Lemma verify_one_Ok key i msg sig :
  verify_one key i msg sig = Ok tt ↔ xonly_valid key = true ∧ schnorr_verify sig msg key = true.
Proof. unfold verify_one. by rewrite then_Ok, !reject_if_Ok, !negb_false_iff. Qed.

Lemma verify_one_no_panic key i msg sig : verify_one key i msg sig ≠ Panic.
Proof. unfold verify_one. by destruct (xonly_valid key), (schnorr_verify sig msg key). Qed.

Lemma verify_each_Ok keys msg l :
  verify_each keys msg l = Ok tt ↔ Forall (λ si, signed_by keys msg si.2 si.1) l.
Proof.
  unfold verify_each. induction l as [|[sig i] l IH]; cbn [try_fold]; [by split|].
  rewrite Forall_cons, <- IH, bind_Ok. cbn [fst snd]. split.
  - intros ([] & Hx & Hr). split; [|done]. apply bind_Ok in Hx as (key & Hk & Hx).
    unfold unwrap in Hk. destruct (keys !! Z.to_nat i) eqn:E; simplify_eq/=.
    apply verify_one_Ok in Hx as [? ?]. by exists key.
  - intros [(key & Hk & Hx) Hr]. exists tt. split; [|done]. rewrite Hk. by apply verify_one_Ok.
Qed.

Lemma verify_each_no_panic keys msg l :
  Forall (λ si, (Z.to_nat si.2 < length keys)%nat) l → verify_each keys msg l ≠ Panic.
Proof.
  unfold verify_each. induction 1 as [|[sig i] l Hi Hl IH]; cbn [try_fold]; [done|].
  cbn [snd] in Hi. apply lookup_lt_is_Some in Hi as [key Hk]. cbn [fst snd]. rewrite Hk.
  cbn [unwrap mbind outcome_bind]. pose proof (verify_one_no_panic key i msg sig).
  by destruct (verify_one key i msg sig) as [[]| |].
Qed.

Lemma signers_in_range b l (keys : TrusteeKeys) :
  length keys = TRUSTEE_COUNT →
  Forall (λ si : list Z * Z, (Z.to_nat si.2 < length keys)%nat) (zip l (bitmap_signers b)).
Proof.
  intros Hk. apply Forall_forall. intros [sig i] Hi. apply elem_of_zip_r in Hi.
  apply elem_of_bitmap_signers in Hi. rewrite Hk. unfold TRUSTEE_COUNT. simpl. lia.
Qed.

Lemma Forall_zip_2 {A B} (P : B → A → Prop) (l : list A) (k : list B) :
  length l = length k → Forall (λ ab, P ab.2 ab.1) (zip l k) ↔ Forall2 P k l.
Proof.
  revert k. induction l as [|a l IH]; intros [|b k] Hl; try discriminate.
  - split; intros _; constructor.
  - change (zip (a :: l) (b :: k)) with ((a, b) :: zip l k).
    rewrite Forall_cons, Forall2_cons, <- IH by (by injection Hl). done.
Qed.

(** What the shared verification of a quorum-signed statement decides. *)
Definition quorum_signed (keys : TrusteeKeys) (msg : Hash) (b : Z) (sigs : list (list Z)) : Prop :=
  b < 32 ∧ (ANCHOR_QUORUM ≤ length (bitmap_signers b))%nat ∧
  Forall2 (signed_by keys msg) (bitmap_signers b) sigs.

Lemma verify_quorum keys msg b sigs :
  0 ≤ b → length keys = TRUSTEE_COUNT →
  let r := (validate_shape b sigs;; verify_each keys msg (zip sigs (bitmap_signers b))) in
  r ≠ Panic ∧ (r = Ok tt ↔ quorum_signed keys msg b sigs).
Proof.
  intros Hb Hk r. split.
  - unfold r. pose proof (validate_shape_no_panic b sigs).
    destruct (validate_shape b sigs) as [[]| |]; [|done..].
    apply verify_each_no_panic, signers_in_range, Hk.
  - unfold r, quorum_signed. rewrite then_Ok, validate_shape_Ok, verify_each_Ok by done. split.
    + intros ((? & Hl & ?) & Hf). rewrite (Forall_zip_2 (signed_by keys msg)) in Hf by done. done.
    + intros (? & ? & Hf). pose proof (Forall2_length _ _ _ Hf).
      rewrite (Forall_zip_2 (signed_by keys msg)) by done. done.
Qed.

(** (C26) Anchor verification decides the quorum rule: it never panics, and accepts exactly
    the anchors whose bitmap names at least three of the five trustees, with one
    signature per named trustee, in ascending order, each verifying under that trustee's
    pinned key over the anchored block and score. *)
Theorem verify_anchor_decides a keys :
  0 ≤ signer_bitmap a → length keys = TRUSTEE_COUNT →
  verify_anchor a keys ≠ Panic ∧
  (verify_anchor a keys = Ok tt ↔
   quorum_signed keys (anchor_signing_hash (anchored_block a) (anchored_daa_score a))
     (signer_bitmap a) (signatures a)).
Proof. apply verify_quorum. Qed.

(** The rule an equivocation proof must satisfy. *)
Definition equivocated (keys : TrusteeKeys) (interval_at : Z → Z) (e : EquivocationEvidence) : Prop :=
  trustee_index e < Z.of_nat TRUSTEE_COUNT ∧ att_block (first e) ≠ att_block (second e) ∧
  Z.abs (att_daa_score (first e) - att_daa_score (second e)) <
    interval_at (Z.max (att_daa_score (first e)) (att_daa_score (second e))) ∧
  ∀ t, t ∈ [first e; second e] →
    signed_by keys (anchor_signing_hash (att_block t) (att_daa_score t)) (trustee_index e)
      (att_signature t).

Lemma verify_equivocation_Ok e keys interval_at :
  verify_equivocation_evidence e keys interval_at = Ok tt ↔ equivocated keys interval_at e.
Proof.
  unfold verify_equivocation_evidence, equivocated. cbv zeta.
  rewrite !then_Ok, !reject_if_Ok, bind_Ok, Z.leb_gt, bool_decide_eq_false, Z.leb_gt. split.
  - intros (? & ? & ? & key & Hk & Hv). split_and!; [done..|]. unfold unwrap in Hk.
    destruct (keys !! _) eqn:E; simplify_eq/=. apply bind_Ok in Hv as ([] & Hv1 & Hv).
    apply bind_Ok in Hv as ([] & Hv2 & _). apply verify_one_Ok in Hv1 as [? ?], Hv2 as [? ?].
    intros t. rewrite !elem_of_cons, elem_of_nil. intros [->|[->|[]]]; by exists key.
  - intros (? & ? & ? & Hs). split_and!; [done..|].
    destruct (Hs (first e)) as (key & Hk & Hx1 & Hs1); [by left|].
    destruct (Hs (second e)) as (key' & Hk' & _ & Hs2); [by right; left|].
    rewrite Hk in Hk'. injection Hk' as <-. exists key. rewrite Hk. split; [done|].
    cbn [try_fold]. apply bind_Ok. exists tt. split; [by apply verify_one_Ok|].
    apply bind_Ok. exists tt. split; [by apply verify_one_Ok|done].
Qed.

(** Equivocation proofs convict exactly on the rule: for trustee indices of a [u8]
    and five pinned keys verification never panics, and accepts exactly two statements
    signed by one trustee that certify different blocks at scores less than one cadence
    interval apart; evidence failing any part convicts nobody. *)
Theorem verify_equivocation_decides e keys interval_at :
  0 ≤ trustee_index e → length keys = TRUSTEE_COUNT →
  verify_equivocation_evidence e keys interval_at ≠ Panic ∧
  (verify_equivocation_evidence e keys interval_at = Ok tt ↔ equivocated keys interval_at e).
Proof.
  intros Hi Hk. split; [|apply verify_equivocation_Ok].
  unfold verify_equivocation_evidence. cbv zeta.
  destruct (Z.leb_spec (Z.of_nat TRUSTEE_COUNT) (trustee_index e)); [done|].
  case_bool_decide; [done|]. destruct (_ <=? _); [done|]. cbn [reject_if mbind outcome_bind].
  destruct (lookup_lt_is_Some_2 keys (Z.to_nat (trustee_index e))) as [key Hkey]; [lia|].
  rewrite Hkey. cbn [unwrap mbind outcome_bind try_fold]. unfold verify_attestation.
  pose proof (verify_one_no_panic key (trustee_index e)) as Hnp.
  destruct (verify_one key _ _ (att_signature (first e))) as [[]| |] eqn:E1;
    [|done|by destruct (Hnp _ _ E1)].
  cbn [mbind outcome_bind].
  destruct (verify_one key _ _ (att_signature (second e))) as [[]| |] eqn:E2;
    [done|done|by destruct (Hnp _ _ E2)].
Qed.

Lemma quorum_signed_lookup keys msg b sigs i :
  quorum_signed keys msg b sigs → i ∈ bitmap_signers b → ∃ sig, sig ∈ sigs ∧ signed_by keys msg i sig.
Proof.
  intros (_ & _ & Hf) Hi. apply list_elem_of_lookup_1 in Hi as [n Hn].
  destruct (Forall2_lookup_l _ _ _ _ _ Hf Hn) as (sig & Hsig & Hs). exists sig.
  split; [by eapply list_elem_of_lookup_2|done].
Qed.

(** (C25) Accountability: two verified anchors that certify different blocks at scores less
    than a cadence interval apart always contain a proof of equivocation: some trustee
    signed both, and pairing their two signatures gives evidence that verifies. *)
Theorem conflicting_anchors_convict a1 a2 keys interval_at :
  0 ≤ signer_bitmap a1 → 0 ≤ signer_bitmap a2 → length keys = TRUSTEE_COUNT →
  verify_anchor a1 keys = Ok tt → verify_anchor a2 keys = Ok tt →
  anchored_block a1 ≠ anchored_block a2 →
  Z.abs (anchored_daa_score a1 - anchored_daa_score a2) <
    interval_at (Z.max (anchored_daa_score a1) (anchored_daa_score a2)) →
  ∃ i s1 s2,
    i ∈ bitmap_signers (signer_bitmap a1) ∧ i ∈ bitmap_signers (signer_bitmap a2) ∧
    s1 ∈ signatures a1 ∧ s2 ∈ signatures a2 ∧
    verify_equivocation_evidence
      (mk_evidence i (mk_attestation (anchored_block a1) (anchored_daa_score a1) s1)
         (mk_attestation (anchored_block a2) (anchored_daa_score a2) s2)) keys interval_at = Ok tt.
Proof.
  intros Hb1 Hb2 Hk H1 H2 Hne Hgap.
  apply verify_quorum in H1; [|done..]. apply verify_quorum in H2; [|done..].
  destruct (quorums_intersect (signer_bitmap a1) (signer_bitmap a2)) as (i & Hi1 & Hi2);
    [apply H1|apply H2|].
  destruct (quorum_signed_lookup _ _ _ _ _ H1 Hi1) as (s1 & Hs1 & Hv1).
  destruct (quorum_signed_lookup _ _ _ _ _ H2 Hi2) as (s2 & Hs2 & Hv2).
  exists i, s1, s2. split_and!; [done..|]. apply verify_equivocation_Ok.
  apply elem_of_bitmap_signers in Hi1 as [Hr _].
  unfold equivocated; cbn [trustee_index first second att_block att_daa_score].
  split_and!; [unfold TRUSTEE_COUNT; lia|done|done|].
  intros t. rewrite !elem_of_cons, elem_of_nil. by intros [->|[->|[]]].
Qed.
End quorum.

(** ** Assembling quorum signatures *)

#[global] Instance index_le_total : Total index_le.
Proof. intros a b. unfold index_le. lia. Qed.
#[global] Instance index_le_trans : Transitive index_le.
Proof. intros a b c. unfold index_le. lia. Qed.

Lemma signers_add b i :
  0 ≤ b < 32 → 0 ≤ i < 5 →
  (Forall (λ k, k < i) (bitmap_signers b) →
     bitmap_signers (Z.lor b (Z.shiftl 1 i)) = bitmap_signers b ++ [i]) ∧
  0 ≤ Z.lor b (Z.shiftl 1 i) < 32.
Proof.
  intros Hb Hi.
  assert (Hall : Forall (λ b, Forall (λ i,
    (Forall (λ k, k < i) (bitmap_signers b) →
       bitmap_signers (Z.lor b (Z.shiftl 1 i)) = bitmap_signers b ++ [i]) ∧
    0 ≤ Z.lor b (Z.shiftl 1 i) < 32) (seqZ 0 5)) (seqZ 0 32)) by by_decide.
  rewrite Forall_forall in Hall. specialize (Hall b). rewrite Forall_forall in Hall.
  apply Hall; apply elem_of_seqZ; lia.
Qed.

Section assemble.
Context `{AnchorHashers} `{SchnorrOracle}.
Context (keys : TrusteeKeys) (msg : Hash).

(** A collected pair: an existing trustee and their signature of the document. *)
Definition collected (s : Z * list Z) : Prop := 0 ≤ s.1 < 5 ∧ signed_by keys msg s.1 s.2.

Lemma assemble_loop l b sigs :
  StronglySorted index_le l → Forall collected l → 0 ≤ b < 32 →
  Forall2 (signed_by keys msg) (bitmap_signers b) sigs →
  (∀ k, k ∈ bitmap_signers b → Forall (λ s, k ≤ s.1) l) →
  ∃ b' sigs', try_fold assemble_step (b, sigs) l = Ok (b', sigs') ∧ 0 ≤ b' < 32 ∧
    Forall2 (signed_by keys msg) (bitmap_signers b') sigs' ∧
    ∀ i, i ∈ bitmap_signers b' ↔ i ∈ bitmap_signers b ∨ i ∈ l.*1.
Proof.
  intros Hs. revert b sigs. induction Hs as [|[i sig] l Hs IH Hle]; intros b sigs Hl Hb Hf Hk.
  { exists b, sigs. split; [done|]. split; [done|]. split; [done|]. intros i. rewrite elem_of_nil. tauto. }
  apply Forall_cons in Hl as [[Hi Hsig] Hl]. cbn [fst snd] in *. cbn [try_fold].
  unfold assemble_step at 2. cbn [fst snd].
  rewrite (proj2 (Z.leb_gt _ _)) by (unfold TRUSTEE_COUNT; lia). cbn [reject_if mbind outcome_bind].
  destruct (decide (i ∈ bitmap_signers b)) as [Hin|Hnin].
  - rewrite (proj2 (Z.eqb_neq _ _)).
    2: { apply land_bit; [lia|]. by apply elem_of_bitmap_signers in Hin as [_ ?]. }
    cbn [negb]. destruct (IH b sigs) as (b' & sigs' & -> & ? & ? & Hb'); [done..| |].
    { intros k Hkb. specialize (Hk k Hkb). by apply Forall_cons in Hk as [_ ?]. }
    exists b', sigs'. split; [done|]. split; [done|]. split; [done|]. intros k. rewrite Hb', fmap_cons, elem_of_cons.
    cbn [fst]. naive_solver.
  - rewrite (proj2 (Z.eqb_eq _ _)).
    2: { destruct (decide (Z.land b (Z.shiftl 1 i) = 0)) as [|Hne]; [done|]. exfalso. apply Hnin.
         apply elem_of_bitmap_signers. split; [lia|]. apply land_bit in Hne; [done|lia]. }
    cbn [negb]. destruct (signers_add b i Hb Hi) as [Hadd Hrange].
    assert (Hlt : Forall (λ k, k < i) (bitmap_signers b)).
    { apply Forall_forall. intros k Hkb. specialize (Hk k Hkb). apply Forall_cons in Hk as [Hk _].
      cbn [fst] in Hk. assert (k ≠ i) by (intros ->; done). lia. }
    destruct (IH (Z.lor b (Z.shiftl 1 i)) (sigs ++ [sig])) as (b' & sigs' & -> & ? & ? & Hb');
      [done|done| | |].
    { rewrite Hadd by done. apply Forall2_app; [done|by constructor]. }
    { intros k. rewrite Hadd, elem_of_app, list_elem_of_singleton by done. intros [Hkb| ->]; [|done].
      specialize (Hk k Hkb). by apply Forall_cons in Hk as [_ ?]. }
    exists b', sigs'. split; [done|]. split; [done|]. split; [done|]. intros k.
    rewrite Hb', Hadd, elem_of_app, list_elem_of_singleton, fmap_cons, elem_of_cons by done.
    cbn [fst]. tauto.
Qed.

(** Assembling collected signatures works: from pairs of in-range trustee indices with
    valid signatures of the document, in any order and with repetitions, naming at least
    three distinct trustees, [assemble] succeeds and the result passes verification, with
    exactly the named trustees as signers. *)
Theorem assemble_verifies {D} (hash : D → Hash) (doc : D) signed d :
  hash doc = msg → length keys = TRUSTEE_COUNT → Forall collected signed →
  NoDup d → d ⊆ signed.*1 → (ANCHOR_QUORUM ≤ length d)%nat →
  ∃ s, assemble doc signed = Ok s ∧ verify_signed hash s keys = Ok tt ∧
    ∀ i, i ∈ bitmap_signers (signed_bitmap s) ↔ i ∈ signed.*1.
Proof.
  intros Hh Hkl Hc Hd Hsub Hq. pose proof (merge_sort_Permutation index_le signed) as Hp.
  destruct (assemble_loop (merge_sort index_le signed) 0 []) as (b & sigs & Hf & Hb & H2 & Hi).
  - apply (StronglySorted_merge_sort index_le).
  - by rewrite Hp.
  - lia.
  - constructor.
  - intros k Hk. by apply elem_of_nil in Hk.
  - exists (mk_signed doc b sigs). unfold assemble. rewrite Hf. split; [done|].
    assert (Hi' : ∀ i, i ∈ bitmap_signers b ↔ i ∈ signed.*1).
    { intros i. rewrite Hi, Hp. change (bitmap_signers 0) with (@nil Z). rewrite elem_of_nil. tauto. }
    split; [|done]. unfold verify_signed. cbn [signed_bitmap signed_signatures document].
    rewrite Hh. apply verify_quorum; [lia|done|]. split_and!; [lia| |done].
    etrans; [exact Hq|]. apply submseteq_length, NoDup_submseteq; [done|].
    intros i Hid. apply Hi', Hsub, Hid.
Qed.
End assemble.

(** ** Concrete trustees: a signature is the key followed by the message *)
#[local] Instance demo_anchor_hashers : AnchorHashers :=
  {| FinalityAnchorSigningHash := λ b, b; ReleaseNoticeSigningHash := λ b, b;
     ReleaseManifestSigningHash := λ b, b |}.
#[local] Instance demo_oracle : SchnorrOracle :=
  {| xonly_valid := λ k, bool_decide (length k = 1%nat);
     schnorr_verify := λ sig msg k, bool_decide (sig = k ++ msg) |}.
Definition demo_keys : TrusteeKeys := [[10]; [11]; [12]; [13]; [14]].
Definition demo_anchor (b score bitmap : Z) : FinalityAnchor :=
  mk_fanchor [b] score bitmap
    ((λ i, (10 + i) :: anchor_signing_hash [b] score) <$> bitmap_signers bitmap).

Lemma verify_anchor_decides_witness : verify_anchor (demo_anchor 7 1000 21) demo_keys = Ok tt.
Proof.
  apply (verify_anchor_decides (demo_anchor 7 1000 21) demo_keys); [done|done|].
  unfold quorum_signed. split_and!; [done|vm_compute; lia|].
  repeat constructor; eexists; split_and!; reflexivity.
Defined.

Lemma conflicting_anchors_convict_witness :
  ∃ i s1 s2, i ∈ bitmap_signers 7 ∧ i ∈ bitmap_signers 28 ∧
    s1 ∈ signatures (demo_anchor 7 1000 7) ∧ s2 ∈ signatures (demo_anchor 8 1100 28) ∧
    verify_equivocation_evidence
      (mk_evidence i (mk_attestation [7] 1000 s1) (mk_attestation [8] 1100 s2)) demo_keys
      (λ _, 300) = Ok tt.
Proof.
  apply (conflicting_anchors_convict (demo_anchor 7 1000 7) (demo_anchor 8 1100 28) demo_keys
    (λ _, 300)); [done..|reflexivity|reflexivity|done|done].
Defined.

Lemma verify_equivocation_decides_witness :
  verify_equivocation_evidence
    (mk_evidence 2 (mk_attestation [7] 1000 (12 :: anchor_signing_hash [7] 1000))
       (mk_attestation [8] 1100 (12 :: anchor_signing_hash [8] 1100))) demo_keys
    (λ _, 300) = Ok tt.
Proof.
  apply verify_equivocation_decides; [done|done|].
  unfold equivocated; cbn [trustee_index first second att_block att_daa_score].
  split_and!; [done..|]. intros t. rewrite !elem_of_cons, elem_of_nil.
  intros [->|[->|[]]]; eexists; split_and!; reflexivity.
Defined.

Lemma assemble_verifies_witness :
  ∃ s, assemble tt [(4, [14; 1]); (0, [10; 1]); (4, [14; 1]); (2, [12; 1])] = Ok s ∧
    verify_signed (λ _, [1]) s demo_keys = Ok tt.
Proof.
  destruct (assemble_verifies demo_keys [1] (λ _, [1]) tt
    [(4, [14; 1]); (0, [10; 1]); (4, [14; 1]); (2, [12; 1])] [0; 2; 4]) as (s & Hs & Hv & _).
  - done.
  - done.
  - repeat constructor; simpl; try lia; eexists; split_and!; reflexivity.
  - by_decide.
  - intros i. rewrite !elem_of_cons, elem_of_nil. set_solver.
  - vm_compute. lia.
  - by exists s.
Defined.
