(* ===== verification/AnchorState.v ===== *)
(** * Finality-anchor node state

    The latest-anchor ratchet, the trustee deny-list and the pending gossiped anchor:
    [consensus/src/model/stores/finality_anchor.rs], the anchor part of
    [pipeline/virtual_processor/processor.rs] (guard, collection of updates from newly
    adopted chain blocks, commit, enforcement state) and the gossip path of
    [consensus/src/consensus/mod.rs].

    What the node knows of the DAG (headers, reachability, acceptance data, block bodies,
    body tips) is the record [ChainView]; the borsh decoder of anchor payloads is
    [AnchorDecoder].  Collection, commit and gossip are separate steps that interleave as
    the code lets them: collection takes the store lock twice, once for the ratchet and the
    deny-list and once for the pending anchor, and drops it before commit takes it again. *)

From S2P Require Import Prelude Transaction NotePool PoolValidate FinalityAnchor.

Record FinalityAnchorParams := mk_fparams {
  trustees : option TrusteeKeys; depth : Z; launch_interval : Z }.
Definition LAUNCH_UNKEYED : FinalityAnchorParams :=
  mk_fparams None FINALITY_ANCHOR_DEPTH FINALITY_ANCHOR_LAUNCH_INTERVAL.
Definition cadence_interval (p : FinalityAnchorParams) (_ : Z) : Z := launch_interval p.
Definition staleness_bound {E} (p : FinalityAnchorParams) (daa_score : Z) : outcome E Z :=
  m ← u64_mul ANCHOR_STALENESS_INTERVALS (cadence_interval p daa_score); u64_add (depth p) m.

(** ** The store *)
Record StoredAnchor := mk_stored { stored_block : Hash; stored_daa_score : Z }.
Record DenyListEntry := mk_deny { deny_trustee : Z; deny_accepting_block : Hash }.
#[global] Instance DenyListEntry_eq_dec : EqDecision DenyListEntry.
Proof. solve_decision. Defined.

Record AnchorStore := mk_store {
  latest : option StoredAnchor;
  deny_list : list DenyListEntry;
  latest_full : option FinalityAnchor;
  pending : option FinalityAnchor }.

Definition stored_of (a : FinalityAnchor) : StoredAnchor :=
  mk_stored (anchored_block a) (anchored_daa_score a).

(** [set_latest_batch] and [set_latest_full_batch], or [set_latest_direct]. *)
Definition set_latest (s : AnchorStore) (a : FinalityAnchor) : AnchorStore :=
  mk_store (Some (stored_of a)) (deny_list s) (Some a) (pending s).
Definition append_deny_entries (s : AnchorStore) (new_entries : list DenyListEntry) : AnchorStore :=
  mk_store (latest s)
    (fold_left (λ es e, if bool_decide (e ∈ es) then es else es ++ [e]) new_entries (deny_list s))
    (latest_full s) (pending s).
Definition set_pending (s : AnchorStore) (a : FinalityAnchor) : AnchorStore :=
  mk_store (latest s) (deny_list s) (latest_full s) (Some a).
Definition clear_pending_store (s : AnchorStore) : AnchorStore :=
  mk_store (latest s) (deny_list s) (latest_full s) None.

(** ** What the node knows of the DAG *)
Record AcceptedTxEntry := mk_accepted { at_transaction_id : TransactionId; index_within_block : Z }.
Record MergesetBlockAcceptanceData := mk_acceptance {
  acc_block_hash : Hash; accepted_transactions : list AcceptedTxEntry }.
Record ChainView := mk_chain_view {
  get_daa_score : Hash → option Z;
  is_chain_ancestor_of : Hash → Hash → bool;
  acceptance_data : Hash → option (list MergesetBlockAcceptanceData);
  block_transactions : Hash → option (list Transaction);
  body_tips : list Hash }.

Definition is_chain_ancestor_of_any_body_tip (env : ChainView) (block : Hash) : bool :=
  existsb (λ tip, is_chain_ancestor_of env block tip) (body_tips env).

(** Known at its claimed score, on the selected chain of some body tip. *)
Definition locally_verifiable (env : ChainView) (a : FinalityAnchor) : bool :=
  match get_daa_score env (anchored_block a) with
  | Some score => score =? anchored_daa_score a
  | None => false
  end && is_chain_ancestor_of_any_body_tip env (anchored_block a).

Class AnchorDecoder := { decode_anchor_payload : list Z → option AnchorPayload }.

Record AnchorStateUpdates := mk_updates {
  new_latest : option FinalityAnchor;
  new_deny_entries : list DenyListEntry;
  clear_pending : bool }.
Definition no_updates : AnchorStateUpdates := mk_updates None [] false.

Inductive ExternalAnchorOutcome := Ratcheted | Pending | Ignored.
Inductive AnchorEnforcementState := Inactive | Enforcing | Stale.

(** [best.is_none_or(|b| score > b)] and [best.is_some_and(|b| b >= score)]. *)
Definition improves (best : option Z) (score : Z) : bool :=
  match best with None => true | Some b => b <? score end.

(** [verify(..).is_err()], panics propagating. *)
Definition is_err {E F A} (r : outcome E A) : outcome F bool :=
  match r with Ok _ => Ok false | Err _ => Ok true | Panic => Panic end.

Section anchors.
Context `{AnchorHashers} `{SchnorrOracle} `{AnchorDecoder}.

(** [finality_anchor_guard]. *)
Definition finality_anchor_guard (p : FinalityAnchorParams) (s : AnchorStore) (daa_score : Z)
    : outcome unit (option Hash) :=
  match trustees p, latest s with
  | Some _, Some l =>
      bound ← staleness_bound p daa_score;
      if bound <? saturating_sub daa_score (stored_daa_score l) then Ok None
      else Ok (Some (stored_block l))
  | _, _ => Ok None
  end.

Definition compute_anchor_enforcement_state (p : FinalityAnchorParams) (s : AnchorStore)
    (daa_score : Z) : outcome unit AnchorEnforcementState :=
  match trustees p, latest s with
  | Some _, Some l =>
      bound ← staleness_bound p daa_score;
      Ok (if bound <? saturating_sub daa_score (stored_daa_score l) then Stale else Enforcing)
  | _, _ => Ok Inactive
  end.

(** *** Collecting updates from newly adopted chain blocks *)
Definition denied (env : ChainView) (stored_deny : list DenyListEntry) (accepting_block : Hash)
    (u : AnchorStateUpdates) (trustee : Z) : bool :=
  existsb (λ e, (deny_trustee e =? trustee)
                  && is_chain_ancestor_of env (deny_accepting_block e) accepting_block) stored_deny
  || existsb (λ e, deny_trustee e =? trustee) (new_deny_entries u).

Definition countable_signers (is_denied : Z → bool) (bitmap : Z) : nat :=
  length (filter (λ i, is_denied i = false) (bitmap_signers bitmap)).

Section collect.
Context (env : ChainView) (p : FinalityAnchorParams) (keys : TrusteeKeys).
Context (stored_deny : list DenyListEntry).

Definition apply_evidence (accepting_block : Hash) (st : AnchorStateUpdates * option Z)
    (e : EquivocationEvidence) : outcome unit (AnchorStateUpdates * option Z) :=
  let '(u, best) := st in
  bad ← is_err (verify_equivocation_evidence e keys (cadence_interval p));
  if bad : bool then Ok st else
  if denied env stored_deny accepting_block u (trustee_index e) then Ok st else
  Ok (mk_updates (new_latest u)
        (new_deny_entries u ++ [mk_deny (trustee_index e) accepting_block]) (clear_pending u), best).

Definition apply_anchor (accepting_block : Hash) (accepting_daa_score : Z)
    (st : AnchorStateUpdates * option Z) (a : FinalityAnchor)
    : outcome unit (AnchorStateUpdates * option Z) :=
  let '(u, best) := st in
  bad ← is_err (verify_anchor a keys);
  if bad : bool then Ok st else
  if saturating_sub accepting_daa_score (anchored_daa_score a) <? depth p then Ok st else
  match get_daa_score env (anchored_block a) with
  | None => Ok st
  | Some score =>
      if negb (score =? anchored_daa_score a) then Ok st else
      if negb (is_chain_ancestor_of env (anchored_block a) accepting_block) then Ok st else
      if (countable_signers (denied env stored_deny accepting_block u) (signer_bitmap a)
            <? ANCHOR_QUORUM)%nat then Ok st else
      if improves best (anchored_daa_score a)
      then Ok (mk_updates (Some a) (new_deny_entries u) (clear_pending u),
               Some (anchored_daa_score a))
      else Ok st
  end.

Definition apply_payload (accepting_block : Hash) (accepting_daa_score : Z)
    (st : AnchorStateUpdates * option Z) (payload : AnchorPayload)
    : outcome unit (AnchorStateUpdates * option Z) :=
  match payload with
  | Equivocation e => apply_evidence accepting_block st e
  | Anchor a => apply_anchor accepting_block accepting_daa_score st a
  end.

(** The payloads a chain block accepts, in the order of the three nested loops. *)
Definition tx_payload (tx : Transaction) : list AnchorPayload :=
  if bool_decide (subnetwork_id tx = SUBNETWORK_ID_FINALITY_ANCHOR)
  then option_list (decode_anchor_payload (payload tx)) else [].
Definition accepted_payloads (accepting_block : Hash) : list AnchorPayload :=
  flat_map (λ d, match block_transactions env (acc_block_hash d) with
                 | None => []
                 | Some txs => flat_map (λ e, match txs !! Z.to_nat (index_within_block e) with
                                              | None => []
                                              | Some tx => tx_payload tx
                                              end) (accepted_transactions d)
                 end) (default [] (acceptance_data env accepting_block)).

Definition apply_chain_block (st : AnchorStateUpdates * option Z) (accepting_block : Hash)
    : outcome unit (AnchorStateUpdates * option Z) :=
  accepting_daa_score ← unwrap (get_daa_score env accepting_block);
  try_fold (apply_payload accepting_block accepting_daa_score) st
    (accepted_payloads accepting_block).

(** Promotion or clearing of the pending gossiped anchor. *)
Definition settle_pending (held : option FinalityAnchor) (st : AnchorStateUpdates * option Z)
    : AnchorStateUpdates :=
  let '(u, best) := st in
  match held with
  | None => u
  | Some a =>
      if negb (improves best (anchored_daa_score a))
      then mk_updates (new_latest u) (new_deny_entries u) true
      else if locally_verifiable env a
      then mk_updates (Some a) (new_deny_entries u) true
      else u
  end.
End collect.

Definition has_effect (u : AnchorStateUpdates) : bool :=
  match new_latest u with Some _ => true | None => false end
  || negb (bool_decide (new_deny_entries u = [])) || clear_pending u.

Definition best_of (s : AnchorStore) : option Z := stored_daa_score <$> latest s.

(** The ratchet and the deny-list are read under one lock ([s]), the pending anchor under
    another one taken after the scan of the added blocks ([s']). *)
Definition collect_finality_anchor_updates (env : ChainView) (p : FinalityAnchorParams)
    (s s' : AnchorStore) (added : list Hash) : outcome unit (option AnchorStateUpdates) :=
  match trustees p with
  | None => Ok None
  | Some keys =>
      if bool_decide (added = []) then Ok None else
      st ← try_fold (apply_chain_block env p keys (deny_list s)) (no_updates, best_of s) added;
      let u := settle_pending env (pending s') st in
      Ok (if has_effect u then Some u else None)
  end.

(** The anchor part of [commit_virtual_state]. *)
Definition commit_anchor_updates (s : AnchorStore) (updates : option AnchorStateUpdates)
    : AnchorStore :=
  match updates with
  | None => s
  | Some u =>
      let s := match new_deny_entries u with
               | [] => s | es => append_deny_entries s es end in
      let s := match new_latest u with Some a => set_latest s a | None => s end in
      if clear_pending u then clear_pending_store s else s
  end.

(** *** Gossiped anchors *)
Definition apply_external_finality_anchor (env : ChainView) (p : FinalityAnchorParams)
    (s : AnchorStore) (sink : Hash) (a : FinalityAnchor)
    : outcome unit (AnchorStore * ExternalAnchorOutcome) :=
  match trustees p with
  | None => Ok (s, Ignored)
  | Some keys =>
      bad ← is_err (verify_anchor a keys);
      if bad : bool then Ok (s, Ignored) else
      let is_denied i := existsb (λ e, (deny_trustee e =? i)
        && is_chain_ancestor_of env (deny_accepting_block e) sink) (deny_list s) in
      if (countable_signers is_denied (signer_bitmap a) <? ANCHOR_QUORUM)%nat then Ok (s, Ignored)
      else if negb (improves (best_of s) (anchored_daa_score a)) then Ok (s, Ignored)
      else if locally_verifiable env a then Ok (set_latest s a, Ratcheted)
      else if negb (improves (anchored_daa_score <$> pending s) (anchored_daa_score a))
      then Ok (s, Ignored)
      else Ok (set_pending s a, Pending)
  end.

(** [get_finality_anchor_status], the enforcement flags. *)
Definition anchor_status (p : FinalityAnchorParams) (s : AnchorStore) (daa_score : Z)
    : outcome unit (bool * bool) :=
  match latest s with
  | None => Ok (false, false)
  | Some l =>
      bound ← staleness_bound p daa_score;
      let stale := bound <? saturating_sub daa_score (stored_daa_score l) in
      Ok (bool_decide (is_Some (trustees p)) && negb stale, stale)
  end.
End anchors.

(** ** Collection *)

(** The ratchet order: no score below any score. *)
Definition score_le (a b : option Z) : Prop :=
  match a, b with
  | None, _ => True
  | Some _, None => False
  | Some x, Some y => x ≤ y
  end.
#[global] Instance score_le_preorder : PreOrder score_le.
Proof.
  split; [by intros [x|]; simpl|]. intros [x|] [y|] [z|]; simpl; try done. lia.
Qed.

Lemma improves_le best score : improves best score = true → score_le best (Some score).
Proof. destruct best as [b|]; [|done]. simpl. rewrite Z.ltb_lt. lia. Qed.

Lemma improves_trans best s1 s2 :
  improves best s1 = true → improves (Some s1) s2 = true → improves best s2 = true.
Proof. destruct best as [b|]; [|done]. simpl. rewrite !Z.ltb_lt. lia. Qed.

Section collection.
Context `{AnchorHashers} `{SchnorrOracle} `{AnchorDecoder}.
Implicit Types (s : AnchorStore) (u : AnchorStateUpdates) (a : FinalityAnchor) (env : ChainView).

Lemma is_err_false {E F A} (r : outcome E A) :
  is_err (F := F) r = Ok false ↔ ∃ x, r = Ok x.
Proof. destruct r; simpl; naive_solver. Qed.

Lemma verified keys a : is_err (F := unit) (verify_anchor a keys) = Ok false → verify_anchor a keys = Ok tt.
Proof. rewrite is_err_false. by intros [[] ?]. Qed.

(** *** What collection means *)

(** The payloads of the added blocks, in the order of the scan. *)
Definition scan env (added : list Hash) : list (Hash * AnchorPayload) :=
  flat_map (λ b, (λ pl, (b, pl)) <$> accepted_payloads env b) added.

(** What the reachability service promises of the blocks added to the chain: they are given
    upwards. *)
Record added_chain env (added : list Hash) : Prop := {
  ac_refl : ∀ b, b ∈ added → is_chain_ancestor_of env b b = true;
  ac_trans : ∀ x y z, is_chain_ancestor_of env x y = true → is_chain_ancestor_of env y z = true →
    is_chain_ancestor_of env x z = true;
  ac_sorted : StronglySorted (λ b b', is_chain_ancestor_of env b b' = true) added }.

Section meaning.
Context env (p : FinalityAnchorParams) (keys : TrusteeKeys) (deny : list DenyListEntry).

(** Trustee [i] is disqualified at block [b], after the payloads [before]: a stored entry
    lies on the chain of [b], or a proof of equivocation was scanned. *)
Definition stored_conviction (b : Hash) (i : Z) : Prop :=
  ∃ e, e ∈ deny ∧ deny_trustee e = i ∧ is_chain_ancestor_of env (deny_accepting_block e) b = true.
Definition convicts (x : Hash * AnchorPayload) (b : Hash) (i : Z) : Prop :=
  ∃ ev, x = (b, Equivocation ev) ∧ equivocated keys (cadence_interval p) ev ∧ trustee_index ev = i.
Definition disqualified (before : list (Hash * AnchorPayload)) (b : Hash) (i : Z) : Prop :=
  stored_conviction b i ∨ ∃ x b', x ∈ before ∧ convicts x b' i.

(** What adopting an anchor from block [b] requires. *)
Record adoptable (before : list (Hash * AnchorPayload)) (b : Hash) a : Prop := {
  ad_verified : verify_anchor a keys = Ok tt;
  ad_depth : ∃ bs, get_daa_score env b = Some bs ∧ depth p ≤ saturating_sub bs (anchored_daa_score a);
  ad_known : get_daa_score env (anchored_block a) = Some (anchored_daa_score a);
  ad_chain : is_chain_ancestor_of env (anchored_block a) b = true;
  ad_quorum : ∃ signers, NoDup signers ∧ (ANCHOR_QUORUM ≤ length signers)%nat ∧
    ∀ i, i ∈ signers → 0 ≤ i < 5 ∧ Z.testbit (signer_bitmap a) i = true ∧ ¬ disqualified before b i }.

(** The deny entries collected after the payloads [before]: each comes from a proof in its
    block, and whoever was convicted is denied at that block. *)
Record entries_ok (before : list (Hash * AnchorPayload)) (es : list DenyListEntry) : Prop := {
  eo_sound : ∀ e, e ∈ es → ∃ x, x ∈ before ∧ convicts x (deny_accepting_block e) (deny_trustee e);
  eo_complete : ∀ x b i, x ∈ before → convicts x b i →
    ∃ e, e ∈ deny ++ es ∧ deny_trustee e = i ∧ is_chain_ancestor_of env (deny_accepting_block e) b = true }.

(** [b] is above every block scanned before. *)
Definition above (before : list (Hash * AnchorPayload)) (b : Hash) : Prop :=
  is_chain_ancestor_of env b b = true ∧ ∀ x, x ∈ before → is_chain_ancestor_of env x.1 b = true.
Context (Htrans : ∀ x y z, is_chain_ancestor_of env x y = true → is_chain_ancestor_of env y z = true → is_chain_ancestor_of env x z = true).

Lemma denied_iff before b u i :
  entries_ok before (new_deny_entries u) → above before b →
  denied env deny b u i = true ↔ disqualified before b i.
Proof.
  intros [Hs Hc] [_ Hab]. unfold denied. rewrite orb_true_iff, !existsb_exists. split.
  - intros [(e & He%list_elem_of_In & [Hi%Z.eqb_eq Ha]%andb_true_iff)|(e & He%list_elem_of_In & <-%Z.eqb_eq)].
    + left. by exists e.
    + right. destruct (Hs e He) as (x & Hx & Hv). by exists x, (deny_accepting_block e).
  - intros [(e & He & <- & Ha)|(x & b' & Hx & Hv)].
    + left. exists e. split; [by apply list_elem_of_In|]. by rewrite Z.eqb_refl.
    + destruct (Hc x b' i Hx Hv) as (e & [He|He]%elem_of_app & <- & Ha).
      * left. exists e. split; [by apply list_elem_of_In|]. rewrite Z.eqb_refl. apply (Htrans _ b'); [done|].
        specialize (Hab x Hx). destruct Hv as (ev & -> & _). done.
      * right. exists e. split; [by apply list_elem_of_In|]. apply Z.eqb_refl.
Qed.

Lemma countable_iff before b u a :
  entries_ok before (new_deny_entries u) → above before b →
  (ANCHOR_QUORUM ≤ countable_signers (denied env deny b u) (signer_bitmap a))%nat ↔
  ∃ signers, NoDup signers ∧ (ANCHOR_QUORUM ≤ length signers)%nat ∧
    ∀ i, i ∈ signers → 0 ≤ i < 5 ∧ Z.testbit (signer_bitmap a) i = true ∧ ¬ disqualified before b i.
Proof.
  intros He Hab. unfold countable_signers. set (l := filter _ _).
  assert (Hl : ∀ i, i ∈ l ↔ 0 ≤ i < 5 ∧ Z.testbit (signer_bitmap a) i = true ∧ ¬ disqualified before b i).
  { intros i. unfold l. rewrite list_elem_of_filter, elem_of_bitmap_signers, <- (denied_iff before b u i He Hab), not_true_iff_false. tauto. }
  split.
  - intros Hq. exists l. split; [apply NoDup_filter, NoDup_bitmap_signers|]. split; [done|]. intros i. apply Hl.
  - intros (l' & Hnd & Hq & Hin). etrans; [exact Hq|]. apply submseteq_length, NoDup_submseteq; [done|]. intros i Hi. by apply Hl, Hin.
Qed.

Lemma apply_anchor_cases before b bs u best a st' :
  entries_ok before (new_deny_entries u) → above before b → get_daa_score env b = Some bs →
  apply_anchor env p keys deny b bs (u, best) a = Ok st' →
  (st' = (u, best) ∧ (adoptable before b a → improves best (anchored_daa_score a) = false)) ∨
  (adoptable before b a ∧ improves best (anchored_daa_score a) = true ∧
   st' = (mk_updates (Some a) (new_deny_entries u) (clear_pending u), Some (anchored_daa_score a))).
Proof.
  intros He Hab Hbs. unfold apply_anchor. intros (bad & Hbad & Hst)%bind_Ok.
  destruct bad; [left; split; [congruence|]; intros [Hv _ _ _ _]; by rewrite Hv in Hbad|]. apply verified in Hbad.
  destruct (Z.ltb_spec (saturating_sub bs (anchored_daa_score a)) (depth p)) as [Hd|Hd].
  { left. split; [congruence|]. intros [_ (bs' & Hbs' & Hd') _ _ _]. simplify_eq. lia. }
  destruct (get_daa_score env (anchored_block a)) as [sc|] eqn:Hsc; [|left; split; [congruence|]; intros [_ _ ? _ _]; congruence].
  destruct (Z.eqb_spec sc (anchored_daa_score a)) as [->|]; cbn [negb] in Hst; [|left; split; [congruence|]; intros [_ _ ? _ _]; congruence].
  destruct (is_chain_ancestor_of env (anchored_block a) b) eqn:Han; cbn [negb] in Hst; [|left; split; [congruence|]; intros [_ _ _ ? _]; congruence].
  pose proof (countable_iff before b u a He Hab) as Hq.
  destruct (Nat.ltb_spec (countable_signers (denied env deny b u) (signer_bitmap a)) ANCHOR_QUORUM) as [Hlt|Hge].
  { left. split; [congruence|]. intros [_ _ _ _ Hs%Hq]. lia. }
  destruct (improves best (anchored_daa_score a)) eqn:Him; [|left; split; congruence].
  right. split; [|split; [done|congruence]]. split; [done|by exists bs|done|done|by apply Hq].
Qed.

Lemma apply_evidence_cases before b u best ev st' :
  entries_ok before (new_deny_entries u) → above before b →
  apply_evidence env p keys deny b (u, best) ev = Ok st' →
  st'.2 = best ∧ new_latest st'.1 = new_latest u ∧ clear_pending st'.1 = clear_pending u ∧
  entries_ok (before ++ [(b, Equivocation ev)]) (new_deny_entries st'.1).
Proof.
  intros He Hab. pose proof He as [Hs Hc]. unfold apply_evidence. intros (bad & Hbad & Hst)%bind_Ok.
  assert (Hskip : (equivocated keys (cadence_interval p) ev → disqualified before b (trustee_index ev)) →
    entries_ok (before ++ [(b, Equivocation ev)]) (new_deny_entries u)).
  { intros Hdis. split; [intros e Hx; destruct (Hs e Hx) as (x & ? & ?); exists x; split; [apply elem_of_app; by left|done]|].
    intros x b' i [Hx|Hx%list_elem_of_singleton]%elem_of_app Hv; [by apply (Hc x)|]. subst x. destruct Hv as (ev' & [= <- <-] & Hev & <-).
    destruct (Hdis Hev) as [(e & ? & ? & ?)|(x & b' & Hx & Hv)]; [exists e; rewrite elem_of_app; tauto|].
    destruct (Hc x b' _ Hx Hv) as (e & Hin & ? & Ha). exists e. split; [done|]. split; [done|]. apply (Htrans _ b'); [done|].
    destruct Hab as [_ Hab]. specialize (Hab x Hx). by destruct Hv as (? & -> & _). }
  destruct bad.
  { injection Hst as <-. split_and!; [done..|]. apply Hskip. intros Hev%verify_equivocation_Ok. by rewrite Hev in Hbad. }
  apply is_err_false in Hbad as [[] Hev%verify_equivocation_Ok].
  destruct (denied env deny b u (trustee_index ev)) eqn:Hd; injection Hst as <-; (split_and!; [done..|]).
  { apply Hskip. intros _. by apply (denied_iff before b u _ He Hab). }
  cbn [fst new_deny_entries]. split.
  - intros e [Hx| ->%list_elem_of_singleton]%elem_of_app.
    + destruct (Hs e Hx) as (x & ? & ?). exists x. split; [apply elem_of_app; by left|done].
    + exists (b, Equivocation ev). split; [apply elem_of_app; right; by left|]. by exists ev.
  - intros x b' i [Hx|Hx%list_elem_of_singleton]%elem_of_app Hv.
    + destruct (Hc x b' i Hx Hv) as (e & Hin & ?). exists e. split; [|done]. rewrite app_assoc. apply elem_of_app. by left.
    + subst x. destruct Hv as (ev' & [= <- <-] & _ & <-). exists (mk_deny (trustee_index ev) b). rewrite app_assoc.
      split; [apply elem_of_app; right; by left|]. split; [done|apply Hab].
Qed.

(** The state of the collection after the payloads [before], relative to the ratchet it
    started from: what it would adopt was adoptable where it was scanned and improves the
    ratchet, and nothing adoptable is better. *)
Record collecting (best0 : option Z) (before : list (Hash * AnchorPayload)) (st : AnchorStateUpdates * option Z) : Prop := {
  cg_pending : clear_pending st.1 = false;
  cg_entries : entries_ok before (new_deny_entries st.1);
  cg_latest : match new_latest st.1 with
    | None => st.2 = best0
    | Some a => st.2 = Some (anchored_daa_score a) ∧ improves best0 (anchored_daa_score a) = true ∧
        ∃ pre b post, before = pre ++ (b, Anchor a) :: post ∧ adoptable pre b a
    end;
  cg_best : ∀ pre b a post, before = pre ++ (b, Anchor a) :: post → adoptable pre b a →
    score_le (Some (anchored_daa_score a)) st.2 }.

Lemma snoc_split {A : Type} (l pre post : list A) x y :
  l ++ [x] = pre ++ y :: post → (post = [] ∧ pre = l ∧ y = x) ∨ ∃ post', post = post' ++ [x] ∧ l = pre ++ y :: post'.
Proof.
  destruct post as [|z post' _] using rev_ind; [intros [-> [= ->]]%app_inj_tail; by left|].
  rewrite app_comm_cons, app_assoc. intros [-> ->]%app_inj_tail. right. by exists post'.
Qed.

Lemma apply_payload_collecting best0 before b bs st pl st' :
  get_daa_score env b = Some bs → above before b → collecting best0 before st →
  apply_payload env p keys deny b bs st pl = Ok st' → collecting best0 (before ++ [(b, pl)]) st'.
Proof.
  intros Hbs Hab. destruct st as [u best], pl as [a|e]; intros [Hc He Hn Hm]; cbn [fst snd] in *.
  - assert (Hent : entries_ok (before ++ [(b, Anchor a)]) (new_deny_entries u)).
    { destruct He as [Hs Hco]. split; [intros e Hx; destruct (Hs e Hx) as (x & ? & ?); exists x; split; [apply elem_of_app; by left|done]|].
      intros x b' i [Hx|Hx%list_elem_of_singleton]%elem_of_app Hv; [by apply (Hco x)|]. subst x. by destruct Hv as (? & ? & _). }
    intros Hst. apply (apply_anchor_cases before b bs u best a st' He Hab Hbs) in Hst as [[-> Hno]|(Had & Him & ->)]; cbn [fst snd].
    + split; [done|done| |]; cbn [fst snd].
      * destruct (new_latest u) as [a'|]; [|done]. destruct Hn as (? & ? & pre & b' & post & -> & ?). split; [done|]. split; [done|].
        exists pre, b', (post ++ [(b, Anchor a)]). by rewrite <- app_assoc.
      * intros pre b' a' post [(-> & -> & [= -> ->])|(post' & -> & ->)]%snoc_split Had; [|by eapply Hm].
        specialize (Hno Had). unfold improves in Hno. destruct best; [|done]. cbn. lia.
    + split; [done|done| |]; cbn [fst snd new_latest].
      * split; [done|]. split; [|by exists before, b, []]. destruct (new_latest u) as [a'|]; [|by rewrite Hn in Him].
        destruct Hn as (-> & Him0 & _). by eapply improves_trans.
      * intros pre b' a' post [(-> & -> & [= -> ->])|(post' & -> & ->)]%snoc_split Had'; [done|].
        etrans; [by eapply Hm|]. by apply improves_le.
  - intros Hst. destruct (apply_evidence_cases before b u best e st' He Hab Hst) as (E1 & E2 & E3 & E4). split; [by rewrite E3|done| |]; rewrite ?E1, ?E2.
    + destruct (new_latest u) as [a'|]; [|done]. destruct Hn as (? & ? & pre & b' & post & -> & ?). split; [done|]. split; [done|].
      exists pre, b', (post ++ [(b, Equivocation e)]). by rewrite <- app_assoc.
    + intros pre b' a' post [(-> & -> & ?)|(post' & -> & ->)]%snoc_split Had; [done|by eapply Hm].
Qed.
End meaning.

(** The nested loops are one loop over the scan. *)
Definition scan_step env p keys deny (st : AnchorStateUpdates * option Z) (x : Hash * AnchorPayload)
    : outcome unit (AnchorStateUpdates * option Z) :=
  bs ← unwrap (get_daa_score env x.1); apply_payload env p keys deny x.1 bs st x.2.
Lemma chain_block_scan env p keys deny b st st' :
  apply_chain_block env p keys deny st b = Ok st' →
  try_fold (scan_step env p keys deny) st ((λ pl, (b, pl)) <$> accepted_payloads env b) = Ok st'.
Proof.
  unfold apply_chain_block. intros (bs & Hbs & Hf)%bind_Ok. revert st Hf.
  induction (accepted_payloads env b) as [|pl l IH]; intros st; cbn [fmap list_fmap try_fold]; [done|].
  intros (st1 & Hr1 & Hr2)%bind_Ok. assert (Hone : scan_step env p keys deny st (b, pl) = Ok st1) by (unfold scan_step; cbn [fst snd]; by rewrite Hbs).
  rewrite Hone. by apply IH.
Qed.
Lemma chain_scan env p keys deny added st st' :
  try_fold (apply_chain_block env p keys deny) st added = Ok st' →
  try_fold (scan_step env p keys deny) st (scan env added) = Ok st'.
Proof.
  revert st. induction added as [|b l IH]; intros st; [done|]. cbn [try_fold]. intros (st1 & Hr1%chain_block_scan & Hr2)%bind_Ok.
  change (scan env (b :: l)) with (((λ pl, (b, pl)) <$> accepted_payloads env b) ++ scan env l). rewrite try_fold_app, Hr1. by apply IH.
Qed.
Lemma elem_of_scan env added x : x ∈ scan env added → x.1 ∈ added.
Proof.
  intros Hx%list_elem_of_In. apply in_flat_map in Hx as (b & Hb%list_elem_of_In & Hx%list_elem_of_In).
  apply list_elem_of_fmap in Hx as (pl & -> & _). done.
Qed.
Lemma scan_above env added before x after :
  added_chain env added → scan env added = before ++ x :: after → above env before x.1.
Proof.
  intros [Hr _ Hs] Heq. assert (Hsc : StronglySorted (λ x y : Hash * AnchorPayload, is_chain_ancestor_of env x.1 y.1 = true) (scan env added)).
  { clear Heq. induction Hs as [|b l Hs IH Hall]; [constructor|].
    change (scan env (b :: l)) with (((λ pl, (b, pl)) <$> accepted_payloads env b) ++ scan env l).
    assert (Hb : is_chain_ancestor_of env b b = true) by (apply Hr; by left).
    induction (accepted_payloads env b) as [|pl pls IHp]; [apply IH; intros c Hc; apply Hr; by right|].
    cbn [fmap list_fmap app]. constructor; [done|]. apply Forall_forall. intros y [Hy|Hy]%elem_of_app; cbn [fst].
    - apply list_elem_of_fmap in Hy as (pl' & -> & _). done.
    - rewrite Forall_forall in Hall. by apply Hall, (elem_of_scan env). }
  rewrite Heq in Hsc. split.
  - apply Hr, (elem_of_scan env added). rewrite Heq. apply elem_of_app. right. by left.
  - intros y Hy. apply (StronglySorted_app_1_elem_of (λ x y : Hash * AnchorPayload, is_chain_ancestor_of env x.1 y.1 = true) before (x :: after) y x); [done|done|by left].
Qed.

Lemma collecting_chain env p keys deny best0 added st' :
  added_chain env added → try_fold (apply_chain_block env p keys deny) (no_updates, best0) added = Ok st' →
  collecting env p keys deny best0 (scan env added) st'.
Proof.
  intros Hch Hf%chain_scan. revert Hf. apply (try_fold_inv (collecting env p keys deny best0)).
  - split; [done| |done|by intros [|? ?] ? ? ? ?]. split; [by intros e He%elem_of_nil|by intros x b i Hx%elem_of_nil].
  - intros before [b pl] after st st1 Heq Hst. unfold scan_step. cbn [fst snd]. intros (bs & Hbs & Hp)%bind_Ok.
    assert (Hbs' : get_daa_score env b = Some bs) by (unfold unwrap in Hbs; destruct (get_daa_score env b); congruence).
    eapply apply_payload_collecting; [apply Hch|exact Hbs'|by eapply (scan_above env added before (b, pl))|exact Hst|exact Hp].
Qed.

(** A payload as the decoder yields it: the bitmap and the trustee index are unsigned. *)
Definition payload_unsigned (pl : AnchorPayload) : Prop :=
  match pl with Anchor a => 0 ≤ signer_bitmap a | Equivocation e => 0 ≤ trustee_index e end.
(** Collecting returns: with five pinned keys, unsigned payload fields and a header for every
    added block no step fails. *)
Lemma apply_payload_total env p keys deny b score st pl :
  length keys = TRUSTEE_COUNT → payload_unsigned pl → ∃ st', apply_payload env p keys deny b score st pl = Ok st'.
Proof.
  intros Hk. destruct st as [u best], pl as [a|e]; intros Hn; cbn [apply_payload].
  - unfold apply_anchor. destruct (verify_quorum keys (anchor_signing_hash (anchored_block a) (anchored_daa_score a)) (signer_bitmap a) (signatures a) Hn Hk) as [Hnp _].
    change (verify_anchor a keys ≠ Panic) in Hnp. destruct (verify_anchor a keys) as [[]| |]; [|by eexists|done]. cbn [is_err mbind outcome_bind].
    destruct (_ <? _); [by eexists|]. destruct (get_daa_score env _) as [s|]; [|by eexists].
    destruct (negb (_ =? _)); [by eexists|]. destruct (negb _); [by eexists|]. destruct (_ <? _)%nat; [by eexists|]. destruct (improves _ _); by eexists.
  - unfold apply_evidence. destruct (verify_equivocation_decides e keys (cadence_interval p) Hn Hk) as [Hnp _].
    destruct (verify_equivocation_evidence e keys _) as [[]| |]; [|by eexists|done]. cbn [is_err mbind outcome_bind].
    destruct (denied _ _ _ _ _); by eexists.
Qed.
Lemma collect_total env p s s' added :
  (∀ keys, trustees p = Some keys → length keys = TRUSTEE_COUNT) →
  (∀ bytes pl, decode_anchor_payload bytes = Some pl → payload_unsigned pl) →
  Forall (λ b, is_Some (get_daa_score env b)) added → ∃ r, collect_finality_anchor_updates env p s s' added = Ok r.
Proof.
  intros Hk Hd Hall. unfold collect_finality_anchor_updates. destruct (trustees p) as [keys|]; [|by eexists]. specialize (Hk keys eq_refl).
  case_bool_decide as He; [by eexists|]. clear He. cut (∀ st, ∃ st', try_fold (apply_chain_block env p keys (deny_list s)) st added = Ok st').
  { intros Hf. destruct (Hf (no_updates, best_of s)) as [st' ->]. by eexists. }
  induction Hall as [|b l [score Hb] _ IH]; intros st; cbn [try_fold]; [by eexists|].
  assert (Hst : ∃ st1, apply_chain_block env p keys (deny_list s) st b = Ok st1).
  { unfold apply_chain_block. rewrite Hb. cbn [unwrap mbind outcome_bind].
    assert (Hpl : Forall payload_unsigned (accepted_payloads env b)).
    { apply Forall_forall. intros pl Hpl. unfold accepted_payloads in Hpl. apply list_elem_of_In, in_flat_map in Hpl as (d & _ & Hpl).
      destruct (block_transactions env _); [|done]. apply in_flat_map in Hpl as (e & _ & Hpl). destruct (_ !! _) as [tx|]; [|done].
      unfold tx_payload in Hpl. case_bool_decide; [|done]. destruct (decode_anchor_payload (payload tx)) eqn:Hdec; [|done].
      destruct Hpl as [<-|[]]. by eapply Hd. }
    clear -Hpl Hk. revert st. induction Hpl as [|pl pls Hp _ IH]; intros st; cbn [try_fold]; [by eexists|].
    destruct (apply_payload_total env p keys (deny_list s) b score st pl Hk Hp) as (st1 & ->). apply IH. }
  destruct Hst as (st1 & ->). apply IH.
Qed.

(** What holds of every collection, whatever the chain view: an anchor it adopts is verified
    and improves the ratchet. *)
Definition ratcheting keys (best0 : option Z) (st : AnchorStateUpdates * option Z) : Prop :=
  match new_latest st.1 with
  | None => st.2 = best0
  | Some a => st.2 = Some (anchored_daa_score a) ∧ improves best0 (anchored_daa_score a) = true ∧ verify_anchor a keys = Ok tt
  end.
Lemma apply_payload_ratcheting env p keys deny best0 b bs st pl st' :
  ratcheting keys best0 st → apply_payload env p keys deny b bs st pl = Ok st' → ratcheting keys best0 st'.
Proof.
  destruct st as [u best], pl as [a|e]; intros Hn; cbn [apply_payload].
  - unfold apply_anchor. intros (bad & Hbad & Hst)%bind_Ok. destruct bad; [by simplify_eq|]. apply verified in Hbad.
    destruct (_ <? _); [by simplify_eq|]. destruct (get_daa_score env _); [|by simplify_eq]. destruct (negb (_ =? _)); [by simplify_eq|].
    destruct (negb _); [by simplify_eq|]. destruct (_ <? _)%nat; [by simplify_eq|].
    destruct (improves best (anchored_daa_score a)) eqn:Him; [|by simplify_eq]. injection Hst as <-. unfold ratcheting in *. cbn [fst snd new_latest] in *.
    split; [done|]. split; [|done]. destruct (new_latest u) as [a'|]; [|by rewrite Hn in Him]. destruct Hn as (-> & Him0 & _). by eapply improves_trans.
  - unfold apply_evidence. intros (bad & _ & Hst)%bind_Ok. destruct bad; [by simplify_eq|]. by destruct (denied _ _ _ _ _); simplify_eq.
Qed.
Lemma chain_ratcheting env p keys deny best0 added st st' :
  ratcheting keys best0 st → try_fold (apply_chain_block env p keys deny) st added = Ok st' → ratcheting keys best0 st'.
Proof.
  intros Hst Hf%chain_scan. revert Hf. apply (try_fold_inv (λ _, ratcheting keys best0)); [done|].
  intros _ x _ st1 st2 _ Hst1 (bs & _ & Hst2)%bind_Ok. by eapply apply_payload_ratcheting.
Qed.

(** Settling the pending anchor [held] after the scan. *)
Lemma settle_cases env keys best0 held st :
  ratcheting keys best0 st →
  let u := settle_pending env held st in
  new_deny_entries u = new_deny_entries st.1 ∧
  ((new_latest u = new_latest st.1 ∧ (∀ a, held = Some a → locally_verifiable env a = true → score_le (Some (anchored_daa_score a)) st.2)) ∨
   ∃ a, held = Some a ∧ new_latest u = Some a ∧ locally_verifiable env a = true ∧ improves best0 (anchored_daa_score a) = true ∧
     score_le st.2 (Some (anchored_daa_score a))).
Proof.
  destruct st as [u best]. unfold ratcheting. cbn [fst snd]. intros Hn. unfold settle_pending.
  destruct held as [a|]; [|split; [done|left; by split]].
  destruct (improves best (anchored_daa_score a)) eqn:Him; cbn [negb].
  - destruct (locally_verifiable env a) eqn:Hl; [|split; [done|left; split; [done|intros a' [= <-] ?; congruence]]].
    split; [done|right]. exists a. split_and!; [done..| |by apply improves_le].
    destruct (new_latest u); [|by rewrite <- Hn]. destruct Hn as (-> & Him0 & _). by eapply improves_trans.
  - split; [done|left]. split; [done|]. intros a' [= <-] _. unfold improves in Him. destruct best; [cbn; lia|done].
Qed.

Lemma collect_cases env p s s' added r keys :
  trustees p = Some keys → collect_finality_anchor_updates env p s s' added = Ok r →
  added = [] ∧ r = None ∨
  ∃ st, try_fold (apply_chain_block env p keys (deny_list s)) (no_updates, best_of s) added = Ok st ∧
    let u := settle_pending env (pending s') st in
    new_latest (default no_updates r) = new_latest u ∧ new_deny_entries (default no_updates r) = new_deny_entries u.
Proof.
  intros Hk. unfold collect_finality_anchor_updates. rewrite Hk. case_bool_decide as He; [left; split; [done|congruence]|].
  intros (st & Hst & Hu)%bind_Ok. cbv zeta in Hu. right. exists st. split; [done|]. cbv zeta.
  destruct (has_effect (settle_pending env (pending s') st)) eqn:Heff; apply Ok_inj in Hu as <-; [done|]. cbn [default from_option].
  unfold has_effect in Heff. apply orb_false_iff in Heff as [[Hl Hd]%orb_false_iff _].
  apply negb_false_iff, bool_decide_eq_true in Hd. by destruct (new_latest (settle_pending _ _ _)).
Qed.

(** What [collect_finality_anchor_updates] adopts. *)
Lemma collect_spec env p s s' added u keys :
  trustees p = Some keys → collect_finality_anchor_updates env p s s' added = Ok (Some u) →
  match new_latest u with
  | None => True
  | Some a => improves (best_of s) (anchored_daa_score a) = true ∧
      (verify_anchor a keys = Ok tt ∨ pending s' = Some a)
  end.
Proof.
  intros Hk Hc. destruct (collect_cases _ _ _ _ _ _ _ Hk Hc) as [[_ ?]|(st & Hst & Hl & _)]; [done|]. change (default no_updates (Some u)) with u in Hl. rewrite Hl.
  apply (chain_ratcheting _ _ _ _ (best_of s)) in Hst; [|done].
  destruct (settle_cases env keys (best_of s) (pending s') st Hst) as [_ [[-> _]|(a & Hp & -> & _ & Him & _)]]; [|by split; [|right]].
  unfold ratcheting in Hst. destruct (new_latest st.1); [|done]. destruct Hst as (_ & ? & ?). by split; [|left].
Qed.
End collection.

(** ** The state machine *)

(** A virtual resolution: it has read the ratchet and the deny-list and scans the added
    blocks, or has read the pending anchor too and collected its updates, which it has not
    committed yet. *)
Inductive Resolution := Idle | Scanning (read : AnchorStore) | Collected (u : option AnchorStateUpdates).
(** A node: the store, and the resolution in flight. *)
Record AnchorNode := mk_node { node_store : AnchorStore; in_flight : Resolution }.

Section machine.
Context `{AnchorHashers} `{SchnorrOracle} `{AnchorDecoder}.
Context (p : FinalityAnchorParams).

(** Resolution is single-threaded, gossip runs beside it; the DAG may grow between steps. *)
Inductive anchor_step : AnchorNode → AnchorNode → Prop :=
  | step_read s : anchor_step (mk_node s Idle) (mk_node s (Scanning s))
  | step_collect env added s0 s u :
      collect_finality_anchor_updates env p s0 s added = Ok u →
      anchor_step (mk_node s (Scanning s0)) (mk_node s (Collected u))
  | step_commit s u :
      anchor_step (mk_node s (Collected u)) (mk_node (commit_anchor_updates s u) Idle)
  | step_gossip env sink a s s' o fl :
      apply_external_finality_anchor env p s sink a = Ok (s', o) →
      anchor_step (mk_node s fl) (mk_node s' fl).

(** The executions in which nothing comes between the reads and the commit. *)
Inductive serial_step : AnchorStore → AnchorStore → Prop :=
  | serial_resolve env added s u :
      collect_finality_anchor_updates env p s s added = Ok u →
      serial_step s (commit_anchor_updates s u)
  | serial_gossip env sink a s s' o :
      apply_external_finality_anchor env p s sink a = Ok (s', o) → serial_step s s'.

Lemma append_deny_prefix (es l : list DenyListEntry) :
  l `prefix_of` fold_left (λ es e, if bool_decide (e ∈ es) then es else es ++ [e]) es l.
Proof.
  revert l. induction es as [|e es IH]; intros l; [done|]. cbn [fold_left].
  etrans; [|apply IH]. case_bool_decide; [done|by apply prefix_app_r].
Qed.

Lemma commit_spec s u :
  best_of (commit_anchor_updates s (Some u)) =
    match new_latest u with Some a => Some (anchored_daa_score a) | None => best_of s end ∧
  deny_list s `prefix_of` deny_list (commit_anchor_updates s (Some u)).
Proof.
  unfold commit_anchor_updates. destruct (new_deny_entries u) as [|e es], (new_latest u) as [a|],
    (clear_pending u); (split; [done|]); try done; apply (append_deny_prefix (e :: es)).
Qed.

Lemma external_cases env s sink a s' o :
  apply_external_finality_anchor env p s sink a = Ok (s', o) →
  s' = s ∨
  ∃ keys, trustees p = Some keys ∧ verify_anchor a keys = Ok tt ∧
    improves (best_of s) (anchored_daa_score a) = true ∧
    (s' = set_latest s a ∧ locally_verifiable env a = true ∨ s' = set_pending s a).
Proof.
  unfold apply_external_finality_anchor. destruct (trustees p) as [keys|]; [|left; congruence].
  intros (bad & Hbad & Hr)%bind_Ok. destruct bad; [left; congruence|]. apply verified in Hbad.
  cbv zeta in Hr. destruct (_ <? ANCHOR_QUORUM)%nat; [left; congruence|].
  destruct (improves (best_of s) (anchored_daa_score a)) eqn:Him; cbn [negb] in Hr; [|left; congruence].
  destruct (locally_verifiable env a) eqn:Hl.
  { right. exists keys. split_and!; [done..|]. left. split; [congruence|done]. }
  destruct (negb (improves _ _)); [left; congruence|]. right. exists keys.
  split_and!; [done..|]. right. congruence.
Qed.

(** (C40) In executions where nothing comes between collecting and committing, the ratchet
    is monotone: along any sequence of virtual resolutions and gossiped anchors the
    latest anchor's score never decreases, and deny-list entries are never removed. *)
Theorem serial_ratchet_monotone s s' :
  rtc serial_step s s' →
  score_le (best_of s) (best_of s') ∧ deny_list s `prefix_of` deny_list s'.
Proof.
  induction 1 as [s|s s1 s2 Hst _ [IH1 IH2]]; [done|].
  assert (Hone : score_le (best_of s) (best_of s1) ∧ deny_list s `prefix_of` deny_list s1).
  { destruct Hst as [env added s [u|] Hc|env sink a s s1 o Hx].
    - destruct (commit_spec s u) as [-> Hd]. split; [|done].
      destruct (trustees p) as [keys|] eqn:Hk.
      + pose proof (collect_spec _ _ _ _ _ _ _ Hk Hc) as Hs. destruct (new_latest u); [|done].
        by apply improves_le, Hs.
      + unfold collect_finality_anchor_updates in Hc. by rewrite Hk in Hc.
    - done.
    - apply external_cases in Hx as [->|(keys & _ & _ & Him & [[-> _]| ->])]; [done| |done].
      split; [by apply improves_le|done]. }
  destruct Hone as [? ?]. split; by etrans.
Qed.

(** Every anchor a node holds or is about to adopt was verified, and the certified pair
    is the pair of the full anchor. *)
Definition anchors_certified (keys : TrusteeKeys) (n : AnchorNode) : Prop :=
  let s := node_store n in
  latest s = stored_of <$> latest_full s ∧
  (∀ a, latest_full s = Some a ∨ pending s = Some a ∨
        (∃ u, in_flight n = Collected (Some u) ∧ new_latest u = Some a) → verify_anchor a keys = Ok tt).

Lemma anchors_certified_step keys n n' :
  trustees p = Some keys → anchors_certified keys n → anchor_step n n' → anchors_certified keys n'.
Proof.
  intros Hk [Hl Hv] Hst. destruct Hst as [s|env added s0 s u Hc|s u|env sink a s s' o fl Hx];
    unfold anchors_certified; cbn [node_store in_flight] in *.
  - split; [done|]. intros a [Ha|[Ha|(u & ? & _)]]; [apply Hv; tauto|apply Hv; tauto|done].
  - split; [done|]. intros a [Ha|[Ha|(u' & [= ->] & Ha)]]; [apply Hv; tauto|apply Hv; tauto|].
    pose proof (collect_spec _ _ _ _ _ _ _ Hk Hc) as Hs. rewrite Ha in Hs. destruct Hs as (_ & [?|?]); [done|apply Hv; tauto].
  - destruct u as [u|]; [|by split; [done|intros a [|[|(? & ? & _)]]; [apply Hv; tauto..|]]].
    assert (Hnew : ∀ a, new_latest u = Some a → verify_anchor a keys = Ok tt).
    { intros a Ha. apply Hv. right; right. by exists u. }
    unfold commit_anchor_updates. destruct (new_deny_entries u) as [|e es], (new_latest u) as [a|],
      (clear_pending u); cbn [latest latest_full pending set_latest clear_pending_store
        append_deny_entries]; (split; [done|]);
      intros a' [Ha|[Ha|(? & ? & _)]]; try done; try (simplify_eq; by apply Hnew); apply Hv; tauto.
  - apply external_cases in Hx as [->|(keys' & Hk' & Hva & _ & [[-> _]| ->])]; [done| |];
      rewrite Hk in Hk'; injection Hk' as <-; cbn [latest latest_full pending set_latest set_pending];
      (split; [done|]); intros a' [Ha|[Ha|Ha]]; try (simplify_eq; done); apply Hv; tauto.
Qed.

(** (C12) Only certified anchors: from an empty store, whatever way resolution and gossip
    interleave, every anchor the node enforces, re-serves, holds pending or is about to
    commit passed the trustee-quorum verification, and the enforced block and score are
    those of the anchor it re-serves. *)
Theorem anchors_always_certified keys n :
  trustees p = Some keys →
  rtc anchor_step (mk_node (mk_store None [] None None) Idle) n → anchors_certified keys n.
Proof.
  intros Hk Hr.
  assert (Hinit : anchors_certified keys (mk_node (mk_store None [] None None) Idle)).
  { split; [done|]. cbn [node_store in_flight latest_full pending]. naive_solver. }
  revert Hinit. induction Hr as [n|n n1 n2 Hst _ IH]; [done|]. intros Hn.
  by apply IH, (anchors_certified_step keys n).
Qed.


(** The guard, the enforcement state and the reported status agree: at every score the
    guard names a block exactly when the state is [Enforcing] and the status says
    enforcing, and then it is the latest anchor's block; the state is [Stale] exactly
    when keys are pinned and the status says stale. *)
Theorem guard_state_status_agree s daa bound :
  staleness_bound (E := unit) p daa = Ok bound →
  ∃ g st en stale,
    finality_anchor_guard p s daa = Ok g ∧ compute_anchor_enforcement_state p s daa = Ok st ∧
    anchor_status p s daa = Ok (en, stale) ∧
    (is_Some g ↔ st = Enforcing) ∧ (en = true ↔ st = Enforcing) ∧
    (st = Stale ↔ is_Some (trustees p) ∧ stale = true) ∧
    ∀ b, g = Some b → ∃ l, latest s = Some l ∧ b = stored_block l ∧
      saturating_sub daa (stored_daa_score l) ≤ bound.
Proof.
  intros Hb. unfold finality_anchor_guard, compute_anchor_enforcement_state, anchor_status.
  rewrite Hb. destruct (trustees p) as [keys|], (latest s) as [l|]; cbn [mbind outcome_bind].
  - destruct (Z.ltb_spec bound (saturating_sub daa (stored_daa_score l))) as [|Hle].
    + do 4 eexists. split_and!; [done..|naive_solver|naive_solver|naive_solver|naive_solver].
    + do 4 eexists. split_and!; [done..|naive_solver|naive_solver|naive_solver|].
      intros b [= <-]. by exists l.
  - do 4 eexists. split_and!; [done..|naive_solver|naive_solver|naive_solver|naive_solver].
  - do 4 eexists. split_and!; [done..|naive_solver|naive_solver| |naive_solver].
    split; [done|]. intros [[? ?] _]. done.
  - do 4 eexists. split_and!; [done..|naive_solver|naive_solver|naive_solver|naive_solver].
Qed.
End machine.

(** ** Concrete runs *)
#[local] Existing Instance demo_anchor_hashers.
#[local] Existing Instance demo_oracle.

(** The payload [[b]] is an anchor of block [b], [[0; i]] convicts trustee [i]. *)
Definition demo_evidence (i : Z) : EquivocationEvidence :=
  mk_evidence i (mk_attestation [7] 1000 ((10 + i) :: anchor_signing_hash [7] 1000))
    (mk_attestation [8] 1100 ((10 + i) :: anchor_signing_hash [8] 1100)).
#[local] Instance demo_decoder : AnchorDecoder :=
  {| decode_anchor_payload := λ pl,
       match pl with
       | [b] => Some (Anchor (demo_anchor b (100 * b) 7))
       | [_; i] => if 0 <=? i then Some (Equivocation (demo_evidence i)) else None
       | _ => None
       end |}.
Definition demo_params : FinalityAnchorParams := mk_fparams (Some demo_keys) 600 300.
Definition anchor_tx (pl : list Z) : Transaction :=
  mk_tx 1 [] [] 0 SUBNETWORK_ID_FINALITY_ANCHOR 0 pl 0 [].
(** Block [b] has score [100 * b] unless it is [unknown]; every chain block accepts [pls]. *)
Definition demo_chain (unknown : Z) (pls : list (list Z)) : ChainView :=
  mk_chain_view
    (λ h, match h with [b] => if b =? unknown then None else Some (100 * b) | _ => None end)
    (λ _ _, true) (λ _, Some [mk_acceptance [1] (imap (λ i _, mk_accepted [] (Z.of_nat i)) pls)])
    (λ _, Some (anchor_tx <$> pls)) [[9]].
Definition empty_node : AnchorNode := mk_node (mk_store None [] None None) Idle.

(** The ratchet can move backward: when a gossiped anchor is applied between the
    collection of updates and their commit, the commit overwrites it with the older
    anchor it collected, and the node enforces score 200 after having enforced 500. *)
Theorem ratchet_can_roll_back :
  ∃ n1 n2 n3,
    rtc (anchor_step demo_params) empty_node n1 ∧ anchor_step demo_params n1 n2 ∧
    anchor_step demo_params n2 n3 ∧
    finality_anchor_guard demo_params (node_store n2) 900 = Ok (Some [5]) ∧
    finality_anchor_guard demo_params (node_store n3) 900 = Ok (Some [2]) ∧
    best_of (node_store n2) = Some 500 ∧ best_of (node_store n3) = Some 200.
Proof.
  eexists _, _, _. split.
  { eapply rtc_l; [apply step_read|]. eapply rtc_l; [|apply rtc_refl].
    eapply (step_collect demo_params (demo_chain 0 [[2]]) [[9]]). reflexivity. }
  split. { eapply (step_gossip demo_params (demo_chain 0 [[2]]) [9] (demo_anchor 5 500 7)). reflexivity. }
  split. { apply step_commit. }
  split_and!; reflexivity.
Qed.

(** Promotion of the pending anchor ignores the deny-list: in a reachable state a
    gossiped anchor held pending is adopted and enforced although two of its three
    signers have been disqualified on the chain since, while the gossip path ignores the
    very same anchor in the state before. *)
Theorem pending_promotion_ignores_deny_list :
  ∃ s u,
    rtc (anchor_step demo_params) empty_node (mk_node s Idle) ∧
    let env := demo_chain 0 [] in
    let a := demo_anchor 5 500 7 in
    countable_signers (denied env (deny_list s) [9] no_updates) (signer_bitmap a) = 1%nat ∧
    apply_external_finality_anchor env demo_params s [9] a = Ok (s, Ignored) ∧
    collect_finality_anchor_updates env demo_params s s [[9]] = Ok (Some u) ∧
    finality_anchor_guard demo_params (commit_anchor_updates s (Some u)) 900 = Ok (Some [5]).
Proof.
  eexists _, _. split.
  { eapply rtc_l.
    { eapply (step_gossip demo_params (demo_chain 5 []) [9] (demo_anchor 5 500 7)). reflexivity. }
    eapply rtc_l.
    { apply step_read. }
    eapply rtc_l.
    { eapply (step_collect demo_params (demo_chain 5 [[0; 0]; [0; 1]]) [[9]]). reflexivity. }
    eapply rtc_l; [apply step_commit|]. apply rtc_refl. }
  split_and!; [reflexivity|reflexivity| |].
  - vm_compute. reflexivity.
  - reflexivity.
Qed.

Lemma serial_ratchet_monotone_witness :
  ∃ s', score_le (Some 200) (best_of s') ∧ best_of s' = Some 500.
Proof.
  set (s := mk_store (Some (mk_stored [2] 200)) [] (Some (demo_anchor 2 200 7)) None).
  exists (set_latest s (demo_anchor 5 500 7)). split; [|reflexivity].
  apply (serial_ratchet_monotone demo_params s (set_latest s (demo_anchor 5 500 7))).
  eapply rtc_l; [|apply rtc_refl].
  apply (serial_gossip demo_params (demo_chain 0 []) [9] (demo_anchor 5 500 7) _ _ Ratcheted).
  reflexivity.
Defined.

Lemma anchors_always_certified_witness :
  verify_anchor (demo_anchor 5 500 7) demo_keys = Ok tt.
Proof.
  refine (proj2 (anchors_always_certified demo_params demo_keys
    (mk_node (set_latest (node_store empty_node) (demo_anchor 5 500 7)) Idle) eq_refl _)
    (demo_anchor 5 500 7) (or_introl eq_refl)).
  eapply rtc_l; [|apply rtc_refl].
  apply (step_gossip demo_params (demo_chain 0 []) [9] (demo_anchor 5 500 7) _ _ Ratcheted).
  reflexivity.
Defined.

(** The block accepts an anchor and then a proof against one of its signers. *)
Definition proof_chain : ChainView := demo_chain 0 [[2]; [0; 1]].
Definition denying_store : AnchorStore :=
  mk_store (Some (mk_stored [1] 100)) [mk_deny 4 [3]] (Some (demo_anchor 1 100 7)) None.

Lemma guard_state_status_agree_witness :
  ∃ g st en stale,
    finality_anchor_guard demo_params (set_latest (node_store empty_node) (demo_anchor 5 500 7)) 900
      = Ok g ∧
    compute_anchor_enforcement_state demo_params
      (set_latest (node_store empty_node) (demo_anchor 5 500 7)) 900 = Ok st ∧
    anchor_status demo_params (set_latest (node_store empty_node) (demo_anchor 5 500 7)) 900
      = Ok (en, stale) ∧ (is_Some g ↔ st = Enforcing).
Proof.
  destruct (guard_state_status_agree demo_params
    (set_latest (node_store empty_node) (demo_anchor 5 500 7)) 900 1500 eq_refl)
    as (g & st & en & stale & Hg & Hs & He & Hi & _).
  by exists g, st, en, stale.
Defined.
