(* ===== verification/Covenants.v ===== *)
(** * Covenant bindings

    [crypto/txscript/src/covenants.rs]: the covenant context of a transaction, which
    checks every covenant binding an output declares and indexes the inputs and outputs of
    each covenant for the script engine. *)

From S2P Require Import Prelude Transaction TxHashing TxBinding.

Inductive CovenantsError :=
  | AuthInputOutOfBounds (output : nat) (authorizing : Z)
  | WrongGenesisCovenantId (input : nat) (id : Hash)
  | InvalidAuthCovOutIndex (k input n : nat)
  | InvalidCovInIndex (id : Hash) (k : nat)
  | InvalidCovOutIndex (id : Hash) (k : nat).

Record CovenantSharedContext := mk_shared { input_indices : list nat; output_indices : list nat }.
Record CovenantsContext := mk_cov_ctx {
  input_ctxs : gmap nat (list nat);
  shared_ctxs : gmap Hash CovenantSharedContext }.
Definition empty_cov_ctx : CovenantsContext := mk_cov_ctx ∅ ∅.

(** [entry(k).or_default().push(i)]. *)
Definition push_at {K} `{Countable K} (m : gmap K (list nat)) (k : K) (i : nat) : gmap K (list nat) :=
  <[k := default [] (m !! k) ++ [i]]> m.

(** The first loop: inputs that carry a covenant id. *)
Definition cov_input_step (i : nat) (ctx : CovenantsContext) (e : UtxoEntry)
    : outcome CovenantsError CovenantsContext :=
  Ok (match entry_covenant_id e with
      | None => ctx
      | Some id =>
          let sc := default (mk_shared [] []) (shared_ctxs ctx !! id) in
          mk_cov_ctx (input_ctxs ctx)
            (<[id := mk_shared (input_indices sc ++ [i]) (output_indices sc)]> (shared_ctxs ctx))
      end).

Section from_tx.
Context `{TxHashers}.

(** The second loop: continuations go to the contexts, geneses to their groups. *)
Definition cov_output_step (es : list UtxoEntry) (i : nat)
    (st : CovenantsContext * gmap (nat * Hash) (list nat)) (o : TransactionOutput)
    : outcome CovenantsError (CovenantsContext * gmap (nat * Hash) (list nat)) :=
  match covenant o with
  | None => Ok st
  | Some b =>
      let auth := Z.to_nat (authorizing_input b) in
      match es !! auth with
      | None => Err (AuthInputOutOfBounds i (authorizing_input b))
      | Some e =>
          if bool_decide (entry_covenant_id e = Some (covenant_id b)) then
            sc ← unwrap (shared_ctxs st.1 !! covenant_id b);
            Ok (mk_cov_ctx (push_at (input_ctxs st.1) auth i)
                  (<[covenant_id b := mk_shared (input_indices sc) (output_indices sc ++ [i])]>
                     (shared_ctxs st.1)), st.2)
          else Ok (st.1, push_at st.2 (auth, covenant_id b) i)
      end
  end.

(** The outputs of a genesis group, with their indices ([as u32]). *)
Definition group_outputs {E} (tx : Transaction) (idxs : list nat)
    : outcome E (list (Z * TransactionOutput)) :=
  try_map (λ i, o ← unwrap (outputs tx !! i); Ok (Z.of_nat i mod 2 ^ 32, o)) idxs.

Definition check_genesis (tx : Transaction) (_ : unit) (g : (nat * Hash) * list nat)
    : outcome CovenantsError unit :=
  input ← unwrap (inputs tx !! g.1.1);
  auth_outputs ← group_outputs tx g.2;
  reject_if (negb (bool_decide (covenant_id_of (previous_outpoint input) auth_outputs = g.1.2)))
    (WrongGenesisCovenantId g.1.1 g.1.2).

Definition from_tx (ptx : PopulatedTransaction) : outcome CovenantsError CovenantsContext :=
  ctx ← try_foldi cov_input_step 0 empty_cov_ctx (populated_inputs ptx).*2;
  st ← try_foldi (cov_output_step (entries ptx)) 0 (ctx, ∅) (outputs (pop_tx ptx));
  try_fold (check_genesis (pop_tx ptx)) tt (map_to_list st.2);;
  Ok st.1.
End from_tx.

(** ** Introspection *)
Definition auth_output_index (c : CovenantsContext) (input_idx k : nat) : outcome CovenantsError nat :=
  let auth_outputs := default [] (input_ctxs c !! input_idx) in
  ok_or (auth_outputs !! k) (InvalidAuthCovOutIndex k input_idx (length auth_outputs)).
Definition num_auth_outputs (c : CovenantsContext) (input_idx : nat) : nat :=
  match input_ctxs c !! input_idx with Some l => length l | None => 0%nat end.
Definition num_covenant_inputs (c : CovenantsContext) (id : Hash) : nat :=
  match shared_ctxs c !! id with Some s => length (input_indices s) | None => 0%nat end.
Definition covenant_input_index (c : CovenantsContext) (id : Hash) (k : nat)
    : outcome CovenantsError nat :=
  ok_or (default [] (input_indices <$> shared_ctxs c !! id) !! k) (InvalidCovInIndex id k).
Definition num_covenant_outputs (c : CovenantsContext) (id : Hash) : nat :=
  match shared_ctxs c !! id with Some s => length (output_indices s) | None => 0%nat end.
Definition covenant_output_index (c : CovenantsContext) (id : Hash) (k : nat)
    : outcome CovenantsError nat :=
  ok_or (default [] (output_indices <$> shared_ctxs c !! id) !! k) (InvalidCovOutIndex id k).

(** ** Indices of the elements of a list that satisfy a predicate *)
Fixpoint indices_from {A} (P : A → bool) (n : nat) (l : list A) : list nat :=
  match l with
  | [] => []
  | x :: l => (if P x then [n] else []) ++ indices_from P (S n) l
  end.
Definition indices {A} (P : A → bool) (l : list A) : list nat := indices_from P 0 l.

Lemma indices_snoc {A} (P : A → bool) l x :
  indices P (l ++ [x]) = indices P l ++ (if P x then [length l] else []).
Proof.
  unfold indices. assert (Hg : ∀ n, indices_from P n (l ++ [x]) =
    indices_from P n l ++ (if P x then [n + length l] else [])%nat).
  { induction l as [|y l IH]; intros n; cbn [indices_from app length].
    - by rewrite app_nil_r, Nat.add_0_r.
    - rewrite IH, app_assoc. by replace (S n + length l)%nat with (n + S (length l))%nat by lia. }
  apply Hg.
Qed.

Lemma elem_of_indices {A} (P : A → bool) l i :
  i ∈ indices P l ↔ ∃ x, l !! i = Some x ∧ P x = true.
Proof.
  induction l as [|x l IH] using rev_ind; [rewrite elem_of_nil; naive_solver|].
  rewrite indices_snoc, elem_of_app, IH. split.
  - intros [(y & Hy & HP)|Hi]; [exists y; by rewrite lookup_app_l_Some with (x := y)|].
    destruct (P x) eqn:E; [|by apply elem_of_nil in Hi].
    apply list_elem_of_singleton in Hi as ->. exists x. by rewrite list_lookup_middle.
  - intros (y & Hy & HP). apply lookup_app_Some in Hy as [Hy|[Hlen Hy]]; [left; by exists y|].
    right. apply list_lookup_singleton_Some in Hy as [Hi ->]. rewrite HP.
    apply list_elem_of_singleton. lia.
Qed.

(** ** What the covenant checks decide *)

(** A non-empty list, as a map entry. *)
Definition opt_list (l : list nat) : option (list nat) := match l with [] => None | _ => Some l end.

Lemma opt_list_snoc l i : opt_list (l ++ [i]) = Some (l ++ [i]).
Proof. by destruct l. Qed.
Lemma default_opt_list l : default [] (opt_list l) = l.
Proof. by destruct l. Qed.

Lemma push_at_lookup {K} `{Countable K} (m : gmap K (list nat)) k i k' :
  push_at m k i !! k' = if decide (k = k') then Some (default [] (m !! k) ++ [i]) else m !! k'.
Proof. unfold push_at. destruct (decide (k = k')) as [->|]; by simplify_map_eq. Qed.

Definition carries (es : list UtxoEntry) (auth : nat) (id : Hash) : bool :=
  match es !! auth with Some e => bool_decide (entry_covenant_id e = Some id) | None => false end.
(** The output declares the binding of [id] to input [auth]. *)
Definition binds (auth : nat) (id : Hash) (o : TransactionOutput) : bool :=
  match covenant o with
  | Some b => bool_decide (Z.to_nat (authorizing_input b) = auth ∧ covenant_id b = id)
  | None => false
  end.
(** The output continues the covenant of input [auth]; it continues covenant [id]. *)
Definition continues (es : list UtxoEntry) (auth : nat) (o : TransactionOutput) : bool :=
  match covenant o with
  | Some b => bool_decide (Z.to_nat (authorizing_input b) = auth) && carries es auth (covenant_id b)
  | None => false
  end.
Definition continues_id (es : list UtxoEntry) (id : Hash) (o : TransactionOutput) : bool :=
  match covenant o with
  | Some b => bool_decide (covenant_id b = id) && carries es (Z.to_nat (authorizing_input b)) id
  | None => false
  end.
(** The authorizing input of the output's binding exists. *)
Definition authorized (es : list UtxoEntry) (o : TransactionOutput) : Prop :=
  ∀ b, covenant o = Some b → is_Some (es !! Z.to_nat (authorizing_input b)).

(** State of the second loop after the outputs [pre]. *)
Definition outputs_inv (es : list UtxoEntry) (shared0 : gmap Hash CovenantSharedContext)
    (pre : list TransactionOutput) (st : CovenantsContext * gmap (nat * Hash) (list nat)) : Prop :=
  (∀ auth id, st.2 !! (auth, id) =
     if carries es auth id then None else opt_list (indices (binds auth id) pre)) ∧
  (∀ auth, input_ctxs st.1 !! auth = opt_list (indices (continues es auth) pre)) ∧
  (∀ id, shared_ctxs st.1 !! id =
     (λ sc, mk_shared (input_indices sc) (output_indices sc ++ indices (continues_id es id) pre))
       <$> shared0 !! id).

(** Every covenant id carried by an input has a shared context. *)
Definition shared_complete (es : list UtxoEntry) (shared0 : gmap Hash CovenantSharedContext) : Prop :=
  ∀ auth id, carries es auth id = true → is_Some (shared0 !! id).

Lemma binds_eq auth id o : binds auth id o =
  match covenant o with
  | Some b => bool_decide (Z.to_nat (authorizing_input b) = auth ∧ covenant_id b = id)
  | None => false
  end.
Proof. done. Qed.
Lemma continues_eq es auth o : continues es auth o =
  match covenant o with
  | Some b => bool_decide (Z.to_nat (authorizing_input b) = auth) && carries es auth (covenant_id b)
  | None => false
  end.
Proof. done. Qed.
Lemma continues_id_eq es id o : continues_id es id o =
  match covenant o with
  | Some b => bool_decide (covenant_id b = id) && carries es (Z.to_nat (authorizing_input b)) id
  | None => false
  end.
Proof. done. Qed.

(** One more output that touches none, the genesis groups, or the contexts. *)
Lemma outputs_inv_none es shared0 pre o st :
  covenant o = None → outputs_inv es shared0 pre st → outputs_inv es shared0 (pre ++ [o]) st.
Proof.
  intros Ho (Hg & Hi & Hs). split_and!.
  - intros auth id. rewrite indices_snoc, Hg. by rewrite (binds_eq auth id o), Ho, app_nil_r.
  - intros auth. rewrite indices_snoc, Hi. by rewrite (continues_eq es auth o), Ho, app_nil_r.
  - intros id. rewrite indices_snoc, Hs. by rewrite (continues_id_eq es id o), Ho, app_nil_r.
Qed.

Lemma outputs_inv_genesis es shared0 pre o b ctx gen :
  covenant o = Some b → carries es (Z.to_nat (authorizing_input b)) (covenant_id b) = false →
  outputs_inv es shared0 pre (ctx, gen) →
  outputs_inv es shared0 (pre ++ [o])
    (ctx, push_at gen (Z.to_nat (authorizing_input b), covenant_id b) (length pre)).
Proof.
  intros Ho Hc (Hg & Hi & Hs). cbn [fst snd] in *. split_and!; cbn [fst snd].
  - intros auth id. rewrite push_at_lookup, indices_snoc, !Hg. rewrite (binds_eq auth id o), Ho.
    case_decide as Heq; [injection Heq as <- <-; rewrite Hc, bool_decide_eq_true_2 by done;
      by rewrite default_opt_list, opt_list_snoc|].
    rewrite bool_decide_eq_false_2 by (intros [<- <-]; done). by rewrite app_nil_r.
  - intros auth. rewrite indices_snoc, Hi. rewrite (continues_eq es auth o), Ho.
    case_bool_decide as Heq; [|by rewrite app_nil_r]. subst. by rewrite Hc, app_nil_r.
  - intros id. rewrite indices_snoc, Hs. rewrite (continues_id_eq es id o), Ho.
    case_bool_decide as Heq; [|by rewrite app_nil_r]. subst. by rewrite Hc, app_nil_r.
Qed.

Lemma outputs_inv_continue es shared0 pre o b ctx gen sc :
  covenant o = Some b → carries es (Z.to_nat (authorizing_input b)) (covenant_id b) = true →
  shared_ctxs ctx !! covenant_id b = Some sc →
  outputs_inv es shared0 pre (ctx, gen) →
  outputs_inv es shared0 (pre ++ [o])
    (mk_cov_ctx (push_at (input_ctxs ctx) (Z.to_nat (authorizing_input b)) (length pre))
       (<[covenant_id b := mk_shared (input_indices sc) (output_indices sc ++ [length pre])]>
          (shared_ctxs ctx)), gen).
Proof.
  intros Ho Hc Hsc (Hg & Hi & Hs). cbn [fst snd] in *. split_and!; cbn [fst snd input_ctxs shared_ctxs].
  - intros auth id. rewrite indices_snoc, Hg. rewrite (binds_eq auth id o), Ho.
    case_bool_decide as Heq; [|by rewrite app_nil_r]. destruct Heq as [<- <-]. by rewrite Hc.
  - intros auth. rewrite push_at_lookup, indices_snoc, !Hi. rewrite (continues_eq es auth o), Ho.
    case_decide as Heq; [subst; rewrite bool_decide_eq_true_2, Hc by done; cbn [andb];
      by rewrite default_opt_list, opt_list_snoc|].
    rewrite bool_decide_eq_false_2 by done. by rewrite app_nil_r.
  - intros id. rewrite indices_snoc. rewrite (continues_id_eq es id o), Ho.
    destruct (decide (covenant_id b = id)) as [<-|Hne].
    + rewrite lookup_insert_eq, bool_decide_eq_true_2, Hc by done. cbn [andb].
      rewrite Hs in Hsc. destruct (shared0 !! covenant_id b) as [sc0|]; [|done].
      cbn in Hsc. injection Hsc as <-. cbn [fmap option_fmap option_map input_indices output_indices].
      by rewrite <- app_assoc.
    + rewrite lookup_insert_ne, bool_decide_eq_false_2 by done. cbn [andb]. rewrite app_nil_r. apply Hs.
Qed.

Lemma cov_output_step_decides es shared0 pre o st :
  shared_complete es shared0 → outputs_inv es shared0 pre st →
  (authorized es o ∧ ∃ st', cov_output_step es (length pre) st o = Ok st' ∧
     outputs_inv es shared0 (pre ++ [o]) st') ∨
  (¬ authorized es o ∧ ∃ e, cov_output_step es (length pre) st o = Err e).
Proof.
  intros Hsc Hinv. unfold cov_output_step. destruct (covenant o) as [b|] eqn:Ho.
  2: { left. split; [intros b; congruence|]. exists st. split; [done|by apply outputs_inv_none]. }
  destruct (es !! Z.to_nat (authorizing_input b)) as [e|] eqn:He.
  2: { right. split; [|by eexists]. intros Ha. destruct (Ha b Ho) as [? ?]. congruence. }
  left. split; [intros b' Hb'; rewrite Ho in Hb'; by injection Hb' as <-|].
  assert (Hc : carries es (Z.to_nat (authorizing_input b)) (covenant_id b) =
    bool_decide (entry_covenant_id e = Some (covenant_id b))) by (unfold carries; by rewrite He).
  destruct st as [ctx gen]. cbn [fst snd]. case_bool_decide.
  - destruct (Hsc _ _ Hc) as [sc0 Hsc0]. destruct Hinv as (Hg & Hi & Hs).
    pose proof (Hs (covenant_id b)) as Hb. rewrite Hsc0 in Hb. cbn [fst fmap option_fmap option_map] in Hb.
    rewrite Hb. eexists. split; [done|]. by apply outputs_inv_continue.
  - eexists. split; [done|]. by apply outputs_inv_genesis.
Qed.

(** ** The first loop *)
Definition carries_id (id : Hash) (e : UtxoEntry) : bool := bool_decide (entry_covenant_id e = Some id).
Definition inputs_inv (pre : list UtxoEntry) (ctx : CovenantsContext) : Prop :=
  input_ctxs ctx = ∅ ∧
  ∀ id, shared_ctxs ctx !! id = (λ l, mk_shared l []) <$> opt_list (indices (carries_id id) pre).

Lemma input_loop es :
  ∃ ctx, try_foldi cov_input_step 0 empty_cov_ctx es = Ok ctx ∧ inputs_inv es ctx.
Proof.
  destruct (try_foldi_decides inputs_inv (λ _, True) cov_input_step empty_cov_ctx es)
    as [(_ & ctx & ? & ?)|[Hf _]].
  - done.
  - intros pre e post ctx _ [Hi Hs]. left. split; [done|]. eexists. split; [done|].
    destruct (entry_covenant_id e) as [id|] eqn:He; split; try done.
    + intros id'. rewrite indices_snoc. cbn [shared_ctxs].
      assert (Hc : carries_id id' e = bool_decide (id = id')).
      { unfold carries_id. rewrite He. apply bool_decide_ext. naive_solver. }
      rewrite Hc. destruct (decide (id = id')) as [<-|].
      * rewrite lookup_insert_eq, bool_decide_eq_true_2, opt_list_snoc, Hs by done.
        destruct (indices (carries_id id) pre); done.
      * rewrite lookup_insert_ne, bool_decide_eq_false_2, app_nil_r by done. apply Hs.
    + intros id'. rewrite indices_snoc. unfold carries_id at 2. rewrite He, app_nil_r. apply Hs.
  - by exists ctx.
  - destruct Hf. by apply Forall_true.
Qed.

Lemma inputs_shared_complete es ctx : inputs_inv es ctx → shared_complete es (shared_ctxs ctx).
Proof.
  intros [_ Hs] auth id Hc. rewrite Hs. unfold carries in Hc. destruct (es !! auth) as [e|] eqn:He; [|done].
  assert (Hin : auth ∈ indices (carries_id id) es) by (apply elem_of_indices; by exists e).
  destruct (indices (carries_id id) es); [by apply elem_of_nil in Hin|by eexists].
Qed.

(** ** The genesis check and the whole *)
Section valid.
Context `{TxHashers}.
Implicit Types (ptx : PopulatedTransaction) (tx : Transaction).

Definition group_list tx (idxs : list nat) : list (Z * TransactionOutput) :=
  omap (λ i, (λ o, (Z.of_nat i mod 2 ^ 32, o)) <$> outputs tx !! i) idxs.

Lemma group_outputs_Ok {E} tx idxs :
  Forall (λ i, is_Some (outputs tx !! i)) idxs →
  group_outputs (E := E) tx idxs = Ok (group_list tx idxs).
Proof.
  unfold group_outputs, group_list. induction 1 as [|i l [o Ho] Hl IH]; [done|].
  cbn [try_map omap list_omap]. rewrite Ho. cbn [unwrap mbind outcome_bind fmap option_fmap option_map].
  by rewrite IH.
Qed.

(** Every covenant binding is to an existing input, and either continues the covenant
    that input carries or is part of the group its id commits to. *)
Definition covenants_valid ptx : Prop :=
  ∀ o b, o ∈ outputs (pop_tx ptx) → covenant o = Some b →
    let auth := Z.to_nat (authorizing_input b) in
    ∃ e inp, entries ptx !! auth = Some e ∧ inputs (pop_tx ptx) !! auth = Some inp ∧
      (entry_covenant_id e = Some (covenant_id b) ∨
       covenant_id_of (previous_outpoint inp)
         (group_list (pop_tx ptx) (indices (binds auth (covenant_id b)) (outputs (pop_tx ptx))))
         = covenant_id b).

Definition genuine_group tx (g : (nat * Hash) * list nat) : Prop :=
  ∃ inp, inputs tx !! g.1.1 = Some inp ∧
    covenant_id_of (previous_outpoint inp) (group_list tx g.2) = g.1.2.

Lemma check_genesis_decides tx auth id l inp :
  inputs tx !! auth = Some inp → l = indices (binds auth id) (outputs tx) →
  (genuine_group tx ((auth, id), l) ∧ check_genesis tx tt ((auth, id), l) = Ok tt) ∨
  (¬ genuine_group tx ((auth, id), l) ∧ ∃ e, check_genesis tx tt ((auth, id), l) = Err e).
Proof.
  intros Hinp Hl. unfold check_genesis. cbn [fst snd]. rewrite Hinp. cbn [unwrap mbind outcome_bind].
  rewrite group_outputs_Ok.
  2: { apply Forall_forall. intros i Hi. subst l. apply elem_of_indices in Hi as (o & -> & _). by eexists. }
  cbn [mbind outcome_bind]. case_bool_decide; cbn [negb reject_if].
  - left. split; [by exists inp|done].
  - right. split; [|by eexists]. intros (inp' & Hinp' & ?). cbn [fst snd] in *. congruence.
Qed.

Lemma group_witness outs auth id :
  indices (binds auth id) outs ≠ [] →
  ∃ o b, o ∈ outs ∧ covenant o = Some b ∧ Z.to_nat (authorizing_input b) = auth ∧ covenant_id b = id.
Proof.
  destruct (indices (binds auth id) outs) as [|i l] eqn:E; [done|]. intros _.
  assert (Hi : i ∈ indices (binds auth id) outs) by (rewrite E; by left).
  apply elem_of_indices in Hi as (o & Ho & Hb). unfold binds in Hb.
  destruct (covenant o) as [b|] eqn:Hcov; [|done]. apply bool_decide_eq_true in Hb as [? ?].
  exists o, b. split_and!; [by eapply list_elem_of_lookup_2|done..].
Qed.

Lemma binds_nonempty outs o b :
  o ∈ outs → covenant o = Some b →
  indices (binds (Z.to_nat (authorizing_input b)) (covenant_id b)) outs ≠ [].
Proof.
  intros [i Hi]%list_elem_of_lookup_1 Hb Hnil.
  assert (Hin : i ∈ indices (binds (Z.to_nat (authorizing_input b)) (covenant_id b)) outs).
  { apply elem_of_indices. exists o. split; [done|]. rewrite binds_eq, Hb.
    by apply bool_decide_eq_true. }
  rewrite Hnil in Hin. by apply elem_of_nil in Hin.
Qed.

Lemma genesis_loop ptx shared0 ctx gen :
  length (entries ptx) = length (inputs (pop_tx ptx)) →
  Forall (authorized (entries ptx)) (outputs (pop_tx ptx)) →
  outputs_inv (entries ptx) shared0 (outputs (pop_tx ptx)) (ctx, gen) →
  (covenants_valid ptx ∧ try_fold (check_genesis (pop_tx ptx)) tt (map_to_list gen) = Ok tt) ∨
  (¬ covenants_valid ptx ∧ ∃ e, try_fold (check_genesis (pop_tx ptx)) tt (map_to_list gen) = Err e).
Proof.
  intros Hlen Hauth (Hg & _ & _). cbn [fst snd] in Hg. rewrite Forall_forall in Hauth.
  assert (Hbind : ∀ o b, o ∈ outputs (pop_tx ptx) → covenant o = Some b → ∃ e inp,
    entries ptx !! Z.to_nat (authorizing_input b) = Some e ∧
    inputs (pop_tx ptx) !! Z.to_nat (authorizing_input b) = Some inp).
  { intros o b Ho Hb. destruct (Hauth o Ho b Hb) as [e He].
    destruct (lookup_lt_is_Some_2 (inputs (pop_tx ptx)) (Z.to_nat (authorizing_input b))) as [inp Hinp].
    { rewrite <- Hlen. by eapply lookup_lt_Some. }
    by exists e, inp. }
  assert (Hel : ∀ auth id l, ((auth, id), l) ∈ map_to_list gen →
    carries (entries ptx) auth id = false ∧ l = indices (binds auth id) (outputs (pop_tx ptx)) ∧ l ≠ []).
  { intros auth id l Hl%elem_of_map_to_list. rewrite Hg in Hl. destruct (carries _ _ _); [done|].
    unfold opt_list in Hl. destruct (indices _ _) eqn:E; simplify_eq. done. }
  destruct (try_fold_decides (genuine_group (pop_tx ptx)) (check_genesis (pop_tx ptx)) (map_to_list gen))
    as [[Hall Hok]|[Hnot Herr]].
  - intros [[auth id] l] Hl. destruct (Hel _ _ _ Hl) as (_ & -> & Hne).
    destruct (group_witness _ _ _ Hne) as (o & b & Ho & Hb & <- & <-).
    destruct (Hbind o b Ho Hb) as (e & inp & _ & Hinp). by eapply check_genesis_decides.
  - left. split; [|done]. intros o b Ho Hb. destruct (Hbind o b Ho Hb) as (e & inp & He & Hinp).
    cbv zeta. exists e, inp. split; [done|]. split; [done|].
    destruct (decide (entry_covenant_id e = Some (covenant_id b))) as [|Hne]; [by left|right].
    pose proof (binds_nonempty _ _ _ Ho Hb) as Hne'. rewrite Forall_forall in Hall.
    destruct (Hall ((Z.to_nat (authorizing_input b), covenant_id b),
      indices (binds (Z.to_nat (authorizing_input b)) (covenant_id b)) (outputs (pop_tx ptx))))
      as (inp' & Hinp' & Hid); [|cbn [fst snd] in *; congruence].
    apply elem_of_map_to_list. rewrite Hg. unfold carries. rewrite He.
    rewrite bool_decide_eq_false_2 by done. by destruct (indices _ _).
  - right. split; [|done]. intros Hv. apply Hnot, Forall_forall. intros [[auth id] l] Hl.
    destruct (Hel _ _ _ Hl) as (Hc & -> & Hne).
    destruct (group_witness _ _ _ Hne) as (o & b & Ho & Hb & <- & <-).
    destruct (Hv o b Ho Hb) as (e & inp & He & Hinp & [Hid|Hid]); [|by exists inp].
    unfold carries in Hc. rewrite He in Hc. by rewrite bool_decide_eq_true_2 in Hc.
Qed.

Lemma from_tx_decides ptx :
  length (entries ptx) = length (inputs (pop_tx ptx)) →
  (covenants_valid ptx ∧ ∃ ctx gen, from_tx ptx = Ok ctx ∧ ∃ ctx0, inputs_inv (entries ptx) ctx0 ∧
     outputs_inv (entries ptx) (shared_ctxs ctx0) (outputs (pop_tx ptx)) (ctx, gen)) ∨
  (¬ covenants_valid ptx ∧ ∃ e, from_tx ptx = Err e).
Proof.
  intros Hlen. unfold from_tx, populated_inputs. rewrite snd_zip by lia.
  destruct (input_loop (entries ptx)) as (ctx0 & -> & Hi). cbn [mbind outcome_bind].
  pose proof (inputs_shared_complete _ _ Hi) as Hsc.
  destruct (try_foldi_decides (outputs_inv (entries ptx) (shared_ctxs ctx0)) (authorized (entries ptx))
    (cov_output_step (entries ptx)) (ctx0, ∅) (outputs (pop_tx ptx)))
    as [(Hauth & [ctx gen] & -> & Ho)|(Hauth & e & ->)].
  - destruct Hi as [Hi Hs]. split_and!.
    + intros auth id. cbn [snd]. rewrite lookup_empty. by destruct (carries _ _ _).
    + intros auth. cbn [fst]. by rewrite Hi, lookup_empty.
    + intros id. cbn [fst]. rewrite Hs. by destruct (opt_list _).
  - intros. by apply cov_output_step_decides.
  - cbn [mbind outcome_bind fst snd].
    destruct (genesis_loop ptx _ ctx gen Hlen Hauth Ho) as [(Hv & ->)|(Hv & e & ->)];
      cbn [mbind outcome_bind].
    + left. split; [done|]. exists ctx, gen. split; [done|]. by exists ctx0.
    + right. split; [done|by exists e].
  - right. split; [|by exists e]. intros Hv. apply Hauth, Forall_forall. intros o Ho b Hb.
    destruct (Hv o b Ho Hb) as (en & _ & ? & _). by exists en.
Qed.

(** (C32) Covenant ids cannot be forged: for a transaction populated with one entry per
    input, building the covenant context never panics, and succeeds exactly when every
    covenant binding of an output names an existing input and either continues the
    covenant that input carries or is part of the very group of outputs that the id, a
    hash of the input's outpoint and the group, commits to. *)
Theorem covenant_ids_genuine ptx :
  length (entries ptx) = length (inputs (pop_tx ptx)) →
  from_tx ptx ≠ Panic ∧ ((∃ ctx, from_tx ptx = Ok ctx) ↔ covenants_valid ptx).
Proof.
  intros Hlen. destruct (from_tx_decides ptx Hlen) as [(Hv & ctx & gen & -> & _)|(Hv & e & ->)].
  - split; [done|]. split; [done|]. by exists ctx.
  - split; [done|]. split; [by intros [? ?]|done].
Qed.

(** The covenant context indexes the transaction exactly: an input's authorized
    outputs are, in order, the outputs that continue its covenant under its authority,
    and the shared context of an id lists the inputs that carry it and the outputs that
    continue it; ids no input carries have no context. *)
Theorem covenant_context_exact ptx ctx :
  length (entries ptx) = length (inputs (pop_tx ptx)) → from_tx ptx = Ok ctx →
  (∀ auth, num_auth_outputs ctx auth =
     length (indices (continues (entries ptx) auth) (outputs (pop_tx ptx))) ∧
     default [] (input_ctxs ctx !! auth) =
       indices (continues (entries ptx) auth) (outputs (pop_tx ptx))) ∧
  ∀ id, shared_ctxs ctx !! id =
    (λ l, mk_shared l (indices (continues_id (entries ptx) id) (outputs (pop_tx ptx))))
      <$> opt_list (indices (carries_id id) (entries ptx)).
Proof.
  intros Hlen Hok. destruct (from_tx_decides ptx Hlen) as [(_ & ctx' & gen & Hc & ctx0 & Hi & Ho)|(_ & e & He)];
    [|congruence].
  rewrite Hok in Hc. apply Ok_inj in Hc as <-. destruct Ho as (_ & Ha & Hs), Hi as [_ Hi].
  cbn [fst] in *. split.
  - intros auth. unfold num_auth_outputs. rewrite Ha, default_opt_list.
    by destruct (indices (continues (entries ptx) auth) (outputs (pop_tx ptx))).
  - intros id. rewrite Hs, Hi. by destruct (opt_list _).
Qed.
End valid.

(** ** A transaction with a continuation and a genesis *)
#[local] Existing Instance pad_hashers.
Definition demo_outpoint (n : Z) : TransactionOutpoint := mk_outpoint (replicate 32 7) n.
Definition demo_genesis_id : Hash :=
  covenant_id_of (demo_outpoint 1) [(1, mk_output 60 demo_spk None)].
Definition demo_cov_ptx : PopulatedTransaction :=
  mk_populated
    (mk_tx 1 [mk_input (demo_outpoint 0) [] 0 (ComputeBudget 0);
              mk_input (demo_outpoint 1) [] 0 (ComputeBudget 0)]
       [mk_output 40 demo_spk (Some {| authorizing_input := 0; covenant_id := [9] |});
        mk_output 60 demo_spk (Some {| authorizing_input := 1; covenant_id := demo_genesis_id |})]
       0 (from_byte 0) 0 [] 0 [])
    [mk_utxo 50 demo_spk 3 false (Some [9]); mk_utxo 50 demo_spk 4 false None].

Lemma covenant_ids_genuine_witness : covenants_valid demo_cov_ptx.
Proof.
  apply (covenant_ids_genuine demo_cov_ptx eq_refl).
  eexists. vm_compute. reflexivity.
Defined.

Lemma covenant_context_exact_witness :
  match from_tx demo_cov_ptx with
  | Ok ctx => num_auth_outputs ctx 0 = 1%nat ∧ num_auth_outputs ctx 1 = 0%nat
  | _ => False
  end.
Proof.
  destruct (from_tx demo_cov_ptx) as [ctx| |] eqn:Hc; [|vm_compute in Hc; discriminate..].
  destruct (covenant_context_exact demo_cov_ptx ctx eq_refl Hc) as [Ha _].
  split; [rewrite (proj1 (Ha 0%nat))|rewrite (proj1 (Ha 1%nat))]; reflexivity.
Defined.
