(* ===== verification/TxValidation.v ===== *)
(** * Transaction validation

    [consensus/src/processes/transaction_validator]: the checks in isolation
    ([tx_validation_in_isolation.rs]), in header context
    ([tx_validation_in_header_context.rs]) and in UTXO context
    ([tx_validation_in_utxo_context.rs]).  Parameters: the borsh decoders of the two
    payload kinds, BIP340, and the script engine ([ScriptEngine]: its verdict on one
    input, with [f64] feerate comparison). *)

From S2P Require Import Prelude Transaction NotePool PoolHashing PoolValidate Params TxHashing TxBinding Mass FinalityAnchor AnchorState Covenants.

(** ** Errors ([errors/tx.rs]) *)
Inductive TxRuleError (TxScriptError : Type) :=
  | NoTxInputs
  | MalformedNotePoolPayload
  | InvalidNotePoolOp (e : PoolOpValidationError)
  | InvalidNotePoolOpInContext (e : PoolOpContextError)
  | MalformedFinalityAnchorPayload
  | InvalidFinalityAnchor (e : FinalityAnchorError)
  | FinalityAnchorsUnavailable
  | TxDuplicateInputs
  | TxHasGas
  | UnknownTxVersion (v : Z)
  | TooManyInputs (n max : nat)
  | TooManyOutputs (n max : nat)
  | TooBigSignatureScript (i max : nat)
  | TooBigScriptPublicKey (i max : nat)
  | NotFinalized (i : nat)
  | CoinbaseHasInputs (n : nat)
  | CoinbaseTooManyOutputs (n : nat) (max : Z)
  | CoinbaseScriptPublicKeyTooLong (i : nat)
  | CoinbaseNonZeroMassCommitment
  | ImmatureCoinbaseSpend (i : nat) (o : TransactionOutpoint) (score pov maturity : Z)
  | InputAmountOverflow
  | InputAmountTooHigh
  | TxOutZero (i : nat)
  | TxOutTooHigh (i : nat)
  | OutputsValueOverflow
  | TotalTxOutTooHigh
  | SpendTooHigh (spent available : Z)
  | SequenceLockConditionsAreNotMet
  | MissingTxOutpoints
  | SignatureInvalid (e : TxScriptError)
  | SignatureEmpty (e : TxScriptError)
  | MassIncomputable
  | WrongMass (calculated committed : Z)
  | SubnetworksDisabled (id : SubnetworkId)
  | FeerateTooLow
  | CovenantBindingInV0 (i : nat)
  | SigopCountInV1 (i : nat) (n : Z)
  | ComputeBudgetInV0 (i : nat) (n : Z)
  | CovenantsErr (e : CovenantsError).
Arguments NoTxInputs {_}.
Arguments MalformedNotePoolPayload {_}.
Arguments InvalidNotePoolOp {_} _.
Arguments InvalidNotePoolOpInContext {_} _.
Arguments MalformedFinalityAnchorPayload {_}.
Arguments InvalidFinalityAnchor {_} _.
Arguments FinalityAnchorsUnavailable {_}.
Arguments TxDuplicateInputs {_}.
Arguments TxHasGas {_}.
Arguments UnknownTxVersion {_} _.
Arguments TooManyInputs {_} _ _.
Arguments TooManyOutputs {_} _ _.
Arguments TooBigSignatureScript {_} _ _.
Arguments TooBigScriptPublicKey {_} _ _.
Arguments NotFinalized {_} _.
Arguments CoinbaseHasInputs {_} _.
Arguments CoinbaseTooManyOutputs {_} _ _.
Arguments CoinbaseScriptPublicKeyTooLong {_} _.
Arguments CoinbaseNonZeroMassCommitment {_}.
Arguments ImmatureCoinbaseSpend {_} _ _ _ _ _.
Arguments InputAmountOverflow {_}.
Arguments InputAmountTooHigh {_}.
Arguments TxOutZero {_} _.
Arguments TxOutTooHigh {_} _.
Arguments OutputsValueOverflow {_}.
Arguments TotalTxOutTooHigh {_}.
Arguments SpendTooHigh {_} _ _.
Arguments SequenceLockConditionsAreNotMet {_}.
Arguments MissingTxOutpoints {_}.
Arguments SignatureInvalid {_} _.
Arguments SignatureEmpty {_} _.
Arguments MassIncomputable {_}.
Arguments WrongMass {_} _ _.
Arguments SubnetworksDisabled {_} _.
Arguments FeerateTooLow {_}.
Arguments CovenantBindingInV0 {_} _.
Arguments SigopCountInV1 {_} _ _.
Arguments ComputeBudgetInV0 {_} _ _.
Arguments CovenantsErr {_} _.

(** The script engine: the verdict of executing one input under a script-unit limit, and
    the mempool's floating-point feerate test. *)
Class ScriptEngine := {
  TxScriptError : Type;
  SeqCommitAccessor : Type;
  Feerate : Type;
  vm_execute : PopulatedTransaction → nat → TransactionInput → UtxoEntry → CovenantsContext →
    option SeqCommitAccessor → Z → Z → outcome TxScriptError unit;
  feerate_at_most : Z → Z → Feerate → bool }.

Record TransactionValidator := {
  max_tx_inputs : nat;
  max_tx_outputs : nat;
  max_signature_script_len : nat;
  max_script_public_key_len : nat;
  tv_coinbase_payload_script_public_key_max_len : Z;
  coinbase_maturity : Z;
  ghostdag_k : Z;
  wide_lanes_activation : ForkActivation;
  mass_per_sig_op : Z;
  finality_anchor_params : FinalityAnchorParams;
  mass_calculator : MassCalculator }.

(** [iter().position(..)]. *)
Fixpoint position_from {A} (P : A → bool) (n : nat) (l : list A) : option nat :=
  match l with
  | [] => None
  | x :: l => if P x then Some n else position_from P (S n) l
  end.
Definition position {A} (P : A → bool) (l : list A) : option nat := position_from P 0 l.

(** [if let Some(i) = .. { return Err(..) }]. *)
Definition reject_found {E A} (o : option A) (f : A → E) : outcome E unit :=
  match o with Some a => Err (f a) | None => Ok tt end.

Definition ZEROES_19 : list Z := replicate 19 0.
Definition SUBNETWORK_ZERO_TAIL_LEN : nat := 16.
Definition SUBNETWORK_WIDE_ZERO_TAIL_LEN : nat := 15.

Section isolation.
Context `{PayloadDecoder} `{AnchorDecoder} `{AnchorHashers} `{SchnorrOracle} {X : Type}.
Context (self : TransactionValidator).
Implicit Types (tx : Transaction).

Definition check_transaction_inputs_count tx : outcome (TxRuleError X) unit :=
  reject_if (negb (is_coinbase tx) && bool_decide (inputs tx = [])
               && negb (bool_decide (subnetwork_id tx = SUBNETWORK_ID_NOTE_POOL))
               && negb (bool_decide (subnetwork_id tx = SUBNETWORK_ID_FINALITY_ANCHOR))) NoTxInputs;;
  reject_if (max_tx_inputs self <? length (inputs tx))%nat
    (TooManyInputs (length (inputs tx)) (max_tx_inputs self)).

Definition check_transaction_signature_scripts tx : outcome (TxRuleError X) unit :=
  reject_found
    (position (λ i, max_signature_script_len self <? length (signature_script i))%nat (inputs tx))
    (λ i, TooBigSignatureScript i (max_signature_script_len self)).

Definition check_transaction_inputs_in_isolation tx : outcome (TxRuleError X) unit :=
  check_transaction_inputs_count tx;; check_transaction_signature_scripts tx.

(** The error names [max_tx_inputs], as the source does. *)
Definition check_transaction_outputs_count tx : outcome (TxRuleError X) unit :=
  if is_coinbase tx then Ok tt
  else reject_if (max_tx_outputs self <? length (outputs tx))%nat
         (TooManyOutputs (length (outputs tx)) (max_tx_inputs self)).

Definition check_transaction_script_public_keys tx : outcome (TxRuleError X) unit :=
  reject_found
    (position (λ o, max_script_public_key_len self <? length (script (script_public_key o)))%nat
       (outputs tx))
    (λ i, TooBigScriptPublicKey i (max_script_public_key_len self)).

Definition check_transaction_outputs_in_isolation tx : outcome (TxRuleError X) unit :=
  check_transaction_outputs_count tx;; check_transaction_script_public_keys tx.

Definition check_coinbase_in_isolation tx : outcome (TxRuleError X) unit :=
  if negb (is_coinbase tx) then Ok tt else
  reject_if (negb (bool_decide (inputs tx = []))) (CoinbaseHasInputs (length (inputs tx)));;
  reject_if (0 <? storage_mass tx) CoinbaseNonZeroMassCommitment;;
  let outputs_limit := ghostdag_k self + 2 in
  reject_if (outputs_limit <? Z.of_nat (length (outputs tx)))
    (CoinbaseTooManyOutputs (length (outputs tx)) outputs_limit);;
  reject_found
    (position (λ o, tv_coinbase_payload_script_public_key_max_len self
                      <? Z.of_nat (length (script (script_public_key o)))) (outputs tx))
    CoinbaseScriptPublicKeyTooLong.

Definition output_range_step (i : nat) (total : Z) (o : TransactionOutput)
    : outcome (TxRuleError X) Z :=
  reject_if (value o =? 0) (TxOutZero i);;
  reject_if (MAX_SOMPI <? value o) (TxOutTooHigh i);;
  total ← ok_or (checked_add total (value o)) OutputsValueOverflow;
  reject_if (MAX_SOMPI <? total) TotalTxOutTooHigh;;
  Ok total.
Definition check_transaction_output_value_ranges tx : outcome (TxRuleError X) unit :=
  try_foldi output_range_step 0 0 (outputs tx);; Ok tt.

Definition duplicate_step (existing : gset TransactionOutpoint) (i : TransactionInput)
    : outcome (TxRuleError X) (gset TransactionOutpoint) :=
  reject_if (bool_decide (previous_outpoint i ∈ existing)) TxDuplicateInputs;;
  Ok ({[previous_outpoint i]} ∪ existing).
Definition check_duplicate_transaction_inputs tx : outcome (TxRuleError X) unit :=
  try_fold duplicate_step ∅ (inputs tx);; Ok tt.

(** [[_x, rest @ ..] if rest == ZEROES_19]. *)
Definition is_system_lane (id : SubnetworkId) : bool :=
  match id with _ :: rest => bool_decide (rest = ZEROES_19) | [] => false end.

Definition check_gas tx : outcome (TxRuleError X) unit :=
  if gas tx =? 0 then Ok tt
  else if tx_version tx <? TX_VERSION_TOCCATA then Err TxHasGas
  else if negb (is_system_lane (subnetwork_id tx)) then Ok tt
  else Err TxHasGas.

Definition check_transaction_subnetwork tx (wide_lanes : bool) : outcome (TxRuleError X) unit :=
  let tail_len := if wide_lanes then SUBNETWORK_TAG_LEN else SUBNETWORK_NAMESPACE_LEN in
  let tail_zero := replicate (if wide_lanes then SUBNETWORK_WIDE_ZERO_TAIL_LEN
                              else SUBNETWORK_ZERO_TAIL_LEN) 0 in
  let id := subnetwork_id tx in
  if is_system_lane id then
    if bool_decide (head id = Some 0) || bool_decide (head id = Some 1) then Ok tt
    else Err (SubnetworksDisabled id)
  else if (TX_VERSION_TOCCATA <=? tx_version tx) && bool_decide (drop tail_len id = tail_zero)
  then Ok tt
  else Err (SubnetworksDisabled id).

Definition check_transaction_version tx : outcome (TxRuleError X) unit :=
  reject_if (TX_VERSION_TOCCATA <? tx_version tx) (UnknownTxVersion (tx_version tx)).

(** The first input with the wrong commitment, with its value. *)
Definition no_commit {A B} (f : A → option B) (e : nat → B → TxRuleError X) (l : list A)
    : outcome (TxRuleError X) unit :=
  try_foldi (λ i (_ : unit) a, match f a with Some b => Err (e i b) | None => Ok tt end) 0 tt l.

Definition check_tx_version_specific_fields tx : outcome (TxRuleError X) unit :=
  if 0 <? tx_version tx then no_commit (λ i, sig_op_count (compute_commit i)) SigopCountInV1 (inputs tx)
  else
    no_commit (λ i, compute_budget (compute_commit i)) ComputeBudgetInV0 (inputs tx);;
    no_commit covenant (λ i _, CovenantBindingInV0 i) (outputs tx).

Definition check_note_pool_payload tx : outcome (TxRuleError X) unit :=
  if negb (bool_decide (subnetwork_id tx = SUBNETWORK_ID_NOTE_POOL)) then Ok tt else
  op ← ok_or (decode_payload (payload tx)) MalformedNotePoolPayload;
  map_err InvalidNotePoolOp (validate_stateless op).

Definition check_finality_anchor_payload tx : outcome (TxRuleError X) unit :=
  if negb (bool_decide (subnetwork_id tx = SUBNETWORK_ID_FINALITY_ANCHOR)) then Ok tt else
  keys ← ok_or (trustees (finality_anchor_params self)) FinalityAnchorsUnavailable;
  pl ← ok_or (decode_anchor_payload (payload tx)) MalformedFinalityAnchorPayload;
  match pl with
  | Anchor a => map_err InvalidFinalityAnchor (verify_anchor a keys)
  | Equivocation e =>
      map_err InvalidFinalityAnchor
        (verify_equivocation_evidence e keys (cadence_interval (finality_anchor_params self)))
  end.

Definition validate_tx_in_isolation tx (pov_daa_score : Z) : outcome (TxRuleError X) unit :=
  check_transaction_inputs_in_isolation tx;;
  check_transaction_outputs_in_isolation tx;;
  check_coinbase_in_isolation tx;;
  check_transaction_output_value_ranges tx;;
  check_duplicate_transaction_inputs tx;;
  check_gas tx;;
  check_transaction_subnetwork tx (is_active (wide_lanes_activation self) pov_daa_score);;
  check_transaction_version tx;;
  check_tx_version_specific_fields tx;;
  check_note_pool_payload tx;;
  check_finality_anchor_payload tx.
End isolation.

(** ** Header context *)
Inductive LockTimeType := LT_Finalized | LT_DaaScore | LT_Time.
Inductive LockTimeArg := Finalized | DaaScore (s : Z) | MedianTime (t : Z).

Definition get_lock_time_type (tx : Transaction) : LockTimeType :=
  if lock_time tx =? 0 then LT_Finalized
  else if lock_time tx <? LOCK_TIME_THRESHOLD then LT_DaaScore else LT_Time.

Definition check_tx_is_finalized {X} (tx : Transaction) (arg : LockTimeArg)
    : outcome (TxRuleError X) unit :=
  match arg with
  | Finalized => Ok tt
  | DaaScore c | MedianTime c =>
      if lock_time tx <? c then Ok tt
      else reject_found (position (λ i, negb (sequence i =? u64_max)) (inputs tx)) NotFinalized
  end.
Definition validate_tx_in_header_context {X} (tx : Transaction) (arg : LockTimeArg)
    : outcome (TxRuleError X) unit := check_tx_is_finalized tx arg.
Definition validate_tx_in_header_context_with_args {X} (tx : Transaction)
    (ctx_daa_score ctx_block_time : Z) : outcome (TxRuleError X) unit :=
  validate_tx_in_header_context tx
    match get_lock_time_type tx with
    | LT_Finalized => Finalized
    | LT_DaaScore => DaaScore ctx_daa_score
    | LT_Time => MedianTime ctx_block_time
    end.

(** ** UTXO context *)
Inductive TxValidationFlags := Full | SkipScriptChecks | SkipMassCheck.

Section utxo_context.
Context `{ScriptEngine} `{TxHashers} (self : TransactionValidator).
Implicit Types (ptx : PopulatedTransaction).
Abbreviation E := (TxRuleError TxScriptError) (only parsing).

Definition is_immature (pov_daa_score : Z) (e : UtxoEntry) : outcome E bool :=
  if entry_is_coinbase e
  then s ← u64_add (block_daa_score e) (coinbase_maturity self); Ok (pov_daa_score <? s)
  else Ok false.
Definition maturity_step (pov_daa_score : Z) (n : nat) (_ : unit) (ie : TransactionInput * UtxoEntry)
    : outcome E unit :=
  imm ← is_immature pov_daa_score ie.2;
  reject_if imm (ImmatureCoinbaseSpend n (previous_outpoint ie.1) (block_daa_score ie.2)
                   pov_daa_score (coinbase_maturity self)).
Definition check_transaction_coinbase_maturity ptx (pov_daa_score : Z) : outcome E unit :=
  try_foldi (maturity_step pov_daa_score) 0 tt (populated_inputs ptx).

Definition input_amount_step (total : Z) (ie : TransactionInput * UtxoEntry) : outcome E Z :=
  total ← ok_or (checked_add total (amount ie.2)) InputAmountOverflow;
  reject_if (MAX_SOMPI <? total) InputAmountTooHigh;;
  Ok total.
Definition check_transaction_input_amounts ptx : outcome E Z :=
  try_fold input_amount_step 0 (populated_inputs ptx).

Definition check_transaction_output_values ptx (available reserved : Z) : outcome E Z :=
  total_out ← u64_sum (value <$> outputs (pop_tx ptx));
  spent ← ok_or (checked_add total_out reserved) OutputsValueOverflow;
  reject_if (available <? spent) (SpendTooHigh spent available);;
  Ok total_out.

Definition check_mass_commitment ptx : outcome E unit :=
  calculated ← map_err (λ _, MassIncomputable) (calc_contextual_masses (mass_calculator self) ptx);
  let committed := storage_mass (pop_tx ptx) in
  reject_if (negb (committed =? calculated)) (WrongMass calculated committed).

(** The closure of [any]: whether an input is still locked. *)
Definition is_locked (pov : Z) (ie : TransactionInput * UtxoEntry) : outcome E bool :=
  if Z.land (sequence ie.1) SEQUENCE_LOCK_TIME_DISABLED =? SEQUENCE_LOCK_TIME_DISABLED
  then Ok false
  else
    let relative_lock := as_i64 (Z.land (sequence ie.1) SEQUENCE_LOCK_TIME_MASK) in
    s ← i64_checked (as_i64 (block_daa_score ie.2) + relative_lock);
    lock_daa_score ← i64_checked (s - 1);
    Ok (pov <=? lock_daa_score).
Definition lock_step (pov : Z) (_ : unit) (ie : TransactionInput * UtxoEntry) : outcome E unit :=
  locked ← is_locked pov ie;
  reject_if locked SequenceLockConditionsAreNotMet.
Definition check_sequence_lock ptx (pov_daa_score : Z) : outcome E unit :=
  try_fold (lock_step (as_i64 pov_daa_score)) tt (populated_inputs ptx).

Definition check_feerate_threshold (fee : Z) (threshold : option (Z * Feerate)) : outcome E unit :=
  match threshold with
  | None => Ok tt
  | Some (contextual_mass, t) =>
      if contextual_mass <=? 0 then Panic
      else reject_if (feerate_at_most fee contextual_mass t) FeerateTooLow
  end.

Definition check_covenant_info ptx : outcome E CovenantsContext :=
  map_err CovenantsErr (from_tx ptx).

Definition map_script_err (e : TxScriptError) (i : TransactionInput) : E :=
  if bool_decide (signature_script i = []) then SignatureEmpty e else SignatureInvalid e.

(** One input; the parallel iteration over several inputs may report any failing one, of
    which the first is one. *)
Definition check_script_step ptx (ctx : CovenantsContext) (acc : option SeqCommitAccessor)
    (sigop_script_units : Z) (idx : nat) (_ : unit) (ie : TransactionInput * UtxoEntry)
    : outcome E unit :=
  map_err (λ e, map_script_err e ie.1)
    (vm_execute ptx idx ie.1 ie.2 ctx acc sigop_script_units
       (allowed_script_units (compute_commit ie.1))).
Definition check_scripts ptx (ctx : CovenantsContext) (acc : option SeqCommitAccessor)
    : outcome E unit :=
  sigop_script_units ← u64_mul (mass_per_sig_op self) SCRIPT_UNITS_PER_GRAM;
  try_foldi (check_script_step ptx ctx acc sigop_script_units) 0 tt (populated_inputs ptx).

Definition validate_populated_transaction_and_get_fee ptx (pov_daa_score : Z)
    (flags : TxValidationFlags) (mass_and_feerate_threshold : option (Z * Feerate))
    (acc : option SeqCommitAccessor) (pool_value : option (Z * Z)) : outcome E Z :=
  check_transaction_coinbase_maturity ptx pov_daa_score;;
  total_in ← check_transaction_input_amounts ptx;
  let '(pool_consumed, pool_produced) := default (0, 0) pool_value in
  available ← ok_or (checked_add total_in pool_consumed) InputAmountOverflow;
  total_out ← check_transaction_output_values ptx available pool_produced;
  fee ← (d ← u64_sub available total_out; u64_sub d pool_produced);
  (match flags with SkipMassCheck => Ok tt | _ => check_mass_commitment ptx end);;
  check_sequence_lock ptx pov_daa_score;;
  check_feerate_threshold fee mass_and_feerate_threshold;;
  covenants_ctx ← check_covenant_info ptx;
  (match flags with
   | SkipScriptChecks => Ok tt
   | _ => check_scripts ptx covenants_ctx acc
   end);;
  Ok fee.
End utxo_context.

(** ** What isolation decides *)

Lemma position_from_None {A} (P : A → bool) n l :
  position_from P n l = None ↔ Forall (λ x, P x = false) l.
Proof.
  revert n. induction l as [|x l IH]; intros n; cbn [position_from]; [by split|].
  rewrite Forall_cons, <- (IH (S n)). destruct (P x); naive_solver.
Qed.

Lemma reject_position_Ok {E A} (P : A → bool) (f : nat → E) l :
  reject_found (position P l) f = Ok tt ↔ Forall (λ x, P x = false) l.
Proof. unfold position. rewrite <- (position_from_None P 0). destruct (position_from P 0 l); naive_solver. Qed.

Lemma no_commit_Ok {X A B} (f : A → option B) (e : nat → B → TxRuleError X) l :
  no_commit f e l = Ok tt ↔ Forall (λ a, f a = None) l.
Proof.
  unfold no_commit. generalize 0%nat. induction l as [|a l IH]; intros n; cbn [try_foldi]; [by split|].
  rewrite Forall_cons, <- (IH (S n)). destruct (f a); cbn; naive_solver.
Qed.

Section isolation_spec.
Context `{PayloadDecoder} `{AnchorDecoder} `{AnchorHashers} `{SchnorrOracle} {X : Type}.
Context (self : TransactionValidator).
Implicit Types (tx : Transaction).

Lemma output_range_step_cases i t o :
  0 ≤ t ≤ MAX_SOMPI → 0 ≤ value o →
  (0 < value o ∧ t + value o ≤ MAX_SOMPI ∧ output_range_step (X := X) i t o = Ok (t + value o)) ∨
  (¬ (0 < value o ∧ t + value o ≤ MAX_SOMPI) ∧ ∃ e, output_range_step (X := X) i t o = Err e).
Proof.
  intros Ht Hv. unfold output_range_step, checked_add.
  destruct (Z.eqb_spec (value o) 0); [right; split; [lia|by eexists]|].
  destruct (Z.ltb_spec MAX_SOMPI (value o)); [right; split; [lia|by eexists]|].
  rewrite (proj2 (Z.leb_le (t + value o) u64_max))
    by (unfold MAX_SOMPI, SOMPI_PER_KASPA, u64_max in *; lia).
  cbn [reject_if ok_or mbind outcome_bind].
  destruct (Z.ltb_spec MAX_SOMPI (t + value o)); [right; split; [lia|by eexists]|].
  left. split; [lia|done].
Qed.

Lemma output_ranges_Ok tx :
  Forall (λ o, 0 ≤ value o) (outputs tx) →
  check_transaction_output_value_ranges (X := X) tx = Ok tt ↔
    Forall (λ o, 0 < value o) (outputs tx) ∧ outputs_total (outputs tx) ≤ MAX_SOMPI.
Proof.
  unfold check_transaction_output_value_ranges, outputs_total. intros Hnn.
  assert (Hg : ∀ n t, 0 ≤ t ≤ MAX_SOMPI →
    (∃ r, try_foldi (output_range_step (X := X)) n t (outputs tx) = Ok r) ↔
    Forall (λ o, 0 < value o) (outputs tx) ∧ t + Zsum (value <$> outputs tx) ≤ MAX_SOMPI).
  { induction Hnn as [|o l Ho Hl IH]; intros n t Ht; cbn [try_foldi].
    { change (Zsum (value <$> [])) with 0. split; [|by eexists]. intros _. split; [done|lia]. }
    rewrite Forall_cons, fmap_cons, Zsum_cons.
    assert (0 ≤ Zsum (value <$> l)) by (apply Zsum_nonneg; by apply Forall_fmap).
    destruct (output_range_step_cases n t o Ht Ho) as [(? & ? & ->)|(Hn & e & ->)];
      cbn [mbind outcome_bind]; [|split; [by intros [? ?]|lia]].
    rewrite IH by lia. split; intros [? ?]; (split; [first [tauto|split; [lia|tauto]]|lia]). }
  rewrite <- (Hg 0%nat 0) by (unfold MAX_SOMPI, SOMPI_PER_KASPA; lia).
  destruct (try_foldi _ 0 0 _); cbn; naive_solver.
Qed.

Lemma duplicates_from l (s : gset TransactionOutpoint) :
  (∃ r, try_fold (duplicate_step (X := X)) s l = Ok r) ↔
  NoDup (previous_outpoint <$> l) ∧ ∀ i, i ∈ l → previous_outpoint i ∉ s.
Proof.
  revert s. induction l as [|i l IH]; intros s; cbn [try_fold].
  { split; [|by eexists]. intros _. split; [constructor|]. intros i Hi. by apply elem_of_nil in Hi. }
  rewrite fmap_cons, NoDup_cons.
  assert (Hst : duplicate_step (X := X) s i =
    if decide (previous_outpoint i ∈ s) then Err TxDuplicateInputs
    else Ok ({[previous_outpoint i]} ∪ s)).
  { unfold duplicate_step. destruct (decide (previous_outpoint i ∈ s));
      [by rewrite bool_decide_eq_true_2|by rewrite bool_decide_eq_false_2]. }
  rewrite Hst. destruct (decide (previous_outpoint i ∈ s)) as [Hin|Hin]; cbn [mbind outcome_bind].
  { split; [by intros [? ?]|]. intros [_ Hs]. by destruct (Hs i ltac:(by left)). }
  rewrite IH, list_elem_of_fmap. split.
  - intros [Hnd Hs]. split; [split; [|done]|].
    + intros (j & Heq & Hj). apply (Hs j Hj). rewrite <- Heq. set_solver.
    + intros j [->|Hj]%elem_of_cons; [done|]. specialize (Hs j Hj). set_solver.
  - intros [[Hne Hnd] Hs]. split; [done|]. intros j Hj.
    assert (previous_outpoint j ≠ previous_outpoint i) by (intros Heq; apply Hne; by exists j).
    assert (previous_outpoint j ∉ s) by (apply Hs; by right). set_solver.
Qed.

Lemma duplicates_Ok tx :
  check_duplicate_transaction_inputs (X := X) tx = Ok tt ↔ NoDup (previous_outpoint <$> inputs tx).
Proof.
  unfold check_duplicate_transaction_inputs. pose proof (duplicates_from (inputs tx) ∅) as Hg.
  assert (He : NoDup (previous_outpoint <$> inputs tx) ↔
    ∃ r, try_fold (duplicate_step (X := X)) ∅ (inputs tx) = Ok r).
  { rewrite Hg. split; [|tauto]. intros Hn. split; [done|]. set_solver. }
  rewrite He. destruct (try_fold _ ∅ _); cbn; naive_solver.
Qed.

(** Lane rules: native, coinbase, or a user lane of a version that has them. *)
Definition lane_valid tx (wide : bool) : Prop :=
  if is_system_lane (subnetwork_id tx)
  then head (subnetwork_id tx) = Some 0 ∨ head (subnetwork_id tx) = Some 1
  else 1 ≤ tx_version tx ∧
       drop (if wide then 5 else 4) (subnetwork_id tx) = replicate (if wide then 15 else 16) 0.

Lemma subnetwork_Ok tx wide :
  check_transaction_subnetwork (X := X) tx wide = Ok tt ↔ lane_valid tx wide.
Proof.
  unfold check_transaction_subnetwork, lane_valid. cbv zeta.
  destruct (is_system_lane (subnetwork_id tx)).
  - rewrite <- bool_decide_or. case_bool_decide; by split.
  - change TX_VERSION_TOCCATA with 1.
    replace (if wide then SUBNETWORK_TAG_LEN else SUBNETWORK_NAMESPACE_LEN)
      with (if wide then 5 else 4)%nat by by destruct wide.
    replace (if wide then SUBNETWORK_WIDE_ZERO_TAIL_LEN else SUBNETWORK_ZERO_TAIL_LEN)
      with (if wide then 15 else 16)%nat by by destruct wide.
    destruct (Z.leb_spec 1 (tx_version tx)); cbn [andb]; [case_bool_decide; naive_solver|].
    split; [done|lia].
Qed.

Definition commits_valid tx : Prop :=
  if 0 <? tx_version tx then Forall (λ i, sig_op_count (compute_commit i) = None) (inputs tx)
  else Forall (λ i, compute_budget (compute_commit i) = None) (inputs tx) ∧
       Forall (λ o, covenant o = None) (outputs tx).

Lemma version_fields_Ok tx :
  check_tx_version_specific_fields (X := X) tx = Ok tt ↔ commits_valid tx.
Proof.
  unfold check_tx_version_specific_fields, commits_valid. destruct (0 <? tx_version tx);
    by rewrite ?then_Ok, !no_commit_Ok.
Qed.

Definition pool_payload_valid tx : Prop :=
  subnetwork_id tx = SUBNETWORK_ID_NOTE_POOL →
  ∃ op, decode_payload (payload tx) = Some op ∧ stateless_valid op.
Lemma pool_payload_Ok tx : check_note_pool_payload (X := X) tx = Ok tt ↔ pool_payload_valid tx.
Proof.
  unfold check_note_pool_payload, pool_payload_valid. case_bool_decide; cbn [negb]; [|by split].
  rewrite bind_Ok. setoid_rewrite ok_or_Ok. setoid_rewrite map_err_Ok.
  setoid_rewrite validate_stateless_iff. naive_solver.
Qed.

Definition anchor_payload_valid tx : Prop :=
  subnetwork_id tx = SUBNETWORK_ID_FINALITY_ANCHOR →
  ∃ keys pl, trustees (finality_anchor_params self) = Some keys ∧
    decode_anchor_payload (payload tx) = Some pl ∧
    match pl with
    | Anchor a => verify_anchor a keys = Ok tt
    | Equivocation e =>
        verify_equivocation_evidence e keys (cadence_interval (finality_anchor_params self)) = Ok tt
    end.
Lemma anchor_payload_Ok tx :
  check_finality_anchor_payload (X := X) self tx = Ok tt ↔ anchor_payload_valid tx.
Proof.
  unfold check_finality_anchor_payload, anchor_payload_valid. case_bool_decide; cbn [negb]; [|by split].
  destruct (trustees _) as [keys|]; cbn; [|naive_solver].
  destruct (decode_anchor_payload (payload tx)) as [[a|e]|]; cbn; [| |naive_solver];
    rewrite map_err_Ok; naive_solver.
Qed.

Lemma inputs_count_Ok tx :
  check_transaction_inputs_count (X := X) self tx = Ok tt ↔
    (inputs tx = [] → is_coinbase tx = true ∨ subnetwork_id tx = SUBNETWORK_ID_NOTE_POOL ∨
       subnetwork_id tx = SUBNETWORK_ID_FINALITY_ANCHOR) ∧
    (length (inputs tx) ≤ max_tx_inputs self)%nat.
Proof.
  unfold check_transaction_inputs_count. rewrite then_Ok, !reject_if_Ok, Nat.ltb_ge.
  destruct (is_coinbase tx); cbn [negb andb]; [naive_solver|].
  repeat case_bool_decide; cbn [negb andb]; naive_solver.
Qed.

Definition coinbase_shape tx : Prop :=
  is_coinbase tx = true →
  inputs tx = [] ∧ storage_mass tx ≤ 0 ∧ Z.of_nat (length (outputs tx)) ≤ ghostdag_k self + 2 ∧
  Forall (λ o, Z.of_nat (length (script (script_public_key o)))
                 ≤ tv_coinbase_payload_script_public_key_max_len self) (outputs tx).
Lemma coinbase_Ok tx : check_coinbase_in_isolation (X := X) self tx = Ok tt ↔ coinbase_shape tx.
Proof.
  unfold check_coinbase_in_isolation, coinbase_shape. destruct (is_coinbase tx); cbn [negb]; [|by split].
  cbv zeta. rewrite !then_Ok, !reject_if_Ok, reject_position_Ok, negb_false_iff, bool_decide_eq_true,
    !Z.ltb_ge.
  setoid_rewrite Z.ltb_ge. naive_solver.
Qed.

Lemma gas_Ok tx :
  check_gas (X := X) tx = Ok tt ↔
    (gas tx ≠ 0 → 1 ≤ tx_version tx ∧ is_system_lane (subnetwork_id tx) = false).
Proof.
  unfold check_gas. change TX_VERSION_TOCCATA with 1. destruct (Z.eqb_spec (gas tx) 0); [by split|].
  destruct (Z.ltb_spec (tx_version tx) 1); [split; [done|lia]|].
  destruct (is_system_lane (subnetwork_id tx)); cbn [negb]; naive_solver.
Qed.

(** The rules of isolation, as one statement about the transaction. *)
Record isolation_valid tx (pov : Z) : Prop := {
  iv_inputs : inputs tx = [] → is_coinbase tx = true ∨
    subnetwork_id tx = SUBNETWORK_ID_NOTE_POOL ∨ subnetwork_id tx = SUBNETWORK_ID_FINALITY_ANCHOR;
  iv_inputs_count : (length (inputs tx) ≤ max_tx_inputs self)%nat;
  iv_signature_scripts :
    Forall (λ i, (length (signature_script i) ≤ max_signature_script_len self)%nat) (inputs tx);
  iv_outputs_count : is_coinbase tx = false → (length (outputs tx) ≤ max_tx_outputs self)%nat;
  iv_scripts : Forall (λ o, (length (script (script_public_key o))
                               ≤ max_script_public_key_len self)%nat) (outputs tx);
  iv_coinbase : coinbase_shape tx;
  iv_values : Forall (λ o, 0 < value o) (outputs tx) ∧ outputs_total (outputs tx) ≤ MAX_SOMPI;
  iv_distinct : NoDup (previous_outpoint <$> inputs tx);
  iv_gas : gas tx ≠ 0 → 1 ≤ tx_version tx ∧ is_system_lane (subnetwork_id tx) = false;
  iv_lane : lane_valid tx (is_active (wide_lanes_activation self) pov);
  iv_version : tx_version tx ≤ 1;
  iv_commits : commits_valid tx;
  iv_pool : pool_payload_valid tx;
  iv_anchor : anchor_payload_valid tx }.

Lemma isolation_iff tx pov :
  Forall (λ o, 0 ≤ value o) (outputs tx) →
  validate_tx_in_isolation (X := X) self tx pov = Ok tt ↔ isolation_valid tx pov.
Proof.
  intros Hnn. unfold validate_tx_in_isolation, check_transaction_inputs_in_isolation,
    check_transaction_outputs_in_isolation, check_transaction_outputs_count,
    check_transaction_signature_scripts, check_transaction_script_public_keys,
    check_transaction_version.
  rewrite !then_Ok, inputs_count_Ok, !reject_position_Ok, coinbase_Ok, output_ranges_Ok,
    duplicates_Ok, gas_Ok, subnetwork_Ok, version_fields_Ok, pool_payload_Ok, anchor_payload_Ok,
    reject_if_Ok by done.
  change TX_VERSION_TOCCATA with 1. setoid_rewrite Nat.ltb_ge. rewrite Z.ltb_ge.
  assert (Hc : (if is_coinbase tx then Ok tt
    else reject_if (max_tx_outputs self <? length (outputs tx))%nat
           (TooManyOutputs (TxScriptError := X) (length (outputs tx)) (max_tx_inputs self))) = Ok tt ↔
    (is_coinbase tx = false → (length (outputs tx) ≤ max_tx_outputs self)%nat)).
  { destruct (is_coinbase tx); [by split|]. rewrite reject_if_Ok, Nat.ltb_ge. naive_solver. }
  rewrite Hc. split.
  - intros ([[? ?] ?] & [? ?] & ? & ? & ? & ? & ? & ? & ? & ? & ?). by constructor.
  - intros []. tauto.
Qed.

(** (C24) Validation in isolation decides its rules: a transaction passes exactly when it
    has inputs unless it is a coinbase, a pool operation or an anchor; stays within the
    count and length limits; has positive outputs summing to at most [MAX_SOMPI]; spends
    no outpoint twice; pays gas only on user lanes; names a valid lane and version with
    that version's fields; and carries, on the pool lane, a stateless-valid operation
    and, on the anchor lane, a verified anchor or equivocation proof. *)
Theorem isolation_decides tx pov :
  Forall (λ o, 0 ≤ value o) (outputs tx) →
  validate_tx_in_isolation (X := X) self tx pov = Ok tt ↔ isolation_valid tx pov.
Proof. apply isolation_iff. Qed.
End isolation_spec.

(** ** Lock times *)

(** Finality in header context: a transaction passes exactly when its lock time is
    zero, or lies before the block's DAA score (below the threshold) or before its past
    median time (from the threshold on), or every input opts out with the maximal
    sequence number; a transaction without inputs always passes. *)
Theorem finality_decides {X} tx ctx_daa_score ctx_block_time :
  validate_tx_in_header_context_with_args (X := X) tx ctx_daa_score ctx_block_time = Ok tt ↔
    lock_time tx = 0 ∨
    (lock_time tx < LOCK_TIME_THRESHOLD ∧ lock_time tx < ctx_daa_score) ∨
    (LOCK_TIME_THRESHOLD ≤ lock_time tx ∧ lock_time tx < ctx_block_time) ∨
    Forall (λ i, sequence i = u64_max) (inputs tx).
Proof.
  unfold validate_tx_in_header_context_with_args, validate_tx_in_header_context,
    get_lock_time_type, check_tx_is_finalized.
  destruct (Z.eqb_spec (lock_time tx) 0); [tauto|].
  assert (Hs : Forall (λ i, negb (sequence i =? u64_max) = false) (inputs tx) ↔
               Forall (λ i, sequence i = u64_max) (inputs tx)).
  { apply Forall_proper; [|done]. intros i. by rewrite negb_false_iff, Z.eqb_eq. }
  destruct (Z.ltb_spec (lock_time tx) LOCK_TIME_THRESHOLD).
  - destruct (Z.ltb_spec (lock_time tx) ctx_daa_score); [split; [tauto|done]|].
    rewrite reject_position_Ok, Hs. split; [tauto|]. intros [?|[[]|[[]|]]]; [lia..|done].
  - destruct (Z.ltb_spec (lock_time tx) ctx_block_time); [split; [tauto|done]|].
    rewrite reject_position_Ok, Hs. split; [tauto|]. intros [?|[[]|[[]|]]]; [lia..|done].
Qed.

Section utxo_spec.
Context `{ScriptEngine} `{TxHashers} (self : TransactionValidator).
Implicit Types (ptx : PopulatedTransaction).

(** The relative lock of an input, which ripens [lock] scores after its entry. *)
Definition lock_disabled (i : TransactionInput) : Prop :=
  Z.land (sequence i) SEQUENCE_LOCK_TIME_DISABLED = SEQUENCE_LOCK_TIME_DISABLED.
Definition relative_lock (i : TransactionInput) : Z := sequence i mod 2 ^ 32.

Lemma relative_lock_spec i : Z.land (sequence i) SEQUENCE_LOCK_TIME_MASK = relative_lock i.
Proof. apply (Z.land_ones (sequence i) 32). lia. Qed.

Lemma is_locked_Ok pov i e :
  0 ≤ pov < 2 ^ 62 → 0 ≤ block_daa_score e < 2 ^ 62 →
  ∃ b, is_locked (as_i64 pov) (i, e) = Ok b ∧
    (b = false ↔ lock_disabled i ∨ block_daa_score e + relative_lock i ≤ pov).
Proof.
  intros Hp He. unfold is_locked, lock_disabled. cbn [fst snd].
  destruct (Z.eqb_spec (Z.land (sequence i) SEQUENCE_LOCK_TIME_DISABLED) SEQUENCE_LOCK_TIME_DISABLED).
  { exists false. split; [done|tauto]. }
  rewrite relative_lock_spec. pose proof (Z.mod_pos_bound (sequence i) (2 ^ 32)) as Hr.
  fold (relative_lock i) in Hr. cbv zeta. unfold as_i64.
  rewrite !(proj2 (Z.ltb_lt _ _)) by lia. unfold i64_checked.
  rewrite (proj2 (Z.leb_le _ _)), (proj2 (Z.ltb_lt _ _)) by lia. cbn [andb mbind outcome_bind].
  rewrite (proj2 (Z.leb_le (- 2 ^ 63) _)), (proj2 (Z.ltb_lt _ (2 ^ 63))) by lia.
  cbn [andb mbind outcome_bind]. eexists. split; [done|]. rewrite Z.leb_gt. split; [|naive_solver lia].
  intros ?. right. lia.
Qed.

Lemma sequence_lock_spec ptx pov :
  0 ≤ pov < 2 ^ 62 → Forall (λ e, 0 ≤ block_daa_score e < 2 ^ 62) (entries ptx) →
  check_sequence_lock ptx pov ≠ Panic ∧
  (check_sequence_lock ptx pov = Ok tt ↔
   Forall (λ ie, lock_disabled ie.1 ∨ block_daa_score ie.2 + relative_lock ie.1 ≤ pov)
     (populated_inputs ptx)).
Proof.
  intros Hp He. unfold check_sequence_lock.
  destruct (try_fold_decides (λ ie, lock_disabled ie.1 ∨ block_daa_score ie.2 + relative_lock ie.1 ≤ pov)
    (lock_step (as_i64 pov)) (populated_inputs ptx)) as [[Hq ->]|[Hq (e & ->)]]; [| |naive_solver].
  - intros [i e] Hie. rewrite Forall_forall in He.
    destruct (is_locked_Ok pov i e Hp) as (b & Hb & Hiff).
    { apply He. by apply elem_of_zip_r in Hie. }
    unfold lock_step. cbn [fst snd]. rewrite Hb. cbn [mbind outcome_bind].
    destruct b; [right|left]; (split; [|by eexists || done]); naive_solver.
  - split; [done|]. tauto.
Qed.

(** Relative locks: for scores below 2^62 the sequence-lock check does not overflow,
    and passes exactly when every input either disables its lock or spends an entry that
    is at least the lock's number of scores old. *)
Theorem sequence_lock_exact ptx pov :
  0 ≤ pov < 2 ^ 62 → Forall (λ e, 0 ≤ block_daa_score e < 2 ^ 62) (entries ptx) →
  check_sequence_lock ptx pov ≠ Panic ∧
  (check_sequence_lock ptx pov = Ok tt ↔
   Forall (λ ie, lock_disabled ie.1 ∨ block_daa_score ie.2 + relative_lock ie.1 ≤ pov)
     (populated_inputs ptx)).
Proof. apply sequence_lock_spec. Qed.

(** ** Fees *)
Lemma input_amounts_from l t r :
  try_fold input_amount_step t l = Ok r → t ≤ MAX_SOMPI →
  r = t + Zsum ((λ ie, amount ie.2) <$> l) ∧ r ≤ MAX_SOMPI.
Proof.
  revert t. induction l as [|ie l IH]; intros t; cbn [try_fold].
  { intros [= <-] Ht. split; [|done]. change (Zsum _) with 0. lia. }
  intros (t1 & Hst & Hr)%bind_Ok Ht. apply bind_Ok in Hst as (t2 & Hadd & Hst).
  apply ok_or_Ok, checked_add_Some in Hadd as [-> _].
  apply then_Ok in Hst as (Hmax%reject_if_Ok & Heq). apply Z.ltb_ge in Hmax. injection Heq as <-.
  apply IH in Hr as [-> ?]; [|done]. rewrite fmap_cons, Zsum_cons. split; [lia|done].
Qed.

Lemma input_amounts_Ok ptx r :
  length (entries ptx) = length (inputs (pop_tx ptx)) →
  check_transaction_input_amounts ptx = Ok r → r = entries_total (entries ptx) ∧ r ≤ MAX_SOMPI.
Proof.
  intros Hlen Hr. apply input_amounts_from in Hr as [-> ?]; [|done]. split; [|done].
  unfold entries_total, populated_inputs. rewrite Z.add_0_l.
  rewrite <- (snd_zip (inputs (pop_tx ptx)) (entries ptx)) at 2 by lia.
  by rewrite <- list_fmap_compose.
Qed.

Definition mature (pov : Z) (e : UtxoEntry) : Prop :=
  entry_is_coinbase e = true → block_daa_score e + coinbase_maturity self ≤ pov.

Lemma maturity_Ok ptx pov :
  length (entries ptx) = length (inputs (pop_tx ptx)) →
  check_transaction_coinbase_maturity self ptx pov = Ok tt → Forall (mature pov) (entries ptx).
Proof.
  intros Hlen Hok.
  assert (Hall : Forall (λ ie : TransactionInput * UtxoEntry, mature pov ie.2) (populated_inputs ptx)).
  { revert Hok. unfold check_transaction_coinbase_maturity.
    apply (try_foldi_inv (λ pre _, Forall (λ ie, mature pov ie.2) pre)); [done|].
    intros pre ie post [] [] _ Hpre Hst. apply Forall_app. split; [done|]. constructor; [|done].
    unfold maturity_step in Hst. apply bind_Ok in Hst as (imm & Him & Hrej%reject_if_Ok). subst imm.
    intros Hcb. unfold is_immature in Him. rewrite Hcb in Him.
    apply bind_Ok in Him as (s & [-> _]%u64_add_Ok & Heq). injection Heq as Heq%Z.ltb_ge. lia. }
  rewrite <- (snd_zip (inputs (pop_tx ptx)) (entries ptx)) by lia. by apply Forall_fmap.
Qed.

Lemma populated_accepted ptx pov flags thr acc pool_value fee :
  length (entries ptx) = length (inputs (pop_tx ptx)) →
  validate_populated_transaction_and_get_fee self ptx pov flags thr acc pool_value = Ok fee →
  let '(consumed, produced) := default (0, 0) pool_value in
  fee = entries_total (entries ptx) + consumed - outputs_total (outputs (pop_tx ptx)) - produced ∧
  0 ≤ fee ∧ entries_total (entries ptx) ≤ MAX_SOMPI ∧ Forall (mature pov) (entries ptx) ∧
  (flags ≠ SkipMassCheck →
     calc_contextual_masses (mass_calculator self) ptx = Ok (storage_mass (pop_tx ptx))) ∧
  check_sequence_lock ptx pov = Ok tt ∧ covenants_valid ptx ∧
  (flags ≠ SkipScriptChecks → ∃ ctx, from_tx ptx = Ok ctx ∧ check_scripts self ptx ctx acc = Ok tt).
Proof.
  intros Hlen. unfold validate_populated_transaction_and_get_fee.
  destruct (default (0, 0) pool_value) as [consumed produced].
  intros (Hmat & Hv)%then_Ok. apply bind_Ok in Hv as (tin & Hin & Hv).
  apply bind_Ok in Hv as (avail & Hav%ok_or_Ok & Hv). apply checked_add_Some in Hav as [-> _].
  apply bind_Ok in Hv as (tout & Hout & Hv). apply bind_Ok in Hv as (fee' & Hfee & Hv).
  apply then_Ok in Hv as (Hmass & Hv). apply then_Ok in Hv as (Hseq & Hv).
  apply then_Ok in Hv as (_ & Hv). apply bind_Ok in Hv as (ctx & Hctx & Hv).
  apply then_Ok in Hv as (Hscr & Heq). injection Heq as ->.
  apply input_amounts_Ok in Hin as [-> Hmax]; [|done].
  unfold check_transaction_output_values in Hout. apply bind_Ok in Hout as (t & Ht%u64_sum_Ok & Hout).
  apply bind_Ok in Hout as (sp & Hsp%ok_or_Ok & Hout). apply checked_add_Some in Hsp as [-> _].
  apply then_Ok in Hout as (Hge%reject_if_Ok & Heq). apply Z.ltb_ge in Hge. injection Heq as ->. subst tout.
  apply bind_Ok in Hfee as (d & [-> _]%u64_sub_Ok & [-> Hpos]%u64_sub_Ok).
  unfold check_covenant_info in Hctx. apply map_err_Ok in Hctx.
  split; [unfold outputs_total; lia|]. split; [lia|]. split; [done|]. split; [by apply maturity_Ok|].
  split. { intros Hf. destruct flags; [..|done];
    (unfold check_mass_commitment in Hmass; apply bind_Ok in Hmass as (m & Hm%map_err_Ok & Hrej%reject_if_Ok);
     apply negb_false_iff, Z.eqb_eq in Hrej; by rewrite Hrej). }
  split; [done|]. split.
  - destruct (from_tx_decides ptx Hlen) as [(? & _)|(_ & e & He)]; [done|congruence].
  - intros Hf. exists ctx. split; [done|]. by destruct flags.
Qed.

(** (C7) An accepted transaction conserves value: when validation in UTXO context returns
    a fee, the fee is non-negative and equals spent entries plus consumed notes minus
    outputs minus produced notes; the inputs total at most [MAX_SOMPI]; every spent
    coinbase entry is mature; the committed mass is the computed one (unless the mempool
    sets it); the sequence locks hold; every covenant binding is genuine; and, unless
    scripts are skipped, the engine accepted every input. *)
Theorem accepted_tx_conserves ptx pov flags thr acc pool_value fee :
  length (entries ptx) = length (inputs (pop_tx ptx)) →
  validate_populated_transaction_and_get_fee self ptx pov flags thr acc pool_value = Ok fee →
  let '(consumed, produced) := default (0, 0) pool_value in
  fee = entries_total (entries ptx) + consumed - outputs_total (outputs (pop_tx ptx)) - produced ∧
  0 ≤ fee ∧ entries_total (entries ptx) ≤ MAX_SOMPI ∧ Forall (mature pov) (entries ptx) ∧
  (flags ≠ SkipMassCheck →
     calc_contextual_masses (mass_calculator self) ptx = Ok (storage_mass (pop_tx ptx))) ∧
  check_sequence_lock ptx pov = Ok tt ∧ covenants_valid ptx ∧
  (flags ≠ SkipScriptChecks → ∃ ctx, from_tx ptx = Ok ctx ∧ check_scripts self ptx ctx acc = Ok tt).
Proof. apply populated_accepted. Qed.

(** ** Validation does not panic *)

(** The unit count of the longest script a transaction may create. *)
Definition max_plurality : Z :=
  div_ceil (UTXO_CONST_STORAGE + Z.of_nat (max_script_public_key_len self) + HASH_SIZE) UTXO_UNIT_SIZE.
Abbreviation C := (storage_mass_parameter (mass_calculator self)) (only parsing).

(** Parameters within machine range, and an engine that returns. *)
Record validator_wf : Prop := {
  vw_param : 1 ≤ C;
  vw_maturity : 0 ≤ coinbase_maturity self < 2 ^ 62;
  vw_inputs : Z.of_nat (max_tx_inputs self) ≤ 2 ^ 31;
  vw_outputs : Z.of_nat (max_tx_outputs self) ≤ 2 ^ 31;
  vw_scripts : C * max_plurality * max_plurality ≤ u64_max;
  vw_sigop : mass_per_sig_op self * SCRIPT_UNITS_PER_GRAM ≤ u64_max;
  vw_engine : ∀ ptx n i e ctx acc u l, not_panic (vm_execute ptx n i e ctx acc u l) }.

(** A UTXO entry as validation in isolation lets it be created. *)
Record entry_wf (e : UtxoEntry) : Prop := {
  ew_amount : 0 < amount e;
  ew_score : 0 ≤ block_daa_score e < 2 ^ 62;
  ew_script : (length (script (entry_script_public_key e)) ≤ max_script_public_key_len self)%nat }.
Definition output_wf (o : TransactionOutput) : Prop :=
  0 < value o ∧ (length (script (script_public_key o)) ≤ max_script_public_key_len self)%nat.

Lemma plurality_bound spk b :
  (length (script spk) ≤ max_script_public_key_len self)%nat → 1 ≤ utxo_plurality spk b ≤ max_plurality.
Proof.
  intros Hl. unfold utxo_plurality, max_plurality, div_ceil. change UTXO_UNIT_SIZE with 100.
  change UTXO_CONST_STORAGE with 63. change HASH_SIZE with 32.
  split; [destruct b; Z.to_euclidean_division_equations; lia|].
  apply Z.div_le_mono; [lia|]. destruct b; lia.
Qed.

Lemma cells_wf (l : list UtxoCell) (m : nat) :
  validator_wf → Forall (λ c, 1 ≤ plurality c ≤ max_plurality ∧ 0 < cell_amount c) l →
  (length l ≤ m)%nat → Z.of_nat m ≤ 2 ^ 31 →
  Forall (cell_ok C) l ∧ Zsum (plurality <$> l) ≤ u64_max.
Proof.
  intros [Hp _ _ _ Hs _ _] Hl Hlen Hm. split.
  - eapply Forall_impl; [exact Hl|]. intros c ([? ?] & ?). split; [done|]. split; [done|].
    assert (plurality c * plurality c ≤ max_plurality * max_plurality) by nia. rewrite <- Z.mul_assoc in *. nia.
  - assert (max_plurality ≤ 2 ^ 32). { unfold u64_max in Hs. destruct (Z.leb_spec max_plurality (2 ^ 32)); [done|nia]. }
    assert (Zsum (plurality <$> l) ≤ Z.of_nat (length l) * 2 ^ 32); [|unfold u64_max; nia].
    clear Hlen. induction Hl as [|c l [Hc _] _ IH]; [done|]. rewrite fmap_cons, Zsum_cons. cbn [length]. lia.
Qed.

Lemma maturity_total ptx pov :
  validator_wf → Forall entry_wf (entries ptx) → not_panic (check_transaction_coinbase_maturity self ptx pov).
Proof.
  intros Hw He. unfold check_transaction_coinbase_maturity.
  apply (try_foldi_no_panic (λ _ _, True)); [done| |done].
  intros pre [i e] post [] Hl _. unfold maturity_step, is_immature. cbn [fst snd].
  assert (Hin : e ∈ entries ptx).
  { assert (Hz : (i, e) ∈ populated_inputs ptx) by (rewrite Hl; set_solver). by apply elem_of_zip_r in Hz. }
  rewrite Forall_forall in He. destruct (He e Hin) as [_ Hsc _], Hw as [_ Hm _ _ _ _ _].
  destruct (entry_is_coinbase e); [|apply not_panic_reject].
  rewrite u64_add_total by (unfold u64_max; lia). apply not_panic_reject.
Qed.

Lemma input_amounts_total ptx : not_panic (check_transaction_input_amounts (H := H) ptx).
Proof.
  apply (try_fold_no_panic (λ _ _, True)); [done| |done]. intros pre ie post st _ _. unfold input_amount_step.
  apply not_panic_bind; [apply not_panic_ok_or|]. intros a _.
  apply not_panic_then; [apply not_panic_reject|by intros _].
Qed.

Lemma mass_commitment_total ptx :
  validator_wf → length (entries ptx) = length (inputs (pop_tx ptx)) →
  (length (inputs (pop_tx ptx)) ≤ max_tx_inputs self)%nat → Forall entry_wf (entries ptx) →
  entries_total (entries ptx) ≤ MAX_SOMPI → (length (outputs (pop_tx ptx)) ≤ max_tx_outputs self)%nat →
  Forall output_wf (outputs (pop_tx ptx)) → not_panic (check_mass_commitment self ptx).
Proof.
  intros Hw Hlen Hin He Hsum Hout Ho. unfold check_mass_commitment.
  apply not_panic_bind; [|intros m _; apply not_panic_reject]. apply not_panic_map_err.
  unfold calc_contextual_masses, populated_inputs. rewrite snd_zip by lia.
  destruct (cells_wf (cell_of_entry <$> entries ptx) (max_tx_inputs self) Hw) as [Hic Hip].
  { apply Forall_fmap. eapply Forall_impl; [exact He|]. intros e [Ha _ Hs]. split; [by apply plurality_bound|done]. }
  { rewrite length_fmap. lia. } { apply Hw. }
  destruct (cells_wf (cell_of_output <$> outputs (pop_tx ptx)) (max_tx_outputs self) Hw) as [Hoc Hop].
  { apply Forall_fmap. eapply Forall_impl; [exact Ho|]. intros o [Ha Hs]. split; [by apply plurality_bound|done]. }
  { rewrite length_fmap. lia. } { apply Hw. }
  apply calc_storage_mass_total; try done; [destruct Hw; lia|].
  rewrite <- list_fmap_compose. unfold entries_total in Hsum.
  etrans; [exact Hsum|by_decide].
Qed.

Lemma scripts_total ptx ctx acc : validator_wf → not_panic (check_scripts self ptx ctx acc).
Proof.
  intros [_ _ _ _ _ Hs Hv]. unfold check_scripts. rewrite u64_mul_total by done. cbn [mbind outcome_bind].
  apply (try_foldi_no_panic (λ _ _, True)); [done| |done]. intros pre ie post [] _ _.
  apply not_panic_map_err, Hv.
Qed.

Lemma validate_populated_total ptx pov flags acc pool_value :
  validator_wf → length (entries ptx) = length (inputs (pop_tx ptx)) →
  (length (inputs (pop_tx ptx)) ≤ max_tx_inputs self)%nat → Forall entry_wf (entries ptx) →
  (length (outputs (pop_tx ptx)) ≤ max_tx_outputs self)%nat → Forall output_wf (outputs (pop_tx ptx)) →
  outputs_total (outputs (pop_tx ptx)) ≤ u64_max → 0 ≤ pov < 2 ^ 62 → 0 ≤ (default (0, 0) pool_value).2 →
  not_panic (validate_populated_transaction_and_get_fee self ptx pov flags None acc pool_value).
Proof.
  intros Hw Hlen Hin He Hout Ho Htot Hpov Hprod. unfold validate_populated_transaction_and_get_fee.
  apply not_panic_then; [by apply maturity_total|]. intros _.
  apply not_panic_bind; [apply input_amounts_total|]. intros tin [-> Hmax]%input_amounts_Ok; [|done].
  destruct (default (0, 0) pool_value) as [consumed produced]. cbn [snd] in Hprod.
  apply not_panic_bind; [apply not_panic_ok_or|]. intros avail _.
  unfold check_transaction_output_values. rewrite u64_sum_total; [|apply Forall_fmap; eapply Forall_impl; [exact Ho|]|done].
  2: { intros o [? _]. simpl. lia. }
  cbn [mbind outcome_bind]. apply not_panic_bind.
  { apply not_panic_bind; [apply not_panic_ok_or|]. intros sp _. apply not_panic_then; [apply not_panic_reject|by intros _]. }
  intros tout Hv. apply bind_Ok in Hv as (sp & Hsp%ok_or_Ok & Hv). apply checked_add_Some in Hsp as [-> _].
  apply then_Ok in Hv as (Hge%reject_if_Ok & Heq). apply Z.ltb_ge in Hge. injection Heq as <-.
  apply not_panic_bind.
  { unfold u64_sub. rewrite (proj2 (Z.leb_le _ _)) by lia. cbn [mbind outcome_bind]. by rewrite (proj2 (Z.leb_le _ _)) by lia. }
  intros fee _. apply not_panic_then; [destruct flags; [by apply mass_commitment_total..|done]|]. intros _.
  apply not_panic_then. { apply sequence_lock_spec; [done|]. eapply Forall_impl; [exact He|]. by intros e []. } intros _.
  apply not_panic_then; [done|]. intros _. apply not_panic_bind.
  { apply not_panic_map_err. destruct (from_tx_decides ptx Hlen) as [(_ & ctx & gen & -> & _)|(_ & e & ->)]; done. }
  intros ctx _. apply not_panic_then; [destruct flags; [by apply scripts_total|done|by apply scripts_total]|]. by intros _.
Qed.
(** ** Replay *)

(** What was fully validated is accepted again, with the same fee, at any later score by
    the replay that skips scripts. *)
Lemma validate_populated_replay ptx pov pov' acc acc' pool_value fee :
  length (entries ptx) = length (inputs (pop_tx ptx)) →
  Forall entry_wf (entries ptx) → 0 ≤ pov ≤ pov' → pov' < 2 ^ 62 →
  validate_populated_transaction_and_get_fee self ptx pov Full None acc pool_value = Ok fee →
  validate_populated_transaction_and_get_fee self ptx pov' SkipScriptChecks None acc' pool_value = Ok fee.
Proof.
  intros Hlen He Hle Hb. unfold validate_populated_transaction_and_get_fee.
  rewrite !then_Ok, !bind_Ok. intros (Hmat & tin & Hin & Hv). split.
  { revert Hmat. apply try_foldi_unit_mono. intros i [inp e] _. unfold maturity_step, is_immature. cbn [snd fst].
    destruct (entry_is_coinbase e); [|done]. destruct (u64_add _ _) as [s| |]; cbn [mbind outcome_bind]; [|done..].
    rewrite !reject_if_Ok, !Z.ltb_ge. lia. }
  exists tin. split; [done|]. revert Hv. destruct (default (0, 0) pool_value) as [consumed produced].
  rewrite !bind_Ok. intros (av & Hav & Hv). exists av. split; [done|]. revert Hv. rewrite !bind_Ok.
  intros (tout & Hout & Hv). exists tout. split; [done|]. revert Hv. rewrite !(bind_Ok _ (_ ← _; _)).
  intros (f & Hf & Hv). exists f. split; [done|]. revert Hv. rewrite !then_Ok, !bind_Ok.
  intros (Hm & Hseq & _ & ctx & Hctx & Hv). split; [done|]. split.
  { assert (Hsc : Forall (λ e, 0 ≤ block_daa_score e < 2 ^ 62) (entries ptx)).
    { eapply Forall_impl; [exact He|]. by intros e []. }
    apply sequence_lock_spec in Hseq; [|lia|done]. apply sequence_lock_spec; [lia|done|].
    eapply Forall_impl; [exact Hseq|]. intros ie [?|?]; [by left|right; lia]. }
  split; [done|]. exists ctx. split; [done|]. apply then_Ok in Hv as [_ Hv]. by rewrite then_Ok.
Qed.
End utxo_spec.

(** ** A validator and its transactions *)
#[local] Existing Instance pad_hashers.
#[local] Existing Instance demo_anchor_hashers.
#[local] Existing Instance demo_oracle.
#[local] Existing Instance demo_decoder.
#[local] Instance demo_payload_decoder : PayloadDecoder := { decode_payload := λ _, None }.
#[local] Instance demo_engine : ScriptEngine := {
  TxScriptError := unit; SeqCommitAccessor := unit; Feerate := Z;
  vm_execute := λ _ _ i _ _ _ _ _, if bool_decide (signature_script i = []) then Err tt else Ok tt;
  feerate_at_most := λ fee mass t, fee <? mass * t }.
Definition demo_validator : TransactionValidator :=
  {| max_tx_inputs := 10; max_tx_outputs := 10; max_signature_script_len := 100;
     max_script_public_key_len := 100; tv_coinbase_payload_script_public_key_max_len := 150;
     coinbase_maturity := 20; ghostdag_k := 18; wide_lanes_activation := always;
     mass_per_sig_op := 1000; finality_anchor_params := demo_params;
     mass_calculator := {| mass_per_tx_byte := 1; mass_per_script_pub_key_byte := 10;
                           storage_mass_parameter := 0 |} |}.
Definition demo_ptx : PopulatedTransaction :=
  mk_populated (demo_tx [1] 0) [mk_utxo 120 demo_spk 44 true None].

Lemma isolation_decides_witness :
  validate_tx_in_isolation (X := unit) demo_validator (demo_tx [1] 0) 100 = Ok tt ∧
  isolation_valid demo_validator (demo_tx [1] 0) 100.
Proof.
  split; [reflexivity|]. apply (isolation_decides (X := unit) demo_validator (demo_tx [1] 0) 100);
    [|reflexivity]. repeat constructor; done.
Defined.

Lemma sequence_lock_exact_witness :
  check_sequence_lock demo_ptx 53 = Ok tt.
Proof.
  apply (sequence_lock_exact demo_ptx 53); [lia| |].
  - apply Forall_singleton. cbn. lia.
  - apply Forall_singleton. right. vm_compute. discriminate.
Defined.

Lemma accepted_tx_conserves_witness :
  validate_populated_transaction_and_get_fee demo_validator demo_ptx 64 Full None None (Some (0, 5)) = Ok 15 ∧
  Forall (mature demo_validator 64) (entries demo_ptx).
Proof.
  split; [reflexivity|].
  apply (accepted_tx_conserves demo_validator demo_ptx 64 Full None None (Some (0, 5)) 15); reflexivity.
Defined.
