(* ===== verification/BodyValidation.v ===== *)
(** * Block bodies in isolation

    [consensus/src/pipeline/body_processor/body_validation_in_isolation.rs], with the
    block and header data, the block-level errors and the mass limits it uses.  The
    theorem gives the rules as one statement; what it implies about a block, that its
    transactions are independent of each other, is what the virtual processor relies
    on. *)

From S2P Require Import Prelude Transaction NotePool PoolHashing PoolValidate Params TxHashing TxBinding Merkle Mass Coinbase FinalityAnchor AnchorState Covenants TxValidation.

(** ** Headers and blocks *)
Record Header := mk_header {
  header_hash : Hash;
  header_version : Z;
  parents_by_level : list (list Hash);
  hash_merkle_root : Hash;
  accepted_id_merkle_root : Hash;
  utxo_commitment : Hash;
  pool_commitment : Hash;
  timestamp : Z;
  bits : Z;
  nonce : Z;
  header_daa_score : Z;
  header_blue_work : Z;
  header_blue_score : Z;
  pruning_point : Hash }.
Record Block := mk_block { header : Header; transactions : list Transaction }.

Inductive RuleError (TxScriptError : Type) :=
  | WrongBlockVersion (got expected : Z)
  | TimeTooFarIntoTheFuture (got limit : Z)
  | NoParents
  | TooManyParents (got limit : nat)
  | OriginParent
  | InvalidParentsRelation (a b : Hash)
  | InvalidParent (p : Hash)
  | MissingParents (ps : list Hash)
  | PruningViolation (p : Hash)
  | UnexpectedHeaderDaaScore (expected got : Z)
  | UnexpectedHeaderBlueScore (expected got : Z)
  | UnexpectedHeaderBlueWork (expected got : Z)
  | UnexpectedDifficulty (h : Hash) (got expected : Z)
  | TimeTooOld (got expected : Z)
  | KnownInvalid
  | MergeSetTooBig (got limit : Z)
  | ViolatingBoundedMergeDepth
  | BadMerkleRoot (indicated calculated : Hash)
  | NoTransactions
  | FirstTxNotCoinbase
  | MultipleCoinbases (i : nat)
  | BadCoinbasePayload (e : CoinbaseError)
  | BadCoinbasePayloadBlueScore (got expected : Z)
  | TxInIsolationValidationFailed (i : TransactionId) (e : TxRuleError TxScriptError)
  | ExceedsComputeMassLimit (got limit : Z)
  | ExceedsTransientMassLimit (got limit : Z)
  | ExceedsStorageMassLimit (got limit : Z)
  | ExceedsLanesPerBlockLimit (got limit : nat)
  | ExceedsGasPerLaneLimit (lane : SubnetworkId) (got limit : Z)
  | DoubleSpendInSameBlock (op : TransactionOutpoint)
  | DoubleSerialSpendInSameBlock (sn : Hash)
  | ChainedTransaction (op : TransactionOutpoint)
  | TxInContextFailed (i : TransactionId) (e : TxRuleError TxScriptError)
  | WrongSubsidy (expected got : Z)
  | DuplicateTransactions (i : TransactionId)
  | InvalidPoW
  | WrongHeaderPruningPoint (expected got : Hash)
  | WrongSelectedParentOrder (h selected first : Hash)
  | UnexpectedIndirectParents (expected got : list (list Hash))
  | BadUTXOCommitment (h indicated calculated : Hash)
  | BadPoolCommitment (h indicated calculated : Hash)
  | BadAcceptedIDMerkleRoot (h indicated calculated : Hash)
  | BadCoinbaseTransaction
  | InvalidTransactionsInUtxoContext (invalid total : nat)
  | InvalidTransactionsInNewBlock (m : list (TransactionId * TxRuleError TxScriptError))
  | InsufficientDaaWindowSize (n : nat)
  | PrunedBlock.
Arguments WrongBlockVersion {_} _ _.
Arguments TimeTooFarIntoTheFuture {_} _ _.
Arguments NoParents {_}.
Arguments TooManyParents {_} _ _.
Arguments OriginParent {_}.
Arguments InvalidParentsRelation {_} _ _.
Arguments InvalidParent {_} _.
Arguments MissingParents {_} _.
Arguments PruningViolation {_} _.
Arguments UnexpectedHeaderDaaScore {_} _ _.
Arguments UnexpectedHeaderBlueScore {_} _ _.
Arguments UnexpectedHeaderBlueWork {_} _ _.
Arguments UnexpectedDifficulty {_} _ _ _.
Arguments TimeTooOld {_} _ _.
Arguments KnownInvalid {_}.
Arguments MergeSetTooBig {_} _ _.
Arguments ViolatingBoundedMergeDepth {_}.
Arguments BadMerkleRoot {_} _ _.
Arguments NoTransactions {_}.
Arguments FirstTxNotCoinbase {_}.
Arguments MultipleCoinbases {_} _.
Arguments BadCoinbasePayload {_} _.
Arguments BadCoinbasePayloadBlueScore {_} _ _.
Arguments TxInIsolationValidationFailed {_} _ _.
Arguments ExceedsComputeMassLimit {_} _ _.
Arguments ExceedsTransientMassLimit {_} _ _.
Arguments ExceedsStorageMassLimit {_} _ _.
Arguments ExceedsLanesPerBlockLimit {_} _ _.
Arguments ExceedsGasPerLaneLimit {_} _ _ _.
Arguments DoubleSpendInSameBlock {_} _.
Arguments DoubleSerialSpendInSameBlock {_} _.
Arguments ChainedTransaction {_} _.
Arguments TxInContextFailed {_} _ _.
Arguments WrongSubsidy {_} _ _.
Arguments DuplicateTransactions {_} _.
Arguments InvalidPoW {_}.
Arguments WrongHeaderPruningPoint {_} _ _.
Arguments WrongSelectedParentOrder {_} _ _ _.
Arguments UnexpectedIndirectParents {_} _ _.
Arguments BadUTXOCommitment {_} _ _ _.
Arguments BadPoolCommitment {_} _ _ _.
Arguments BadAcceptedIDMerkleRoot {_} _ _ _.
Arguments BadCoinbaseTransaction {_}.
Arguments InvalidTransactionsInUtxoContext {_} _ _.
Arguments InvalidTransactionsInNewBlock {_} _.
Arguments InsufficientDaaWindowSize {_} _.
Arguments PrunedBlock {_}.

(** ** Mass limits ([core/src/mass/mod.rs]) *)
Record BlockMassLimits := mk_mass_limits {
  limit_storage : Z; limit_compute : Z; limit_transient : Z }.
Record BlockLaneLimits := mk_lane_limits { lanes_per_block : nat; gas_per_lane : Z }.
Record ContextualMasses := mk_contextual { contextual_storage_mass : Z }.
Record Mass := mk_mass { non_contextual : NonContextualMasses; contextual : ContextualMasses }.

Record BlockBodyProcessor := {
  bp_validator : TransactionValidator;
  bp_mass_calculator : MassCalculator;
  block_mass_limits : BlockMassLimits;
  block_lane_limits : BlockLaneLimits }.

Section body.
Context `{PayloadDecoder} `{AnchorDecoder} `{AnchorHashers} `{SchnorrOracle} {X : Type}.
Context `{MerkleHasher} `{TxHashers} (self : BlockBodyProcessor).
Implicit Types (b : Block).
Abbreviation E := (RuleError X) (only parsing).

Definition check_has_transactions b : outcome E unit :=
  reject_if (bool_decide (transactions b = [])) NoTransactions.

Definition check_hash_merkle_root b : outcome E unit :=
  calculated ← calc_hash_merkle_root (transactions b);
  reject_if (negb (bool_decide (calculated = hash_merkle_root (header b))))
    (BadMerkleRoot (hash_merkle_root (header b)) calculated).

Definition check_only_one_coinbase b : outcome E unit :=
  first ← unwrap (transactions b !! 0%nat);
  reject_if (negb (is_coinbase first)) FirstTxNotCoinbase;;
  reject_found (position is_coinbase (tail (transactions b))) MultipleCoinbases.

Definition check_transactions_in_isolation b : outcome E unit :=
  try_fold (λ (_ : unit) tx,
    map_err (TxInIsolationValidationFailed (id tx))
      (validate_tx_in_isolation (X := X) (bp_validator self) tx (header_daa_score (header b))))
    tt (transactions b).

(** The gas of the lane just touched. *)
Definition check_lane_gas (lanes : gmap SubnetworkId Z) (lane : SubnetworkId)
    : outcome E (gmap SubnetworkId Z) :=
  g ← unwrap (lanes !! lane);
  reject_if (gas_per_lane (block_lane_limits self) <? g)
    (ExceedsGasPerLaneLimit lane g (gas_per_lane (block_lane_limits self)));;
  Ok lanes.

(** The lane entry of a transaction: its gas added to an occupied lane, or a new lane. *)
Definition lane_step (lanes : gmap SubnetworkId Z) (tx : Transaction) : outcome E (gmap SubnetworkId Z) :=
  if is_coinbase tx then Ok lanes else
  lanes' ← match lanes !! subnetwork_id tx with
           | Some g => Ok (<[subnetwork_id tx := saturating_add g (gas tx)]> lanes)
           | None =>
               reject_if (lanes_per_block (block_lane_limits self) <=? size lanes)%nat
                 (ExceedsLanesPerBlockLimit (size lanes + 1) (lanes_per_block (block_lane_limits self)));;
               Ok (<[subnetwork_id tx := gas tx]> lanes)
           end;
  check_lane_gas lanes' (subnetwork_id tx).

Definition mass_step (st : Z * Z * Z * gmap SubnetworkId Z) (tx : Transaction)
    : outcome E (Z * Z * Z * gmap SubnetworkId Z) :=
  let '(compute, transient, storage, lanes) := st in
  m ← calc_non_contextual_masses (bp_mass_calculator self) tx;
  let compute := saturating_add compute (compute_mass m) in
  let transient := saturating_add transient (transient_mass m) in
  let storage := saturating_add storage (storage_mass tx) in
  let limits := block_mass_limits self in
  reject_if (limit_compute limits <? compute) (ExceedsComputeMassLimit compute (limit_compute limits));;
  reject_if (limit_transient limits <? transient)
    (ExceedsTransientMassLimit transient (limit_transient limits));;
  reject_if (limit_storage limits <? storage) (ExceedsStorageMassLimit storage (limit_storage limits));;
  lanes ← lane_step lanes tx;
  Ok (compute, transient, storage, lanes).

Definition check_block_mass b : outcome E Mass :=
  st ← try_fold mass_step (0, 0, 0, ∅) (transactions b);
  let '(compute, transient, storage, _) := st in
  Ok (mk_mass (mk_non_contextual compute transient) (mk_contextual storage)).

(** [if !existing.insert(x) { return Err(..) }]. *)
Definition insert_new {A} `{Countable A} (e : A → E) (existing : gset A) (x : A) : outcome E (gset A) :=
  reject_if (bool_decide (x ∈ existing)) (e x);;
  Ok ({[x]} ∪ existing).
Definition check_distinct {A} `{Countable A} (e : A → E) (l : list A) : outcome E unit :=
  try_fold (insert_new e) ∅ l;; Ok tt.

Definition block_inputs b : list TransactionOutpoint :=
  flat_map (λ tx, previous_outpoint <$> inputs tx) (transactions b).
Definition block_serials b : list Hash :=
  flat_map (λ tx, match decode_payload (payload tx) with
                  | Some op => consumed_serials op
                  | None => []
                  end)
    (filter (λ tx, subnetwork_id tx = SUBNETWORK_ID_NOTE_POOL) (transactions b)).
Definition block_created b : list TransactionOutpoint :=
  flat_map (λ tx, (λ i, mk_outpoint (id tx) (Z.of_nat i mod 2 ^ 32)) <$> seq 0 (length (outputs tx)))
    (transactions b).

Definition check_block_double_spends b : outcome E unit :=
  check_distinct DoubleSpendInSameBlock (block_inputs b).
Definition check_block_double_serials b : outcome E unit :=
  check_distinct DoubleSerialSpendInSameBlock (block_serials b).
Definition check_duplicate_transactions b : outcome E unit :=
  check_distinct DuplicateTransactions (id <$> transactions b).
Definition check_no_chained_transactions b : outcome E unit :=
  let block_created_outpoints : gset TransactionOutpoint := list_to_set (block_created b) in
  try_fold (λ (_ : unit) op,
    reject_if (bool_decide (op ∈ block_created_outpoints)) (ChainedTransaction op)) tt (block_inputs b).

Definition validate_body_in_isolation b : outcome E Mass :=
  check_has_transactions b;;
  check_hash_merkle_root b;;
  check_only_one_coinbase b;;
  check_transactions_in_isolation b;;
  mass ← check_block_mass b;
  check_duplicate_transactions b;;
  check_block_double_spends b;;
  check_block_double_serials b;;
  check_no_chained_transactions b;;
  Ok mass.
End body.

(** ** Distinctness *)
Lemma insert_new_fold {X A} `{Countable A} (e : A → RuleError X) l (s : gset A) :
  (∃ r, try_fold (insert_new e) s l = Ok r) ↔ NoDup l ∧ ∀ x, x ∈ l → x ∉ s.
Proof.
  revert s. induction l as [|x l IH]; intros s; cbn [try_fold].
  { split; [|by eexists]. intros _. split; [constructor|]. by intros x ?%elem_of_nil. }
  unfold insert_new at 1. rewrite NoDup_cons.
  assert (Hst : insert_new e s x = if decide (x ∈ s) then Err (e x) else Ok ({[x]} ∪ s)).
  { unfold insert_new. destruct (decide (x ∈ s));
      [by rewrite bool_decide_eq_true_2|by rewrite bool_decide_eq_false_2]. }
  fold (insert_new e). rewrite Hst. destruct (decide (x ∈ s)) as [Hin|Hin]; cbn [mbind outcome_bind].
  { split; [by intros [? ?]|]. intros [_ Hs]. by destruct (Hs x ltac:(by left)). }
  rewrite IH. split.
  - intros [Hnd Hs]. split; [split; [|done]|].
    + intros Hx. specialize (Hs x Hx). set_solver.
    + intros y [->|Hy]%elem_of_cons; [done|]. specialize (Hs y Hy). set_solver.
  - intros [[Hne Hnd] Hs]. split; [done|]. intros y Hy.
    assert (y ≠ x) by (by intros ->). assert (y ∉ s) by (apply Hs; by right). set_solver.
Qed.

Lemma check_distinct_Ok {X A} `{Countable A} (e : A → RuleError X) l :
  check_distinct e l = Ok tt ↔ NoDup l.
Proof.
  unfold check_distinct. pose proof (insert_new_fold e l ∅) as Hf.
  assert (He : NoDup l ↔ ∃ r, try_fold (insert_new e) ∅ l = Ok r).
  { rewrite Hf. split; [|tauto]. intros Hn. split; [done|]. set_solver. }
  rewrite He. destruct (try_fold _ ∅ l); cbn; naive_solver.
Qed.

(** ** Mass *)
Definition sat_sum (l : list Z) : Z := Z.min (Zsum l) u64_max.

Lemma sat_sum_snoc l x :
  Forall (λ y, 0 ≤ y) l → 0 ≤ x → saturating_add (sat_sum l) x = sat_sum (l ++ [x]).
Proof.
  intros Hl Hx. pose proof (Zsum_nonneg l Hl). unfold saturating_add, sat_sum.
  rewrite Zsum_app. change (Zsum [x]) with (x + 0). lia.
Qed.
Lemma sat_sum_mono l x : 0 ≤ x → sat_sum l ≤ sat_sum (l ++ [x]).
Proof. intros Hx. unfold sat_sum. rewrite Zsum_app. change (Zsum [x]) with (x + 0). lia. Qed.

Definition lane_ids (txs : list Transaction) : gset SubnetworkId :=
  list_to_set (subnetwork_id <$> filter (λ tx, is_coinbase tx = false) txs).
Definition lane_gas (txs : list Transaction) (lane : SubnetworkId) : Z :=
  sat_sum (gas <$> filter (λ tx, is_coinbase tx = false ∧ subnetwork_id tx = lane) txs).

Section mass.
Context `{PayloadDecoder} {X : Type} (self : BlockBodyProcessor).
Context (masses : Transaction → NonContextualMasses).

(** What the fields of a transaction hold as unsigned integers. *)
Definition tx_unsigned (tx : Transaction) : Prop :=
  0 ≤ storage_mass tx ∧ 0 ≤ gas tx ∧ 0 ≤ compute_mass (masses tx) ∧ 0 ≤ transient_mass (masses tx) ∧
  Forall (λ o, 0 ≤ value o) (outputs tx).

Record within_mass (txs : list Transaction) : Prop := {
  wm_compute : sat_sum ((compute_mass ∘ masses) <$> txs) ≤ limit_compute (block_mass_limits self);
  wm_transient : sat_sum ((transient_mass ∘ masses) <$> txs) ≤ limit_transient (block_mass_limits self);
  wm_storage : sat_sum (storage_mass <$> txs) ≤ limit_storage (block_mass_limits self) }.
Record within_lanes (txs : list Transaction) : Prop := {
  wl_lanes : (size (lane_ids txs) ≤ lanes_per_block (block_lane_limits self))%nat;
  wl_gas : ∀ lane, lane ∈ lane_ids txs → lane_gas txs lane ≤ gas_per_lane (block_lane_limits self) }.

Definition lanes_are (txs : list Transaction) (m : gmap SubnetworkId Z) : Prop :=
  ∀ lane, m !! lane = if decide (lane ∈ lane_ids txs) then Some (lane_gas txs lane) else None.

Lemma lanes_are_size txs m : lanes_are txs m → size m = size (lane_ids txs).
Proof.
  intros Hm. rewrite <- size_dom. f_equal. apply set_eq. intros lane. rewrite elem_of_dom, Hm.
  case_decide; [split; [done|by eexists]|]. split; [by intros [? ?]|done].
Qed.

Lemma lane_ids_snoc txs tx :
  lane_ids (txs ++ [tx]) = if is_coinbase tx then lane_ids txs else {[subnetwork_id tx]} ∪ lane_ids txs.
Proof.
  unfold lane_ids. rewrite filter_app, filter_cons, filter_nil.
  destruct (is_coinbase tx); [rewrite decide_False by done|rewrite decide_True by done];
    [by rewrite app_nil_r|]. rewrite fmap_app, list_to_set_app_L. set_solver.
Qed.

Lemma lane_gas_snoc txs tx lane :
  lane_gas (txs ++ [tx]) lane =
    if decide (is_coinbase tx = false ∧ subnetwork_id tx = lane)
    then sat_sum ((gas <$> filter (λ tx, is_coinbase tx = false ∧ subnetwork_id tx = lane) txs) ++ [gas tx])
    else lane_gas txs lane.
Proof.
  unfold lane_gas. rewrite filter_app, filter_cons, filter_nil. case_decide;
    [by rewrite fmap_app|by rewrite app_nil_r].
Qed.

Lemma lane_gas_fresh txs lane : lane ∉ lane_ids txs → lane_gas txs lane = 0.
Proof.
  intros Hl. unfold lane_gas. replace (filter _ txs) with (@nil Transaction); [done|]. symmetry.
  apply elem_of_nil_inv. intros tx [[Hc Hs] Htx]%list_elem_of_filter. apply Hl.
  apply elem_of_list_to_set, list_elem_of_fmap. exists tx. split; [done|]. by apply list_elem_of_filter.
Qed.

Lemma lane_filter_nonneg txs lane :
  Forall (λ tx, 0 ≤ gas tx) txs →
  Forall (λ y, 0 ≤ y) (gas <$> filter (λ tx, is_coinbase tx = false ∧ subnetwork_id tx = lane) txs).
Proof.
  rewrite Forall_forall. intros Hf. apply Forall_fmap, Forall_forall.
  intros tx [_ ?]%list_elem_of_filter. by apply Hf.
Qed.

Lemma lanes_are_snoc txs m tx :
  lanes_are txs m → is_coinbase tx = false →
  lanes_are (txs ++ [tx]) (<[subnetwork_id tx := lane_gas (txs ++ [tx]) (subnetwork_id tx)]> m).
Proof.
  intros Hm Hcb l. rewrite lane_ids_snoc, Hcb. destruct (decide (l = subnetwork_id tx)) as [->|Hne].
  - rewrite lookup_insert_eq, decide_True by set_solver. done.
  - rewrite lookup_insert_ne, Hm by done. rewrite lane_gas_snoc.
    rewrite (decide_False (P := is_coinbase tx = false ∧ _)) by (intros [_ ?]; congruence).
    destruct (decide (l ∈ lane_ids txs)); [by rewrite decide_True by set_solver|].
    by rewrite decide_False by set_solver.
Qed.

Definition lane_verdict (txs : list Transaction) (o : outcome (RuleError X) (gmap SubnetworkId Z)) : Prop :=
  (∃ m, o = Ok m ∧ lanes_are txs m ∧ within_lanes txs) ∨ (∃ e, o = Err e ∧ ¬ within_lanes txs).

Lemma check_lane_gas_spec txs m tx :
  lanes_are txs m → within_lanes txs → is_coinbase tx = false →
  (size (lane_ids (txs ++ [tx])) ≤ lanes_per_block (block_lane_limits self))%nat →
  lane_verdict (txs ++ [tx]) (check_lane_gas self
    (<[subnetwork_id tx := lane_gas (txs ++ [tx]) (subnetwork_id tx)]> m) (subnetwork_id tx)).
Proof.
  intros Hm [_ Hwg] Hcb Hs. unfold check_lane_gas. rewrite lookup_insert_eq. cbn [unwrap mbind outcome_bind].
  set (lane := subnetwork_id tx).
  destruct (Z.ltb_spec (gas_per_lane (block_lane_limits self)) (lane_gas (txs ++ [tx]) lane)) as [Hlt|Hle].
  - right. eexists. split; [done|]. intros [_ Hw]. specialize (Hw lane). rewrite lane_ids_snoc, Hcb in Hw.
    specialize (Hw ltac:(set_solver)). lia.
  - left. eexists. split; [done|]. split; [by apply lanes_are_snoc|]. split; [done|]. intros l Hl.
    destruct (decide (l = lane)) as [->|Hne]; [done|]. rewrite lane_gas_snoc, decide_False by (intros [_ ?]; done).
    apply Hwg. rewrite lane_ids_snoc, Hcb in Hl. set_solver.
Qed.

(** One transaction's lane entry, against what all transactions so far demand. *)
Lemma lane_step_spec txs m tx :
  lanes_are txs m → within_lanes txs → Forall (λ tx, 0 ≤ gas tx) txs → 0 ≤ gas tx ≤ u64_max →
  lane_verdict (txs ++ [tx]) (lane_step self m tx).
Proof.
  intros Hm Hw Hnn Hg. unfold lane_step. pose proof (lanes_are_size txs m Hm) as Hsize.
  destruct (is_coinbase tx) eqn:Hcb.
  { left. exists m. split; [done|]. destruct Hw as [Hwl Hwg]. split.
    - intros lane. rewrite lane_gas_snoc,
        (decide_False (P := is_coinbase tx = false ∧ _)) by (rewrite Hcb; by intros [? ?]).
      by rewrite lane_ids_snoc, Hcb.
    - split; [by rewrite lane_ids_snoc, Hcb|]. intros lane. rewrite lane_ids_snoc, Hcb, lane_gas_snoc.
      rewrite decide_False by (rewrite ?Hcb; by intros [? ?]). auto. }
  pose proof (check_lane_gas_spec txs m tx Hm Hw Hcb) as Hgas. revert Hgas.
  rewrite Hm. set (lane := subnetwork_id tx) in *.
  assert (Hnew : lane_gas (txs ++ [tx]) lane = saturating_add (lane_gas txs lane) (gas tx)).
  { rewrite lane_gas_snoc, decide_True by done. unfold lane_gas. symmetry. apply sat_sum_snoc; [|lia].
    by apply lane_filter_nonneg. }
  destruct (decide (lane ∈ lane_ids txs)) as [Hin|Hnin]; cbn [mbind outcome_bind]; intros Hgas.
  - rewrite <- Hnew. apply Hgas. rewrite lane_ids_snoc, Hcb. fold lane.
    replace ({[lane]} ∪ lane_ids txs) with (lane_ids txs) by set_solver. apply Hw.
  - rewrite Hsize. assert (Hs : size (lane_ids (txs ++ [tx])) = S (size (lane_ids txs))).
    { rewrite lane_ids_snoc, Hcb, size_union, size_singleton by set_solver. done. }
    destruct (Nat.leb_spec (lanes_per_block (block_lane_limits self)) (size (lane_ids txs))) as [Hle|Hlt].
    + right. eexists. split; [done|]. intros [Hw' _]. lia.
    + cbn [reject_if mbind outcome_bind]. replace (gas tx) with (lane_gas (txs ++ [tx]) lane);
        [apply Hgas; lia|].
      rewrite Hnew, lane_gas_fresh by done. unfold saturating_add. lia.
Qed.

Definition totals (txs : list Transaction) : Z * Z * Z :=
  (sat_sum ((compute_mass ∘ masses) <$> txs), sat_sum ((transient_mass ∘ masses) <$> txs),
   sat_sum (storage_mass <$> txs)).

Definition charged (tx : Transaction) : Prop :=
  calc_non_contextual_masses (E := RuleError X) (bp_mass_calculator self) tx = Ok (masses tx) ∧
  tx_unsigned tx ∧ gas tx ≤ u64_max.

Lemma within_mono txs tx :
  tx_unsigned tx → within_mass (txs ++ [tx]) → within_mass txs.
Proof.
  intros (H1 & _ & H2 & H3 & _) [Hc Ht Hs]. rewrite fmap_app in Hc, Ht, Hs. cbn [fmap list_fmap] in *.
  split; (eapply Z.le_trans; [|eassumption]; apply sat_sum_mono; assumption).
Qed.
Lemma within_lanes_mono txs tx :
  0 ≤ gas tx → within_lanes (txs ++ [tx]) → within_lanes txs.
Proof.
  intros Hg [Hl Hw]. rewrite lane_ids_snoc in Hl, Hw.
  assert (Hsub : lane_ids txs ⊆ if is_coinbase tx then lane_ids txs else {[subnetwork_id tx]} ∪ lane_ids txs)
    by (destruct (is_coinbase tx); set_solver).
  split; [etrans; [by apply subseteq_size|done]|]. intros lane Hin. etrans; [|apply Hw; by apply Hsub].
  rewrite lane_gas_snoc. case_decide; [|done]. by apply sat_sum_mono.
Qed.

Lemma sat_snoc (f : Transaction → Z) txs tx :
  Forall (λ tx, 0 ≤ f tx) txs → 0 ≤ f tx →
  saturating_add (sat_sum (f <$> txs)) (f tx) = sat_sum (f <$> txs ++ [tx]).
Proof. intros Hl Hx. rewrite fmap_app. apply sat_sum_snoc; [|done]. by apply Forall_fmap. Qed.

Definition mass_verdict (txs : list Transaction)
    (o : outcome (RuleError X) (Z * Z * Z * gmap SubnetworkId Z)) : Prop :=
  (∃ m, o = Ok (totals txs, m) ∧ lanes_are txs m ∧ within_mass txs ∧ within_lanes txs) ∨
  (∃ e, o = Err e ∧ ¬ (within_mass txs ∧ within_lanes txs)).

Lemma mass_step_spec txs tx m :
  Forall charged (txs ++ [tx]) → lanes_are txs m → within_lanes txs →
  mass_verdict (txs ++ [tx]) (mass_step self (totals txs, m) tx).
Proof.
  intros [Hl [(Hmass & (Hs & Hg & Hc & Ht & _) & Hgm) _]%Forall_cons]%Forall_app Hm Hw.
  assert (Hall : ∀ f : Transaction → Z, (∀ tx, tx_unsigned tx → 0 ≤ f tx) → Forall (λ tx, 0 ≤ f tx) txs).
  { intros f Hf. eapply Forall_impl; [exact Hl|]. intros t (_ & ? & _). by apply Hf. }
  unfold mass_step, totals. rewrite Hmass. cbn [mbind outcome_bind].
  change (compute_mass (masses tx)) with ((compute_mass ∘ masses) tx) in *.
  change (transient_mass (masses tx)) with ((transient_mass ∘ masses) tx) in *.
  rewrite (sat_snoc storage_mass), (sat_snoc (compute_mass ∘ masses)), (sat_snoc (transient_mass ∘ masses))
    by (done || (apply Hall; by intros t (?&?&?&?&?))).
  set (c := sat_sum ((compute_mass ∘ masses) <$> txs ++ [tx])).
  set (t := sat_sum ((transient_mass ∘ masses) <$> txs ++ [tx])). set (s := sat_sum (storage_mass <$> txs ++ [tx])).
  destruct (Z.ltb_spec (limit_compute (block_mass_limits self)) c) as [Hx|Hx1].
  { right. eexists. split; [done|]. intros [[Hw' _ _] _]. fold c in Hw'. lia. }
  destruct (Z.ltb_spec (limit_transient (block_mass_limits self)) t) as [Hx|Hx2].
  { right. eexists. split; [done|]. intros [[_ Hw' _] _]. fold t in Hw'. lia. }
  destruct (Z.ltb_spec (limit_storage (block_mass_limits self)) s) as [Hx|Hx3].
  { right. eexists. split; [done|]. intros [[_ _ Hw'] _]. fold s in Hw'. lia. }
  cbn [reject_if mbind outcome_bind].
  destruct (lane_step_spec txs m tx Hm Hw) as [(m' & -> & Hm' & Hw')|(e & -> & Hn)].
  - apply Hall. by intros x (?&?&?&?&?).
  - done.
  - left. exists m'. split; [done|]. split; [done|]. split; [by split|done].
  - right. eexists. split; [done|]. by intros [_ ?].
Qed.

Lemma mass_loop txs :
  0 ≤ limit_compute (block_mass_limits self) → 0 ≤ limit_transient (block_mass_limits self) →
  0 ≤ limit_storage (block_mass_limits self) → Forall charged txs →
  mass_verdict txs (try_fold (mass_step self) (0, 0, 0, ∅) txs).
Proof.
  intros Hlc Hlt Hls. induction txs as [|tx txs IH] using rev_ind; intros Hch.
  { left. exists ∅. split; [done|]. split; [intros lane; by rewrite lookup_empty, decide_False by set_solver|].
    split; [by split|]. assert (He : lane_ids [] = ∅) by done.
    split; [rewrite He, size_empty; lia|rewrite He; set_solver]. }
  pose proof Hch as [Hl [(_ & Hu & Hgm) _]%Forall_cons]%Forall_app.
  rewrite try_fold_app. destruct (IH Hl) as [(m & -> & Hm & Hwm & Hwl)|(e & -> & Hn)]; cbn [mbind outcome_bind].
  - cbn [try_fold]. pose proof (mass_step_spec txs tx m Hch Hm Hwl) as Hv.
    by destruct (mass_step self (totals txs, m) tx).
  - right. exists e. split; [done|]. intros [H1 H2]. apply Hn. split; [by eapply within_mono|].
    eapply within_lanes_mono; [|done]. apply Hu.
Qed.
End mass.

(** ** The rules of a body *)
Section decides.
Context `{PayloadDecoder} `{AnchorDecoder} `{AnchorHashers} `{SchnorrOracle} {X : Type}.
Context `{MerkleHasher} `{TxHashers} (self : BlockBodyProcessor).
Context (masses : Transaction → NonContextualMasses).
Implicit Types (b : Block).

(** The transactions of a block depend on nothing the block itself changes. *)
Record independent b : Prop := {
  in_ids : NoDup (id <$> transactions b);
  in_inputs : NoDup (block_inputs b);
  in_serials : NoDup (block_serials b);
  in_unchained : ∀ op, op ∈ block_inputs b → op ∉ block_created b }.

Record body_valid b : Prop := {
  bv_root : merkle_root (tx_hash <$> transactions b) = hash_merkle_root (header b);
  bv_coinbase : ∃ cb txs, transactions b = cb :: txs ∧ is_coinbase cb = true ∧
    Forall (λ tx, is_coinbase tx = false) txs;
  bv_isolation : Forall (λ tx, isolation_valid (bp_validator self) tx (header_daa_score (header b)))
    (transactions b);
  bv_mass : within_mass self masses (transactions b);
  bv_lanes : within_lanes self (transactions b);
  bv_independent : independent b }.

Lemma only_one_coinbase_Ok b :
  transactions b ≠ [] →
  check_only_one_coinbase (X := X) b = Ok tt ↔
    ∃ cb txs, transactions b = cb :: txs ∧ is_coinbase cb = true ∧
      Forall (λ tx, is_coinbase tx = false) txs.
Proof.
  intros Hne. unfold check_only_one_coinbase. destruct (transactions b) as [|cb txs]; [done|].
  cbn [lookup list_lookup unwrap mbind outcome_bind tail].
  rewrite then_Ok, reject_if_Ok, negb_false_iff, reject_position_Ok. naive_solver.
Qed.

Lemma transactions_in_isolation_Ok b :
  Forall (tx_unsigned masses) (transactions b) →
  check_transactions_in_isolation (X := X) self b = Ok tt ↔
    Forall (λ tx, isolation_valid (bp_validator self) tx (header_daa_score (header b))) (transactions b).
Proof.
  unfold check_transactions_in_isolation. induction 1 as [|tx txs (_ & _ & _ & _ & Hv) Htxs IH]; cbn [try_fold].
  { split; [by constructor|done]. }
  rewrite Forall_cons, <- IH, <- (isolation_iff (X := X)) by done.
  destruct (validate_tx_in_isolation (bp_validator self) tx _) as [[]| |]; cbn; naive_solver.
Qed.

Lemma unchained_Ok b :
  check_no_chained_transactions (X := X) b = Ok tt ↔ ∀ op, op ∈ block_inputs b → op ∉ block_created b.
Proof.
  unfold check_no_chained_transactions. cbv zeta. induction (block_inputs b) as [|op ops IH]; cbn [try_fold].
  { split; [|done]. intros _ op Hop. by apply elem_of_nil in Hop. }
  setoid_rewrite elem_of_cons. case_bool_decide as Hin; rewrite elem_of_list_to_set in Hin; cbn [reject_if mbind outcome_bind].
  - split; [done|]. intros Hn. by destruct (Hn op ltac:(by left)).
  - rewrite IH. naive_solver.
Qed.

Lemma hash_merkle_root_Ok b :
  check_hash_merkle_root (X := X) b = Ok tt ↔
    merkle_root (tx_hash <$> transactions b) = hash_merkle_root (header b).
Proof.
  unfold check_hash_merkle_root, calc_hash_merkle_root. rewrite calc_merkle_root_eq.
  cbn [mbind outcome_bind]. by rewrite reject_if_Ok, negb_false_iff, bool_decide_eq_true.
Qed.

Lemma body_iff b m :
  0 ≤ limit_compute (block_mass_limits self) → 0 ≤ limit_transient (block_mass_limits self) →
  0 ≤ limit_storage (block_mass_limits self) →
  Forall (charged (X := X) self masses) (transactions b) →
  validate_body_in_isolation (X := X) self b = Ok m ↔
    body_valid b ∧
    m = mk_mass (mk_non_contextual (totals masses (transactions b)).1.1
                   (totals masses (transactions b)).1.2)
          (mk_contextual (totals masses (transactions b)).2).
Proof.
  intros Hc Ht Hs Hch. pose proof (mass_loop (X := X) self masses (transactions b) Hc Ht Hs Hch) as Hmass.
  unfold validate_body_in_isolation, check_has_transactions, check_duplicate_transactions,
    check_block_double_spends, check_block_double_serials.
  assert (Hu : Forall (tx_unsigned masses) (transactions b)).
  { eapply Forall_impl; [exact Hch|]. by intros tx (_ & ? & _). }
  rewrite !then_Ok, reject_if_Ok, bool_decide_eq_false, hash_merkle_root_Ok, bind_Ok.
  setoid_rewrite then_Ok. setoid_rewrite then_Ok. setoid_rewrite then_Ok. setoid_rewrite then_Ok.
  rewrite transactions_in_isolation_Ok by done.
  setoid_rewrite check_distinct_Ok. setoid_rewrite unchained_Ok. unfold check_block_mass.
  split.
  - intros (Hne & Hroot & Hcb & Hiso & m' & Hm' & Hids & Hin & Hser & Hun & Heq). injection Heq as ->.
    apply only_one_coinbase_Ok in Hcb; [|done].
    destruct Hmass as [(lanes & Hf & Hlanes & Hwm & Hwl)|(e & Hf & _)]; rewrite Hf in Hm'; [|done].
    destruct (totals masses (transactions b)) as [[c t] s] eqn:Htot. cbn in Hm'. injection Hm' as <-.
    split; [|done]. by constructor.
  - intros [[Hroot Hcb Hiso Hwm Hwl [Hids Hin Hser Hun]] ->].
    assert (Hne : transactions b ≠ []) by (destruct Hcb as (? & ? & -> & _); done).
    split; [done|]. split; [done|]. split; [by apply only_one_coinbase_Ok|]. split; [done|].
    destruct Hmass as [(lanes & Hf & Hlanes & _)|(e & _ & Hn)]; [|by destruct Hn].
    rewrite Hf. destruct (totals masses (transactions b)) as [[c t] s]. eexists. by cbn.
Qed.

(** (C11) Body validation decides the rules of a block: with masses that can be computed and
    limits that are unsigned, a body passes exactly when its Merkle root is the header's,
    the first transaction and no other is a coinbase, every transaction is valid in
    isolation at the block's score, the masses, the number of lanes and the gas of every
    lane stay within the limits, and the transactions are independent: distinct ids, no
    outpoint or note serial spent twice, none spent that the block creates; the mass
    returned is the total of each dimension. *)
Theorem body_decides b m :
  0 ≤ limit_compute (block_mass_limits self) → 0 ≤ limit_transient (block_mass_limits self) →
  0 ≤ limit_storage (block_mass_limits self) →
  Forall (charged (X := X) self masses) (transactions b) →
  validate_body_in_isolation (X := X) self b = Ok m ↔
    body_valid b ∧
    m = mk_mass (mk_non_contextual (totals masses (transactions b)).1.1
                   (totals masses (transactions b)).1.2)
          (mk_contextual (totals masses (transactions b)).2).
Proof. apply body_iff. Qed.
End decides.

(** ** A block with a coinbase and a payment *)
#[local] Existing Instance pad_hashers.
#[local] Existing Instance demo_anchor_hashers.
#[local] Existing Instance demo_oracle.
#[local] Existing Instance demo_decoder.
#[local] Existing Instance demo_payload_decoder.
#[local] Existing Instance demo_branch.
Definition demo_coinbase : Transaction :=
  mk_tx 0 [] [mk_output 50 demo_spk None] 0 SUBNETWORK_ID_COINBASE 0 [] 0 [1].
Definition demo_txs : list Transaction := [demo_coinbase; demo_tx [1] 0].
Definition demo_header : Header :=
  {| header_hash := [7]; header_version := 2; parents_by_level := [[[6]]];
     hash_merkle_root := merkle_root (tx_hash <$> demo_txs); accepted_id_merkle_root := [];
     utxo_commitment := []; pool_commitment := []; timestamp := 0; bits := 0; nonce := 0;
     header_daa_score := 64; header_blue_work := 10; header_blue_score := 60; pruning_point := [0] |}.
Definition demo_block : Block := mk_block demo_header demo_txs.
Definition demo_processor : BlockBodyProcessor :=
  {| bp_validator := demo_validator; bp_mass_calculator := mass_calculator demo_validator;
     block_mass_limits := mk_mass_limits 1000 5000 5000; block_lane_limits := mk_lane_limits 4 1000 |}.
Definition demo_masses (tx : Transaction) : NonContextualMasses :=
  match calc_non_contextual_masses (E := unit) (mass_calculator demo_validator) tx with
  | Ok m => m
  | _ => mk_non_contextual 0 0
  end.

Lemma body_decides_witness :
  body_valid demo_processor demo_masses demo_block ∧
  validate_body_in_isolation (X := unit) demo_processor demo_block =
    Ok (mk_mass (mk_non_contextual 711 684) (mk_contextual 0)).
Proof.
  split; [|vm_compute; reflexivity].
  apply (body_decides (X := unit) demo_processor demo_masses demo_block
    (mk_mass (mk_non_contextual 711 684) (mk_contextual 0))); [done|done|done| |vm_compute; reflexivity].
  repeat (apply Forall_cons; split); [..|constructor];
    (split; [vm_compute; reflexivity|]; split; [|by_decide]; unfold tx_unsigned;
     split_and!; [by_decide..|by_decide]).
Defined.
