(* ===== verification/ChainWalk.v ===== *)
(** * The selected chain: iterators, paths and the chain index

    [consensus/src/model/services/reachability.rs] (the backward and forward chain
    iterators over the tree of selected parents), [processes/traversal_manager.rs] (the
    path from one chain to another) and [model/stores/selected_chain.rs] (the index of the
    chain of the sink).  The reachability store is an interface: parent, height, the chain
    ancestor query and the next block on the way to a descendant.  The theorems state that
    the iterators list exactly the blocks of the chain, and that the index follows the
    sink through every reorganisation. *)

From S2P Require Import Prelude Transaction Dag.

(** ** The tree of selected parents *)
Class ChainService := {
  get_chain_parent : Hash → option Hash;
  get_height : Hash → nat;
  chain_ancestor_of : Hash → Hash → bool;
  get_next_chain_ancestor : Hash → Hash → option Hash }.

Section iterators.
Context `{ChainService}.

(** [BackwardChainIterator::next] and [ForwardChainIterator::next]: the item and the next
    [current]. *)
Definition backward_next {E : Type} (ancestor : Hash) (inclusive : bool) (current : option Hash)
    : outcome E (option (Hash * option Hash)) :=
  match current with
  | None => Ok None
  | Some c =>
      if bool_decide (c = ancestor) then Ok (if inclusive then Some (c, None) else None)
      else next ← unwrap (get_chain_parent c); Ok (Some (c, Some next))
  end.
Definition forward_next {E : Type} (descendant : Hash) (inclusive : bool) (current : option Hash)
    : outcome E (option (Hash * option Hash)) :=
  match current with
  | None => Ok None
  | Some c =>
      if bool_decide (c = descendant) then Ok (if inclusive then Some (c, None) else None)
      else next ← unwrap (get_next_chain_ancestor descendant c); Ok (Some (c, Some next))
  end.

(** [collect_vec], one item per unit of [fuel]. *)
Fixpoint collect_chain {E : Type} (next : option Hash → outcome E (option (Hash * option Hash))) (fuel : nat)
    (current : option Hash) : outcome E (list Hash) :=
  r ← next current;
  match r, fuel with
  | None, _ => Ok []
  | Some _, O => Panic
  | Some (h, it), S fuel => l ← collect_chain next fuel it; Ok (h :: l)
  end.
(** A chain has no more blocks than the height of its top, plus one. *)
Definition backward_chain_iterator {E : Type} (from_descendant to_ancestor : Hash) (inclusive : bool) : outcome E (list Hash) :=
  collect_chain (backward_next to_ancestor inclusive) (S (get_height from_descendant)) (Some from_descendant).
Definition forward_chain_iterator {E : Type} (from_ancestor to_descendant : Hash) (inclusive : bool) : outcome E (list Hash) :=
  collect_chain (forward_next to_descendant inclusive) (S (get_height to_descendant)) (Some from_ancestor).

(** ** The path from one chain block to another *)
Record ChainPath := mk_path { path_added : list Hash; path_removed : list Hash }.

(** The loop of [calculate_chain_path] over the default backward iterator; [None] when the
    iterator ends before a common ancestor. *)
Fixpoint path_down {E : Type} (fuel : nat) (to : Hash) (current : option Hash) (removed : list Hash)
    : outcome E (list Hash * option Hash) :=
  r ← backward_next ORIGIN false current;
  match r, fuel with
  | None, _ => Ok (removed, None)
  | Some _, O => Panic
  | Some (h, it), S fuel =>
      if chain_ancestor_of h to then Ok (removed, Some h) else path_down fuel to it (removed ++ [h])
  end.
(** [calculate_chain_path] without a limit on the added blocks. *)
Definition calculate_chain_path {E : Type} (from to : Hash) : outcome E ChainPath :=
  r ← path_down (S (get_height from)) to (Some from) [];
  added ← backward_chain_iterator to (default from r.2) false;
  Ok (mk_path (reverse added) r.1).
End iterators.

(** ** The chain index *)
Record DbSelectedChainStore := mk_chain_store {
  access_hash_by_index : gmap Z Hash;
  access_index_by_hash : gmap Hash Z;
  access_highest_index : option Z }.

Definition get_tip (s : DbSelectedChainStore) : option (Z * Hash) :=
  idx ← access_highest_index s; h ← access_hash_by_index s !! idx; Some (idx, h).

Definition remove_from_chain {E : Type} (s : DbSelectedChainStore) (to_remove : Hash) : outcome E DbSelectedChainStore :=
  index ← unwrap (access_index_by_hash s !! to_remove);
  Ok (mk_chain_store (delete index (access_hash_by_index s)) (delete to_remove (access_index_by_hash s)) (access_highest_index s)).
Definition add_to_chain {E : Type} (split_index : Z) (i : nat) (s : DbSelectedChainStore) (to_add : Hash)
    : outcome E DbSelectedChainStore :=
  k ← u64_add (Z.of_nat i) split_index; index ← u64_add k 1;
  Ok (mk_chain_store (<[index := to_add]> (access_hash_by_index s)) (<[to_add := index]> (access_index_by_hash s)) (access_highest_index s)).
Definition apply_changes {E : Type} (s : DbSelectedChainStore) (changes : ChainPath) : outcome E DbSelectedChainStore :=
  let added_len := Z.of_nat (length (path_added changes)) in
  current_highest_index ← unwrap (access_highest_index s);
  split_index ← u64_sub current_highest_index (Z.of_nat (length (path_removed changes)));
  new_highest_index ← u64_add added_len split_index;
  s ← try_fold remove_from_chain s (path_removed changes);
  s ← try_foldi (add_to_chain split_index) 0 s (path_added changes);
  Ok (mk_chain_store (access_hash_by_index s) (access_index_by_hash s) (Some new_highest_index)).

(** [prune_below_point]: down from the index of [block], until an index is missing. *)
Fixpoint prune_loop (fuel : nat) (index : Z) (s : DbSelectedChainStore) : DbSelectedChainStore :=
  match fuel with
  | O => s
  | S fuel =>
      if index <=? 0 then s else
      match access_hash_by_index s !! (index - 1) with
      | Some h => prune_loop fuel (index - 1)
          (mk_chain_store (delete (index - 1) (access_hash_by_index s)) (delete h (access_index_by_hash s)) (access_highest_index s))
      | None => s
      end
  end.
Definition prune_below_point {E : Type} (s : DbSelectedChainStore) (block : Hash) (not_found : E) : outcome E DbSelectedChainStore :=
  index ← ok_or (access_index_by_hash s !! block) not_found;
  Ok (prune_loop (Z.to_nat index) index s).
Definition init_with_pruning_point (s : DbSelectedChainStore) (block : Hash) : DbSelectedChainStore :=
  mk_chain_store {[ 0 := block ]} {[ block := 0 ]} (Some 0).

(** ** Chains *)
Section chains.
Context `{ChainService}.

Definition chain_child (c p : Hash) : Prop := c ≠ ORIGIN ∧ get_chain_parent c = Some p.
(** [l] leads up from [a], block by block. *)
Fixpoint links (a : Hash) (l : list Hash) : Prop :=
  match l with [] => True | c :: l => chain_child c a ∧ links c l end.
Definition tip (a : Hash) (l : list Hash) : Hash := default a (last l).
Definition on_chain (a b : Hash) : Prop := ∃ l, links a l ∧ tip a l = b.

(** The blocks the reachability store knows form a tree over the origin. *)
Definition chain_tree (known : Hash → Prop) : Prop :=
  ∀ b, known b → b ≠ ORIGIN → ∃ p, get_chain_parent b = Some p ∧ known p ∧ (get_height p < get_height b)%nat.
(** What its queries promise. *)
Record chain_laws (known : Hash → Prop) : Prop := {
  cl_tree : chain_tree known;
  cl_ancestor : ∀ a b, known a → known b → chain_ancestor_of a b = true ↔ on_chain a b;
  cl_next : ∀ a c l, known (tip c l) → chain_child c a → links c l → get_next_chain_ancestor (tip c l) a = Some c }.

Lemma tip_snoc a l c : tip a (l ++ [c]) = c.
Proof. unfold tip. by rewrite last_snoc. Qed.
Lemma tip_cons a c l : tip a (c :: l) = tip c l.
Proof. unfold tip. rewrite last_cons. by destruct (last l). Qed.
Lemma tip_app a l1 l2 : tip a (l1 ++ l2) = tip (tip a l1) l2.
Proof. unfold tip. rewrite last_app. by destruct (last l2). Qed.
Lemma links_app a l1 l2 : links a (l1 ++ l2) ↔ links a l1 ∧ links (tip a l1) l2.
Proof.
  revert a. induction l1 as [|c l1 IH]; intros a; cbn [app links]; [cbn; tauto|]. rewrite IH, tip_cons. tauto.
Qed.
Lemma links_snoc a l c : links a (l ++ [c]) ↔ links a l ∧ chain_child c (tip a l).
Proof. rewrite links_app. cbn. tauto. Qed.
Lemma on_chain_refl a : on_chain a a.
Proof. by exists []. Qed.
Lemma on_chain_trans a b c : on_chain a b → on_chain b c → on_chain a c.
Proof. intros (l1 & H1 & <-) (l2 & H2 & <-). exists (l1 ++ l2). by rewrite links_app, tip_app. Qed.

Section tree.
Context (known : Hash → Prop) (Htree : chain_tree known).

Lemma child_known c p : known c → chain_child c p → known p ∧ (get_height p < get_height c)%nat.
Proof. intros Hk [Ho Hp]. destruct (Htree c Hk Ho) as (p' & Hp' & ? & ?). simplify_eq. done. Qed.
Lemma links_known a l : known (tip a l) → links a l →
  known a ∧ Forall (λ c, known c ∧ c ≠ ORIGIN) l ∧ (get_height a + length l ≤ get_height (tip a l))%nat.
Proof.
  revert a. induction l as [|c l IH]; intros a Hk Hl; [cbn; repeat split; [done|constructor|lia]|].
  rewrite tip_cons in *. destruct Hl as [Hc Hl]. destruct (IH c Hk Hl) as (Hkc & Hall & Hh).
  destruct (child_known c a Hkc Hc) as [Hka Hlt]. repeat split; [done| |cbn [length]; lia].
  constructor; [|done]. split; [done|apply Hc].
Qed.
Lemma links_above a l x : known (tip a l) → links a l → x ∈ l → (get_height a < get_height x)%nat.
Proof.
  intros Hk Hl (l1 & l2 & ->)%list_elem_of_split. rewrite (cons_middle x l1 l2), app_assoc in Hl, Hk.
  rewrite tip_app in Hk. apply links_app in Hl as [Hl1 Hl2]. destruct (links_known _ _ Hk Hl2) as (Hkx & _ & _).
  destruct (links_known _ _ Hkx Hl1) as (_ & _ & Hh). rewrite tip_snoc, length_app in Hh. cbn in Hh. lia.
Qed.
(** Chains are unique. *)
Lemma links_inj a l1 l2 : known (tip a l1) → links a l1 → links a l2 → tip a l1 = tip a l2 → l1 = l2.
Proof.
  revert l2. induction l1 as [|c l1 IH] using rev_ind; intros l2 Hk H1 H2 Heq.
  - destruct l2 as [|c l2 _] using rev_ind; [done|]. exfalso.
    assert (Hlt : (get_height a < get_height c)%nat).
    { apply (links_above a (l2 ++ [c])); [by rewrite <- Heq|done|apply elem_of_app; right; by left]. }
    rewrite tip_snoc in Heq. cbn in Heq. subst c. lia.
  - destruct l2 as [|c' l2 _] using rev_ind.
    { exfalso. assert (Hlt : (get_height a < get_height c)%nat).
      { apply (links_above a (l1 ++ [c])); [done|done|apply elem_of_app; right; by left]. }
      rewrite tip_snoc in Heq. cbn in Heq. subst c. lia. }
    rewrite !tip_snoc in Heq. subst c'. apply links_snoc in H1 as [H1 Hc1], H2 as [H2 Hc2]. rewrite tip_snoc in Hk.
    f_equal. apply IH; [by apply (child_known c)|done|done|]. destruct Hc1, Hc2. congruence.
Qed.
Lemma on_chain_known a b : known b → on_chain a b → known a.
Proof. intros Hk (l & Hl & <-). by apply links_known in Hl as [? _]. Qed.
Lemma on_chain_antisym a b : known a → known b → on_chain a b → on_chain b a → a = b.
Proof.
  intros Ha Hb (l1 & H1 & <-) (l2 & H2 & E2). destruct (links_known _ _ Hb H1) as (_ & _ & Hh1).
  assert (Hk : known (tip (tip a l1) l2)) by (by rewrite E2).
  destruct (links_known _ _ Hk H2) as (_ & _ & Hh2). rewrite E2 in Hh2. destruct l1; [done|cbn in *; lia].
Qed.
End tree.

Context (known : Hash → Prop) (Hlaws : chain_laws known).

(** ** The iterators list the chain *)
Lemma backward_chain_spec {E : Type} a l fuel :
  known (tip a l) → links a l → (length l ≤ fuel)%nat →
  collect_chain (E := E) (backward_next a false) fuel (Some (tip a l)) = Ok (reverse l).
Proof.
  intros Hk Hl Hf. revert fuel Hf. induction l as [|c l IH] using rev_ind; intros fuel Hf.
  - destruct fuel; cbn; by rewrite bool_decide_true.
  - assert (Hab : (get_height a < get_height c)%nat) by (apply (links_above known (cl_tree _ Hlaws) a (l ++ [c])); [done..|set_solver]).
    rewrite tip_snoc in *. apply links_snoc in Hl as [Hl Hc]. rewrite length_app in Hf. cbn [length] in Hf.
    destruct fuel as [|fuel]; [lia|]. cbn [collect_chain backward_next]. rewrite bool_decide_false by (intros ->; lia).
    rewrite (proj2 Hc). cbn [unwrap mbind outcome_bind]. rewrite IH; [|by apply (child_known known (cl_tree _ Hlaws) c)|done|lia].
    cbn [mbind outcome_bind]. by rewrite reverse_snoc.
Qed.
Lemma backward_chain_iterator_spec {E : Type} a l :
  known (tip a l) → links a l → backward_chain_iterator (E := E) (tip a l) a false = Ok (reverse l).
Proof.
  intros Hk Hl. destruct (links_known known (cl_tree _ Hlaws) _ _ Hk Hl) as (Ha & _ & Hh). apply backward_chain_spec; [done..|lia].
Qed.

Lemma forward_chain_spec {E : Type} a l fuel :
  known (tip a l) → links a l → (length l < fuel)%nat →
  collect_chain (E := E) (forward_next (tip a l) true) fuel (Some a) = Ok (a :: l).
Proof.
  intros Hk Hl. revert a Hk Hl fuel. induction l as [|c l IH]; intros a Hk Hl fuel Hf.
  - destruct fuel as [|fuel]; [cbn in Hf; lia|]. cbn [collect_chain forward_next]. change (tip a []) with a. rewrite bool_decide_true by done.
    cbn [mbind outcome_bind]. by destruct fuel.
  - destruct fuel as [|fuel]; [cbn in Hf; lia|]. cbn [length] in Hf. destruct (links_known known (cl_tree _ Hlaws) _ _ Hk Hl) as (_ & _ & Hh).
    cbn [collect_chain forward_next]. rewrite bool_decide_false by (intros He; rewrite <- He in Hh; cbn [length] in Hh; lia).
    destruct Hl as [Hc Hl]. rewrite tip_cons in *. rewrite (cl_next _ Hlaws a c l Hk Hc Hl). cbn [unwrap mbind outcome_bind].
    rewrite IH by (done || lia). done.
Qed.
Lemma forward_chain_iterator_spec {E : Type} a l :
  known (tip a l) → links a l → forward_chain_iterator (E := E) a (tip a l) true = Ok (a :: l).
Proof. intros Hk Hl. destruct (links_known known (cl_tree _ Hlaws) _ _ Hk Hl) as (_ & _ & Hh). apply forward_chain_spec; [done..|lia]. Qed.

(** ** Where two chains part *)
Lemma common_prefix {A : Type} `{EqDecision A} (l1 l2 : list A) :
  ∃ l r1 r2, l1 = l ++ r1 ∧ l2 = l ++ r2 ∧ ∀ x, head r1 = Some x → head r2 ≠ Some x.
Proof.
  revert l2. induction l1 as [|a l1 IH]; intros l2; [by exists [], [], l2|]. destruct l2 as [|b l2]; [by exists [], (a :: l1), []|].
  destruct (decide (a = b)) as [->|Hne].
  - destruct (IH l2) as (l & r1 & r2 & -> & -> & Hd). by exists (b :: l), r1, r2.
  - exists [], (a :: l1), (b :: l2). split; [done|]. split; [done|]. intros x [= <-] [= ->]. done.
Qed.

Lemma chains_part base l1 l2 :
  known (tip base l1) → known (tip base l2) → links base l1 → links base l2 →
  ∃ l r1 r2, l1 = l ++ r1 ∧ l2 = l ++ r2 ∧ chain_ancestor_of (tip base l) (tip base l2) = true ∧
    Forall (λ x, chain_ancestor_of x (tip base l2) = false) r1.
Proof.
  intros Hk1 Hk2 H1 H2. destruct (common_prefix l1 l2) as (l & r1 & r2 & -> & -> & Hd). exists l, r1, r2.
  split; [done|]. split; [done|]. pose proof H1 as [Hl Hr1]%links_app. pose proof H2 as [_ Hr2]%links_app.
  destruct (links_known known (cl_tree _ Hlaws) _ _ Hk1 H1) as (_ & Hall1 & _). apply Forall_app in Hall1 as [_ Hall1]. split.
  - apply (cl_ancestor _ Hlaws); [|done|].
    + rewrite tip_app in Hk1. by apply (links_known known (cl_tree _ Hlaws)) in Hr1 as [? _].
    + exists r2. by rewrite tip_app.
  - apply Forall_forall. intros x Hx. destruct (chain_ancestor_of x _) eqn:Ha; [exfalso|done].
    rewrite Forall_forall in Hall1. destruct (Hall1 x Hx) as [Hkx _]. apply (cl_ancestor _ Hlaws) in Ha as (m & Hm & Ht); [|done..].
    apply list_elem_of_split in Hx as (r & r' & ->). rewrite (cons_middle x r r'), app_assoc in Hr1. apply links_app in Hr1 as [Hr1 _].
    assert (Heq : l ++ (r ++ [x]) ++ m = l ++ r2).
    { assert (Ht' : tip base (l ++ (r ++ [x]) ++ m) = tip base (l ++ r2)) by (rewrite tip_app, tip_app, tip_snoc; done).
      apply (links_inj known (cl_tree _ Hlaws) base); [by rewrite Ht'| |done|done]. apply links_app. split; [done|]. apply links_app. by rewrite tip_snoc. }
    apply (inj (l ++.)) in Heq. subst r2. destruct r as [|y r]; cbn in Hd; by eapply Hd.
Qed.

Lemma path_down_spec {E : Type} split r to removed fuel :
  known (tip split r) → links split r → split ≠ ORIGIN → (length r < fuel)%nat →
  chain_ancestor_of split to = true → Forall (λ x, chain_ancestor_of x to = false) r →
  path_down (E := E) fuel to (Some (tip split r)) removed = Ok (removed ++ reverse r, Some split).
Proof.
  intros Hk Hl Ho Hf Hs Hr. revert removed fuel Hf. induction r as [|c r IH] using rev_ind; intros removed fuel Hf.
  - destruct fuel as [|fuel]; [cbn in Hf; lia|]. change (tip split []) with split in *. cbn [path_down backward_next].
    rewrite bool_decide_false by done. destruct (cl_tree _ Hlaws split Hk Ho) as (p & -> & _).
    cbn [unwrap mbind outcome_bind]. rewrite Hs. by rewrite app_nil_r.
  - rewrite length_app in Hf. cbn [length] in Hf. destruct fuel as [|fuel]; [lia|]. apply Forall_app in Hr as [Hr Hc].
    apply Forall_cons in Hc as [Hc _]. rewrite tip_snoc in *. apply links_snoc in Hl as [Hl Hch].
    cbn [path_down backward_next]. rewrite bool_decide_false by apply Hch. rewrite (proj2 Hch). cbn [unwrap mbind outcome_bind].
    rewrite Hc, IH; [|by apply (child_known known (cl_tree _ Hlaws) c)|done|done|lia]. by rewrite reverse_snoc, <- app_assoc.
Qed.

Lemma chain_path_spec {E : Type} base l1 l2 :
  base ≠ ORIGIN → known (tip base l1) → known (tip base l2) → links base l1 → links base l2 →
  ∃ l r1 r2, l1 = l ++ r1 ∧ l2 = l ++ r2 ∧
    calculate_chain_path (E := E) (tip base l1) (tip base l2) = Ok (mk_path r2 (reverse r1)).
Proof.
  intros Ho Hk1 Hk2 H1 H2. destruct (chains_part base l1 l2 Hk1 Hk2 H1 H2) as (l & r1 & r2 & -> & -> & Hs & Hr).
  exists l, r1, r2. split; [done|]. split; [done|]. destruct (links_known known (cl_tree _ Hlaws) _ _ Hk1 H1) as (_ & Hall & Hh).
  pose proof H1 as [Hl Hl1]%links_app. pose proof H2 as [_ Hl2]%links_app. rewrite length_app in Hh.
  assert (Hso : tip base l ≠ ORIGIN).
  { destruct l as [|c l _] using rev_ind; [done|]. rewrite tip_snoc. apply Forall_app in Hall as [[_ Hc]%Forall_app _].
    by apply Forall_cons in Hc as [[_ ?] _]. }
  unfold calculate_chain_path. rewrite (tip_app base l r1) at 2. rewrite path_down_spec; rewrite <- ?tip_app; try done; [|lia].
  cbn [mbind outcome_bind snd default]. rewrite (tip_app base l r2) in *. rewrite backward_chain_iterator_spec by done.
  cbn [mbind outcome_bind]. by rewrite reverse_involutive.
Qed.
End chains.

(** ** The index holds the chain *)

(** The two tables hold the blocks [l] under the indices from [k0] on. *)
Record chain_table (s : DbSelectedChainStore) (k0 : Z) (l : list Hash) : Prop := {
  ct_hash : ∀ k, access_hash_by_index s !! k = if decide (k0 ≤ k) then l !! Z.to_nat (k - k0) else None;
  ct_index : ∀ h k, access_index_by_hash s !! h = Some k ↔ access_hash_by_index s !! k = Some h }.
Record indexes (s : DbSelectedChainStore) (k0 : Z) (l : list Hash) : Prop := {
  ix_table : chain_table s k0 l;
  ix_highest : access_highest_index s = Some (k0 + Z.of_nat (length l) - 1) }.

Lemma init_indexes s block : indexes (init_with_pruning_point s block) 0 [block].
Proof.
  split; [split|done]; cbn [init_with_pruning_point access_hash_by_index access_index_by_hash].
  - intros k. destruct (decide (0 ≤ k)) as [Hk|Hk]; [|by rewrite lookup_singleton_ne by lia]. destruct (decide (k = 0)) as [->|Hne]; [done|].
    rewrite lookup_singleton_ne by done. symmetry. apply lookup_ge_None. cbn. lia.
  - intros h k. rewrite !lookup_singleton_Some. naive_solver.
Qed.
Lemma table_last s k0 l c : chain_table s k0 (l ++ [c]) → access_index_by_hash s !! c = Some (k0 + Z.of_nat (length l)).
Proof.
  intros [Hh Hi]. apply Hi. rewrite Hh, decide_True by lia.
  replace (Z.to_nat (k0 + Z.of_nat (length l) - k0)) with (length l) by lia. by apply list_lookup_middle.
Qed.
Lemma table_remove {E : Type} s k0 l c : chain_table s k0 (l ++ [c]) →
  ∃ s', remove_from_chain (E := E) s c = Ok s' ∧ chain_table s' k0 l.
Proof.
  intros Ht. pose proof (table_last _ _ _ _ Ht) as Hc. unfold remove_from_chain. rewrite Hc. cbn [unwrap mbind outcome_bind].
  eexists. split; [done|]. destruct Ht as [Hh Hi]. set (k1 := k0 + Z.of_nat (length l)) in *. split; cbn.
  - intros k. destruct (decide (k = k1)) as [->|Hne].
    + rewrite lookup_delete_eq. destruct (decide (k0 ≤ k1)); [|done]. symmetry. apply lookup_ge_None. lia.
    + rewrite lookup_delete_ne by done. rewrite Hh. destruct (decide (k0 ≤ k)); [|done].
      destruct (decide (k < k1)); [by rewrite lookup_app_l by lia|].
      rewrite !(proj2 (lookup_ge_None _ _)); [done|lia|rewrite length_app; cbn; lia].
  - intros h k. destruct (decide (h = c)) as [->|Hne].
    + rewrite lookup_delete_eq. split; [done|]. intros Hk. destruct (decide (k = k1)) as [->|Hk1]; [by rewrite lookup_delete_eq in Hk|].
      rewrite lookup_delete_ne in Hk by done. apply Hi in Hk. congruence.
    + rewrite lookup_delete_ne by done. rewrite Hi. destruct (decide (k = k1)) as [->|Hk1].
      * rewrite lookup_delete_eq. split; [|done]. intros Hk. apply Hi in Hc. congruence.
      * by rewrite lookup_delete_ne.
Qed.
Lemma table_add s k0 l c hi : chain_table s k0 l → c ∉ l →
  let k := k0 + Z.of_nat (length l) in
  chain_table (mk_chain_store (<[k := c]> (access_hash_by_index s)) (<[c := k]> (access_index_by_hash s)) hi) k0 (l ++ [c]).
Proof.
  intros [Hh Hi] Hc k. assert (Hnone : ∀ j, access_hash_by_index s !! j = Some c → False).
  { intros j. rewrite Hh. destruct (decide _); [|done]. intros ?%list_elem_of_lookup_2. done. }
  split; cbn.
  - intros j. destruct (decide (j = k)) as [->|Hne].
    + rewrite lookup_insert_eq, decide_True by lia. symmetry. replace (Z.to_nat (k - k0)) with (length l) by lia. by apply list_lookup_middle.
    + rewrite lookup_insert_ne, Hh by done. destruct (decide (k0 ≤ j)); [|done]. destruct (decide (j < k)); [by rewrite lookup_app_l by lia|].
      rewrite !(proj2 (lookup_ge_None _ _)); [done|rewrite length_app; cbn; lia|lia].
  - intros h j. destruct (decide (h = c)) as [->|Hne].
    + rewrite lookup_insert_eq. split; [intros [= <-]; by rewrite lookup_insert_eq|]. destruct (decide (j = k)) as [->|Hj]; [done|].
      rewrite lookup_insert_ne by done. by intros ?%Hnone.
    + rewrite lookup_insert_ne, Hi by done. destruct (decide (j = k)) as [->|Hj]; [|by rewrite lookup_insert_ne].
      rewrite lookup_insert_eq, Hh, decide_True by lia. replace (Z.to_nat (k - k0)) with (length l) by lia.
      rewrite (proj2 (lookup_ge_None _ _)) by lia. split; [done|]. intros [= ->]. done.
Qed.

Lemma table_remove_all {E : Type} s k0 l r : chain_table s k0 (l ++ r) →
  ∃ s', try_fold (remove_from_chain (E := E)) s (reverse r) = Ok s' ∧ chain_table s' k0 l.
Proof.
  revert s. induction r as [|c r IH] using rev_ind; intros s Ht; [exists s; by rewrite app_nil_r in Ht|].
  rewrite app_assoc in Ht. destruct (table_remove (E := E) _ _ _ _ Ht) as (s1 & Hr & Ht1). rewrite reverse_snoc. cbn [try_fold].
  rewrite Hr. cbn [mbind outcome_bind]. by apply IH.
Qed.
Lemma add_to_chain_total {E : Type} split i s c : Z.of_nat i + split + 1 ≤ u64_max →
  add_to_chain (E := E) split i s c = Ok (mk_chain_store (<[Z.of_nat i + split + 1 := c]> (access_hash_by_index s))
    (<[c := Z.of_nat i + split + 1]> (access_index_by_hash s)) (access_highest_index s)).
Proof. intros Hm. unfold add_to_chain. rewrite u64_add_total by lia. cbn [mbind outcome_bind]. by rewrite u64_add_total. Qed.
Lemma table_add_all {E : Type} s k0 l r i split : chain_table s k0 l → NoDup (l ++ r) →
  k0 + Z.of_nat (length l) = Z.of_nat i + split + 1 → k0 + Z.of_nat (length l) + Z.of_nat (length r) ≤ u64_max →
  ∃ s', try_foldi (add_to_chain (E := E) split) i s r = Ok s' ∧ chain_table s' k0 (l ++ r).
Proof.
  revert s l i. induction r as [|c r IH]; intros s l i Ht Hnd Hi Hm; [exists s; by rewrite app_nil_r|].
  cbn [try_foldi length] in *. rewrite add_to_chain_total by lia. cbn [mbind outcome_bind]. rewrite (cons_middle c l r), app_assoc in *.
  destruct (IH (mk_chain_store (<[Z.of_nat i + split + 1 := c]> (access_hash_by_index s))
    (<[c := Z.of_nat i + split + 1]> (access_index_by_hash s)) (access_highest_index s)) (l ++ [c]) (S i)) as (s' & Hs & Ht').
  - rewrite <- Hi. apply table_add; [done|]. apply NoDup_app in Hnd as [Hnd _]. apply NoDup_app in Hnd as (_ & Hd & _).
    intros Hc. apply (Hd c Hc). by left.
  - done.
  - rewrite length_app. cbn [length]. lia.
  - rewrite length_app. cbn [length]. lia.
  - exists s'. by split.
Qed.

Lemma apply_changes_spec {E : Type} s k0 l r1 r2 :
  indexes s k0 (l ++ r1) → l ≠ [] → NoDup (l ++ r2) → 0 ≤ k0 → k0 + Z.of_nat (length (l ++ r2)) ≤ u64_max →
  ∃ s', apply_changes (E := E) s (mk_path r2 (reverse r1)) = Ok s' ∧ indexes s' k0 (l ++ r2).
Proof.
  intros [Ht Hh] Hl Hnd H0 Hm. rewrite length_app in *. assert (1 ≤ length l)%nat by (destruct l; [done|cbn; lia]).
  unfold apply_changes. cbn [path_added path_removed]. rewrite Hh, length_reverse. cbn [unwrap mbind outcome_bind].
  destruct (table_remove_all (E := E) _ _ _ _ Ht) as (s1 & Hs1 & Ht1).
  destruct (table_add_all (E := E) s1 k0 l r2 0 (k0 + Z.of_nat (length l) - 1) Ht1 Hnd) as (s2 & Hs2 & Ht2); [lia..|].
  rewrite u64_sub_total by lia. cbn [mbind outcome_bind]. rewrite u64_add_total by lia. cbn [mbind outcome_bind].
  rewrite Hs1. cbn [mbind outcome_bind].
  replace (k0 + Z.of_nat (length l + length r1) - 1 - Z.of_nat (length r1)) with (k0 + Z.of_nat (length l) - 1) by lia.
  rewrite Hs2. cbn [mbind outcome_bind]. eexists. split; [done|]. split; [by destruct Ht2; split|]. cbn. rewrite length_app. f_equal. lia.
Qed.

Section follows.
Context `{ChainService} (known : Hash → Prop) (Hlaws : chain_laws known).

Lemma links_nodup a l : known (tip a l) → links a l → NoDup (a :: l).
Proof.
  revert a. induction l as [|c l IH]; intros a Hk Hl; [apply NoDup_singleton|]. apply NoDup_cons. split.
  - intros Hin. pose proof (links_above known (cl_tree _ Hlaws) a (c :: l) a Hk Hl Hin). lia.
  - rewrite tip_cons in Hk. apply IH; [done|apply Hl].
Qed.
Lemma tip_lookup a l : (a :: l) !! length l = Some (tip a l).
Proof. destruct l as [|c l _] using rev_ind; [done|]. rewrite tip_snoc, length_app. cbn. rewrite Nat.add_1_r. cbn. by apply list_lookup_middle. Qed.

(** (C18) The chain index follows the sink: when it holds the chain from [base] to a block, the
    path to any other block above [base] is computed, applying it succeeds, and the index
    then holds exactly the chain from [base] to that block, with the block as its tip,
    however deep the reorganisation. *)
Theorem selected_chain_follows {E : Type} s k0 base l1 l2 :
  base ≠ ORIGIN → known (tip base l1) → known (tip base l2) → links base l1 → links base l2 →
  indexes s k0 (base :: l1) → 0 ≤ k0 → k0 + Z.of_nat (length (base :: l2)) ≤ u64_max →
  ∃ path s', calculate_chain_path (E := E) (tip base l1) (tip base l2) = Ok path ∧
    apply_changes (E := E) s path = Ok s' ∧ indexes s' k0 (base :: l2) ∧
    get_tip s' = Some (k0 + Z.of_nat (length l2), tip base l2).
Proof.
  intros Ho Hk1 Hk2 H1 H2 Hix H0 Hm.
  destruct (chain_path_spec (E := E) known Hlaws base l1 l2 Ho Hk1 Hk2 H1 H2) as (l & r1 & r2 & -> & -> & Hp).
  pose proof (links_nodup _ _ Hk2 H2) as Hnd.
  destruct (apply_changes_spec (E := E) s k0 (base :: l) r1 r2) as (s' & Hs & Hix'); [done..|].
  eexists _, s'. split; [exact Hp|]. split; [done|]. split; [done|]. destruct Hix' as [[Hh _] Hhi]. unfold get_tip.
  rewrite Hhi. cbn [mbind option_bind app length]. rewrite Hh, decide_True by lia. cbn [app].
  replace (Z.to_nat _) with (length (l ++ r2)) by lia. rewrite tip_lookup. cbn. repeat f_equal. lia.
Qed.
End follows.

(** ** A service from a table of parents and heights *)
Section parent_table.
Context (parents : gmap Hash (Hash * nat)).

Definition table_parent (b : Hash) : option Hash := fst <$> parents !! b.
Definition table_height (b : Hash) : nat := default 0%nat (snd <$> parents !! b).
Fixpoint table_down (n : nat) (b : Hash) : list Hash :=
  b :: match n, table_parent b with S n, Some p => table_down n p | _, _ => [] end.
#[local] Instance table_service : ChainService :=
  {| get_chain_parent := table_parent; get_height := table_height;
     chain_ancestor_of := λ a b, bool_decide (a ∈ table_down (table_height b) b);
     get_next_chain_ancestor := λ d a, find (λ c, bool_decide (table_parent c = Some a)) (table_down (table_height d) d) |}.

Definition table_known (b : Hash) : Prop := b = ORIGIN ∨ is_Some (parents !! b).
Definition table_wf : Prop :=
  parents !! ORIGIN = None ∧ map_Forall (λ _ ph, table_known ph.1 ∧ (table_height ph.1 < ph.2)%nat) parents.

Lemma table_parent_known b p : table_wf → table_parent b = Some p →
  b ≠ ORIGIN ∧ table_known p ∧ (table_height p < table_height b)%nat.
Proof.
  intros [Ho Hw] Hp. unfold table_parent, table_height in *. destruct (parents !! b) as [[p' h]|] eqn:Hb; [|done].
  injection Hp as ->. destruct (Hw b (p, h) Hb). cbn in *. split; [intros ->; congruence|done].
Qed.
Lemma table_down_chain n b a : table_wf → (table_height b ≤ n)%nat → a ∈ table_down n b ↔ on_chain a b.
Proof.
  intros Hw. revert b. induction n as [|n IH]; intros b Hn; cbn [table_down]; rewrite elem_of_cons.
  - split.
    + intros [->|Hin]; [apply on_chain_refl|by apply elem_of_nil in Hin].
    + intros (l & Hl & Ht). destruct l as [|c l _] using rev_ind; [by left|]. apply links_snoc in Hl as [_ [_ Hc]].
      rewrite tip_snoc in Ht. subst c. destruct (table_parent_known _ _ Hw Hc). lia.
  - split.
    + intros [->|Hin]; [apply on_chain_refl|]. destruct (table_parent b) as [p|] eqn:Hp; [|by apply elem_of_nil in Hin].
      destruct (table_parent_known _ _ Hw Hp) as (? & _ & ?). apply IH in Hin; [|lia]. eapply on_chain_trans; [done|]. exists [b]. by repeat split.
    + intros (l & Hl & Ht). destruct l as [|c l _] using rev_ind; [by left|]. apply links_snoc in Hl as [Hl [_ Hc]].
      rewrite tip_snoc in Ht. subst c. right. cbn in Hc. rewrite Hc. destruct (table_parent_known _ _ Hw Hc) as (? & _ & ?).
      apply IH; [lia|]. by exists l.
Qed.
Lemma table_laws : table_wf → chain_laws table_known.
Proof.
  intros Hw. assert (Hpar : chain_tree table_known).
  { intros b [->|[[p h] Hb]] Ho; [done|]. assert (Hp : table_parent b = Some p) by (unfold table_parent; by rewrite Hb).
    destruct (table_parent_known _ _ Hw Hp). by exists p. }
  split; [exact Hpar| |].
  - intros a b _ _. cbn. rewrite bool_decide_eq_true. by apply table_down_chain.
  - intros a c l Hk Hc Hl. cbn. set (d := tip c l) in *.
    assert (Huniq : ∀ x, x ∈ table_down (table_height d) d → table_parent x = Some a → x = c).
    { intros x Hx Hp. apply table_down_chain in Hx as (lx & Hlx & Htx); [|done..].
      assert (Heq : x :: lx = c :: l); [|by injection Heq].
      destruct (table_parent_known _ _ Hw Hp) as (? & _ & _). unfold d in *.
      apply (links_inj _ Hpar a); rewrite ?tip_cons; [by rewrite Htx|by repeat split|done|done]. }
    destruct (find _ _) as [x|] eqn:Hf.
    + apply find_some in Hf as [Hin Hd]. apply bool_decide_eq_true in Hd. f_equal. apply Huniq; [by apply list_elem_of_In|done].
    + assert (Hin : c ∈ table_down (table_height d) d) by (apply table_down_chain; [done..|by exists l]).
      apply list_elem_of_In in Hin. pose proof (find_none _ _ Hf c Hin) as Hd. apply bool_decide_eq_false in Hd. by destruct Hc.
Qed.
End parent_table.

(** ** A fork: two blocks on one branch, one on the other *)
Definition fork_parents : gmap Hash (Hash * nat) :=
  {[ [1] := (ORIGIN, 1%nat); [2] := ([1], 2%nat); [3] := ([2], 3%nat); [4] := ([1], 2%nat) ]}.
Lemma fork_wf : table_wf fork_parents.
Proof. by_decide. Qed.
Definition fork_index : DbSelectedChainStore :=
  mk_chain_store {[ 7 := [1]; 8 := [2]; 9 := [3] ]} {[ [1] := 7; [2] := 8; [3] := 9 ]} (Some 9).
Lemma fork_indexed : indexes fork_index 7 [[1]; [2]; [3]].
Proof.
  split; [|done]. split.
  - intros k. unfold fork_index. cbn [access_hash_by_index]. destruct (decide (k = 7)) as [->|]; [done|].
    destruct (decide (k = 8)) as [->|]; [done|]. destruct (decide (k = 9)) as [->|]; [done|].
    rewrite !lookup_insert_ne, lookup_singleton_ne by done. destruct (decide (7 ≤ k)); [|done]. symmetry. apply lookup_ge_None. cbn. lia.
  - intros h k. unfold fork_index. cbn [access_hash_by_index access_index_by_hash].
    rewrite !lookup_insert_Some, !lookup_singleton_Some. naive_solver.
Qed.

Lemma selected_chain_follows_witness :
  ∃ path s', calculate_chain_path (E := unit) (H := table_service fork_parents) [3] [4] = Ok path ∧
    apply_changes (E := unit) fork_index path = Ok s' ∧ indexes s' 7 [[1]; [4]] ∧ get_tip s' = Some (8, [4]).
Proof.
  apply (selected_chain_follows (H := table_service fork_parents) (table_known fork_parents)
    (table_laws _ fork_wf) (E := unit) fork_index 7 [1] [[2]; [3]] [[4]]).
  - by_decide.
  - right. by eexists.
  - right. by eexists.
  - by_decide.
  - by_decide.
  - apply fork_indexed.
  - done.
  - done.
Defined.
