(* ===== verification/VirtualState.v ===== *)
(** * The UTXO and pool state of a block

    [consensus/src/pipeline/virtual_processor/utxo_validation.rs]: from the state of the
    selected parent, the mergeset is walked in consensus order; the transactions of each
    block are validated in parallel against the state before the block, the valid ones
    are folded into the UTXO diff, the pool diff and the multiset hash, and the block is
    verified against the commitments of its header.

    [rayon]'s [reduce] is modelled by a schedule, the tree of splits it happened to make;
    the theorems quantify over it.  The lane commitment and the expected pruning point are
    parameters of the verification. *)

From S2P Require Import Prelude Transaction Dag NotePool PoolDiff PoolHashing Smt PoolCommitment PoolValidate UtxoAlgebra Params TxHashing Uint U3072 MuHash Merkle Mass Coinbase FinalityAnchor AnchorState Covenants TxValidation BodyValidation.

(** ** Data *)

(** [ValidatedTransaction]: the transaction with its entries, fee and pool mutation. *)
Record ValidatedTransaction := mk_validated_tx {
  vtx : PopulatedTransaction;
  calculated_fee : Z;
  validated_pool_op : option ValidatedPoolOp }.
Definition vtx_id (v : ValidatedTransaction) : TransactionId := id (pop_tx (vtx v)).
(** [ValidatedTransaction::new_coinbase]. *)
Definition new_coinbase {E : Type} (tx : Transaction) : outcome E ValidatedTransaction :=
  if is_coinbase tx then Ok (mk_validated_tx (mk_populated tx []) 0 None) else Panic.

Record UtxoProcessingContext := mk_context {
  ctx_ghostdag_data : GhostdagData;
  multiset_hash : MuHash;
  mergeset_diff : UtxoDiff;
  mergeset_pool_diff : PoolDiff;
  accepted_tx_ids : list TransactionId;
  accepted_tx_versions : list Z;
  mergeset_acceptance_data : list MergesetBlockAcceptanceData;
  mergeset_rewards : gmap Hash BlockRewardData;
  pruning_sample_from_pov : option Hash }.
Definition new_context (gd : GhostdagData) (selected_parent_multiset_hash : MuHash) : UtxoProcessingContext :=
  mk_context gd selected_parent_multiset_hash UtxoAlgebra.empty_diff PoolDiff.empty_diff [] [] [] ∅ None.

Record VirtualStateProcessor := {
  transaction_validator : TransactionValidator;
  coinbase_manager : CoinbaseManager;
  note_locks_activation : ForkActivation;
  block_transactions_store : gmap Hash (list Transaction);
  vp_ghostdag_store : GhostdagStore;
  headers_daa_scores : gmap Hash Z;
  daa_excluded_store : gmap Hash (gset Hash) }.

(** [Result::unwrap]. *)
Definition unwrap_result {E F A : Type} (m : outcome F A) : outcome E A :=
  match m with Ok a => Ok a | _ => Panic end.

(** ** Parallel iteration *)

(** The splits [rayon] made: a leaf is folded from the identity. *)
Inductive schedule := Sequential | Split (n : nat) (l r : schedule).
Fixpoint par_reduce {E A : Type} (s : schedule) (op : A → A → outcome E A) (identity : A)
    (l : list A) : outcome E A :=
  match s with
  | Sequential => try_fold op identity l
  | Split n a b =>
      x ← par_reduce a op identity (take n l);
      y ← par_reduce b op identity (drop n l);
      op x y
  end.

(** [filter_map(|x| f(x).ok())]. *)
Fixpoint filter_ok {E F A B : Type} (f : A → outcome F B) (l : list A) : outcome E (list B) :=
  match l with
  | [] => Ok []
  | a :: l =>
      match f a with
      | Ok b => bs ← filter_ok f l; Ok (b :: bs)
      | Err _ => filter_ok f l
      | Panic => Panic
      end
  end.

Section virtual.
Context `{ScriptEngine} `{TxHashers} `{PayloadDecoder} `{NotePoolHashers} `{SchnorrOracle}.
Context `{MuHashers} `{ModInverse} `{SmtHasher}.
Context (self : VirtualStateProcessor).
(** [SeqCommitAccessor::new] with the processor's stores. *)
Context (seq_commit_accessor : Hash → SeqCommitAccessor).
Abbreviation TxE := (TxRuleError TxScriptError) (only parsing).

Section validate.
Context {V P : Type} `{UtxoView V} `{PoolStateView P}.
Context (utxo_view : V) (pool_view : P).

(** The note-pool operation, against the composed pool view. *)
Definition validate_pool_op_in_context (transaction : Transaction) (pov_daa_score : Z) (skip : bool)
    : outcome TxE (option ValidatedPoolOp) :=
  if bool_decide (subnetwork_id transaction = SUBNETWORK_ID_NOTE_POOL) then
    op ← ok_or (decode_payload (payload transaction)) MalformedNotePoolPayload;
    validated ← map_err InvalidNotePoolOpInContext
      (validate_stateful op (id transaction) (outputs transaction) pool_view pov_daa_score skip
         (is_active (note_locks_activation self) pov_daa_score));
    Ok (Some validated)
  else Ok None.

Definition validate_transaction_in_utxo_context (transaction : Transaction) (pov_daa_score : Z)
    (flags : TxValidationFlags) (selected_parent : Hash) : outcome TxE ValidatedTransaction :=
  entries ← try_map (λ i, ok_or (get utxo_view (previous_outpoint i)) MissingTxOutpoints) (inputs transaction);
  validated_pool_op ← validate_pool_op_in_context transaction pov_daa_score
    (match flags with SkipScriptChecks => true | _ => false end);
  populated_tx ← new_populated transaction entries;
  let pool_value := (λ v, (consumed_petals v, produced_petals v)) <$> validated_pool_op in
  calculated_fee ← validate_populated_transaction_and_get_fee (transaction_validator self) populated_tx
    pov_daa_score flags None (Some (seq_commit_accessor selected_parent)) pool_value;
  Ok (mk_validated_tx populated_tx calculated_fee validated_pool_op).

(** Both iterations enumerate the transactions and skip the coinbase. *)
Definition validate_indexed (pov_daa_score : Z) (flags : TxValidationFlags) (selected_parent : Hash)
    (itx : nat * Transaction) : outcome TxE (ValidatedTransaction * Z) :=
  v ← validate_transaction_in_utxo_context itx.2 pov_daa_score flags selected_parent;
  Ok (v, Z.of_nat itx.1 mod 2 ^ 32).
Definition indexed_transactions (txs : list Transaction) : list (nat * Transaction) :=
  drop 1 (imap pair txs).

Definition validate_transactions_in_parallel {E : Type} (txs : list Transaction) (pov_daa_score : Z)
    (flags : TxValidationFlags) (selected_parent : Hash) : outcome E (list (ValidatedTransaction * Z)) :=
  filter_ok (validate_indexed pov_daa_score flags selected_parent) (indexed_transactions txs).

Definition validate_transactions_with_muhash_in_parallel {E : Type} (s : schedule) (txs : list Transaction)
    (pov_daa_score : Z) (flags : TxValidationFlags) (selected_parent : Hash)
    : outcome E (list (ValidatedTransaction * Z) * MuHash) :=
  valid ← filter_ok (validate_indexed pov_daa_score flags selected_parent) (indexed_transactions txs);
  items ← try_map (λ vi, mh ← from_transaction (vtx vi.1) pov_daa_score; Ok ([vi], mh)) valid;
  par_reduce s (λ a b, mh ← combine a.2 b.2; Ok (a.1 ++ b.1, mh)) ([], new_muhash) items.
End validate.

(** The body of the loop over the valid transactions of a block. *)
Definition accept_transaction {E : Type} (pov_daa_score : Z) (st : UtxoProcessingContext * Z)
    (v : ValidatedTransaction * Z) : outcome E (UtxoProcessingContext * Z) :=
  let ctx := st.1 in
  df ← unwrap_result (add_transaction (mergeset_diff ctx) (vtx v.1) pov_daa_score);
  pdf ← match validated_pool_op v.1 with
        | Some pool_op => unwrap_result (PoolDiff.with_diff_in_place (mergeset_pool_diff ctx) (vdiff pool_op))
        | None => Ok (mergeset_pool_diff ctx)
        end;
  fee ← u64_add st.2 (calculated_fee v.1);
  Ok (mk_context (ctx_ghostdag_data ctx) (multiset_hash ctx) df pdf
        (accepted_tx_ids ctx ++ [vtx_id v.1]) (accepted_tx_versions ctx ++ [tx_version (pop_tx (vtx v.1))])
        (mergeset_acceptance_data ctx) (mergeset_rewards ctx) (pruning_sample_from_pov ctx), fee).

Definition set_multiset_hash (ctx : UtxoProcessingContext) (mh : MuHash) : UtxoProcessingContext :=
  mk_context (ctx_ghostdag_data ctx) mh (mergeset_diff ctx) (mergeset_pool_diff ctx) (accepted_tx_ids ctx)
    (accepted_tx_versions ctx) (mergeset_acceptance_data ctx) (mergeset_rewards ctx) (pruning_sample_from_pov ctx).
(** The acceptance data and the rewards pushed at the end of a block. *)
Definition record_block (ctx : UtxoProcessingContext) (acceptance : MergesetBlockAcceptanceData)
    (reward : BlockRewardData) : UtxoProcessingContext :=
  mk_context (ctx_ghostdag_data ctx) (multiset_hash ctx) (mergeset_diff ctx) (mergeset_pool_diff ctx)
    (accepted_tx_ids ctx) (accepted_tx_versions ctx) (mergeset_acceptance_data ctx ++ [acceptance])
    (<[acc_block_hash acceptance := reward]> (mergeset_rewards ctx)) (pruning_sample_from_pov ctx).

Section calculate.
Context {V P : Type} `{UtxoView V} `{PoolStateView P} {E : Type}.
Context (selected_parent_utxo_view : V) (selected_parent_pool_view : P) (pov_daa_score : Z).

(** The body of the loop over the mergeset, [i] being the index in consensus order. *)
Definition process_merged_block (schedules : nat → schedule) (validated_coinbase_id : TransactionId) (i : nat)
    (ctx : UtxoProcessingContext) (bt : Hash * list Transaction) : outcome E UtxoProcessingContext :=
  let '(merged_block, txs) := bt in
  let composed_view := UtxoAlgebra.compose selected_parent_utxo_view (mergeset_diff ctx) in
  let composed_pool_view := PoolDiff.compose selected_parent_pool_view (mergeset_pool_diff ctx) in
  let is_selected_parent := (i =? 0)%nat in
  let validation_flags := if is_selected_parent then SkipScriptChecks else Full in
  _ ← unwrap (headers_daa_scores self !! merged_block);
  r ← validate_transactions_with_muhash_in_parallel composed_view composed_pool_view (schedules i) txs
        pov_daa_score validation_flags (selected_parent (ctx_ghostdag_data ctx));
  let '(validated_transactions, inner_multiset) := r in
  mh ← combine (multiset_hash ctx) inner_multiset;
  st ← try_fold (accept_transaction pov_daa_score) (set_multiset_hash ctx mh, 0) validated_transactions;
  let accepted :=
    (if is_selected_parent then [mk_accepted validated_coinbase_id 0] else [])
      ++ ((λ v, mk_accepted (vtx_id v.1) v.2) <$> validated_transactions) in
  coinbase ← unwrap (txs !! 0%nat);
  coinbase_data ← unwrap_result (deserialize_coinbase_payload (coinbase_manager self) (payload coinbase));
  Ok (record_block st.1 (mk_acceptance merged_block accepted)
        (mk_reward (cb_subsidy coinbase_data) st.2 (miner_script (cb_miner coinbase_data)))).

Definition calculate_utxo_state (schedules : nat → schedule) (ctx : UtxoProcessingContext)
    : outcome E UtxoProcessingContext :=
  let gd := ctx_ghostdag_data ctx in
  selected_parent_transactions ← unwrap (block_transactions_store self !! selected_parent gd);
  first ← unwrap (selected_parent_transactions !! 0%nat);
  validated_coinbase ← new_coinbase first;
  df ← unwrap_result (add_transaction (mergeset_diff ctx) (vtx validated_coinbase) pov_daa_score);
  mh ← muhash_add_transaction (multiset_hash ctx) (vtx validated_coinbase) pov_daa_score;
  mergeset ← consensus_ordered_mergeset_without_selected_parent gd (vp_ghostdag_store self);
  blocks ← try_map (λ b, txs ← unwrap (block_transactions_store self !! b); Ok (b, txs)) mergeset;
  let ctx := mk_context gd mh df (mergeset_pool_diff ctx) (accepted_tx_ids ctx) (accepted_tx_versions ctx)
               (mergeset_acceptance_data ctx) (mergeset_rewards ctx) (pruning_sample_from_pov ctx) in
  try_foldi (process_merged_block schedules (vtx_id validated_coinbase)) 0 ctx
    ((selected_parent gd, selected_parent_transactions) :: blocks).
End calculate.

(** ** Verification of a block *)

Definition verify_coinbase_transaction (coinbase : Transaction) (daa_score : Z) (ghostdag_data : GhostdagData)
    (rewards : gmap Hash BlockRewardData) (mergeset_non_daa : gset Hash) : outcome (RuleError TxScriptError) unit :=
  data ← unwrap_result (deserialize_coinbase_payload (coinbase_manager self) (payload coinbase));
  expected ← unwrap_result (expected_coinbase_transaction (coinbase_manager self) daa_score (cb_miner data)
               ghostdag_data rewards mergeset_non_daa);
  reject_if (negb (bool_decide (tx_hash coinbase = tx_hash (template_tx expected)))) BadCoinbaseTransaction.

Section verify.
(** The lane commitment ([recompute_seq_commit], which reads the block's GHOSTDAG data and
    acceptance data of the context), and the pruning point and sample expected of a
    block ([expected_header_pruning_point]). *)
Context (recompute_seq_commit : GhostdagData → list MergesetBlockAcceptanceData → Header →
  outcome (RuleError TxScriptError) Hash).
Context (expected_header_pruning_point : GhostdagData → Hash * Hash).

Definition verify_header_pruning_point (h : Header) (gd : GhostdagData) : outcome (RuleError TxScriptError) (Hash * Hash) :=
  let reply := expected_header_pruning_point gd in
  reject_if (negb (bool_decide (reply.1 = pruning_point h))) (WrongHeaderPruningPoint reply.1 (pruning_point h));;
  Ok reply.

(** The four loops over the two diffs, then the root of the leaves. *)
Definition recompute_pool_commitment (pool_state : PoolCollection) (pool_diff mergeset_pool_diff : PoolDiff)
    : outcome (RuleError TxScriptError) Hash :=
  let entries := delete_many pool_state (map_to_list (PoolDiff.remove pool_diff)).*1 in
  let entries := write_many entries (map_to_list (PoolDiff.add pool_diff)) in
  let entries := delete_many entries (map_to_list (PoolDiff.remove mergeset_pool_diff)).*1 in
  let entries := write_many entries (map_to_list (PoolDiff.add mergeset_pool_diff)) in
  tree_of_entries entries.

Definition verify_expected_utxo_state {V P : Type} `{UtxoView V} `{PoolStateView P}
    (ctx : UtxoProcessingContext) (selected_parent_utxo_view : V) (selected_parent_pool_view : P)
    (pool_state : PoolCollection) (pool_diff : PoolDiff) (h : Header)
    : outcome (RuleError TxScriptError) UtxoProcessingContext :=
  r ← finalize (multiset_hash ctx);
  let '(mh, expected_commitment) := r in
  let ctx := set_multiset_hash ctx mh in
  reject_if (negb (bool_decide (expected_commitment = utxo_commitment h)))
    (BadUTXOCommitment (header_hash h) (utxo_commitment h) expected_commitment);;
  expected_pool_commitment ← recompute_pool_commitment pool_state pool_diff (mergeset_pool_diff ctx);
  reject_if (negb (bool_decide (expected_pool_commitment = pool_commitment h)))
    (BadPoolCommitment (header_hash h) (pool_commitment h) expected_pool_commitment);;
  expected_root ← recompute_seq_commit (ctx_ghostdag_data ctx) (mergeset_acceptance_data ctx) h;
  reject_if (negb (bool_decide (expected_root = accepted_id_merkle_root h)))
    (BadAcceptedIDMerkleRoot (header_hash h) (accepted_id_merkle_root h) expected_root);;
  txs ← unwrap (block_transactions_store self !! header_hash h);
  coinbase ← unwrap (txs !! 0%nat);
  non_daa ← unwrap (daa_excluded_store self !! header_hash h);
  verify_coinbase_transaction coinbase (header_daa_score h) (ctx_ghostdag_data ctx) (mergeset_rewards ctx) non_daa;;
  reply ← verify_header_pruning_point h (ctx_ghostdag_data ctx);
  let ctx := mk_context (ctx_ghostdag_data ctx) (multiset_hash ctx) (mergeset_diff ctx) (mergeset_pool_diff ctx)
    (accepted_tx_ids ctx) (accepted_tx_versions ctx) (mergeset_acceptance_data ctx) (mergeset_rewards ctx) (Some reply.2) in
  let sp := selected_parent (ctx_ghostdag_data ctx) in
  first_parent ← unwrap (default [] (parents_by_level h !! 0%nat) !! 0%nat);
  reject_if (negb (bool_decide (first_parent = sp))) (WrongSelectedParentOrder (header_hash h) sp first_parent);;
  let current_utxo_view := UtxoAlgebra.compose selected_parent_utxo_view (mergeset_diff ctx) in
  let current_pool_view := PoolDiff.compose selected_parent_pool_view (mergeset_pool_diff ctx) in
  valid ← validate_transactions_in_parallel current_utxo_view current_pool_view txs (header_daa_score h) Full sp;
  reject_if (length valid <? length txs - 1)%nat
    (InvalidTransactionsInUtxoContext (length txs - 1 - length valid) (length txs - 1));;
  Ok ctx.
End verify.
End virtual.
