(* ===== verification/VirtualTheorems.v ===== *)
(** * The state of a block: theorems

    What [VirtualState] computes, for every schedule of the parallel iterations: the
    transactions it accepts are applied one after the other to the UTXO set and to the
    pool, the multiset hash commits to the resulting set, no value appears, and none of
    the unwraps fails.  A history of accepted transaction ids replaces the informal
    argument that no transaction is accepted twice. *)

From S2P Require Import Prelude Transaction Dag NotePool PoolDiff PoolHashing Smt PoolCommitment PoolValidate PoolTheorems UtxoAlgebra Params TxHashing Uint U3072 MuHash Merkle Mass Coinbase FinalityAnchor AnchorState Covenants TxValidation BodyValidation VirtualState.

#[local] Opaque pool_root tree_of_entries.

(** ** Parallel iteration *)

(** A reduction whose operation combines values that stand for lists returns a value for
    the whole list, whatever the splits. *)
Lemma par_reduce_rule {E A X : Type} (R : list X → A → Prop) (op : A → A → outcome E A) identity :
  R [] identity →
  (∀ l1 l2 a b, R l1 a → R l2 b → ∃ c, op a b = Ok c ∧ R (l1 ++ l2) c) →
  ∀ s xs items, Forall2 (λ x a, R [x] a) xs items →
  ∃ c, par_reduce s op identity items = Ok c ∧ R xs c.
Proof.
  intros Hid Hop s. induction s as [|n s1 IH1 s2 IH2]; intros xs items Hf; cbn [par_reduce].
  - assert (Hgen : ∀ pre a, R pre a → ∃ c, try_fold op a items = Ok c ∧ R (pre ++ xs) c).
    { induction Hf as [|x b xs items Hx _ IH]; intros pre a Ha; cbn [try_fold].
      - exists a. by rewrite app_nil_r.
      - destruct (Hop _ _ _ _ Ha Hx) as (c & -> & Hc). cbn [mbind outcome_bind].
        destruct (IH _ _ Hc) as (c' & Hc' & HR). exists c'. by rewrite <- app_assoc in HR. }
    apply (Hgen [] identity Hid).
  - destruct (IH1 (take n xs) (take n items)) as (a & -> & Ha); [by apply Forall2_take|].
    destruct (IH2 (drop n xs) (drop n items)) as (b & -> & Hb); [by apply Forall2_drop|].
    cbn [mbind outcome_bind]. destruct (Hop _ _ _ _ Ha Hb) as (c & -> & Hc). exists c. by rewrite take_drop in Hc.
Qed.

Definition oks {F A B : Type} (f : A → outcome F B) (l : list A) : list B :=
  omap (λ a, match f a with Ok b => Some b | _ => None end) l.

Lemma filter_ok_total {E F A B : Type} (f : A → outcome F B) l :
  Forall (λ a, not_panic (f a)) l → filter_ok (E := E) f l = Ok (oks f l).
Proof.
  induction 1 as [|a l Ha _ IH]; [done|]. cbn [filter_ok]. unfold oks in *. cbn [omap list_omap].
  destruct (f a); [by rewrite IH|done|done].
Qed.

Lemma elem_of_oks {F A B : Type} (f : A → outcome F B) l b : b ∈ oks f l ↔ ∃ a, a ∈ l ∧ f a = Ok b.
Proof.
  unfold oks. rewrite list_elem_of_omap. split; intros (a & Ha & Hb); exists a; (split; [done|]); by destruct (f a); simplify_eq.
Qed.

Lemma imap_pair_from {A} n (l : list A) : imap (λ i a, ((n + i)%nat, a)) l = zip (seq n (length l)) l.
Proof.
  revert n. induction l as [|a l IH]; intros n; [done|]. cbn [imap length seq zip zip_with].
  rewrite Nat.add_0_r. f_equal. rewrite <- (IH (S n)). apply imap_ext. intros i x _. simpl. f_equal. lia.
Qed.
Lemma indexed_snd txs : (indexed_transactions txs).*2 = drop 1 txs.
Proof.
  unfold indexed_transactions. rewrite fmap_drop. f_equal. rewrite (imap_pair_from 0).
  rewrite snd_zip; [done|]. by rewrite length_seq.
Qed.

(** ** The multiset hash of a list of transactions *)
Section hashing.
Context `{MuHashers} `{ModInverse}.
Hypothesis element_ok : ∀ data, byte_array 384 (element_bytes data).

Definition spent_all (l : list PopulatedTransaction) : Z := list_prod (spent_prod <$> l).
Definition created_all (l : list PopulatedTransaction) (daa : Z) : Z :=
  list_prod ((λ ptx, created_prod (pop_tx ptx) daa) <$> l).

Lemma spent_all_elements l : element_product (spent_all l).
Proof.
  unfold spent_all, list_prod. induction l as [|ptx l IH]; cbn [fmap list_fmap foldr]; [apply element_product_one|].
  apply element_product_mul; [apply spent_element_product|done].
Qed.

Lemma reduce_transactions {E Y : Type} s (f : Y → PopulatedTransaction) (l : list Y) daa :
  ∃ mh, (items ← try_map (λ y, mh ← from_transaction (E := E) (f y) daa; Ok ([y], mh)) l;
         par_reduce s (λ a b, mh ← combine a.2 b.2; Ok (a.1 ++ b.1, mh)) ([], new_muhash) items) = Ok (l, mh) ∧
    ratio mh (created_all (f <$> l) daa) (spent_all (f <$> l)).
Proof.
  set (R := λ (ys : list Y) (a : list Y * MuHash), a.1 = ys ∧
    ratio a.2 (created_all (f <$> ys) daa) (spent_all (f <$> ys))).
  assert (Hit : ∃ items, try_map (λ y, mh ← from_transaction (E := E) (f y) daa; Ok ([y], mh)) l = Ok items ∧
            Forall2 (λ y a, R [y] a) l items).
  { clear s. induction l as [|y l (items & IH & Hf)]; [by exists []|]. cbn [try_map].
    destruct (from_transaction_ratio (E := E) element_ok (f y) daa) as (mh & -> & Hr). cbn [mbind outcome_bind].
    rewrite IH. cbn [mbind outcome_bind]. eexists. split; [done|]. constructor; [|done]. split; [done|].
    unfold created_all, spent_all, list_prod. cbn [fmap list_fmap foldr snd]. by rewrite !Z.mul_1_r. }
  destruct Hit as (items & -> & Hf). cbn [mbind outcome_bind].
  destruct (par_reduce_rule (E := E) R (λ a b, mh ← combine a.2 b.2; Ok (a.1 ++ b.1, mh)) ([], new_muhash))
    with (s := s) (xs := l) (items := items) as ([ys mh] & -> & Hys & Hr); [split; [done|apply ratio_new]| |done|].
  - intros l1 l2 [y1 m1] [y2 m2] [H1 Hr1] [H2 Hr2]. cbn [fst snd] in *. subst.
    destruct (combine_ratio (E := E) _ _ _ _ _ _ Hr1 Hr2) as (mh & -> & Hr). cbn [mbind outcome_bind].
    eexists. split; [done|]. split; [done|]. cbn [snd].
    unfold created_all, spent_all in *. by rewrite !fmap_app, !list_prod_app.
  - cbn [fst snd] in *. subst ys. by exists mh.
Qed.
End hashing.

(** ** Stored blocks and the history of accepted transactions *)
Section theory.
Context `{ScriptEngine} `{TxHashers} `{PayloadDecoder} `{NotePoolHashers} `{SchnorrOracle}.
Context `{MuHashers} `{ModInverse} `{SmtHasher} `{AnchorDecoder} `{AnchorHashers} `{MerkleHasher}.
Context (self : VirtualStateProcessor) (seq_commit_accessor : Hash → SeqCommitAccessor).
Context (bp : BlockBodyProcessor) (masses : Transaction → NonContextualMasses).

(** The pool operation a transaction carries, the serials it consumes and produces. *)
Definition op_of (tx : Transaction) : option PoolOp :=
  if bool_decide (subnetwork_id tx = SUBNETWORK_ID_NOTE_POOL) then decode_payload (payload tx) else None.
Definition consumes (tx : Transaction) : list Hash :=
  match op_of tx with Some op => consumed_serials op | None => [] end.
Definition produces (tx : Transaction) : list Hash :=
  match op_of tx with Some op => created_serials (id tx) 0 (length (produced_notes op)) | None => [] end.
Definition spends (tx : Transaction) : list TransactionOutpoint := previous_outpoint <$> inputs tx.
Definition creates_nothing (tx : Transaction) : Prop := outputs tx = [] ∧ produces tx = [].

Definition stored (tx : Transaction) : Prop :=
  ∃ b txs, block_transactions_store self !! b = Some txs ∧ tx ∈ txs.

(** Every stored block passed body validation, and its coinbase payload parses; ids bind
    what a transaction does, and serials bind the id they derive from. *)
Record store_wf : Prop := {
  sw_validator : bp_validator bp = transaction_validator self;
  sw_wf : validator_wf (transaction_validator self);
  sw_k : ghostdag_k (transaction_validator self) < 2 ^ 16;
  sw_body : ∀ b txs, block_transactions_store self !! b = Some txs → ∃ h, body_valid bp masses (mk_block h txs);
  sw_payload : ∀ b cb txs, block_transactions_store self !! b = Some (cb :: txs) →
    ∃ data, deserialize_coinbase_payload (coinbase_manager self) (payload cb) = Ok data;
  sw_ids : ∀ tx1 tx2, stored tx1 → stored tx2 → id tx1 = id tx2 →
    spends tx1 = spends tx2 ∧ outputs tx1 = outputs tx2 ∧ subnetwork_id tx1 = subnetwork_id tx2 ∧
    payload tx1 = payload tx2;
  sw_serials : ∀ tx1 tx2 sn, stored tx1 → stored tx2 → sn ∈ produces tx1 → sn ∈ produces tx2 → id tx1 = id tx2 }.

(** A transaction that was accepted cannot be accepted again with an effect: it has none,
    or something it needs is gone for good. *)
Definition dead (A : gset TransactionId) (s : UtxoCollection) (p : PoolCollection) (tx : Transaction) : Prop :=
  creates_nothing tx ∨
  (∃ op, op ∈ spends tx ∧ s !! op = None ∧ transaction_id op ∈ A) ∨
  (∃ sn, sn ∈ consumes tx ∧ p !! sn = None ∧ ∀ tx', stored tx' → sn ∈ produces tx' → id tx' ∈ A).

(** [A] are the ids of the transactions accepted so far. *)
Record history (A : gset TransactionId) (s : UtxoCollection) (p : PoolCollection) : Prop := {
  hi_utxo : ∀ op, is_Some (s !! op) → transaction_id op ∈ A;
  hi_pool : ∀ sn tx, stored tx → sn ∈ produces tx → is_Some (p !! sn) → id tx ∈ A;
  hi_dead : ∀ tx, stored tx → is_coinbase tx = false → id tx ∈ A → dead A s p tx }.

(** What acceptance of [tx] in the states [s] and [p] means. *)
Record accepts (s : UtxoCollection) (p : PoolCollection) (tx : Transaction) (v : ValidatedTransaction) : Prop := {
  ac_tx : pop_tx (vtx v) = tx;
  ac_entries : Forall2 (λ i e, s !! previous_outpoint i = Some e) (inputs tx) (entries (vtx v));
  ac_pool : match op_of tx with
    | Some op => ∃ ess, lives p (consumed_serials op) (concat ess) ∧ NoDup (consumed_serials op) ∧
        NoDup (produces tx) ∧ validated_pool_op v = Some (valid_result op (id tx) ess)
    | None => validated_pool_op v = None
    end;
  ac_fee : 0 ≤ calculated_fee v ∧ calculated_fee v = entries_total (entries (vtx v))
    + match validated_pool_op v with Some x => consumed_petals x | None => 0 end
    - outputs_total (outputs tx) - match validated_pool_op v with Some x => produced_petals x | None => 0 end }.

(** The change of the pool. *)
Definition pool_mutation (v : ValidatedTransaction) : PoolDiff :=
  match validated_pool_op v with Some x => vdiff x | None => PoolDiff.empty_diff end.

Section store.
Context (Hst : store_wf).

Lemma stored_isolation tx : stored tx → ∃ pov, isolation_valid (transaction_validator self) tx pov.
Proof.
  intros (b & txs & Hb & Htx). destruct (sw_body Hst b txs Hb) as (h & Hbv).
  pose proof (bv_isolation _ _ _ Hbv) as Hiso. rewrite Forall_forall in Hiso.
  rewrite <- (sw_validator Hst). eexists. by apply Hiso.
Qed.

Lemma stored_op tx : stored tx → subnetwork_id tx = SUBNETWORK_ID_NOTE_POOL →
  ∃ op, decode_payload (payload tx) = Some op ∧ op_of tx = Some op ∧ stateless_valid op.
Proof.
  intros Htx Hsub. destruct (stored_isolation tx Htx) as (pov & Hiso).
  destruct (iv_pool _ _ _ Hiso Hsub) as (op & Hop & Hv). exists op.
  unfold op_of. by rewrite bool_decide_eq_true_2.
Qed.

Lemma op_of_valid tx op : stored tx → op_of tx = Some op → stateless_valid op.
Proof.
  intros Htx. unfold op_of. case_bool_decide as Hsub; [|done]. intros Hop.
  destruct (stored_op tx Htx Hsub) as (op' & Hd & _ & Hv). congruence.
Qed.

(** ** Validation in context *)
Section validation.
Context {V P : Type} `{UtxoView V} `{PoolStateView P} (v : V) (q : P) (s : UtxoCollection) (p : PoolCollection).
Context (Hs : UtxoAlgebra.shows v s) (Hp : PoolDiff.shows q p).
Context (Hwf : map_Forall (λ _, entry_wf (transaction_validator self)) s).

Lemma populate_spec {E : Type} (e : E) (l : list TransactionInput) :
  (∃ es, try_map (λ i, ok_or (UtxoAlgebra.get v (previous_outpoint i)) e) l = Ok es ∧
     Forall2 (λ i e, s !! previous_outpoint i = Some e) l es) ∨
  try_map (λ i, ok_or (UtxoAlgebra.get v (previous_outpoint i)) e) l = Err e.
Proof.
  induction l as [|i l IH]; [left; by exists []|]. cbn [try_map]. rewrite (Hs (previous_outpoint i)).
  destruct (s !! previous_outpoint i) as [en|] eqn:He; [|by right]. cbn [ok_or mbind outcome_bind].
  destruct IH as [(es & -> & Hf)| ->]; [left|by right]. eexists. split; [done|]. by constructor.
Qed.

Lemma entries_wf_of l es :
  Forall2 (λ i e, s !! previous_outpoint i = Some e) l es → Forall (entry_wf (transaction_validator self)) es.
Proof. induction 1 as [|i e l es He _ IH]; constructor; [by eapply Hwf|done]. Qed.

Lemma pool_part_spec tx pov skip :
  stored tx →
  not_panic (validate_pool_op_in_context self q tx pov skip) ∧
  ∀ x, validate_pool_op_in_context self q tx pov skip = Ok x →
    match op_of tx with
    | Some op => ∃ ess, valid_in p op (id tx) (outputs tx) pov skip (is_active (note_locks_activation self) pov) ess ∧
        x = Some (valid_result op (id tx) ess)
    | None => x = None
    end.
Proof.
  intros Htx. unfold validate_pool_op_in_context, op_of. case_bool_decide as Hsub; [|split; [done|by intros x [= <-]]].
  destruct (stored_op tx Htx Hsub) as (op & Hd & _ & Hv). rewrite Hd. cbn [ok_or mbind outcome_bind].
  destruct (safe_validate_stateful q p Hp True op (id tx) (outputs tx) pov skip
    (is_active (note_locks_activation self) pov) Hv) as [Hnp _]; [done|]. split.
  - apply not_panic_bind; [by apply not_panic_map_err|]. by intros a _.
  - intros x (a & Ha%map_err_Ok & Hx)%bind_Ok. injection Hx as <-.
    destruct (accepted q p op (id tx) (outputs tx) pov skip (is_active (note_locks_activation self) pov) a Hp)
      as (ess & Hvi & ->); [by apply validate_stateless_iff|done|]. by exists ess.
Qed.

Lemma pool_values_nonneg tx op ess :
  stored tx → op_of tx = Some op → 0 ≤ produced_petals (valid_result op (id tx) ess).
Proof.
  intros _ _. unfold valid_result. cbn [produced_petals]. rewrite <- created_entries_petals.
  pose proof (entries_petals_bound (created_entries op)). lia.
Qed.

Lemma validate_context_spec tx pov flags sp :
  stored tx → is_coinbase tx = false → 0 ≤ pov < 2 ^ 62 →
  not_panic (validate_transaction_in_utxo_context self seq_commit_accessor v q tx pov flags sp) ∧
  ∀ x, validate_transaction_in_utxo_context self seq_commit_accessor v q tx pov flags sp = Ok x → accepts s p tx x.
Proof.
  intros Htx Hcb Hpov. unfold validate_transaction_in_utxo_context.
  destruct (populate_spec (E := TxRuleError TxScriptError) MissingTxOutpoints (inputs tx)) as [(es & -> & Hes)| ->]; [|done].
  cbn [mbind outcome_bind].
  destruct (pool_part_spec tx pov (match flags with SkipScriptChecks => true | _ => false end) Htx) as [Hnp Hok].
  destruct (stored_isolation tx Htx) as (pov' & Hiso). pose proof (Forall2_length _ _ _ Hes) as Hlen.
  destruct (validate_pool_op_in_context _ _ _ _ _) as [x|e|]; [|done|done]. cbn [mbind outcome_bind].
  specialize (Hok x eq_refl). unfold new_populated. rewrite decide_True by done. cbn [mbind outcome_bind].
  destruct (iv_values _ _ _ Hiso) as [Hpos Htot].
  assert (Hprod : 0 ≤ (default (0, 0) ((λ v, (consumed_petals v, produced_petals v)) <$> x)).2).
  { destruct (op_of tx) as [op|] eqn:Hop; [|by subst x]. destruct Hok as (ess & _ & ->). cbn [fmap option_fmap option_map default snd].
    by apply (pool_values_nonneg tx). }
  split.
  - apply not_panic_bind; [|by intros fee _]. apply validate_populated_total; cbn [pop_tx entries]; try done.
    + apply (sw_wf Hst).
    + apply (iv_inputs_count _ _ _ Hiso).
    + by eapply entries_wf_of.
    + by apply (iv_outputs_count _ _ _ Hiso).
    + pose proof (iv_scripts _ _ _ Hiso) as Hscr. apply Forall_forall. intros o Ho. rewrite Forall_forall in Hpos, Hscr.
      split; [by apply Hpos|by apply Hscr].
    + etrans; [exact Htot|by_decide].
  - intros r (fee & Hfee & Hr)%bind_Ok. injection Hr as <-.
    apply populated_accepted in Hfee; [|done]. cbn [pop_tx entries] in Hfee.
    split; cbn [vtx pop_tx entries validated_pool_op calculated_fee]; try done.
    + destruct (op_of tx) as [op|] eqn:Hop; [|done]. destruct Hok as (ess & Hvi & ->). exists ess.
      split; [by eapply valid_in_lives|]. split; [by eapply vi_distinct|]. split; [|done].
      unfold produces. rewrite Hop. by eapply vi_new_distinct.
    + destruct x as [x|]; cbn [fmap option_fmap option_map default] in Hfee; destruct Hfee as (-> & ? & _); lia.
Qed.
End validation.
(** ** The effect of one transaction *)
Definition pool_after (p : PoolCollection) (v : ValidatedTransaction) : PoolCollection :=
  PoolDiff.apply_diff p (pool_mutation v).

Lemma tx_apply_other s tx daa op :
  op ∉ spends tx → op ∉ created_outpoints tx → tx_apply s tx daa !! op = s !! op.
Proof.
  intros Hs Hc. unfold tx_apply, create_outputs, spend_inputs. destruct (created_bindings tx daa) as [Hk _].
  rewrite write_many_lookup_ne by (by rewrite Hk). by rewrite delete_many_lookup, decide_False.
Qed.
Lemma tx_apply_spent s tx daa op :
  op ∈ spends tx → op ∉ created_outpoints tx → tx_apply s tx daa !! op = None.
Proof.
  intros Hs Hc. unfold tx_apply, create_outputs, spend_inputs. destruct (created_bindings tx daa) as [Hk _].
  rewrite write_many_lookup_ne by (by rewrite Hk). by rewrite delete_many_lookup, decide_True.
Qed.
Lemma tx_apply_absent s tx daa op : s !! op = None → op ∉ created_outpoints tx → tx_apply s tx daa !! op = None.
Proof.
  intros Hs Hc. destruct (decide (op ∈ spends tx)); [by apply tx_apply_spent|]. by rewrite tx_apply_other.
Qed.
Lemma created_id tx op : op ∈ created_outpoints tx → transaction_id op = id tx ∧ outputs tx ≠ [].
Proof.
  unfold created_outpoints. intros (i & -> & Hi%elem_of_seq)%list_elem_of_fmap. split; [done|].
  intros Ho. rewrite Ho in Hi. simpl in Hi. lia.
Qed.

Section accepted_one.
Context (s : UtxoCollection) (p : PoolCollection) (tx : Transaction) (v : ValidatedTransaction).
Context (Htx : stored tx) (Hacc : accepts s p tx v).

Lemma accepts_spends op : op ∈ spends tx → is_Some (s !! op).
Proof.
  intros (i & -> & Hi)%list_elem_of_fmap. apply list_elem_of_lookup in Hi as [k Hk].
  destruct (Forall2_lookup_l _ _ _ _ _ (ac_entries _ _ _ _ Hacc) Hk) as (e & _ & He). by exists e.
Qed.
Lemma accepts_consumes sn : sn ∈ consumes tx → is_Some (p !! sn).
Proof.
  unfold consumes. pose proof (ac_pool _ _ _ _ Hacc) as Hp. destruct (op_of tx) as [op|]; [|by intros ?%elem_of_nil].
  destruct Hp as (ess & Hl & _). intros [k Hk]%list_elem_of_lookup.
  destruct (Forall2_lookup_l _ _ _ _ _ Hl Hk) as (e & _ & He). by exists e.
Qed.

(** The two sides of the pool mutation. *)
Lemma mutation_sides sn :
  (PoolDiff.remove (pool_mutation v) !! sn = if decide (sn ∈ consumes tx) then p !! sn else None) ∧
  (is_Some (PoolDiff.add (pool_mutation v) !! sn) ↔ sn ∈ produces tx).
Proof.
  unfold pool_mutation, consumes, produces. pose proof (ac_pool _ _ _ _ Hacc) as Hp.
  destruct (op_of tx) as [op|] eqn:Hop; [|rewrite Hp; cbn; rewrite !lookup_empty, decide_False by (by intros ?%elem_of_nil);
    split; [done|]; split; [by intros [? ?]|by intros ?%elem_of_nil]].
  destruct Hp as (ess & Hl & Hnd & Hndp & ->). unfold produces in Hndp. rewrite Hop in Hndp. cbn [vdiff valid_result PoolDiff.remove PoolDiff.add].
  split.
  - destruct (decide (sn ∈ consumed_serials op)) as [Hin|Hin]; [|by apply collect_None].
    apply list_elem_of_lookup in Hin as [k Hk]. destruct (Forall2_lookup_l _ _ _ _ _ Hl Hk) as (e & He & Hlive).
    rewrite Hlive. apply collect_lookup; [done|by eapply lives_length|]. by exists k.
  - split.
    + intros [e He]. destruct (decide (sn ∈ created_serials (id tx) 0 (length (produced_notes op)))) as [|Hn]; [done|].
      by rewrite (collect_None _ _ _ Hn) in He.
    + intros [k Hk]%list_elem_of_lookup. pose proof (lookup_lt_Some _ _ _ Hk) as Hlt.
      assert (Hlen : length (created_serials (id tx) 0 (length (produced_notes op))) = length (created_entries op)).
      { unfold created_serials. by rewrite length_fmap, length_seq, length_created_entries. }
      rewrite Hlen in Hlt. apply lookup_lt_is_Some in Hlt as [e He]. exists e.
      apply collect_lookup; [done|done|]. by exists k.
Qed.

Lemma pool_after_other sn : sn ∉ consumes tx → sn ∉ produces tx → pool_after p v !! sn = p !! sn.
Proof.
  intros Hc Hpr. unfold pool_after. rewrite apply_diff_lookup. destruct (mutation_sides sn) as [-> Ha].
  rewrite decide_False by done. destruct (PoolDiff.add (pool_mutation v) !! sn); [|done]. destruct Hpr. by apply Ha.
Qed.
Lemma pool_after_absent sn : (sn ∈ consumes tx ∨ p !! sn = None) → sn ∉ produces tx → pool_after p v !! sn = None.
Proof.
  intros Hc Hpr. unfold pool_after. rewrite apply_diff_lookup. destruct (mutation_sides sn) as [-> Ha].
  destruct (PoolDiff.add (pool_mutation v) !! sn); [destruct Hpr; by apply Ha|].
  destruct (decide (sn ∈ consumes tx)) as [Hin|Hin].
  - destruct (accepts_consumes sn Hin) as [e ->]. done.
  - by destruct Hc.
Qed.
Lemma pool_after_present sn : is_Some (pool_after p v !! sn) → sn ∈ produces tx ∨ is_Some (p !! sn).
Proof.
  intros Hs. destruct (decide (sn ∈ produces tx)); [by left|right]. destruct (p !! sn) eqn:He; [by eexists|].
  rewrite pool_after_absent in Hs; [|by right|done]. by destruct Hs.
Qed.

Lemma mutation_fits : (∀ sn, sn ∈ produces tx → p !! sn = None) → PoolDiff.fits p (pool_mutation v).
Proof.
  intros Hnew. apply fits_lookup. split.
  - intros sn e. destruct (mutation_sides sn) as [-> _]. by destruct (decide _).
  - intros sn e He. apply Hnew, mutation_sides. by eexists.
Qed.
Lemma pool_mutation_value :
  (∀ sn, sn ∈ produces tx → p !! sn = None) →
  pool_value (pool_after p v) = pool_value p
    - match validated_pool_op v with Some x => consumed_petals x | None => 0 end
    + match validated_pool_op v with Some x => produced_petals x | None => 0 end.
Proof.
  intros Hnew. unfold pool_after. rewrite apply_diff_value by (by apply mutation_fits).
  unfold pool_mutation. pose proof (ac_pool _ _ _ _ Hacc) as Hp.
  destruct (op_of tx) as [op|] eqn:Hop; [|rewrite Hp; cbn [PoolDiff.remove PoolDiff.add PoolDiff.empty_diff];
    unfold pool_value; rewrite !map_sum_empty; lia].
  destruct Hp as (ess & Hl & Hnd & Hndp & ->). unfold produces in Hndp. rewrite Hop in Hndp.
  cbn [vdiff valid_result PoolDiff.remove PoolDiff.add consumed_petals produced_petals].
  rewrite !collect_value; [by rewrite created_entries_petals|done| |done|by eapply lives_length].
  unfold created_serials. by rewrite length_fmap, length_seq, length_created_entries.
Qed.

Lemma petals_positive ns : ns ≠ [] → 0 < notes_value ns.
Proof.
  destruct ns as [|n ns]; [done|]. intros _. unfold notes_value. rewrite fmap_cons, Zsum_cons.
  assert (0 ≤ Zsum ((λ n, petals (d n)) <$> ns)).
  { apply Zsum_nonneg, Forall_fmap, Forall_true. intros m. pose proof (petals_range (d m)). change (0 ≤ petals (d m)). lia. }
  pose proof (petals_range (d n)). lia.
Qed.

(** An accepted transaction with an effect takes something. *)
Lemma accepts_takes :
  is_coinbase tx = false → spends tx = [] → consumes tx = [] → creates_nothing tx.
Proof.
  intros Hcb Hs Hc. destruct (stored_isolation tx Htx) as (pov & Hiso). destruct (iv_values _ _ _ Hiso) as [Hpos _].
  assert (He : entries (vtx v) = []).
  { pose proof (Forall2_length _ _ _ (ac_entries _ _ _ _ Hacc)) as Hl. apply (f_equal length) in Hs. unfold spends in Hs.
    rewrite length_fmap in Hs. rewrite Hs in Hl. by destruct (entries (vtx v)). }
  destruct (ac_fee _ _ _ _ Hacc) as [Hfee Heq]. rewrite He in Heq. change (entries_total []) with 0 in Heq.
  assert (Hout : outputs_total (outputs tx) ≤ 0 → outputs tx = []).
  { clear -Hpos. destruct (outputs tx) as [|o os]; [done|]. unfold outputs_total. rewrite fmap_cons, Zsum_cons.
    apply Forall_cons in Hpos as [Ho Hos]. assert (0 ≤ Zsum (value <$> os)); [|lia].
    apply Zsum_nonneg, Forall_fmap. eapply Forall_impl; [exact Hos|]. intros ? ?. simpl in *. lia. }
  unfold creates_nothing, produces, consumes in *. pose proof (ac_pool _ _ _ _ Hacc) as Hp.
  destruct (op_of tx) as [op|] eqn:Hop; [|rewrite Hp in Heq; split; [apply Hout; lia|done]].
  exfalso. pose proof (op_of_valid tx op Htx Hop) as [_ Hv]. destruct Hp as (ess & Hl & _ & _ & Hx). rewrite Hx in Heq.
  rewrite Hc in Hl. apply Forall2_nil_inv_l in Hl. cbn [consumed_petals produced_petals valid_result] in Heq. rewrite Hl in Heq.
  change (entries_petals []) with 0 in Heq.
  assert (0 ≤ outputs_total (outputs tx)).
  { apply Zsum_nonneg, Forall_fmap. eapply Forall_impl; [exact Hpos|]. intros ? ?. simpl in *. lia. }
  destruct op as [m|tr|r|tl]; cbn [consumed_serials produced_notes] in *.
  - pose proof (petals_positive _ Hv). lia.
  - destruct Hv as (Hne & _ & Hg & _). destruct (t_consumed tr) as [|g gs]; [done|]. apply Forall_cons in Hg as [Hg _].
    unfold group_serials in Hc. cbn [flat_map] in Hc. by apply app_nil in Hc as [? _].
  - destruct Hv as (Hne & _ & Hg & _). destruct (r_consumed r) as [|g gs]; [done|]. apply Forall_cons in Hg as [Hg _].
    unfold group_serials in Hc. cbn [flat_map] in Hc. by apply app_nil in Hc as [? _].
  - destruct Hv as (Hne & _ & _ & _ & Hg & _). destruct (l_consumed tl) as [|g gs]; [done|]. apply Forall_cons in Hg as [Hg _].
    unfold group_serials in Hc. cbn [flat_map] in Hc. by apply app_nil in Hc as [? _].
Qed.

(** An accepted transaction with an effect is new. *)
Lemma accepts_new A :
  history A s p → is_coinbase tx = false → id tx ∉ A ∨ creates_nothing tx.
Proof.
  intros Hh Hcb. destruct (decide (id tx ∈ A)) as [Hin|]; [right|by left].
  destruct (hi_dead _ _ _ Hh tx Htx Hcb Hin) as [?|[(op & Hop & Hn & _)|(sn & Hsn & Hn & _)]]; [done| |].
  - destruct (accepts_spends op Hop). congruence.
  - destruct (accepts_consumes sn Hsn). congruence.
Qed.
End accepted_one.
Lemma same_effect tx tx' :
  stored tx → stored tx' → id tx = id tx' →
  spends tx = spends tx' ∧ consumes tx = consumes tx' ∧ produces tx = produces tx' ∧
  outputs tx = outputs tx' ∧ is_coinbase tx = is_coinbase tx'.
Proof.
  intros Ht Ht' Hid. destruct (sw_ids Hst tx tx' Ht Ht' Hid) as (Hs & Ho & Hsub & Hp).
  unfold consumes, produces, op_of, is_coinbase. by rewrite Hsub, Hp, Hid.
Qed.

Lemma created_new (A : gset TransactionId) tx op :
  id tx ∉ A ∨ creates_nothing tx → transaction_id op ∈ A → op ∉ created_outpoints tx.
Proof. intros [Hn|[Ho _]] Hop [Hid Hne]%created_id; congruence. Qed.

(** Growing the history by a transaction that is new or has no effect. *)
Lemma history_extend A s p s' p' tx :
  stored tx → history A s p → id tx ∉ A ∨ creates_nothing tx →
  (∀ op, is_Some (s' !! op) → op ∈ created_outpoints tx ∨ is_Some (s !! op)) →
  (∀ sn, is_Some (p' !! sn) → sn ∈ produces tx ∨ is_Some (p !! sn)) →
  (is_coinbase tx = false → dead ({[id tx]} ∪ A) s' p' tx) →
  history ({[id tx]} ∪ A) s' p'.
Proof.
  intros Htx Hh Hnew Hs' Hp' Hdead.
  assert (Hgone : ∀ op, transaction_id op ∈ A → s !! op = None → s' !! op = None).
  { intros op Hop Hn. destruct (s' !! op) eqn:He; [|done]. destruct (Hs' op) as [Hc|[? ?]]; [by eexists| |congruence].
    by apply (created_new A) in Hc. }
  assert (Hpgone : ∀ sn, (sn ∈ produces tx → id tx ∈ A) → p !! sn = None → p' !! sn = None).
  { intros sn Hsn Hn. destruct (p' !! sn) eqn:He; [|done]. destruct (Hp' sn) as [Hc|[? ?]]; [by eexists| |congruence].
    destruct Hnew as [Hnew|[_ Hnil]]; [by destruct Hnew; apply Hsn|]. rewrite Hnil in Hc. by apply elem_of_nil in Hc. }
  split.
  - intros op Hop. destruct (Hs' op Hop) as [[Hid _]%created_id|Hsome]; [set_solver|].
    apply (hi_utxo _ _ _ Hh) in Hsome. set_solver.
  - intros sn tx' Ht' Hsn Hsome. destruct (Hp' sn Hsome) as [Hpr|Hpr].
    + rewrite (sw_serials Hst tx' tx sn Ht' Htx Hsn Hpr). set_solver.
    + pose proof (hi_pool _ _ _ Hh sn tx' Ht' Hsn Hpr). set_solver.
  - intros tx' Ht' Hcb [Hid%elem_of_singleton|Hin]%elem_of_union.
    + destruct (same_effect tx' tx Ht' Htx Hid) as (Es & Ec & Ep & Eo & Ecb). rewrite Ecb in Hcb.
      unfold dead, creates_nothing in *. rewrite Es, Ec, Ep, Eo. by apply Hdead.
    + destruct (hi_dead _ _ _ Hh tx' Ht' Hcb Hin) as [?|[(op & Hop & Hn & HA)|(sn & Hsn & Hn & HA)]].
      * by left.
      * right. left. exists op. split; [done|]. split; [by apply Hgone|set_solver].
      * right. right. exists sn. split; [done|]. split; [apply Hpgone; [by apply HA|done]|].
        intros tx'' Ht'' Hsn''. specialize (HA tx'' Ht'' Hsn''). set_solver.
Qed.

Lemma history_accept A s p tx v daa :
  stored tx → is_coinbase tx = false → accepts s p tx v → history A s p → id tx ∉ A ∨ creates_nothing tx →
  history ({[id tx]} ∪ A) (tx_apply s tx daa) (pool_after p v).
Proof.
  intros Htx Hcb Hacc Hh Hnew. eapply history_extend; try done.
  - intros op Hop. destruct (decide (op ∈ created_outpoints tx)); [by left|right].
    destruct (s !! op) eqn:He; [by eexists|]. rewrite tx_apply_absent in Hop by done. by destruct Hop.
  - by apply (pool_after_present s p tx v Hacc).
  - intros _. destruct (spends tx) as [|op ops] eqn:Hs.
    + destruct (consumes tx) as [|sn sns] eqn:Hc; [left; by eapply accepts_takes|]. right. right. exists sn.
      assert (Hsn : sn ∈ consumes tx) by (rewrite Hc; by left). split; [done|].
      pose proof (accepts_consumes _ _ _ _ Hacc sn Hsn) as Hlive. split.
      * eapply pool_after_absent; [done|by left|]. intros Hpr. pose proof (hi_pool _ _ _ Hh sn tx Htx Hpr Hlive).
        destruct Hnew as [?|[_ Hnil]]; [done|]. rewrite Hnil in Hpr. by apply elem_of_nil in Hpr.
      * intros tx' Ht' Hpr. pose proof (hi_pool _ _ _ Hh sn tx' Ht' Hpr Hlive). set_solver.
    + right. left. exists op. assert (Hop : op ∈ spends tx) by (rewrite Hs; by left). split; [done|].
      pose proof (hi_utxo _ _ _ Hh op (accepts_spends _ _ _ _ Hacc op Hop)) as HA. split; [|set_solver].
      apply tx_apply_spent; [done|]. by apply (created_new A).
Qed.

Lemma coinbase_op tx : is_coinbase tx = true → op_of tx = None.
Proof.
  unfold is_coinbase, op_of. rewrite bool_decide_eq_true. intros ->. by rewrite bool_decide_eq_false_2.
Qed.

Lemma history_coinbase A s p tx daa :
  stored tx → is_coinbase tx = true → history A s p → id tx ∉ A →
  history ({[id tx]} ∪ A) (tx_apply s tx daa) p.
Proof.
  intros Htx Hcb Hh Hnew. eapply history_extend; try done.
  - by left.
  - intros op Hop. destruct (decide (op ∈ created_outpoints tx)); [by left|right].
    destruct (s !! op) eqn:He; [by eexists|]. rewrite tx_apply_absent in Hop by done. by destruct Hop.
  - by right.
  - congruence.
Qed.
(** ** Applying accepted transactions *)
Lemma created_nodup tx : Z.of_nat (length (outputs tx)) ≤ 2 ^ 32 → NoDup (created_outpoints tx).
Proof.
  intros Hlen. apply NoDup_fmap_2_strong; [|apply NoDup_seq].
  intros i j Hi%elem_of_seq Hj%elem_of_seq Heq. unfold created_outpoint in Heq. injection Heq as Heq.
  rewrite !Z.mod_small in Heq by lia. lia.
Qed.

Lemma fresh_of A s p tx :
  stored tx → history A s p → id tx ∉ A ∨ creates_nothing tx →
  (∀ op, op ∈ created_outpoints tx → s !! op = None) ∧ (∀ sn, sn ∈ produces tx → p !! sn = None).
Proof.
  intros Htx Hh Hnew. split.
  - intros op Hop. destruct (s !! op) eqn:He; [|done]. exfalso.
    by apply (created_new A tx op Hnew); [apply (hi_utxo _ _ _ Hh); eexists|].
  - intros sn Hsn. destruct (p !! sn) eqn:He; [|done]. destruct Hnew as [Hn|[_ Hn]].
    + destruct Hn. by apply (hi_pool _ _ _ Hh sn tx); [..|eexists].
    + rewrite Hn in Hsn. by apply elem_of_nil in Hsn.
Qed.

Lemma accepts_applicable A s p tx v :
  stored tx → is_coinbase tx = false → accepts s p tx v → history A s p → id tx ∉ A ∨ creates_nothing tx →
  applicable s (vtx v).
Proof.
  intros Htx Hcb Hacc Hh Hnew. destruct (stored_isolation tx Htx) as (pov & Hiso).
  split; rewrite (ac_tx _ _ _ _ Hacc).
  - apply (ac_entries _ _ _ _ Hacc).
  - apply (iv_distinct _ _ _ Hiso).
  - apply (fresh_of A s p tx Htx Hh Hnew).
  - apply created_nodup. pose proof (iv_outputs_count _ _ _ Hiso Hcb). pose proof (vw_outputs _ (sw_wf Hst)). lia.
Qed.

Abbreviation utxo_wf := (map_Forall (λ _, entry_wf (transaction_validator self))) (only parsing).

Lemma tx_apply_wf (s : UtxoCollection) tx daa :
  stored tx → utxo_wf s → 0 ≤ daa < 2 ^ 62 → utxo_wf (tx_apply s tx daa).
Proof.
  intros Htx Hs Hdaa. destruct (stored_isolation tx Htx) as (pov & Hiso).
  destruct (iv_values _ _ _ Hiso) as [Hpos _]. pose proof (iv_scripts _ _ _ Hiso) as Hscr.
  unfold tx_apply, create_outputs, spend_inputs, write_many.
  assert (Hdel : utxo_wf (delete_many s (previous_outpoint <$> inputs tx))).
  { intros op e. rewrite delete_many_lookup. destruct (decide _); [done|]. apply Hs. }
  revert Hdel. generalize (delete_many s (previous_outpoint <$> inputs tx)). generalize (created_outpoint (id tx)).
  generalize (is_coinbase tx). intros cb. revert Hpos Hscr. generalize (outputs tx). clear -Hdaa.
  induction l as [|o l IH]; intros Hpos Hscr f m Hm; [done|]. cbn [imap foldl fst snd].
  apply Forall_cons in Hpos as [Ho Hpos], Hscr as [Hsc Hscr]. apply (IH Hpos Hscr (f ∘ S)).
  intros op e [[<- <-]|[_ He]]%lookup_insert_Some; [|by eapply Hm]. by split.
Qed.

(** ** Replay of the selected parent *)
Lemma validate_replay (tx : Transaction) (s s' : UtxoCollection) (p : PoolCollection) (v : ValidatedTransaction) (pov pov' : Z) (sp sp' : Hash) :
  stored tx → utxo_wf s → (∀ op, op ∈ spends tx → s' !! op = s !! op) → 0 ≤ pov ≤ pov' → pov' < 2 ^ 62 →
  validate_transaction_in_utxo_context self seq_commit_accessor s p tx pov Full sp = Ok v →
  validate_transaction_in_utxo_context self seq_commit_accessor s' p tx pov' SkipScriptChecks sp' = Ok v.
Proof.
  intros Htx Hwf Hs' Hle Hb. unfold validate_transaction_in_utxo_context. rewrite !bind_Ok.
  intros (es & Hes & Hv). exists es.
  destruct (populate_spec s s (utxo_shows_map s) (E := TxRuleError TxScriptError) MissingTxOutpoints (inputs tx))
    as [(es' & Hes' & Hf)|Hes']; rewrite Hes' in Hes; [|done]. injection Hes as ->. split.
  { clear -Hs' Hf. unfold spends in Hs'. induction Hf as [|i e l es He Hf IH]; [done|]. cbn [try_map].
    change (UtxoAlgebra.get s' (previous_outpoint i)) with (s' !! previous_outpoint i).
    rewrite Hs', He by (by left). cbn [ok_or mbind outcome_bind]. rewrite IH; [done|].
    intros op Hop. apply Hs'. by right. }
  revert Hv. rewrite !bind_Ok. intros (x & Hx & Hv). exists x. split.
  { revert Hx. unfold validate_pool_op_in_context. case_bool_decide as Hsub; [|done].
    destruct (stored_op tx Htx Hsub) as (op & -> & _ & Hop). cbn [ok_or mbind outcome_bind]. rewrite !bind_Ok.
    intros (y & Hy%map_err_Ok & Hx). exists y. split; [|done]. apply map_err_Ok.
    apply (validate_stateful_iff p p (shows_map p)) in Hy as (ess & Hvi & ->); [|done].
    apply (validate_stateful_iff p p (shows_map p)); [done|]. exists ess. split; [|done].
    destruct Hvi as [Ha Hfr Hg Hd Hn Hnd Hc]. split; try done.
    - destruct op; try done. unfold is_active in *. apply Z.leb_le in Ha. apply Z.leb_le. lia.
    - eapply Forall2_impl; [exact Hg|]. intros g eg [? _]. by split. }
  revert Hv. unfold new_populated. destruct (decide _) as [Hlen|]; [|done]. rewrite !bind_Ok.
  intros (ptx & Hptx & Hv). injection Hptx as <-. exists (mk_populated tx es). split; [done|].
  revert Hv. rewrite !bind_Ok. intros (fee & Hfee & Hv). exists fee. split; [|done].
  eapply validate_populated_replay; [done| |done|done|exact Hfee]. by eapply entries_wf_of.
Qed.

Lemma oks_all {F A B C : Type} (f : A → outcome F B) (g : A → C) (h : B → C) l :
  Forall (λ a, ∃ b, f a = Ok b ∧ h b = g a) l → h <$> oks f l = g <$> l.
Proof.
  unfold oks. induction 1 as [|a l (b & Hb & Hh) _ IH]; [done|]. cbn [omap list_omap]. rewrite Hb.
  cbn [fmap list_fmap]. by rewrite Hh, IH.
Qed.

(** ** The context during the walk *)
Section base.
Context (U : UtxoCollection) (P : PoolCollection) (A0 : gset TransactionId).
Context (Hbase : history A0 U P).

Record walk (A : gset TransactionId) (s : UtxoCollection) (p : PoolCollection) (df : UtxoDiff) (pdf : PoolDiff) : Prop := {
  wk_fits : UtxoAlgebra.fits U df;
  wk_state : UtxoAlgebra.apply_diff U df = s;
  wk_pfits : PoolDiff.fits P pdf;
  wk_pstate : PoolDiff.apply_diff P pdf = p;
  wk_history : history A s p;
  wk_grows : A0 ⊆ A;
  wk_wf : utxo_wf s }.

Lemma recreates_vacuous A df tx daa :
  UtxoAlgebra.fits U df → A0 ⊆ A → id tx ∉ A ∨ creates_nothing tx → recreates_same df tx daa.
Proof.
  intros [Hr _] Hsub Hnew j o r Ho Hrem _. exfalso. apply Hr in Hrem.
  assert (Hin : id tx ∈ A). { apply Hsub. apply (hi_utxo _ _ _ Hbase (created_outpoint (id tx) j)). by eexists. }
  destruct Hnew as [?|[Hn _]]; [done|]. by rewrite Hn in Ho.
Qed.

Lemma same_values_vacuous A s p pdf tx v :
  stored tx → accepts s p tx v → PoolDiff.fits P pdf → A0 ⊆ A → id tx ∉ A ∨ creates_nothing tx →
  PoolDiff.same_values pdf (pool_mutation v).
Proof.
  intros Htx Hacc [Hr _]%fits_lookup Hsub Hnew sn e e' Hrem Hadd. exfalso.
  assert (Hsn : sn ∈ produces tx) by (apply (mutation_sides _ _ _ _ Hacc); by eexists).
  assert (Hin : id tx ∈ A). { apply Hsub. apply (hi_pool _ _ _ Hbase sn tx Htx Hsn). exists e. by apply Hr. }
  destruct Hnew as [?|[_ Hn]]; [done|]. rewrite Hn in Hsn. by apply elem_of_nil in Hsn.
Qed.

(** One accepted transaction: both diffs take it, and value moves into its fee. *)
Lemma walk_accept {E : Type} A s p df pdf tx v pov :
  stored tx → is_coinbase tx = false → accepts s p tx v → id tx ∉ A ∨ creates_nothing tx →
  walk A s p df pdf → 0 ≤ pov < 2 ^ 62 →
  ∃ df' pdf', unwrap_result (E := E) (add_transaction df (vtx v) pov) = Ok df' ∧
    match validated_pool_op v with
    | Some x => unwrap_result (PoolDiff.with_diff_in_place pdf (vdiff x))
    | None => Ok pdf
    end = Ok (E := E) pdf' ∧
    walk ({[id tx]} ∪ A) (tx_apply s tx pov) (pool_after p v) df' pdf' ∧
    applicable s (vtx v) ∧
    utxo_value (tx_apply s tx pov) + pool_value (pool_after p v) + calculated_fee v = utxo_value s + pool_value p.
Proof.
  intros Htx Hcb Hacc Hnew [Hf Hs Hpf Hp Hh Hsub Hwf] Hpov.
  pose proof (accepts_applicable A s p tx v Htx Hcb Hacc Hh Hnew) as Happ.
  destruct (fresh_of A s p tx Htx Hh Hnew) as [_ Hfresh]. pose proof (mutation_fits _ _ _ _ Hacc Hfresh) as Hmf.
  assert (Htxv := ac_tx _ _ _ _ Hacc).
  destruct (add_transaction_sound U df (vtx v) pov Hf) as (df' & Hadd & Hf' & Hs');
    [by rewrite Hs|by rewrite Htxv; eapply recreates_vacuous|]. rewrite Hs, Htxv in Hs'.
  assert (Hpool : ∃ pdf', match validated_pool_op v with
      | Some x => unwrap_result (PoolDiff.with_diff_in_place pdf (vdiff x)) | None => Ok pdf end = Ok (E := E) pdf' ∧
      PoolDiff.fits P pdf' ∧ PoolDiff.apply_diff P pdf' = pool_after p v).
  { unfold pool_after. pose proof (same_values_vacuous A s p pdf tx v Htx Hacc Hpf Hsub Hnew) as Hsv.
    unfold pool_mutation in *. destruct (validated_pool_op v) as [x|].
    - destruct (compose_sound P pdf (vdiff x) Hpf) as (-> & Hf1 & Hp1); rewrite ?as_diff_id; [by rewrite Hp|done|].
      eexists. split; [done|]. split; [done|]. by rewrite Hp1, as_diff_id, Hp.
    - exists pdf. split; [done|]. split; [done|]. rewrite Hp. apply map_eq. intros sn. rewrite apply_diff_lookup.
      cbn. by rewrite !lookup_empty. }
  destruct Hpool as (pdf' & Hpd & Hpf' & Hp'). exists df', pdf'. rewrite Hadd. split; [done|]. split; [done|].
  split; [|split; [done|]].
  - split; try done; [by eapply history_accept|set_solver|by apply tx_apply_wf].
  - pose proof (tx_apply_value s (vtx v) pov Happ) as Hval. rewrite Htxv in Hval.
    pose proof (pool_mutation_value _ _ _ _ Hacc Hfresh) as Hpval. destruct (ac_fee _ _ _ _ Hacc) as [_ Hfee]. lia.
Qed.
(** ** The transactions of one block *)
Definition tx_of (v : ValidatedTransaction * Z) : Transaction := pop_tx (vtx v.1).

Lemma accepts_agree s p s' p' tx v :
  accepts s p tx v → (∀ op, op ∈ spends tx → s' !! op = s !! op) → (∀ sn, sn ∈ consumes tx → p' !! sn = p !! sn) →
  accepts s' p' tx v.
Proof.
  intros [Ht He Hp Hf] Hs' Hp'. split; [done| | |done].
  - apply Forall2_same_length_lookup_2; [by eapply Forall2_length|]. intros k i e Hi Hk.
    destruct (Forall2_lookup_lr _ _ _ _ _ _ He Hi Hk). apply Hs'. apply list_elem_of_fmap. exists i.
    split; [done|]. by eapply list_elem_of_lookup_2.
  - unfold consumes in Hp'. destruct (op_of tx) as [op|]; [|done]. destruct Hp as (ess & Hl & ?). exists ess. split; [|done].
    apply Forall2_same_length_lookup_2; [by eapply Forall2_length|]. intros k sn e Hi Hk.
    rewrite Hp' by (by eapply list_elem_of_lookup_2). exact (Forall2_lookup_lr _ _ _ _ _ _ Hl Hi Hk).
Qed.

(** Transactions that do not touch what the others need. *)
Record apart (txs : list Transaction) : Prop := {
  ap_ids : NoDup (id <$> txs);
  ap_spends : NoDup (flat_map spends txs);
  ap_consumes : NoDup (flat_map consumes txs);
  ap_unchained : ∀ tx tx' op, tx ∈ txs → tx' ∈ txs → op ∈ spends tx → op ∉ created_outpoints tx' }.

Lemma apart_cons tx txs :
  apart (tx :: txs) → apart txs ∧ ∀ tx', tx' ∈ txs →
    (id tx' ≠ id tx) ∧ (∀ op, op ∈ spends tx' → (op ∉ spends tx) ∧ (op ∉ created_outpoints tx)) ∧
    (∀ sn, sn ∈ consumes tx' → sn ∉ consumes tx).
Proof.
  intros [Hi Hs Hc Hu]. rewrite fmap_cons in Hi. cbn [flat_map] in *.
  apply NoDup_cons in Hi as [Hi Hi']. apply NoDup_app in Hs as (_ & Hs & Hs'), Hc as (_ & Hc & Hc'). split.
  - split; try done. intros t1 t2 op Ht1 Ht2. apply Hu; by right.
  - intros tx' Ht'. split_and!.
    + intros Heq. apply Hi. rewrite <- Heq. by apply list_elem_of_fmap_2.
    + intros op Hop. split; [|by apply (Hu tx'); [right|left|]]. intros Hop'. apply (Hs op Hop').
      apply list_elem_of_In, in_flat_map. exists tx'. by rewrite <- !list_elem_of_In.
    + intros sn Hsn Hsn'. apply (Hc sn Hsn'). apply list_elem_of_In, in_flat_map. exists tx'. by rewrite <- !list_elem_of_In.
Qed.

Definition absorb (ctx : UtxoProcessingContext) (df : UtxoDiff) (pdf : PoolDiff) (l : list (ValidatedTransaction * Z))
    : UtxoProcessingContext :=
  mk_context (ctx_ghostdag_data ctx) (multiset_hash ctx) df pdf (accepted_tx_ids ctx ++ ((λ v, vtx_id v.1) <$> l))
    (accepted_tx_versions ctx ++ ((λ v, tx_version (tx_of v)) <$> l)) (mergeset_acceptance_data ctx)
    (mergeset_rewards ctx) (pruning_sample_from_pov ctx).
Definition fees (l : list (ValidatedTransaction * Z)) : Z := Zsum ((λ v, calculated_fee v.1) <$> l).

Lemma utxo_value_nonneg s : utxo_wf s → 0 ≤ utxo_value s.
Proof. intros Hs. apply map_sum_nonneg. intros op e He. destruct (Hs op e He). lia. Qed.
Lemma pool_value_nonneg (p : PoolCollection) : 0 ≤ pool_value p.
Proof. apply map_sum_nonneg. intros sn e _. unfold entry_petals. pose proof (petals_range (d (note e))). lia. Qed.

Section hashes.
Hypothesis element_ok : ∀ data, byte_array 384 (element_bytes data).

Lemma walk_block {E : Type} l A s p ctx f pov :
  apart (tx_of <$> l) →
  Forall (λ v, stored (tx_of v) ∧ is_coinbase (tx_of v) = false ∧ accepts s p (tx_of v) v.1 ∧
               (id (tx_of v) ∉ A ∨ creates_nothing (tx_of v))) l →
  walk A s p (mergeset_diff ctx) (mergeset_pool_diff ctx) → 0 ≤ pov < 2 ^ 62 →
  f + utxo_value s + pool_value p ≤ u64_max →
  ∃ A' s' p' df pdf, try_fold (accept_transaction (E := E) pov) (ctx, f) l = Ok (absorb ctx df pdf l, f + fees l) ∧
    walk A' s' p' df pdf ∧ A' = list_to_set (id <$> (tx_of <$> l)) ∪ A ∧
    s' = foldl (λ s v, tx_apply s (tx_of v) pov) s l ∧ p' = foldl (λ p v, pool_after p v.1) p l ∧
    utxo_value s' + pool_value p' + fees l = utxo_value s + pool_value p ∧
    set_prod s' * spent_all ((λ v, vtx v.1) <$> l) = set_prod s * created_all ((λ v, vtx v.1) <$> l) pov.
Proof.
  revert A s p ctx f. induction l as [|v l IH]; intros A s p ctx f Hap Hall Hw Hpov Hsum; cbn [try_fold].
  { exists A, s, p, (mergeset_diff ctx), (mergeset_pool_diff ctx). unfold absorb, fees. cbn. rewrite !app_nil_r, !Z.add_0_r.
    split; [by destruct ctx|]. split; [done|]. split; [set_solver|]. done. }
  rewrite fmap_cons in Hap. destruct (apart_cons _ _ Hap) as [Hap' Hdis].
  apply Forall_cons in Hall as [(Htx & Hcb & Hacc & Hnew) Hall].
  destruct (walk_accept (E := E) A s p _ _ (tx_of v) v.1 pov Htx Hcb Hacc Hnew Hw Hpov)
    as (df & pdf & Hadd & Hpool & Hw' & Happ & Hval).
  pose proof (utxo_value_nonneg _ (wk_wf _ _ _ _ _ Hw')). pose proof (pool_value_nonneg (pool_after p v.1)).
  destruct (ac_fee _ _ _ _ Hacc) as [Hfee _]. unfold accept_transaction at 2. cbn [fst snd]. rewrite Hadd.
  cbn [mbind outcome_bind]. rewrite Hpool. cbn [mbind outcome_bind]. rewrite u64_add_total by lia. cbn [mbind outcome_bind].
  destruct (fresh_of A s p (tx_of v) Htx (wk_history _ _ _ _ _ Hw) Hnew) as [_ Hfp].
  match goal with |- context [try_fold _ (?c, _) l] => set (ctx1 := c) end.
  destruct (IH ({[id (tx_of v)]} ∪ A) (tx_apply s (tx_of v) pov) (pool_after p v.1) ctx1 (f + calculated_fee v.1))
    as (A' & s' & p' & df' & pdf' & Hrun & Hwalk & HA & Hs' & Hp' & Hv' & Hprod); [done| |exact Hw'|done| |].
  - apply Forall_forall. intros v' Hv'. rewrite Forall_forall in Hall. destruct (Hall v' Hv') as (Htx' & Hcb' & Hacc' & Hnew').
    destruct (Hdis (tx_of v')) as (Hid & Hsp & Hco); [by apply list_elem_of_fmap_2|].
    split; [done|]. split; [done|]. split; [|set_solver]. eapply accepts_agree; [done| |].
    + intros op Hop. destruct (Hsp op Hop). by apply tx_apply_other.
    + intros sn Hsn. eapply pool_after_other; [done|by apply Hco|]. intros Hpr.
      destruct (accepts_consumes _ _ _ _ Hacc' sn Hsn). rewrite (Hfp sn Hpr) in *. done.
  - lia.
  - exists A', s', p', df', pdf'. rewrite Hrun. split.
    { unfold absorb, fees, ctx1. cbn [fmap list_fmap ctx_ghostdag_data multiset_hash accepted_tx_ids accepted_tx_versions
        mergeset_acceptance_data mergeset_rewards pruning_sample_from_pov]. rewrite Zsum_cons, <- !app_assoc. cbn [app].
      by rewrite Z.add_assoc. }
    split; [done|]. split; [rewrite HA; set_solver|]. split; [done|]. split; [done|]. split.
    { unfold fees in *. rewrite fmap_cons, Zsum_cons. lia. }
    pose proof (tx_apply_prod s (vtx v.1) pov Happ) as Hone. fold (tx_of v) in Hone.
    unfold spent_all, created_all, list_prod in *. cbn [fmap list_fmap foldr].
    rewrite (Z.mul_comm (spent_prod _)), Z.mul_assoc, Hprod, <- Z.mul_assoc, (Z.mul_comm _ (spent_prod _)), Z.mul_assoc, Hone.
    unfold tx_of. by rewrite Z.mul_assoc.
Qed.
End hashes.
(** ** The mergeset, on plain maps *)
Definition flags_at (i : nat) : TxValidationFlags := if (i =? 0)%nat then SkipScriptChecks else Full.

(** The transactions of a block that are valid in the state before it. *)
Definition valid_transactions (pov : Z) (sp : Hash) (flags : TxValidationFlags) (s : UtxoCollection) (p : PoolCollection)
    (txs : list Transaction) : list (ValidatedTransaction * Z) :=
  oks (validate_indexed self seq_commit_accessor s p pov flags sp) (indexed_transactions txs).
Definition apply_all (pov : Z) (s : UtxoCollection) (l : list (ValidatedTransaction * Z)) : UtxoCollection :=
  foldl (λ s v, tx_apply s (tx_of v) pov) s l.
Definition pool_all (p : PoolCollection) (l : list (ValidatedTransaction * Z)) : PoolCollection :=
  foldl (λ p v, pool_after p v.1) p l.

(** The reference semantics: block after block, the valid transactions are applied. *)
Fixpoint merge_blocks (pov : Z) (sp : Hash) (i : nat) (s : UtxoCollection) (p : PoolCollection)
    (blocks : list (Hash * list Transaction)) : list (list (ValidatedTransaction * Z)) :=
  match blocks with
  | [] => []
  | (_, txs) :: blocks =>
      let l := valid_transactions pov sp (flags_at i) s p txs in
      l :: merge_blocks pov sp (S i) (apply_all pov s l) (pool_all p l) blocks
  end.

Lemma oks_ext {F A B : Type} (f g : A → outcome F B) l :
  (∀ a b, a ∈ l → f a = Ok b ↔ g a = Ok b) → oks f l = oks g l.
Proof.
  intros Hfg. unfold oks. induction l as [|a l IH]; [done|]. cbn [omap list_omap].
  assert (Ha : match f a with Ok b => Some b | _ => None end = match g a with Ok b => Some b | _ => None end).
  { pose proof (λ b, Hfg a b (list_elem_of_here _ _)) as Hb.
    destruct (f a) as [b| |] eqn:Hf, (g a) as [b'| |] eqn:Hg; try done.
    - pose proof (proj1 (Hb b) eq_refl). congruence.
    - by pose proof (proj1 (Hb b) eq_refl).
    - by pose proof (proj1 (Hb b) eq_refl).
    - by pose proof (proj2 (Hb b') eq_refl).
    - by pose proof (proj2 (Hb b') eq_refl). }
  rewrite Ha. rewrite IH by (intros; apply Hfg; by right). done.
Qed.

Section views.
Context {V Q : Type} `{UtxoView V} `{PoolStateView Q} (vw : V) (q : Q) (s : UtxoCollection) (p : PoolCollection).
Context (Hvw : UtxoAlgebra.shows vw s) (Hq : PoolDiff.shows q p).

Lemma validate_view tx pov flags sp x :
  stored tx →
  validate_transaction_in_utxo_context self seq_commit_accessor vw q tx pov flags sp = Ok x ↔
  validate_transaction_in_utxo_context self seq_commit_accessor s p tx pov flags sp = Ok x.
Proof.
  intros Htx. unfold validate_transaction_in_utxo_context.
  assert (Hget : ∀ l, try_map (λ i, ok_or (UtxoAlgebra.get vw (previous_outpoint i))
      (MissingTxOutpoints (TxScriptError := TxScriptError))) l =
    try_map (λ i, ok_or (UtxoAlgebra.get s (previous_outpoint i)) MissingTxOutpoints) l).
  { induction l as [|i l IH]; [done|]. cbn [try_map]. rewrite IH, (Hvw (previous_outpoint i)). done. }
  rewrite Hget. assert (Hpool : ∀ skip y, validate_pool_op_in_context self q tx pov skip = Ok y ↔
    validate_pool_op_in_context self p tx pov skip = Ok y).
  { intros skip y. unfold validate_pool_op_in_context. case_bool_decide as Hsub; [|done].
    destruct (stored_op tx Htx Hsub) as (op & -> & _ & Hv). cbn [ok_or mbind outcome_bind].
    rewrite !bind_Ok. setoid_rewrite map_err_Ok. setoid_rewrite (validate_stateful_iff q p Hq); [|done].
    by setoid_rewrite (validate_stateful_iff p p (shows_map p)). }
  rewrite !bind_Ok. setoid_rewrite bind_Ok. by setoid_rewrite Hpool.
Qed.

Lemma valid_transactions_view pov sp flags txs :
  Forall stored (drop 1 txs) →
  oks (validate_indexed self seq_commit_accessor vw q pov flags sp) (indexed_transactions txs) =
  valid_transactions pov sp flags s p txs.
Proof.
  intros Hall. apply oks_ext. intros [i tx] [x n] Hin. unfold validate_indexed. cbn [fst snd].
  rewrite !bind_Ok. assert (Htx : stored tx).
  { rewrite Forall_forall in Hall. apply Hall. rewrite <- indexed_snd. by apply (list_elem_of_fmap_2 snd) in Hin. }
  setoid_rewrite validate_view; done.
Qed.
End views.
(** ** One merged block *)
Lemma flat_map_sublist {A B} (f : A → list B) l k : l `sublist_of` k → flat_map f l `sublist_of` flat_map f k.
Proof. induction 1 as [|x l k _ IH|x l k _ IH]; cbn [flat_map]; [done|by apply sublist_app|by apply sublist_inserts_l]. Qed.

Lemma apart_sublist txs txs' : txs `sublist_of` txs' → apart txs' → apart txs.
Proof.
  intros Hsub [Hi Hs Hc Hu]. split.
  - eapply sublist_NoDup; [exact Hi|]. by apply fmap_sublist.
  - eapply sublist_NoDup; [exact Hs|]. by apply flat_map_sublist.
  - eapply sublist_NoDup; [exact Hc|]. by apply flat_map_sublist.
  - intros tx tx' op Ht Ht'. apply Hu; by eapply sublist_subseteq.
Qed.

Lemma block_serials_consumes b : block_serials b = flat_map consumes (transactions b).
Proof.
  unfold block_serials, consumes, op_of. induction (transactions b) as [|tx txs IH]; [done|].
  cbn [flat_map]. rewrite filter_cons. case_bool_decide.
  - rewrite decide_True by done. cbn [flat_map]. by rewrite IH.
  - by rewrite decide_False.
Qed.

Lemma block_apart b txs : block_transactions_store self !! b = Some txs → apart txs.
Proof.
  intros Hb. destruct (sw_body Hst b txs Hb) as (h & Hbv). destruct (bv_independent _ _ _ Hbv) as [Hi Hs Hc Hu].
  rewrite block_serials_consumes in Hc. cbn [transactions] in *. split; [done|done|done|].
  intros tx tx' op Ht Ht' Hop Hcr. apply (Hu op).
  - apply list_elem_of_In, in_flat_map. exists tx. by rewrite <- !list_elem_of_In.
  - apply list_elem_of_In, in_flat_map. exists tx'. rewrite <- !list_elem_of_In. by split.
Qed.

Lemma block_shape b txs : block_transactions_store self !! b = Some txs →
  ∃ cb rest, txs = cb :: rest ∧ is_coinbase cb = true ∧
    Forall (λ tx, stored tx ∧ is_coinbase tx = false) rest ∧ stored cb.
Proof.
  intros Hb. destruct (sw_body Hst b txs Hb) as (h & Hbv). destruct (bv_coinbase _ _ _ Hbv) as (cb & rest & Heq & Hcb & Hr).
  cbn [transactions] in Heq. subst txs. exists cb, rest. split; [done|]. split; [done|]. split.
  - rewrite Forall_forall in Hr |- *. intros tx Htx. split; [|by apply Hr]. exists b, (cb :: rest). split; [done|by right].
  - exists b, (cb :: rest). split; [done|by left].
Qed.

Lemma oks_sublist (f : Transaction → outcome (TxRuleError TxScriptError) ValidatedTransaction) l :
  (∀ tx v, tx ∈ l.*2 → f tx = Ok v → pop_tx (vtx v) = tx) →
  tx_of <$> oks (λ itx : nat * Transaction, v ← f itx.2; Ok (v, Z.of_nat itx.1 mod 2 ^ 32)) l `sublist_of` l.*2.
Proof.
  intros Hf. unfold oks. induction l as [|[i tx] l IH]; [done|]. cbn [omap list_omap fst snd].
  assert (Hl : ∀ tx v, tx ∈ l.*2 → f tx = Ok v → pop_tx (vtx v) = tx) by (intros; apply Hf; [by right|done]).
  destruct (f tx) as [v| |] eqn:Hv; cbn [mbind outcome_bind fmap list_fmap snd]; [|by apply sublist_cons, IH..].
  unfold tx_of at 1. cbn [fst]. rewrite (Hf tx v) by (done || by left). by apply sublist_skip, IH.
Qed.

Section merged.
Context (pov : Z) (Hpov : 0 ≤ pov < 2 ^ 62).

Lemma valid_transactions_accept b txs A s p sp flags :
  block_transactions_store self !! b = Some txs → history A s p → utxo_wf s →
  apart (tx_of <$> valid_transactions pov sp flags s p txs) ∧
  Forall (λ v, stored (tx_of v) ∧ is_coinbase (tx_of v) = false ∧ accepts s p (tx_of v) v.1 ∧
               (id (tx_of v) ∉ A ∨ creates_nothing (tx_of v))) (valid_transactions pov sp flags s p txs).
Proof.
  intros Hb Hh Hwf. destruct (block_shape b txs Hb) as (cb & rest & -> & _ & Hrest & _). rewrite Forall_forall in Hrest.
  assert (Hin : (indexed_transactions (cb :: rest)).*2 = rest) by apply (indexed_snd (cb :: rest)).
  assert (Hacc : ∀ tx v, tx ∈ rest → validate_transaction_in_utxo_context self seq_commit_accessor s p tx pov flags sp = Ok v →
            accepts s p tx v).
  { intros tx v Htx. destruct (Hrest tx Htx) as [Hs Hc].
    by apply (validate_context_spec s p s p (utxo_shows_map s) (shows_map p) Hwf tx pov flags sp Hs Hc Hpov). }
  split.
  - eapply apart_sublist; [|by eapply block_apart]. apply sublist_cons.
    pose proof (oks_sublist (λ tx, validate_transaction_in_utxo_context self seq_commit_accessor s p tx pov flags sp)
      (indexed_transactions (cb :: rest))) as Hsub. rewrite Hin in Hsub. apply Hsub.
    intros tx v Htx Hv. by apply (ac_tx s p), Hacc.
  - apply Forall_forall. intros [v n] ([i tx] & Hitx & Hv)%elem_of_oks. unfold validate_indexed in Hv. cbn [fst snd] in Hv.
    apply bind_Ok in Hv as (v' & Hv' & Heq). injection Heq as <- <-.
    assert (Htx : tx ∈ rest) by (rewrite <- Hin; by apply (list_elem_of_fmap_2 snd) in Hitx).
    destruct (Hrest tx Htx) as [Hs Hc]. pose proof (Hacc tx v' Htx Hv') as Ha. unfold tx_of. cbn [fst].
    rewrite (ac_tx _ _ _ _ Ha). split_and!; [done|done|done|]. by eapply accepts_new.
Qed.
Hypothesis element_ok : ∀ data, byte_array 384 (element_bytes data).
Context {V Q : Type} `{UtxoView V} `{PoolStateView Q} (vw : V) (q : Q).
Context (Hvw : UtxoAlgebra.shows vw U) (Hq : PoolDiff.shows q P).

Lemma accept_ignores_hash {E : Type} l ctx f mh ctx' f' :
  try_fold (accept_transaction (E := E) pov) (ctx, f) l = Ok (ctx', f') →
  try_fold (accept_transaction (E := E) pov) (set_multiset_hash ctx mh, f) l = Ok (set_multiset_hash ctx' mh, f').
Proof.
  revert ctx f. induction l as [|v l IH]; intros ctx f; cbn [try_fold]; [by intros [= <- <-]|].
  unfold accept_transaction at 2 4. cbn [fst snd set_multiset_hash mergeset_diff mergeset_pool_diff].
  destruct (unwrap_result (add_transaction _ _ _)) as [df| |]; [|done..]. cbn [mbind outcome_bind].
  destruct (match validated_pool_op v.1 with Some _ => _ | None => _ end) as [pdf| |]; [|done..]. cbn [mbind outcome_bind].
  destruct (u64_add f (calculated_fee v.1)) as [g| |]; [|done..]. cbn [mbind outcome_bind].
  intros Hrun. apply IH in Hrun. exact Hrun.
Qed.

(** The context after a block, its multiset hash aside. *)
Definition after_block (ctx : UtxoProcessingContext) (df : UtxoDiff) (pdf : PoolDiff) (b : Hash) (i : nat)
    (coinbase_id : TransactionId) (data : CoinbaseData) (l : list (ValidatedTransaction * Z)) : UtxoProcessingContext :=
  record_block (absorb ctx df pdf l)
    (mk_acceptance b ((if (i =? 0)%nat then [mk_accepted coinbase_id 0] else [])
       ++ ((λ v, mk_accepted (vtx_id v.1) v.2) <$> l)))
    (mk_reward (cb_subsidy data) (fees l) (miner_script (cb_miner data))).

Lemma merged_block_spec {E : Type} A s p ctx b txs i cid :
  block_transactions_store self !! b = Some txs → is_Some (headers_daa_scores self !! b) →
  walk A s p (mergeset_diff ctx) (mergeset_pool_diff ctx) → utxo_value s + pool_value p ≤ u64_max →
  let l := valid_transactions pov (selected_parent (ctx_ghostdag_data ctx)) (flags_at i) s p txs in
  ∃ df pdf data,
    walk (list_to_set (id <$> (tx_of <$> l)) ∪ A) (apply_all pov s l) (pool_all p l) df pdf ∧
    utxo_value (apply_all pov s l) + pool_value (pool_all p l) + fees l = utxo_value s + pool_value p ∧ 0 ≤ fees l ∧
    (∃ cb rest, txs = cb :: rest ∧ deserialize_coinbase_payload (coinbase_manager self) (payload cb) = Ok data) ∧
    ∀ sch mh, commits mh s → ∃ mh',
      process_merged_block (E := E) self seq_commit_accessor vw q pov sch cid i (set_multiset_hash ctx mh) (b, txs) =
        Ok (set_multiset_hash (after_block ctx df pdf b i cid data l) mh') ∧
      commits mh' (apply_all pov s l).
Proof.
  intros Hb [sc Hsc] Hw Hsum l. destruct (block_shape b txs Hb) as (cb & rest & Htxs & Hcb & Hrest & Hcbs).
  destruct (sw_payload Hst b cb rest) as (data & Hdata); [by rewrite <- Htxs|].
  pose proof (wk_history _ _ _ _ _ Hw) as Hh. pose proof (wk_wf _ _ _ _ _ Hw) as Hwf.
  destruct (valid_transactions_accept b txs A s p (selected_parent (ctx_ghostdag_data ctx)) (flags_at i) Hb Hh Hwf) as [Hap Hall].
  fold l in Hap, Hall.
  destruct (walk_block (E := E) element_ok l A s p ctx 0 pov Hap Hall Hw Hpov) as (A' & s' & p' & df & pdf & Hrun & Hw' & -> & -> & -> & Hval & Hprod);
    [lia|]. exists df, pdf, data. split; [done|]. split; [done|]. split.
  { apply Zsum_nonneg, Forall_fmap. eapply Forall_impl; [exact Hall|]. intros v (_ & _ & Ha & _). apply (ac_fee _ _ _ _ Ha). }
  split; [by exists cb, rest|].
  intros sch mh Hmh.
  set (cv := UtxoAlgebra.compose vw (mergeset_diff ctx)). set (cq := PoolDiff.compose q (mergeset_pool_diff ctx)).
  assert (Hcv : UtxoAlgebra.shows cv s).
  { pose proof (utxo_shows_compose vw U (mergeset_diff ctx) Hvw) as Hsh. by rewrite as_utxo_diff_id, (wk_state _ _ _ _ _ Hw) in Hsh. }
  assert (Hcq : PoolDiff.shows cq p).
  { pose proof (shows_compose q P (mergeset_pool_diff ctx) Hq) as Hsh. by rewrite as_diff_id, (wk_pstate _ _ _ _ _ Hw) in Hsh. }
  assert (Hst1 : Forall stored (drop 1 txs)).
  { rewrite Htxs. cbn [drop]. eapply Forall_impl; [exact Hrest|]. by intros tx []. }
  unfold process_merged_block. rewrite Hsc. cbn [unwrap mbind outcome_bind ctx_ghostdag_data set_multiset_hash multiset_hash mergeset_diff mergeset_pool_diff].
  fold cv cq. unfold validate_transactions_with_muhash_in_parallel.
  change (if (i =? 0)%nat then SkipScriptChecks else Full) with (flags_at i).
  rewrite filter_ok_total.
  2: { apply Forall_forall. intros [k tx] Hk. unfold validate_indexed. cbn [fst snd].
       rewrite Htxs in Hk. apply (list_elem_of_fmap_2 snd) in Hk. rewrite indexed_snd in Hk. cbn [drop snd] in Hk.
       rewrite Forall_forall in Hrest. destruct (Hrest tx Hk) as [Htx Hc]. apply not_panic_bind; [|by intros].
       by apply (validate_context_spec cv cq s p Hcv Hcq Hwf). }
  rewrite (valid_transactions_view cv cq s p Hcv Hcq) by done. fold l. cbn [mbind outcome_bind].
  destruct (reduce_transactions element_ok (E := E) (sch i) (λ vi : ValidatedTransaction * Z, vtx vi.1) l pov) as (inner & Hin & Hratio).
  cbn [mbind outcome_bind] in Hin. rewrite Hin. cbn [mbind outcome_bind].
  destruct (combine_commits (E := E) mh inner s _ _ _ Hmh Hratio (spent_all_elements _) Hprod) as (mh' & -> & Hmh'). cbn [mbind outcome_bind].
  match goal with |- context [try_fold _ (?c, 0) l] => change c with (set_multiset_hash ctx mh') end.
  assert (Hrun' : try_fold (accept_transaction (E := E) pov) (set_multiset_hash ctx mh', 0) l =
            Ok (set_multiset_hash (absorb ctx df pdf l) mh', fees l)).
  { by apply (accept_ignores_hash l ctx 0). }
  rewrite Hrun'. cbn [mbind outcome_bind]. assert (Hfirst : txs !! 0%nat = Some cb) by (by rewrite Htxs).
  rewrite Hfirst. cbn [unwrap mbind outcome_bind]. rewrite Hdata. cbn [unwrap_result mbind outcome_bind].
  exists mh'. split; [|done]. reflexivity.
Qed.
Lemma apply_all_app s l1 l2 : apply_all pov s (l1 ++ l2) = apply_all pov (apply_all pov s l1) l2.
Proof. apply foldl_app. Qed.
Lemma pool_all_app p l1 l2 : pool_all p (l1 ++ l2) = pool_all (pool_all p l1) l2.
Proof. apply foldl_app. Qed.

(** What is recorded for the miner of a merged block. *)
Definition reward_entry (b : Hash) (r : BlockRewardData) : Prop :=
  ∃ cb rest data, block_transactions_store self !! b = Some (cb :: rest) ∧
    deserialize_coinbase_payload (coinbase_manager self) (payload cb) = Ok data ∧
    rw_subsidy r = cb_subsidy data ∧ 0 ≤ total_fees r.
(** What is known of an accepted transaction. *)
Definition accepted_new (v : ValidatedTransaction * Z) : Prop :=
  stored (tx_of v) ∧ is_coinbase (tx_of v) = false ∧ (id (tx_of v) ∉ A0 ∨ creates_nothing (tx_of v)) ∧
  ∃ s p, accepts s p (tx_of v) v.1.

(** The acceptance data and the rewards recorded for the blocks of a mergeset, [ls] being
    the transactions accepted from each. *)
Definition coinbase_data (txs : list Transaction) : option CoinbaseData :=
  match txs with
  | cb :: _ => match deserialize_coinbase_payload (coinbase_manager self) (payload cb) with Ok data => Some data | _ => None end
  | [] => None
  end.
Definition block_reward (txs : list Transaction) (l : list (ValidatedTransaction * Z)) : BlockRewardData :=
  mk_reward (from_option cb_subsidy 0 (coinbase_data txs)) (fees l)
    (from_option (λ data, miner_script (cb_miner data)) (mk_spk 0 []) (coinbase_data txs)).
Fixpoint merged_data (cid : TransactionId) (i : nat) (d : list MergesetBlockAcceptanceData * gmap Hash BlockRewardData)
    (blocks : list (Hash * list Transaction)) (ls : list (list (ValidatedTransaction * Z)))
    : list MergesetBlockAcceptanceData * gmap Hash BlockRewardData :=
  match blocks, ls with
  | (b, txs) :: blocks, l :: ls =>
      merged_data cid (S i) (d.1 ++ [mk_acceptance b ((if (i =? 0)%nat then [mk_accepted cid 0] else [])
        ++ ((λ v, mk_accepted (vtx_id v.1) v.2) <$> l))], <[b := block_reward txs l]> d.2) blocks ls
  | _, _ => d
  end.

(** What the walk over the mergeset leaves, from the state [s], [p] and the context [ctx]. *)
Record walked (A : gset TransactionId) (s : UtxoCollection) (p : PoolCollection) (ctx : UtxoProcessingContext)
    (cid : TransactionId) (i : nat) (blocks : list (Hash * list Transaction)) (ls : list (list (ValidatedTransaction * Z)))
    (ctx' : UtxoProcessingContext) : Prop := {
  wd_walk : walk (list_to_set (id <$> (tx_of <$> concat ls)) ∪ A) (apply_all pov s (concat ls)) (pool_all p (concat ls))
    (mergeset_diff ctx') (mergeset_pool_diff ctx');
  wd_data : ctx_ghostdag_data ctx' = ctx_ghostdag_data ctx;
  wd_ids : accepted_tx_ids ctx' = accepted_tx_ids ctx ++ ((λ v, vtx_id v.1) <$> concat ls);
  wd_recorded : (mergeset_acceptance_data ctx', mergeset_rewards ctx') =
    merged_data cid i (mergeset_acceptance_data ctx, mergeset_rewards ctx) blocks ls;
  wd_rewards : dom (mergeset_rewards ctx') = list_to_set blocks.*1 ∪ dom (mergeset_rewards ctx);
  wd_entries : map_Forall reward_entry (mergeset_rewards ctx) → map_Forall reward_entry (mergeset_rewards ctx');
  wd_accepted : Forall accepted_new (concat ls);
  wd_value : utxo_value (apply_all pov s (concat ls)) + pool_value (pool_all p (concat ls)) + map_sum total_fees (mergeset_rewards ctx') =
    utxo_value s + pool_value p + map_sum total_fees (mergeset_rewards ctx) }.

Lemma merge_walk {E : Type} blocks A s p ctx i cid :
  Forall (λ bt, block_transactions_store self !! bt.1 = Some bt.2 ∧ is_Some (headers_daa_scores self !! bt.1)) blocks →
  NoDup blocks.*1 → (∀ b, b ∈ blocks.*1 → b ∉ dom (mergeset_rewards ctx)) →
  walk A s p (mergeset_diff ctx) (mergeset_pool_diff ctx) → utxo_value s + pool_value p ≤ u64_max →
  ∃ ctx', walked A s p ctx cid i blocks (merge_blocks pov (selected_parent (ctx_ghostdag_data ctx)) i s p blocks) ctx' ∧
    ∀ sch mh, commits mh s → ∃ mh',
      try_foldi (process_merged_block (E := E) self seq_commit_accessor vw q pov sch cid) i (set_multiset_hash ctx mh) blocks =
        Ok (set_multiset_hash ctx' mh') ∧
      commits mh' (apply_all pov s (concat (merge_blocks pov (selected_parent (ctx_ghostdag_data ctx)) i s p blocks))).
Proof.
  revert A s p ctx i. induction blocks as [|[b txs] blocks IH]; intros A s p ctx i Hall Hnd Hnew Hw Hsum.
  { exists ctx. split.
    - split; cbn; [by rewrite (left_id_L ∅ (∪))|done|by rewrite app_nil_r|done|by rewrite (left_id_L ∅ (∪))|done|constructor|done].
    - intros sch mh Hmh. by exists mh. }
  apply Forall_cons in Hall as [[Hb Hsc] Hall]. cbn [fst snd fmap list_fmap] in *. apply NoDup_cons in Hnd as [Hbn Hnd].
  destruct (merged_block_spec (E := E) A s p ctx b txs i cid Hb Hsc Hw Hsum) as (df & pdf & data & Hw1 & Hval & Hfee & Hpay & Hrun).
  cbn [merge_blocks concat]. set (l := valid_transactions _ _ _ _ _ _) in *. set (ctx1 := after_block ctx df pdf b i cid data l).
  assert (Hb1 : mergeset_rewards ctx !! b = None) by (apply not_elem_of_dom, Hnew; by left).
  destruct (IH (list_to_set (id <$> (tx_of <$> l)) ∪ A) (apply_all pov s l) (pool_all p l) ctx1 (S i) Hall Hnd)
    as (ctx' & [Hwk Hgd Hids Hrec Hrw Hen Hac Hv] & Hrest); [|exact Hw1|lia|].
  { intros b' Hb'. cbn [ctx1 after_block record_block absorb mergeset_rewards acc_block_hash]. rewrite dom_insert.
    assert (b' ∉ dom (mergeset_rewards ctx)) by (apply Hnew; by right). set_solver. }
  change (ctx_ghostdag_data ctx1) with (ctx_ghostdag_data ctx) in *. exists ctx'. split.
  - split.
    + cbn [concat]. rewrite apply_all_app, pool_all_app, !fmap_app, list_to_set_app_L, <- (assoc_L (∪)),
        (assoc_L (∪) (list_to_set (id <$> (tx_of <$> l)))), (comm_L (∪) (list_to_set (id <$> (tx_of <$> l)))), <- (assoc_L (∪)).
      exact Hwk.
    + done.
    + cbn [concat]. rewrite Hids, fmap_app, (assoc_L (++)). done.
    + rewrite Hrec. destruct Hpay as (cb & rest & -> & Hd). cbn [merged_data]. unfold block_reward, coinbase_data. by rewrite Hd.
    + rewrite Hrw. cbn [ctx1 after_block record_block absorb mergeset_rewards acc_block_hash]. rewrite dom_insert_L. set_solver.
    + intros Hctx. apply Hen. cbn [ctx1 after_block record_block absorb mergeset_rewards acc_block_hash]. apply map_Forall_insert_2; [|done].
      destruct Hpay as (cb & rest & -> & Hd). by exists cb, rest, data.
    + cbn [concat]. apply Forall_app. split; [|done]. destruct (valid_transactions_accept b txs A s p (selected_parent (ctx_ghostdag_data ctx))
        (flags_at i) Hb (wk_history _ _ _ _ _ Hw) (wk_wf _ _ _ _ _ Hw)) as [_ Hall'].
      eapply Forall_impl; [exact Hall'|]. intros v (? & ? & Ha & Hn). pose proof (wk_grows _ _ _ _ _ Hw).
      split_and!; [done|done|set_solver|by exists s, p].
    + cbn [concat]. rewrite apply_all_app, pool_all_app, Hv. cbn [ctx1 after_block record_block absorb mergeset_rewards acc_block_hash].
      rewrite map_sum_insert by done. cbn [total_fees]. lia.
  - intros sch mh Hmh. cbn [try_foldi]. destruct (Hrun sch mh Hmh) as (mh1 & -> & Hmh1). cbn [mbind outcome_bind].
    fold ctx1. destruct (Hrest sch mh1 Hmh1) as (mh' & -> & Hmh'). exists mh'. split; [done|]. by rewrite apply_all_app.
Qed.
(** ** The state of a block *)

(** The mergeset: its blocks are stored, and the coinbase of the selected parent is new. *)
Record mergeset_ok (gd : GhostdagData) (cb : Transaction) (blocks : list (Hash * list Transaction)) : Prop := {
  mo_first : ∃ rest bs, blocks = (selected_parent gd, cb :: rest) :: bs ∧
    ∀ E : Type, consensus_ordered_mergeset_without_selected_parent (E := E) gd (vp_ghostdag_store self) = Ok bs.*1;
  mo_stored : Forall (λ bt, block_transactions_store self !! bt.1 = Some bt.2 ∧
    is_Some (headers_daa_scores self !! bt.1)) blocks;
  mo_nodup : NoDup blocks.*1;
  mo_coinbase : id cb ∉ A0 }.

Lemma coinbase_walk cb :
  stored cb → is_coinbase cb = true → id cb ∉ A0 → utxo_wf U →
  ∃ df, add_transaction UtxoAlgebra.empty_diff (mk_populated cb []) pov = Ok df ∧
    walk ({[id cb]} ∪ A0) (tx_apply U cb pov) P df PoolDiff.empty_diff ∧ applicable U (mk_populated cb []) ∧
    utxo_value (tx_apply U cb pov) = utxo_value U + outputs_total (outputs cb).
Proof.
  intros Hcs Hcb Hid HU. destruct (stored_isolation cb Hcs) as (pov' & Hiso).
  destruct (iv_coinbase _ _ _ Hiso Hcb) as (Hin & _ & Hlen & _).
  assert (Happ : applicable U (mk_populated cb [])).
  { split; cbn [pop_tx entries]; rewrite ?Hin; [constructor|constructor| |].
    - apply (fresh_of A0 U P cb Hcs Hbase). by left.
    - apply created_nodup. pose proof (sw_k Hst). lia. }
  assert (Hid0 : UtxoAlgebra.apply_diff U UtxoAlgebra.empty_diff = U).
  { apply map_eq. intros op. rewrite utxo_apply_lookup. cbn. by rewrite !lookup_empty. }
  destruct (add_transaction_sound U UtxoAlgebra.empty_diff (mk_populated cb []) pov) as (df & Hadd & Hf & Hs).
  - by split; intros op e; cbn; rewrite lookup_empty.
  - by rewrite Hid0.
  - intros j o r _ Hr. cbn in Hr. by rewrite lookup_empty in Hr.
  - rewrite Hid0 in Hs. exists df. split; [done|]. split; [|split; [done|]].
    + split; [done|done| | | |set_solver|by apply tx_apply_wf].
      * apply fits_lookup. by split; intros sn e; cbn; rewrite lookup_empty.
      * apply map_eq. intros sn. rewrite apply_diff_lookup. cbn. by rewrite !lookup_empty.
      * by apply history_coinbase.
    + pose proof (tx_apply_value U (mk_populated cb []) pov Happ) as Hv. cbn [pop_tx entries] in Hv.
      change (entries_total []) with 0 in Hv. lia.
Qed.

Lemma calculate_spec {E : Type} gd cb blocks mh :
  mergeset_ok gd cb blocks → utxo_wf U → commits mh U →
  utxo_value U + pool_value P + outputs_total (outputs cb) ≤ u64_max →
  let s := tx_apply U cb pov in
  let ls := merge_blocks pov (selected_parent gd) 0 s P blocks in
  ∃ df ctx', walked ({[id cb]} ∪ A0) s P (mk_context gd mh df PoolDiff.empty_diff [] [] [] ∅ None) (id cb) 0 blocks ls ctx' ∧
    utxo_value s = utxo_value U + outputs_total (outputs cb) ∧
    ∀ sch, ∃ mh', calculate_utxo_state (E := E) self seq_commit_accessor vw q pov sch (new_context gd mh) =
        Ok (set_multiset_hash ctx' mh') ∧ commits mh' (apply_all pov s (concat ls)).
Proof.
  intros [(rest & bs & Hbl & Hms) Hstored Hnd Hid] HU Hmh Hsum s ls.
  assert (Hsp : block_transactions_store self !! selected_parent gd = Some (cb :: rest)).
  { rewrite Hbl in Hstored. by apply Forall_cons in Hstored as [[? _] _]. }
  destruct (block_shape _ _ Hsp) as (cb' & rest' & Heq & Hcb & _ & Hcs). injection Heq as <- <-.
  destruct (coinbase_walk cb Hcs Hcb Hid HU) as (df & Hadd & Hw & Happ & Hval).
  destruct (add_transaction_commits element_ok (E := E) mh U (mk_populated cb []) pov Hmh Happ) as (mh1 & Hmh1 & Hc1).
  set (ctx0 := mk_context gd mh df PoolDiff.empty_diff [] [] [] ∅ None).
  destruct (merge_walk (E := E) blocks ({[id cb]} ∪ A0) s P ctx0 0 (id cb) Hstored Hnd) as (ctx' & Hwd & Hrun);
    [intros b _; cbn; rewrite dom_empty; set_solver|exact Hw|fold s in Hval; lia|].
  exists df, ctx'. split; [exact Hwd|]. split; [done|]. intros sch. unfold calculate_utxo_state, new_context.
  cbn [ctx_ghostdag_data multiset_hash mergeset_diff mergeset_pool_diff accepted_tx_ids accepted_tx_versions
    mergeset_acceptance_data mergeset_rewards pruning_sample_from_pov].
  rewrite Hsp. cbn [unwrap mbind outcome_bind lookup list_lookup]. unfold new_coinbase. rewrite Hcb. cbn [mbind outcome_bind vtx].
  rewrite Hadd. cbn [unwrap_result mbind outcome_bind]. rewrite Hmh1. cbn [mbind outcome_bind]. rewrite Hms. cbn [mbind outcome_bind].
  assert (Hblocks : try_map (λ b, txs ← unwrap (E := E) (block_transactions_store self !! b); Ok (b, txs)) bs.*1 = Ok bs).
  { rewrite Hbl in Hstored. apply Forall_cons in Hstored as [_ Hstored]. clear -Hstored.
    induction Hstored as [|[b txs] bs [Hb _] _ IH]; [done|]. cbn [fmap list_fmap try_map fst snd] in *. rewrite Hb.
    cbn [unwrap mbind outcome_bind]. by rewrite IH. }
  rewrite Hblocks. cbn [mbind outcome_bind]. rewrite <- Hbl.
  destruct (Hrun sch mh1 Hc1) as (mh' & Hr & Hc'). exists mh'. split; [|exact Hc']. exact Hr.
Qed.
End merged.

(** ** Verification of a block *)
Section verification.
Context (recompute_seq_commit : GhostdagData → list MergesetBlockAcceptanceData → Header →
  outcome (RuleError TxScriptError) Hash).
Context (expected_header_pruning_point : GhostdagData → Hash * Hash).

Lemma write_delete_apply (m : PoolCollection) (dd : PoolDiff) :
  write_many (delete_many m (map_to_list (PoolDiff.remove dd)).*1) (map_to_list (PoolDiff.add dd)) =
  PoolDiff.apply_diff m dd.
Proof.
  apply map_eq. intros sn. rewrite apply_diff_lookup. unfold write_many.
  rewrite (insert_if_lookup (λ _, true)), delete_many_keys. done.
Qed.

Lemma recompute_pool_commitment_total (m : PoolCollection) (d1 d2 : PoolDiff) (p : PoolCollection) :
  PoolDiff.apply_diff (PoolDiff.apply_diff m d1) d2 = p → serials_ok p →
  ∃ root, recompute_pool_commitment m d1 d2 = Ok root ∧ root = pool_root p.
Proof.
  intros Hp Hser. unfold recompute_pool_commitment. rewrite !write_delete_apply, Hp. exists (pool_root p).
  split; [by apply tree_of_entries_spec|reflexivity].
Qed.

(** What a verified header states about the state [s], [p] of its block and its transactions. *)
Record header_correct (s : UtxoCollection) (p : PoolCollection) (ctx : UtxoProcessingContext) (h : Header)
    (cb : Transaction) (rest : list Transaction) (non_daa : gset Hash) : Prop := {
  hc_utxo : utxo_commitment h = commitment_of s;
  hc_pool : pool_commitment h = pool_root p;
  hc_lanes : recompute_seq_commit (ctx_ghostdag_data ctx) (mergeset_acceptance_data ctx) h = Ok (accepted_id_merkle_root h);
  hc_coinbase : ∃ data expected,
    deserialize_coinbase_payload (coinbase_manager self) (payload cb) = Ok data ∧
    expected_coinbase_transaction (coinbase_manager self) (header_daa_score h) (cb_miner data)
      (ctx_ghostdag_data ctx) (mergeset_rewards ctx) non_daa = Ok expected ∧
    tx_hash cb = tx_hash (template_tx expected);
  hc_pruning : pruning_point h = (expected_header_pruning_point (ctx_ghostdag_data ctx)).1;
  hc_parent : default [] (parents_by_level h !! 0%nat) !! 0%nat = Some (selected_parent (ctx_ghostdag_data ctx));
  hc_txs : Forall (λ tx, ∃ v, validate_transaction_in_utxo_context self seq_commit_accessor s p tx
    (header_daa_score h) Full (selected_parent (ctx_ghostdag_data ctx)) = Ok v) rest }.

Lemma oks_length {F A B : Type} (f : A → outcome F B) l :
  (length l ≤ length (oks f l))%nat ↔ Forall (λ a, ∃ b, f a = Ok b) l.
Proof.
  assert (Hle : ∀ l, (length (oks f l) ≤ length l)%nat).
  { clear. intros l. unfold oks. induction l as [|a l IH]; [done|]. cbn [omap list_omap]. destruct (f a); cbn [length]; lia. }
  unfold oks in *. induction l as [|a l IH]; [by split|]. rewrite Forall_cons. cbn [omap list_omap]. specialize (Hle l).
  destruct (f a) as [b| |]; cbn [length]; rewrite <- IH; split; try lia; try (by intros [[? ?] ?]).
  - intros Hl. split; [by exists b|lia].
Qed.

Lemma unwrap_result_Ok {E F A : Type} (m : outcome F A) (a : A) : unwrap_result (E := E) m = Ok a ↔ m = Ok a.
Proof. destruct m; cbn; naive_solver. Qed.

Lemma verify_header_pruning_point_Ok (h : Header) (gd : GhostdagData) r :
  verify_header_pruning_point expected_header_pruning_point h gd = Ok r ↔
  pruning_point h = (expected_header_pruning_point gd).1 ∧ r = expected_header_pruning_point gd.
Proof. unfold verify_header_pruning_point. rewrite guard_Ok. split; intros [Heq Hr]; (split; [done|]); congruence. Qed.

Lemma verify_coinbase_transaction_Ok (cb : Transaction) daa gd rewards non_daa :
  verify_coinbase_transaction self cb daa gd rewards non_daa = Ok tt ↔
  ∃ data expected, deserialize_coinbase_payload (coinbase_manager self) (payload cb) = Ok data ∧
    expected_coinbase_transaction (coinbase_manager self) daa (cb_miner data) gd rewards non_daa = Ok expected ∧
    tx_hash cb = tx_hash (template_tx expected).
Proof.
  unfold verify_coinbase_transaction. split.
  - intros (data & Hd & (expected & He & Ht%reject_if_Ok)%bind_Ok)%bind_Ok. rewrite unwrap_result_Ok in Hd. rewrite unwrap_result_Ok in He.
    exists data, expected. by apply negb_false_iff, bool_decide_eq_true in Ht.
  - intros (data & expected & -> & Hx & Ht). cbn [unwrap_result mbind outcome_bind]. rewrite Hx.
    cbn [unwrap_result mbind outcome_bind]. by rewrite bool_decide_true.
Qed.

Context {V Q : Type} `{UtxoView V} `{PoolStateView Q} (vw : V) (q : Q).
Context (Hvw : UtxoAlgebra.shows vw U) (Hq : PoolDiff.shows q P).

(** The transactions of a block are all valid when as many are as there are. *)
Lemma all_valid (s : UtxoCollection) (p : PoolCollection) (df : UtxoDiff) (pdf : PoolDiff) (A : gset TransactionId)
    (b : Hash) (cb : Transaction) (rest : list Transaction) (pov : Z) (sp : Hash) :
  walk A s p df pdf → 0 ≤ pov < 2 ^ 62 → block_transactions_store self !! b = Some (cb :: rest) →
  ∃ l, validate_transactions_in_parallel (E := RuleError TxScriptError) self seq_commit_accessor
         (UtxoAlgebra.compose vw df) (PoolDiff.compose q pdf) (cb :: rest) pov Full sp = Ok l ∧
    (length rest ≤ length l ↔ Forall (λ tx, ∃ v,
       validate_transaction_in_utxo_context self seq_commit_accessor s p tx pov Full sp = Ok v) rest)%nat.
Proof.
  intros Hw Hpov Hb. destruct (block_shape _ _ Hb) as (cb' & rest' & Heq & _ & Hrest & _). injection Heq as <- <-.
  pose proof (utxo_shows_compose vw U df Hvw) as Hcv. rewrite as_utxo_diff_id, (wk_state _ _ _ _ _ Hw) in Hcv.
  pose proof (shows_compose q P pdf Hq) as Hcq. rewrite as_diff_id, (wk_pstate _ _ _ _ _ Hw) in Hcq.
  rewrite Forall_forall in Hrest. assert (Hin : (indexed_transactions (cb :: rest)).*2 = rest) by apply indexed_snd.
  eexists. split.
  - apply filter_ok_total, Forall_forall. intros [k tx] Hk%(list_elem_of_fmap_2 snd). rewrite Hin in Hk.
    destruct (Hrest tx Hk) as [Htx Hc]. apply not_panic_bind; [|by intros].
    by apply (validate_context_spec _ _ s p Hcv Hcq (wk_wf _ _ _ _ _ Hw)).
  - rewrite (valid_transactions_view _ _ s p Hcv Hcq) by (apply Forall_forall; intros tx Htx; by apply Hrest).
    unfold valid_transactions. rewrite <- Hin at 1. rewrite length_fmap, oks_length. rewrite <- Hin at 2. rewrite Forall_fmap.
    apply Forall_iff. intros [k tx]. unfold validate_indexed, Basics.compose. cbn [fst snd]. split.
    + intros (v & (x & Hx & _)%bind_Ok). by exists x.
    + intros (v & Hv). eexists. by rewrite Hv.
Qed.

Lemma verify_spec (A : gset TransactionId) (s : UtxoCollection) (p : PoolCollection) (ctx : UtxoProcessingContext)
    (pool_state : PoolCollection) (pool_diff : PoolDiff) (h : Header) (cb : Transaction) (rest : list Transaction)
    (non_daa : gset Hash) (i : Z) :
  walk A s p (mergeset_diff ctx) (mergeset_pool_diff ctx) → commits (multiset_hash ctx) s →
  inverse_of (val (denominator (multiset_hash ctx)) mod UINT_PRIME) i →
  PoolDiff.apply_diff pool_state pool_diff = P → serials_ok p → 0 ≤ header_daa_score h < 2 ^ 62 →
  block_transactions_store self !! header_hash h = Some (cb :: rest) →
  daa_excluded_store self !! header_hash h = Some non_daa →
  let verify := verify_expected_utxo_state self seq_commit_accessor recompute_seq_commit expected_header_pruning_point
    ctx vw q pool_state pool_diff h in
  ((∃ ctx', verify = Ok ctx') ↔ header_correct s p ctx h cb rest non_daa) ∧
  ∀ ctx', verify = Ok ctx' → mergeset_diff ctx' = mergeset_diff ctx ∧ mergeset_pool_diff ctx' = mergeset_pool_diff ctx ∧
    commits (multiset_hash ctx') s ∧ denominator (multiset_hash ctx') = one ∧
    pruning_sample_from_pov ctx' = Some (expected_header_pruning_point (ctx_ghostdag_data ctx)).2.
Proof.
  intros Hw Hmh Hinv Hps Hser Hdaa Htxs Hnon verify.
  destruct (finalize_commits (E := RuleError TxScriptError) _ _ _ Hmh Hinv) as (mh' & Hfin & Hmh' & Hone).
  destruct (recompute_pool_commitment_total pool_state pool_diff (mergeset_pool_diff ctx) p) as (root & Hroot & Hpr);
    [by rewrite Hps, (wk_pstate _ _ _ _ _ Hw)|done|].
  destruct (all_valid s p _ _ A (header_hash h) cb rest (header_daa_score h) (selected_parent (ctx_ghostdag_data ctx)) Hw Hdaa Htxs)
    as (l & Hl & Hvalid).
  assert (Hiff : ∀ ctx', verify = Ok ctx' ↔ header_correct s p ctx h cb rest non_daa ∧
    ctx' = mk_context (ctx_ghostdag_data ctx) mh' (mergeset_diff ctx) (mergeset_pool_diff ctx) (accepted_tx_ids ctx)
      (accepted_tx_versions ctx) (mergeset_acceptance_data ctx) (mergeset_rewards ctx)
      (Some (expected_header_pruning_point (ctx_ghostdag_data ctx)).2)).
  { intros ctx'. unfold verify, verify_expected_utxo_state.
    rewrite Hfin. cbn [mbind outcome_bind]. rewrite Htxs, Hnon.
    cbn [set_multiset_hash unwrap mbind outcome_bind lookup list_lookup ctx_ghostdag_data multiset_hash mergeset_diff
      mergeset_pool_diff accepted_tx_ids accepted_tx_versions mergeset_acceptance_data mergeset_rewards].
    rewrite Hroot. cbn [mbind outcome_bind]. rewrite !guard_Ok, bind_guard_Ok, then_Ok, verify_coinbase_transaction_Ok, (bind_case_Ok _ _ _ _ _ (verify_header_pruning_point_Ok h _)).
    rewrite bind_guard_Ok, unwrap_Ok, Hl. cbn [mbind outcome_bind]. rewrite then_Ok, reject_if_Ok, Nat.ltb_ge.
    cbn [length]. rewrite Nat.sub_succ, Nat.sub_0_r, Hvalid. split.
    - intros (? & Hc & ? & ? & ? & ? & ? & Heq%Ok_inj). rewrite Hpr in Hc. split; [by split|done].
    - intros [[? Hc] ->]. rewrite <- Hpr in Hc. by split_and!. }
  split.
  - split; [intros (ctx' & Hv); by apply Hiff in Hv as [? _]|intros Hc; eexists; by apply Hiff].
  - intros ctx' [_ ->]%Hiff. by split_and!.
Qed.

(** No unwrap of the verification fails. *)
Lemma verify_total (A : gset TransactionId) (s : UtxoCollection) (p : PoolCollection) (ctx : UtxoProcessingContext)
    (pool_state : PoolCollection) (pool_diff : PoolDiff) (h : Header) (cb : Transaction) (rest : list Transaction)
    (non_daa : gset Hash) (i : Z) data expected :
  walk A s p (mergeset_diff ctx) (mergeset_pool_diff ctx) → commits (multiset_hash ctx) s →
  inverse_of (val (denominator (multiset_hash ctx)) mod UINT_PRIME) i →
  PoolDiff.apply_diff pool_state pool_diff = P → serials_ok p → 0 ≤ header_daa_score h < 2 ^ 62 →
  block_transactions_store self !! header_hash h = Some (cb :: rest) →
  daa_excluded_store self !! header_hash h = Some non_daa →
  not_panic (recompute_seq_commit (ctx_ghostdag_data ctx) (mergeset_acceptance_data ctx) h) →
  deserialize_coinbase_payload (coinbase_manager self) (payload cb) = Ok data →
  expected_coinbase_transaction (coinbase_manager self) (header_daa_score h) (cb_miner data) (ctx_ghostdag_data ctx)
    (mergeset_rewards ctx) non_daa = Ok expected →
  is_Some (default [] (parents_by_level h !! 0%nat) !! 0%nat) →
  not_panic (verify_expected_utxo_state self seq_commit_accessor recompute_seq_commit expected_header_pruning_point
    ctx vw q pool_state pool_diff h).
Proof.
  intros Hw Hmh Hinv Hps Hser Hdaa Htxs Hnon Hlanes Hdata Hexp [sp Hsp]. unfold verify_expected_utxo_state.
  destruct (finalize_commits (E := RuleError TxScriptError) _ _ _ Hmh Hinv) as (mh' & -> & _). cbn [mbind outcome_bind].
  cbn [set_multiset_hash unwrap mbind outcome_bind lookup list_lookup ctx_ghostdag_data multiset_hash mergeset_diff
    mergeset_pool_diff accepted_tx_ids accepted_tx_versions mergeset_acceptance_data mergeset_rewards].
  destruct (recompute_pool_commitment_total pool_state pool_diff (mergeset_pool_diff ctx) p) as (root & -> & _);
    [by rewrite Hps, (wk_pstate _ _ _ _ _ Hw)|done|]. cbn [mbind outcome_bind].
  destruct (all_valid s p _ _ A (header_hash h) cb rest (header_daa_score h) (selected_parent (ctx_ghostdag_data ctx)) Hw Hdaa Htxs)
    as (l & Hl & _).
  apply not_panic_then; [by destruct (negb _)|]. intros _. apply not_panic_then; [by destruct (negb _)|]. intros _.
  apply not_panic_bind; [done|]. intros r _. apply not_panic_then; [by destruct (negb _)|]. intros _.
  rewrite Htxs, Hnon. cbn [unwrap mbind outcome_bind lookup list_lookup].
  apply not_panic_then.
  { unfold verify_coinbase_transaction. rewrite Hdata. cbn [unwrap_result mbind outcome_bind]. rewrite Hexp.
    cbn [unwrap_result mbind outcome_bind]. by destruct (negb _). }
  intros _. apply not_panic_bind; [unfold verify_header_pruning_point; by destruct (negb _)|]. intros reply _.
  rewrite Hsp, Hl. cbn [unwrap mbind outcome_bind]. apply not_panic_then; [by destruct (negb _)|]. intros _.
  apply not_panic_then; [by destruct (_ <? _)%nat|done].
Qed.

(** ** Replay of a verified block *)
Lemma coinbase_untouched (A : gset TransactionId) (s : UtxoCollection) (p : PoolCollection) (cb tx : Transaction)
    (pov : Z) (v : ValidatedTransaction) :
  stored cb → is_coinbase cb = true → id cb ∉ A → history A s p → accepts s p tx v →
  ∀ op, op ∈ spends tx → tx_apply s cb pov !! op = s !! op.
Proof.
  intros Hcs Hcb Hid Hh Hacc op Hop. destruct (stored_isolation cb Hcs) as (pov' & Hiso).
  destruct (iv_coinbase _ _ _ Hiso Hcb) as (Hin & _).
  assert (Hs : is_Some (s !! op)) by (by eapply accepts_spends).
  apply tx_apply_other; [unfold spends; rewrite Hin; apply not_elem_of_nil|].
  intros [Heq _]%created_id. apply Hid. rewrite <- Heq. by apply (hi_utxo _ _ _ Hh).
Qed.

Lemma replay_all (A : gset TransactionId) (s : UtxoCollection) (p : PoolCollection) (b : Hash) (cb : Transaction)
    (rest : list Transaction) (pov pov' : Z) (sp sp' : Hash) :
  block_transactions_store self !! b = Some (cb :: rest) → history A s p → utxo_wf s → id cb ∉ A →
  0 ≤ pov ≤ pov' → pov' < 2 ^ 62 →
  Forall (λ tx, ∃ v, validate_transaction_in_utxo_context self seq_commit_accessor s p tx pov Full sp = Ok v) rest →
  tx_of <$> valid_transactions pov' sp' SkipScriptChecks (tx_apply s cb pov') p (cb :: rest) = rest.
Proof.
  intros Hb Hh Hwf Hid Hle Hlt Hv. destruct (block_shape _ _ Hb) as (cb' & rest' & Heq & Hcb & Hrest & Hcs).
  injection Heq as <- <-. assert (Hin : (indexed_transactions (cb :: rest)).*2 = rest) by apply indexed_snd.
  rewrite <- Hin at 2. apply oks_all, Forall_forall. intros [k tx] Hk%(list_elem_of_fmap_2 snd). rewrite Hin in Hk. cbn [snd] in *.
  rewrite Forall_forall in Hv, Hrest. destruct (Hv tx Hk) as (v & Hval), (Hrest tx Hk) as [Htx Hc].
  assert (Hacc : accepts s p tx v).
  { by apply (validate_context_spec s p s p (utxo_shows_map s) (shows_map p) Hwf tx pov Full sp Htx Hc); [lia|]. }
  exists (v, Z.of_nat k mod 2 ^ 32). split; [|apply (ac_tx _ _ _ _ Hacc)]. unfold validate_indexed. cbn [fst snd].
  rewrite (validate_replay tx s (tx_apply s cb pov') p v pov pov' sp sp'); [done..| |done|done|done].
  by eapply coinbase_untouched.
Qed.
End verification.
End base.

(** ** The processor *)
Section processor.
Hypothesis element_ok : ∀ data, byte_array 384 (element_bytes data).
Context (U : UtxoCollection) (P : PoolCollection) (A : gset TransactionId) (Hhist : history A U P).
Context {V Q : Type} `{UtxoView V} `{PoolStateView Q} (vw : V) (q : Q).
Context (Hvw : UtxoAlgebra.shows vw U) (Hq : PoolDiff.shows q P).

(** (C3) The state of a block: from views of the state [U], [P] of the selected parent, a multiset
    hash that commits to it and stored blocks that passed body validation,
    [calculate_utxo_state] returns, whatever splits the parallel reductions make.  The two
    diffs fit the parent's state and lead to the state of the reference walk (the coinbase
    of the selected parent, then, block after block in consensus order, the transactions
    valid before the block, one after another); the accepted ids are theirs; the multiset
    hash commits to the new UTXO set; the new state is well formed and its history is
    again one, so the next block can start from it; and no value is created: the two
    totals and the fees recorded for the miners are what the parent's state and coinbase
    held. *)
Theorem utxo_state_computed {E : Type} (gd : GhostdagData) (cb : Transaction)
    (blocks : list (Hash * list Transaction)) (mh : MuHash) (pov : Z) :
  mergeset_ok A gd cb blocks → utxo_wf U → commits mh U → 0 ≤ pov < 2 ^ 62 →
  utxo_value U + pool_value P + outputs_total (outputs cb) ≤ u64_max →
  let acc := concat (merge_blocks pov (selected_parent gd) 0 (tx_apply U cb pov) P blocks) in
  let s := apply_all pov (tx_apply U cb pov) acc in
  let p := pool_all P acc in
  ∃ ctx,
    (UtxoAlgebra.fits U (mergeset_diff ctx) ∧ UtxoAlgebra.apply_diff U (mergeset_diff ctx) = s) ∧
    (PoolDiff.fits P (mergeset_pool_diff ctx) ∧ PoolDiff.apply_diff P (mergeset_pool_diff ctx) = p) ∧
    accepted_tx_ids ctx = id <$> (tx_of <$> acc) ∧ utxo_wf s ∧
    history (list_to_set (id <$> (tx_of <$> acc)) ∪ ({[id cb]} ∪ A)) s p ∧
    utxo_value s + pool_value p + map_sum total_fees (mergeset_rewards ctx) =
      utxo_value U + pool_value P + outputs_total (outputs cb) ∧
    ∀ sch, ∃ mh', calculate_utxo_state (E := E) self seq_commit_accessor vw q pov sch (new_context gd mh) =
        Ok (set_multiset_hash ctx mh') ∧ commits mh' s.
Proof.
  intros Hms HU Hmh Hpov Hsum acc s p.
  destruct (calculate_spec U P A Hhist pov Hpov element_ok vw q Hvw Hq (E := E) gd cb blocks mh Hms HU Hmh Hsum)
    as (df & ctx & [Hw _ Hids _ _ _ _ Hval] & Hcb & Hrun).
  fold acc in Hw, Hids, Hval, Hrun. fold s in Hw, Hval, Hrun. fold p in Hw, Hval.
  exists ctx. destruct Hw as [? ? ? ? ? ? ?]. cbn [accepted_tx_ids mergeset_rewards] in Hids, Hval.
  rewrite map_sum_empty in Hval. split_and!; try done; [|lia].
  rewrite Hids, app_nil_l, <- list_fmap_compose. done.
Qed.

Section verified.
Context (recompute_seq_commit : GhostdagData → list MergesetBlockAcceptanceData → Header →
  outcome (RuleError TxScriptError) Hash).
Context (expected_header_pruning_point : GhostdagData → Hash * Hash).
Context (A1 : gset TransactionId) (s : UtxoCollection) (p : PoolCollection) (ctx : UtxoProcessingContext).
Context (Hw : walk U P A A1 s p (mergeset_diff ctx) (mergeset_pool_diff ctx)).
Context (inv : Z) (Hmh : commits (multiset_hash ctx) s).
Context (Hinv : inverse_of (val (denominator (multiset_hash ctx)) mod UINT_PRIME) inv).
Context (pool_state : PoolCollection) (pool_diff : PoolDiff) (Hps : PoolDiff.apply_diff pool_state pool_diff = P).
Context (Hser : serials_ok p).
Context (h : Header) (cb : Transaction) (rest : list Transaction) (non_daa : gset Hash).
Context (Hdaa : 0 ≤ header_daa_score h < 2 ^ 62).
Context (Htxs : block_transactions_store self !! header_hash h = Some (cb :: rest)).
Context (Hnon : daa_excluded_store self !! header_hash h = Some non_daa).

(** (C5) Verification decides: given the context of [calculate_utxo_state], whose diffs lead
    from the selected parent's state to [s], [p] and whose multiset hash commits to [s],
    [verify_expected_utxo_state] accepts a block exactly when its header commits to the
    product of [s] and to the tree of the leaves of [p], to the lanes of the acceptance
    data and to the expected pruning point, its first parent is the selected parent, its
    coinbase hashes as the expected coinbase of its own miner data does, and every other
    transaction is valid, scripts included, at [s], [p]. *)
Theorem verify_decides :
  let verify := verify_expected_utxo_state self seq_commit_accessor recompute_seq_commit expected_header_pruning_point
    ctx vw q pool_state pool_diff h in
  ((∃ ctx', verify = Ok ctx') ↔
     header_correct recompute_seq_commit expected_header_pruning_point s p ctx h cb rest non_daa) ∧
  ∀ ctx', verify = Ok ctx' → mergeset_diff ctx' = mergeset_diff ctx ∧ mergeset_pool_diff ctx' = mergeset_pool_diff ctx ∧
    commits (multiset_hash ctx') s ∧ denominator (multiset_hash ctx') = one ∧
    pruning_sample_from_pov ctx' = Some (expected_header_pruning_point (ctx_ghostdag_data ctx)).2.
Proof. by eapply verify_spec. Qed.

(** (C14) A verified block is accepted in full: once [verify_expected_utxo_state] accepted a block
    at its score, any block on top of it that has it as selected parent, at no lower score
    and with a new coinbase id, computes its state without a panic and accepts first of
    all every transaction of the verified block, in the order of the block, although the
    scripts are not run again. *)
Theorem verified_block_accepted {E V' Q' : Type} `{UtxoView V'} `{PoolStateView Q'} (vw' : V') (q' : Q')
    (ctx1 : UtxoProcessingContext) (gd : GhostdagData) (blocks : list (Hash * list Transaction)) (mh : MuHash)
    (pov : Z) (sch : nat → schedule) :
  verify_expected_utxo_state self seq_commit_accessor recompute_seq_commit expected_header_pruning_point
    ctx vw q pool_state pool_diff h = Ok ctx1 →
  UtxoAlgebra.shows vw' s → PoolDiff.shows q' p → commits mh s →
  selected_parent gd = header_hash h → mergeset_ok A1 gd cb blocks → header_daa_score h ≤ pov < 2 ^ 62 →
  utxo_value s + pool_value p + outputs_total (outputs cb) ≤ u64_max →
  ∃ ctx2, calculate_utxo_state (E := E) self seq_commit_accessor vw' q' pov sch (new_context gd mh) = Ok ctx2 ∧
    (id <$> rest) `prefix_of` accepted_tx_ids ctx2.
Proof.
  intros Hver Hvw' Hq' Hmh' Hsp Hms Hpov Hsum.
  destruct (verify_spec U P A recompute_seq_commit expected_header_pruning_point vw q Hvw Hq A1 s p ctx
    pool_state pool_diff h cb rest non_daa inv Hw Hmh Hinv Hps Hser Hdaa Htxs Hnon) as [[Hok _] _].
  destruct Hok as [_ _ _ _ _ _ Hvalid]; [by exists ctx1|].
  assert (Hpov0 : 0 ≤ pov < 2 ^ 62) by lia.
  destruct (calculate_spec s p A1 (wk_history _ _ _ _ _ _ _ _ Hw) pov Hpov0 element_ok vw' q' Hvw' Hq' (E := E)
    gd cb blocks mh Hms (wk_wf _ _ _ _ _ _ _ _ Hw) Hmh' Hsum) as (df & ctx2 & [_ _ Hids _ _ _ _ _] & _ & Hrun).
  destruct (Hrun sch) as (mh' & Hr & _). eexists. split; [exact Hr|].
  destruct (mo_first _ _ _ _ Hms) as (rest' & bs & Hbl & _).
  pose proof (mo_stored _ _ _ _ Hms) as Hst'. rewrite Hbl in Hst'. apply Forall_cons in Hst' as [[Hb _] _].
  cbn [fst snd] in Hb. rewrite Hsp, Htxs in Hb. injection Hb as <-.
  cbn [set_multiset_hash accepted_tx_ids] in Hids |- *. rewrite Hids, Hbl, app_nil_l. cbn [merge_blocks concat].
  rewrite fmap_app. assert (Hall : tx_of <$> valid_transactions pov (selected_parent gd) (flags_at 0) (tx_apply s cb pov) p (cb :: rest) = rest).
  { eapply replay_all; [done|by eapply wk_history|by eapply wk_wf|by apply (mo_coinbase _ _ _ _ Hms)| | |done]; lia. }
  rewrite <- Hall at 1. rewrite <- list_fmap_compose. by eexists.
Qed.
End verified.
End processor.
End store.
End theory.

(** ** A block with a coinbase and a payment *)
Module Payment.
#[local] Existing Instance TxBinding.pad_hashers.
#[local] Existing Instance demo_anchor_hashers.
#[local] Existing Instance demo_oracle.
#[local] Existing Instance demo_decoder.
#[local] Existing Instance demo_payload_decoder.
#[local] Existing Instance demo_engine.
#[local] Existing Instance demo_branch.
#[local] Existing Instance demo_muhashers.
#[local] Existing Instance unit_inverse.
#[local] Existing Instance mix_hashers.
#[local] Existing Instance leaf_demo_hashers.

Definition validator : TransactionValidator :=
  {| max_tx_inputs := 10; max_tx_outputs := 10; max_signature_script_len := 100;
     max_script_public_key_len := 100; tv_coinbase_payload_script_public_key_max_len := 150;
     coinbase_maturity := 20; ghostdag_k := 18; wide_lanes_activation := always;
     mass_per_sig_op := 1000; finality_anchor_params := demo_params;
     mass_calculator := {| mass_per_tx_byte := 1; mass_per_script_pub_key_byte := 10; storage_mass_parameter := 1 |} |}.
Definition payment : Transaction := TxBinding.demo_tx [1] 0.
Definition spent : TransactionOutpoint := mk_outpoint (replicate 32 7) 3.
Definition entry : UtxoEntry := mk_utxo 120 TxBinding.demo_spk 44 true None.
(** The block [[2]] on its selected parent [[1]], and a block on top of it. *)
Definition below : GhostdagData := mk_ghostdag 258 0 [1] [[1]] [] ∅.
Definition above : GhostdagData := mk_ghostdag 259 0 [2] [[2]] [] ∅.
Definition rewards : gmap Hash BlockRewardData := {[ [1] := mk_reward 7 20 (mk_spk 0 [1]) ]}.
Definition coinbase : Transaction :=
  match expected_coinbase_transaction demo_manager 64 (cb_miner demo_data) below rewards ∅ with
  | Ok t => template_tx t
  | _ => payment
  end.
Definition txs : list Transaction := [coinbase; payment].
Definition body_header : Header :=
  {| header_hash := [2]; header_version := 2; parents_by_level := [[[1]]];
     hash_merkle_root := merkle_root (tx_hash <$> txs); accepted_id_merkle_root := [];
     utxo_commitment := []; pool_commitment := []; timestamp := 0; bits := 0; nonce := 0;
     header_daa_score := 64; header_blue_work := 10; header_blue_score := 60; pruning_point := [0] |}.
Definition body_processor : BlockBodyProcessor :=
  {| bp_validator := validator; bp_mass_calculator := mass_calculator validator;
     block_mass_limits := mk_mass_limits 1000 5000 5000; block_lane_limits := mk_lane_limits 4 1000 |}.
Definition masses (tx : Transaction) : NonContextualMasses :=
  match calc_non_contextual_masses (E := unit) (mass_calculator validator) tx with
  | Ok m => m
  | _ => mk_non_contextual 0 0
  end.
Definition processor : VirtualStateProcessor :=
  {| transaction_validator := validator; coinbase_manager := demo_manager; note_locks_activation := always;
     block_transactions_store := {[ [2] := txs ]}; vp_ghostdag_store := ∅; headers_daa_scores := {[ [2] := 64 ]};
     daa_excluded_store := {[ [2] := ∅ ]} |}.
Definition accessor (_ : Hash) : SeqCommitAccessor := tt.
Definition utxos : UtxoCollection := {[ spent := entry ]}.
Definition accepted : gset TransactionId := {[ replicate 32 7 ]}.
Definition multiset : MuHash := mk_muhash (data_to_element (write_utxo entry spent)) one.

Lemma stored_cases tx : stored processor tx → tx = coinbase ∨ tx = payment.
Proof.
  intros (b & l & Hb & Htx). change (({[ [2] := txs ]} : gmap Hash (list Transaction)) !! b = Some l) in Hb.
  apply lookup_singleton_Some in Hb as [_ <-].
  apply elem_of_cons in Htx as [->|[->|[]%not_elem_of_nil]%elem_of_cons]; auto.
Qed.
Lemma body_ok : body_valid body_processor masses (mk_block body_header txs).
Proof.
  apply (body_iff (X := unit) body_processor masses (mk_block body_header txs)
    (mk_mass (mk_non_contextual (totals masses txs).1.1 (totals masses txs).1.2) (mk_contextual (totals masses txs).2)));
    [done|done|done| |vm_compute; reflexivity].
  repeat (apply Forall_cons; split); [..|constructor];
    (split; [vm_compute; reflexivity|]; split; [|by_decide]; unfold tx_unsigned; split_and!; [by_decide..|by_decide]).
Qed.
Lemma produces_nothing tx : produces tx = [].
Proof. unfold produces, op_of. by destruct (bool_decide _). Qed.
Lemma store_ok : store_wf processor body_processor masses.
Proof.
  split.
  - done.
  - split; try by_decide. intros ptx n i e c acc u l. unfold vm_execute, demo_engine. by case_bool_decide.
  - done.
  - intros b l Hb. change (({[ [2] := txs ]} : gmap Hash (list Transaction)) !! b = Some l) in Hb.
    apply lookup_singleton_Some in Hb as [_ <-]. exists body_header. apply body_ok.
  - intros b cb l Hb. change (({[ [2] := txs ]} : gmap Hash (list Transaction)) !! b = Some (cb :: l)) in Hb.
    apply lookup_singleton_Some in Hb as [_ [= <- _]]. eexists. vm_compute. reflexivity.
  - intros tx1 tx2 [-> | ->]%stored_cases [-> | ->]%stored_cases Heq; try done; exfalso; revert Heq; by_decide.
  - intros tx1 tx2 sn _ _ Hsn. rewrite produces_nothing in Hsn. by apply not_elem_of_nil in Hsn.
Qed.
Lemma history_ok : history processor accepted utxos ∅.
Proof.
  split.
  - intros op [e He]. unfold utxos in He. apply lookup_singleton_Some in He as [<- _]. by apply elem_of_singleton.
  - intros sn tx _ _ [e He]. by rewrite lookup_empty in He.
  - intros tx [-> | ->]%stored_cases Hcb Hid; exfalso; [revert Hcb|revert Hid]; by_decide.
Qed.
Lemma utxos_ok : map_Forall (λ _, entry_wf (transaction_validator processor)) utxos.
Proof. apply map_Forall_singleton. split; [done|done|]. by_decide. Qed.
Lemma mergeset : mergeset_ok processor accepted above coinbase [([2], txs)].
Proof.
  split.
  - exists [payment], []. split; [done|]. intros E. reflexivity.
  - apply Forall_singleton. split; [done|]. by exists 64.
  - by_decide.
  - by_decide.
Qed.
Lemma utxo_state_computed_witness :
  ∃ ctx mh', calculate_utxo_state (E := unit) processor accessor utxos (∅ : PoolCollection) 70 (λ _, Sequential)
      (new_context above multiset) = Ok (set_multiset_hash ctx mh') ∧
    UtxoAlgebra.fits utxos (mergeset_diff ctx) ∧
    utxo_value (UtxoAlgebra.apply_diff utxos (mergeset_diff ctx)) +
      pool_value (PoolDiff.apply_diff ∅ (mergeset_pool_diff ctx)) + map_sum total_fees (mergeset_rewards ctx) = 147.
Proof.
  destruct (utxo_state_computed processor accessor body_processor masses store_ok demo_element_ok utxos ∅ accepted history_ok
    utxos (∅ : PoolCollection) (utxo_shows_map utxos) (shows_map ∅) (E := unit) above coinbase [([2], txs)] multiset 70)
    as (ctx & [Hf Hs] & [_ Hp] & _ & _ & _ & Hval & Hrun).
  - exact mergeset.
  - exact utxos_ok.
  - apply singleton_commits, demo_element_ok.
  - lia.
  - by_decide.
  - destruct (Hrun (λ _, Sequential)) as (mh' & Hr & _). exists ctx, mh'. split; [exact Hr|]. split; [exact Hf|].
    rewrite Hs, Hp, Hval. vm_compute. reflexivity.
Defined.

(** The context of the block, and its header. *)
Definition context : UtxoProcessingContext :=
  mk_context below multiset UtxoAlgebra.empty_diff PoolDiff.empty_diff [] [] [] rewards None.
Definition block_header : Header :=
  {| header_hash := [2]; header_version := 2; parents_by_level := [[[1]]];
     hash_merkle_root := merkle_root (tx_hash <$> txs); accepted_id_merkle_root := [];
     utxo_commitment := commitment_of utxos; pool_commitment := pool_root ∅; timestamp := 0; bits := 0; nonce := 0;
     header_daa_score := 64; header_blue_work := 10; header_blue_score := 60; pruning_point := [0] |}.
Definition lanes (_ : GhostdagData) (_ : list MergesetBlockAcceptanceData) (_ : Header) : outcome (RuleError TxScriptError) Hash := Ok [].
Definition pruning (_ : GhostdagData) : Hash * Hash := ([0], [5]).

Lemma context_walk : walk processor utxos ∅ accepted accepted utxos ∅ (mergeset_diff context) (mergeset_pool_diff context).
Proof.
  split; [by split; intros op e; cbn; rewrite lookup_empty| | | |exact history_ok|done|exact utxos_ok].
  - apply map_eq. intros op. rewrite utxo_apply_lookup. cbn. by rewrite !lookup_empty.
  - apply fits_lookup. by split; intros sn e; cbn; rewrite lookup_empty.
  - apply map_eq. intros sn. rewrite apply_diff_lookup. cbn. by rewrite !lookup_empty.
Qed.
Lemma context_inverse : inverse_of (val (denominator (multiset_hash context)) mod UINT_PRIME) 1.
Proof.
  split; [vm_compute; reflexivity|]. split; [|vm_compute; reflexivity]. split; [done|vm_compute; reflexivity].
Qed.
Lemma header_ok : header_correct processor accessor lanes pruning utxos ∅ context block_header coinbase [payment] ∅.
Proof.
  split; [reflexivity|reflexivity|reflexivity| |reflexivity|reflexivity|].
  - exists (mk_cb 258 7 (cb_miner demo_data)). eexists. split; [vm_compute; reflexivity|]. split; vm_compute; reflexivity.
  - apply Forall_singleton. eexists. vm_compute. reflexivity.
Qed.

Lemma serials_empty : serials_ok ∅.
Proof. intros sn e He. by rewrite lookup_empty in He. Qed.
Lemma pool_base : PoolDiff.apply_diff ∅ PoolDiff.empty_diff = ∅.
Proof. apply map_eq. intros sn. rewrite apply_diff_lookup. cbn. by rewrite !lookup_empty. Qed.

Lemma verify_decides_witness :
  ∃ ctx', verify_expected_utxo_state processor accessor lanes pruning context utxos (∅ : PoolCollection) ∅
    PoolDiff.empty_diff block_header = Ok ctx' ∧ pruning_sample_from_pov ctx' = Some [5].
Proof.
  pose proof (verify_decides processor accessor body_processor masses store_ok utxos ∅ accepted
    utxos (∅ : PoolCollection) (utxo_shows_map utxos) (shows_map ∅) lanes pruning accepted utxos ∅ context context_walk 1
    (singleton_commits demo_element_ok spent entry) context_inverse ∅ PoolDiff.empty_diff pool_base serials_empty block_header
    coinbase [payment] ∅ ltac:(by_decide) eq_refl eq_refl) as [[_ Hacc] Hout].
  destruct (Hacc header_ok) as (ctx' & Hv). exists ctx'. split; [exact Hv|]. destruct (Hout ctx' Hv) as (_ & _ & _ & _ & Hp).
  rewrite Hp. reflexivity.
Defined.

Lemma verified_block_accepted_witness :
  ∃ ctx2, calculate_utxo_state (E := unit) processor accessor utxos (∅ : PoolCollection) 70 (λ _, Sequential)
      (new_context above multiset) = Ok ctx2 ∧ [id payment] `prefix_of` accepted_tx_ids ctx2.
Proof.
  destruct (proj2 (proj1 (verify_spec processor accessor body_processor masses store_ok utxos ∅ accepted lanes pruning
    utxos (∅ : PoolCollection) (utxo_shows_map utxos) (shows_map ∅) accepted utxos ∅ context ∅ PoolDiff.empty_diff block_header
    coinbase [payment] ∅ 1 context_walk (singleton_commits demo_element_ok spent entry) context_inverse pool_base serials_empty
    ltac:(by_decide) eq_refl eq_refl)) header_ok) as (ctx' & Hv).
  apply (verified_block_accepted processor accessor body_processor masses store_ok demo_element_ok utxos ∅ accepted
    utxos (∅ : PoolCollection) (utxo_shows_map utxos) (shows_map ∅) lanes pruning accepted utxos ∅ context context_walk 1
    (singleton_commits demo_element_ok spent entry) context_inverse ∅ PoolDiff.empty_diff pool_base serials_empty block_header
    coinbase [payment] ∅ ltac:(by_decide) eq_refl eq_refl utxos (∅ : PoolCollection) ctx' above [([2], txs)] multiset 70
    (λ _, Sequential) Hv (utxo_shows_map utxos) (shows_map ∅) (singleton_commits demo_element_ok spent entry) eq_refl mergeset);
    [by_decide|by_decide].
Defined.
End Payment.
