(* ===== verification/VirtualProcessor.v ===== *)
(** * The virtual processor: reorganisations, sink search and the commit of virtual

    [consensus/src/pipeline/virtual_processor/processor.rs] over [utxo_validation.rs]: the
    walk that takes the UTXO and pool diffs from one chain block to another
    ([calculate_utxo_state_relatively]), the commit of a verified block, the search for the
    heaviest valid sink, the calculation and commit of the virtual state, and
    [resolve_virtual], which composes them; [processes/block_depth.rs] for the finality
    point.  The block stores are fixed while virtual is resolved; the stores the
    processor writes are passed as a state. *)

From S2P Require Import Prelude Transaction Dag Ghostdag NotePool PoolDiff PoolHashing Smt PoolCommitment PoolValidate UtxoAlgebra Params TxHashing Uint U3072 MuHash Merkle Mass Coinbase FinalityAnchor AnchorState Covenants TxValidation BodyValidation ChainWalk VirtualState.

(** ** Data *)
Inductive BlockStatus := StatusInvalid | StatusUTXOValid | StatusUTXOPendingVerification | StatusDisqualifiedFromChain | StatusHeaderOnly.
#[global] Instance BlockStatus_eq_dec : EqDecision BlockStatus.
Proof. solve_decision. Defined.

(** The stores of chain blocks the processor writes. *)
Record ChainStores := mk_chain_stores {
  statuses_store : gmap Hash BlockStatus;
  utxo_diffs_store : gmap Hash UtxoDiff;
  notepool_diffs_store : gmap Hash PoolDiff;
  utxo_multisets_store : gmap Hash MuHash;
  acceptance_data_store : gmap Hash (list MergesetBlockAcceptanceData);
  pruning_samples_store : gmap Hash Hash }.

Record VirtualStateData := mk_virtual_state {
  vs_parents : list Hash;
  vs_ghostdag_data : GhostdagData;
  vs_daa_score : Z;
  vs_bits : Z;
  vs_past_median_time : Z;
  vs_multiset : MuHash;
  vs_utxo_diff : UtxoDiff;
  vs_accepted_id_digests : list Hash;
  vs_mergeset_rewards : gmap Hash BlockRewardData;
  vs_mergeset_non_daa : gset Hash }.

Record VirtualStores := mk_virtual_stores {
  virtual_state : VirtualStateData;
  utxo_set : UtxoCollection;
  pool_state : NotePoolStore;
  pool_smt : DbNotePoolSmtStore;
  virtual_pool_diff : PoolDiff }.

(** The stores of blocks, and the managers' constants. *)
Record ProcessorEnv := {
  block_headers : gmap Hash Header;
  block_relations : gmap Hash (list Hash);
  merge_depth_roots : gmap Hash Hash;
  finality_points : gmap Hash Hash;
  body_tips_store : list Hash;
  pruning_point_store : Hash;
  dm_genesis : Hash;
  finality_depth : Z;
  anchor_params : FinalityAnchorParams }.

(** [insert_batch(..).unwrap()]: the key must be new. *)
Definition insert_new_key {E V : Type} (m : gmap Hash V) (k : Hash) (v : V) : outcome E (gmap Hash V) :=
  match m !! k with Some _ => Panic | None => Ok (<[k := v]> m) end.
(** [insert_batch(..).idempotent()]. *)
Definition insert_idempotent {V : Type} (m : gmap Hash V) (k : Hash) (v : V) : gmap Hash V :=
  match m !! k with Some _ => m | None => <[k := v]> m end.
Definition set_status (c : ChainStores) (b : Hash) (s : BlockStatus) : ChainStores :=
  mk_chain_stores (<[b := s]> (statuses_store c)) (utxo_diffs_store c) (notepool_diffs_store c) (utxo_multisets_store c)
    (acceptance_data_store c) (pruning_samples_store c).

(** [DbUtxoSetStore::write_diff_batch]. *)
Definition write_diff_batch (m : UtxoCollection) (df : UtxoDiff) : UtxoCollection :=
  write_many (delete_many m (map_to_list (UtxoAlgebra.remove df)).*1) (map_to_list (UtxoAlgebra.add df)).

(** [commit_utxo_state], the lane stores aside; a multiset is stored when it is finalized. *)
Definition commit_utxo_state {E : Type} (c : ChainStores) (current : Hash) (mergeset_diff : UtxoDiff)
    (mergeset_pool_diff : PoolDiff) (multiset : MuHash) (acceptance_data : list MergesetBlockAcceptanceData)
    (pruning_sample_from_pov : Hash) : outcome E ChainStores :=
  diffs ← insert_new_key (utxo_diffs_store c) current mergeset_diff;
  pool_diffs ← insert_new_key (notepool_diffs_store c) current mergeset_pool_diff;
  multisets ← (if bool_decide (denominator multiset = one) then insert_new_key (utxo_multisets_store c) current multiset else Panic);
  acceptance ← insert_new_key (acceptance_data_store c) current acceptance_data;
  Ok (mk_chain_stores (<[current := StatusUTXOValid]> (statuses_store c)) diffs pool_diffs multisets acceptance
        (insert_idempotent (pruning_samples_store c) current pruning_sample_from_pov)).

(** [BinaryHeap::pop], on a heap kept as a list. *)
Fixpoint remove_one (x : SortableBlock) (l : list SortableBlock) : list SortableBlock :=
  match l with [] => [] | y :: l => if bool_decide (y = x) then l else y :: remove_one x l end.
Definition heap_pop (heap : list SortableBlock) : option (SortableBlock * list SortableBlock) :=
  best ← max_sortable heap; Some (best, remove_one best heap).
(** [into_sorted_iter], which pops until the heap is empty. *)
Fixpoint into_sorted (fuel : nat) (heap : list SortableBlock) : list SortableBlock :=
  match fuel, heap_pop heap with
  | S fuel, Some (b, heap) => b :: into_sorted fuel heap
  | _, _ => []
  end.
Definition sorted_heap (heap : list SortableBlock) : list SortableBlock := into_sorted (length heap) heap.
Fixpoint take_while {A : Type} (f : A → bool) (l : list A) : list A :=
  match l with [] => [] | x :: l => if f x then x :: take_while f l else [] end.

(** The walk's state: the stores, and the diffs from virtual. *)
Record WalkState := mk_walk { wk_stores : ChainStores; wk_diff : UtxoDiff; wk_pool_diff : PoolDiff }.

Section processor.
Context `{ScriptEngine} `{TxHashers} `{PayloadDecoder} `{NotePoolHashers} `{SchnorrOracle}.
Context `{MuHashers} `{ModInverse} `{SmtHasher} `{AnchorDecoder} `{AnchorHashers}.
Context `{ReachabilityService} `{ChainService}.
Context (self : VirtualStateProcessor) (env : ProcessorEnv).
Context (seq_commit_accessor : Hash → SeqCommitAccessor).
Context (recompute_seq_commit : GhostdagData → list MergesetBlockAcceptanceData → Header →
  outcome (RuleError TxScriptError) Hash).
Context (expected_header_pruning_point : GhostdagData → Hash * Hash).
(** The splits of the parallel iterations over the blocks of a mergeset. *)
Context (schedules : GhostdagData → nat → schedule).

(** ** From one chain block to another *)
Section walk.
Context {E : Type} (stores : VirtualStores).

(** The walk down to the split point, over the default backward iterator. *)
Definition undo_block (st : WalkState) (current : Hash) : outcome E WalkState :=
  mergeset_diff ← unwrap (utxo_diffs_store (wk_stores st) !! current);
  diff ← unwrap_result (UtxoAlgebra.with_diff_in_place (wk_diff st) (UtxoAlgebra.as_reversed mergeset_diff));
  mergeset_pool_diff ← unwrap (notepool_diffs_store (wk_stores st) !! current);
  pool_diff ← unwrap_result (PoolDiff.with_diff_in_place (wk_pool_diff st) (PoolDiff.as_reversed mergeset_pool_diff));
  Ok (mk_walk (wk_stores st) diff pool_diff).
Fixpoint walk_down (fuel : nat) (to : Hash) (it : option Hash) (st : WalkState) : outcome E (Hash * WalkState) :=
  r ← backward_next ORIGIN false it;
  match r, fuel with
  | None, _ | Some _, O => Panic
  | Some (current, it), S fuel =>
      if chain_ancestor_of current to then Ok (current, st) else
      st ← undo_block st current; walk_down fuel to it st
  end.

(** The verification of a block whose state is not known yet. *)
Definition verify_block (st : WalkState) (selected_parent current : Hash)
    : outcome E (outcome (RuleError TxScriptError) UtxoProcessingContext) :=
  header ← unwrap (block_headers env !! current);
  mergeset_data ← unwrap (vp_ghostdag_store self !! current);
  selected_parent_multiset_hash ← unwrap (utxo_multisets_store (wk_stores st) !! selected_parent);
  let selected_parent_utxo_view := UtxoAlgebra.compose (utxo_set stores) (wk_diff st) in
  let selected_parent_pool_view := PoolDiff.compose (pool_state stores) (wk_pool_diff st) in
  ctx ← calculate_utxo_state self seq_commit_accessor selected_parent_utxo_view selected_parent_pool_view
          (header_daa_score header) (schedules mergeset_data) (new_context mergeset_data selected_parent_multiset_hash);
  match verify_expected_utxo_state self seq_commit_accessor recompute_seq_commit expected_header_pruning_point
          ctx selected_parent_utxo_view selected_parent_pool_view (store_map (pool_state stores)) (wk_pool_diff st) header with
  | Panic => Panic
  | res => Ok res
  end.

(** One step of the walk up to the candidate. *)
Definition walk_up_step (st : Hash * WalkState) (w : Hash * Hash) : outcome E (Hash * WalkState) :=
  let '(diff_point, s) := st in
  let '(selected_parent, current) := w in
  if negb (bool_decide (selected_parent = diff_point)) then
    status ← unwrap (statuses_store (wk_stores s) !! current);
    Ok (diff_point, if bool_decide (status = StatusDisqualifiedFromChain) then s else
          mk_walk (set_status (wk_stores s) current StatusDisqualifiedFromChain) (wk_diff s) (wk_pool_diff s))
  else
  match utxo_diffs_store (wk_stores s) !! current with
  | Some mergeset_diff =>
      diff ← unwrap_result (UtxoAlgebra.with_diff_in_place (wk_diff s) mergeset_diff);
      mergeset_pool_diff ← unwrap (notepool_diffs_store (wk_stores s) !! current);
      pool_diff ← unwrap_result (PoolDiff.with_diff_in_place (wk_pool_diff s) mergeset_pool_diff);
      Ok (current, mk_walk (wk_stores s) diff pool_diff)
  | None =>
      status ← unwrap (statuses_store (wk_stores s) !! current);
      if bool_decide (status = StatusDisqualifiedFromChain) then Ok (diff_point, s) else
      res ← verify_block s selected_parent current;
      match res with
      | Ok ctx =>
          diff ← unwrap_result (UtxoAlgebra.with_diff_in_place (wk_diff s) (mergeset_diff ctx));
          pool_diff ← unwrap_result (PoolDiff.with_diff_in_place (wk_pool_diff s) (mergeset_pool_diff ctx));
          sample ← unwrap (pruning_sample_from_pov ctx);
          c ← commit_utxo_state (wk_stores s) current (mergeset_diff ctx) (mergeset_pool_diff ctx) (multiset_hash ctx)
                (mergeset_acceptance_data ctx) sample;
          Ok (current, mk_walk c diff pool_diff)
      | _ => Ok (diff_point, mk_walk (set_status (wk_stores s) current StatusDisqualifiedFromChain) (wk_diff s) (wk_pool_diff s))
      end
  end.

(** [tuple_windows]. *)
Definition tuple_windows (l : list Hash) : list (Hash * Hash) := zip l (drop 1 l).

Definition calculate_utxo_state_relatively (st : WalkState) (from to : Hash) : outcome E (Hash * WalkState) :=
  status ← unwrap (statuses_store (wk_stores st) !! to);
  if bool_decide (status = StatusDisqualifiedFromChain) then Ok (from, st) else
  r ← walk_down (S (get_height from)) to (Some from) st;
  chain ← forward_chain_iterator r.1 to true;
  try_fold walk_up_step r (tuple_windows chain).
End walk.

(** ** The search for the sink *)

Section search.
Context {E : Type} (stores : VirtualStores) (finality_point : Hash) (anchor_guard : option Hash).

(** The parents of a refused candidate join the heap when they are neither below the
    finality point nor in the past of the heap. *)
Definition push_parent (heap : list SortableBlock) (parent : Hash) : outcome E (list SortableBlock) :=
  if is_dag_ancestor_of finality_point parent && negb (existsb (λ sb, is_dag_ancestor_of parent (sb_hash sb)) heap)
  then sb ← sortable (vp_ghostdag_store self) parent; Ok (heap ++ [sb])
  else Ok heap.

Fixpoint sink_search (fuel : nat) (heap : list SortableBlock) (diff_point : Hash) (st : WalkState)
    : outcome E (Hash * list Hash * WalkState) :=
  match fuel with
  | O => Panic
  | S fuel =>
      popped ← unwrap (heap_pop heap);
      let '(best, heap) := popped in
      let candidate := sb_hash best in
      let refuse diff_point st :=
        parents ← unwrap (block_relations env !! candidate);
        heap ← try_fold push_parent heap parents;
        sink_search fuel heap diff_point st in
      if negb (match anchor_guard with None => true | Some anchored => chain_ancestor_of anchored candidate end)
      then refuse diff_point st
      else if chain_ancestor_of finality_point candidate then
        r ← calculate_utxo_state_relatively stores st diff_point candidate;
        let '(diff_point, st) := r in
        if bool_decide (diff_point = candidate) then
          filtering_root ← unwrap (merge_depth_roots env !! candidate);
          let filtering_blue_work := default 0 (gd_blue_work <$> vp_ghostdag_store self !! filtering_root) in
          Ok (candidate, sb_hash <$> take_while (λ s, filtering_blue_work <=? sb_blue_work s) (sorted_heap heap), st)
        else refuse diff_point st
      else refuse diff_point st
  end.
(** A block is popped at most once. *)
Definition sink_search_algorithm (st : WalkState) (prev_sink : Hash) (tips : list Hash)
    : outcome E (Hash * list Hash * WalkState) :=
  heap ← try_map (sortable (vp_ghostdag_store self)) tips;
  sink_search (S (size (vp_ghostdag_store self))) heap prev_sink st.
End search.

(** ** The virtual state *)

(** What the window manager computes for virtual: its DAA score with the blocks outside the
    window, difficulty bits and past median time. *)
Record VirtualWindow := mk_window { vw_daa_score : Z; vw_bits : Z; vw_past_median_time : Z; vw_non_daa : gset Hash }.
Context (virtual_window : GhostdagData → outcome (RuleError TxScriptError) VirtualWindow).
Context (compute_seq_commit : UtxoProcessingContext → GhostdagData → Z → Hash).

Definition calculate_virtual_state (virtual_stores : VirtualStores) (virtual_parents : list Hash)
    (virtual_ghostdag_data : GhostdagData) (selected_parent_multiset : MuHash) (accumulated_diff : UtxoDiff)
    (accumulated_pool_diff : PoolDiff)
    : outcome (RuleError TxScriptError) (VirtualStateData * PoolDiff * (UtxoDiff * PoolDiff)) :=
  let selected_parent_utxo_view := UtxoAlgebra.compose (utxo_set virtual_stores) accumulated_diff in
  let selected_parent_pool_view := PoolDiff.compose (pool_state virtual_stores) accumulated_pool_diff in
  w ← virtual_window virtual_ghostdag_data;
  ctx ← calculate_utxo_state self seq_commit_accessor selected_parent_utxo_view selected_parent_pool_view (vw_daa_score w)
          (schedules virtual_ghostdag_data) (new_context virtual_ghostdag_data selected_parent_multiset);
  accumulated_diff ← unwrap_result (UtxoAlgebra.with_diff_in_place accumulated_diff (mergeset_diff ctx));
  accumulated_pool_diff ← unwrap_result (PoolDiff.with_diff_in_place accumulated_pool_diff (mergeset_pool_diff ctx));
  let accepted_id_digests := [compute_seq_commit ctx virtual_ghostdag_data (vw_daa_score w)] in
  Ok (mk_virtual_state virtual_parents virtual_ghostdag_data (vw_daa_score w) (vw_bits w) (vw_past_median_time w)
        (multiset_hash ctx) (mergeset_diff ctx) accepted_id_digests (mergeset_rewards ctx) (vw_non_daa w),
      mergeset_pool_diff ctx, (accumulated_diff, accumulated_pool_diff)).

(** What one resolve reads and writes. *)
Record ProcessorState := mk_processor {
  ps_chain : ChainStores;
  ps_virtual : VirtualStores;
  ps_selected_chain : DbSelectedChainStore;
  ps_anchors : AnchorStore }.

Definition commit_virtual_state {E : Type} (st : ProcessorState) (new_virtual_state : VirtualStateData) (new_pool_diff : PoolDiff)
    (accumulated_diff : UtxoDiff) (accumulated_pool_diff : PoolDiff) (chain_path : ChainPath)
    (anchor_updates : option AnchorStateUpdates) : outcome E ProcessorState :=
  let v := ps_virtual st in
  smt ← unwrap_result (apply_diff_batch (E := unit) (pool_smt v) accumulated_pool_diff);
  selected_chain ← apply_changes (ps_selected_chain st) chain_path;
  Ok (mk_processor (ps_chain st)
        (mk_virtual_stores new_virtual_state (write_diff_batch (utxo_set v) accumulated_diff)
           (store_apply (pool_state v) accumulated_pool_diff) smt.1 new_pool_diff)
        selected_chain (commit_anchor_updates (ps_anchors st) anchor_updates)).

(** The node as the anchor code sees it. *)
Definition anchor_view (c : ChainStores) : ChainView :=
  mk_chain_view (λ b, header_daa_score <$> block_headers env !! b) chain_ancestor_of
    (λ b, acceptance_data_store c !! b) (λ b, block_transactions_store self !! b) (body_tips_store env).

(** No gossiped anchor comes between the reads of the anchor store and its commit here; their
    interleavings are the subject of [AnchorState]. *)
Definition calculate_and_commit_virtual_state (st : ProcessorState) (virtual_parents : list Hash) (virtual_ghostdag_data : GhostdagData)
    (selected_parent_multiset : MuHash) (accumulated_diff : UtxoDiff) (accumulated_pool_diff : PoolDiff) (chain_path : ChainPath)
    : outcome (RuleError TxScriptError) ProcessorState :=
  r ← calculate_virtual_state (ps_virtual st) virtual_parents virtual_ghostdag_data selected_parent_multiset accumulated_diff accumulated_pool_diff;
  let '(new_virtual_state, virtual_pool_diff, accumulated) := r in
  anchor_updates ← unwrap_result (collect_finality_anchor_updates (anchor_view (ps_chain st)) (anchor_params env) (ps_anchors st) (ps_anchors st) (path_added chain_path));
  commit_virtual_state st new_virtual_state virtual_pool_diff accumulated.1 accumulated.2 chain_path anchor_updates.

(** ** The finality point *)
Fixpoint advance_to_score {E : Type} (required_blue_score : Z) (current : Hash) (chain : list Hash) : outcome E Hash :=
  match chain with
  | [] => Ok current
  | b :: chain =>
      score ← unwrap (gd_blue_score <$> vp_ghostdag_store self !! b);
      if required_blue_score <=? score then Ok current else advance_to_score required_blue_score b chain
  end.
(** [calculate_block_at_depth], [points] being the column of the depth store. *)
Definition calculate_block_at_depth {E : Type} (ghostdag_data : GhostdagData) (depth : Z) (points : gmap Hash Hash)
    (pruning_point : Hash) : outcome E Hash :=
  if is_origin (selected_parent ghostdag_data) then Ok ORIGIN else
  if gd_blue_score ghostdag_data <? depth then Ok (dm_genesis env) else
  pp_bs ← unwrap (gd_blue_score <$> vp_ghostdag_store self !! pruning_point);
  limit ← u64_add pp_bs depth;
  if gd_blue_score ghostdag_data <? limit then Ok ORIGIN else
  if negb (chain_ancestor_of pruning_point (selected_parent ghostdag_data)) then Ok ORIGIN else
  point ← unwrap (points !! selected_parent ghostdag_data);
  let current := if is_origin point then pruning_point else point in
  required_blue_score ← u64_sub (gd_blue_score ghostdag_data) depth;
  chain ← forward_chain_iterator current (selected_parent ghostdag_data) true;
  advance_to_score required_blue_score current chain.
Definition calc_finality_point {E : Type} (ghostdag_data : GhostdagData) (pruning_point : Hash) : outcome E Hash :=
  calculate_block_at_depth ghostdag_data (finality_depth env) (finality_points env) pruning_point.
Definition virtual_finality_point {E : Type} (virtual_ghostdag_data : GhostdagData) (pruning_point : Hash) : outcome E Hash :=
  finality_point ← calc_finality_point virtual_ghostdag_data pruning_point;
  Ok (if chain_ancestor_of pruning_point finality_point then finality_point else pruning_point).

(** ** Resolving virtual *)

(** The parents of virtual besides the sink, a random choice among the candidates, and the
    GHOSTDAG data over them. *)
Context (pick_virtual_parents : Hash → list Hash → Hash → list Hash * GhostdagData).

Definition resolve_virtual {E : Type} (st : ProcessorState) : outcome E ProcessorState :=
  let v := ps_virtual st in
  let prev_state := virtual_state v in
  let pruning_point := pruning_point_store env in
  finality_point ← virtual_finality_point (vs_ghostdag_data prev_state) pruning_point;
  let tips := filter (λ h, is_dag_ancestor_of finality_point h = true) (body_tips_store env) in
  let prev_sink := selected_parent (vs_ghostdag_data prev_state) in
  sink_daa_score ← unwrap (header_daa_score <$> block_headers env !! prev_sink);
  anchor_guard ← unwrap_result (finality_anchor_guard (anchor_params env) (ps_anchors st) sink_daa_score);
  r ← sink_search_algorithm v finality_point anchor_guard
        (mk_walk (ps_chain st) (UtxoAlgebra.to_reversed (vs_utxo_diff prev_state)) (PoolDiff.to_reversed (virtual_pool_diff v)))
        prev_sink tips;
  let '(new_sink, virtual_parent_candidates, w) := r in
  let '(virtual_parents, virtual_ghostdag_data) := pick_virtual_parents new_sink virtual_parent_candidates pruning_point in
  if negb (bool_decide (selected_parent virtual_ghostdag_data = new_sink)) then Panic else
  sink_multiset ← unwrap (utxo_multisets_store (wk_stores w) !! new_sink);
  chain_path ← calculate_chain_path prev_sink new_sink;
  unwrap_result (calculate_and_commit_virtual_state (mk_processor (wk_stores w) v (ps_selected_chain st) (ps_anchors st))
    virtual_parents virtual_ghostdag_data sink_multiset (wk_diff w) (wk_pool_diff w) chain_path).

(** ** Starting points *)

(** [VirtualState::from_genesis] and [process_genesis]; the digests of the genesis lanes
    are a function of its GHOSTDAG data. *)
Record GenesisBlock := mk_genesis { gb_hash : Hash; gb_bits : Z; gb_timestamp : Z; gb_daa_score : Z }.
Definition from_genesis (genesis : GenesisBlock) (ghostdag_data : GhostdagData) (accepted_id_digests : list Hash) : VirtualStateData :=
  mk_virtual_state [gb_hash genesis] ghostdag_data (gb_daa_score genesis) (gb_bits genesis) (gb_timestamp genesis)
    new_muhash UtxoAlgebra.empty_diff accepted_id_digests ∅ {[ gb_hash genesis ]}.
Definition process_genesis {E : Type} (ghostdag_manager : GhostdagManager) (genesis_digests : GhostdagData → list Hash)
    (genesis : GenesisBlock) (st : ProcessorState) : outcome E ProcessorState :=
  c ← commit_utxo_state (ps_chain st) (gb_hash genesis) UtxoAlgebra.empty_diff PoolDiff.empty_diff new_muhash [] ZERO_HASH;
  let selected_chain := init_with_pruning_point (ps_selected_chain st) (gb_hash genesis) in
  ghostdag_data ← ghostdag ghostdag_manager [gb_hash genesis];
  commit_virtual_state (mk_processor c (ps_virtual st) selected_chain (ps_anchors st))
    (from_genesis genesis ghostdag_data (genesis_digests ghostdag_data)) PoolDiff.empty_diff UtxoAlgebra.empty_diff PoolDiff.empty_diff
    (mk_path [] []) None.
End processor.
