(* ===== verification/ReorgTheorems.v ===== *)
(** * Reorganisations: the theorems

    The state of a chain block is a function of the block: the diffs stored along its
    chain lead to it from the base (the pruning point), whatever reorganisations went
    before.  [calculate_utxo_state_relatively] moves the two diffs of virtual from the state
    of one chain block to that of another, verifying what was not verified yet; the sink
    search terminates with a valid block that the anchor and the finality point allow; and
    resolving virtual leaves the UTXO set, the pool, its commitment and the chain index at
    the state of the new virtual. *)

From S2P Require Import Prelude Transaction Dag Ghostdag NotePool PoolDiff PoolHashing Smt PoolCommitment PoolValidate UtxoAlgebra Params TxHashing Uint U3072 MuHash Merkle Mass Coinbase FinalityAnchor AnchorState Covenants TxValidation BodyValidation ChainWalk VirtualState VirtualTheorems VirtualProcessor.

Lemma write_many_inv {K A : Type} `{Countable K} (m : gmap K A) kvs k v :
  write_many m kvs !! k = Some v → (k, v) ∈ kvs ∨ m !! k = Some v.
Proof.
  unfold write_many. revert m. induction kvs as [|[x w] kvs IH]; intros m; cbn [foldl fst snd]; [by right|].
  intros [Hin|Hm]%IH; [left; by right|]. apply lookup_insert_Some in Hm as [[<- <-]|[_ Hm]]; [left; by left|by right].
Qed.

(** ** Where the entries of a state come from *)
Section issuance.
Context `{ScriptEngine} `{TxHashers} `{PayloadDecoder} `{NotePoolHashers} `{SchnorrOracle}.
Context `{MuHashers} `{ModInverse} `{SmtHasher} `{AnchorDecoder} `{AnchorHashers} `{MerkleHasher}.
Context (self : VirtualStateProcessor) (bp : BlockBodyProcessor) (masses : Transaction → NonContextualMasses).
Context (Hst : store_wf self bp masses).
(** The base: the ids accepted up to it, and its state. *)
Context (A0 : gset TransactionId) (s0 : UtxoCollection) (p0 : PoolCollection) (Hbase : history self A0 s0 p0).

(** The notes a transaction issues. *)
Definition issue (tx : Transaction) : PoolCollection :=
  match op_of tx with Some op => collect (produces tx) (created_entries op) | None => ∅ end.
Definition utxo_issued (op : TransactionOutpoint) (e : UtxoEntry) : Prop :=
  s0 !! op = Some e ∨
  ∃ tx j o, stored self tx ∧ (id tx ∉ A0) ∧ outputs tx !! j = Some o ∧ op = created_outpoint (id tx) j ∧
    e = created_entry o (block_daa_score e) (is_coinbase tx).
Definition note_issued (sn : Hash) (e : PoolEntry) : Prop :=
  p0 !! sn = Some e ∨ ∃ tx, stored self tx ∧ (id tx ∉ A0) ∧ issue tx !! sn = Some e.
Definition issued (s : UtxoCollection) (p : PoolCollection) : Prop := map_Forall utxo_issued s ∧ map_Forall note_issued p.

Lemma outputs_bound tx : stored self tx → Z.of_nat (length (outputs tx)) ≤ 2 ^ 32.
Proof.
  intros Htx. destruct (stored_isolation self bp masses Hst tx Htx) as (pov & Hiso). destruct (is_coinbase tx) eqn:Hcb.
  - destruct (iv_coinbase _ _ _ Hiso Hcb) as (_ & _ & Hlen & _). pose proof (sw_k self bp masses Hst). lia.
  - pose proof (iv_outputs_count _ _ _ Hiso Hcb). pose proof (vw_outputs _ (sw_wf self bp masses Hst)). lia.
Qed.
Lemma issue_produces tx sn : is_Some (issue tx !! sn) → sn ∈ produces tx.
Proof.
  unfold issue. intros [e He]. destruct (decide (sn ∈ produces tx)) as [|Hn]; [done|].
  destruct (op_of tx); [by rewrite (collect_None _ _ _ Hn) in He|by rewrite lookup_empty in He].
Qed.
Lemma same_id_same_issue tx1 tx2 : stored self tx1 → stored self tx2 → id tx1 = id tx2 →
  outputs tx1 = outputs tx2 ∧ is_coinbase tx1 = is_coinbase tx2 ∧ issue tx1 = issue tx2.
Proof.
  intros Hx1 Hx2 Hid. destruct (sw_ids self bp masses Hst tx1 tx2 Hx1 Hx2 Hid) as (_ & Ho & Hs & Hp). split; [done|].
  split; [unfold is_coinbase; by rewrite Hs|]. unfold issue, produces, op_of. by rewrite Hs, Hp, Hid.
Qed.

(** An outpoint and a score determine the entry; a serial determines the note. *)
Lemma utxo_issued_unique op e1 e2 :
  utxo_issued op e1 → utxo_issued op e2 → block_daa_score e1 = block_daa_score e2 → e1 = e2.
Proof.
  assert (Hmix : ∀ e e', s0 !! op = Some e → (∃ tx j o, stored self tx ∧ (id tx ∉ A0) ∧ outputs tx !! j = Some o ∧
    op = created_outpoint (id tx) j ∧ e' = created_entry o (block_daa_score e') (is_coinbase tx)) → False).
  { intros e e' Hs (tx & j & o & _ & Hn & _ & -> & _). apply Hn. apply (hi_utxo _ _ _ _ Hbase (created_outpoint (id tx) j)). by eexists. }
  intros [Hx1|Hx1] [Hx2|Hx2] Hsc; [congruence|by destruct (Hmix _ _ Hx1 Hx2)|by destruct (Hmix _ _ Hx2 Hx1)|].
  destruct Hx1 as (t1 & j1 & o1 & Hs1 & _ & Ho1 & -> & He1), Hx2 as (t2 & j2 & o2 & Hs2 & _ & Ho2 & Heq & He2).
  injection Heq as Hid Hj. destruct (same_id_same_issue t1 t2 Hs1 Hs2 Hid) as (Hout & Hcb & _).
  pose proof (outputs_bound t1 Hs1). pose proof (outputs_bound t2 Hs2).
  pose proof (lookup_lt_Some _ _ _ Ho1). pose proof (lookup_lt_Some _ _ _ Ho2).
  rewrite !Z.mod_small in Hj by lia. assert (j1 = j2) as -> by lia. rewrite He1, He2, Hsc, Hcb. congruence.
Qed.
Lemma note_issued_unique sn e1 e2 : note_issued sn e1 → note_issued sn e2 → e1 = e2.
Proof.
  assert (Hmix : ∀ e e', p0 !! sn = Some e → (∃ tx, stored self tx ∧ (id tx ∉ A0) ∧ issue tx !! sn = Some e') → False).
  { intros e e' Hs (tx & Htx & Hn & Hi). apply Hn, (hi_pool _ _ _ _ Hbase sn tx); [done| |by eexists]. apply issue_produces. by eexists. }
  intros [Hx1|Hx1] [Hx2|Hx2]; [congruence|by destruct (Hmix _ _ Hx1 Hx2)|by destruct (Hmix _ _ Hx2 Hx1)|].
  destruct Hx1 as (t1 & Hs1 & _ & Hi1), Hx2 as (t2 & Hs2 & _ & Hi2).
  assert (Hid : id t1 = id t2) by (apply (sw_serials self bp masses Hst t1 t2 sn); [done|done|apply issue_produces; by eexists..]).
  destruct (same_id_same_issue t1 t2 Hs1 Hs2 Hid) as (_ & _ & Heq). congruence.
Qed.

Lemma issued_base : issued s0 p0.
Proof. split; intros k e He; by left. Qed.
Lemma issued_tx s p tx pov : stored self tx → id tx ∉ A0 ∨ creates_nothing tx → issued s p → issued (tx_apply s tx pov) p.
Proof.
  intros Htx Hnew [Hs Hp]. split; [|done]. intros op e He. unfold tx_apply, create_outputs, spend_inputs in He.
  apply write_many_inv in He as [Hin|He].
  - right. apply list_elem_of_lookup in Hin as [j Hj]. rewrite list_lookup_imap in Hj. apply fmap_Some in Hj as (o & Ho & Heq).
    injection Heq as -> ->. destruct Hnew as [Hn|[Hn _]]; [|by rewrite Hn in Ho]. by exists tx, j, o.
  - rewrite delete_many_lookup in He. destruct (decide _); [done|]. by apply Hs.
Qed.
Lemma mutation_issues s p tx v : accepts s p tx v → PoolDiff.add (pool_mutation v) = issue tx.
Proof.
  intros Hacc. unfold pool_mutation, issue. pose proof (ac_pool _ _ _ _ Hacc) as Hp. unfold produces.
  destruct (op_of tx) as [op|]; [|by rewrite Hp]. by destruct Hp as (ess & _ & _ & _ & ->).
Qed.
Lemma issued_pool s p v : accepted_new self A0 v → issued s p → issued s (pool_after p v.1).
Proof.
  intros (Htx & _ & Hnew & (s1 & p1 & Hacc)) [Hs Hp]. split; [done|]. intros sn e. unfold pool_after. rewrite apply_diff_lookup.
  rewrite (mutation_issues _ _ _ _ Hacc). destruct (issue (tx_of v) !! sn) as [e'|] eqn:Hi.
  - intros [= ->]. right. exists (tx_of v). destruct Hnew as [Hn|[_ Hn]]; [done|].
    assert (Hin : sn ∈ produces (tx_of v)) by (apply issue_produces; by eexists). rewrite Hn in Hin. by apply elem_of_nil in Hin.
  - intros He. destruct (PoolDiff.remove (pool_mutation v.1) !! sn); [done|]. by apply Hp.
Qed.
Lemma issued_all pov acc s p : Forall (accepted_new self A0) acc → issued s p → issued (apply_all pov s acc) (pool_all p acc).
Proof.
  unfold apply_all, pool_all. intros Hacc. revert s p. induction Hacc as [|v acc Hv _ IH]; intros s p Hi; [done|].
  cbn [foldl]. apply IH. apply issued_pool; [done|]. destruct Hv as (Htx & _ & Hnew & _). by apply issued_tx.
Qed.

(** Diffs between issued states compose. *)
Lemma compose_utxo {D : Type} `{UtxoAlgebra.ImmutableUtxoDiff D} m d1 (d2 : D) s :
  map_Forall utxo_issued m → UtxoAlgebra.fits m d1 → UtxoAlgebra.apply_diff m d1 = s →
  UtxoAlgebra.fits s (UtxoAlgebra.as_diff d2) → map_Forall utxo_issued (UtxoAlgebra.apply_diff s (UtxoAlgebra.as_diff d2)) →
  ∃ r, UtxoAlgebra.with_diff_in_place d1 d2 = Ok r ∧ UtxoAlgebra.fits m r ∧
    UtxoAlgebra.apply_diff m r = UtxoAlgebra.apply_diff s (UtxoAlgebra.as_diff d2).
Proof.
  intros Hm Hf1 <- Hf2 Hi. apply utxo_compose_sound; [done..|]. intros op e e' Hr Ha Hsc. apply (utxo_issued_unique op); [| |done].
  - apply Hm. by apply (proj1 Hf1).
  - apply Hi. rewrite utxo_apply_lookup. by rewrite Ha.
Qed.
Lemma compose_pool {D : Type} `{PoolDiff.ImmutablePoolDiff D} m d1 (d2 : D) p :
  map_Forall note_issued m → PoolDiff.fits m d1 → PoolDiff.apply_diff m d1 = p →
  PoolDiff.fits p (PoolDiff.as_diff d2) → map_Forall note_issued (PoolDiff.apply_diff p (PoolDiff.as_diff d2)) →
  ∃ r, PoolDiff.with_diff_in_place d1 d2 = Ok r ∧ PoolDiff.fits m r ∧
    PoolDiff.apply_diff m r = PoolDiff.apply_diff p (PoolDiff.as_diff d2).
Proof.
  intros Hm Hf1 <- Hf2 Hi. eexists. apply compose_sound; [done..|]. intros sn e e' Hr Ha. apply (note_issued_unique sn).
  - apply Hm. pose proof Hf1 as [Hsub _]. by eapply lookup_weaken.
  - apply Hi. rewrite apply_diff_lookup. by rewrite Ha.
Qed.
End issuance.

(** ** The state of a chain block *)
Section chain.
Context `{ScriptEngine} `{TxHashers} `{PayloadDecoder} `{NotePoolHashers} `{SchnorrOracle}.
Context `{MuHashers} `{ModInverse} `{SmtHasher} `{AnchorDecoder} `{AnchorHashers} `{MerkleHasher}.
Context `{ReachabilityService} `{ChainService}.
Context (self : VirtualStateProcessor) (env : ProcessorEnv) (seq_commit_accessor : Hash → SeqCommitAccessor).
Context (recompute_seq_commit : GhostdagData → list MergesetBlockAcceptanceData → Header →
  outcome (RuleError TxScriptError) Hash).
Context (expected_header_pruning_point : GhostdagData → Hash * Hash) (schedules : GhostdagData → nat → schedule).
Context (bp : BlockBodyProcessor) (masses : Transaction → NonContextualMasses).
(** The blocks the reachability store knows, the base of the chains (the pruning point) with
    its state, and a bound on the value in circulation at each chain block. *)
Context (known : Hash → Prop) (base : Hash) (A0 : gset TransactionId) (s0 : UtxoCollection) (p0 : PoolCollection).
Context (supply : Hash → Z).

Definition blue_score_of (b : Hash) : Z := default 0 (gd_blue_score <$> vp_ghostdag_store self !! b).
(** The subsidy a block claims. *)
Definition subsidy_of (b : Hash) : Z :=
  from_option cb_subsidy 0 (txs ← block_transactions_store self !! b; coinbase_data self txs).
(** The blocks a mergeset names are stored; [cb] is the coinbase of the selected parent. *)
Record mergeset_stored (gd : GhostdagData) (cb : Transaction) (blocks : list (Hash * list Transaction)) : Prop := {
  ms_first : ∃ rest bs, blocks = (selected_parent gd, cb :: rest) :: bs ∧
    ∀ E : Type, consensus_ordered_mergeset_without_selected_parent (E := E) gd (vp_ghostdag_store self) = Ok bs.*1;
  ms_stored : Forall (λ bt, block_transactions_store self !! bt.1 = Some bt.2 ∧ is_Some (headers_daa_scores self !! bt.1)) blocks;
  ms_nodup : NoDup blocks.*1;
  ms_covers : ∀ b, b ∈ mergeset_blues gd ++ mergeset_reds gd → b ∈ blocks.*1;
  ms_reds : NoDup (mergeset_reds gd) }.
(** A block above the base passed header and body validation; [p] is its chain parent. *)
Record chain_block_wf (b p : Hash) : Prop := {
  bw_header : ∃ h, block_headers env !! b = Some h ∧ header_hash h = b ∧ 0 ≤ header_daa_score h < 2 ^ 62 ∧
    is_Some (default [] (parents_by_level h !! 0%nat) !! 0%nat) ∧
    ∃ s, calc_block_subsidy (E := CoinbaseError) (coinbase_manager self) (header_daa_score h) = Ok s ∧ in_u64 s;
  bw_data : ∃ gd cb blocks, vp_ghostdag_store self !! b = Some gd ∧ selected_parent gd = p ∧ in_u64 (gd_blue_score gd) ∧
    mergeset_stored gd cb blocks ∧ supply p + outputs_total (outputs cb) ≤ supply b ∧
    supply b + Zsum (subsidy_of <$> mergeset_blues gd ++ mergeset_reds gd) ≤ u64_max;
  bw_score : blue_score_of p < blue_score_of b;
  bw_txs : ∃ cb rest, block_transactions_store self !! b = Some (cb :: rest);
  bw_non_daa : is_Some (daa_excluded_store self !! b) }.

Abbreviation utxo_wf := (map_Forall (λ _, entry_wf (transaction_validator self))) (only parsing).
(** What holds of a state at a blue score, [A] being the ids accepted up to it: nothing is
    spent twice, every entry was issued, value is bounded, and the coinbases accepted are
    those of lower blocks. *)
Record state_ok (score v : Z) (A : gset TransactionId) (s : UtxoCollection) (p : PoolCollection) : Prop := {
  so_history : history self A s p;
  so_wf : utxo_wf s;
  so_issued : issued self A0 s0 p0 s p;
  so_supply : utxo_value s + pool_value p ≤ v;
  so_base : A0 ⊆ A;
  so_coinbase : ∀ tx data, stored self tx → is_coinbase tx = true → id tx ∈ A →
    deserialize_coinbase_payload (coinbase_manager self) (payload tx) = Ok data → cb_blue_score data < score }.

(** What the block stores, the reachability store, the hash functions and the inverse
    library promise to the processor. *)
Record environment_ok : Prop := {
  eo_store : store_wf self bp masses;
  eo_state : state_ok (blue_score_of base) (supply base) A0 s0 p0;
  eo_laws : chain_laws known;
  eo_base : known base ∧ base ≠ ORIGIN;
  eo_elements : ∀ data, byte_array 384 (element_bytes data);
  eo_inverse : ∀ r, element_product r → ∃ i, inverse_of (r mod UINT_PRIME) i;
  eo_serials : ∀ data, key_ok (NotePoolSerialHash data);
  eo_base_serials : serials_ok p0;
  eo_lanes : ∀ gd acc h, not_panic (recompute_seq_commit gd acc h);
  eo_manager : manager_ok (coinbase_manager self);
  eo_coinbase : ∀ b cb rest data, block_transactions_store self !! b = Some (cb :: rest) →
    deserialize_coinbase_payload (coinbase_manager self) (payload cb) = Ok data →
    cb_blue_score data = blue_score_of b ∧ Forall byte_ok (payload cb);
  eo_blocks : ∀ b p, known b → on_chain base p → chain_child b p → chain_block_wf b p }.

(** *** Validity, independent of what the node did before *)

(** What verification reads of the context of a block. *)
Definition reference_context (gd : GhostdagData) (cb : Transaction) (blocks : list (Hash * list Transaction))
    (ls : list (list (ValidatedTransaction * Z))) : UtxoProcessingContext :=
  let d := merged_data self (id cb) 0 ([], ∅) blocks ls in
  mk_context gd new_muhash UtxoAlgebra.empty_diff PoolDiff.empty_diff [] [] d.1 d.2 None.

(** [b] is valid and its state is [s], [p]: its parent is valid, the state is the one of the
    reference walk over its mergeset from the parent's state, and its header is correct for it. *)
Inductive valid_at : Hash → UtxoCollection → PoolCollection → Prop :=
| valid_base : valid_at base s0 p0
| valid_next b par s p h gd cb blocks cb' rest non_daa :
    chain_child b par → valid_at par s p →
    block_headers env !! b = Some h → vp_ghostdag_store self !! b = Some gd → mergeset_stored gd cb blocks →
    block_transactions_store self !! b = Some (cb' :: rest) → daa_excluded_store self !! b = Some non_daa →
    let pov := header_daa_score h in
    let ls := merge_blocks self seq_commit_accessor pov (selected_parent gd) 0 (tx_apply s cb pov) p blocks in
    let s' := apply_all pov (tx_apply s cb pov) (concat ls) in
    let p' := pool_all p (concat ls) in
    header_correct self seq_commit_accessor recompute_seq_commit expected_header_pruning_point s' p'
      (reference_context gd cb blocks ls) h cb' rest non_daa →
    valid_at b s' p'.
Definition valid_block (b : Hash) : Prop := ∃ s p, valid_at b s p.

Context (Hok : environment_ok).

Lemma issued_serials s p : issued self A0 s0 p0 s p → serials_ok p.
Proof.
  intros [_ Hp] sn e He. destruct (Hp sn e He) as [Hp0|(tx & _ & _ & Hi)]; [by apply (eo_base_serials Hok) in Hp0|].
  assert (Hin : sn ∈ produces tx) by (apply issue_produces; by eexists). unfold produces in Hin.
  destruct (op_of tx); [|by apply elem_of_nil in Hin]. apply list_elem_of_fmap in Hin as (i & -> & _). apply (eo_serials Hok).
Qed.
Lemma base_history : history self A0 s0 p0.
Proof. apply (eo_state Hok). Qed.

Lemma coinbase_fresh b v A s p cb rest :
  state_ok (blue_score_of b) v A s p → block_transactions_store self !! b = Some (cb :: rest) → id cb ∉ A.
Proof.
  intros Hbs Hb Hin. destruct (block_shape self bp masses (eo_store Hok) b _ Hb) as (cb' & rest' & Heq & Hcb & _ & Hcs).
  injection Heq as <- <-. destruct (sw_payload self bp masses (eo_store Hok) b cb rest Hb) as (data & Hd).
  destruct (eo_coinbase Hok b cb rest data Hb Hd) as [Hs _]. pose proof (so_coinbase _ _ _ _ _ Hbs cb data Hcs Hcb Hin Hd). lia.
Qed.
Lemma mergeset_fresh gd cb blocks v A s p :
  mergeset_stored gd cb blocks → state_ok (blue_score_of (selected_parent gd)) v A s p → mergeset_ok self A gd cb blocks.
Proof.
  intros [Hf Hst Hnd _ _] Hbs. split; [done|done|done|]. destruct Hf as (rest & bs & -> & _).
  apply Forall_cons in Hst as [[Hb _] _]. by eapply coinbase_fresh.
Qed.
Lemma mergeset_unique gd cb1 cb2 bs1 bs2 : mergeset_stored gd cb1 bs1 → mergeset_stored gd cb2 bs2 → cb1 = cb2 ∧ bs1 = bs2.
Proof.
  assert (Hu : ∀ l1 l2 : list (Hash * list Transaction), l1.*1 = l2.*1 → Forall (λ bt, block_transactions_store self !! bt.1 = Some bt.2 ∧ is_Some (headers_daa_scores self !! bt.1)) l1 →
    Forall (λ bt, block_transactions_store self !! bt.1 = Some bt.2 ∧ is_Some (headers_daa_scores self !! bt.1)) l2 → l1 = l2).
  { induction l1 as [|[b t] l1 IH]; intros [|[b' t'] l2] Heq Hx1 Hx2; [done..|]. injection Heq as -> Heq.
    apply Forall_cons in Hx1 as [[Hb1 _] Hx1]. apply Forall_cons in Hx2 as [[Hb2 _] Hx2]. cbn in *. f_equal; [congruence|by apply IH]. }
  intros [(r1 & l1 & -> & Ho1) Hs1 _ _ _] [(r2 & l2 & -> & Ho2) Hs2 _ _ _].
  assert (Heq : (selected_parent gd, cb1 :: r1) :: l1 = (selected_parent gd, cb2 :: r2) :: l2).
  { apply Hu; [|done|done]. specialize (Ho1 unit). specialize (Ho2 unit). cbn [fmap list_fmap fst]. congruence. }
  split; [congruence|done].
Qed.

(** *** The next state *)
Lemma subsidy_nonneg b : 0 ≤ subsidy_of b.
Proof.
  unfold subsidy_of, coinbase_data. destruct (block_transactions_store self !! b) as [[|cb rest]|] eqn:Hb; cbn [mbind option_bind from_option]; [done| |done].
  destruct (deserialize_coinbase_payload _ (payload cb)) as [data| |] eqn:Hd; cbn [from_option]; [|done..].
  destruct (eo_coinbase Hok b cb rest data Hb Hd) as [_ Hbytes]. destruct (serialize_deserialize _ _ _ Hbytes Hd) as [_ Hpo].
  destruct Hpo as (_ & [Hsub _] & _). done.
Qed.
Lemma reward_bounds (rewards : gmap Hash BlockRewardData) b : map_Forall (reward_entry self) rewards → b ∈ dom rewards →
  ∃ r, rewards !! b = Some r ∧ rw_subsidy r = subsidy_of b ∧ 0 ≤ subsidy_of b ∧ 0 ≤ total_fees r ≤ map_sum total_fees rewards.
Proof.
  intros Hr Hb. apply elem_of_dom in Hb as [r Hb]. exists r. split; [done|].
  destruct (Hr b r Hb) as (cb & rest & data & Htx & Hd & Hs & Hf). unfold subsidy_of, coinbase_data. rewrite Htx. cbn [mbind option_bind].
  rewrite Hd. cbn [from_option]. split; [done|]. destruct (eo_coinbase Hok b cb rest data Htx Hd) as [_ Hbytes].
  pose proof (serialize_deserialize _ _ _ Hbytes Hd) as [_ Hpo]. destruct Hpo as (_ & [Hsub _] & _).
  split; [done|]. split; [done|]. rewrite (map_sum_delete _ _ _ _ Hb).
  assert (0 ≤ map_sum total_fees (delete b rewards)); [|lia].
  apply map_sum_nonneg. intros i x [_ Hi]%lookup_delete_Some. by destruct (Hr i x Hi) as (? & ? & ? & ? & ? & ? & ?).
Qed.
Lemma subsidies_split l : Forall (λ b, 0 ≤ subsidy_of b) l → Forall (λ b, 0 ≤ subsidy_of b ≤ Zsum (subsidy_of <$> l)) l.
Proof.
  intros Hl. apply Forall_forall. intros b Hb. rewrite Forall_forall in Hl. split; [by apply Hl|].
  apply list_elem_of_split in Hb as (l1 & l2 & ->). rewrite fmap_app, fmap_cons, Zsum_app, Zsum_cons.
  assert (0 ≤ Zsum (subsidy_of <$> l1)) by (apply Zsum_nonneg, Forall_fmap, Forall_forall; intros x Hx; apply Hl; set_solver).
  assert (0 ≤ Zsum (subsidy_of <$> l2)) by (apply Zsum_nonneg, Forall_fmap, Forall_forall; intros x Hx; apply Hl; set_solver). lia.
Qed.
Lemma rewards_payable (gd : GhostdagData) (rewards : gmap Hash BlockRewardData) (non_daa : gset Hash) :
  map_Forall (reward_entry self) rewards → (∀ b, b ∈ mergeset_blues gd ++ mergeset_reds gd → b ∈ dom rewards) → NoDup (mergeset_reds gd) →
  map_sum total_fees rewards + Zsum (subsidy_of <$> mergeset_blues gd ++ mergeset_reds gd) ≤ u64_max →
  rewards_unsigned rewards ∧ payable rewards non_daa gd.
Proof.
  intros Hr Hdom Hnd Hsum.
  assert (Hsub : Forall (λ b, 0 ≤ subsidy_of b) (mergeset_blues gd ++ mergeset_reds gd)).
  { apply Forall_forall. intros b Hb. by destruct (reward_bounds rewards b Hr (Hdom b Hb)) as (r & _ & _ & ? & _). }
  split; [|split; [|split]].
  - intros b r Hb. destruct (reward_bounds rewards b Hr (elem_of_dom_2 _ _ _ Hb)) as (r' & Hx & Hs & ? & ? & _). simplify_eq. lia.
  - pose proof (subsidies_split _ Hsub) as Hall. rewrite Forall_forall in Hall. apply Forall_forall. intros b [Hn Hb]%list_elem_of_filter.
    assert (Hb' : b ∈ mergeset_blues gd ++ mergeset_reds gd) by (apply elem_of_app; by left). specialize (Hall b Hb').
    destruct (reward_bounds rewards b Hr (Hdom b Hb')) as (r & Hx & Hs & _ & Hf). split; [by eexists|]. unfold reward_of. rewrite Hx.
    rewrite bool_decide_eq_false_2 by done. lia.
  - apply Forall_forall. intros b Hb. apply elem_of_dom, Hdom, elem_of_app. by right.
  - transitivity (Zsum ((λ b, from_option total_fees 0 (rewards !! b)) <$> mergeset_reds gd) + Zsum (subsidy_of <$> mergeset_reds gd)).
    + assert (Hin : ∀ b, b ∈ mergeset_reds gd → b ∈ dom rewards) by (intros b Hb; apply Hdom, elem_of_app; by right).
      clear Hdom Hsum Hsub Hnd. induction (mergeset_reds gd) as [|b l IH]; [done|]. rewrite !fmap_cons, !Zsum_cons.
      destruct (reward_bounds rewards b Hr (Hin b ltac:(by left))) as (r & Hx & Hs & Hs0 & _). unfold reward_of at 1. rewrite Hx. cbn [from_option].
      assert (Hl : ∀ b, b ∈ l → b ∈ dom rewards) by (intros b' Hb'; apply Hin; by right). specialize (IH Hl). case_bool_decide; lia.
    + pose proof (map_sum_keys total_fees rewards _ Hnd) as Hf. rewrite fmap_app, Zsum_app in Hsum. apply Forall_app in Hsub as [Hblue _].
      assert (0 ≤ Zsum (subsidy_of <$> mergeset_blues gd)) by (by apply Zsum_nonneg, Forall_fmap). unshelve epose proof (Hf _); [|lia].
      intros i x Hi. by destruct (Hr i x Hi) as (? & ? & ? & ? & ? & ? & ?).
Qed.

(** The state after a mergeset, from the state of its selected parent: what
    [calculate_utxo_state] returns for any views of the parent's state. *)
Record next_context (gd : GhostdagData) (cb : Transaction) (blocks : list (Hash * list Transaction)) (pov v : Z)
    (A : gset TransactionId) (s : UtxoCollection) (p : PoolCollection) (ctx : UtxoProcessingContext)
    (A' : gset TransactionId) (s' : UtxoCollection) (p' : PoolCollection) : Prop := {
  nc_walk : walk self s p A A' s' p' (mergeset_diff ctx) (mergeset_pool_diff ctx);
  nc_data : ctx_ghostdag_data ctx = gd;
  nc_recorded : (mergeset_acceptance_data ctx, mergeset_rewards ctx) =
    merged_data self (id cb) 0 ([], ∅) blocks
      (merge_blocks self seq_commit_accessor pov (selected_parent gd) 0 (tx_apply s cb pov) p blocks);
  nc_rewards : map_Forall (reward_entry self) (mergeset_rewards ctx) ∧ dom (mergeset_rewards ctx) = list_to_set blocks.*1;
  nc_fees : map_sum total_fees (mergeset_rewards ctx) ≤ v }.

Lemma next_state {E V Q : Type} `{UtxoView V} `{PoolStateView Q} (vw : V) (q : Q) gd cb blocks mh pov v v' score A s p :
  mergeset_stored gd cb blocks → 0 ≤ pov < 2 ^ 62 → state_ok (blue_score_of (selected_parent gd)) v A s p →
  blue_score_of (selected_parent gd) < score → v + outputs_total (outputs cb) ≤ v' → v' ≤ u64_max →
  UtxoAlgebra.shows vw s → PoolDiff.shows q p → commits mh s →
  let ls := merge_blocks self seq_commit_accessor pov (selected_parent gd) 0 (tx_apply s cb pov) p blocks in
  let s' := apply_all pov (tx_apply s cb pov) (concat ls) in
  let p' := pool_all p (concat ls) in
  ∃ ctx A', next_context gd cb blocks pov v' A s p ctx A' s' p' ∧ state_ok score v' A' s' p' ∧
    ∀ sch, ∃ mh', calculate_utxo_state (E := E) self seq_commit_accessor vw q pov sch (new_context gd mh) =
        Ok (set_multiset_hash ctx mh') ∧ commits mh' s'.
Proof.
  intros Hms Hpov Hs Hscore Hv Hv' Hvw Hq Hmh ls s' p'. pose proof (mergeset_fresh _ _ _ _ _ _ _ Hms Hs) as Hmo.
  pose proof (so_supply _ _ _ _ _ Hs) as Hsup. pose proof (eo_store Hok) as Hst.
  destruct (calculate_spec self seq_commit_accessor bp masses Hst s p A (so_history _ _ _ _ _ Hs) pov Hpov (eo_elements Hok) vw q Hvw Hq (E := E)
    gd cb blocks mh Hmo (so_wf _ _ _ _ _ Hs) Hmh) as (df & ctx & Hwd & Hcb & Hrun); [lia|].
  cbn zeta in Hwd. fold ls in Hwd, Hrun. destruct Hwd as [Hw Hgd _ Hrec Hdom Hen Hacc Hval]. fold s' p' in Hw, Hval, Hrun.
  cbn [ctx_ghostdag_data mergeset_acceptance_data mergeset_rewards] in *. specialize (Hen (map_Forall_empty _)).
  rewrite dom_empty_L, (right_id_L ∅ (∪)) in Hdom. rewrite map_sum_empty in Hval.
  pose proof (utxo_value_nonneg self s' (wk_wf _ _ _ _ _ _ _ _ _ Hw)). pose proof (pool_value_nonneg p').
  assert (Hfees : 0 ≤ map_sum total_fees (mergeset_rewards ctx)).
  { apply map_sum_nonneg. intros i x Hi. by destruct (Hen i x Hi) as (? & ? & ? & ? & ? & ? & ?). }
  destruct (ms_first _ _ _ Hms) as (rest & bs & Hbl & _). pose proof (ms_stored _ _ _ Hms) as Hsp. rewrite Hbl in Hsp.
  apply Forall_cons in Hsp as [[Hsp _] _]. cbn [fst snd] in Hsp.
  destruct (block_shape self bp masses Hst _ _ Hsp) as (cb' & rest' & Heq & Hcoin & _ & Hcs). injection Heq as <- <-.
  pose proof (mo_coinbase _ _ _ _ _ Hmo) as Hfresh. pose proof (so_base _ _ _ _ _ Hs) as HA.
  eexists ctx, _. split; [split; [exact Hw|done|exact Hrec|by split|lia]|]. split; [|exact Hrun].
  split; [apply Hw|apply Hw| |lia|pose proof (wk_grows _ _ _ _ _ _ _ _ _ Hw); set_solver|].
  - apply issued_all; [|apply issued_tx; [done|left; set_solver|apply Hs]].
    eapply Forall_impl; [exact Hacc|]. intros x (? & ? & Hn & ?). split_and!; [done|done|set_solver|done].
  - intros tx data Htx Htc Hid Hd. apply elem_of_union in Hid as [Hid|Hid].
    + exfalso. apply elem_of_list_to_set, list_elem_of_fmap in Hid as (tx' & Hid & (x & -> & Hx)%list_elem_of_fmap).
      rewrite Forall_forall in Hacc. destruct (Hacc x Hx) as (Hsx & Hnc & _).
      destruct (same_id_same_issue self bp masses Hst tx (tx_of x) Htx Hsx Hid) as (_ & Hc & _). congruence.
    + apply elem_of_union in Hid as [Hid%elem_of_singleton|Hid]; [|pose proof (so_coinbase _ _ _ _ _ Hs tx data Htx Htc Hid Hd); lia].
      destruct (sw_ids self bp masses Hst tx cb Htx Hcs Hid) as (_ & _ & _ & Hpay). rewrite Hpay in Hd.
      destruct (eo_coinbase Hok _ _ _ _ Hsp Hd) as [-> _]. done.
Qed.

(** *** A valid block has one state, and it is well formed *)
Lemma valid_above b s p : valid_at b s p → on_chain base b.
Proof.
  induction 1 as [|b par s p h gd cb blocks cb' rest non_daa Hc _ (l & Hl & Ht)]; [apply on_chain_refl|].
  exists (l ++ [b]). rewrite links_snoc, tip_snoc, Ht. done.
Qed.
Lemma base_no_parent par : chain_child base par → on_chain base par → False.
Proof.
  intros Hc (l & Hl & Ht). pose proof (cl_tree _ (eo_laws Hok)) as Htree. destruct (eo_base Hok) as [Hk _].
  destruct (child_known known Htree base par Hk Hc) as [Hkp Hlt]. rewrite <- Ht in Hkp.
  destruct (links_known known Htree base l Hkp Hl) as (_ & _ & Hh). rewrite Ht in Hh. lia.
Qed.
Lemma child_above b par : known b → chain_child b par → on_chain base par → known par ∧ b ≠ base ∧ on_chain base b.
Proof.
  intros Hk Hc Ha. split; [by apply (child_known known (cl_tree _ (eo_laws Hok)) b)|]. split; [|].
  - intros ->. by eapply base_no_parent.
  - destruct Ha as (l & Hl & Ht). exists (l ++ [b]). by rewrite links_snoc, tip_snoc, Ht.
Qed.
Lemma valid_unique b s p s' p' : valid_at b s p → valid_at b s' p' → s = s' ∧ p = p'.
Proof.
  intros Hx. revert s' p'. induction Hx as [|b par s p h gd cb blocks cb' rest non_daa Hc Hpar IH Hh Hgd Hms Htx Hnon pov ls s1 p1 Hhc];
    intros s' p' Hy; inversion Hy as [|b2 par2 s2 p2 h2 gd2 cb2 blocks2 cb2' rest2 non2 Hc2 Hpar2 Hh2 Hgd2 Hms2 Htx2 Hnon2 pov2 ls2 s2' p2' Hhc2]; subst.
  - done.
  - destruct (base_no_parent par2 Hc2). by eapply valid_above.
  - destruct (base_no_parent par Hc). by eapply valid_above.
  - assert (par2 = par) as -> by (destruct Hc, Hc2; congruence). destruct (IH _ _ Hpar2) as [<- <-].
    assert (h2 = h) as -> by congruence. assert (gd2 = gd) as -> by congruence.
    by destruct (mergeset_unique _ _ _ _ _ Hms Hms2) as [<- <-].
Qed.
Lemma valid_state b s p : known b → valid_at b s p → ∃ A, state_ok (blue_score_of b) (supply b) A s p.
Proof.
  intros Hk Hv. induction Hv as [|b par s p h gd cb blocks cb' rest non_daa Hc Hpar IH Hh Hgd Hms Htx Hnon pov ls s1 p1 Hhc].
  - exists A0. apply (eo_state Hok).
  - pose proof (valid_above _ _ _ Hpar) as Ha. destruct (child_above b par Hk Hc Ha) as (Hkp & _ & _). destruct (IH Hkp) as (A & Hs).
    destruct (eo_blocks Hok b par Hk Ha Hc) as [(h' & Hh' & _ & Hdaa & _) (gd' & cb1 & blocks1 & Hgd' & Hsp & _ & Hms1 & Hsup & Hmax) Hscore _ _].
    simplify_eq. destruct (mergeset_unique _ _ _ _ _ Hms Hms1) as [<- <-]. destruct (commits_exist (eo_elements Hok) s) as (mh & Hmh).
    destruct (next_state (E := unit) s p gd cb blocks mh pov (supply (selected_parent gd)) (supply b) (blue_score_of b) A s p Hms Hdaa Hs Hscore Hsup)
      as (ctx & A' & _ & Hs' & _); [|apply utxo_shows_map|apply shows_map|done|by exists A'].
    assert (0 ≤ Zsum (subsidy_of <$> mergeset_blues gd ++ mergeset_reds gd)); [|lia].
    apply Zsum_nonneg, Forall_fmap, Forall_forall. intros b' _. apply subsidy_nonneg.
Qed.

(** *** The chain stores, and the diffs from virtual *)
Definition leads (s : UtxoCollection) (p : PoolCollection) (df : UtxoDiff) (pdf : PoolDiff) (s' : UtxoCollection) (p' : PoolCollection) : Prop :=
  (UtxoAlgebra.fits s df ∧ UtxoAlgebra.apply_diff s df = s') ∧ (PoolDiff.fits p pdf ∧ PoolDiff.apply_diff p pdf = p').
Definition settled (c : ChainStores) (b : Hash) : Prop := b = base ∨ is_Some (utxo_diffs_store c !! b).

(** The diffs stored for a block lead from the state of its parent to its own, the multiset
    hash commits to it; a block without diffs has nothing stored but a status; and only
    invalid blocks are disqualified. *)
Record chain_ok (c : ChainStores) : Prop := {
  co_base : statuses_store c !! base = Some StatusUTXOValid ∧ ∃ mh, utxo_multisets_store c !! base = Some mh ∧ commits mh s0;
  co_diffs : ∀ b par df, known b → on_chain base par → chain_child b par → utxo_diffs_store c !! b = Some df →
    settled c par ∧ statuses_store c !! b = Some StatusUTXOValid ∧
    ∃ pdf mh s p s' p', notepool_diffs_store c !! b = Some pdf ∧ utxo_multisets_store c !! b = Some mh ∧ commits mh s' ∧
      valid_at par s p ∧ valid_at b s' p' ∧ leads s p df pdf s' p';
  co_new : ∀ b par, known b → on_chain base par → chain_child b par → utxo_diffs_store c !! b = None →
    notepool_diffs_store c !! b = None ∧ utxo_multisets_store c !! b = None ∧ acceptance_data_store c !! b = None ∧
    is_Some (statuses_store c !! b);
  co_disqualified : ∀ b, known b → on_chain base b → statuses_store c !! b = Some StatusDisqualifiedFromChain → ¬ valid_block b }.

Definition virtual_issued (v : VirtualStores) : Prop := issued self A0 s0 p0 (utxo_set v) (store_map (pool_state v)).
(** The diffs of the walk lead from the sets of virtual to the state of [x]. *)
Definition at_block (v : VirtualStores) (w : WalkState) (x : Hash) : Prop :=
  chain_ok (wk_stores w) ∧ settled (wk_stores w) x ∧
  ∃ s p, valid_at x s p ∧ leads (utxo_set v) (store_map (pool_state v)) (wk_diff w) (wk_pool_diff w) s p.

Lemma leads_reverse s p df pdf s' p' :
  leads s p df pdf s' p' → leads s' p' (UtxoAlgebra.to_reversed df) (PoolDiff.to_reversed pdf) s p.
Proof.
  intros [[Hf <-] [Hpf <-]]. destruct (utxo_reverse_sound s df Hf). destruct (reverse_sound p pdf Hpf). by split.
Qed.
Lemma valid_issued b s p : known b → valid_at b s p → issued self A0 s0 p0 s p.
Proof. intros Hk Hv. destruct (valid_state b s p Hk Hv) as (A & Hs). apply Hs. Qed.
Lemma compose_leads {E D D' : Type} `{UtxoAlgebra.ImmutableUtxoDiff D} `{PoolDiff.ImmutablePoolDiff D'} U P d pd (d2 : D) (pd2 : D') s p s' p' :
  issued self A0 s0 p0 U P → leads U P d pd s p →
  leads s p (UtxoAlgebra.as_diff d2) (PoolDiff.as_diff pd2) s' p' → issued self A0 s0 p0 s' p' →
  ∃ r pr, unwrap_result (E := E) (UtxoAlgebra.with_diff_in_place d d2) = Ok r ∧
    unwrap_result (E := E) (PoolDiff.with_diff_in_place pd pd2) = Ok pr ∧ leads U P r pr s' p'.
Proof.
  intros [HU HP] [[Hf Hs] [Hpf Hp]] [[Hf2 Hs2] [Hpf2 Hp2]] [Hs' Hp']. pose proof (eo_store Hok) as Hst.
  destruct (compose_utxo self bp masses Hst A0 s0 p0 base_history U d d2 s HU Hf Hs Hf2) as (r & -> & Hr & Hrs); [by rewrite Hs2|].
  destruct (compose_pool self bp masses Hst A0 s0 p0 base_history P pd pd2 p HP Hpf Hp Hpf2) as (pr & -> & Hpr & Hprs); [by rewrite Hp2|].
  exists r, pr. split; [done|]. split; [done|]. rewrite <- Hs2, <- Hp2. by split.
Qed.

(** Undoing the diffs of a block. *)
Lemma undo_step {E : Type} v w b par :
  virtual_issued v → known b → on_chain base par → chain_child b par → at_block v w b →
  ∃ w', undo_block (E := E) w b = Ok w' ∧ wk_stores w' = wk_stores w ∧ at_block v w' par.
Proof.
  intros Hv Hk Ha Hc (Hco & Hset & s & p & Hval & Hl). destruct (child_above b par Hk Hc Ha) as (Hkp & Hnb & _).
  destruct Hset as [->|[df Hdf]]; [done|].
  destruct (co_diffs _ Hco b par df Hk Ha Hc Hdf) as (Hsp & _ & pdf & mh & s1 & p1 & s2 & p2 & Hpdf & _ & _ & Hv1 & Hv2 & Hl2).
  destruct (valid_unique _ _ _ _ _ Hval Hv2) as [<- <-]. apply leads_reverse in Hl2.
  unshelve edestruct (compose_leads (E := E) (utxo_set v) (store_map (pool_state v)) (wk_diff w) (wk_pool_diff w) (UtxoAlgebra.as_reversed df)
    (PoolDiff.as_reversed pdf) s p s1 p1 Hv Hl) as (r & pr & Hr & Hpr & Hl'); [exact Hl2|by apply (valid_issued par)|].
  unfold undo_block. rewrite Hdf. cbn [unwrap mbind outcome_bind]. rewrite Hr. cbn [mbind outcome_bind]. rewrite Hpdf.
  cbn [unwrap mbind outcome_bind]. rewrite Hpr. cbn [mbind outcome_bind]. eexists. split; [done|]. split; [done|].
  split; [done|]. split; [done|]. by exists s1, p1.
Qed.
Lemma walk_down_spec {E : Type} v w split r to fuel :
  virtual_issued v → known (tip split r) → links split r → on_chain base split → split ≠ ORIGIN → (length r < fuel)%nat →
  chain_ancestor_of split to = true → Forall (λ x, chain_ancestor_of x to = false) r → at_block v w (tip split r) →
  ∃ w', walk_down (E := E) fuel to (Some (tip split r)) w = Ok (split, w') ∧ wk_stores w' = wk_stores w ∧ at_block v w' split.
Proof.
  intros Hv Hk Hl Ha Ho Hf Hs Hr Hw. pose proof (cl_tree _ (eo_laws Hok)) as Htree.
  revert w fuel Hf Hw. induction r as [|c r IH] using rev_ind; intros w fuel Hf Hw.
  - destruct fuel as [|fuel]; [cbn in Hf; lia|]. change (tip split []) with split in *. cbn [walk_down backward_next].
    rewrite bool_decide_false by done. destruct (Htree split Hk Ho) as (p & -> & _).
    cbn [unwrap mbind outcome_bind]. rewrite Hs. by exists w.
  - rewrite length_app in Hf. cbn [length] in Hf. destruct fuel as [|fuel]; [lia|]. apply Forall_app in Hr as [Hr Hc].
    apply Forall_cons in Hc as [Hc _]. rewrite tip_snoc in *. apply links_snoc in Hl as [Hl Hch].
    assert (Har : on_chain base (tip split r)) by (eapply on_chain_trans; [exact Ha|by exists r]).
    destruct (undo_step (E := E) v w c (tip split r) Hv Hk Har Hch Hw) as (w1 & Hu & Hst1 & Hw1).
    cbn [walk_down backward_next]. rewrite bool_decide_false by apply Hch. rewrite (proj2 Hch). cbn [unwrap mbind outcome_bind].
    rewrite Hc, Hu. cbn [mbind outcome_bind].
    destruct (IH (proj1 (child_known known Htree c _ Hk Hch)) Hl Hr w1 fuel) as (w' & Hw' & Hst' & Hab); [lia|done|].
    exists w'. by rewrite Hst', Hst1 in *.
Qed.

(** *** Verifying the next block *)
Lemma settled_multiset c x s p : chain_ok c → known x → settled c x → valid_at x s p →
  ∃ mh, utxo_multisets_store c !! x = Some mh ∧ commits mh s.
Proof.
  intros Hco Hk Hset Hv. inversion Hv as [|b par s1 p1 h gd cb blocks cb' rest non_daa Hc Hpar]; subst.
  - apply (co_base _ Hco).
  - pose proof (valid_above _ _ _ Hpar) as Ha. destruct (child_above x par Hk Hc Ha) as (_ & Hnb & _).
    destruct Hset as [->|[df Hdf]]; [done|].
    destruct (co_diffs _ Hco x par df Hk Ha Hc Hdf) as (_ & _ & pdf & mh & s2 & p2 & s3 & p3 & _ & Hmh & Hcm & _ & Hv3 & _).
    destruct (valid_unique _ _ _ _ _ Hv Hv3) as [<- _]. by exists mh.
Qed.
Lemma header_correct_ext s p ctx ctx' h cb rest non_daa :
  ctx_ghostdag_data ctx = ctx_ghostdag_data ctx' → mergeset_acceptance_data ctx = mergeset_acceptance_data ctx' →
  mergeset_rewards ctx = mergeset_rewards ctx' →
  header_correct self seq_commit_accessor recompute_seq_commit expected_header_pruning_point s p ctx h cb rest non_daa →
  header_correct self seq_commit_accessor recompute_seq_commit expected_header_pruning_point s p ctx' h cb rest non_daa.
Proof. intros Hgd Hacc Hrw [? ? ? ? ? ? ?]. rewrite Hgd, ?Hacc, ?Hrw in *. by split. Qed.

Lemma valid_child b par s p h gd cb blocks cb' rest non_daa :
  chain_child b par → valid_at par s p → valid_block b →
  block_headers env !! b = Some h → vp_ghostdag_store self !! b = Some gd → mergeset_stored gd cb blocks →
  block_transactions_store self !! b = Some (cb' :: rest) → daa_excluded_store self !! b = Some non_daa →
  let pov := header_daa_score h in
  let ls := merge_blocks self seq_commit_accessor pov (selected_parent gd) 0 (tx_apply s cb pov) p blocks in
  header_correct self seq_commit_accessor recompute_seq_commit expected_header_pruning_point
    (apply_all pov (tx_apply s cb pov) (concat ls)) (pool_all p (concat ls)) (reference_context gd cb blocks ls) h cb' rest non_daa.
Proof.
  intros Hc Hval (s2 & p2 & Hv2) Hh Hgd Hms Htx Hnon pov ls. pose proof (valid_above _ _ _ Hval) as Ha.
  destruct Hv2 as [|b par2 s3 p3 h2 gd2 cb2 blocks2 cb2' rest2 non2 Hc2 Hpar2 Hh2 Hgd2 Hms2 Htx2 Hnon2 pov2 ls2 s2' p2' Hhc2].
  { by destruct (base_no_parent _ Hc Ha). }
  assert (par2 = par) as -> by (destruct Hc, Hc2; congruence). destruct (valid_unique _ _ _ _ _ Hval Hpar2) as [<- <-].
  simplify_eq. by destruct (mergeset_unique _ _ _ _ _ Hms Hms2) as [<- <-].
Qed.

(** What verification returns for the child [b] of a settled block. *)
Definition verified (b : Hash) (s : UtxoCollection) (p : PoolCollection) (res : outcome (RuleError TxScriptError) UtxoProcessingContext) : Prop :=
  (∃ ctx s' p' sample, res = Ok ctx ∧ valid_at b s' p' ∧ leads s p (mergeset_diff ctx) (mergeset_pool_diff ctx) s' p' ∧
     commits (multiset_hash ctx) s' ∧ denominator (multiset_hash ctx) = one ∧ pruning_sample_from_pov ctx = Some sample) ∨
  (∃ e, res = Err e ∧ ¬ valid_block b).

Lemma expected_coinbase_total gd h rewards non_daa b cb rest data v :
  vp_ghostdag_store self !! b = Some gd → in_u64 (gd_blue_score gd) →
  block_transactions_store self !! b = Some (cb :: rest) → deserialize_coinbase_payload (coinbase_manager self) (payload cb) = Ok data →
  (∃ s, calc_block_subsidy (E := CoinbaseError) (coinbase_manager self) (header_daa_score h) = Ok s ∧ in_u64 s) →
  map_Forall (reward_entry self) rewards → (∀ b, b ∈ mergeset_blues gd ++ mergeset_reds gd → b ∈ dom rewards) → NoDup (mergeset_reds gd) →
  map_sum total_fees rewards ≤ v → v + Zsum (subsidy_of <$> mergeset_blues gd ++ mergeset_reds gd) ≤ u64_max →
  ∃ expected, expected_coinbase_transaction (coinbase_manager self) (header_daa_score h) (cb_miner data) gd rewards non_daa = Ok expected.
Proof.
  intros Hgd Hbs Htx Hd (sub & Hsub & Hsubo) Hr Hdom Hnd Hf Hmax.
  destruct (rewards_payable gd rewards non_daa Hr Hdom Hnd) as [Hun Hpay]; [lia|].
  destruct (eo_coinbase Hok b cb rest data Htx Hd) as [_ Hbytes]. destruct (serialize_deserialize _ _ _ Hbytes Hd) as [_ (_ & _ & Hpo)].
  destruct (expected_coinbase_built rewards non_daa Hun (coinbase_manager self) (header_daa_score h) (cb_miner data) gd sub
    (eo_manager Hok) Hsub) as [[Hn _]|(_ & pay & _ & Hexp)]; [by split; [|split]|done|]. by eexists.
Qed.

Lemma verify_step {E : Type} v w par b s p :
  known b → on_chain base par → chain_child b par → chain_ok (wk_stores w) → settled (wk_stores w) par → valid_at par s p →
  leads (utxo_set v) (store_map (pool_state v)) (wk_diff w) (wk_pool_diff w) s p →
  ∃ res, verify_block (E := E) self env seq_commit_accessor recompute_seq_commit expected_header_pruning_point schedules v w par b = Ok res ∧
    verified b s p res.
Proof.
  intros Hk Ha Hc Hco Hset Hval Hl. destruct (child_above b par Hk Hc Ha) as (Hkp & _ & _).
  destruct (settled_multiset _ _ _ _ Hco Hkp Hset Hval) as (mh & Hmh & Hcm). destruct (valid_state par s p Hkp Hval) as (A & Hs).
  destruct (eo_blocks Hok b par Hk Ha Hc) as [(h & Hh & Hhh & Hdaa & Hfirst & Hsub) (gd & cb & blocks & Hgd & Hsp & Hbs & Hms & Hsup & Hmax) Hscore
    (cb' & rest & Htx) (non_daa & Hnon)].
  destruct Hl as [[Hf Hfs] [Hpf Hps]].
  set (vw := UtxoAlgebra.compose (utxo_set v) (wk_diff w)). set (q := PoolDiff.compose (pool_state v) (wk_pool_diff w)).
  assert (Hvw : UtxoAlgebra.shows vw s) by (rewrite <- Hfs, <- (as_utxo_diff_id (wk_diff w)) at 1; apply utxo_shows_compose, utxo_shows_map).
  assert (Hq : PoolDiff.shows q p) by (rewrite <- Hps, <- (as_diff_id (wk_pool_diff w)) at 1; apply shows_compose, shows_store).
  assert (Hsn : 0 ≤ Zsum (subsidy_of <$> mergeset_blues gd ++ mergeset_reds gd)).
  { apply Zsum_nonneg, Forall_fmap, Forall_forall. intros b' _. apply subsidy_nonneg. }
  rewrite <- Hsp in Hs, Hscore, Hsup.
  destruct (next_state (E := E) vw q gd cb blocks mh (header_daa_score h) _ (supply b) (blue_score_of b) A s p Hms Hdaa Hs Hscore Hsup)
    as (ctx & A' & [Hw Hcd Hrec [Hren Hrdom] Hfees] & Hs' & Hrun); [lia|done|done|done|].
  destruct (Hrun (schedules gd)) as (mh' & Hcalc & Hcm'). unfold verify_block. rewrite Hh, Hgd, Hmh. cbn [unwrap mbind outcome_bind].
  fold vw q. rewrite Hcalc. cbn [mbind outcome_bind].
  set (ls := merge_blocks _ _ _ _ _ _ _ _) in *. set (s' := apply_all _ _ _) in *. set (p' := pool_all _ _) in *.
  rewrite <- Hhh in Htx, Hnon. destruct (eo_inverse Hok _ (cm_removed _ _ Hcm')) as (i & Hi).
  pose proof (issued_serials _ _ (so_issued _ _ _ _ _ Hs')) as Hser.
  destruct (verify_spec self seq_commit_accessor bp masses (eo_store Hok) s p A recompute_seq_commit expected_header_pruning_point vw q Hvw Hq A' s' p'
    (set_multiset_hash ctx mh') (store_map (pool_state v)) (wk_pool_diff w) h cb' rest non_daa i Hw Hcm' Hi Hps Hser Hdaa Htx Hnon) as [Hiff Hout].
  destruct (sw_payload self bp masses (eo_store Hok) _ _ _ Htx) as (data & Hd).
  destruct (expected_coinbase_total gd h (mergeset_rewards ctx) non_daa b cb' rest data (supply b) Hgd Hbs) as (expd & Hexp);
    [by rewrite <- Hhh|done|done|done| |by apply (ms_reds _ _ _ Hms)|done|done|].
  { intros b' Hb'. rewrite Hrdom, elem_of_list_to_set. by apply (ms_covers _ _ _ Hms). }
  assert (Hnp : not_panic (verify_expected_utxo_state self seq_commit_accessor recompute_seq_commit expected_header_pruning_point
    (set_multiset_hash ctx mh') vw q (store_map (pool_state v)) (wk_pool_diff w) h)).
  { eapply (verify_total self seq_commit_accessor bp masses (eo_store Hok) s p A recompute_seq_commit expected_header_pruning_point vw q Hvw Hq A' s' p');
      [exact Hw|exact Hcm'|exact Hi|done|done|done|done|exact Hnon|apply (eo_lanes Hok)|exact Hd| |done].
    cbn [set_multiset_hash ctx_ghostdag_data mergeset_rewards]. rewrite Hcd. exact Hexp. }
  assert (Hext : ∀ ctx1 ctx2, (ctx1 = set_multiset_hash ctx mh' ∧ ctx2 = reference_context gd cb blocks ls) ∨
      (ctx2 = set_multiset_hash ctx mh' ∧ ctx1 = reference_context gd cb blocks ls) →
    header_correct self seq_commit_accessor recompute_seq_commit expected_header_pruning_point s' p' ctx1 h cb' rest non_daa →
    header_correct self seq_commit_accessor recompute_seq_commit expected_header_pruning_point s' p' ctx2 h cb' rest non_daa).
  { intros ctx1 ctx2 [[-> ->]|[-> ->]]; apply header_correct_ext; unfold reference_context; rewrite <- Hrec; cbn; done. }
  rewrite Hhh in Htx, Hnon.
  destruct (verify_expected_utxo_state _ _ _ _ _ _ _ _ _ _) as [ctx'|e|] eqn:Hver; [| |done].
  - eexists. split; [done|]. left. destruct (Hout ctx' eq_refl) as (Hd1 & Hd2 & Hc1 & Hc2 & Hp1).
    exists ctx', s', p', (expected_header_pruning_point gd).2. split; [done|]. split; [|split; [|split; [done|split; [done|by rewrite Hp1; cbn; rewrite Hcd]]]].
    + eapply valid_next; [exact Hc|exact Hval|exact Hh|exact Hgd|exact Hms|exact Htx|exact Hnon|].
      eapply Hext; [by left|]. apply Hiff. by exists ctx'.
    + rewrite Hd1, Hd2. cbn. destruct Hw as [? ? ? ? _ _ _]. by split.
  - eexists. split; [done|]. right. exists e. split; [done|]. intros Hvb.
    destruct (proj2 Hiff) as (ctx' & Hx); [|done]. eapply Hext; [by right|]. by eapply valid_child.
Qed.

(** *** The walk up *)
Lemma valid_parent b par : chain_child b par → on_chain base par → valid_block b → valid_block par.
Proof.
  intros Hc Ha (s & p & Hv). destruct Hv as [|b par2 s2 p2 h gd cb blocks cb' rest non_daa Hc2 Hpar].
  - by destruct (base_no_parent _ Hc Ha).
  - assert (par2 = par) as -> by (destruct Hc, Hc2; congruence). by exists s2, p2.
Qed.
(** What later walks keep: a verified block stays verified, a disqualified one disqualified. *)
Definition grows (c c' : ChainStores) : Prop :=
  (∀ x, settled c x → settled c' x) ∧
  ∀ x, statuses_store c !! x = Some StatusDisqualifiedFromChain → statuses_store c' !! x = Some StatusDisqualifiedFromChain.
#[local] Instance grows_preorder : PreOrder grows.
Proof. split; [done|]. intros c1 c2 c3 [H12 H12'] [H23 H23']. split; auto. Qed.
Lemma set_status_grows c b : grows c (set_status c b StatusDisqualifiedFromChain).
Proof.
  split; [done|]. intros x Hx. cbn [set_status statuses_store].
  destruct (decide (b = x)) as [->|Hne]; [by rewrite lookup_insert_eq|by rewrite lookup_insert_ne].
Qed.
Lemma disqualified_new c b par : chain_ok c → known b → on_chain base par → chain_child b par → ¬ valid_block b → utxo_diffs_store c !! b = None.
Proof.
  intros Hco Hk Ha Hc Hn. destruct (utxo_diffs_store c !! b) as [df|] eqn:Hdf; [exfalso|done].
  destruct (co_diffs _ Hco b par df Hk Ha Hc Hdf) as (_ & _ & pdf & mh & s & p & s' & p' & _ & _ & _ & _ & Hv & _). apply Hn. by exists s', p'.
Qed.
Lemma disqualify_ok c b par : chain_ok c → known b → on_chain base par → chain_child b par → ¬ valid_block b →
  chain_ok (set_status c b StatusDisqualifiedFromChain).
Proof.
  intros Hco Hk Ha Hc Hn. pose proof (disqualified_new c b par Hco Hk Ha Hc Hn) as Hnone. destruct (child_above b par Hk Hc Ha) as (_ & Hnb & _).
  split; cbn [set_status statuses_store utxo_diffs_store notepool_diffs_store utxo_multisets_store acceptance_data_store].
  - rewrite lookup_insert_ne by done. apply (co_base _ Hco).
  - intros b' par' df Hk' Ha' Hc' Hdf. rewrite lookup_insert_ne by (intros ->; congruence). by apply (co_diffs _ Hco).
  - intros b' par' Hk' Ha' Hc' Hdf. destruct (co_new _ Hco b' par' Hk' Ha' Hc' Hdf) as (? & ? & ? & Hs). split_and!; [done..|].
    destruct (decide (b = b')) as [->|Hne]; [rewrite lookup_insert_eq; by eexists|by rewrite lookup_insert_ne].
  - intros b' Hk' Ha' Hs. destruct (decide (b = b')) as [->|Hne]; [done|]. rewrite lookup_insert_ne in Hs by done. by apply (co_disqualified _ Hco).
Qed.
Lemma commit_ok {E : Type} c b par df pdf mh acc sample s p s' p' :
  chain_ok c → known b → on_chain base par → chain_child b par → settled c par → utxo_diffs_store c !! b = None →
  valid_at par s p → valid_at b s' p' → leads s p df pdf s' p' → commits mh s' → denominator mh = one →
  ∃ c', commit_utxo_state (E := E) c b df pdf mh acc sample = Ok c' ∧ chain_ok c' ∧ settled c' b ∧ grows c c'.
Proof.
  intros Hco Hk Ha Hc Hset Hnone Hv Hv' Hl Hmh Hone. destruct (child_above b par Hk Hc Ha) as (_ & Hnb & Hab).
  destruct (co_new _ Hco b par Hk Ha Hc Hnone) as (Hpd & Hms & Hac & _).
  assert (Hgrow : ∀ x, settled c x → x = base ∨ is_Some (<[b := df]> (utxo_diffs_store c) !! x)).
  { intros x [->|Hx]; [by left|right]. destruct (decide (b = x)) as [->|Hne]; [rewrite lookup_insert_eq; by eexists|by rewrite lookup_insert_ne]. }
  eexists. unfold commit_utxo_state, insert_new_key. rewrite Hnone, Hpd, Hms, Hac. cbn [mbind outcome_bind].
  rewrite bool_decide_true by done. cbn [mbind outcome_bind]. split; [done|].
  assert (Hkeep : ∀ x, statuses_store c !! x = Some StatusDisqualifiedFromChain →
    <[b := StatusUTXOValid]> (statuses_store c) !! x = Some StatusDisqualifiedFromChain).
  { intros x Hx. destruct (decide (b = x)) as [->|Hne]; [|by rewrite lookup_insert_ne].
    destruct (co_disqualified _ Hco x Hk Hab Hx). by exists s', p'. }
  split; [|split; [right; cbn; rewrite lookup_insert_eq; by eexists|by split]].
  split; cbn [statuses_store utxo_diffs_store notepool_diffs_store utxo_multisets_store acceptance_data_store].
  - rewrite !lookup_insert_ne by done. apply (co_base _ Hco).
  - intros b' par' df' Hk' Ha' Hc' Hdf. destruct (decide (b = b')) as [->|Hne].
    + assert (par' = par) as -> by (destruct Hc, Hc'; congruence). rewrite !lookup_insert_eq in *. injection Hdf as <-.
      split; [by apply Hgrow|]. split; [done|]. by exists pdf, mh, s, p, s', p'.
    + rewrite !lookup_insert_ne in * by done. destruct (co_diffs _ Hco b' par' df' Hk' Ha' Hc' Hdf) as (Hsp & Hst & Hrest).
      split; [by apply Hgrow|]. done.
  - intros b' par' Hk' Ha' Hc' Hdf. destruct (decide (b = b')) as [->|Hne]; [by rewrite lookup_insert_eq in Hdf|].
    rewrite !lookup_insert_ne in * by done. by apply (co_new _ Hco b' par').
  - intros b' Hk' Ha' Hs. destruct (decide (b = b')) as [->|Hne]; [by rewrite lookup_insert_eq in Hs|].
    rewrite lookup_insert_ne in Hs by done. by apply (co_disqualified _ Hco).
Qed.

Abbreviation up_step E := (walk_up_step (E := E) self env seq_commit_accessor recompute_seq_commit expected_header_pruning_point schedules).
Lemma windows_cons a c l : tuple_windows (a :: c :: l) = (a, c) :: tuple_windows (c :: l).
Proof. done. Qed.

Lemma up_step_off {E : Type} v x w a b st : a ≠ x → statuses_store (wk_stores w) !! b = Some st →
  up_step E v (x, w) (a, b) = Ok (x, if bool_decide (st = StatusDisqualifiedFromChain) then w else
    mk_walk (set_status (wk_stores w) b StatusDisqualifiedFromChain) (wk_diff w) (wk_pool_diff w)).
Proof. intros Hne Hst. unfold walk_up_step. rewrite bool_decide_false by done. cbn [negb]. by rewrite Hst. Qed.

(** Above a disqualified block everything is disqualified. *)
Lemma walk_up_off {E : Type} v l a w x :
  known (tip a l) → links a l → on_chain base a → (get_height x < get_height a)%nat →
  chain_ok (wk_stores w) → statuses_store (wk_stores w) !! a = Some StatusDisqualifiedFromChain →
  ∃ c, try_fold (up_step E v) (x, w) (tuple_windows (a :: l)) = Ok (x, mk_walk c (wk_diff w) (wk_pool_diff w)) ∧ chain_ok c ∧
    grows (wk_stores w) c ∧ statuses_store c !! tip a l = Some StatusDisqualifiedFromChain.
Proof.
  revert a w. induction l as [|b l IH]; intros a w Hk Hl Ha Hx Hco Hs.
  { exists (wk_stores w). destruct w. by split_and!. }
  pose proof (cl_tree _ (eo_laws Hok)) as Htree. destruct Hl as [Hc Hl]. rewrite tip_cons in *.
  destruct (links_known known Htree b l Hk Hl) as (Hkb & _ & _). destruct (child_above b a Hkb Hc Ha) as (Hka & Hnb & Hab).
  destruct (child_known known Htree b a Hkb Hc) as [_ Hlt].
  assert (Hn : ¬ valid_block b).
  { intros Hvb. apply (co_disqualified _ Hco a Hka Ha Hs). by apply (valid_parent b). }
  pose proof (disqualified_new _ _ _ Hco Hkb Ha Hc Hn) as Hnone. destruct (co_new _ Hco b a Hkb Ha Hc Hnone) as (_ & _ & _ & [st Hst]).
  rewrite windows_cons. cbn [try_fold]. rewrite (up_step_off v x w a b st) by (done || intros ->; lia). cbn [mbind outcome_bind]. case_bool_decide as Hd.
  - subst st. destruct (IH b w Hk Hl Hab ltac:(lia) Hco Hst) as (c & Hf & ? & ? & ?). exists c. by split_and!.
  - destruct (IH b (mk_walk (set_status (wk_stores w) b StatusDisqualifiedFromChain) (wk_diff w) (wk_pool_diff w)) Hk Hl Hab ltac:(lia))
      as (c & Hf & ? & ? & ?); [by apply (disqualify_ok _ b a)|cbn; by rewrite lookup_insert_eq|]. exists c. split_and!; [done..| |done].
    etrans; [apply set_status_grows|done].
Qed.

Lemma at_block_status v c c' df pdf x : at_block v (mk_walk c df pdf) x → chain_ok c' → grows c c' →
  at_block v (mk_walk c' df pdf) x.
Proof. intros (_ & Hset & Hrest) Hco [Hgrow _]. split; [done|]. split; [by apply Hgrow|done]. Qed.
Lemma up_step_on {E : Type} v w a b : virtual_issued v → known b → on_chain base a → chain_child b a → at_block v w a →
  ∃ w', grows (wk_stores w) (wk_stores w') ∧ ((up_step E v (a, w) (a, b) = Ok (b, w') ∧ at_block v w' b) ∨
    (up_step E v (a, w) (a, b) = Ok (a, w') ∧ at_block v w' a ∧ statuses_store (wk_stores w') !! b = Some StatusDisqualifiedFromChain)).
Proof.
  intros Hv Hk Ha Hc Hw. pose proof Hw as (Hco & Hset & s & p & Hval & Hl). destruct w as [c d pd]. cbn [wk_stores wk_diff wk_pool_diff] in *.
  unfold walk_up_step. rewrite bool_decide_true by done. cbn [negb wk_stores wk_diff wk_pool_diff].
  destruct (utxo_diffs_store c !! b) as [df|] eqn:Hdf.
  - destruct (co_diffs _ Hco b a df Hk Ha Hc Hdf) as (_ & _ & pdf & mh & s1 & p1 & s' & p' & Hpdf & _ & _ & Hv1 & Hv2 & Hl2).
    destruct (valid_unique _ _ _ _ _ Hval Hv1) as [<- <-].
    edestruct (compose_leads (E := E) (utxo_set v) (store_map (pool_state v)) d pd df pdf s p s' p' Hv Hl) as (r & pr & Hr & Hpr & Hl');
      [by rewrite as_utxo_diff_id, as_diff_id|by apply (valid_issued b)|].
    rewrite Hr. cbn [mbind outcome_bind]. rewrite Hpdf. cbn [unwrap mbind outcome_bind]. rewrite Hpr. cbn [mbind outcome_bind].
    eexists (mk_walk c r pr). split; [done|]. left. split; [done|]. split; [done|]. split; [right; by exists df|]. by exists s', p'.
  - destruct (co_new _ Hco b a Hk Ha Hc Hdf) as (_ & _ & _ & [st Hst]). rewrite Hst. cbn [unwrap mbind outcome_bind].
    case_bool_decide as Hd; [subst st; exists (mk_walk c d pd); split; [done|by right]|].
    destruct (verify_step (E := E) v (mk_walk c d pd) a b s p Hk Ha Hc Hco Hset Hval Hl) as (res & Hres & Hver). rewrite Hres. cbn [mbind outcome_bind].
    destruct Hver as [(ctx & s' & p' & sample & -> & Hv2 & Hl2 & Hcm & Hone & Hsample)|(e & -> & Hn)].
    + edestruct (compose_leads (E := E) (utxo_set v) (store_map (pool_state v)) d pd (mergeset_diff ctx) (mergeset_pool_diff ctx) s p s' p' Hv Hl)
        as (r & pr & Hr & Hpr & Hl'); [by rewrite as_utxo_diff_id, as_diff_id|by apply (valid_issued b)|].
      rewrite Hr. cbn [mbind outcome_bind]. rewrite Hpr. cbn [mbind outcome_bind]. rewrite Hsample. cbn [unwrap mbind outcome_bind].
      destruct (commit_ok (E := E) c b a _ _ _ (mergeset_acceptance_data ctx) sample s p s' p' Hco Hk Ha Hc Hset Hdf Hval Hv2 Hl2 Hcm Hone)
        as (c' & Hcommit & Hco' & Hset' & Hgrow). rewrite Hcommit. cbn [mbind outcome_bind].
      exists (mk_walk c' r pr). split; [done|]. left. split; [done|]. split; [done|]. split; [done|]. by exists s', p'.
    + exists (mk_walk (set_status c b StatusDisqualifiedFromChain) d pd). split; [apply set_status_grows|]. right.
      split; [done|]. split; [|cbn; by rewrite lookup_insert_eq].
      eapply at_block_status; [exact Hw|by apply (disqualify_ok _ b a)|apply set_status_grows].
Qed.

(** The walk from [x] towards [to] ends at [to] exactly when [to] is valid; otherwise [to] is
    disqualified. *)
Definition lands (v : VirtualStores) (to x : Hash) (w : WalkState) : Prop :=
  at_block v w x ∧ on_chain x to ∧
  (x = to ∨ ¬ valid_block to ∧ statuses_store (wk_stores w) !! to = Some StatusDisqualifiedFromChain).

Lemma walk_up_spec {E : Type} v l a w : virtual_issued v → known (tip a l) → links a l → on_chain base a → at_block v w a →
  ∃ x w', try_fold (up_step E v) (a, w) (tuple_windows (a :: l)) = Ok (x, w') ∧ grows (wk_stores w) (wk_stores w') ∧ lands v (tip a l) x w'.
Proof.
  intros Hv. revert a w. induction l as [|b l IH]; intros a w Hk Hl Ha Hw.
  { exists a, w. split; [done|]. split; [done|]. split; [done|]. split; [apply on_chain_refl|by left]. }
  pose proof (cl_tree _ (eo_laws Hok)) as Htree. destruct Hl as [Hc Hl]. rewrite tip_cons in *.
  destruct (links_known known Htree b l Hk Hl) as (Hkb & _ & _). destruct (child_above b a Hkb Hc Ha) as (Hka & _ & Hab).
  destruct (child_known known Htree b a Hkb Hc) as [_ Hlt]. assert (Hchain : on_chain a (tip b l)).
  { exists (b :: l). by rewrite tip_cons. }
  rewrite windows_cons. cbn [try_fold]. destruct (up_step_on (E := E) v w a b Hv Hkb Ha Hc Hw) as (w1 & Hg1 & [[Hs Hw1]|(Hs & Hw1 & Hst)]);
    rewrite Hs; cbn [mbind outcome_bind].
  - destruct (IH b w1 Hk Hl Hab Hw1) as (x & w' & Hf & Hg & Hx). exists x, w'. split; [done|]. split; [by etrans|done].
  - destruct w1 as [c1 d1 pd1]. destruct (walk_up_off (E := E) v l b (mk_walk c1 d1 pd1) a Hk Hl Hab Hlt (proj1 Hw1) Hst) as (c & Hf & Hco & Hg & Hstt).
    exists a, (mk_walk c d1 pd1). split; [done|]. split; [by etrans|]. split; [|split; [done|right]].
    + by eapply at_block_status.
    + split; [|done]. apply (co_disqualified _ Hco); [done| |done]. eapply on_chain_trans; [exact Ha|done].
Qed.

Lemma reorg_spec {E : Type} v w from to : virtual_issued v → known from → known to → on_chain base to → at_block v w from →
  ∃ x w', calculate_utxo_state_relatively (E := E) self env seq_commit_accessor recompute_seq_commit expected_header_pruning_point schedules v w from to =
      Ok (x, w') ∧ grows (wk_stores w) (wk_stores w') ∧ at_block v w' x ∧ known x ∧
    ((x = to ∧ valid_block to) ∨ (x ≠ to ∧ ¬ valid_block to ∧ statuses_store (wk_stores w') !! to = Some StatusDisqualifiedFromChain)).
Proof.
  intros Hv Hkf Hkt (l2 & Hl2 & <-) Hw. pose proof (eo_laws Hok) as Hlaws. pose proof (cl_tree _ Hlaws) as Htree.
  assert (Hdone : ∀ x w', known x → at_block v w' x → (x = tip base l2 ∨ ¬ valid_block (tip base l2) ∧
      statuses_store (wk_stores w') !! tip base l2 = Some StatusDisqualifiedFromChain) →
    at_block v w' x ∧ known x ∧ ((x = tip base l2 ∧ valid_block (tip base l2)) ∨
      (x ≠ tip base l2 ∧ ¬ valid_block (tip base l2) ∧ statuses_store (wk_stores w') !! tip base l2 = Some StatusDisqualifiedFromChain))).
  { intros x w' Hkx Hwx Hx. split; [done|]. split; [done|]. destruct Hwx as (_ & _ & s & p & Hvx & _). destruct Hx as [->|[Hn Hs]].
    - left. split; [done|]. by exists s, p.
    - right. split; [|done]. intros ->. apply Hn. by exists s, p. }
  assert (Hstat : is_Some (statuses_store (wk_stores w) !! tip base l2)).
  { pose proof Hw as [Hco _]. destruct l2 as [|b l2 _] using rev_ind; [exists StatusUTXOValid; apply (co_base _ Hco)|]. rewrite tip_snoc in *.
    apply links_snoc in Hl2 as [Hl2 Hc]. destruct (utxo_diffs_store (wk_stores w) !! b) as [df|] eqn:Hdf.
    - destruct (co_diffs _ Hco b _ df Hkt ltac:(by exists l2) Hc Hdf) as (_ & -> & _). by eexists.
    - by destruct (co_new _ Hco b _ Hkt ltac:(by exists l2) Hc Hdf) as (_ & _ & _ & ?). }
  destruct Hstat as [st Hst]. unfold calculate_utxo_state_relatively. rewrite Hst. cbn [unwrap mbind outcome_bind]. case_bool_decide as Hd.
  { subst st. exists from, w. split; [done|]. split; [done|]. apply Hdone; [done|done|right]. split; [|done].
    pose proof Hw as [Hco _]. apply (co_disqualified _ Hco); [done|by exists l2|done]. }
  pose proof Hw as (_ & _ & s & p & Hvf & _). destruct (valid_above _ _ _ Hvf) as (l1 & Hl1 & <-).
  destruct (chains_part known Hlaws base l1 l2 Hkf Hkt Hl1 Hl2) as (l & r1 & r2 & -> & -> & Hs & Hr).
  destruct (links_known known Htree _ _ Hkf Hl1) as (_ & Hall & Hh). rewrite length_app in Hh.
  pose proof Hl1 as [Hl Hlr1]%links_app. pose proof Hl2 as [_ Hlr2]%links_app. rewrite tip_app in Hkf, Hw, Hkt.
  assert (Hso : tip base l ≠ ORIGIN).
  { destruct l as [|c l _] using rev_ind; [apply (eo_base Hok)|]. rewrite tip_snoc. apply Forall_app in Hall as [[_ Hc]%Forall_app _].
    by apply Forall_cons in Hc as [[_ ?] _]. }
  destruct (walk_down_spec (E := E) v w (tip base l) r1 (tip base (l ++ r2)) (S (get_height (tip base (l ++ r1)))) Hv Hkf Hlr1)
    as (w1 & Hdown & Hsame & Hw1); [by exists l|done|lia|done|done|done|].
  rewrite <- (tip_app base l r1) in Hdown. rewrite Hdown. cbn [mbind outcome_bind fst]. rewrite !(tip_app base l r2) in *.
  rewrite (forward_chain_iterator_spec known Hlaws) by done. cbn [mbind outcome_bind].
  destruct (walk_up_spec (E := E) v r2 (tip base l) w1 Hv Hkt Hlr2 ltac:(by exists l) Hw1) as (x & w' & Hup & Hg & Hwx & Hx & Hend).
  rewrite Hsame in Hg. exists x, w'. split; [exact Hup|]. split; [done|]. apply Hdone; [|done|done]. by eapply (on_chain_known known Htree).
Qed.

(** What the stores say of a block after a walk to it. *)
Definition judged (c : ChainStores) (b : Hash) : Prop :=
  (valid_block b ∧ settled c b ∧ statuses_store c !! b = Some StatusUTXOValid) ∨
  (¬ valid_block b ∧ ¬ settled c b ∧ statuses_store c !! b = Some StatusDisqualifiedFromChain).
Lemma settled_status c b : chain_ok c → known b → on_chain base b → settled c b → statuses_store c !! b = Some StatusUTXOValid.
Proof.
  intros Hco Hk (l & Hl & <-) [Hb|[df Hdf]]; [rewrite Hb; apply (co_base _ Hco)|].
  destruct l as [|c' l _] using rev_ind; [apply (co_base _ Hco)|]. rewrite tip_snoc in *. apply links_snoc in Hl as [Hl Hc].
  by destruct (co_diffs _ Hco c' _ df Hk ltac:(by exists l) Hc Hdf) as (_ & Hst & _).
Qed.
Lemma reorg_judged c c' x to : chain_ok c' → known to → on_chain base to → grows c c' → settled c x →
  (x = to ∧ valid_block to) ∨ (x ≠ to ∧ ¬ valid_block to ∧ statuses_store c !! to = Some StatusDisqualifiedFromChain) → judged c' to.
Proof.
  intros Hco Hk Ha [Hset Hdis] Hx [[-> Hv]|(_ & Hn & Hs)].
  - left. split; [done|]. split; [by apply Hset|]. apply settled_status; auto.
  - right. split; [done|]. specialize (Hdis _ Hs). split; [|done]. intros Hst. by rewrite (settled_status c' to) in Hdis.
Qed.

(** (C1) Reorganisations land where validity says: from the state of any valid block, whatever
    sequence of targets [calculate_utxo_state_relatively] is asked to walk to, every walk
    returns, the stores stay consistent, and the two diffs then lead from the sets of
    virtual to the UTXO set and the pool of the block reached; the last target is reached
    exactly when it is valid by the reference semantics, which knows neither the stores nor
    the walks made before; and every target walked to, not only the last, is left in the
    stores as verified, with its diffs and [StatusUTXOValid], when it is valid, and without
    diffs as [StatusDisqualifiedFromChain] when it is not. *)
Theorem reorgs_land {E : Type} v w from tos :
  virtual_issued v → known from → at_block v w from → Forall (λ to, known to ∧ on_chain base to) tos →
  ∃ x w', try_fold (λ st to, calculate_utxo_state_relatively (E := E) self env seq_commit_accessor recompute_seq_commit
      expected_header_pruning_point schedules v st.2 st.1 to) (from, w) tos = Ok (x, w') ∧
    at_block v w' x ∧ (∀ to, last tos = Some to → x = to ↔ valid_block to) ∧ Forall (judged (wk_stores w')) tos.
Proof.
  intros Hv Hk Hw Hall. cut (∃ x w', try_fold (λ st to, calculate_utxo_state_relatively (E := E) self env seq_commit_accessor recompute_seq_commit
      expected_header_pruning_point schedules v st.2 st.1 to) (from, w) tos = Ok (x, w') ∧ grows (wk_stores w) (wk_stores w') ∧
    at_block v w' x ∧ (∀ to, last tos = Some to → x = to ↔ valid_block to) ∧ Forall (judged (wk_stores w')) tos); [naive_solver|].
  revert from w Hk Hw. induction Hall as [|to tos [Hkt Hbt] _ IH]; intros from w Hk Hw; cbn [try_fold fst snd].
  { exists from, w. by split_and!. }
  destruct (reorg_spec (E := E) v w from to Hv Hk Hkt Hbt Hw) as (x & w1 & -> & Hg1 & Hw1 & Hkx & Hcase). cbn [mbind outcome_bind].
  destruct (IH x w1 Hkx Hw1) as (x' & w' & Hrun & Hg & Hw' & Hlast & Hj). exists x', w'. split; [exact Hrun|]. split; [by etrans|].
  split; [done|]. split.
  - intros to' Hto. destruct tos as [|t tos]; [|by apply Hlast]. injection Hto as <-. cbn in Hrun. injection Hrun as <- <-.
    destruct Hcase as [[-> Hvb]|(Hne & Hnv & _)]; naive_solver.
  - constructor; [|done]. by apply (reorg_judged (wk_stores w1) _ x); [apply Hw'|..|apply Hw1|].
Qed.

(** *** The sink *)
Section sink.
Context (v : VirtualStores) (Hv : virtual_issued v) (finality_point : Hash) (anchor_guard : option Hash) (tips : list Hash).
Abbreviation store := (vp_ghostdag_store self) (only parsing).
Abbreviation anc := (Dag.ancestor (block_relations env)) (only parsing).
Abbreviation above_finality x := (is_dag_ancestor_of finality_point x = true) (only parsing).

(** The past of the tips, above the finality point. *)
Definition in_past (x : Hash) : Prop := ∃ t, t ∈ tips ∧ anc x t.
Definition key (x : Hash) : SortableBlock := mk_sortable x (work_in store x).
(** What the search needs of the stores: tips are an antichain above the finality point, the
    blocks above it have data, the parents of a block are an antichain (header validation
    checks it), and reachability answers the ancestor relation. *)
Record search_ok : Prop := {
  sl_nodup : NoDup tips;
  sl_above : ∀ t, t ∈ tips → above_finality t;
  sl_antichain : ∀ x y, x ∈ tips → y ∈ tips → anc x y → x = y;
  sl_block : ∀ x, in_past x → above_finality x →
    is_Some (store !! x) ∧ known x ∧ is_Some (block_relations env !! x) ∧ is_Some (merge_depth_roots env !! x);
  sl_reach : ∀ x y, in_past x → in_past y → is_dag_ancestor_of x y = true ↔ anc x y;
  sl_work : ∀ x y, in_past y → parent_of (block_relations env) x y → above_finality x → above_finality y → work_in store x < work_in store y;
  sl_parents : ∀ x y c, in_past c → parent_of (block_relations env) x c → parent_of (block_relations env) y c → anc x y → x = y;
  sl_finality : in_past finality_point ∧ known finality_point ∧ on_chain base finality_point;
  sl_chain : ∀ x, in_past x → chain_ancestor_of finality_point x = true → above_finality x }.
Context (Hso : search_ok).

(** A candidate the search accepts: valid, with the anchor and the finality point on its chain. *)
Definition allowed (x : Hash) : Prop :=
  chain_ancestor_of finality_point x = true ∧ match anchor_guard with None => True | Some a => chain_ancestor_of a x = true end.
Definition eligible (x : Hash) : Prop := in_past x ∧ allowed x ∧ valid_block x.

Lemma past_of_past x y : in_past y → anc x y → in_past x.
Proof. intros (t & Ht & Hy) Hx. exists t. split; [done|]. by etransitivity. Qed.
Lemma above_of_above x y : in_past y → above_finality x → anc x y → above_finality y.
Proof.
  intros Hy Hx Hxy. destruct (sl_finality Hso) as [Hf _]. apply (sl_reach Hso); [done|done|]. transitivity x; [|done].
  apply (sl_reach Hso); [done|by apply (past_of_past x y)|done].
Qed.
Lemma work_anc x y : in_past y → above_finality x → anc x y → x = y ∨ work_in store x < work_in store y.
Proof.
  intros Hy Hx Hxy. revert Hy Hx. induction Hxy as [x|x z y Hxz Hzy IH]; intros Hy Hx; [by left|right].
  assert (Hz : in_past z) by (by apply (past_of_past z y)). assert (Haz : above_finality z) by (eapply (above_of_above x z); [done|done|by apply rtc_once]).
  pose proof (sl_work Hso x z Hz Hxz Hx Haz). destruct (IH Hy Haz) as [->|?]; lia.
Qed.
Lemma eligible_above x : eligible x → above_finality x.
Proof. intros (Hp & [Hf _] & _). by apply (sl_chain Hso). Qed.
Lemma allowed_on_chain x : in_past x → chain_ancestor_of finality_point x = true → known x ∧ on_chain base x.
Proof.
  intros Hp Hf. destruct (sl_finality Hso) as (_ & Hkf & Hb). destruct (sl_block Hso x Hp (sl_chain Hso x Hp Hf)) as (_ & Hk & _).
  split; [done|]. eapply on_chain_trans; [exact Hb|]. by apply (cl_ancestor _ (eo_laws Hok)).
Qed.

(** The heap, [popped] being the candidates refused so far. *)
Record heap_ok (popped : gset Hash) (hs : list Hash) : Prop := {
  hp_nodup : NoDup hs;
  hp_past : ∀ x, x ∈ hs → in_past x ∧ above_finality x;
  hp_antichain : ∀ x y, x ∈ hs → y ∈ hs → anc x y → x = y;
  hp_popped : ∀ x y, x ∈ hs → y ∈ popped → sortable_le (key x) (key y) ∧ x ≠ y;
  hp_stored : popped ⊆ dom store }.
Definition covers (hs : list Hash) (g : Hash) : Prop := ∃ x, x ∈ hs ∧ anc g x.

Lemma remove_one_perm x l : x ∈ l → l ≡ₚ x :: remove_one x l.
Proof.
  induction l as [|y l IH]; [by intros ?%elem_of_nil|]. intros Hx. cbn [remove_one]. case_bool_decide as Heq; [by subst|].
  apply elem_of_cons in Hx as [->|Hx]; [done|]. rewrite (IH Hx) at 1. by apply Permutation_swap.
Qed.
Lemma key_list (l : list SortableBlock) : Forall (λ b, key (sb_hash b) = b) l → key <$> (sb_hash <$> l) = l.
Proof. induction 1 as [|b l Hb _ IH]; [done|]. by rewrite !fmap_cons, IH, Hb. Qed.
Lemma hash_keys (l : list Hash) : sb_hash <$> (key <$> l) = l.
Proof. induction l as [|b l IH]; [done|]. by rewrite !fmap_cons, IH. Qed.
Lemma pop_spec hs : hs ≠ [] → ∃ c hs', heap_pop (key <$> hs) = Some (key c, key <$> hs') ∧ hs ≡ₚ c :: hs' ∧
  ∀ x, x ∈ hs → sortable_le (key x) (key c).
Proof.
  destruct hs as [|x hs]; [done|]. intros _. destruct (max_sortable_spec (key x) (key <$> hs)) as (b & Hb & Hin & Hall).
  rewrite <- fmap_cons in Hin, Hall. apply list_elem_of_fmap in Hin as (c & -> & Hc).
  pose proof (remove_one_perm (key c) (key <$> x :: hs) ltac:(by apply list_elem_of_fmap_2)) as Hperm.
  set (l := remove_one (key c) (key <$> x :: hs)) in *.
  assert (Hl : l = key <$> (sb_hash <$> l)).
  { symmetry. apply key_list, Forall_forall. intros b Hb'. assert (Hbl : b ∈ key <$> x :: hs) by (rewrite Hperm; by right).
    by apply list_elem_of_fmap in Hbl as (y & -> & _). }
  exists c, (sb_hash <$> l). unfold heap_pop. rewrite fmap_cons, Hb. cbn [mbind option_bind]. rewrite <- fmap_cons. fold l. split; [by rewrite <- Hl|].
  split; [|intros y Hy; rewrite Forall_forall in Hall; by apply Hall, list_elem_of_fmap_2].
  apply (fmap_Permutation sb_hash) in Hperm. by rewrite hash_keys in Hperm.
Qed.

(** Pushing the parents of a refused candidate keeps the invariant, and covers what the
    candidate covered. *)
Lemma push_spec {E : Type} popped hs y c :
  heap_ok popped hs → c ∈ popped → in_past c → above_finality c → parent_of (block_relations env) y c →
  (∀ x, x ∈ hs → anc x c → parent_of (block_relations env) x c) → (∀ z, z ∈ popped → sortable_le (key c) (key z)) →
  ∃ hs', push_parent (E := E) self finality_point (key <$> hs) y = Ok (key <$> hs') ∧ heap_ok popped hs' ∧
    (∀ x, x ∈ hs' → anc x c → parent_of (block_relations env) x c) ∧ (∀ g, covers hs g → covers hs' g) ∧ (∀ g, above_finality g → anc g y → covers hs' g).
Proof.
  intros Hh Hc Hpc Hac Hyc Hbelow Hlow. assert (Hy : in_past y) by (apply (past_of_past y c); [done|by apply rtc_once]).
  unfold push_parent. destruct (is_dag_ancestor_of finality_point y) eqn:Hay; cbn [andb].
  2: { exists hs. split; [done|]. split; [done|]. split; [done|]. split; [done|]. intros g Hg Hgy.
       by rewrite (above_of_above g y Hy Hg Hgy) in Hay. }
  destruct (existsb _ _) eqn:Hex; cbn [negb].
  - apply existsb_exists in Hex as (sb & Hsb%list_elem_of_In & Hanc). apply list_elem_of_fmap in Hsb as (x & -> & Hx). cbn [key sb_hash] in Hanc.
    apply (sl_reach Hso) in Hanc; [|done|by apply Hh]. exists hs. split; [done|]. split; [done|]. split; [done|]. split; [done|].
    intros g _ Hgy. exists x. split; [done|]. by transitivity y.
  - destruct (sl_block Hso y Hy Hay) as (Hs & _). rewrite (sortable_Ok _ _ Hs). cbn [mbind outcome_bind].
    assert (Hny : ∀ x, x ∈ hs → ¬ anc y x).
    { intros x Hx Hyx. apply (sl_reach Hso) in Hyx; [|done|by apply Hh]. revert Hex. apply not_false_iff_true, existsb_exists.
      exists (key x). split; [|done]. by apply list_elem_of_In, list_elem_of_fmap_2. }
    pose proof (sl_work Hso y c Hpc Hyc Hay Hac) as Hw. destruct Hh as [Hnd Hpast Hanti Hpop Hst].
    exists (hs ++ [y]). split; [by rewrite fmap_app|]. split; [|split; [|split]].
    + split.
      * apply NoDup_app. split; [done|]. split; [|apply NoDup_singleton]. intros x Hx ->%list_elem_of_singleton. by apply (Hny y).
      * intros x [Hx| ->%list_elem_of_singleton]%elem_of_app; [by apply Hpast|done].
      * intros x z [Hx| ->%list_elem_of_singleton]%elem_of_app [Hz| ->%list_elem_of_singleton]%elem_of_app Hxz; [by apply Hanti| |by destruct (Hny z)|done].
        apply (sl_parents Hso x y c); [done| |done|done]. apply Hbelow; [done|]. etransitivity; [exact Hxz|by apply rtc_once].
      * intros x z [Hx| ->%list_elem_of_singleton]%elem_of_app Hz; [by apply Hpop|].
        assert (Hlt : sortable_le (key y) (key c)) by (apply sortable_le_iff; left; exact Hw). split; [transitivity (key c); [done|by apply Hlow]|].
        intros ->. specialize (Hlow z Hz). apply sortable_le_iff in Hlow. cbn in Hlow, Hw. lia.
      * done.
    + intros x [Hx| ->%list_elem_of_singleton]%elem_of_app; [by apply Hbelow|done].
    + intros g (x & Hx & Hgx). exists x. split; [apply elem_of_app; by left|done].
    + intros g _ Hgy. exists y. split; [apply elem_of_app; right; by left|done].
Qed.

Lemma push_all_spec {E : Type} popped ps hs c :
  heap_ok popped hs → c ∈ popped → in_past c → above_finality c → (∀ y, y ∈ ps → parent_of (block_relations env) y c) →
  (∀ x, x ∈ hs → anc x c → parent_of (block_relations env) x c) → (∀ z, z ∈ popped → sortable_le (key c) (key z)) →
  ∃ hs', try_fold (push_parent (E := E) self finality_point) (key <$> hs) ps = Ok (key <$> hs') ∧ heap_ok popped hs' ∧
    (∀ g, covers hs g → covers hs' g) ∧ (∀ g y, y ∈ ps → above_finality g → anc g y → covers hs' g).
Proof.
  intros Hh Hc Hpc Hac Hps Hbelow Hlow. revert hs Hh Hbelow. induction ps as [|y ps IH]; intros hs Hh Hbelow; cbn [try_fold].
  { exists hs. split; [done|]. split; [done|]. split; [done|]. by intros g y ?%elem_of_nil. }
  destruct (push_spec (E := E) popped hs y c Hh Hc Hpc Hac (Hps y ltac:(by left)) Hbelow Hlow) as (hs1 & -> & Hh1 & Hb1 & Hm1 & Hy1).
  cbn [mbind outcome_bind]. destruct (IH ltac:(intros z Hz; apply Hps; by right) hs1 Hh1 Hb1) as (hs' & -> & Hh' & Hm' & Hy').
  exists hs'. split; [done|]. split; [done|]. split; [auto|]. intros g z [->|Hz]%elem_of_cons Hg Hgz; [by apply Hm', Hy1|by apply (Hy' g z)].
Qed.

(** A refused candidate. *)
Lemma refuse_spec {E : Type} popped hs c hs1 :
  heap_ok popped hs → hs ≡ₚ c :: hs1 → (∀ x, x ∈ hs → sortable_le (key x) (key c)) → ¬ eligible c → (∀ g, eligible g → covers hs g) →
  ∃ ps hs', block_relations env !! c = Some ps ∧
    try_fold (push_parent (E := E) self finality_point) (key <$> hs1) ps = Ok (key <$> hs') ∧
    heap_ok ({[c]} ∪ popped) hs' ∧ (∀ g, eligible g → covers hs' g) ∧ c ∉ popped.
Proof.
  intros Hh Hperm Hmax Hn Hcov. assert (Hc : c ∈ hs) by (rewrite Hperm; by left). destruct Hh as [Hnd Hpast Hanti Hpop Hst].
  destruct (Hpast c Hc) as [Hpc Hac]. destruct (sl_block Hso c Hpc Hac) as (Hs & _ & [ps Hps] & _).
  assert (Hsub : ∀ x, x ∈ hs1 → x ∈ hs) by (intros x Hx; rewrite Hperm; by right). rewrite Hperm in Hnd. apply NoDup_cons in Hnd as [Hc1 Hnd1].
  destruct (push_all_spec (E := E) ({[c]} ∪ popped) ps hs1 c) as (hs' & Hpush & Hh' & Hm & Hy); [|set_solver|done|done|by intros y Hy; exists ps| | |].
  - split; [done|by intros x Hx; apply Hpast, Hsub|by intros x y Hx Hy; apply Hanti; apply Hsub| |].
    + intros x z Hx [->%elem_of_singleton|Hz]%elem_of_union; [|by apply Hpop; [apply Hsub|]]. split; [by apply Hmax, Hsub|]. by intros ->.
    + apply union_subseteq. split; [|done]. apply singleton_subseteq_l, elem_of_dom. done.
  - intros x Hx Hxc. destruct Hc1. by rewrite <- (Hanti x c (Hsub x Hx) Hc Hxc).
  - intros z [->%elem_of_singleton|Hz]%elem_of_union; [by destruct (total sortable_le (key c) (key c))|by apply Hpop].
  - exists ps, hs'. split; [done|]. split; [done|]. split; [done|]. split; [|intros Hcp; by destruct (Hpop c c Hc Hcp)].
    intros g Hg. destruct (Hcov g Hg) as (x & Hx & Hgx). rewrite Hperm in Hx. apply elem_of_cons in Hx as [->|Hx]; [|apply Hm; by exists x].
    apply rtc_inv_r in Hgx as [->|(y & Hgy & (ps' & Hps' & Hy'))]; [done|]. apply (Hy g y); [by rewrite Hps in Hps'; injection Hps' as ->|by apply eligible_above|done].
Qed.

(** The rest of the heap, best first. *)
Definition best_first (hs : list Hash) : Prop := StronglySorted (λ x y, sortable_le (key y) (key x)) hs.
Lemma sorted_heap_spec hs : ∃ l, sorted_heap (key <$> hs) = key <$> l ∧ l ≡ₚ hs ∧ best_first l.
Proof.
  unfold sorted_heap. rewrite length_fmap. remember (length hs) as n eqn:Hn. revert hs Hn. induction n as [|n IH]; intros hs Hn.
  { destruct hs; [|done]. exists []. split; [done|]. split; [done|constructor]. }
  destruct (pop_spec hs) as (c & hs1 & Hpop & Hperm & Hmax); [by intros ->|]. cbn [into_sorted]. rewrite Hpop.
  destruct (IH hs1) as (l & -> & Hl & Hs); [pose proof (Permutation_length Hperm) as Hlen; cbn in Hlen; lia|].
  exists (c :: l). split; [done|]. split; [by rewrite Hl|]. constructor; [done|]. apply Forall_forall. intros x Hx. apply Hmax.
  rewrite Hperm, <- Hl. by right.
Qed.
Lemma take_while_prefix {A : Type} (f : A → bool) l : take_while f l `prefix_of` l.
Proof. induction l as [|x l [k IH]]; [done|]. cbn [take_while]. destruct (f x); [|by eexists]. exists k. cbn. by rewrite <- IH. Qed.

(** What the search returns: the sink is the best eligible block of the past of the tips; the
    other candidates are the rest of an antichain, best first, all worse than the sink. *)
Record found (sink : Hash) (candidates : list Hash) (w : WalkState) : Prop := {
  fd_state : at_block v w sink;
  fd_known : known sink;
  fd_eligible : eligible sink;
  fd_best : ∀ g, eligible g → sortable_le (key g) (key sink);
  fd_candidates : ∀ x, x ∈ candidates → in_past x ∧ x ≠ sink ∧ sortable_le (key x) (key sink);
  fd_antichain : ∀ x y, x ∈ sink :: candidates → y ∈ sink :: candidates → anc x y → x = y;
  fd_sorted : best_first candidates }.

Lemma found_spec popped hs c hs1 f w :
  heap_ok popped hs → hs ≡ₚ c :: hs1 → (∀ x, x ∈ hs → sortable_le (key x) (key c)) → eligible c → (∀ g, eligible g → covers hs g) →
  at_block v w c → known c → found c (sb_hash <$> take_while f (sorted_heap (key <$> hs1))) w.
Proof.
  intros Hh Hperm Hmax Hel Hcov Hw Hk. destruct (sorted_heap_spec hs1) as (l & -> & Hl & Hs).
  assert (Hpre : sb_hash <$> take_while f (key <$> l) `prefix_of` l).
  { destruct (take_while_prefix f (key <$> l)) as [k Hkk]. exists (sb_hash <$> k). by rewrite <- fmap_app, <- Hkk, hash_keys. }
  set (cands := sb_hash <$> _) in *. assert (Hin : ∀ x, x ∈ cands → x ∈ hs1).
  { intros x Hx. rewrite <- Hl. destruct Hpre as [k Hk']. rewrite Hk'. apply elem_of_app. by left. }
  assert (Hhs : ∀ x, x ∈ hs1 → x ∈ hs) by (intros x Hx; rewrite Hperm; by right).
  assert (Hc1 : c ∉ hs1) by (pose proof (hp_nodup _ _ Hh) as Hnd; rewrite Hperm in Hnd; by apply NoDup_cons in Hnd as [? _]).
  split; [done|done|done| | | |].
  - intros g Hg. destruct (Hcov g Hg) as (x & Hx & Hgx). destruct (hp_past _ _ Hh x Hx) as [Hpx _].
    transitivity (key x); [|by apply Hmax]. destruct (work_anc g x Hpx (eligible_above g Hg) Hgx) as [->|Hlt].
    + by destruct (total sortable_le (key x) (key x)).
    + apply sortable_le_iff. by left.
  - intros x Hx. split; [by apply (hp_past _ _ Hh), Hhs, Hin|]. split; [intros ->; by apply Hc1, Hin|by apply Hmax, Hhs, Hin].
  - intros x y Hx Hy. apply (hp_antichain _ _ Hh); rewrite Hperm; [revert Hx|revert Hy]; rewrite !elem_of_cons; intros [->|Hz]; auto.
  - destruct Hpre as [k Hk']. unfold best_first in *. rewrite Hk' in Hs. by apply StronglySorted_app_1_l in Hs.
Qed.

Abbreviation search E := (sink_search (E := E) self env seq_commit_accessor recompute_seq_commit expected_header_pruning_point schedules
  v finality_point anchor_guard).
Lemma sink_search_spec {E : Type} g0 fuel popped hs dp w :
  eligible g0 → heap_ok popped hs → (∀ g, eligible g → covers hs g) → (size (dom store) < fuel + size popped)%nat →
  known dp → at_block v w dp →
  ∃ sink cands w', search E fuel (key <$> hs) dp w = Ok (sink, cands, w') ∧ found sink cands w'.
Proof.
  intros Hg0. revert popped hs dp w. induction fuel as [|fuel IH]; intros popped hs dp w Hh Hcov Hfuel Hk Hw.
  { pose proof (subseteq_size _ _ (hp_stored _ _ Hh)). lia. }
  destruct (pop_spec hs) as (c & hs1 & Hpop & Hperm & Hmax); [destruct (Hcov g0 Hg0) as (x & Hx & _); by intros ->; apply elem_of_nil in Hx|].
  assert (Hin : c ∈ hs) by (rewrite Hperm; by left). destruct (hp_past _ _ Hh c Hin) as [Hpc Hac].
  assert (Hrefuse : ∀ dp w, ¬ eligible c → known dp → at_block v w dp → ∃ sink cands w',
    (parents ← unwrap (E := E) (block_relations env !! c); heap ← try_fold (push_parent self finality_point) (key <$> hs1) parents;
     search E fuel heap dp w) = Ok (sink, cands, w') ∧ found sink cands w').
  { intros dp' w' Hn Hk' Hw'. destruct (refuse_spec (E := E) popped hs c hs1 Hh Hperm Hmax Hn Hcov) as (ps & hs' & -> & Hpush & Hh' & Hcov' & Hnew).
    cbn [unwrap mbind outcome_bind]. rewrite Hpush. cbn [mbind outcome_bind]. apply (IH ({[c]} ∪ popped)); [done|done| |done|done].
    rewrite size_union by set_solver. rewrite size_singleton. lia. }
  cbn [sink_search]. rewrite Hpop. cbn [unwrap mbind outcome_bind key sb_hash].
  destruct (match anchor_guard with None => true | Some a => chain_ancestor_of a c end) eqn:Hguard; cbn [negb].
  2: { apply Hrefuse; [|done|done]. intros (_ & [_ Ha] & _). destruct anchor_guard; congruence. }
  destruct (chain_ancestor_of finality_point c) eqn:Hfin.
  2: { apply Hrefuse; [|done|done]. intros (_ & [Ha _] & _). congruence. }
  destruct (allowed_on_chain c Hpc Hfin) as [Hkc Hbc].
  destruct (reorg_spec (E := E) v w dp c Hv Hk Hkc Hbc Hw) as (x & w1 & -> & _ & Hw1 & Hkx & [[-> Hval]|(Hne & Hnv & _)]); cbn [mbind outcome_bind].
  - rewrite bool_decide_true by done. destruct (sl_block Hso c Hpc Hac) as (_ & _ & _ & [root Hroot]). rewrite Hroot. cbn [unwrap mbind outcome_bind].
    eexists c, _, w1. split; [done|]. apply (found_spec popped hs); [done|done|done| |done|done|done].
    split; [done|]. split; [|done]. split; [done|]. by destruct anchor_guard.
  - rewrite bool_decide_false by done. apply Hrefuse; [|done|done]. by intros (_ & _ & ?).
Qed.

Lemma sink_spec {E : Type} g0 prev_sink w :
  eligible g0 → known prev_sink → at_block v w prev_sink →
  ∃ sink cands w', sink_search_algorithm (E := E) self env seq_commit_accessor recompute_seq_commit expected_header_pruning_point schedules
      v finality_point anchor_guard w prev_sink tips = Ok (sink, cands, w') ∧ found sink cands w'.
Proof.
  intros Hg0 Hk Hw. unfold sink_search_algorithm.
  assert (Htips : ∀ t, t ∈ tips → in_past t) by (intros t Ht; exists t; split; [done|apply rtc_refl]).
  rewrite (try_map_Ok _ key); [|intros t Ht; apply sortable_Ok; by apply (sl_block Hso t (Htips t Ht)), (sl_above Hso)].
  cbn [mbind outcome_bind]. apply (sink_search_spec g0 _ ∅); [done| | |rewrite size_dom, size_empty; lia|done|done].
  - split; [by apply (sl_nodup Hso)| |by apply (sl_antichain Hso)|set_solver|set_solver].
    intros t Ht. split; [by apply Htips|by apply (sl_above Hso)].
  - by intros g (Hp & _ & _).
Qed.
(** (C10) The search for the sink finds the best valid block: as long as the past of the tips
    holds an eligible block (valid, with the finality point and the enforced anchor on its
    chain), the search returns, although it may have to refuse any number of heavier
    candidates; the sink is eligible, no eligible block precedes it in the order of blue
    work and hash, the diffs lead to its state, and the remaining candidates for virtual
    parents form an antichain with it, best first, all below the sink in the order. *)
Theorem sink_search_finds {E : Type} prev_sink w :
  known prev_sink → at_block v w prev_sink → (∃ g, eligible g) →
  ∃ sink candidates w', sink_search_algorithm (E := E) self env seq_commit_accessor recompute_seq_commit expected_header_pruning_point
      schedules v finality_point anchor_guard w prev_sink tips = Ok (sink, candidates, w') ∧
    at_block v w' sink ∧ eligible sink ∧ (∀ g, eligible g → sortable_le (key g) (key sink)) ∧
    (∀ x, x ∈ candidates → in_past x ∧ x ≠ sink ∧ sortable_le (key x) (key sink)) ∧
    (∀ x y, x ∈ sink :: candidates → y ∈ sink :: candidates → anc x y → x = y) ∧ best_first candidates.
Proof.
  intros Hk Hw [g0 Hg0]. destruct (sink_spec (E := E) g0 prev_sink w Hg0 Hk Hw) as (sink & cands & w' & Hrun & [? ? ? ? ? ? ?]).
  exists sink, cands, w'. by split_and!.
Qed.
End sink.

Lemma key_antisym x y : sortable_le (key x) (key y) → sortable_le (key y) (key x) → x = y.
Proof.
  rewrite !sortable_le_iff. cbn [key sb_hash sb_blue_work]. intros [?|[? Hxy]] [?|[? Hyx]]; [lia..|]. by apply (anti_symm bytes_le).
Qed.
(** (C15) The sink does not depend on the node's past: two nodes with the same blocks, finality
    point and anchor, whatever their virtual sets, stored states and previous sinks are,
    find the same sink, and their diffs lead to the same UTXO set and the same pool. *)
Theorem sinks_agree {E : Type} v1 v2 w1 w2 prev1 prev2 finality_point anchor_guard tips :
  search_ok finality_point tips → (∃ g, eligible finality_point anchor_guard tips g) →
  virtual_issued v1 → virtual_issued v2 → known prev1 → known prev2 → at_block v1 w1 prev1 → at_block v2 w2 prev2 →
  let search v := sink_search_algorithm (E := E) self env seq_commit_accessor recompute_seq_commit expected_header_pruning_point
    schedules v finality_point anchor_guard in
  ∃ sink c1 c2 w1' w2', search v1 w1 prev1 tips = Ok (sink, c1, w1') ∧ search v2 w2 prev2 tips = Ok (sink, c2, w2') ∧
    UtxoAlgebra.apply_diff (utxo_set v1) (wk_diff w1') = UtxoAlgebra.apply_diff (utxo_set v2) (wk_diff w2') ∧
    PoolDiff.apply_diff (store_map (pool_state v1)) (wk_pool_diff w1') = PoolDiff.apply_diff (store_map (pool_state v2)) (wk_pool_diff w2').
Proof.
  intros Hso [g0 Hg0] Hv1 Hv2 Hk1 Hk2 Hw1 Hw2 search.
  destruct (sink_spec v1 Hv1 finality_point anchor_guard tips Hso (E := E) g0 prev1 w1 Hg0 Hk1 Hw1) as (x1 & c1 & w1' & Hr1 & [Ha1 _ He1 Hb1 _ _ _]).
  destruct (sink_spec v2 Hv2 finality_point anchor_guard tips Hso (E := E) g0 prev2 w2 Hg0 Hk2 Hw2) as (x2 & c2 & w2' & Hr2 & [Ha2 _ He2 Hb2 _ _ _]).
  assert (x2 = x1) as -> by (apply key_antisym; auto). exists x1, c1, c2, w1', w2'. split; [done|]. split; [done|].
  destruct Ha1 as (_ & _ & s1 & p1 & Hval1 & [[_ <-] [_ <-]]), Ha2 as (_ & _ & s2 & p2 & Hval2 & [[_ <-] [_ <-]]).
  by destruct (valid_unique _ _ _ _ _ Hval1 Hval2).
Qed.

(** *** Resolving virtual *)
Section resolve.
Context (virtual_window : GhostdagData → outcome (RuleError TxScriptError) VirtualWindow).
Context (compute_seq_commit : UtxoProcessingContext → GhostdagData → Z → Hash).
Context (pick_virtual_parents : Hash → list Hash → Hash → list Hash * GhostdagData).
Abbreviation sink_of st := (selected_parent (vs_ghostdag_data (virtual_state (ps_virtual st)))) (only parsing).

(** What holds between two resolutions: the virtual diffs lead from the state of the sink to
    the UTXO set and the pool, the multiset hash and the stored tree commit to the two, and
    the chain index holds the chain from the base to the sink. *)
Record processor_ok (k0 : Z) (st : ProcessorState) : Prop := {
  po_chain : chain_ok (ps_chain st) ∧ settled (ps_chain st) (sink_of st) ∧ known (sink_of st);
  po_virtual : ∃ s p, valid_at (sink_of st) s p ∧
    leads s p (vs_utxo_diff (virtual_state (ps_virtual st))) (virtual_pool_diff (ps_virtual st))
      (utxo_set (ps_virtual st)) (store_map (pool_state (ps_virtual st)));
  po_issued : virtual_issued (ps_virtual st);
  po_multiset : commits (vs_multiset (virtual_state (ps_virtual st))) (utxo_set (ps_virtual st));
  po_pool : PoolDiff.store_ok (pool_state (ps_virtual st));
  po_tree : tracks (pool_smt (ps_virtual st)) (store_map (pool_state (ps_virtual st)));
  po_index : ∃ l, links base l ∧ tip base l = sink_of st ∧ indexes (ps_selected_chain st) k0 (base :: l) }.

(** What one resolution reads: the finality point and the guard, searchable tips with an
    eligible block, and virtual parents on top of the sink. *)
Record round_ok (k0 : Z) (st : ProcessorState) (finality_point : Hash) (guard : option Hash) (tips : list Hash) : Prop := {
  rd_finality : ∀ E : Type, virtual_finality_point (E := E) self env (vs_ghostdag_data (virtual_state (ps_virtual st))) (pruning_point_store env) = Ok finality_point;
  rd_tips : tips = filter (λ h, is_dag_ancestor_of finality_point h = true) (body_tips_store env);
  rd_guard : ∃ h, block_headers env !! sink_of st = Some h ∧
    finality_anchor_guard (anchor_params env) (ps_anchors st) (header_daa_score h) = Ok guard;
  rd_search : search_ok finality_point tips;
  rd_eligible : ∃ g, eligible finality_point guard tips g;
  rd_parents : ∀ sink candidates, eligible finality_point guard tips sink →
    let gd := (pick_virtual_parents sink candidates (pruning_point_store env)).2 in
    selected_parent gd = sink ∧ ∃ cb blocks w, mergeset_stored gd cb blocks ∧ supply sink + outputs_total (outputs cb) ≤ u64_max ∧
      virtual_window gd = Ok w ∧ 0 ≤ vw_daa_score w < 2 ^ 62;
  rd_index : 0 ≤ k0 ∧ ∀ b, known b → k0 + Z.of_nat (get_height b) + 1 ≤ u64_max }.

(** Leaf hashes are proper and no two serials differ in the last bit alone; there are five
    trustees, and the payload decoder yields unsigned fields. *)
Record commitments_ok : Prop := {
  cs_leaves : ∀ s p, issued self A0 s0 p0 s p → leaves_ok (leaves p) ∧ no_siblings (leaves p);
  cs_trustees : ∀ keys, trustees (anchor_params env) = Some keys → length keys = TRUSTEE_COUNT;
  cs_payloads : ∀ bytes pl, decode_anchor_payload bytes = Some pl → payload_unsigned pl }.
Context (Hcs : commitments_ok).

Lemma write_diff_apply (m : UtxoCollection) (df : UtxoDiff) : write_diff_batch m df = UtxoAlgebra.apply_diff m df.
Proof.
  apply map_eq. intros op. rewrite utxo_apply_lookup. unfold write_diff_batch, write_many.
  rewrite (insert_if_lookup (λ _, true)), delete_many_keys. done.
Qed.
Lemma start_at k0 st : processor_ok k0 st →
  at_block (ps_virtual st) (mk_walk (ps_chain st) (UtxoAlgebra.to_reversed (vs_utxo_diff (virtual_state (ps_virtual st))))
    (PoolDiff.to_reversed (virtual_pool_diff (ps_virtual st)))) (sink_of st).
Proof.
  intros [(Hco & Hset & _) (s & p & Hv & Hl) _ _ _ _ _]. split; [done|]. split; [done|]. exists s, p. split; [done|]. by apply leads_reverse.
Qed.

(** The virtual state on top of the sink. *)
Lemma virtual_state_spec v w sink mh gd parents cb blocks win s p :
  virtual_issued v → known sink → valid_at sink s p → leads (utxo_set v) (store_map (pool_state v)) (wk_diff w) (wk_pool_diff w) s p → commits mh s →
  selected_parent gd = sink → mergeset_stored gd cb blocks → supply sink + outputs_total (outputs cb) ≤ u64_max →
  virtual_window gd = Ok win → 0 ≤ vw_daa_score win < 2 ^ 62 →
  ∃ vs pdf acc s' p', calculate_virtual_state self seq_commit_accessor schedules virtual_window compute_seq_commit v parents gd mh (wk_diff w) (wk_pool_diff w) =
      Ok (vs, pdf, acc) ∧ vs_ghostdag_data vs = gd ∧ leads s p (vs_utxo_diff vs) pdf s' p' ∧ commits (vs_multiset vs) s' ∧
    leads (utxo_set v) (store_map (pool_state v)) acc.1 acc.2 s' p' ∧ issued self A0 s0 p0 s' p'.
Proof.
  intros Hv Hk Hval Hl Hmh Hsp Hms Hsup Hwin Hdaa. destruct (valid_state sink s p Hk Hval) as (A & Hs). rewrite <- Hsp in Hs, Hsup.
  pose proof Hl as [[Hf Hfs] [Hpf Hps]].
  set (vw := UtxoAlgebra.compose (utxo_set v) (wk_diff w)). set (q := PoolDiff.compose (pool_state v) (wk_pool_diff w)).
  assert (Hvw : UtxoAlgebra.shows vw s) by (rewrite <- Hfs, <- (as_utxo_diff_id (wk_diff w)) at 1; apply utxo_shows_compose, utxo_shows_map).
  assert (Hq : PoolDiff.shows q p) by (rewrite <- Hps, <- (as_diff_id (wk_pool_diff w)) at 1; apply shows_compose, shows_store).
  destruct (next_state (E := RuleError TxScriptError) vw q gd cb blocks mh (vw_daa_score win) _ u64_max (blue_score_of (selected_parent gd) + 1) A s p
    Hms Hdaa Hs) as (ctx & A' & [Hw Hcd _ _ _] & Hs' & Hrun); [lia|done|done|done|done|done|].
  destruct (Hrun (schedules gd)) as (mh' & Hcalc & Hcm'). unfold calculate_virtual_state. fold vw q. rewrite Hwin. cbn [mbind outcome_bind].
  rewrite Hcalc. cbn [mbind outcome_bind set_multiset_hash mergeset_diff mergeset_pool_diff].
  assert (Hstep : leads s p (mergeset_diff ctx) (mergeset_pool_diff ctx) _ _) by (destruct Hw as [? ? ? ? _ _ _]; by split).
  edestruct (compose_leads (E := RuleError TxScriptError) (utxo_set v) (store_map (pool_state v)) (wk_diff w) (wk_pool_diff w) (mergeset_diff ctx) (mergeset_pool_diff ctx) s p)
    as (r & pr & Hr & Hpr & Hl'); [done|done|rewrite as_utxo_diff_id, as_diff_id; exact Hstep|apply Hs'|].
  rewrite Hr. cbn [mbind outcome_bind]. rewrite Hpr. cbn [mbind outcome_bind].
  eexists _, _, (r, pr), _, _. split; [done|]. split; [done|]. split; [exact Hstep|]. split; [exact Hcm'|]. split; [exact Hl'|apply Hs'].
Qed.

Lemma above_header l b : links base l → known (tip base l) → b ∈ l → is_Some (block_headers env !! b).
Proof.
  intros Hl Hk (l1 & l2 & ->)%list_elem_of_split. rewrite cons_middle, app_assoc in Hl, Hk. rewrite tip_app in Hk. apply links_app in Hl as [Hl Hl2].
  destruct (links_known known (cl_tree _ (eo_laws Hok)) _ _ Hk Hl2) as (Hkb & _ & _). rewrite tip_snoc in Hkb. apply links_snoc in Hl as [Hl Hc].
  destruct (eo_blocks Hok b (tip base l1) Hkb ltac:(by exists l1) Hc) as [(h & Hh & _) _ _ _ _]. by exists h.
Qed.
(** The move of the chain index to a new sink. *)
Lemma index_follows {E F : Type} c k0 l1 sink :
  0 ≤ k0 → (∀ b, known b → k0 + Z.of_nat (get_height b) + 1 ≤ u64_max) → links base l1 → known (tip base l1) → known sink → on_chain base sink →
  indexes c k0 (base :: l1) →
  ∃ path c' l2, calculate_chain_path (E := E) (tip base l1) sink = Ok path ∧ apply_changes (E := F) c path = Ok c' ∧
    links base l2 ∧ tip base l2 = sink ∧ indexes c' k0 (base :: l2) ∧ Forall (λ b, is_Some (block_headers env !! b)) (path_added path).
Proof.
  intros H0k Hroom Hl1 Hk1 Hk2 (l2 & Hl2 & <-) Hix. pose proof (eo_laws Hok) as Hlaws. destruct (eo_base Hok) as [_ Ho].
  destruct (chain_path_spec (E := E) known Hlaws base l1 l2 Ho Hk1 Hk2 Hl1 Hl2) as (l & r1 & r2 & -> & -> & Hp).
  pose proof (links_nodup known Hlaws _ _ Hk2 Hl2) as Hnd. destruct (links_known known (cl_tree _ Hlaws) _ _ Hk2 Hl2) as (_ & _ & Hh).
  specialize (Hroom _ Hk2). destruct (apply_changes_spec (E := F) c k0 (base :: l) r1 r2) as (c' & Hc & Hix'); [done|done|done|done|cbn [app length] in *; lia|].
  exists (mk_path r2 (reverse r1)), c', (l ++ r2). do 5 (split; [done|]). cbn [path_added]. apply Forall_forall. intros b Hb.
  apply (above_header (l ++ r2)); [done|done|]. apply elem_of_app. by right.
Qed.

(** Writing the accumulated diffs. *)
Lemma commit_virtual_spec {E : Type} st c a vs pdf acc path chain updates s' p' :
  virtual_issued (ps_virtual st) → PoolDiff.store_ok (pool_state (ps_virtual st)) → tracks (pool_smt (ps_virtual st)) (store_map (pool_state (ps_virtual st))) →
  leads (utxo_set (ps_virtual st)) (store_map (pool_state (ps_virtual st))) acc.1 acc.2 s' p' → issued self A0 s0 p0 s' p' →
  apply_changes (E := E) (ps_selected_chain st) path = Ok chain →
  ∃ v', commit_virtual_state (E := E) (mk_processor c (ps_virtual st) (ps_selected_chain st) a) vs pdf acc.1 acc.2 path updates =
      Ok (mk_processor c v' chain (commit_anchor_updates a updates)) ∧
    virtual_state v' = vs ∧ virtual_pool_diff v' = pdf ∧ utxo_set v' = s' ∧ store_map (pool_state v') = p' ∧
    PoolDiff.store_ok (pool_state v') ∧ tracks (pool_smt v') p'.
Proof.
  intros Hi Hst Htr [[_ Hs] [Hpf Hp]] Hi' Hch. destruct (cs_leaves Hcs _ _ Hi) as [_ Hns]. destruct (cs_leaves Hcs _ _ Hi') as [Hlo _].
  destruct (tracks_step (E := unit) _ _ acc.2 Htr Hns Hpf) as (smt & Hsmt & Htr'); [by rewrite Hp|]. rewrite Hp in Htr', Hsmt.
  destruct (store_apply_sound _ _ Hst Hpf) as [Hst' Hmap]. unfold commit_virtual_state. cbn [ps_virtual ps_selected_chain ps_chain ps_anchors].
  rewrite apply_diff_batch_eq, Hsmt. cbn [unwrap_result mbind outcome_bind]. rewrite Hch. cbn [mbind outcome_bind].
  eexists. split; [done|]. cbn. rewrite write_diff_apply, Hmap, Hs, Hp. by split_and!.
Qed.


(** *** The start at genesis *)

(** The stores of a new node: headers may be known, but no block was processed. *)
Record fresh_stores (st : ProcessorState) : Prop := {
  fs_diffs : utxo_diffs_store (ps_chain st) = ∅ ∧ notepool_diffs_store (ps_chain st) = ∅;
  fs_multisets : utxo_multisets_store (ps_chain st) = ∅ ∧ acceptance_data_store (ps_chain st) = ∅;
  fs_statuses : ∀ b, known b → on_chain base b → b ≠ base → ∃ x, statuses_store (ps_chain st) !! b = Some x ∧ x ≠ StatusDisqualifiedFromChain;
  fs_utxos : utxo_set (ps_virtual st) = ∅;
  fs_pool : pool_state (ps_virtual st) = PoolDiff.mk_store ∅ ∅ ∧ pool_smt (ps_virtual st) = new_smt_store }.

Lemma fresh_chain_ok (c : ChainStores) (diffs : gmap Hash UtxoDiff) : s0 = ∅ → diffs = {[ base := UtxoAlgebra.empty_diff ]} →
  (∀ b, known b → on_chain base b → b ≠ base → ∃ x, statuses_store c !! b = Some x ∧ x ≠ StatusDisqualifiedFromChain) → ∀ samples,
  chain_ok (mk_chain_stores (<[base := StatusUTXOValid]> (statuses_store c)) diffs {[ base := PoolDiff.empty_diff ]} {[ base := new_muhash ]} {[ base := [] ]} samples).
Proof.
  intros Hs0 -> Hst samples. assert (Hne : ∀ b par, on_chain base par → chain_child b par → b ≠ base) by (intros b par Ha Hc ->; by destruct (base_no_parent par Hc)).
  split; cbn [statuses_store utxo_diffs_store notepool_diffs_store utxo_multisets_store acceptance_data_store].
  - rewrite lookup_insert_eq, lookup_singleton_eq. split; [done|]. exists new_muhash. split; [done|]. rewrite Hs0. apply commits_empty.
  - intros b par df _ Ha Hc [Hb _]%lookup_singleton_Some. by destruct (Hne b par Ha Hc).
  - intros b par Hk Ha Hc _. pose proof (Hne b par Ha Hc) as Hb. rewrite !lookup_singleton_ne, lookup_insert_ne by done.
    destruct (child_above b par Hk Hc Ha) as (_ & _ & Hab). destruct (Hst b Hk Hab Hb) as (x & -> & _). by split_and!.
  - intros b Hk Ha Hb. destruct (decide (b = base)) as [->|Hn]; [by rewrite lookup_insert_eq in Hb|].
    rewrite lookup_insert_ne in Hb by done. destruct (Hst b Hk Ha Hn) as (x & Hx & Hd). by rewrite Hx in Hb; injection Hb.
Qed.

(** (C31) On a new node [process_genesis] succeeds, selects genesis, and establishes what
    [resolve_virtual] maintains, whatever headers are known already. *)
Theorem genesis_starts {E : Type} (manager : GhostdagManager) digests (genesis : GenesisBlock) st :
  gb_hash genesis = base → s0 = ∅ → p0 = ∅ → fresh_stores st →
  grown manager → genesis_hash manager = base → work_ok manager → Z.of_nat (size (ghostdag_store manager)) ≤ u64_max →
  ∃ st', process_genesis (E := E) manager digests genesis st = Ok st' ∧ processor_ok 0 st' ∧ sink_of st' = base.
Proof.
  intros Hb Hs0 Hp0 [[Hd1 Hd2] [Hm1 Hm2] Hst Hu [Hps Hsm]] Hg Hgen Hw Hsz. unfold process_genesis, commit_utxo_state, insert_new_key.
  rewrite Hb, Hd1, Hd2, Hm1, Hm2, !lookup_empty, bool_decide_true by done. cbn [mbind outcome_bind].
  destruct (ghostdag_over_genesis (E := E) manager Hg Hw Hsz) as (gd & Hgd & Hsp). rewrite Hgen in Hgd, Hsp. rewrite Hgd. cbn [mbind outcome_bind].
  rewrite !insert_empty. pose proof (init_indexes (ps_selected_chain st) base) as Hix.
  destruct (apply_changes_spec (E := E) _ 0 [base] [] [] Hix) as (chain' & Hch & Hix'); [done|apply NoDup_singleton|done|cbn; unfold u64_max; lia|].
  assert (Hl : leads ∅ ∅ UtxoAlgebra.empty_diff PoolDiff.empty_diff ∅ ∅) by (split; split; done).
  assert (Hi : issued self A0 s0 p0 ∅ ∅) by (split; apply map_Forall_empty).
  destruct (commit_virtual_spec (E := E) (mk_processor (ps_chain st) (ps_virtual st) (init_with_pruning_point (ps_selected_chain st) base) (ps_anchors st))
    (mk_chain_stores (<[base := StatusUTXOValid]> (statuses_store (ps_chain st))) {[ base := UtxoAlgebra.empty_diff ]} {[ base := PoolDiff.empty_diff ]}
       {[ base := new_muhash ]} {[ base := [] ]} (insert_idempotent (pruning_samples_store (ps_chain st)) base ZERO_HASH))
    (ps_anchors st) (from_genesis genesis gd (digests gd)) PoolDiff.empty_diff (UtxoAlgebra.empty_diff, PoolDiff.empty_diff) (mk_path [] []) chain' None ∅ ∅)
    as (v' & Hrun & Hv1 & Hv2 & Hv3 & Hv4 & Hv5 & Hv6); cbn [ps_virtual ps_selected_chain].
  { unfold virtual_issued. by rewrite Hu, Hps. }
  { rewrite Hps. intros sn [l Hl']. cbn in Hl'. by rewrite lookup_empty in Hl'. }
  { rewrite Hps, Hsm. apply tracks_empty. }
  { rewrite Hu, Hps. exact Hl. }
  { exact Hi. }
  { exact Hch. }
  cbn [fst snd ps_virtual ps_selected_chain] in Hrun. rewrite Hrun. eexists. split; [done|]. cbn [ps_virtual]. rewrite Hv1. split; [|done].
  split; cbn [ps_virtual ps_chain ps_selected_chain]; rewrite ?Hv1; cbn [from_genesis vs_ghostdag_data vs_utxo_diff vs_multiset]; rewrite ?Hsp, ?Hv2, ?Hv3, ?Hv4.
  - split; [by apply fresh_chain_ok|]. split; [by left|apply (eo_base Hok)].
  - exists ∅, ∅. split; [|done]. rewrite <- Hs0 at 1. rewrite <- Hp0. constructor.
  - unfold virtual_issued. by rewrite Hv3, Hv4.
  - apply commits_empty.
  - done.
  - done.
  - by exists [].
Qed.
End resolve.
End chain.
