(* ===== verification/ReorgExample.v ===== *)
(** * Reorganisations: a concrete fork

    A base block with two children, one valid and one, heavier, with a wrong UTXO
    commitment: the assumptions of [ReorgTheorems] hold of it, and its theorems are
    applied to it. *)

From S2P Require Import Prelude Transaction Dag Ghostdag NotePool PoolDiff PoolHashing Smt PoolCommitment PoolValidate UtxoAlgebra Params TxHashing TxBinding Uint U3072 MuHash Merkle Mass Coinbase FinalityAnchor AnchorState Covenants TxValidation BodyValidation ChainWalk VirtualState VirtualTheorems VirtualProcessor ReorgTheorems.

Module Fork.
#[local] Existing Instance TxBinding.pad_hashers.
#[local] Existing Instance demo_anchor_hashers.
#[local] Existing Instance demo_oracle.
#[local] Existing Instance demo_payload_decoder.
#[local] Existing Instance demo_engine.
#[local] Existing Instance demo_branch.
#[local] Existing Instance unit_inverse.
#[local] Existing Instance mix_hashers.
(** The payload [[b]] is an anchor of block [b]. *)
#[local] Instance anchor_decoder : AnchorDecoder :=
  {| decode_anchor_payload := λ pl, match pl with [b] => Some (Anchor (demo_anchor b (100 * b) 7)) | _ => None end |}.
(** Every element of a multiset is one, and every serial is the same. *)
#[local] Instance unit_muhashers : MuHashers :=
  {| element_bytes := λ _, 1 :: replicate 383 0; MuHashFinalizeHash := take 32 |}.
#[local] Instance flat_hashers : NotePoolHashers :=
  {| NotePoolLeafHash := take 32; NotePoolSerialHash := λ _, replicate 32 1; NotePoolOutputsHash := take 32; NotePoolSigningHash := take 32 |}.

(** ** Blocks *)
Definition parents : gmap Hash (Hash * nat) := {[ [1] := (ORIGIN, 1%nat); [2] := ([1], 2%nat); [3] := ([1], 2%nat) ]}.
#[local] Instance fork_chain : ChainService := table_service parents.
#[local] Instance fork_reach : ReachabilityService :=
  {| is_dag_ancestor_of := λ x y, bool_decide (x = y) || bool_decide (x = [1]) && bool_decide (y = [2] ∨ y = [3]) |}.
Definition data_base : GhostdagData := mk_ghostdag 257 1 [0] [[0]] [] ∅.
Definition data_valid : GhostdagData := mk_ghostdag 258 2 [1] [[1]] [] ∅.
Definition data_invalid : GhostdagData := mk_ghostdag 258 3 [1] [[1]] [] ∅.
Definition coinbase_over (gd : GhostdagData) (rewards : gmap Hash BlockRewardData) : Transaction :=
  match expected_coinbase_transaction demo_manager 64 (cb_miner demo_data) gd rewards ∅ with
  | Ok t => template_tx t
  | _ => Payment.payment
  end.
Definition coinbase_base : Transaction := coinbase_over data_base {[ [0] := mk_reward 7 20 (mk_spk 0 [1]) ]}.
Definition coinbase_next : Transaction := coinbase_over data_valid {[ [1] := mk_reward 7 0 (miner_script (cb_miner demo_data)) ]}.
Definition bodies : gmap Hash (list Transaction) := {[ [1] := [coinbase_base]; [2] := [coinbase_next]; [3] := [coinbase_next] ]}.
Definition fork_processor : VirtualStateProcessor :=
  {| transaction_validator := Payment.validator; coinbase_manager := demo_manager; note_locks_activation := always;
     block_transactions_store := bodies; vp_ghostdag_store := {[ [1] := data_base; [2] := data_valid; [3] := data_invalid ]};
     headers_daa_scores := {[ [1] := 63; [2] := 64; [3] := 64 ]}; daa_excluded_store := {[ [1] := ∅; [2] := ∅; [3] := ∅ ]} |}.
Definition state_next : UtxoCollection := tx_apply ∅ coinbase_base 64.
Definition header (h : Hash) (utxo : Hash) : Header :=
  {| header_hash := h; header_version := 2; parents_by_level := [[[1]]];
     hash_merkle_root := []; accepted_id_merkle_root := []; utxo_commitment := utxo; pool_commitment := pool_root ∅; timestamp := 0; bits := 0; nonce := 0;
     header_daa_score := 64; header_blue_work := 2; header_blue_score := 258; pruning_point := [0] |}.
Definition env : ProcessorEnv :=
  {| block_headers := {[ [1] := header [1] []; [2] := header [2] (commitment_of state_next); [3] := header [3] [] ]};
     block_relations := {[ [1] := []; [2] := [[1]]; [3] := [[1]] ]}; merge_depth_roots := {[ [1] := [1]; [2] := [1]; [3] := [1] ]};
     finality_points := ∅; body_tips_store := [[2]; [3]]; pruning_point_store := [1]; dm_genesis := [1]; finality_depth := 1000;
     anchor_params := LAUNCH_UNKEYED |}.
Definition supply (b : Hash) : Z := if bool_decide (b = [1]) then 0 else 100.
Definition all_sequential (_ : GhostdagData) (_ : nat) : schedule := Sequential.

Lemma body_cases b l : bodies !! b = Some l → (b = [1] ∧ l = [coinbase_base]) ∨ ((b = [2] ∨ b = [3]) ∧ l = [coinbase_next]).
Proof.
  unfold bodies. rewrite !lookup_insert_Some, lookup_singleton_Some. naive_solver.
Qed.
Lemma fork_stored_cases tx : stored fork_processor tx → tx = coinbase_base ∨ tx = coinbase_next.
Proof. intros (b & l & [[_ ->]|[_ ->]]%body_cases & Htx%list_elem_of_singleton); auto. Qed.
Lemma fork_produces_nothing tx : produces tx = [].
Proof. unfold produces, op_of. by destruct (bool_decide _). Qed.

Definition body (tx : Transaction) : Block :=
  mk_block {| header_hash := [2]; header_version := 2; parents_by_level := [[[1]]]; hash_merkle_root := merkle_root [tx_hash tx];
     accepted_id_merkle_root := []; utxo_commitment := []; pool_commitment := []; timestamp := 0; bits := 0; nonce := 0;
     header_daa_score := 64; header_blue_work := 10; header_blue_score := 60; pruning_point := [0] |} [tx].
Lemma fork_body_ok tx : tx = coinbase_base ∨ tx = coinbase_next → body_valid Payment.body_processor Payment.masses (body tx).
Proof.
  intros Htx. apply (body_iff (X := unit) Payment.body_processor Payment.masses (body tx)
    (mk_mass (mk_non_contextual (totals Payment.masses [tx]).1.1 (totals Payment.masses [tx]).1.2) (mk_contextual (totals Payment.masses [tx]).2)));
    [done|done|done| |destruct Htx as [-> | ->]; vm_compute; reflexivity].
  destruct Htx as [-> | ->]; (apply Forall_cons; split; [|constructor]);
    (split; [vm_compute; reflexivity|]; split; [|by_decide]; unfold tx_unsigned; split_and!; [by_decide..|by_decide]).
Qed.
Lemma fork_store_ok : store_wf fork_processor Payment.body_processor Payment.masses.
Proof.
  split.
  - done.
  - split; try by_decide. intros ptx n i e c acc u l. unfold vm_execute, demo_engine. by case_bool_decide.
  - done.
  - intros b l [[_ ->]|[_ ->]]%body_cases; eexists; apply fork_body_ok; auto.
  - intros b cb l [[_ [= -> ->]]|[_ [= -> ->]]]%body_cases; eexists; vm_compute; reflexivity.
  - intros tx1 tx2 [-> | ->]%fork_stored_cases [-> | ->]%fork_stored_cases Heq; try done; exfalso; revert Heq; by_decide.
  - intros tx1 tx2 sn _ _ Hsn. rewrite fork_produces_nothing in Hsn. by apply not_elem_of_nil in Hsn.
Qed.

(** ** The environment *)
Lemma fork_parents_wf : table_wf parents.
Proof. by_decide. Qed.
Lemma child_cases b p : chain_child b p → (b = [1] ∧ p = ORIGIN) ∨ ((b = [2] ∨ b = [3]) ∧ p = [1]).
Proof.
  intros [_ Hp]. cbn in Hp. unfold table_parent in Hp. apply fmap_Some in Hp as (ph & Hb & ->). unfold parents in Hb.
  rewrite !lookup_insert_Some, lookup_singleton_Some in Hb. naive_solver.
Qed.
Lemma origin_not_above : ¬ on_chain [1] ORIGIN.
Proof. intros (l & Hl & Ht). destruct l as [|c l _] using rev_ind; [done|]. rewrite tip_snoc in Ht. subst c. apply links_snoc in Hl as [_ [? _]]. done. Qed.
Lemma mergeset_of b gd cb : bodies !! b = Some [cb] → (b = [1] ∨ b = [2] ∨ b = [3]) → selected_parent gd = b → mergeset_blues gd = [b] → mergeset_reds gd = [] →
  mergeset_stored fork_processor gd cb [(b, [cb])].
Proof.
  intros Hb Hc Hs Hbl Hr. split.
  - exists [], []. rewrite Hs. split; [done|]. intros E. unfold consensus_ordered_mergeset_without_selected_parent, ascending_mergeset_without_selected_parent.
    by rewrite Hbl, Hr.
  - apply Forall_cons. split; [|constructor]. split; [done|]. destruct Hc as [->|[->| ->]]; by eexists.
  - apply NoDup_singleton.
  - rewrite Hbl, Hr. by intros b' ?.
  - rewrite Hr. constructor.
Qed.
Lemma block_ok b : b = [2] ∨ b = [3] → chain_block_wf fork_processor env supply b [1].
Proof.
  intros Hb. split.
  - exists (header b (if bool_decide (b = [2]) then commitment_of state_next else [])).
    split; [destruct Hb as [-> | ->]; reflexivity|]. split; [done|]. split; [done|]. split; [by eexists|]. exists 7. split; [vm_compute; reflexivity|by_decide].
  - exists (if bool_decide (b = [2]) then data_valid else data_invalid), coinbase_base, [([1], [coinbase_base])].
    destruct Hb as [-> | ->]; (split; [reflexivity|]; split; [reflexivity|]; split; [by_decide|]; split; [by apply mergeset_of; auto|]; split; by_decide).
  - destruct Hb as [-> | ->]; by_decide.
  - exists coinbase_next, []. destruct Hb as [-> | ->]; reflexivity.
  - destruct Hb as [-> | ->]; by eexists.
Qed.
Lemma unit_elements data : byte_array 384 (element_bytes data).
Proof. by_decide. Qed.
Lemma unit_inverses r : element_product r → ∃ i, inverse_of (r mod UINT_PRIME) i.
Proof.
  intros [l Hl]. exists 1. assert (Heq : list_prod ((λ kv, elem kv.1 kv.2) <$> l) = 1).
  { clear Hl. induction l as [|kv l IH]; [done|]. rewrite fmap_cons. cbn [list_prod foldr]. unfold list_prod in IH. rewrite IH.
    assert (He : elem kv.1 kv.2 = 1) by (unfold elem, data_to_element; vm_compute; reflexivity). by rewrite He. }
  rewrite Heq in Hl. unfold cong in Hl. rewrite Hl. split; [vm_compute; reflexivity|]. split; [split; [done|vm_compute; reflexivity]|vm_compute; reflexivity].
Qed.
Lemma fork_no_serials : serials_ok ∅.
Proof. intros sn e He. by rewrite lookup_empty in He. Qed.
Lemma base_state : state_ok fork_processor ∅ ∅ ∅ 257 0 ∅ ∅ ∅.
Proof.
  split; [|by intros op e He; rewrite lookup_empty in He|apply issued_base|by_decide|done|by intros tx data _ _ Hx; apply elem_of_empty in Hx].
  split; [by intros op [e He]; rewrite lookup_empty in He|by intros sn tx _ _ [e He]; rewrite lookup_empty in He|by intros tx _ _ Hx; apply elem_of_empty in Hx].
Qed.
Lemma environment : environment_ok fork_processor env Payment.lanes Payment.body_processor Payment.masses (table_known parents) [1] ∅ ∅ ∅ supply.
Proof.
  split.
  - exact fork_store_ok.
  - exact base_state.
  - exact (table_laws _ fork_parents_wf).
  - split; [right; by eexists|done].
  - exact unit_elements.
  - exact unit_inverses.
  - intros data. by_decide.
  - exact fork_no_serials.
  - done.
  - by_decide.
  - intros b cb rest data [[-> [= -> ->]]|[Hb [= -> ->]]]%body_cases Hd.
    + vm_compute in Hd. injection Hd as <-. split; [reflexivity|by_decide].
    + vm_compute in Hd. injection Hd as <-. split; [by destruct Hb as [-> | ->]|by_decide].
  - intros b p _ Hp [[-> ->]|[Hb ->]]%child_cases; [by destruct origin_not_above|]. by apply block_ok.
Qed.

(** ** The stores before anything was verified *)
Definition chain0 : ChainStores :=
  mk_chain_stores {[ [1] := StatusUTXOValid; [2] := StatusUTXOPendingVerification; [3] := StatusUTXOPendingVerification ]} ∅ ∅
    {[ [1] := new_muhash ]} ∅ ∅.
Definition data_virtual (sink : Hash) : GhostdagData := mk_ghostdag 259 4 sink [sink] [] ∅.
Definition virtual0 : VirtualStores :=
  mk_virtual_stores (mk_virtual_state [[1]] (data_virtual [1]) 64 0 0 new_muhash UtxoAlgebra.empty_diff [] ∅ ∅)
    ∅ (PoolDiff.mk_store ∅ ∅) new_smt_store PoolDiff.empty_diff.
Definition walk0 : WalkState := mk_walk chain0 UtxoAlgebra.empty_diff PoolDiff.empty_diff.

Abbreviation valid := (valid_at fork_processor env Payment.accessor Payment.lanes Payment.pruning [1] ∅ ∅) (only parsing).
Lemma chain0_ok : chain_ok fork_processor env Payment.accessor Payment.lanes Payment.pruning (table_known parents) [1] ∅ ∅ chain0.
Proof.
  split.
  - split; [done|]. exists new_muhash. split; [done|apply commits_empty].
  - intros b par df _ _ _ Hdf. unfold chain0 in Hdf. cbn [utxo_diffs_store] in Hdf. by rewrite lookup_empty in Hdf.
  - intros b par _ Hpar [[-> ->]|[Hb ->]]%child_cases _; [by destruct origin_not_above|]. destruct Hb as [-> | ->]; split_and!; try done; by eexists.
  - intros b _ _ Hs. unfold chain0 in Hs. cbn [statuses_store] in Hs. rewrite !lookup_insert_Some, lookup_singleton_Some in Hs. naive_solver.
Qed.
Lemma empty_leads : leads ∅ ∅ UtxoAlgebra.empty_diff PoolDiff.empty_diff ∅ ∅.
Proof.
  split; split.
  - by split; intros op e; cbn; rewrite lookup_empty.
  - apply map_eq. intros op. rewrite utxo_apply_lookup. cbn. by rewrite !lookup_empty.
  - apply fits_lookup. by split; intros sn e; cbn; rewrite lookup_empty.
  - apply map_eq. intros sn. rewrite apply_diff_lookup. cbn. by rewrite !lookup_empty.
Qed.
Lemma start0 : at_block fork_processor env Payment.accessor Payment.lanes Payment.pruning (table_known parents) [1] ∅ ∅ virtual0 walk0 [1].
Proof. split; [exact chain0_ok|]. split; [by left|]. exists ∅, ∅. split; [constructor|exact empty_leads]. Qed.
Lemma issued0 : virtual_issued fork_processor ∅ ∅ ∅ virtual0.
Proof. unfold virtual_issued. split; [change (utxo_set virtual0) with (∅ : UtxoCollection)|replace (store_map (pool_state virtual0)) with (∅ : PoolCollection) by reflexivity]; intros k e He; by rewrite lookup_empty in He. Qed.
Lemma known_cases b : b = [1] ∨ b = [2] ∨ b = [3] → table_known parents b.
Proof. intros [->|[->| ->]]; right; by eexists. Qed.
Lemma above_base b : b = [1] ∨ b = [2] ∨ b = [3] → on_chain [1] b.
Proof. intros [->|[->| ->]]; [exists []|exists [[2]]|exists [[3]]]; by_decide. Qed.

(** From the base to the valid block, to the invalid one, and back. *)
Lemma reorgs_land_witness :
  ∃ w', try_fold (λ st to, calculate_utxo_state_relatively (E := unit) fork_processor env Payment.accessor Payment.lanes Payment.pruning all_sequential
      virtual0 st.2 st.1 to) ([1], walk0) [[2]; [3]; [2]] = Ok ([2], w') ∧
    UtxoAlgebra.apply_diff ∅ (wk_diff w') = state_next ∧ statuses_store (wk_stores w') !! [2] = Some StatusUTXOValid ∧
    statuses_store (wk_stores w') !! [3] = Some StatusDisqualifiedFromChain.
Proof.
  destruct (reorgs_land fork_processor env Payment.accessor Payment.lanes Payment.pruning all_sequential Payment.body_processor Payment.masses
    (table_known parents) [1] ∅ ∅ ∅ supply environment (E := unit) virtual0 walk0 [1] [[2]; [3]; [2]]) as (x & w' & Hrun & _ & _).
  - exact issued0.
  - apply known_cases. auto.
  - exact start0.
  - repeat (apply Forall_cons; split); [..|constructor]; (split; [apply known_cases|apply above_base]; auto).
  - exists w'. assert (Hx : match try_fold (λ st to, calculate_utxo_state_relatively (E := unit) fork_processor env Payment.accessor Payment.lanes
      Payment.pruning all_sequential virtual0 st.2 st.1 to) ([1], walk0) [[2]; [3]; [2]] with
      | Ok (x, w') => bool_decide (x = [2]) && bool_decide (UtxoAlgebra.apply_diff ∅ (wk_diff w') = state_next) &&
          bool_decide (statuses_store (wk_stores w') !! [2] = Some StatusUTXOValid ∧ statuses_store (wk_stores w') !! [3] = Some StatusDisqualifiedFromChain)
      | _ => false
      end = true) by (vm_compute; reflexivity).
    rewrite Hrun in Hx. apply andb_true_iff in Hx as [[Hx1 Hx2]%andb_true_iff Hx3]. apply bool_decide_eq_true in Hx1, Hx2, Hx3. subst x.
    split; [exact Hrun|]. split; [exact Hx2|exact Hx3].
Defined.

(** ** The search *)
Lemma parent_cases x y : parent_of (block_relations env) x y → x = [1] ∧ (y = [2] ∨ y = [3]).
Proof.
  intros (ps & Hps & Hx). cbn [env block_relations] in Hps. rewrite !lookup_insert_Some, lookup_singleton_Some in Hps.
  destruct Hps as [[<- <-]|(_ & [[<- <-]|(_ & <- & <-)])]; [by apply elem_of_nil in Hx|apply list_elem_of_singleton in Hx; auto..].
Qed.
Lemma fork_anc_cases x y : Dag.ancestor (block_relations env) x y ↔ x = y ∨ x = [1] ∧ (y = [2] ∨ y = [3]).
Proof.
  split.
  - induction 1 as [|x z y Hxz _ IH]; [by left|]. apply parent_cases in Hxz as [-> Hz]. right. split; [done|]. destruct IH as [<-|[-> _]]; [done|]. by destruct Hz.
  - intros [->|[-> Hy]]; [apply rtc_refl|]. apply rtc_once. exists [[1]]. split; [by destruct Hy as [-> | ->]|by left].
Qed.
Lemma past_cases x : in_past env [[2]; [3]] x ↔ x = [1] ∨ x = [2] ∨ x = [3].
Proof.
  split.
  - intros (y & Hy & Hx). rewrite !elem_of_cons, elem_of_nil in Hy. apply fork_anc_cases in Hx. naive_solver.
  - intros Hx. destruct (decide (x = [3])) as [->|Hne]; [exists [3]|exists [2]]; (split; [set_solver|]); apply fork_anc_cases; naive_solver.
Qed.
Lemma search0 : search_ok fork_processor env (table_known parents) [1] [1] [[2]; [3]].
Proof.
  split.
  - by_decide.
  - intros y Hy. rewrite !elem_of_cons, elem_of_nil in Hy. destruct Hy as [->|[->|[]]]; reflexivity.
  - intros x y Hx Hy [->|[-> _]]%fork_anc_cases; [done|]. rewrite !elem_of_cons, elem_of_nil in Hx. naive_solver.
  - intros x Hx%past_cases _. destruct Hx as [->|[->| ->]]; (split; [by eexists|]; split; [apply known_cases; auto|]; split; by eexists).
  - intros x y _ _. rewrite fork_anc_cases. cbn [is_dag_ancestor_of fork_reach]. by rewrite orb_true_iff, andb_true_iff, !bool_decide_eq_true.
  - intros x y _ [-> Hy]%parent_cases _ _. destruct Hy as [-> | ->]; by_decide.
  - intros x y c _ [-> _]%parent_cases [-> _]%parent_cases _. done.
  - split; [apply past_cases; auto|]. split; [apply known_cases; auto|apply on_chain_refl].
  - intros x Hx%past_cases _. destruct Hx as [->|[->| ->]]; reflexivity.
Qed.
Lemma eligible0 : ∃ g, eligible fork_processor env Payment.accessor Payment.lanes Payment.pruning [1] ∅ ∅ [1] None [[2]; [3]] g.
Proof. exists [1]. split; [apply past_cases; auto|]. split; [by split|]. exists ∅, ∅. constructor. Qed.

(** The heavier block is refused, the valid one found. *)
Lemma sink_search_finds_witness :
  ∃ candidates w', sink_search_algorithm (E := unit) fork_processor env Payment.accessor Payment.lanes Payment.pruning all_sequential
    virtual0 [1] None walk0 [1] [[2]; [3]] = Ok ([2], candidates, w').
Proof.
  destruct (sink_search_finds fork_processor env Payment.accessor Payment.lanes Payment.pruning all_sequential Payment.body_processor Payment.masses
    (table_known parents) [1] ∅ ∅ ∅ supply environment virtual0 issued0 [1] None [[2]; [3]] search0 (E := unit) [1] walk0) as (x & c & w' & Hrun & _).
  - apply known_cases. auto.
  - exact start0.
  - exact eligible0.
  - exists c, w'. assert (Hx : match sink_search_algorithm (E := unit) fork_processor env Payment.accessor Payment.lanes Payment.pruning all_sequential
      virtual0 [1] None walk0 [1] [[2]; [3]] with Ok (x, _, _) => bool_decide (x = [2]) | _ => false end = true) by (vm_compute; reflexivity).
    rewrite Hrun in Hx. apply bool_decide_eq_true in Hx. by subst x.
Defined.

(** One node starts at the base, the other where a walk to the valid block left it. *)
Lemma sinks_agree_witness :
  ∃ prev2 w2 sink c1 c2 w1' w2',
    calculate_utxo_state_relatively (E := unit) fork_processor env Payment.accessor Payment.lanes Payment.pruning all_sequential virtual0 walk0 [1] [2] = Ok (prev2, w2) ∧
    sink_search_algorithm (E := unit) fork_processor env Payment.accessor Payment.lanes Payment.pruning all_sequential virtual0 [1] None walk0 [1] [[2]; [3]] =
      Ok (sink, c1, w1') ∧
    sink_search_algorithm (E := unit) fork_processor env Payment.accessor Payment.lanes Payment.pruning all_sequential virtual0 [1] None w2 prev2 [[2]; [3]] =
      Ok (sink, c2, w2') ∧
    UtxoAlgebra.apply_diff ∅ (wk_diff w1') = UtxoAlgebra.apply_diff ∅ (wk_diff w2').
Proof.
  destruct (reorg_spec fork_processor env Payment.accessor Payment.lanes Payment.pruning all_sequential Payment.body_processor Payment.masses
    (table_known parents) [1] ∅ ∅ ∅ supply environment (E := unit) virtual0 walk0 [1] [2]) as (prev2 & w2 & Hwalk & _ & Hw2 & Hk2 & _);
    [exact issued0|apply known_cases; auto|apply known_cases; auto|apply above_base; auto|exact start0|].
  destruct (sinks_agree fork_processor env Payment.accessor Payment.lanes Payment.pruning all_sequential Payment.body_processor Payment.masses
    (table_known parents) [1] ∅ ∅ ∅ supply environment (E := unit) virtual0 virtual0 walk0 w2 [1] prev2 [1] None [[2]; [3]])
    as (sink & c1 & c2 & w1' & w2' & Hr1 & Hr2 & Hs & _).
  - exact search0.
  - exact eligible0.
  - exact issued0.
  - exact issued0.
  - apply known_cases. auto.
  - exact Hk2.
  - exact start0.
  - exact Hw2.
  - exists prev2, w2, sink, c1, c2, w1', w2'. by split_and!.
Defined.

(** ** One resolution *)
Definition processor0 : ProcessorState :=
  mk_processor chain0 virtual0 (mk_chain_store {[ 0 := [1] ]} {[ [1] := 0 ]} (Some 0)) (AnchorState.mk_store None [] None None).
Definition pick (sink : Hash) (_ : list Hash) (_ : Hash) : list Hash * GhostdagData := ([sink], data_virtual sink).
Definition window (_ : GhostdagData) : outcome (RuleError TxScriptError) VirtualWindow := Ok (mk_window 70 0 0 ∅).
Definition seq_commit (_ : UtxoProcessingContext) (_ : GhostdagData) (_ : Z) : Hash := [].

Lemma pool0 : store_map (pool_state virtual0) = ∅.
Proof. reflexivity. Qed.
Lemma processor0_ok : processor_ok fork_processor env Payment.accessor Payment.lanes Payment.pruning (table_known parents) [1] ∅ ∅ ∅ 0 processor0.
Proof.
  split; cbn [processor0 ps_virtual ps_chain ps_selected_chain].
  - split; [exact chain0_ok|]. split; [by left|]. apply known_cases. auto.
  - exists ∅, ∅. split; [constructor|]. exact empty_leads.
  - exact issued0.
  - exact commits_empty.
  - intros sn [l Hl]. cbn in Hl. by rewrite lookup_empty in Hl.
  - rewrite pool0. apply tracks_empty.
  - exists []. split; [done|]. split; [done|]. apply (init_indexes (mk_chain_store ∅ ∅ None)).
Qed.
Lemma round0 : round_ok fork_processor env Payment.accessor Payment.lanes Payment.pruning (table_known parents) [1] ∅ ∅ supply window pick 0 processor0 [1] None [[2]; [3]].
Proof.
  split.
  - reflexivity.
  - reflexivity.
  - exists (header [1] []). by split.
  - exact search0.
  - exact eligible0.
  - intros sink cands (Hx%past_cases & _). cbn zeta. split; [done|].
    exists (if bool_decide (sink = [1]) then coinbase_base else coinbase_next), [(sink, [if bool_decide (sink = [1]) then coinbase_base else coinbase_next])],
      (mk_window 70 0 0 ∅). split; [|split; [|by split]].
    + apply mergeset_of; [|done|done|done|done]. destruct Hx as [->|[->| ->]]; reflexivity.
    + destruct Hx as [->|[->| ->]]; by_decide.
  - split; [done|]. intros b [->|[[p h] Hb]]; [done|]. assert (Hh : (table_height parents b ≤ 2)%nat).
    { unfold table_height. rewrite Hb. cbn. unfold parents in Hb. rewrite !lookup_insert_Some, lookup_singleton_Some in Hb. naive_solver lia. }
    change (get_height b) with (table_height parents b). unfold u64_max. lia.
Qed.
Lemma commitments0 : commitments_ok fork_processor env ∅ ∅ ∅.
Proof.
  split.
  - intros s p [_ Hp]. assert (p = ∅) as ->.
    { apply map_eq. intros sn. rewrite lookup_empty. destruct (p !! sn) as [e|] eqn:He; [|done]. destruct (Hp sn e He) as [Hx|(tx & _ & _ & Hx)].
      - by rewrite lookup_empty in Hx.
      - assert (Hin : sn ∈ produces tx) by (apply issue_produces; by eexists). rewrite fork_produces_nothing in Hin. by apply elem_of_nil in Hin. }
    unfold leaves. rewrite fmap_empty. split; [by intros k h Hk; rewrite lookup_empty in Hk|apply no_siblings_empty].
  - by intros keys Hk.
  - intros [|b [|]] pl Hpl; cbn in Hpl; [done| |done]. by injection Hpl as <-.
Qed.

(** ** The start of a node that knows the three headers *)
Definition new_node : ProcessorState :=
  mk_processor (mk_chain_stores {[ [1] := StatusUTXOPendingVerification; [2] := StatusUTXOPendingVerification; [3] := StatusUTXOPendingVerification ]} ∅ ∅ ∅ ∅ ∅)
    (mk_virtual_stores (virtual_state virtual0) ∅ (PoolDiff.mk_store ∅ ∅) new_smt_store PoolDiff.empty_diff)
    (mk_chain_store ∅ ∅ None) (AnchorState.mk_store None [] None None).
Definition fork_genesis : GenesisBlock := mk_genesis [1] 0x207fffff 0 63.
Lemma genesis_starts_witness :
  ∃ st', process_genesis (H9 := Diamond.diamond_reach) (E := unit) Diamond.diamond0 (λ _, []) fork_genesis new_node = Ok st' ∧
    get_tip (ps_selected_chain st') = Some (0, [1]).
Proof.
  destruct (genesis_starts (H10 := Diamond.diamond_reach) fork_processor env Payment.accessor Payment.lanes Payment.pruning Payment.body_processor Payment.masses
    (table_known parents) [1] ∅ ∅ ∅ supply environment commitments0 (E := unit) Diamond.diamond0 (λ _, []) fork_genesis new_node) as (st' & Hrun & [_ _ _ _ _ _ Hix] & Hs).
  - reflexivity.
  - reflexivity.
  - reflexivity.
  - split; [done|done| |done|done]. intros b [->|[[p h] Hb]] (l & Hl & Ht) Hne.
    + destruct l as [|c l _] using rev_ind; [done|]. rewrite tip_snoc in Ht. apply links_snoc in Hl as [_ [Ho _]]. done.
    + exists StatusUTXOPendingVerification. unfold parents in Hb. rewrite !lookup_insert_Some, lookup_singleton_Some in Hb.
      assert (Hx : b = [1] ∨ b = [2] ∨ b = [3]) by naive_solver. split; [by destruct Hx as [->|[->| ->]]|done].
  - apply grown_init; [apply Diamond.diamond_relations_ok|done].
  - reflexivity.
  - apply Diamond.diamond0_work.
  - apply Diamond.diamond_size. by_decide.
  - exists st'. split; [exact Hrun|]. destruct Hix as (l & Hl & Ht & [_ _]). assert (Hx : match process_genesis (H9 := Diamond.diamond_reach) (E := unit) Diamond.diamond0 (λ _, []) fork_genesis new_node
      with Ok st => get_tip (ps_selected_chain st) | _ => None end = Some (0, [1])) by (vm_compute; reflexivity).
    by rewrite Hrun in Hx.
Defined.
End Fork.
